(* ===== verification/_CoqProject ===== *)
-Q . S2P
Prelude.v
Wire.v
Varint.v
StringBytes.v
TaggedFields.v
Compression.v
Records.v
Batches.v
BatchStore.v
LogIndex.v
Segment.v
SegmentInv.v
SegmentRead.v
SegmentTime.v
SegmentCases.v
Kernels.v
Voters.v
Kraft.v
KraftMachine.v
KraftInvariant.v
KraftCluster.v
Sim.v
SimRefinement.v
SnapshotFetch.v
Decimal.v
LeaderEpoch.v
ProducerSnapshot.v
StampIndex.v
Compaction.v
Swap.v
Tracking.v
Retention.v
Log.v
LogInv.v
LogCut.v
LogRead.v
LogOpen.v
LogCases.v
ProducerState.v
ReplicaState.v
Divergence.v
Replication.v
ReplicationCases.v
Follower.v
Mvcc.v
MvccEngine.v
Authz.v
TxnState.v
TxnLog.v
TxnCoord.v
TxnCases.v
TxnInv.v
TxnSpec.v
TxnRecovery.v
TxnMarker.v
