(* ===== verification/Prelude.v ===== *)
(** * Crabka: a verification library

    Crabka is a Kafka broker in Rust with a KRaft quorum, a segmented log, the
    Kafka wire protocol, and a SQL engine (Gres) beside it.  This library models its
    core as Rocq functions and proves what makes it correct.  Paths below are
    relative to [src/crates].

    ** The parts and how they interact

    Clients speak the wire protocol ([protocol], [compression]); a Produce is checked
    for duplicates ([broker/src/producer_state.rs]), appended to the log of its
    partition by a single writer ([log], [broker/src/partition_writer.rs]) and
    acknowledged when the high watermark covers it ([broker/src/replica_state.rs],
    [broker/src/partition.rs]).  Followers copy the log of their leader and truncate
    where it diverges ([broker/src/replicator.rs], [broker/src/handlers/fetch.rs]).
    A quorum of controllers elects the leader of the metadata log ([kraft-core],
    [voters], [verified]).  The SQL engine keeps versions of rows and removes those
    no snapshot sees ([pgmvcc], [pgexec]).  A transaction of a producer is kept by a
    coordinator, which writes its outcome into every partition it touched
    ([broker/src/txn]); requests are authorized by access control entries from the
    metadata log ([authz], [metadata]).

    ** Wire protocol and records

    - [Wire.v]: errors, decoders that consume a byte list, fixed-width integers
      ([protocol/src/error.rs], [primitives/fixed.rs], [primitives/uuid.rs]);
    - [Varint.v], [StringBytes.v], [TaggedFields.v]: the other primitives;
    - [Compression.v]: the codec dispatch of [compression/src] with its output cap and
      the Xerial framing of Snappy; the codecs are an interface, [BackendLaws];
    - [Records.v], [Batches.v]: attributes, records and batches of magic 2, decoded
      into owned values and borrowed ones, validated without decoding, patched in
      place ([protocol/src/records]).

    The theorems are round trips, agreement of the fast paths with the decoders,
    canonical lengths, and the errors of malformed input.

    ** Consensus

    - [Kernels.v]: the pure kernels of [verified/src]; [Voters.v]: voter sets;
    - [Kraft.v]: the quorum state machine of [kraft-core/src/core.rs], every handler;
      [KraftMachine.v], [KraftInvariant.v]: its invariants and local properties;
    - [KraftCluster.v]: machines over a network that loses, delays, reorders and
      duplicates messages, with restarts, as a step relation: election safety,
      agreement on the leader, and the run that breaks them when a voter is asked
      again for a vote of the epoch in which it already follows a leader;
    - [Sim.v], [SimRefinement.v]: the simulator of [kraft-core/src/sim.rs] and the
      simulation that makes each of its runs a run of the cluster;
    - [SnapshotFetch.v]: the reassembly of a metadata snapshot and the handlers of
      [raft/src/kraft/controller.rs] on both sides of the transfer, which ends after a
      bounded number of rounds with the leader's bytes.

    ** The log

    - [BatchStore.v]: what the log relies on from the batch codec, as a class with the
      codec of [Batches.v] as its instance;
    - [LogIndex.v], [Segment.v]: index files and segments; [SegmentInv.v],
      [SegmentRead.v], [SegmentTime.v], [SegmentCases.v]: the batches a segment
      holds, what its reads and timestamp lookups return, and instances;
    - [Decimal.v], [LeaderEpoch.v], [ProducerSnapshot.v], [StampIndex.v]: file names
      and the sidecar files, with round trips;
    - [Compaction.v], [Swap.v], [Retention.v]: rewriting sealed segments, with what a
      reader sees of a record (its timestamp included) before and after; replacing
      files under crashes, all but those between renames when an index of aborted
      transactions is carried over; and eviction;
    - [Tracking.v], [Log.v]: producers, transactions and the operations of a log, in a
      state and error monad; [LogInv.v], [LogCut.v], [LogRead.v], [LogOpen.v],
      [LogCases.v]: its content as a list of batches, and what appends, truncation,
      trimming, retention, fetches and reopening do to it.

    ** Partitions in the broker

    - [ProducerState.v]: the tracker of idempotent producers and the Produce handler
      around it, as steps that interleave: stored sequences, retries, restarts;
    - [ReplicaState.v]: in-sync replicas, the high watermark, and promotions, whose
      publication of the target and installation of the in-sync set are steps of their
      own: what an acknowledged offset means, and where it falls short;
    - [Divergence.v], [Replication.v], [ReplicationCases.v]: the epoch checks of a
      leader, the fetch round of a follower on its log, and instances: a follower
      extends a prefix of its leader's log, or is cut back to one, when both logs
      descend from the logs of the leaders of their epochs;
    - [Follower.v]: the whole response handler, on the log, the replica state and the
      producers together, whatever each of its looks at the target finds.

    ** Transactions and authorization

    - [TxnState.v]: the entry of a transactional id, its transitions, versions, timeouts
      and the pure decisions of the handlers; where an id is hashed to;
    - [TxnLog.v]: the records of [__transaction_state];
    - [TxnCoord.v]: the coordinator and every handler that changes an entry.  Entries are
      cells that handlers share through references, as the source shares them through
      [Arc<Mutex>]; each section under a lock, each append and each fan-out is a step in
      a state and error monad, and lists in the state say which of them fail;
    - [TxnInv.v]: Hoare triples for the handlers; identities only advance, and an
      earlier one can no longer register, join offsets, end or (while its producer id
      is the entry's) produce;
    - [TxnSpec.v]: an abstract service that opens and ends transactions, and the
      simulation by which the coordinator refines it as long as no failure leaves a
      transaction between its decision and its completion;
    - [TxnRecovery.v]: what was put survives a restart; [TxnMarker.v]: the marker batch
      and what it does to the log of a partition, on top of [LogInv.v];
    - [TxnCases.v]: what becomes of a decided commit whose fan-out failed, from any
      state, and runs in which the coordinator falls short of its comments;
    - [Authz.v]: access control entries, the image that keeps them, and who is allowed.

    ** The SQL engine

    - [Mvcc.v]: the commit log, tuple versions, visibility, dead versions and pins; and
      the reclaim floor of [pgexec/src/ts_gc.rs], with pruning, batches from elsewhere
      and reopening;
    - [MvccEngine.v]: transactions, sessions, the writers' stamps, vacuum with the
      truncation of the commit log, and restarts of a local engine side by side, each
      access to shared state a step of its own: removed versions are invisible,
      snapshots are repeatable, transaction ids are not reused.

    ** Conventions

    A w-bit integer is a [Z], with [wrap_s], [sat_s] and the like where the source
    wraps or saturates and [in_s], [in_u] for its range; an error is a value of
    [result]; a file is a list of bytes and a directory a map; a [HashMap] is a
    [gmap].  Loops that are not structural take fuel: at least the bytes that remain
    (every round consumes one), the number of segments, or the offsets that remain;
    lemmas show that this is enough, and timestamp scans, which may not end on a log
    sealed beyond its last batch, return an option.  Code outside the repository (the
    compression codecs, CRC-32C, the search of a sorted slice, a source of stamps) is
    an interface with its documented laws, and instances show that they can hold.

    ** Not modelled

    I/O errors and fsync (files are values, so creating a segment file when the log
    rolls does not fail; crashes between operations are modelled where the code
    handles them, in [Swap.v], and failing appends in [TxnCoord.v]);
    threads, channels and timers, beyond the interleavings above: requests to the
    transaction coordinator run one after another except in [TxnCases.v], and the
    clock is an argument; the registration of offsets through a remote coordinator and
    the publication of committed offsets; the generated messages of [protocol], which
    are built from the primitives; the network services, the group and share
    coordinators, clients, gateways, operators and query engines of the other crates,
    which are mostly asynchronous I/O around libraries; the rest of the metadata
    image, a record of independent tables; the parser, planner, row encoding and
    catalog of the SQL engine; its prepared transactions, the undo of savepoints, the
    skipping of settled tables by vacuum, and the transaction ids of replicated engines. *)

From Stdlib Require Export ZArith Lia Bool Init.Byte Strings.Byte.
From stdpp Require Export base tactics list gmap sets fin_maps fin_sets option numbers.
From stdpp Require Export strings sorting.

#[global] Open Scope Z_scope.

(** [wire] collects the lengths of encoded fields. *)
Create Rewrite HintDb wire.
#[export] Hint Rewrite @length_app : wire.

(** ** Results

    Rust's [Result<A, E>] with the error type first, so that [result E] is a
    monad and stdpp's [x ← m; k] notation plays the role of the [?] operator. *)
Inductive result (E A : Type) : Type :=
| Ok (a : A)
| Err (e : E).
Arguments Ok {E A} a.
Arguments Err {E A} e.

#[global] Instance result_ret E : MRet (result E) := fun A a => Ok a.
#[global] Instance result_bind E : MBind (result E) :=
  fun A B f m => match m with Ok a => f a | Err e => Err e end.
#[global] Instance result_fmap E : FMap (result E) :=
  fun A B f m => match m with Ok a => Ok (f a) | Err e => Err e end.

(** [map_err] of [Result]. *)
Definition map_err {E F A} (f : E → F) (m : result E A) : result F A :=
  match m with Ok a => Ok a | Err e => Err (f e) end.

Definition is_Ok {E A} (m : result E A) : Prop := ∃ a, m = Ok a.

Lemma bind_Ok {E A B} (m : result E A) (f : A → result E B) b :
  m ≫= f = Ok b ↔ ∃ a, m = Ok a ∧ f a = Ok b.
Proof.
  destruct m as [a|e]; simpl; split.
  - intros H; eauto.
  - intros (a' & [= <-] & H); done.
  - done.
  - intros (? & ? & _); done.
Qed.

Lemma Ok_inj {E A} (a b : A) : @Ok E A a = Ok b → a = b.
Proof. by intros [= ->]. Qed.

(** Two computations that succeed on the same inputs with the same value,
    whatever their errors are. *)
Definition same_outcome {E F A} (m : result E A) (n : result F A) : Prop :=
  match m, n with
  | Ok a, Ok b => a = b
  | Err _, Err _ => True
  | _, _ => False
  end.

Lemma same_outcome_refl {E A} (m : result E A) : same_outcome m m.
Proof. by destruct m. Qed.

Lemma same_outcome_sym {E F A} (m : result E A) (n : result F A) :
  same_outcome m n → same_outcome n m.
Proof. by destruct m, n. Qed.

Lemma same_outcome_bind {E F A B} (m : result E A) (n : result F A)
    (f : A → result E B) (g : A → result F B) :
  same_outcome m n → (∀ a, same_outcome (f a) (g a)) →
  same_outcome (m ≫= f) (n ≫= g).
Proof. destruct m, n; simpl; intros Hmn Hfg; subst; auto; done. Qed.

Lemma same_outcome_map_err_l {E E' F A} (f : E → E') (m : result E A) (n : result F A) :
  same_outcome m n → same_outcome (map_err f m) n.
Proof. by destruct m, n. Qed.

Lemma same_outcome_map_err_r {E F F' A} (f : F → F') (m : result E A) (n : result F A) :
  same_outcome m n → same_outcome m (map_err f n).
Proof. by destruct m, n. Qed.

Lemma same_outcome_Ok {E F A} (m : result E A) (n : result F A) a :
  same_outcome m n → m = Ok a ↔ n = Ok a.
Proof. destruct m, n; simpl; intros; subst; naive_solver. Qed.

(** ** Machine integers

    A [w]-bit Rust integer is the [Z] it denotes; [in_u w] and [in_s w] are the
    ranges of [u<w>] and [i<w>].  [wrap_u], [wrap_s] are the wrapping casts,
    [sat_u], [sat_s] the saturating ones. *)
Definition in_u (w z : Z) : Prop := 0 ≤ z < 2 ^ w.
Definition in_s (w z : Z) : Prop := - 2 ^ (w - 1) ≤ z < 2 ^ (w - 1).
Definition wrap_u (w z : Z) : Z := z mod 2 ^ w.
Definition wrap_s (w z : Z) : Z := (z + 2 ^ (w - 1)) mod 2 ^ w - 2 ^ (w - 1).
Definition sat_u (w z : Z) : Z := Z.max 0 (Z.min (2 ^ w - 1) z).
Definition sat_s (w z : Z) : Z := Z.max (- 2 ^ (w - 1)) (Z.min (2 ^ (w - 1) - 1) z).

#[global] Arguments wrap_u : simpl never.
#[global] Arguments wrap_s : simpl never.
#[global] Arguments sat_u : simpl never.
#[global] Arguments sat_s : simpl never.

#[global] Instance in_u_dec w z : Decision (in_u w z).
Proof. unfold in_u. apply _. Defined.
#[global] Instance in_s_dec w z : Decision (in_s w z).
Proof. unfold in_s. apply _. Defined.

Lemma wrap_u_range w z : 0 ≤ w → in_u w (wrap_u w z).
Proof. intros. apply Z.mod_pos_bound. lia. Qed.

Lemma wrap_u_id w z : in_u w z → wrap_u w z = z.
Proof. apply Z.mod_small. Qed.

Lemma pow_half w : 0 < w → 2 ^ w = 2 * 2 ^ (w - 1).
Proof. intros. rewrite <- Z.pow_succ_r by lia. f_equal; lia. Qed.

Lemma wrap_s_range w z : 0 < w → in_s w (wrap_s w z).
Proof.
  intros Hw. unfold in_s, wrap_s. pose proof (pow_half w Hw).
  pose proof (Z.mod_pos_bound (z + 2 ^ (w - 1)) (2 ^ w)). lia.
Qed.

Lemma wrap_s_id w z : 0 < w → in_s w z → wrap_s w z = z.
Proof.
  intros Hw [??]. unfold wrap_s. pose proof (pow_half w Hw).
  rewrite Z.mod_small; lia.
Qed.

(** Reinterpreting a signed value as unsigned and back ([cast_unsigned],
    [cast_signed]) is the identity. *)
Lemma wrap_s_wrap_u w z : 0 < w → in_s w z → wrap_s w (wrap_u w z) = z.
Proof.
  intros Hw Hz. unfold wrap_s, wrap_u.
  rewrite Zplus_mod_idemp_l. by apply (wrap_s_id w z).
Qed.

Lemma wrap_u_wrap_s w z : 0 < w → in_u w z → wrap_u w (wrap_s w z) = z.
Proof.
  intros Hw Hz. unfold wrap_s, wrap_u.
  rewrite Zminus_mod_idemp_l. replace (z + _ - _) with z by lia.
  by apply Z.mod_small.
Qed.

Lemma sat_s_id w z : in_s w z → sat_s w z = z.
Proof. unfold in_s, sat_s. lia. Qed.

Lemma sat_u_id w z : in_u w z → sat_u w z = z.
Proof. unfold in_u, sat_u. lia. Qed.

(** ** Bytes

    [u8] values are [Byte.byte]; [byte_of_Z] truncates like [as u8]. *)
Definition Z_of_byte (b : byte) : Z := Z.of_N (Byte.to_N b).
Definition byte_of_Z (z : Z) : byte :=
  match Byte.of_N (Z.to_N (z mod 256)) with Some b => b | None => x00 end.

#[global] Arguments byte_of_Z : simpl never.
#[global] Arguments Z_of_byte : simpl never.

Lemma Z_of_byte_range b : 0 ≤ Z_of_byte b < 256.
Proof. unfold Z_of_byte. pose proof (Byte.to_N_bounded b). lia. Qed.

Lemma Z_of_byte_of_Z z : Z_of_byte (byte_of_Z z) = z mod 256.
Proof.
  unfold Z_of_byte, byte_of_Z.
  pose proof (Z.mod_pos_bound z 256 ltac:(lia)) as Hz.
  destruct (Byte.of_N _) as [b|] eqn:Hb.
  - apply Byte.to_of_N in Hb. rewrite Hb. lia.
  - apply Byte.of_N_None_iff in Hb. lia.
Qed.

Lemma byte_of_Z_of_byte b : byte_of_Z (Z_of_byte b) = b.
Proof.
  unfold byte_of_Z. rewrite Z.mod_small by apply Z_of_byte_range.
  unfold Z_of_byte. rewrite N2Z.id, Byte.of_to_N. done.
Qed.

#[global] Instance Z_of_byte_inj : Inj (=) (=) Z_of_byte.
Proof.
  intros b c H. rewrite <- (byte_of_Z_of_byte b), H. apply byte_of_Z_of_byte.
Qed.

#[global] Instance byte_eq_dec : EqDecision byte := Byte.byte_eq_dec.
#[global] Instance byte_countable : Countable byte := inj_countable' Z_of_byte byte_of_Z byte_of_Z_of_byte.

(** Big-endian layout: [to_be_bytes] of an [n]-byte integer and its inverse. *)
Fixpoint be_bytes (n : nat) (z : Z) : list byte :=
  match n with
  | O => []
  | S m => byte_of_Z (Z.shiftr z (8 * Z.of_nat m)) :: be_bytes m z
  end.

Fixpoint be_value (l : list byte) : Z :=
  match l with
  | [] => 0
  | b :: l => Z_of_byte b * 2 ^ (8 * Z.of_nat (length l)) + be_value l
  end.

Lemma length_be_bytes n z : length (be_bytes n z) = n.
Proof. induction n; simpl; auto. Qed.

Lemma be_value_bytes n z : be_value (be_bytes n z) = wrap_u (8 * Z.of_nat n) z.
Proof.
  induction n as [|n IH]; simpl.
  - unfold wrap_u. by rewrite Z.mod_1_r.
  - rewrite IH, length_be_bytes, Z_of_byte_of_Z, Z.shiftr_div_pow2 by lia.
    unfold wrap_u. set (p := 2 ^ (8 * Z.of_nat n)).
    assert (0 < p) by (subst p; lia).
    replace (2 ^ (8 * Z.of_nat (S n))) with (p * 256)
      by (subst p; rewrite <- (Z.pow_add_r 2 _ 8) by lia; f_equal; lia).
    rewrite Z.rem_mul_r by lia. lia.
Qed.

Lemma be_value_range l : 0 ≤ be_value l < 2 ^ (8 * Z.of_nat (length l)).
Proof.
  induction l as [|b l IH]; simpl; [lia|].
  pose proof (Z_of_byte_range b).
  replace (8 * Z.of_nat (S (length l))) with (8 * Z.of_nat (length l) + 8) by lia.
  rewrite Z.pow_add_r by lia. nia.
Qed.

(** Decoding then encoding gives back the bytes: the layout is a bijection. *)
Lemma be_bytes_add n z k :
  be_bytes n (k * 2 ^ (8 * Z.of_nat n) + z) = be_bytes n z.
Proof.
  revert k. induction n as [|n IH]; intros k; simpl; [done|].
  replace (8 * Z.of_nat (S n)) with (8 + 8 * Z.of_nat n) by lia.
  rewrite Z.pow_add_r, Z.mul_assoc by lia. f_equal; [|apply IH].
  apply Z_of_byte_inj. rewrite !Z_of_byte_of_Z, !Z.shiftr_div_pow2 by lia.
  rewrite Z.div_add_l by lia. change (2 ^ 8) with 256.
  by rewrite Z.add_comm, Z_mod_plus_full.
Qed.

Lemma be_bytes_value l : be_bytes (length l) (be_value l) = l.
Proof.
  induction l as [|b l IH]; simpl; [done|].
  pose proof (be_value_range l). rewrite be_bytes_add, IH. f_equal.
  apply Z_of_byte_inj. pose proof (Z_of_byte_range b).
  rewrite Z_of_byte_of_Z, Z.shiftr_div_pow2, Z.div_add_l by lia.
  rewrite Z.div_small, Z.add_0_r, Z.mod_small by lia. done.
Qed.

(** ** Bit operations *)
Lemma lor_disjoint s r x :
  0 ≤ s → 0 ≤ r < 2 ^ s → Z.lor r (Z.shiftl x s) = r + x * 2 ^ s.
Proof.
  intros Hs Hr. rewrite <- Z.shiftl_mul_pow2 by lia.
  pose proof (Z.add_lor_land r (Z.shiftl x s)) as Hadd.
  assert (Z.land r (Z.shiftl x s) = 0) as Hz; [|lia].
  apply Z.bits_inj'. intros i Hi. rewrite Z.land_spec, Z.bits_0.
  destruct (decide (i < s)) as [Hlt|Hge].
  - rewrite Z.shiftl_spec_low by lia. apply andb_false_r.
  - rewrite <- (Z.mod_small r (2 ^ s)), Z.mod_pow2_bits_high by lia. done.
Qed.

Lemma land_7F v : Z.land v 0x7F = v mod 128.
Proof. apply (Z.land_ones v 7). lia. Qed.

Lemma land_not_7F v : Z.land v (Z.lnot 0x7F) = v / 128 * 128.
Proof.
  change (Z.land v (Z.lnot 0x7F)) with (Z.land v (Z.lnot (Z.ones 7))).
  rewrite <- Z.ldiff_land, Z.ldiff_ones_r by lia.
  by rewrite Z.shiftl_mul_pow2, Z.shiftr_div_pow2 by lia.
Qed.

Lemma land_80 b : Z.land (Z_of_byte b) 0x80 = if Z_of_byte b <? 128 then 0 else 128.
Proof. destruct b; reflexivity. Qed.

(** ** Lists *)
Section filter.
Context {A} (P : A → Prop) `{∀ x, Decision (P x)}.

Lemma filter_all l : Forall P l → filter P l = l.
Proof. induction 1 as [|x l Hx _ IH]; [done|]. by rewrite filter_cons_True, IH. Qed.

Lemma filter_none l : Forall (fun x => ¬ P x) l → filter P l = [].
Proof. induction 1 as [|x l Hx _ IH]; [done|]. by rewrite filter_cons_False. Qed.

Lemma Forall_filter (Q : A → Prop) l : Forall Q l → Forall Q (filter P l).
Proof. rewrite !Forall_forall. intros HQ x [_ Hx]%list_elem_of_filter. auto. Qed.

Lemma filter_length_id l : length (filter P l) = length l → filter P l = l.
Proof.
  intros Hl. apply filter_all, Forall_forall. intros x Hx. apply dec_stable. intros Hn.
  pose proof (length_filter_lt P l x Hx Hn). lia.
Qed.
End filter.

Lemma filter_iff_elem {A} (P Q : A → Prop) `{∀ x, Decision (P x), ∀ x, Decision (Q x)} (l : list A) :
  (∀ x, x ∈ l → P x ↔ Q x) → filter P l = filter Q l.
Proof.
  induction l as [|x l IH]; intros Hl; [done|]. rewrite !filter_cons, IH by (intros; apply Hl; by right).
  pose proof (Hl x ltac:(by left)). destruct (decide (P x)), (decide (Q x)); tauto.
Qed.

Lemma filter_fmap {A B} (P : B → Prop) `{∀ x, Decision (P x)} (f : A → B) (l : list A) :
  filter P (f <$> l) = f <$> filter (fun x => P (f x)) l.
Proof.
  induction l as [|x l IH]; [done|]. rewrite fmap_cons, !filter_cons, IH.
  by destruct (decide (P (f x))).
Qed.

(** [Iterator::take_while]. *)
Fixpoint take_while {A} (p : A → bool) (l : list A) : list A :=
  match l with
  | [] => []
  | x :: l => if p x then x :: take_while p l else []
  end.

Lemma take_while_prefix {A} (p : A → bool) l : ∃ rest,
  l = take_while p l ++ rest ∧ Forall (fun x => p x = true) (take_while p l) ∧
  match rest with [] => True | x :: _ => p x = false end.
Proof.
  induction l as [|x l (rest & H1 & H2 & H3)]; simpl; [by exists []|].
  destruct (p x) eqn:Hp; [|by exists (x :: l)]. exists rest. split_and!; [|by constructor|done].
  simpl. by f_equal.
Qed.

Lemma take_while_take {A} (p : A → bool) l n :
  (n ≤ length l)%nat →
  (∀ i x, l !! i = Some x → (i < n)%nat → p x = true) →
  (∀ x, l !! n = Some x → p x = false) → take_while p l = take n l.
Proof.
  revert n. induction l as [|x l IH]; intros [|n] Hn Hlo Hhi; simpl in *; try lia; [done| |].
  - by rewrite (Hhi x).
  - rewrite (Hlo 0%nat x) by (done || lia). f_equal. apply IH; [lia| |done].
    intros i y Hi Hlt. apply (Hlo (S i)); [done|lia].
Qed.

(** ** Sorted lists *)
Lemma sorted_lookup {A} (R : relation A) l i j x y :
  StronglySorted R l → l !! i = Some x → l !! j = Some y → (i < j)%nat → R x y.
Proof.
  intros Hs. revert i j. induction Hs as [|z l Hs IH Hz]; intros [|i] [|j] Hx Hy Hlt; simplify_eq/=; try lia.
  - rewrite Forall_forall in Hz. apply Hz. by eapply list_elem_of_lookup_2.
  - apply (IH i j); try done. lia.
Qed.

(** Strictly increasing keys. *)
Definition ascending {A} (f : A → Z) : list A → Prop := StronglySorted (fun a b => f a < f b).

Lemma ascending_snoc {A} (f : A → Z) l x :
  ascending f l → (∀ y, last l = Some y → f y < f x) → ascending f (l ++ [x]).
Proof.
  intros Hs Hx. apply StronglySorted_app_2; [|done|by repeat constructor].
  intros y z Hy ->%list_elem_of_singleton. simpl. destruct (last l) as [w|] eqn:Hw.
  - pose proof (Hx w eq_refl). apply list_elem_of_lookup_1 in Hy as [i Hi].
    rewrite last_lookup in Hw. pose proof (lookup_lt_Some _ _ _ Hi).
    destruct (decide (i = pred (length l))) as [->|]; [by assert (y = w) as -> by congruence|].
    pose proof (sorted_lookup _ _ i (pred (length l)) _ _ Hs Hi Hw ltac:(lia)). simpl in *. lia.
  - apply last_None in Hw as ->. by apply elem_of_nil in Hy.
Qed.

Lemma ascending_filter {A} (f : A → Z) (P : A → Prop) `{∀ x, Decision (P x)} l :
  ascending f l → ascending f (filter P l).
Proof.
  unfold ascending. induction 1 as [|x l _ IH Hx]; [constructor|]. rewrite filter_cons.
  destruct (decide (P x)); [|done]. constructor; [done|].
  by apply Forall_filter.
Qed.

(** ** Ordered maps
    A [BTreeMap] with integer keys is a [gmap]; iteration is in key order. *)
Definition key_le {A} (p q : Z * A) : Prop := p.1 ≤ q.1.
#[global] Instance key_le_dec {A} (p q : Z * A) : Decision (key_le p q).
Proof. unfold key_le. apply _. Defined.
Definition entries {A} (m : gmap Z A) : list (Z * A) := merge_sort key_le (map_to_list m).
Definition values {A} (m : gmap Z A) : list A := (entries m).*2.

Lemma entries_perm {A} (m : gmap Z A) : entries m ≡ₚ map_to_list m.
Proof. apply merge_sort_Permutation. Qed.

Lemma elem_of_values {A} (m : gmap Z A) x : x ∈ values m ↔ ∃ k, m !! k = Some x.
Proof.
  unfold values. rewrite entries_perm, list_elem_of_fmap. split.
  - intros ([k y] & -> & H%elem_of_map_to_list). by exists k.
  - intros [k H]. exists (k, x). split; [done|]. by apply elem_of_map_to_list.
Qed.

(** ** Tactics *)

(** Turn boolean comparisons on [Z] in the context into propositions. *)
Ltac zify_bools :=
  repeat match goal with
  | H : (_ <? _) = true |- _ => apply Z.ltb_lt in H
  | H : (_ <? _) = false |- _ => apply Z.ltb_ge in H
  | H : (_ <=? _) = true |- _ => apply Z.leb_le in H
  | H : (_ <=? _) = false |- _ => apply Z.leb_gt in H
  | H : (_ =? _) = true |- _ => apply Z.eqb_eq in H
  | H : (_ =? _) = false |- _ => apply Z.eqb_neq in H
  | H : (_ && _) = true |- _ => apply andb_true_iff in H; destruct H
  | H : (_ || _) = false |- _ => apply orb_false_iff in H; destruct H
  | H : (_ || _) = true |- _ => apply orb_true_iff in H; destruct H
  | H : (_ && _) = false |- _ => apply andb_false_iff in H; destruct H
  | H : bool_decide _ = true |- _ => apply bool_decide_eq_true_1 in H
  | H : bool_decide _ = false |- _ => apply bool_decide_eq_false_1 in H
  | H : negb _ = true |- _ => apply negb_true_iff in H
  | H : negb _ = false |- _ => apply negb_false_iff in H
  end.

(** Split the innermost [if] or [match] of the goal, keeping the equation. *)
Ltac split_match :=
  match goal with
  | |- context [match ?x with _ => _ end] =>
      lazymatch x with
      | context [match _ with _ => _ end] => fail
      | _ => destruct x eqn:?
      end
  end.

(** Break the successful run of a [result] computation into its steps. *)
Ltac inv_ok :=
  repeat match goal with
  | H : mbind _ _ = Ok _ |- _ => apply bind_Ok in H; destruct H as (? & ? & ?)
  | H : Ok _ = Ok _ |- _ => apply Ok_inj in H; subst
  | H : (_, _) = (_, _) |- _ => apply pair_equal_spec in H; destruct H; subst
  | H : Some _ = Some _ |- _ => apply Some_inj in H; subst
  | H : Err _ = Ok _ |- _ => discriminate H
  | H : Ok _ = Err _ |- _ => discriminate H
  | x : (_ * _)%type |- _ => destruct x
  end.
