(* ===== verification/Wire.v ===== *)
(** * Wire basics: errors, decoders and fixed-width integers

    Models [crates/protocol/src/error.rs], [primitives/fixed.rs] and
    [primitives/uuid.rs].  A [Buf] that is read from is the list of its
    remaining bytes, so a decoder maps the remaining bytes to a value and the
    bytes left.  [WireCodec] is the contract every primitive offers to the
    message layers above it. *)

From S2P Require Import Prelude.

(** [ProtocolError] of error.rs; the [Utf8Error] payload is not kept. *)
Inductive ProtocolError : Type :=
| UnexpectedEof (needed : nat)
| InvalidValue (msg : string)
| InvalidUtf8
| VarintTooLong (max : nat)
| UnsupportedVersion (api_key version : Z)
| SchemaMismatch (msg : string).

(** What a decoder of [A] is: [fn(&mut Buf) -> Result<A, E>]. *)
Definition decoder_of (E A : Type) : Type := list byte → result E (A * list byte).
Abbreviation decoder := (decoder_of ProtocolError).

(** ** Self-delimiting encodings

    [Encodes get bs a]: whatever follows [bs], [get] decodes [a] from it and
    stops right after it; and [get] rejects every proper prefix of [bs]. *)
Definition Encodes {E A} (get : decoder_of E A) (bs : list byte) (a : A) : Prop :=
  (∀ rest, get (bs ++ rest) = Ok (a, rest)) ∧
  (∀ pre post, bs = pre ++ post → post ≠ [] → ∃ e, get pre = Err e).

Lemma encodes_ret {E A} (a : A) : Encodes (E := E) (fun buf => Ok (a, buf)) [] a.
Proof. split; [done|]. intros pre post [= Hp]. by destruct pre, post. Qed.

Lemma encodes_bind {E A B} (g : decoder_of E A) (k : A → decoder_of E B) b1 b2 a c :
  Encodes g b1 a → Encodes (k a) b2 c →
  Encodes (fun buf => '(x, buf) ← g buf; k x buf) (b1 ++ b2) c.
Proof.
  intros [R1 T1] [R2 T2]. split.
  - intros rest. rewrite <- app_assoc, R1. simpl. apply R2.
  - intros pre post Heq Hne.
    destruct (decide (length pre < length b1)%nat) as [Hlt|Hge].
    + assert (b1 = pre ++ drop (length pre) b1) as Hb.
      { rewrite <- (take_drop (length pre) b1) at 1. f_equal.
        apply (f_equal (take (length pre))) in Heq.
        rewrite take_app_le in Heq by lia. by rewrite Heq, take_app_length. }
      destruct (T1 _ _ Hb) as [e He]; [|exists e; by rewrite He].
      intros Hd. apply (f_equal length) in Hd. rewrite length_drop in Hd. simpl in Hd. lia.
    + assert (∃ d, pre = b1 ++ d) as [d ->].
      { exists (drop (length b1) pre). rewrite <- (take_drop (length b1) pre) at 1. f_equal.
        apply (f_equal (take (length b1))) in Heq.
        rewrite take_app_length, take_app_le in Heq by lia. by rewrite <- Heq. }
      rewrite R1. simpl. eapply T2; [|exact Hne].
      rewrite <- app_assoc in Heq. by apply app_inv_head in Heq.
Qed.

Lemma encodes_ext {E A} (g h : decoder_of E A) bs a :
  (∀ buf, g buf = h buf) → Encodes g bs a → Encodes h bs a.
Proof.
  intros Heq [R T]. split.
  - intros rest. by rewrite <- Heq.
  - intros pre post. rewrite <- Heq. apply T.
Qed.

Lemma encodes_same {E F A} (g : decoder_of E A) (h : decoder_of F A) bs a :
  (∀ buf, same_outcome (g buf) (h buf)) → Encodes g bs a → Encodes h bs a.
Proof.
  intros Heq [R T]. split.
  - intros rest. apply (same_outcome_Ok _ _ _ (Heq _)), R.
  - intros pre post Hp Hne. destruct (T _ _ Hp Hne) as [e He].
    specialize (Heq pre). rewrite He in Heq. destruct (h pre); [done|eauto].
Qed.

(** A continuation that consumes nothing more. *)
Lemma encodes_map {E A B} (g : decoder_of E A) (k : A → decoder_of E B) bs a c :
  Encodes g bs a → (∀ buf, k a buf = Ok (c, buf)) →
  Encodes (fun buf => '(x, buf) ← g buf; k x buf) bs c.
Proof.
  intros [R T] Hk. split.
  - intros rest. rewrite R. simpl. apply Hk.
  - intros pre post Heq Hne. destruct (T _ _ Heq Hne) as [e He].
    exists e. by rewrite He.
Qed.

(** Reading a known number of bytes verbatim, with any error for a short buffer. *)
Lemma encodes_take {E B} (err : list byte → E) (k : list byte → B) v :
  Encodes (fun buf => if bool_decide (length buf < length v)%nat then Err (err buf)
                      else Ok (k (take (length v) buf), drop (length v) buf)) v (k v).
Proof.
  split.
  - intros rest. rewrite bool_decide_eq_false_2 by (rewrite length_app; lia).
    by rewrite take_app_length, drop_app_length.
  - intros pre post -> Hne. rewrite bool_decide_eq_true_2; [eauto|].
    rewrite length_app. destruct post; [done|simpl; lia].
Qed.

Lemma encodes_take_then {E A} (err : list byte → E) (k : list byte → decoder_of E A) v bs a :
  Encodes (k v) bs a →
  Encodes (fun buf => if bool_decide (length buf < length v)%nat then Err (err buf)
                      else k (take (length v) buf) (drop (length v) buf)) (v ++ bs) a.
Proof.
  intros Hk. eapply encodes_ext; [|eapply encodes_bind; [apply (encodes_take err id v)|exact Hk]].
  intros buf. cbv beta. by case_bool_decide.
Qed.

Lemma encodes_take_map {E A} (err : list byte → E) (k : list byte → decoder_of E A) v a :
  (∀ buf, k v buf = Ok (a, buf)) →
  Encodes (fun buf => if bool_decide (length buf < length v)%nat then Err (err buf)
                      else k (take (length v) buf) (drop (length v) buf)) v a.
Proof.
  intros Hk. eapply encodes_ext; [|eapply encodes_map; [apply (encodes_take err id v)|exact Hk]].
  intros buf. cbv beta. by case_bool_decide.
Qed.

(** [map_err] changes no successful decode. *)
Lemma encodes_map_err {E F A} (f : E → F) (g : decoder_of E A) bs a :
  Encodes g bs a → Encodes (fun buf => map_err f (g buf)) bs a.
Proof.
  intros [R T]. split.
  - intros rest. by rewrite R.
  - intros pre post Heq Hne. destruct (T _ _ Heq Hne) as [e ->]. by eexists.
Qed.

(** ** The codec contract

    What a wire primitive promises to the layers above it: every value in
    range has a self-delimiting encoding, a decoded value is in range, and the
    bytes left are a suffix of the input. *)
Class WireCodec {A : Type} (valid : A → Prop) (put : A → list byte) (get : decoder A) : Prop := {
  wire_encodes a : valid a → Encodes get (put a) a;
  wire_sound buf a rest :
    get buf = Ok (a, rest) → valid a ∧ ∃ used, buf = used ++ rest;
}.

Lemma wire_roundtrip `{C : WireCodec A valid put get} a rest :
  valid a → get (put a ++ rest) = Ok (a, rest).
Proof. intros Ha. by apply (wire_encodes a Ha). Qed.

(** ** primitives/fixed.rs *)
Module Fixed.

Definition need (buf : list byte) (n : nat) : result ProtocolError unit :=
  if bool_decide (length buf < n)%nat
  then Err (UnexpectedEof (n - length buf))
  else Ok tt.

(** [Buf::get_i<8n>] / [Buf::get_u<8n>] once [need] has passed. *)
Definition get_signed (n : nat) : decoder Z := fun buf =>
  _ ← need buf n;
  Ok (wrap_s (8 * Z.of_nat n) (be_value (take n buf)), drop n buf).
Definition get_unsigned (n : nat) : decoder Z := fun buf =>
  _ ← need buf n;
  Ok (be_value (take n buf), drop n buf).

Definition put_i8 (v : Z) : list byte := be_bytes 1 v.
Definition get_i8 : decoder Z := get_signed 1.
Definition put_i16 (v : Z) : list byte := be_bytes 2 v.
Definition get_i16 : decoder Z := get_signed 2.
Definition put_u16 (v : Z) : list byte := be_bytes 2 v.
Definition get_u16 : decoder Z := get_unsigned 2.
Definition put_i32 (v : Z) : list byte := be_bytes 4 v.
Definition get_i32 : decoder Z := get_signed 4.
Definition put_i64 (v : Z) : list byte := be_bytes 8 v.
Definition get_i64 : decoder Z := get_signed 8.
Definition put_u32 (v : Z) : list byte := be_bytes 4 v.
Definition get_u32 : decoder Z := get_unsigned 4.

Definition put_bool (v : bool) : list byte := [if v then x01 else x00].
Definition get_bool : decoder bool := fun buf =>
  _ ← need buf 1;
  match buf with
  | x00 :: rest => Ok (false, rest)
  | x01 :: rest => Ok (true, rest)
  | _ => Err (InvalidValue "boolean must be 0 or 1")
  end.

(** An [f64] is carried as its 64-bit IEEE pattern, which is all the wire sees. *)
Definition put_f64 (bits : Z) : list byte := be_bytes 8 bits.
Definition get_f64 : decoder Z := get_unsigned 8.

#[global] Arguments put_i8 : simpl never.
#[global] Arguments put_i16 : simpl never.
#[global] Arguments put_u16 : simpl never.
#[global] Arguments put_i32 : simpl never.
#[global] Arguments put_i64 : simpl never.
#[global] Arguments put_u32 : simpl never.
#[global] Arguments get_signed : simpl never.
#[global] Arguments get_unsigned : simpl never.

Lemma need_Ok buf n : (n ≤ length buf)%nat → need buf n = Ok tt.
Proof. intros. unfold need. by rewrite bool_decide_eq_false_2 by lia. Qed.

Lemma need_Err buf n :
  (length buf < n)%nat → need buf n = Err (UnexpectedEof (n - length buf)).
Proof. intros. unfold need. by rewrite bool_decide_eq_true_2 by lia. Qed.

Lemma need_inv buf n u : need buf n = Ok u → (n ≤ length buf)%nat.
Proof. unfold need. case_bool_decide; [done|lia]. Qed.

Lemma length_prefix {A} (l pre post : list A) :
  l = pre ++ post → post ≠ [] → (length pre < length l)%nat.
Proof.
  intros -> Hne. rewrite length_app. destruct post; [done|simpl; lia].
Qed.

Lemma length_put_i8 v : length (put_i8 v) = 1%nat.
Proof. apply length_be_bytes. Qed.
Lemma length_put_i16 v : length (put_i16 v) = 2%nat.
Proof. apply length_be_bytes. Qed.
Lemma length_put_i32 v : length (put_i32 v) = 4%nat.
Proof. apply length_be_bytes. Qed.
Lemma length_put_u32 v : length (put_u32 v) = 4%nat.
Proof. apply length_be_bytes. Qed.
Lemma length_put_i64 v : length (put_i64 v) = 8%nat.
Proof. apply length_be_bytes. Qed.
#[export] Hint Rewrite length_put_i8 length_put_i16 length_put_i32 length_put_u32
  length_put_i64 : wire.

(** The two integer shapes satisfy the contract at every width. *)
#[global] Instance signed_codec n :
  (0 < n)%nat →
  WireCodec (in_s (8 * Z.of_nat n)) (be_bytes n) (get_signed n).
Proof.
  intros Hn. split; [intros a Ha; split|].
  - intros rest. unfold get_signed.
    rewrite need_Ok by (rewrite length_app, length_be_bytes; lia). simpl.
    rewrite take_app_length', drop_app_length' by (by rewrite length_be_bytes).
    by rewrite be_value_bytes, wrap_s_wrap_u by (done || lia).
  - intros pre post Heq Hne. unfold get_signed.
    apply length_prefix in Heq; [|done]. rewrite length_be_bytes in Heq.
    rewrite need_Err by done. eauto.
  - intros buf a rest H. unfold get_signed in H. inv_ok. split.
    + apply wrap_s_range. lia.
    + exists (take n buf). by rewrite take_drop.
Qed.

#[global] Instance unsigned_codec n :
  WireCodec (in_u (8 * Z.of_nat n)) (be_bytes n) (get_unsigned n).
Proof.
  split; [intros a Ha; split|].
  - intros rest. unfold get_unsigned.
    rewrite need_Ok by (rewrite length_app, length_be_bytes; lia). simpl.
    rewrite take_app_length', drop_app_length' by (by rewrite length_be_bytes).
    by rewrite be_value_bytes, wrap_u_id.
  - intros pre post Heq Hne. unfold get_unsigned.
    apply length_prefix in Heq; [|done]. rewrite length_be_bytes in Heq.
    rewrite need_Err by done. eauto.
  - intros buf a rest H. unfold get_unsigned in H. inv_ok.
    match goal with Hn : need _ _ = Ok _ |- _ => apply need_inv in Hn end. split.
    + pose proof (be_value_range (take n buf)) as Hr.
      rewrite length_take_le in Hr by done. done.
    + exists (take n buf). by rewrite take_drop.
Qed.

#[global] Instance i8_codec : WireCodec (in_s 8) put_i8 get_i8.
Proof. apply (signed_codec 1). lia. Qed.
#[global] Instance i16_codec : WireCodec (in_s 16) put_i16 get_i16.
Proof. apply (signed_codec 2). lia. Qed.
#[global] Instance u16_codec : WireCodec (in_u 16) put_u16 get_u16.
Proof. apply (unsigned_codec 2). Qed.
#[global] Instance i32_codec : WireCodec (in_s 32) put_i32 get_i32.
Proof. apply (signed_codec 4). lia. Qed.
#[global] Instance i64_codec : WireCodec (in_s 64) put_i64 get_i64.
Proof. apply (signed_codec 8). lia. Qed.
#[global] Instance u32_codec : WireCodec (in_u 32) put_u32 get_u32.
Proof. apply (unsigned_codec 4). Qed.
#[global] Instance f64_codec : WireCodec (in_u 64) put_f64 get_f64.
Proof. apply (unsigned_codec 8). Qed.

#[global] Instance bool_codec : WireCodec (fun _ => True) put_bool get_bool.
Proof.
  split; [intros a _; split|].
  - destruct a; done.
  - intros pre post Heq Hne. apply length_prefix in Heq; [|done].
    destruct pre; [|destruct a; simpl in Heq; lia]. eexists. done.
  - intros buf a rest H. split; [done|].
    unfold get_bool in H. destruct buf as [|b buf]; [done|].
    exists [b]. destruct b; simplify_eq/=; done.
Qed.

End Fixed.

(** ** primitives/uuid.rs: a [Uuid] is its 16 bytes. *)
Module Uuid.

Definition ZERO : list byte := replicate 16 x00.
Definition put_uuid (u : list byte) : list byte := u.
Definition get_uuid : decoder (list byte) := fun buf =>
  if bool_decide (length buf < 16)%nat
  then Err (UnexpectedEof (16 - length buf))
  else Ok (take 16 buf, drop 16 buf).

#[global] Instance uuid_codec : WireCodec (fun u => length u = 16%nat) put_uuid get_uuid.
Proof.
  split.
  - intros u Hu.
    eapply encodes_ext; [|apply (encodes_take (fun buf => UnexpectedEof (16 - length buf)) id u)].
    intros buf. unfold get_uuid. by rewrite Hu.
  - intros buf u rest H. unfold get_uuid in H. case_bool_decide; [done|]. inv_ok.
    split; [apply length_take_le; lia|]. exists (take 16 buf). by rewrite take_drop.
Qed.

End Uuid.
