(* ===== verification/Varint.v ===== *)
(** * Varints: [crates/protocol/src/primitives/varint.rs]

    Unsigned LEB128 at 32 and 64 bits, its zig-zag signed form, and the size
    predictions the encoders rely on.  The [while] loop of the encoder runs on
    fuel: five septets hold a [u32] and ten a [u64], so [MAX_VARINT_BYTES] and
    [MAX_VARLONG_BYTES] are enough ([put_uvar_loop_enough]). *)

From S2P Require Import Prelude Wire.

Module Varint.

Definition MAX_VARINT_BYTES : nat := 5.
Definition MAX_VARLONG_BYTES : nat := 10.

(** The loop of [put_uvarint] and [put_uvarlong]; both have this body. *)
Fixpoint put_uvar_loop (fuel : nat) (v : Z) : list byte :=
  match fuel with
  | O => []
  | S fuel =>
      if negb (Z.land v (Z.lnot 0x7F) =? 0)
      then byte_of_Z (Z.lor (Z.land v 0x7F) 0x80) :: put_uvar_loop fuel (Z.shiftr v 7)
      else [byte_of_Z v]
  end.

(** The [for _ in 0..MAX] loop of [get_uvarint] and [get_uvarlong] at width [w];
    the shift drops the bits above the width, as [<<] does. *)
Fixpoint get_uvar_loop (w : Z) (max n : nat) (result shift : Z) (buf : list byte)
    : Prelude.result ProtocolError (Z * list byte) :=
  match n with
  | O => Err (VarintTooLong max)
  | S n =>
      match buf with
      | [] => Err (UnexpectedEof 1)
      | b :: buf =>
          let result :=
            Z.lor result (wrap_u w (Z.shiftl (Z.land (Z_of_byte b) 0x7F) shift)) in
          if Z.land (Z_of_byte b) 0x80 =? 0
          then Ok (result, buf)
          else get_uvar_loop w max n result (shift + 7) buf
      end
  end.

(** [v.leading_zeros()] at width [w]. *)
Definition leading_zeros (w v : Z) : Z := if v =? 0 then w else w - 1 - Z.log2 v.

Definition put_uvarint (v : Z) : list byte := put_uvar_loop MAX_VARINT_BYTES v.
Definition get_uvarint : decoder Z :=
  get_uvar_loop 32 MAX_VARINT_BYTES MAX_VARINT_BYTES 0 0.
Definition uvarint_len (v : Z) : Z :=
  if v =? 0 then 1 else
  let bits := wrap_u 8 (32 - leading_zeros 32 v) in
  (bits + 6) / 7.

(** [((v << 1) ^ (v >> (w-1))).cast_unsigned()] and its inverse. *)
Definition zigzag (w v : Z) : Z :=
  wrap_u w (Z.lxor (wrap_s w (Z.shiftl v 1)) (Z.shiftr v (w - 1))).
Definition unzigzag (w zz : Z) : Z :=
  Z.lxor (wrap_s w (Z.shiftr zz 1)) (- wrap_s w (Z.land zz 1)).

Definition put_varint (v : Z) : list byte := put_uvarint (zigzag 32 v).
Definition get_varint : decoder Z := fun buf =>
  '(zz, buf) ← get_uvarint buf;
  Ok (unzigzag 32 zz, buf).
Definition varint_len (v : Z) : Z := uvarint_len (zigzag 32 v).

Definition put_uvarlong (v : Z) : list byte := put_uvar_loop MAX_VARLONG_BYTES v.
Definition get_uvarlong : decoder Z :=
  get_uvar_loop 64 MAX_VARLONG_BYTES MAX_VARLONG_BYTES 0 0.
Definition put_varlong (v : Z) : list byte := put_uvarlong (zigzag 64 v).
Definition get_varlong : decoder Z := fun buf =>
  '(zz, buf) ← get_uvarlong buf;
  Ok (unzigzag 64 zz, buf).
Definition uvarlong_len (v : Z) : Z :=
  if v =? 0 then 1 else
  let bits := wrap_u 8 (64 - leading_zeros 64 v) in
  (bits + 6) / 7.
Definition varlong_len (v : Z) : Z := uvarlong_len (zigzag 64 v).

#[global] Arguments put_uvarint : simpl never.
#[global] Arguments get_uvarint : simpl never.
#[global] Arguments put_varint : simpl never.
#[global] Arguments get_varint : simpl never.
#[global] Arguments put_uvarlong : simpl never.
#[global] Arguments get_uvarlong : simpl never.
#[global] Arguments put_varlong : simpl never.
#[global] Arguments get_varlong : simpl never.

(** Known vectors of the test-suite. *)
Example uvarint_16384 : put_uvarint 16384 = [x80; x80; x01].
Proof. reflexivity. Qed.
Example varint_min : put_varint (-2147483648) = [xff; xff; xff; xff; x0f].
Proof. reflexivity. Qed.
Example get_varint_min : get_varint [xff; xff; xff; xff; x0f] = Ok (-2147483648, []).
Proof. reflexivity. Qed.

(** ** The encoder loop, one septet at a time *)

Lemma put_uvar_last fuel v :
  0 ≤ v < 128 → put_uvar_loop (S fuel) v = [byte_of_Z v].
Proof.
  intros Hv. simpl. rewrite land_not_7F, Z.div_small by lia. done.
Qed.

Lemma put_uvar_step fuel v :
  128 ≤ v →
  put_uvar_loop (S fuel) v = byte_of_Z (v mod 128 + 128) :: put_uvar_loop fuel (v / 128).
Proof.
  intros Hv. simpl. rewrite land_not_7F, land_7F, Z.shiftr_div_pow2 by lia.
  assert (1 ≤ v / 128) by (apply Z.div_le_lower_bound; lia).
  destruct (Z.eqb_spec (v / 128 * 128) 0); [lia|]. simpl.
  change 0x80 with (Z.shiftl 1 7). rewrite lor_disjoint; [done|lia|].
  apply Z.mod_pos_bound. lia.
Qed.

Lemma septet_bound fuel v :
  0 ≤ v < 2 ^ (7 * Z.of_nat (S fuel)) → 0 ≤ v / 128 < 2 ^ (7 * Z.of_nat fuel).
Proof.
  intros Hv. replace (7 * Z.of_nat (S fuel)) with (7 + 7 * Z.of_nat fuel) in Hv by lia.
  rewrite Z.pow_add_r in Hv by lia. split.
  - apply Z.div_pos; lia.
  - apply Z.div_lt_upper_bound; lia.
Qed.

(** The fuel of the encoder never runs out: any larger fuel gives the same bytes. *)
Lemma put_uvar_loop_enough fuel fuel' v :
  (0 < fuel ≤ fuel')%nat → 0 ≤ v < 2 ^ (7 * Z.of_nat fuel) →
  put_uvar_loop fuel' v = put_uvar_loop fuel v.
Proof.
  revert fuel' v. induction fuel as [|fuel IH]; intros [|fuel'] v Hf Hv; try lia.
  destruct (decide (v < 128)).
  - by rewrite !put_uvar_last by lia.
  - rewrite !put_uvar_step by lia. f_equal.
    destruct fuel as [|fuel]; [simpl in Hv; lia|].
    apply IH; [lia|]. by apply septet_bound.
Qed.

(** ** The decoder loop *)

Lemma get_uvar_step w max n r s b buf :
  0 ≤ s → 0 ≤ r < 2 ^ s →
  Z_of_byte b mod 128 * 2 ^ s < 2 ^ w →
  get_uvar_loop w max (S n) r s (b :: buf) =
    let r' := r + Z_of_byte b mod 128 * 2 ^ s in
    if Z_of_byte b <? 128 then Ok (r', buf) else get_uvar_loop w max n r' (s + 7) buf.
Proof.
  intros Hs Hr Hb. simpl. rewrite land_7F, land_80.
  pose proof (Z.mod_pos_bound (Z_of_byte b) 128 ltac:(lia)).
  assert (wrap_u w (Z.shiftl (Z_of_byte b mod 128) s) = Z.shiftl (Z_of_byte b mod 128) s) as ->.
  { apply wrap_u_id. rewrite Z.shiftl_mul_pow2 by lia. split; nia. }
  rewrite lor_disjoint by lia. by destruct (_ <? 128).
Qed.

Lemma pow_septet s : 0 ≤ s → 2 ^ (s + 7) = 128 * 2 ^ s.
Proof. intros. rewrite Z.pow_add_r by lia. lia. Qed.

Lemma septet_parts v : v = v mod 128 + 128 * (v / 128).
Proof. pose proof (Z.div_mod v 128). lia. Qed.

(** Decoding the encoder's output, from any accumulator. *)
Lemma get_put_uvar w max n v r s rest :
  0 ≤ s → 0 ≤ r < 2 ^ s → (0 < n)%nat →
  0 ≤ v < 2 ^ (7 * Z.of_nat n) → v * 2 ^ s < 2 ^ w →
  get_uvar_loop w max n r s (put_uvar_loop n v ++ rest) = Ok (r + v * 2 ^ s, rest).
Proof.
  revert v r s. induction n as [|n IH]; intros v r s Hs Hr Hn Hv Hw; [lia|].
  pose proof (septet_parts v) as Hp.
  pose proof (Z.mod_pos_bound v 128 ltac:(lia)) as Hm.
  destruct (decide (v < 128)) as [Hlt|Hge].
  - rewrite put_uvar_last by lia. cbn [app].
    rewrite get_uvar_step; rewrite ?Z_of_byte_of_Z, ?(Z.mod_small v 256), ?(Z.mod_small v 128)
      by lia; [|lia..].
    cbv zeta. destruct (Z.ltb_spec v 128); [done|lia].
  - rewrite put_uvar_step by lia. cbn [app].
    assert (Hb : Z_of_byte (byte_of_Z (v mod 128 + 128)) = v mod 128 + 128)
      by (rewrite Z_of_byte_of_Z, Z.mod_small; lia).
    assert (Hb' : (v mod 128 + 128) mod 128 = v mod 128)
      by (rewrite <- (Z.mul_1_l 128) at 2; rewrite Z_mod_plus_full, Z.mod_mod; lia).
    rewrite get_uvar_step; rewrite ?Hb, ?Hb'; [|nia..].
    cbv zeta. destruct (Z.ltb_spec (v mod 128 + 128) 128); [lia|].
    destruct n as [|n]; [simpl in Hv; lia|].
    rewrite IH; rewrite ?pow_septet by lia; [|lia|nia|lia|by apply septet_bound|nia].
    do 2 f_equal. nia.
Qed.

(** No proper prefix of an encoding decodes. *)
Lemma get_put_uvar_truncated w max n v r s pre post :
  0 ≤ v < 2 ^ (7 * Z.of_nat n) → put_uvar_loop n v = pre ++ post → post ≠ [] →
  ∃ e, get_uvar_loop w max n r s pre = Err e.
Proof.
  revert v r s pre. induction n as [|n IH]; intros v r s pre Hv Heq Hne; [by eexists|].
  destruct pre as [|b pre]; [by eexists|].
  destruct (decide (v < 128)) as [Hlt|Hge].
  - rewrite put_uvar_last in Heq by lia. destruct pre, post; simplify_eq/=.
  - rewrite put_uvar_step in Heq by lia. injection Heq as <- Heq. simpl.
    rewrite land_80, Z_of_byte_of_Z.
    pose proof (Z.mod_pos_bound v 128 ltac:(lia)). rewrite (Z.mod_small _ 256) by lia.
    destruct (Z.ltb_spec (v mod 128 + 128) 128); [lia|]. cbn [Z.eqb].
    eapply IH; [|done|done]. by apply septet_bound.
Qed.

Lemma lor_u w a b : 0 ≤ w → in_u w a → in_u w b → in_u w (Z.lor a b).
Proof.
  intros Hw [Ha1 Ha2] [Hb1 Hb2]. split; [apply Z.lor_nonneg; lia|].
  destruct (decide (Z.lor a b = 0)) as [->|Hne]; [lia|].
  assert (0 < Z.lor a b) by (pose proof (proj2 (Z.lor_nonneg a b)); lia).
  apply Z.log2_lt_pow2; [done|]. rewrite Z.log2_lor by lia.
  destruct (decide (a = 0)), (decide (b = 0)); subst; rewrite ?Z.lor_0_l in *; try lia.
  - rewrite (Z.max_r (Z.log2 0)) by (pose proof (Z.log2_nonneg b); simpl; lia).
    apply Z.log2_lt_pow2; lia.
  - rewrite Z.max_l by (pose proof (Z.log2_nonneg a); simpl; lia).
    apply Z.log2_lt_pow2; lia.
  - apply Z.max_lub_lt; apply Z.log2_lt_pow2; lia.
Qed.

Lemma get_uvar_sound w max n r s buf a rest :
  0 ≤ w → in_u w r →
  get_uvar_loop w max n r s buf = Ok (a, rest) →
  in_u w a ∧ ∃ used, buf = used ++ rest ∧ (1 ≤ length used ≤ n)%nat.
Proof.
  intros Hw. revert r s buf. induction n as [|n IH]; intros r s buf Hr H; [done|].
  destruct buf as [|b buf]; [done|]. simpl in H.
  destruct (_ =? 0).
  - injection H as <- <-. split.
    + apply lor_u; [done..|]. by apply wrap_u_range.
    + exists [b]. simpl. split; [done|lia].
  - apply IH in H as (Ha & used & -> & Hlen).
    + split; [done|]. exists (b :: used). simpl. split; [done|lia].
    + apply lor_u; [done..|]. by apply wrap_u_range.
Qed.

#[global] Instance uvarint_codec : WireCodec (in_u 32) put_uvarint get_uvarint.
Proof.
  split; [intros v Hv; unfold in_u in Hv; split|].
  - intros rest. unfold get_uvarint, put_uvarint, MAX_VARINT_BYTES.
    rewrite get_put_uvar by (simpl; lia). do 2 f_equal. lia.
  - intros pre post. apply get_put_uvar_truncated. unfold MAX_VARINT_BYTES. simpl. lia.
  - intros buf a rest H. apply get_uvar_sound in H as (? & used & ? & _); [|done..].
    eauto.
Qed.

#[global] Instance uvarlong_codec : WireCodec (in_u 64) put_uvarlong get_uvarlong.
Proof.
  split; [intros v Hv; unfold in_u in Hv; split|].
  - intros rest. unfold get_uvarlong, put_uvarlong, MAX_VARLONG_BYTES.
    rewrite get_put_uvar by (simpl; lia). do 2 f_equal. lia.
  - intros pre post. apply get_put_uvar_truncated. unfold MAX_VARLONG_BYTES. simpl. lia.
  - intros buf a rest H. apply get_uvar_sound in H as (? & used & ? & _); [|done..].
    eauto.
Qed.

(** ** Zig-zag *)

Lemma wrap_u_of_wrap_s w z : wrap_u w (wrap_s w z) = wrap_u w z.
Proof.
  unfold wrap_u, wrap_s. rewrite Zminus_mod_idemp_l. f_equal. lia.
Qed.

(** The bit trick is the arithmetic zig-zag: [0, -1, 1, -2, ...] to [0, 1, 2, 3, ...]. *)
Lemma zigzag_spec w v :
  1 < w → in_s w v → zigzag w v = if 0 <=? v then 2 * v else - 2 * v - 1.
Proof.
  intros Hw Hv. unfold zigzag. pose proof (pow_half w ltac:(lia)) as Hp.
  destruct Hv as [Hv1 Hv2]. rewrite Z.shiftl_mul_pow2, Z.shiftr_div_pow2 by lia.
  destruct (Z.leb_spec 0 v).
  - rewrite Z.div_small, Z.lxor_0_r, wrap_u_of_wrap_s, wrap_u_id by (unfold in_u; lia).
    lia.
  - assert (v / 2 ^ (w - 1) = -1) as ->.
    { symmetry. apply (Z.div_unique v (2 ^ (w - 1)) (-1) (v + 2 ^ (w - 1))); lia. }
    rewrite Z.lxor_m1_r. unfold Z.lnot. unfold wrap_u.
    replace (Z.pred (- wrap_s w (v * 2 ^ 1))) with (-1 - wrap_s w (v * 2 ^ 1)) by lia.
    rewrite <- Zminus_mod_idemp_r. fold (wrap_u w (wrap_s w (v * 2 ^ 1))).
    rewrite wrap_u_of_wrap_s. unfold wrap_u. rewrite Zminus_mod_idemp_r, Z.mod_small; lia.
Qed.

Lemma zigzag_range w v : 1 < w → in_s w v → in_u w (zigzag w v).
Proof. intros. unfold zigzag. apply wrap_u_range. lia. Qed.

Lemma unzigzag_even w k : 1 < w → in_s w k → unzigzag w (2 * k) = k.
Proof.
  intros Hw Hk. unfold unzigzag. rewrite Z.shiftr_div_pow2 by lia.
  replace (2 * k / 2 ^ 1) with k by (rewrite Z.mul_comm; symmetry; apply (Z.div_mul k 2); lia).
  replace (Z.land (2 * k) 1) with 0.
  - by rewrite !wrap_s_id, Z.lxor_0_r by (done || lia || (unfold in_s; lia)).
  - change 1 with (Z.ones 1). rewrite Z.land_ones by lia.
    rewrite Z.mul_comm. symmetry. apply Z.mod_mul. lia.
Qed.

Lemma unzigzag_odd w k : 2 ≤ w → in_s w k → unzigzag w (2 * k + 1) = - k - 1.
Proof.
  intros Hw Hk. unfold unzigzag. rewrite Z.shiftr_div_pow2 by lia.
  assert (2 ^ 1 ≤ 2 ^ (w - 1)) by (apply Z.pow_le_mono_r; lia).
  replace ((2 * k + 1) / 2 ^ 1) with k
    by (apply (Z.div_unique _ (2 ^ 1) k 1); lia).
  replace (Z.land (2 * k + 1) 1) with 1.
  - rewrite (wrap_s_id w k), (wrap_s_id w 1) by (done || lia || (unfold in_s; lia)).
    change (- (1)) with (-1). rewrite Z.lxor_m1_r. unfold Z.lnot. lia.
  - change 1 with (Z.ones 1) at 3. rewrite Z.land_ones by lia.
    rewrite Z.add_comm, Z.mul_comm. symmetry. by rewrite Z_mod_plus_full.
Qed.

(** Every [i<w>] survives zig-zag. *)
Lemma unzigzag_zigzag w v : 2 ≤ w → in_s w v → unzigzag w (zigzag w v) = v.
Proof.
  intros Hw Hv. rewrite zigzag_spec by (done || lia).
  destruct (Z.leb_spec 0 v).
  - by rewrite unzigzag_even by (done || lia).
  - replace (- 2 * v - 1) with (2 * (- v - 1) + 1) by lia.
    rewrite unzigzag_odd; [lia|done|]. unfold in_s in *. lia.
Qed.

Lemma unzigzag_range w zz : 2 ≤ w → in_u w zz → in_s w (unzigzag w zz).
Proof.
  intros Hw [H1 H2]. pose proof (pow_half w ltac:(lia)).
  pose proof (Z.div_mod zz 2 ltac:(lia)) as Hd.
  pose proof (Z.mod_pos_bound zz 2 ltac:(lia)).
  assert (in_s w (zz / 2)).
  { split; [assert (0 ≤ zz / 2) by (apply Z.div_pos; lia); lia|].
    apply Z.div_lt_upper_bound; lia. }
  assert (zz mod 2 = 0 ∨ zz mod 2 = 1) as [Hm|Hm] by lia.
  - rewrite Hd, Hm, Z.add_0_r, unzigzag_even by (done || lia). done.
  - rewrite Hd, Hm, unzigzag_odd by (done || lia). unfold in_s in *.
    assert (0 ≤ zz / 2) by (apply Z.div_pos; lia). lia.
Qed.

(** A signed varint codec out of an unsigned one. *)
Lemma zigzag_codec w put get :
  2 ≤ w → WireCodec (in_u w) put get →
  WireCodec (in_s w) (fun v => put (zigzag w v))
    (fun buf => '(zz, buf) ← get buf; Ok (unzigzag w zz, buf)).
Proof.
  intros Hw C. split.
  - intros v Hv. eapply (encodes_map get (fun zz buf => Ok (unzigzag w zz, buf))).
    + apply wire_encodes, zigzag_range; [lia|done].
    + by rewrite unzigzag_zigzag.
  - intros buf a rest H. apply bind_Ok in H as ([zz buf'] & H & [= <- <-]).
    apply wire_sound in H as [Hzz ?]. split; [|done]. by apply unzigzag_range.
Qed.

#[global] Instance varint_codec : WireCodec (in_s 32) put_varint get_varint.
Proof. apply (zigzag_codec 32 _ _); [lia|apply _]. Qed.
#[global] Instance varlong_codec : WireCodec (in_s 64) put_varlong get_varlong.
Proof. apply (zigzag_codec 64 _ _); [lia|apply _]. Qed.

(** ** Predicted sizes *)

Lemma length_put_uvar fuel v :
  0 ≤ v < 2 ^ (7 * Z.of_nat (S fuel)) →
  Z.of_nat (length (put_uvar_loop (S fuel) v)) =
    if v =? 0 then 1 else (Z.log2 v + 7) / 7.
Proof.
  revert v. induction fuel as [|fuel IH]; intros v Hv.
  all: destruct (decide (v < 128)) as [Hlt|Hge]; [|try (simpl in Hv; lia)].
  1,2: rewrite put_uvar_last by lia; simpl; destruct (Z.eqb_spec v 0); [done|];
       assert (0 ≤ Z.log2 v < 7) by (split; [apply Z.log2_nonneg|apply Z.log2_lt_pow2; lia]);
       apply (Z.div_unique _ 7 1 (Z.log2 v)); lia.
  rewrite put_uvar_step by lia. cbn [length]. rewrite Nat2Z.inj_succ.
  rewrite IH by (by apply septet_bound).
  assert (1 ≤ v / 128) by (apply Z.div_le_lower_bound; lia).
  destruct (Z.eqb_spec (v / 128) 0), (Z.eqb_spec v 0); try lia.
  assert (Z.log2 (v / 128) = Z.log2 v - 7) as ->.
  { change 128 with (2 ^ 7). rewrite <- Z.shiftr_div_pow2, Z.log2_shiftr by lia.
    assert (7 ≤ Z.log2 v) by (apply Z.log2_le_pow2; lia). lia. }
  replace (Z.log2 v - 7 + 7) with (Z.log2 v + 7 - 1 * 7) by lia.
  rewrite <- Z.add_opp_r, <- Z.mul_opp_l, Z.div_add by lia. lia.
Qed.

Lemma len_formula w v :
  0 < w < 256 → in_u w v →
  (if v =? 0 then 1 else
   let bits := wrap_u 8 (w - leading_zeros w v) in (bits + 6) / 7) =
  if v =? 0 then 1 else (Z.log2 v + 7) / 7.
Proof.
  intros Hw Hv. unfold leading_zeros. destruct (Z.eqb_spec v 0); [done|]. cbv zeta.
  unfold in_u in Hv. assert (0 ≤ Z.log2 v < w).
  { split; [apply Z.log2_nonneg|apply Z.log2_lt_pow2; lia]. }
  rewrite wrap_u_id by (unfold in_u; simpl; lia). f_equal. lia.
Qed.

Lemma length_put_uvarint v : in_u 32 v → Z.of_nat (length (put_uvarint v)) = uvarint_len v.
Proof.
  intros Hv. unfold uvarint_len. rewrite len_formula by (done || lia).
  apply length_put_uvar. unfold in_u in Hv. simpl. lia.
Qed.

Lemma length_put_uvarlong v : in_u 64 v → Z.of_nat (length (put_uvarlong v)) = uvarlong_len v.
Proof.
  intros Hv. unfold uvarlong_len. rewrite len_formula by (done || lia).
  apply length_put_uvar. unfold in_u in Hv. simpl. lia.
Qed.

Lemma length_put_varint v : in_s 32 v → Z.of_nat (length (put_varint v)) = varint_len v.
Proof. intros. apply length_put_uvarint, zigzag_range; [lia|done]. Qed.

Lemma length_put_varlong v : in_s 64 v → Z.of_nat (length (put_varlong v)) = varlong_len v.
Proof. intros. apply length_put_uvarlong, zigzag_range; [lia|done]. Qed.

(** ** Properties *)

Lemma uvar_len_range w v :
  0 < w → in_u w v → 1 ≤ (if v =? 0 then 1 else (Z.log2 v + 7) / 7) ≤ (w + 6) / 7.
Proof.
  intros Hw [H0 Hv]. destruct (Z.eqb_spec v 0) as [->|Hne].
  - split; [done|]. apply Z.div_le_lower_bound; lia.
  - assert (0 < v) by lia. pose proof (Z.log2_nonneg v).
    assert (Z.log2 v < w) by (by apply Z.log2_lt_pow2).
    split; [apply Z.div_le_lower_bound; lia|]. apply Z.div_le_mono; lia.
Qed.

(** Variable-length integers survive the wire at both widths: the decoder
    reads back what the encoder wrote whatever follows it, rejects every
    truncation, and the length functions predict the bytes written, at most 5
    for an [i32] and 10 for an [i64]. *)
Theorem varints_roundtrip v :
  (in_s 32 v → Encodes get_varint (put_varint v) v ∧
     Z.of_nat (length (put_varint v)) = varint_len v ∧ 1 ≤ varint_len v ≤ 5) ∧
  (in_s 64 v → Encodes get_varlong (put_varlong v) v ∧
     Z.of_nat (length (put_varlong v)) = varlong_len v ∧ 1 ≤ varlong_len v ≤ 10).
Proof.
  split; intros Hv.
  - split_and!; [by apply wire_encodes|by apply length_put_varint|..];
      unfold varint_len, uvarint_len; rewrite len_formula by (lia || (apply zigzag_range; [lia|done]));
      pose proof (uvar_len_range 32 (zigzag 32 v) ltac:(lia) ltac:(apply zigzag_range; [lia|done])) as Hr;
      change ((32 + 6) / 7) with 5 in Hr; lia.
  - split_and!; [by apply wire_encodes|by apply length_put_varlong|..];
      unfold varlong_len, uvarlong_len; rewrite len_formula by (lia || (apply zigzag_range; [lia|done]));
      pose proof (uvar_len_range 64 (zigzag 64 v) ltac:(lia) ltac:(apply zigzag_range; [lia|done])) as Hr;
      change ((64 + 6) / 7) with 10 in Hr; lia.
Qed.

(** The decoder of an unsigned varint is bounded: when it succeeds it
    returns a [u32] and a proper suffix of its input, after one to five bytes. *)
Theorem get_uvarint_bounded buf v rest :
  get_uvarint buf = Ok (v, rest) →
  in_u 32 v ∧ ∃ used, buf = used ++ rest ∧ (1 ≤ length used ≤ MAX_VARINT_BYTES)%nat.
Proof.
  intros H. apply get_uvar_sound in H; [done|lia|by vm_compute].
Qed.

Lemma get_uvarint_bounded_witness : in_u 32 300.
Proof. apply (get_uvarint_bounded [xac; x02; x07] 300 [x07]). vm_compute. reflexivity. Defined.

End Varint.
