(* ===== verification/StringBytes.v ===== *)
(** * Strings, byte blobs and array lengths

    Models [crates/protocol/src/primitives/string_bytes.rs] and
    [primitives/array.rs].  A Rust [str] is a byte list that [utf8_valid]
    accepts; [String::from_utf8] is that test.  An encoder that can hit an
    [expect] returns [None] there. *)

From S2P Require Import Prelude Wire Varint.
Import Fixed Varint.

(** ** UTF-8 ([String::from_utf8]): the well-formed byte sequences of the
    Unicode standard, table 3-7. *)
Module Utf8.

Definition between (lo hi : Z) (b : byte) : bool :=
  (lo <=? Z_of_byte b) && (Z_of_byte b <=? hi).
Definition cont (b : byte) : bool := between 0x80 0xBF b.

Fixpoint utf8_valid (l : list byte) : bool :=
  match l with
  | [] => true
  | b0 :: l0 =>
      if between 0x00 0x7F b0 then utf8_valid l0 else
      match l0 with
      | [] => false
      | b1 :: l1 =>
          if between 0xC2 0xDF b0 && cont b1 then utf8_valid l1 else
          match l1 with
          | [] => false
          | b2 :: l2 =>
              if ((between 0xE0 0xE0 b0 && between 0xA0 0xBF b1)
                  || (between 0xE1 0xEC b0 && cont b1)
                  || (between 0xED 0xED b0 && between 0x80 0x9F b1)
                  || (between 0xEE 0xEF b0 && cont b1)) && cont b2
              then utf8_valid l2 else
              match l2 with
              | [] => false
              | b3 :: l3 =>
                  if ((between 0xF0 0xF0 b0 && between 0x90 0xBF b1)
                      || (between 0xF1 0xF3 b0 && cont b1)
                      || (between 0xF4 0xF4 b0 && between 0x80 0x8F b1))
                     && cont b2 && cont b3
                  then utf8_valid l3 else false
              end
          end
      end
  end.

(** "é€😀" is accepted; a lone continuation byte, an overlong "/" and a surrogate are not. *)
Example utf8_ok : utf8_valid [xc3; xa9; xe2; x82; xac; xf0; x9f; x98; x80] = true.
Proof. reflexivity. Qed.
Example utf8_bad :
  map utf8_valid [[x80]; [xc0; xaf]; [xed; xa0; x80]] = [false; false; false].
Proof. reflexivity. Qed.

End Utf8.

Module StringBytes.
Import Utf8.

(** [iN::try_from(len)] and [u32::try_from(len + 1)] followed by [expect]. *)
Definition try_s (w : Z) (n : nat) : option Z :=
  if Z.of_nat n <? 2 ^ (w - 1) then Some (Z.of_nat n) else None.
Definition try_u32_succ (n : nat) : option Z :=
  if Z.of_nat n + 1 <? 2 ^ 32 then Some (Z.of_nat n + 1) else None.

(** The tail shared by the length-prefixed decoders: [n] bytes or [UnexpectedEof]. *)
Definition get_slice (n : nat) : decoder (list byte) := fun buf =>
  if bool_decide (length buf < n)%nat
  then Err (UnexpectedEof (n - length buf))
  else Ok (take n buf, drop n buf).

(** ** STRING *)
Definition put_string (s : list byte) : option (list byte) :=
  len ← try_s 16 (length s);
  Some (put_i16 len ++ s).
Definition put_nullable_string (s : option (list byte)) : option (list byte) :=
  match s with
  | None => Some (put_i16 (-1))
  | Some s => put_string s
  end.
Definition get_nullable_string_owned : decoder (option (list byte)) := fun buf =>
  '(len, buf) ← get_i16 buf;
  if len <? 0 then Ok (None, buf) else
  '(v, buf) ← get_slice (Z.to_nat len) buf;
  if utf8_valid v then Ok (Some v, buf) else Err InvalidUtf8.
Definition get_string_owned : decoder (list byte) := fun buf =>
  '(s, buf) ← get_nullable_string_owned buf;
  match s with
  | Some s => Ok (s, buf)
  | None => Err (InvalidValue "non-nullable STRING was null")
  end.
Definition string_len (s : list byte) : Z := 2 + Z.of_nat (length s).
Definition nullable_string_len (s : option (list byte)) : Z :=
  2 + match s with Some s => Z.of_nat (length s) | None => 0 end.

(** ** COMPACT_STRING *)
Definition put_compact_string (s : list byte) : option (list byte) :=
  len ← try_u32_succ (length s);
  Some (put_uvarint len ++ s).
Definition put_compact_nullable_string (s : option (list byte)) : option (list byte) :=
  match s with
  | None => Some (put_uvarint 0)
  | Some s => put_compact_string s
  end.
Definition get_compact_nullable_string_owned : decoder (option (list byte)) := fun buf =>
  '(raw, buf) ← get_uvarint buf;
  if raw =? 0 then Ok (None, buf) else
  '(v, buf) ← get_slice (Z.to_nat (raw - 1)) buf;
  if utf8_valid v then Ok (Some v, buf) else Err InvalidUtf8.
Definition get_compact_string_owned : decoder (list byte) := fun buf =>
  '(s, buf) ← get_compact_nullable_string_owned buf;
  match s with
  | Some s => Ok (s, buf)
  | None => Err (InvalidValue "non-nullable COMPACT_STRING was null")
  end.
Definition compact_string_len (s : list byte) : option Z :=
  len ← try_u32_succ (length s);
  Some (uvarint_len len + Z.of_nat (length s)).
Definition compact_nullable_string_len (s : option (list byte)) : option Z :=
  match s with
  | None => Some (uvarint_len 0)
  | Some s => compact_string_len s
  end.

(** ** BYTES *)
Definition put_bytes (b : list byte) : option (list byte) :=
  len ← try_s 32 (length b);
  Some (put_i32 len ++ b).
Definition put_nullable_bytes (b : option (list byte)) : option (list byte) :=
  match b with
  | None => Some (put_i32 (-1))
  | Some b => put_bytes b
  end.
Definition get_nullable_bytes_owned : decoder (option (list byte)) := fun buf =>
  '(len, buf) ← get_i32 buf;
  if len <? 0 then Ok (None, buf) else
  '(v, buf) ← get_slice (Z.to_nat len) buf;
  Ok (Some v, buf).
Definition get_bytes_owned : decoder (list byte) := fun buf =>
  '(b, buf) ← get_nullable_bytes_owned buf;
  match b with
  | Some b => Ok (b, buf)
  | None => Err (InvalidValue "non-nullable BYTES was null")
  end.
Definition bytes_len (b : list byte) : Z := 4 + Z.of_nat (length b).
Definition nullable_bytes_len (b : option (list byte)) : Z :=
  4 + match b with Some b => Z.of_nat (length b) | None => 0 end.

(** ** COMPACT_BYTES *)
Definition put_compact_bytes (b : list byte) : option (list byte) :=
  len ← try_u32_succ (length b);
  Some (put_uvarint len ++ b).
Definition put_compact_nullable_bytes (b : option (list byte)) : option (list byte) :=
  match b with
  | None => Some (put_uvarint 0)
  | Some b => put_compact_bytes b
  end.
Definition get_compact_nullable_bytes_owned : decoder (option (list byte)) := fun buf =>
  '(raw, buf) ← get_uvarint buf;
  if raw =? 0 then Ok (None, buf) else
  '(v, buf) ← get_slice (Z.to_nat (raw - 1)) buf;
  Ok (Some v, buf).
Definition get_compact_bytes_owned : decoder (list byte) := fun buf =>
  '(b, buf) ← get_compact_nullable_bytes_owned buf;
  match b with
  | Some b => Ok (b, buf)
  | None => Err (InvalidValue "non-nullable COMPACT_BYTES was null")
  end.
Definition compact_bytes_len_from_size (n : nat) : option Z :=
  len ← try_u32_succ n;
  Some (uvarint_len len + Z.of_nat n).
Definition compact_bytes_len (b : list byte) : option Z :=
  len ← try_u32_succ (length b);
  Some (uvarint_len len + Z.of_nat (length b)).
Definition compact_nullable_bytes_len (b : option (list byte)) : option Z :=
  match b with
  | None => Some (uvarint_len 0)
  | Some b => compact_bytes_len b
  end.

(** ** Facts *)

Lemma try_s_Some w n len :
  0 < w → try_s w n = Some len → len = Z.of_nat n ∧ in_s w len.
Proof.
  unfold try_s. intros Hw. destruct (Z.ltb_spec (Z.of_nat n) (2 ^ (w - 1))); [|done].
  intros [= <-]. split; [done|]. unfold in_s. lia.
Qed.

Lemma try_u32_succ_Some n len :
  try_u32_succ n = Some len → len = Z.of_nat n + 1 ∧ in_u 32 len.
Proof.
  unfold try_u32_succ. destruct (Z.ltb_spec (Z.of_nat n + 1) (2 ^ 32)); [|done].
  intros [= <-]. split; [done|]. unfold in_u. lia.
Qed.

Lemma encodes_slice v : Encodes (get_slice (length v)) v v.
Proof.
  eapply encodes_ext;
    [|apply (encodes_take (fun buf => UnexpectedEof (length v - length buf)) id v)].
  done.
Qed.

(** A fixed-width length prefix: [-1] is null, otherwise the payload follows. *)
Lemma encodes_len_prefixed (check : list byte → bool) (err : ProtocolError) get put w s bs :
  0 < w → WireCodec (in_s w) put get →
  match s with
  | None => Some (put (-1))
  | Some s => len ← try_s w (length s); Some (put len ++ s)
  end = Some bs →
  match s with Some s => check s = true | None => True end →
  Encodes (fun buf =>
    '(len, buf) ← get buf;
    if len <? 0 then Ok (None, buf) else
    '(v, buf) ← get_slice (Z.to_nat len) buf;
    if check v then Ok (Some v, buf) else Err err) bs s.
Proof.
  intros Hw C Hput Hcheck. destruct s as [s|]; simpl in Hput.
  - destruct (try_s w (length s)) as [len|] eqn:Hlen; simplify_eq/=.
    apply try_s_Some in Hlen as [-> Hr]; [|done].
    eapply (encodes_bind get); [by apply wire_encodes|].
    destruct (Z.ltb_spec (Z.of_nat (length s)) 0); [lia|].
    rewrite Nat2Z.id.
    eapply (encodes_map (get_slice _)); [apply encodes_slice|]. by rewrite Hcheck.
  - injection Hput as <-. eapply (encodes_map get); [apply wire_encodes|done].
    unfold in_s. assert (0 < 2 ^ (w - 1)) by (apply Z.pow_pos_nonneg; lia). lia.
Qed.

(** A varint prefix of length plus one: [0] is null. *)
Lemma encodes_compact_prefixed (check : list byte → bool) (err : ProtocolError) s bs :
  match s with
  | None => Some (put_uvarint 0)
  | Some s => len ← try_u32_succ (length s); Some (put_uvarint len ++ s)
  end = Some bs →
  match s with Some s => check s = true | None => True end →
  Encodes (fun buf =>
    '(raw, buf) ← get_uvarint buf;
    if raw =? 0 then Ok (None, buf) else
    '(v, buf) ← get_slice (Z.to_nat (raw - 1)) buf;
    if check v then Ok (Some v, buf) else Err err) bs s.
Proof.
  intros Hput Hcheck. destruct s as [s|]; simpl in Hput.
  - destruct (try_u32_succ (length s)) as [len|] eqn:Hlen; simplify_eq/=.
    apply try_u32_succ_Some in Hlen as [-> Hr].
    eapply (encodes_bind get_uvarint); [by apply wire_encodes|].
    destruct (Z.eqb_spec (Z.of_nat (length s) + 1) 0); [lia|].
    replace (Z.to_nat (Z.of_nat (length s) + 1 - 1)) with (length s) by lia.
    eapply (encodes_map (get_slice _)); [apply encodes_slice|]. by rewrite Hcheck.
  - injection Hput as <-. eapply (encodes_map get_uvarint); [by apply wire_encodes|done].
Qed.

Definition opt_valid (s : option (list byte)) : Prop :=
  match s with Some s => utf8_valid s = true | None => True end.

Lemma nullable_string_encodes s bs :
  put_nullable_string s = Some bs → opt_valid s → Encodes get_nullable_string_owned bs s.
Proof.
  intros Hput Hs. apply (encodes_len_prefixed utf8_valid InvalidUtf8 get_i16 put_i16 16);
    [lia|apply _|by destruct s|done].
Qed.

Lemma nullable_bytes_encodes b bs :
  put_nullable_bytes b = Some bs → Encodes get_nullable_bytes_owned bs b.
Proof.
  intros Hput. apply (encodes_len_prefixed (fun _ => true) InvalidUtf8 get_i32 put_i32 32);
    [lia|apply _|by destruct b|by destruct b].
Qed.

Lemma compact_nullable_string_encodes s bs :
  put_compact_nullable_string s = Some bs → opt_valid s →
  Encodes get_compact_nullable_string_owned bs s.
Proof.
  intros Hput Hs. apply (encodes_compact_prefixed utf8_valid InvalidUtf8); by destruct s.
Qed.

Lemma compact_nullable_bytes_encodes b bs :
  put_compact_nullable_bytes b = Some bs → Encodes get_compact_nullable_bytes_owned bs b.
Proof.
  intros Hput. apply (encodes_compact_prefixed (fun _ => true) InvalidUtf8); by destruct b.
Qed.

Lemma nullable_string_length s bs :
  put_nullable_string s = Some bs → Z.of_nat (length bs) = nullable_string_len s.
Proof.
  destruct s as [s|]; simpl; unfold put_string, nullable_string_len.
  - destruct (try_s 16 (length s)) as [len|]; [|done]. intros <-%Some_inj.
    autorewrite with wire. lia.
  - intros <-%Some_inj. by rewrite length_put_i16.
Qed.

Lemma nullable_bytes_length b bs :
  put_nullable_bytes b = Some bs → Z.of_nat (length bs) = nullable_bytes_len b.
Proof.
  destruct b as [b|]; simpl; unfold put_bytes, nullable_bytes_len.
  - destruct (try_s 32 (length b)) as [len|]; [|done]. intros <-%Some_inj.
    autorewrite with wire. lia.
  - intros <-%Some_inj. by rewrite length_put_i32.
Qed.

Lemma compact_length (s : list byte) bs :
  (len ← try_u32_succ (length s); Some (put_uvarint len ++ s)) = Some bs →
  (len ← try_u32_succ (length s); Some (uvarint_len len + Z.of_nat (length s)))
  = Some (Z.of_nat (length bs)).
Proof.
  destruct (try_u32_succ (length s)) as [len|] eqn:Hl; [|done].
  apply try_u32_succ_Some in Hl as [_ Hr]. simpl. intros <-%Some_inj.
  by rewrite length_app, Nat2Z.inj_add, length_put_uvarint.
Qed.

Lemma compact_nullable_length s bs :
  put_compact_nullable_string s = Some bs →
  compact_nullable_string_len s = Some (Z.of_nat (length bs)).
Proof. destruct s as [s|]; [apply compact_length|]. intros <-%Some_inj. reflexivity. Qed.

Lemma compact_nullable_bytes_length s bs :
  put_compact_nullable_bytes s = Some bs →
  compact_nullable_bytes_len s = Some (Z.of_nat (length bs)).
Proof. destruct s as [s|]; [apply compact_length|]. intros <-%Some_inj. reflexivity. Qed.

(** ** Properties *)

(** Nullable strings survive the wire in both framings: null and text come
    back as written whatever follows, every truncation is rejected, and the
    length functions predict the bytes written. *)
Theorem strings_roundtrip s bs :
  opt_valid s →
  (put_nullable_string s = Some bs →
     Encodes get_nullable_string_owned bs s ∧ Z.of_nat (length bs) = nullable_string_len s) ∧
  (put_compact_nullable_string s = Some bs →
     Encodes get_compact_nullable_string_owned bs s ∧
     compact_nullable_string_len s = Some (Z.of_nat (length bs))).
Proof.
  intros Hs. split; intros H; split.
  - by apply nullable_string_encodes.
  - by apply nullable_string_length.
  - by apply compact_nullable_string_encodes.
  - by apply compact_nullable_length.
Qed.

Lemma strings_roundtrip_witness :
  Encodes get_compact_nullable_string_owned [x03; x68; x69] (Some [x68; x69]).
Proof.
  apply (strings_roundtrip (Some [x68; x69]) [x03; x68; x69]); vm_compute; reflexivity.
Defined.

(** Nullable byte blobs survive the wire in both framings, with exact
    length prediction. *)
Theorem bytes_roundtrip b bs :
  (put_nullable_bytes b = Some bs →
     Encodes get_nullable_bytes_owned bs b ∧ Z.of_nat (length bs) = nullable_bytes_len b) ∧
  (put_compact_nullable_bytes b = Some bs →
     Encodes get_compact_nullable_bytes_owned bs b ∧
     compact_nullable_bytes_len b = Some (Z.of_nat (length bs))).
Proof.
  split; intros H; split.
  - by apply nullable_bytes_encodes.
  - by apply nullable_bytes_length.
  - by apply compact_nullable_bytes_encodes.
  - by apply compact_nullable_bytes_length.
Qed.

End StringBytes.

(** ** primitives/array.rs: array length prefixes *)
Module Array.
Import StringBytes.

Definition put_array_len (n : nat) (flexible : bool) : option (list byte) :=
  if flexible
  then len ← try_u32_succ n; Some (put_uvarint len)
  else len ← try_s 32 n; Some (put_i32 len).
Definition put_nullable_array_len (len : option nat) (flexible : bool) : option (list byte) :=
  match flexible, len with
  | false, None => Some (put_i32 (-1))
  | false, Some n => l ← try_s 32 n; Some (put_i32 l)
  | true, None => Some (put_uvarint 0)
  | true, Some n => l ← try_u32_succ n; Some (put_uvarint l)
  end.
Definition array_len_prefix_len (n : nat) (flexible : bool) : option Z :=
  if flexible then len ← try_u32_succ n; Some (uvarint_len len) else Some 4.
Definition nullable_array_len_prefix_len (len : option nat) (flexible : bool) : option Z :=
  match flexible, len with
  | false, _ => Some 4
  | true, None => Some (uvarint_len 0)
  | true, Some n => l ← try_u32_succ n; Some (uvarint_len l)
  end.

(** The pre-allocation guard shared by both readers. *)
Definition bounded_len (n : nat) (buf : list byte) : result ProtocolError nat :=
  if bool_decide (length buf < n)%nat
  then Err (InvalidValue "array length exceeds remaining buffer")
  else Ok n.

Definition get_array_len (flexible : bool) : decoder nat := fun buf =>
  '(n, buf) ←
    (if flexible then
       '(raw, buf) ← get_uvarint buf;
       if raw =? 0
       then Err (InvalidValue "non-nullable array was null (compact encoding)")
       else Ok (Z.to_nat (raw - 1), buf)
     else
       '(n, buf) ← get_i32 buf;
       if n <? 0
       then Err (InvalidValue "non-nullable array had negative length")
       else Ok (Z.to_nat n, buf));
  n ← bounded_len n buf;
  Ok (n, buf).

Definition get_nullable_array_len (flexible : bool) : decoder (option nat) := fun buf =>
  '(n, buf) ←
    (if flexible then
       '(raw, buf) ← get_uvarint buf;
       Ok (if raw =? 0 then None else Some (Z.to_nat (raw - 1)), buf)
     else
       '(n, buf) ← get_i32 buf;
       Ok (if n <? 0 then None else Some (Z.to_nat n), buf));
  match n with
  | None => Ok (None, buf)
  | Some n => n ← bounded_len n buf; Ok (Some n, buf)
  end.

Lemma bounded_len_inv n m buf : bounded_len n buf = Ok m → m = n ∧ (n ≤ length buf)%nat.
Proof. unfold bounded_len. case_bool_decide; [done|]. intros [= ->]. split; [done|lia]. Qed.

Lemma bounded_len_Ok n buf : (n ≤ length buf)%nat → bounded_len n buf = Ok n.
Proof. intros. unfold bounded_len. by rewrite bool_decide_eq_false_2 by lia. Qed.

Lemma get_nullable_array_len_put len flexible bs rest :
  put_nullable_array_len len flexible = Some bs →
  (default 0%nat len ≤ length rest)%nat →
  get_nullable_array_len flexible (bs ++ rest) = Ok (len, rest).
Proof.
  intros Hput Hlen. unfold get_nullable_array_len. destruct flexible, len as [n|]; simpl in Hput.
  - destruct (try_u32_succ n) eqn:Hn; [injection Hput as <-|done].
    apply try_u32_succ_Some in Hn as [-> Hr]. rewrite wire_roundtrip by done. simpl.
    destruct (Z.eqb_spec (Z.of_nat n + 1) 0); [lia|].
    replace (Z.to_nat (Z.of_nat n + 1 - 1)) with n by lia. by rewrite bounded_len_Ok.
  - injection Hput as <-. by rewrite wire_roundtrip by done.
  - destruct (try_s 32 n) eqn:Hn; [injection Hput as <-|done].
    apply try_s_Some in Hn as [-> Hr]; [|lia]. rewrite wire_roundtrip by done. simpl.
    destruct (Z.ltb_spec (Z.of_nat n) 0); [lia|].
    rewrite Nat2Z.id. by rewrite bounded_len_Ok.
  - injection Hput as <-. by rewrite wire_roundtrip by done.
Qed.

(** The non-nullable reader is the nullable one with null turned into an error. *)
Lemma get_array_len_spec flexible buf n rest :
  get_array_len flexible buf = Ok (n, rest) ↔
  get_nullable_array_len flexible buf = Ok (Some n, rest).
Proof.
  unfold get_array_len, get_nullable_array_len.
  destruct flexible.
  - destruct (get_uvarint buf) as [[raw b]|e]; simpl; [|done].
    destruct (raw =? 0); simpl; [done|]. by destruct (bounded_len _ _); simpl; split; intros; simplify_eq.
  - destruct (get_i32 buf) as [[raw b]|e]; simpl; [|done].
    destruct (raw <? 0); simpl; [done|]. by destruct (bounded_len _ _); simpl; split; intros; simplify_eq.
Qed.

Lemma get_nullable_array_len_bounded flexible buf n rest :
  get_nullable_array_len flexible buf = Ok (Some n, rest) → (n ≤ length rest)%nat.
Proof.
  unfold get_nullable_array_len. intros H. apply bind_Ok in H as ([[k|] b] & _ & H); [|by inv_ok].
  inv_ok. match goal with Hb : bounded_len _ _ = Ok _ |- _ => by apply bounded_len_inv in Hb as [-> ?] end.
Qed.

(** An array header cannot trigger an oversized allocation: the element
    count the reader returns never exceeds the bytes that are left, and a count
    that fits is read back as written. *)
Theorem array_len_bounded flexible :
  (∀ buf n rest, get_array_len flexible buf = Ok (n, rest) → (n ≤ length rest)%nat) ∧
  (∀ n bs rest, put_array_len n flexible = Some bs → (n ≤ length rest)%nat →
     get_array_len flexible (bs ++ rest) = Ok (n, rest)).
Proof.
  split.
  - intros buf n rest H. apply get_array_len_spec in H. by eapply get_nullable_array_len_bounded.
  - intros n bs rest Hp Hn. apply get_array_len_spec, get_nullable_array_len_put; [|done].
    by destruct flexible.
Qed.

End Array.
