(* ===== verification/TaggedFields.v ===== *)
(** * Tagged fields (KIP-482): [crates/protocol/src/tagged_fields.rs]

    The trailer of every flexible message: a count, then [(tag, size, payload)]
    entries in strictly ascending tag order.  The reader hands each payload to
    the message's [known] closure; the closure is state-passing here, [S] being
    the fields it fills in. *)

From S2P Require Import Prelude Wire Varint.
Import Varint.

Module TaggedFields.

Record UnknownTaggedField : Type := { tag : Z; bytes : list byte }.

(** [FnMut(u32, &mut &[u8]) -> Result<bool, ProtocolError>]: whether the tag was
    recognised, what the closure left of the slice, and its new state. *)
Definition known_fn (S : Type) : Type :=
  S → Z → list byte → result ProtocolError (bool * list byte * S).

Section read.
Context {S : Type} (known : known_fn S).

(** The [for _ in 0..count] loop. *)
Fixpoint read_loop (count : nat) (last_tag : option Z) (unknown : list UnknownTaggedField)
    (st : S) (buf : list byte) : result ProtocolError (list UnknownTaggedField * S * list byte) :=
  match count with
  | O => Ok (unknown, st, buf)
  | Datatypes.S count =>
      '(tag, buf) ← get_uvarint buf;
      if match last_tag with Some prev => tag <=? prev | None => false end
      then Err (InvalidValue "tagged fields not strictly ascending")
      else
        '(size, buf) ← get_uvarint buf;
        let size := Z.to_nat size in
        if bool_decide (length buf < size)%nat
        then Err (UnexpectedEof (size - length buf))
        else
          let payload := take size buf in
          let buf := drop size buf in
          '(recognised, slice, st) ← known st tag payload;
          if negb recognised
          then read_loop count (Some tag)
                 (unknown ++ [{| tag := tag; bytes := payload |}]) st buf
          else if negb (bool_decide (slice = []))
          then Err (InvalidValue "tagged field decoder did not consume all bytes")
          else read_loop count (Some tag) unknown st buf
  end.

Definition read_tagged_fields (st : S) (buf : list byte)
    : result ProtocolError (list UnknownTaggedField * S * list byte) :=
  '(count, buf) ← get_uvarint buf;
  read_loop (Z.to_nat count) None [] st buf.
End read.

(** [Vec::sort_by_key(|(t, _)| t)], a stable sort. *)
Fixpoint insert_by_tag (e : Z * list byte) (l : list (Z * list byte)) : list (Z * list byte) :=
  match l with
  | [] => [e]
  | e' :: l' => if e.1 <=? e'.1 then e :: e' :: l' else e' :: insert_by_tag e l'
  end.
Definition sort_by_tag (l : list (Z * list byte)) : list (Z * list byte) :=
  foldr insert_by_tag [] l.

(** [u32::try_from(n)] with its [expect]. *)
Definition try_u32 (n : nat) : option Z :=
  if Z.of_nat n <? 2 ^ 32 then Some (Z.of_nat n) else None.

Definition put_entry (e : Z * list byte) : option (list byte) :=
  size ← try_u32 (length e.2);
  Some (put_uvarint e.1 ++ put_uvarint size ++ e.2).

(** [WriteTaggedFields::write]: [entries] are the [add]ed known fields. *)
Definition write (entries : list (Z * list byte)) (unknown : list UnknownTaggedField)
    : option (list byte) :=
  let entries := entries ++ map (fun u => (tag u, bytes u)) unknown in
  let entries := sort_by_tag entries in
  count ← try_u32 (length entries);
  body ← mapM put_entry entries;
  Some (put_uvarint count ++ concat body).

Definition field_len (tag : Z) (len : nat) : option Z :=
  size ← try_u32 len;
  Some (uvarint_len tag + uvarint_len size + Z.of_nat len).

Definition tagged_fields_len (known : list (Z * nat)) (unknown : list UnknownTaggedField)
    : option Z :=
  total ← try_u32 (length known + length unknown);
  ks ← mapM (fun '(t, len) => field_len t len) known;
  us ← mapM (fun u => field_len (tag u) (length (bytes u))) unknown;
  Some (uvarint_len total + foldr Z.add 0 ks + foldr Z.add 0 us).

(** The merge example of the test-suite: count, then tags 5 and 10. *)
Example write_merges :
  write [(10, [xaa])] [{| tag := 5; bytes := [xbb] |}]
  = Some [x02; x05; x01; xbb; x0a; x01; xaa].
Proof. reflexivity. Qed.
Example read_descending :
  read_tagged_fields (fun st _ p => Ok (false, p, st)) tt [x02; x05; x01; x00; x03; x01; x00]
  = Err (InvalidValue "tagged fields not strictly ascending").
Proof. reflexivity. Qed.

(** ** Sorting *)

Lemma insert_by_tag_perm e l : insert_by_tag e l ≡ₚ e :: l.
Proof.
  induction l as [|e' l IH]; simpl; [done|]. destruct (_ <=? _); [done|].
  rewrite IH. apply Permutation_swap.
Qed.

Lemma sort_by_tag_perm l : sort_by_tag l ≡ₚ l.
Proof. induction l as [|e l IH]; simpl; [done|]. by rewrite insert_by_tag_perm, IH. Qed.

Definition tag_le (e e' : Z * list byte) : Prop := e.1 ≤ e'.1.
Definition tag_lt (e e' : Z * list byte) : Prop := e.1 < e'.1.

Lemma insert_by_tag_sorted e l :
  StronglySorted tag_le l → StronglySorted tag_le (insert_by_tag e l).
Proof.
  induction 1 as [|e' l Hl IH Hall]; simpl; [repeat constructor|].
  destruct (Z.leb_spec e.1 e'.1).
  - constructor; [by constructor|]. constructor; [done|].
    eapply Forall_impl; [done|]. unfold tag_le. simpl. lia.
  - constructor; [done|]. rewrite insert_by_tag_perm. constructor; [|done].
    unfold tag_le. lia.
Qed.

Lemma sort_by_tag_sorted l : StronglySorted tag_le (sort_by_tag l).
Proof. induction l; simpl; [constructor|]. by apply insert_by_tag_sorted. Qed.

(** With distinct tags the sort is strict, which is what the reader demands. *)
Lemma sort_by_tag_strict l : NoDup l.*1 → StronglySorted tag_lt (sort_by_tag l).
Proof.
  intros Hnd. assert (NoDup (sort_by_tag l).*1) as Hnd' by (by rewrite sort_by_tag_perm).
  pose proof (sort_by_tag_sorted l) as Hs. revert Hnd' Hs. generalize (sort_by_tag l).
  clear. intros l Hnd Hs. induction Hs as [|e l Hs IH Hall]; [constructor|].
  simpl in Hnd. apply NoDup_cons in Hnd as [Hnin Hnd]. constructor; [auto|].
  rewrite Forall_forall in Hall |- *. intros e' He'. specialize (Hall e' He').
  assert (e.1 ≠ e'.1) as Hne.
  { intros Heq. apply Hnin. rewrite Heq. apply list_elem_of_fmap. eauto. }
  unfold tag_le, tag_lt in *. lia.
Qed.

(** Filtering commutes with the stable sort. *)
Section filter_sort.
Context (P : Z * list byte → Prop) `{∀ e, Decision (P e)}.

Lemma insert_by_tag_head e l :
  Forall (tag_le e) l → insert_by_tag e l = e :: l.
Proof.
  destruct l as [|e' l]; simpl; [done|]. intros [Hle _]%Forall_cons.
  unfold tag_le in Hle. by destruct (Z.leb_spec e.1 e'.1); [|lia].
Qed.

Lemma filter_insert_by_tag e l :
  StronglySorted tag_le l →
  filter P (insert_by_tag e l) =
    if decide (P e) then insert_by_tag e (filter P l) else filter P l.
Proof.
  induction 1 as [|e' l Hl IH Hall]; simpl; [done|].
  destruct (Z.leb_spec e.1 e'.1).
  - rewrite filter_cons. case_decide; [|done]. rewrite insert_by_tag_head; [done|].
    assert (Forall (tag_le e) (e' :: l)) as HF.
    { constructor; [done|]. eapply Forall_impl; [done|]. unfold tag_le. simpl. lia. }
    rewrite Forall_forall in HF |- *. intros x [_ Hx]%list_elem_of_filter. auto.
  - rewrite !filter_cons, IH. repeat case_decide; try done. simpl.
    by destruct (Z.leb_spec e.1 e'.1); [lia|].
Qed.

Lemma filter_sort_by_tag l : filter P (sort_by_tag l) = sort_by_tag (filter P l).
Proof.
  induction l as [|e l IH]; simpl; [done|].
  rewrite filter_insert_by_tag by apply sort_by_tag_sorted.
  rewrite filter_cons, IH. by case_decide.
Qed.
End filter_sort.

(** ** Reading back what was written *)

Lemma try_u32_Some n v : try_u32 n = Some v → v = Z.of_nat n ∧ in_u 32 v.
Proof.
  unfold try_u32. destruct (Z.ltb_spec (Z.of_nat n) (2 ^ 32)); [|done].
  intros [= <-]. split; [done|]. unfold in_u. lia.
Qed.

Lemma put_entry_Some e bs :
  put_entry e = Some bs →
  bs = put_uvarint e.1 ++ put_uvarint (Z.of_nat (length e.2)) ++ e.2 ∧
  in_u 32 (Z.of_nat (length e.2)).
Proof.
  unfold put_entry. destruct (try_u32 _) eqn:Hn; [|done]. intros [= <-].
  apply try_u32_Some in Hn as [-> ?]. done.
Qed.

(** One iteration of the reader on one written entry. *)
Lemma read_loop_step {S} (known : known_fn S) n last unk (st : S) e bs rest :
  put_entry e = Some bs → in_u 32 e.1 →
  match last with Some prev => prev < e.1 | None => True end →
  read_loop known (Datatypes.S n) last unk st (bs ++ rest) =
    '(recognised, slice, st) ← known st e.1 e.2;
    if negb recognised
    then read_loop known n (Some e.1) (unk ++ [{| tag := e.1; bytes := e.2 |}]) st rest
    else if negb (bool_decide (slice = []))
    then Err (InvalidValue "tagged field decoder did not consume all bytes")
    else read_loop known n (Some e.1) unk st rest.
Proof.
  intros He Htag Hlast. apply put_entry_Some in He as [-> Hlen].
  cbn [read_loop]. rewrite <- !app_assoc. rewrite wire_roundtrip by done.
  cbn [mbind result_bind]. 
  assert (match last with Some prev => e.1 <=? prev | None => false end = false) as ->.
  { destruct last; [|done]. apply Z.leb_gt. lia. }
  rewrite wire_roundtrip by done. cbn [mbind result_bind]. cbv zeta. rewrite Nat2Z.id.
  rewrite bool_decide_eq_false_2 by (rewrite length_app; lia).
  by rewrite take_app_length, drop_app_length.
Qed.

(** The closure a generated message uses: it recognises the tags of [ks], and
    stores the payload. *)
Definition collect (ks : list Z) : known_fn (list (Z * list byte)) := fun st tag payload =>
  if bool_decide (tag ∈ ks) then Ok (true, [], st ++ [(tag, payload)]) else Ok (false, payload, st).

Lemma collect_declared ks st t p : t ∈ ks → collect ks st t p = Ok (true, [], st ++ [(t, p)]).
Proof. intros. unfold collect. by rewrite bool_decide_eq_true_2. Qed.

Lemma collect_undeclared ks st t p : t ∉ ks → collect ks st t p = Ok (false, p, st).
Proof. intros. unfold collect. by rewrite bool_decide_eq_false_2. Qed.

Definition to_unknown (e : Z * list byte) : UnknownTaggedField := {| tag := e.1; bytes := e.2 |}.
Definition declared (ks : list Z) (e : Z * list byte) : Prop := e.1 ∈ ks.
#[global] Instance declared_dec ks e : Decision (declared ks e).
Proof. unfold declared. apply _. Defined.

Lemma read_loop_collect ks l bss last unk st rest :
  mapM put_entry l = Some bss → Forall (fun e => in_u 32 e.1) l →
  StronglySorted tag_lt l →
  match last with Some prev => Forall (fun e => prev < e.1) l | None => True end →
  read_loop (collect ks) (length l) last unk st (concat bss ++ rest) =
    Ok (unk ++ map to_unknown (filter (fun e => ¬ declared ks e) l),
        st ++ filter (declared ks) l, rest).
Proof.
  revert bss last unk st. induction l as [|e l IH]; intros bss last unk st Hm Htags Hs Hlast.
  - injection Hm as <-. simpl. by rewrite !app_nil_r.
  - apply mapM_Some_1 in Hm. inversion Hm as [|? bs ? bss' He Hm']; subst.
    apply mapM_Some_2 in Hm'. apply Forall_cons in Htags as [Htag Htags].
    apply StronglySorted_inv in Hs as [Hs Hlt].
    cbn [concat length]. rewrite <- app_assoc.
    rewrite (read_loop_step (collect ks) _ _ _ _ e bs); [|done|done|].
    2: { destruct last; [|done]. by apply Forall_cons in Hlast as [? _]. }
    rewrite !filter_cons. destruct (decide (e.1 ∈ ks)) as [Hin|Hnin].
    + rewrite collect_declared by done. cbn [mbind result_bind negb].
      rewrite bool_decide_eq_true_2 by done. cbn [negb]. rewrite IH by done.
      rewrite (decide_True (P := declared ks e)), decide_False by (unfold declared; tauto).
      by rewrite <- app_assoc; destruct e.
    + rewrite collect_undeclared by done. cbn [mbind result_bind negb]. rewrite IH by done.
      rewrite (decide_False (P := declared ks e)), decide_True by (unfold declared; tauto).
      by rewrite <- app_assoc.
Qed.

(** A closure that recognises every field it is handed, [st'] being what it
    has gathered at the end. *)
Inductive feeds {S} (known : known_fn S) : S → list (Z * list byte) → S → Prop :=
| feeds_nil st : feeds known st [] st
| feeds_cons st t p l st1 st' :
    known st t p = Ok (true, [], st1) → feeds known st1 l st' → feeds known st ((t, p) :: l) st'.

Lemma read_loop_fed {S} (known : known_fn S) l bss last unk st st' rest :
  mapM put_entry l = Some bss → Forall (fun e => in_u 32 e.1) l → StronglySorted tag_lt l →
  match last with Some prev => Forall (fun e => prev < e.1) l | None => True end →
  feeds known st l st' →
  read_loop known (length l) last unk st (concat bss ++ rest) = Ok (unk, st', rest).
Proof.
  intros Hm Htags Hs Hlast Hf. revert bss last Hm Htags Hs Hlast.
  induction Hf as [st|st t p l st1 st' Hk _ IH]; intros bss last Hm Htags Hs Hlast.
  { injection Hm as <-. done. }
  apply mapM_Some_1 in Hm. inversion Hm as [|? bs ? bss' He Hm']; subst.
  apply mapM_Some_2 in Hm'. apply Forall_cons in Htags as [Htag Htags].
  apply StronglySorted_inv in Hs as [Hs Hlt]. cbn [concat length]. rewrite <- app_assoc.
  rewrite (read_loop_step known _ _ _ _ (t, p) bs); [|done|done|].
  2: { destruct last; [|done]. by apply Forall_cons in Hlast as [? _]. }
  cbn [fst snd]. rewrite Hk. cbn [mbind result_bind negb].
  rewrite bool_decide_eq_true_2 by done. by apply IH.
Qed.

(** A successful read saw strictly ascending tags, so its unknown fields are sorted. *)
Lemma read_loop_ascending {S} (known : known_fn S) n last unk st buf unk' st' rest :
  read_loop known n last unk st buf = Ok (unk', st', rest) →
  StronglySorted Z.lt (map tag unk) →
  Forall (fun t => match last with Some prev => t ≤ prev | None => False end) (map tag unk) →
  StronglySorted Z.lt (map tag unk').
Proof.
  revert last unk st buf. induction n as [|n IH]; intros last unk st buf H Hs Hle.
  { injection H as <- _ _. done. }
  cbn [read_loop] in H. apply bind_Ok in H as ([t b1] & _ & H).
  destruct (match last with Some prev => t <=? prev | None => false end) eqn:Hlast; [done|].
  apply bind_Ok in H as ([size b2] & _ & H). cbv zeta in H.
  case_bool_decide; [done|]. apply bind_Ok in H as ([[rec slice] st1] & _ & H).
  assert (Forall (fun x => x < t) (map tag unk)) as Hlt.
  { eapply Forall_impl; [exact Hle|]. intros x Hx. simpl in *.
    destruct last; [|done]. apply Z.leb_gt in Hlast. lia. }
  destruct rec; cbn [negb] in H.
  - case_bool_decide; [cbn [negb] in H|done]. eapply IH; [exact H|done|].
    eapply Forall_impl; [exact Hlt|]. simpl. lia.
  - eapply IH; [exact H|..]; rewrite map_app.
    + apply StronglySorted_app_2; [|done|repeat constructor].
      intros x y Hx Hy. simpl in Hy. apply list_elem_of_singleton in Hy as ->.
      rewrite Forall_forall in Hlt. auto.
    + apply Forall_app. split; [eapply Forall_impl; [exact Hlt|simpl; lia]|].
      repeat constructor. simpl. lia.
Qed.

Lemma write_Some entries unknown bs :
  write entries unknown = Some bs →
  let l := sort_by_tag (entries ++ map (fun u => (tag u, bytes u)) unknown) in
  ∃ bss, mapM put_entry l = Some bss ∧ in_u 32 (Z.of_nat (length l)) ∧
         bs = put_uvarint (Z.of_nat (length l)) ++ concat bss.
Proof.
  unfold write. cbv zeta. intros H.
  destruct (try_u32 _) as [count|] eqn:Hc; [|done]. apply try_u32_Some in Hc as [-> Hr].
  cbn [mbind option_bind] in H. destruct (mapM _ _) as [bss|] eqn:Hm; [|done].
  injection H as <-. eauto.
Qed.

Lemma sort_by_tag_id l : StronglySorted tag_lt l → sort_by_tag l = l.
Proof.
  induction 1 as [|e l _ IH Hall]; simpl; [done|]. rewrite IH. apply insert_by_tag_head.
  eapply Forall_impl; [exact Hall|]. unfold tag_lt, tag_le. lia.
Qed.

(** A message that has all its fields in tag order reads back through a closure
    that recognises them. *)
Lemma read_write_fed {S} (known : known_fn S) l st st' bs rest :
  Forall (fun e => in_u 32 e.1) l → StronglySorted tag_lt l → feeds known st l st' → write l [] = Some bs →
  read_tagged_fields known st (bs ++ rest) = Ok ([], st', rest).
Proof.
  intros Htags Hs Hf Hw. apply write_Some in Hw as (bss & Hm & Hn & ->).
  rewrite app_nil_r, sort_by_tag_id in * by done.
  unfold read_tagged_fields. rewrite <- app_assoc, wire_roundtrip by done.
  cbn [mbind result_bind]. rewrite Nat2Z.id. by apply read_loop_fed.
Qed.

(** ** Sizes *)

Lemma field_len_put_entry e bs :
  in_u 32 e.1 → put_entry e = Some bs →
  field_len e.1 (length e.2) = Some (Z.of_nat (length bs)).
Proof.
  intros Ht He. pose proof He as He'. apply put_entry_Some in He as [-> Hl].
  unfold field_len. unfold put_entry in He'. destruct (try_u32 _) eqn:Hn; [|done].
  apply try_u32_Some in Hn as [-> _]. cbn [mbind option_bind]. f_equal.
  rewrite !length_app, !Nat2Z.inj_add, !length_put_uvarint by done. lia.
Qed.

Definition total_len (bss : list (list byte)) : Z := foldr Z.add 0 (map (Z.of_nat ∘ length) bss).

Lemma length_concat_Z bss : Z.of_nat (length (concat bss)) = total_len bss.
Proof. unfold total_len. induction bss; simpl; [done|]. rewrite length_app. lia. Qed.

#[global] Instance total_len_proper : Proper ((≡ₚ) ==> (=)) total_len.
Proof.
  intros l1 l2 H. unfold total_len. induction H; simpl; lia.
Qed.

(** Sizes of a list of entries, in any order. *)
Lemma mapM_field_len l bss :
  Forall (fun e => in_u 32 e.1) l → mapM put_entry l = Some bss →
  mapM (fun e => field_len e.1 (length e.2)) l = Some (map (Z.of_nat ∘ length) bss).
Proof.
  intros Ht Hm. apply mapM_Some_2. apply mapM_Some_1 in Hm.
  induction Hm as [|e b l bss He Hm IH]; simpl; [constructor|].
  apply Forall_cons in Ht as [He1 Ht]. constructor; [by apply field_len_put_entry|auto].
Qed.

Lemma mapM_perm {A B} (f : A → option B) l l' bs :
  l ≡ₚ l' → mapM f l = Some bs → ∃ bs', mapM f l' = Some bs' ∧ bs ≡ₚ bs'.
Proof.
  intros Hp Hm. apply mapM_Some_1 in Hm.
  destruct (Permutation_Forall2 Hp Hm) as (bs' & Hbs & HF).
  exists bs'. split; [by apply mapM_Some_2|done].
Qed.

Definition of_unknown (u : UnknownTaggedField) : Z * list byte := (tag u, bytes u).

Lemma length_write entries unknown bs :
  write entries unknown = Some bs →
  Forall (fun e => in_u 32 e.1) (entries ++ map of_unknown unknown) →
  tagged_fields_len (map (fun e => (e.1, length e.2)) entries) unknown
  = Some (Z.of_nat (length bs)).
Proof.
  intros Hw Ht. apply write_Some in Hw as (bss & Hm & Hn & ->).
  pose proof (sort_by_tag_perm (entries ++ map of_unknown unknown)) as Hp.
  unfold of_unknown in Ht, Hp. rewrite Hp in Hn.
  destruct (mapM_perm _ _ _ _ Hp Hm) as (bss' & Hm' & Hb).
  rewrite length_app, Nat2Z.inj_add, length_put_uvarint, length_concat_Z, Hb
    by (rewrite Hp; done).
  apply mapM_Some_1, Forall2_app_inv_l in Hm' as (bk & bu & Hk & Hu & ->).
  apply Forall_app in Ht as [Htk Htu].
  unfold tagged_fields_len. rewrite length_map.
  rewrite Hp, length_app, length_map in *.
  unfold try_u32 at 1. destruct (Z.ltb_spec (Z.of_nat (length entries + length unknown)) (2 ^ 32));
    [|unfold in_u in Hn; lia].
  cbn [mbind option_bind].
  assert (mapM (fun '(t, len) => field_len t len) (map (fun e => (e.1, length e.2)) entries)
          = Some (map (Z.of_nat ∘ length) bk)) as ->.
  { apply mapM_Some_2. apply mapM_Some_2, mapM_field_len, mapM_Some_1 in Hk; [|done].
    clear -Hk. induction Hk; simpl; constructor; auto. }
  cbn [mbind option_bind].
  assert (mapM (fun u => field_len (tag u) (length (bytes u))) unknown
          = Some (map (Z.of_nat ∘ length) bu)) as ->.
  { apply mapM_Some_2. apply mapM_Some_2, mapM_field_len, mapM_Some_1 in Hu; [|done].
    clear -Hu. remember (map _ unknown) as l eqn:Hl. revert unknown Hl.
    induction Hu; intros [|u unknown] [= -> ->] || intros [|u unknown] [=];
      simplify_eq/=; constructor; auto. }
  cbn [mbind option_bind]. f_equal. unfold total_len.
  rewrite map_app, foldr_app. clear.
  assert (∀ a l, foldr Z.add a l = foldr Z.add 0 l + a) as Hf.
  { intros a l. induction l; simpl; lia. }
  rewrite (Hf (foldr _ _ _)). lia.
Qed.

(** ** Properties *)

Lemma filter_app_split ks (entries unknown : list (Z * list byte)) :
  Forall (declared ks) entries → Forall (fun e => ¬ declared ks e) unknown →
  filter (declared ks) (entries ++ unknown) = entries ∧
  filter (fun e => ¬ declared ks e) (entries ++ unknown) = unknown.
Proof.
  intros Hk Hu. rewrite !filter_app. split.
  - by rewrite filter_all, filter_none, app_nil_r.
  - rewrite filter_none, filter_all; [done|done|].
    eapply Forall_impl; [exact Hk|]. auto.
Qed.

(** A tagged-field trailer survives the wire: reading what [write] wrote
    gives the known fields to the message, keeps the unknown ones, both in tag
    order, stops at the end of the trailer, and [tagged_fields_len] predicted
    its length. *)
Theorem tagged_fields_roundtrip ks entries unknown bs rest :
  NoDup (entries ++ map of_unknown unknown).*1 →
  Forall (fun e => in_u 32 e.1) (entries ++ map of_unknown unknown) →
  Forall (declared ks) entries →
  Forall (fun e => ¬ declared ks e) (map of_unknown unknown) →
  write entries unknown = Some bs →
  read_tagged_fields (collect ks) [] (bs ++ rest) =
    Ok (map to_unknown (sort_by_tag (map of_unknown unknown)), sort_by_tag entries, rest) ∧
  tagged_fields_len (map (fun e => (e.1, length e.2)) entries) unknown
    = Some (Z.of_nat (length bs)).
Proof.
  intros Hnd Ht Hk Hu Hw. split; [|by apply length_write].
  apply write_Some in Hw as (bss & Hm & Hn & ->).
  set (l := entries ++ map of_unknown unknown) in *.
  change (entries ++ map (fun u => (tag u, bytes u)) unknown) with l in *.
  unfold read_tagged_fields. rewrite <- app_assoc, wire_roundtrip by done.
  cbn [mbind result_bind]. rewrite Nat2Z.id.
  rewrite (read_loop_collect ks _ bss); [|done|by rewrite sort_by_tag_perm|by apply sort_by_tag_strict|done].
  rewrite !filter_sort_by_tag. unfold l.
  destruct (filter_app_split ks entries (map of_unknown unknown) Hk Hu) as [-> ->]. done.
Qed.

Lemma tagged_fields_roundtrip_witness :
  read_tagged_fields (collect [10]) [] ([x02; x05; x01; xbb; x0a; x01; xaa] ++ [x77]) =
    Ok ([{| tag := 5; bytes := [xbb] |}], [(10, [xaa])], [x77]).
Proof.
  apply (tagged_fields_roundtrip [10] [(10, [xaa])] [{| tag := 5; bytes := [xbb] |}]
    [x02; x05; x01; xbb; x0a; x01; xaa] [x77]).
  - apply (bool_decide_unpack _). vm_compute. exact I.
  - repeat constructor; simpl; lia.
  - repeat constructor.
  - constructor; [|constructor]. intros H. by apply (bool_decide_pack _) in H.
  - vm_compute. reflexivity.
Defined.

(** Whatever bytes arrive and whatever the message does with its fields, a
    trailer that is accepted had strictly ascending tags, so the unknown fields
    it keeps are sorted and free of duplicates. *)
Theorem read_tagged_fields_ascending {S} (known : known_fn S) st buf unknown st' rest :
  read_tagged_fields known st buf = Ok (unknown, st', rest) →
  StronglySorted Z.lt (map tag unknown).
Proof.
  unfold read_tagged_fields. intros H. apply bind_Ok in H as ([count b] & _ & H).
  eapply read_loop_ascending; [exact H|constructor|constructor].
Qed.

Lemma read_tagged_fields_ascending_witness : StronglySorted Z.lt [5; 10].
Proof.
  apply (read_tagged_fields_ascending (fun st _ p => Ok (false, p, st)) tt
    [x02; x05; x01; xbb; x0a; x01; xaa]
    [{| tag := 5; bytes := [xbb] |}; {| tag := 10; bytes := [xaa] |}] tt []).
  vm_compute. reflexivity.
Defined.

End TaggedFields.
