(* ===== verification/Compression.v ===== *)
(** * Record compression

    Models [crates/compression/src]: the codec ids ([codec_type.rs]), the
    dispatch of [lib.rs], the capped readers of [gzip.rs], [lz4.rs] and
    [zstd.rs], and the xerial framing of [snappy.rs].  The codec crates
    themselves ([flate2], [lz4_flex], [zstd], [snap]) are the record [Backends];
    what is assumed of them, where anything is, is the class [BackendLaws]. *)

From S2P Require Import Prelude Wire.

(** ** codec_type.rs *)
Inductive CompressionType : Type := NoCompression | Gzip | Snappy | Lz4 | Zstd.
#[global] Instance compression_eq_dec : EqDecision CompressionType.
Proof. solve_decision. Defined.

Definition from_attribute_bits (b : Z) : option CompressionType :=
  match Z.land b 7 with
  | 0 => Some NoCompression
  | 1 => Some Gzip
  | 2 => Some Snappy
  | 3 => Some Lz4
  | 4 => Some Zstd
  | _ => None
  end.
Definition as_attribute_bits (c : CompressionType) : Z :=
  match c with NoCompression => 0 | Gzip => 1 | Snappy => 2 | Lz4 => 3 | Zstd => 4 end.

(** ** error.rs

    Texts that come from a codec crate are cut to the literal prefix the source
    puts before them.  [Panic] is not a value of the Rust enum: it is an
    [expect] or a slice bound that fails. *)
Inductive CompressionError : Type :=
| FeatureDisabled (codec : string)
| InvalidData (msg : string)
| TooLarge (limit : Z)
| Io
| Panic.

(** ** The codec crates

    A decoder is a [std::io::Read]: the bytes it yields, and whether it then
    fails instead of reaching the end.  [snap] works on whole blocks. *)
Inductive EncodeFailure : Type := WriteFailed | FinishFailed.
Record Backends : Type := {
  gz_encode : list byte → option (list byte);
  gz_read : list byte → list byte * bool;
  lz4_encode : list byte → result EncodeFailure (list byte);
  lz4_read : list byte → list byte * bool;
  zstd_encode : list byte → option (list byte);
  zstd_open : list byte → option (list byte * bool);
  snap_max_compress_len : nat → nat;
  snap_encode : list byte → option (list byte);
  snap_decompress_len : list byte → option nat;
  snap_decode : list byte → option (list byte);
}.

Section Codecs.
Context (B : Backends).
Abbreviation outcome := (result CompressionError (list byte)).

Definition io_error (m : option (list byte)) : outcome :=
  match m with Some out => Ok out | None => Err Io end.

(** [Read::take(max_output.saturating_add(1))], then [read_to_end], then the
    cap: what the three streaming decoders share. *)
Definition read_capped (stream : list byte * bool) (label : string) (max_output : Z) : outcome :=
  let '(bytes, fails) := stream in
  let lim := sat_u 64 (max_output + 1) in
  out ← (if lim <=? Z.of_nat (length bytes) then Ok (take (Z.to_nat lim) bytes)
         else if fails then Err (InvalidData label) else Ok bytes);
  if max_output <? Z.of_nat (length out) then Err (TooLarge max_output) else Ok out.

(** ** gzip.rs, lz4.rs, zstd.rs *)
Definition gzip_compress (data : list byte) : outcome := io_error (gz_encode B data).
Definition gzip_decompress (data : list byte) (max_output : Z) : outcome :=
  if bool_decide (data = []) then Err (InvalidData "empty gzip payload") else
  read_capped (gz_read B data) "gzip decode: " max_output.

Definition lz4_compress (data : list byte) : outcome :=
  map_err (fun e => match e with
                    | WriteFailed => Io
                    | FinishFailed => InvalidData "lz4 finish: "
                    end) (lz4_encode B data).
Definition lz4_decompress (data : list byte) (max_output : Z) : outcome :=
  if bool_decide (data = []) then Err (InvalidData "empty lz4 payload") else
  read_capped (lz4_read B data) "lz4 decode: " max_output.

Definition zstd_compress (data : list byte) : outcome := io_error (zstd_encode B data).
Definition zstd_decompress (data : list byte) (max_output : Z) : outcome :=
  if bool_decide (data = []) then Err (InvalidData "empty zstd payload") else
  match zstd_open B data with
  | None => Err (InvalidData "zstd open: ")
  | Some stream => read_capped stream "zstd decode: " max_output
  end.

(** ** snappy.rs *)
Definition XERIAL_HEADER : list byte :=
  [x82; x53; x4e; x41; x50; x50; x59; x00; x00; x00; x00; x01; x00; x00; x00; x01].
Definition XERIAL_CHUNK : nat := Z.to_nat (32 * 1024).

(** [slice::chunks]; the fuel is the length, which bounds the number of chunks. *)
Fixpoint chunks_loop (fuel n : nat) (l : list byte) : list (list byte) :=
  match fuel, l with
  | O, _ | _, [] => []
  | S fuel, _ => take n l :: chunks_loop fuel n (drop n l)
  end.
Definition chunks (n : nat) (l : list byte) : list (list byte) := chunks_loop (length l) n l.

Definition compress_chunk (chunk : list byte) : outcome :=
  let max := snap_max_compress_len B (length chunk) in
  match snap_encode B chunk with
  | None => Err (InvalidData "snappy encode: ")
  | Some z =>
      if (2 ^ 32 <=? Z.of_nat (length z)) || bool_decide (max < length z)%nat
      then Err Panic
      else Ok (Fixed.put_u32 (Z.of_nat (length z)) ++ z)
  end.
Fixpoint compress_chunks (out : list byte) (cs : list (list byte)) : outcome :=
  match cs with
  | [] => Ok out
  | c :: cs => z ← compress_chunk c; compress_chunks (out ++ z) cs
  end.
Definition snappy_compress (data : list byte) : outcome :=
  compress_chunks XERIAL_HEADER (chunks XERIAL_CHUNK data).

(** One turn of [while !rest.is_empty()]: the bytes to append and the new [rest]. *)
Definition decompress_chunk (max_output : Z) (out rest : list byte) :
    result CompressionError (list byte * list byte) :=
  if bool_decide (length rest < 4)%nat
  then Err (InvalidData "snappy chunk header truncated") else
  let len := Z.to_nat (be_value (take 4 rest)) in
  let rest := drop 4 rest in
  if bool_decide (length rest < len)%nat
  then Err (InvalidData "snappy chunk body truncated") else
  let block := take len rest in
  let rest := drop len rest in
  match snap_decompress_len B block with
  | None => Err (InvalidData "snappy decode_len: ")
  | Some max_out =>
      if max_output <? sat_u 64 (Z.of_nat (length out) + Z.of_nat max_out)
      then Err (TooLarge max_output) else
      match snap_decode B block with
      | None => Err (InvalidData "snappy decode: ")
      | Some v =>
          if bool_decide (max_out < length v)%nat then Err Panic
          else Ok (out ++ v, rest)
      end
  end.
(** Every turn drops at least four bytes, so the length of [rest] is enough fuel. *)
Fixpoint decompress_loop (fuel : nat) (max_output : Z) (out rest : list byte) : outcome :=
  match fuel, rest with
  | _, [] => Ok out
  | O, _ => Err Panic
  | S fuel, _ =>
      '(out, rest) ← decompress_chunk max_output out rest;
      decompress_loop fuel max_output out rest
  end.
Definition snappy_decompress (data : list byte) (max_output : Z) : outcome :=
  if bool_decide (length data < length XERIAL_HEADER)%nat
  then Err (InvalidData "snappy payload too short for xerial header") else
  if bool_decide (take 8 data ≠ take 8 XERIAL_HEADER)
  then Err (InvalidData "snappy missing xerial magic") else
  let rest := drop (length XERIAL_HEADER) data in
  decompress_loop (length rest) max_output [] rest.

(** ** lib.rs (all four Cargo features on, which is the default) *)
Definition compress (ct : CompressionType) (data : list byte) : outcome :=
  match ct with
  | NoCompression => Ok data
  | Gzip => gzip_compress data
  | Snappy => snappy_compress data
  | Lz4 => lz4_compress data
  | Zstd => zstd_compress data
  end.
Definition decompress (ct : CompressionType) (data : list byte) (max_output : Z) : outcome :=
  match ct with
  | NoCompression =>
      if max_output <? Z.of_nat (length data) then Err (TooLarge max_output) else Ok data
  | Gzip => gzip_decompress data max_output
  | Snappy => snappy_decompress data max_output
  | Lz4 => lz4_decompress data max_output
  | Zstd => zstd_decompress data max_output
  end.

End Codecs.

(** ** What the codec crates document

    Decoding an encoder's output yields the input; an encoded stream is never
    empty (each format starts with a magic number); [snap] stores the plain
    length in the block and never writes more than [max_compress_len]. *)
Class BackendLaws (B : Backends) : Prop := {
  gz_law d z : gz_encode B d = Some z → z ≠ [] ∧ gz_read B z = (d, false);
  lz4_law d z : lz4_encode B d = Ok z → z ≠ [] ∧ lz4_read B z = (d, false);
  zstd_law d z : zstd_encode B d = Some z → z ≠ [] ∧ zstd_open B z = Some (d, false);
  snap_law c z : snap_encode B c = Some z →
    snap_decompress_len B z = Some (length c) ∧ snap_decode B z = Some c ∧
    (length z ≤ snap_max_compress_len B (length c))%nat;
  snap_max_law n : (n ≤ XERIAL_CHUNK)%nat → Z.of_nat (snap_max_compress_len B n) < 2 ^ 32;
}.

(** [chunks] splits its input, into pieces of at most the chunk size. *)
Lemma chunks_loop_concat fuel n l :
  (0 < n)%nat → (length l ≤ fuel)%nat → concat (chunks_loop fuel n l) = l.
Proof.
  intros Hn. revert l. induction fuel as [|fuel IH]; intros [|b l] Hl; simpl in *; try done; [lia|].
  rewrite IH; [apply take_drop|]. rewrite length_drop. simpl. lia.
Qed.

Lemma chunks_concat n l : (0 < n)%nat → concat (chunks n l) = l.
Proof. intros. by apply chunks_loop_concat. Qed.

Lemma chunks_length n l : Forall (fun c => (length c ≤ n)%nat) (chunks n l).
Proof.
  unfold chunks. generalize (length l) at 1. intros fuel. revert l.
  induction fuel as [|fuel IH]; intros [|b l]; constructor; [|apply IH].
  rewrite length_take. lia.
Qed.

Section Facts.
Context (B : Backends).

Lemma read_capped_bounded stream label m out :
  read_capped stream label m = Ok out → Z.of_nat (length out) ≤ m.
Proof.
  unfold read_capped. destruct stream as [bytes fails]. intros H. inv_ok.
  destruct (Z.ltb_spec m (Z.of_nat (length x))); inv_ok. done.
Qed.

Lemma read_capped_whole d label m :
  in_u 64 m → Z.of_nat (length d) ≤ m → read_capped (d, false) label m = Ok d.
Proof.
  unfold read_capped, in_u, sat_u. intros Hm Hd.
  destruct (Z.leb_spec (Z.max 0 (Z.min (2 ^ 64 - 1) (m + 1))) (Z.of_nat (length d))).
  - rewrite take_ge by lia. simpl. by destruct (Z.ltb_spec m (Z.of_nat (length d))); [lia|].
  - simpl. by destruct (Z.ltb_spec m (Z.of_nat (length d))); [lia|].
Qed.

(** Every turn of the decompression loop consumes input ... *)
Lemma decompress_chunk_shrinks m out rest out' rest' :
  decompress_chunk B m out rest = Ok (out', rest') → (length rest' < length rest)%nat.
Proof.
  unfold decompress_chunk. intros H. repeat case_bool_decide; try done.
  repeat case_match; inv_ok; try done. rewrite length_drop, length_drop. lia.
Qed.

(** ... so the fuel [snappy_decompress] starts it with is enough. *)
Lemma decompress_loop_fuel fuel fuel' m out rest :
  (length rest ≤ fuel)%nat → (length rest ≤ fuel')%nat →
  decompress_loop B fuel m out rest = decompress_loop B fuel' m out rest.
Proof.
  revert fuel' out rest. induction fuel as [|fuel IH]; intros fuel' out rest Hf Hf'.
  - destruct rest; [by destruct fuel'|simpl in *; lia].
  - destruct rest as [|b rest]; [by destruct fuel'|].
    destruct fuel' as [|fuel']; [simpl in *; lia|]. cbn [decompress_loop].
    destruct (decompress_chunk B m out (b :: rest)) as [[out' rest']|e] eqn:Hc; [|done].
    apply decompress_chunk_shrinks in Hc. simpl in *. apply IH; lia.
Qed.

Lemma decompress_chunk_bounded m out rest out' rest' :
  m < 2 ^ 64 - 1 → decompress_chunk B m out rest = Ok (out', rest') →
  Z.of_nat (length out') ≤ m.
Proof.
  unfold decompress_chunk, sat_u. intros Hm H. repeat case_bool_decide; try done.
  repeat case_match; inv_ok; try done. zify_bools. rewrite length_app. lia.
Qed.

Lemma decompress_loop_bounded fuel m out rest res :
  m < 2 ^ 64 - 1 → Z.of_nat (length out) ≤ m →
  decompress_loop B fuel m out rest = Ok res → Z.of_nat (length res) ≤ m.
Proof.
  intros Hm. revert out rest. induction fuel as [|fuel IH]; intros out [|b rest] Hout H;
    simpl in H; inv_ok; try done.
  eapply IH; [|done]. by eapply decompress_chunk_bounded.
Qed.

(** A chunk as [compress_chunk] frames it is read back whole. *)
Lemma decompress_chunk_compress `{!BackendLaws B} m out c z rest :
  in_u 64 m → Z.of_nat (length out + length c) ≤ m →
  compress_chunk B c = Ok z →
  decompress_chunk B m out (z ++ rest) = Ok (out ++ c, rest).
Proof.
  intros Hm Hlen Hz. unfold compress_chunk in Hz.
  destruct (snap_encode B c) as [b|] eqn:Hb; [|done].
  destruct (_ || _) eqn:Hg; [done|]. inv_ok. zify_bools.
  destruct (snap_law c b Hb) as (Hdl & Hdec & _).
  set (h := Fixed.put_u32 (Z.of_nat (length b))).
  assert (length h = 4%nat) as Hh by apply length_be_bytes.
  assert (be_value h = Z.of_nat (length b)) as Hv.
  { subst h. unfold Fixed.put_u32. rewrite be_value_bytes. apply wrap_u_id.
    unfold in_u. change (8 * Z.of_nat 4) with 32. lia. }
  clearbody h. rewrite <- app_assoc. unfold decompress_chunk.
  rewrite bool_decide_eq_false_2 by (rewrite length_app; lia).
  rewrite take_app_length', drop_app_length', Hv by done.
  rewrite Nat2Z.id, bool_decide_eq_false_2 by (rewrite length_app; lia).
  rewrite take_app_length, drop_app_length, Hdl, Hdec.
  unfold in_u, sat_u in *.
  destruct (Z.ltb_spec m (Z.max 0 (Z.min (2 ^ 64 - 1) (Z.of_nat (length out) + Z.of_nat (length c)))));
    [lia|]. by rewrite bool_decide_eq_false_2 by lia.
Qed.

(** What [compress_chunks] appends, the decompression loop turns back into the chunks. *)
Lemma decompress_loop_compress `{!BackendLaws B} cs pre z :
  compress_chunks B pre cs = Ok z →
  ∃ t, z = pre ++ t ∧
    ∀ fuel m out, in_u 64 m → Z.of_nat (length out + length (concat cs)) ≤ m →
      (length t ≤ fuel)%nat → decompress_loop B fuel m out t = Ok (out ++ concat cs).
Proof.
  revert pre z. induction cs as [|c cs IH]; intros pre z H; simpl in H; inv_ok.
  - exists []. split; [by rewrite app_nil_r|].
    intros [|fuel] m out _ _ _; by rewrite app_nil_r.
  - apply IH in H0 as (t & -> & Ht). exists (x ++ t).
    split; [by rewrite app_assoc|]. intros fuel m out Hm Hlen Hfuel. simpl in Hlen.
    rewrite length_app in Hlen.
    assert (decompress_chunk B m out (x ++ t) = Ok (out ++ c, t)) as Hstep
      by (apply decompress_chunk_compress; [done|lia|done]).
    pose proof (decompress_chunk_shrinks _ _ _ _ _ Hstep) as Hs.
    destruct (x ++ t) as [|b l] eqn:Hxt; [simpl in Hs; lia|].
    destruct fuel as [|fuel]; [simpl in *; lia|]. cbn [decompress_loop].
    rewrite Hstep. simpl. rewrite Ht; simpl in *.
    + by rewrite app_assoc.
    + done.
    + rewrite length_app. lia.
    + lia.
Qed.

Lemma snappy_roundtrip `{!BackendLaws B} d z m :
  in_u 64 m → Z.of_nat (length d) ≤ m →
  snappy_compress B d = Ok z → snappy_decompress B z m = Ok d.
Proof.
  intros Hm Hd H. apply decompress_loop_compress in H as (t & -> & Ht).
  rewrite chunks_concat in Ht by (unfold XERIAL_CHUNK; lia).
  unfold snappy_decompress.
  rewrite bool_decide_eq_false_2 by (rewrite length_app; lia).
  rewrite bool_decide_eq_false_2 by (intros Hne; by apply Hne).
  rewrite drop_app_length. by apply Ht.
Qed.

Lemma compress_chunk_no_panic `{!BackendLaws B} c :
  (length c ≤ XERIAL_CHUNK)%nat → compress_chunk B c ≠ Err Panic.
Proof.
  intros Hc. unfold compress_chunk. destruct (snap_encode B c) as [z|] eqn:Hz; [|done].
  apply snap_law in Hz as (_ & _ & Hz). pose proof (snap_max_law _ Hc).
  destruct (Z.leb_spec (2 ^ 32) (Z.of_nat (length z))); [lia|].
  by rewrite bool_decide_eq_false_2 by lia.
Qed.

Lemma compress_chunks_no_panic `{!BackendLaws B} cs out :
  Forall (fun c => (length c ≤ XERIAL_CHUNK)%nat) cs → compress_chunks B out cs ≠ Err Panic.
Proof.
  intros Hcs. revert out. induction Hcs as [|c cs Hc _ IH]; intros out; simpl; [done|].
  pose proof (compress_chunk_no_panic c Hc). destruct (compress_chunk B c) as [z|e]; [apply IH|done].
Qed.

Lemma decompress_compressed `{!BackendLaws B} ct data z max_output :
  compress B ct data = Ok z →
  Z.of_nat (length data) ≤ max_output < 2 ^ 64 →
  decompress B ct z max_output = Ok data.
Proof.
  intros Hz Hm. assert (in_u 64 max_output) as Hu by (unfold in_u; lia).
  destruct ct; simpl in *; unfold gzip_compress, gzip_decompress, lz4_compress, lz4_decompress,
    zstd_compress, zstd_decompress, io_error in *.
  - inv_ok. case_match; [zify_bools; lia|done].
  - destruct (gz_encode B data) eqn:Hg; inv_ok. apply gz_law in Hg as [Hne ->].
    rewrite bool_decide_eq_false_2 by done. apply read_capped_whole; [done|lia].
  - apply snappy_roundtrip; (done || lia).
  - destruct (lz4_encode B data) eqn:Hg; simpl in Hz; inv_ok. apply lz4_law in Hg as [Hne ->].
    rewrite bool_decide_eq_false_2 by done. apply read_capped_whole; [done|lia].
  - destruct (zstd_encode B data) eqn:Hg; inv_ok. apply zstd_law in Hg as [Hne ->].
    rewrite bool_decide_eq_false_2 by done. apply read_capped_whole; [done|lia].
Qed.

End Facts.

(** ** Properties *)

(** Decompressing what [compress] produced gives back the data, for every
    codec and for every cap that is large enough, given only that each codec
    crate inverts itself on one stream or block. *)
Theorem decompress_compress (B : Backends) (L : BackendLaws B) ct data z max_output :
  compress B ct data = Ok z →
  Z.of_nat (length data) ≤ max_output < 2 ^ 64 →
  decompress B ct z max_output = Ok data.
Proof. by apply decompress_compressed. Qed.

(** Decompression bombs are cut off: whatever the codec crates return,
    a successful [decompress] yields at most [max_output] bytes. *)
Theorem decompress_bounded (B : Backends) ct data max_output out :
  0 ≤ max_output < 2 ^ 64 - 1 →
  decompress B ct data max_output = Ok out →
  Z.of_nat (length out) ≤ max_output.
Proof.
  intros Hm H. destruct ct; simpl in H; unfold gzip_decompress, lz4_decompress,
    zstd_decompress, snappy_decompress in H.
  - destruct (Z.ltb_spec max_output (Z.of_nat (length data))); inv_ok; done.
  - case_bool_decide; [done|]. by eapply read_capped_bounded.
  - repeat case_bool_decide; try done.
    eapply decompress_loop_bounded; [| |exact H]; simpl; lia.
  - case_bool_decide; [done|]. by eapply read_capped_bounded.
  - case_bool_decide; [done|]. case_match; [|done]. by eapply read_capped_bounded.
Qed.

(** No [expect] or slice bound of the compressors can fail: the only
    errors of [compress] are the ones its signature declares. *)
Theorem compress_no_panic (B : Backends) (L : BackendLaws B) ct data :
  compress B ct data ≠ Err Panic.
Proof.
  destruct ct; simpl; unfold gzip_compress, lz4_compress, zstd_compress, io_error.
  - done.
  - by destruct (gz_encode B data).
  - by apply compress_chunks_no_panic, chunks_length.
  - by destruct (lz4_encode B data) as [|[]].
  - by destruct (zstd_encode B data).
Qed.

(** ** A concrete instance of the codec crates: stored (uncompressed) formats *)
Definition stored (tag : byte) (d : list byte) : list byte := tag :: d.
Definition stored_backends : Backends := {|
  gz_encode d := Some (stored x1f d);
  gz_read z := (tail z, false);
  lz4_encode d := Ok (stored x04 d);
  lz4_read z := (tail z, false);
  zstd_encode d := Some (stored x28 d);
  zstd_open z := Some (tail z, false);
  snap_max_compress_len n := (32 + n + n / 6)%nat;
  snap_encode d := Some (stored x00 d);
  snap_decompress_len z := Some (pred (length z));
  snap_decode z := Some (tail z);
|}.

#[global] Instance stored_laws : BackendLaws stored_backends.
Proof.
  split; [intros d z [= <-]; done..|intros c z [= <-]|intros n Hn].
  - cbn -[Nat.div]. split_and!; [done..|lia].
  - cbn -[Nat.div]. unfold XERIAL_CHUNK in *.
    pose proof (Nat.Div0.div_le_upper_bound n 6 n ltac:(lia)). lia.
Qed.

Lemma decompress_compress_witness :
  decompress stored_backends Snappy (XERIAL_HEADER ++ [x00; x00; x00; x03; x00; x61; x62]) 2
  = Ok [x61; x62].
Proof.
  apply (decompress_compress stored_backends stored_laws Snappy [x61; x62]);
    [vm_compute; reflexivity|simpl; lia].
Defined.

Lemma decompress_bounded_witness : Z.of_nat (length [x61; x62]) ≤ 2.
Proof.
  apply (decompress_bounded stored_backends Gzip [x1f; x61; x62] 2); [lia|vm_compute; reflexivity].
Defined.

Lemma compress_no_panic_witness : compress stored_backends Snappy [x61] ≠ Err Panic.
Proof. apply (compress_no_panic stored_backends stored_laws). Defined.
