(* ===== verification/Records.v ===== *)
(** * Record batches (magic v2)

    Models [crates/protocol/src/records/header.rs] (attributes, header layout),
    [records/owned.rs] (record and batch codec) and [records/borrowed.rs] (the
    zero-copy parser, batch validation and record counting), with
    [crates/compression/src/codec_type.rs].  CRC-32C and the compression codecs
    are third-party code and stay parameters. *)

From S2P Require Import Prelude Wire Varint StringBytes Compression.
Import Fixed Varint Utf8.

(** ** header.rs: [Attributes(i16)] *)
Module Attributes.

Inductive TimestampType : Type := CreateTime | LogAppendTime.

Definition TIMESTAMP_TYPE_BIT : Z := Z.shiftl 1 3.
Definition TRANSACTIONAL_BIT : Z := Z.shiftl 1 4.
Definition CONTROL_BIT : Z := Z.shiftl 1 5.
Definition DELETE_HORIZON_BIT : Z := Z.shiftl 1 6.

Definition has_bit (a bit : Z) : bool := negb (Z.land a bit =? 0).
Definition set_bit (a bit : Z) (b : bool) : Z :=
  if b then Z.lor a bit else Z.land a (Z.lnot bit).

Definition compression (a : Z) : CompressionType :=
  default NoCompression (from_attribute_bits (Z.land a 7)).
Definition timestamp_type (a : Z) : TimestampType :=
  if has_bit a TIMESTAMP_TYPE_BIT then LogAppendTime else CreateTime.
Definition is_transactional (a : Z) : bool := has_bit a TRANSACTIONAL_BIT.
Definition is_control_batch (a : Z) : bool := has_bit a CONTROL_BIT.
Definition has_delete_horizon (a : Z) : bool := has_bit a DELETE_HORIZON_BIT.
Definition with_compression (a : Z) (c : CompressionType) : Z :=
  Z.lor (Z.land a (Z.lnot 7)) (as_attribute_bits c).
Definition with_timestamp_type (a : Z) (t : TimestampType) : Z :=
  match t with
  | CreateTime => Z.land a (Z.lnot TIMESTAMP_TYPE_BIT)
  | LogAppendTime => Z.lor a TIMESTAMP_TYPE_BIT
  end.
Definition with_transactional (a : Z) (b : bool) : Z := set_bit a TRANSACTIONAL_BIT b.
Definition with_control (a : Z) (b : bool) : Z := set_bit a CONTROL_BIT b.
Definition with_delete_horizon (a : Z) (b : bool) : Z := set_bit a DELETE_HORIZON_BIT b.

(** Flags and codec live in disjoint bits: what a setter does to one bit is
    read back, and every other bit is kept. *)
Lemma has_bit_testbit a i : 0 ≤ i → has_bit a (Z.shiftl 1 i) = Z.testbit a i.
Proof.
  intros Hi. unfold has_bit. rewrite Z.shiftl_1_l.
  destruct (Z.testbit a i) eqn:Ht.
  - apply negb_true_iff, Z.eqb_neq. intros H. apply (f_equal (fun z => Z.testbit z i)) in H.
    rewrite Z.land_spec, Z.pow2_bits_true, Ht, Z.bits_0 in H by done. done.
  - apply negb_false_iff, Z.eqb_eq. apply Z.bits_inj'. intros j Hj.
    rewrite Z.land_spec, Z.bits_0, Z.pow2_bits_eqb by done.
    destruct (Z.eqb_spec i j) as [<-|]; [by rewrite Ht|apply andb_false_r].
Qed.

Lemma set_bit_testbit a i b j :
  0 ≤ i → 0 ≤ j →
  Z.testbit (set_bit a (Z.shiftl 1 i) b) j = if j =? i then b else Z.testbit a j.
Proof.
  intros Hi Hj. unfold set_bit. rewrite Z.shiftl_1_l. destruct b.
  - rewrite Z.lor_spec, Z.pow2_bits_eqb by done. rewrite (Z.eqb_sym i j).
    destruct (j =? i); [apply orb_true_r|apply orb_false_r].
  - rewrite Z.land_spec, Z.lnot_spec, Z.pow2_bits_eqb by done. rewrite (Z.eqb_sym i j).
    destruct (j =? i); [apply andb_false_r|apply andb_true_r].
Qed.

(** [i16] is closed under the setters: the sign bit is never touched. *)
Lemma in_s_shiftr w a : 0 < w → in_s w a ↔ Z.shiftr a (w - 1) = 0 ∨ Z.shiftr a (w - 1) = -1.
Proof.
  intros Hw. unfold in_s. rewrite Z.shiftr_div_pow2 by lia.
  assert (0 < 2 ^ (w - 1)) by (apply Z.pow_pos_nonneg; lia).
  set (p := 2 ^ (w - 1)) in *. pose proof (Z.div_mod a p). pose proof (Z.mod_pos_bound a p). nia.
Qed.

Lemma set_bit_range a i b :
  0 ≤ i < 15 → in_s 16 a → in_s 16 (set_bit a (Z.shiftl 1 i) b).
Proof.
  intros Hi. rewrite !in_s_shiftr by lia. unfold set_bit. rewrite Z.shiftl_1_l.
  assert (Z.shiftr (2 ^ i) (16 - 1) = 0) as Hz.
  { apply Z.shiftr_eq_0; [lia|]. rewrite Z.log2_pow2; lia. }
  destruct b.
  - by rewrite Z.shiftr_lor, Hz, Z.lor_0_r.
  - rewrite Z.shiftr_land, <- (Z.lnot_shiftr (2 ^ i)) by lia. rewrite Hz.
    by rewrite Z.land_m1_r.
Qed.

End Attributes.

(** ** error.rs

    The text of [RecordParse] is cut to the literal that precedes the first
    interpolated value. *)
Inductive RecordsError : Type :=
| HeaderTooShort (needed : nat)
| UnsupportedMagic (found : Z)
| CrcMismatch (expected computed : Z)
| BodyTooShort (needed : nat)
| RecordParse (msg : string)
| CompressionFailed (e : CompressionError).

Definition parse_error {E A} (label : string) (m : result E A) : result RecordsError A :=
  map_err (fun _ => RecordParse label) m.

(** ** owned.rs: records *)
Record RecordHeader : Type := mkRecordHeader {
  hkey : list byte;
  hvalue : option (list byte);
}.
Record Record : Type := mkRecord {
  attributes : Z;
  timestamp_delta : Z;
  offset_delta : Z;
  key : option (list byte);
  value : option (list byte);
  headers : list RecordHeader;
}.

Module OwnedRecord.

(** [iN::try_from(len).map_err(...)?] and [.unwrap_or(i32::MAX)]. *)
Definition try_len (w : Z) (n : nat) (msg : string) : result RecordsError Z :=
  if Z.of_nat n <? 2 ^ (w - 1) then Ok (Z.of_nat n) else Err (RecordParse msg).
Definition len_or_max (n : nat) : Z :=
  if Z.of_nat n <? 2 ^ 31 then Z.of_nat n else 2 ^ 31 - 1.

Definition field_len (v : option (list byte)) : Z :=
  match v with
  | None => varint_len (-1)
  | Some v => varint_len (len_or_max (length v)) + Z.of_nat (length v)
  end.
Definition header_len (h : RecordHeader) : Z :=
  varint_len (len_or_max (length (hkey h))) + Z.of_nat (length (hkey h)) + field_len (hvalue h).
Definition body_len (r : Record) : Z :=
  1 + varlong_len (timestamp_delta r) + varint_len (offset_delta r)
  + field_len (key r) + field_len (value r)
  + varint_len (len_or_max (length (headers r)))
  + foldr (fun h n => header_len h + n) 0 (headers r).
Definition encoded_len (r : Record) : Z := varlong_len (body_len r) + body_len r.

Definition put_field (msg : string) (v : option (list byte)) : result RecordsError (list byte) :=
  match v with
  | None => Ok (put_varint (-1))
  | Some v => n ← try_len 32 (length v) msg; Ok (put_varint n ++ v)
  end.
Definition put_header (h : RecordHeader) : result RecordsError (list byte) :=
  n ← try_len 32 (length (hkey h)) "header key length overflow";
  v ← put_field "header value length overflow" (hvalue h);
  Ok (put_varint n ++ hkey h ++ v).
Fixpoint put_headers (hs : list RecordHeader) : result RecordsError (list byte) :=
  match hs with
  | [] => Ok []
  | h :: hs => b ← put_header h; bs ← put_headers hs; Ok (b ++ bs)
  end.
Definition encode_body (r : Record) : result RecordsError (list byte) :=
  k ← put_field "record key length overflow" (key r);
  v ← put_field "record value length overflow" (value r);
  n ← try_len 32 (length (headers r)) "record header count overflow";
  hs ← put_headers (headers r);
  Ok (put_i8 (attributes r) ++ put_varlong (timestamp_delta r) ++ put_varint (offset_delta r)
      ++ k ++ v ++ put_varint n ++ hs).
Definition encode (r : Record) : result RecordsError (list byte) :=
  let body := body_len r in
  if body <? 2 ^ 63 then
    b ← encode_body r; Ok (put_varlong body ++ b)
  else Err (RecordParse "record body length overflow").

Definition decode_nullable_bytes (label : string) : decoder_of RecordsError (option (list byte)) :=
  fun buf =>
  '(len, buf) ← parse_error (label +:+ " length: ") (get_varint buf);
  if len <? 0 then Ok (None, buf) else
  let n := Z.to_nat len in
  if bool_decide (length buf < n)%nat then Err (BodyTooShort (n - length buf)) else
  Ok (Some (take n buf), drop n buf).

(** Its error is the Rust [String], again cut at the first interpolation. *)
Definition decode_record_header : decoder_of string RecordHeader := fun buf =>
  '(key_len, buf) ← map_err (fun _ => "key length: "%string) (get_varint buf);
  if key_len <? 0 then Err "non-nullable key has negative length "%string else
  let n := Z.to_nat key_len in
  if bool_decide (length buf < n)%nat then Err "key truncated (need "%string else
  let kv := take n buf in
  let buf := drop n buf in
  if negb (utf8_valid kv) then Err "key utf-8: "%string else
  '(value_len, buf) ← map_err (fun _ => "value length: "%string) (get_varint buf);
  if value_len <? 0 then Ok (mkRecordHeader kv None, buf) else
  let n := Z.to_nat value_len in
  if bool_decide (length buf < n)%nat then Err "value truncated (need "%string else
  Ok (mkRecordHeader kv (Some (take n buf)), drop n buf).

Fixpoint decode_headers (count : nat) : decoder_of RecordsError (list RecordHeader) := fun buf =>
  match count with
  | O => Ok ([], buf)
  | S count =>
      '(h, buf) ← parse_error "header[" (decode_record_header buf);
      '(hs, buf) ← decode_headers count buf;
      Ok (h :: hs, buf)
  end.

Definition decode_body : decoder_of RecordsError Record := fun buf =>
  match buf with
  | [] => Err (RecordParse "record body empty")
  | a :: buf =>
      '(ts, buf) ← parse_error "timestamp_delta: " (get_varlong buf);
      '(od, buf) ← parse_error "offset_delta: " (get_varint buf);
      '(k, buf) ← decode_nullable_bytes "key" buf;
      '(v, buf) ← decode_nullable_bytes "value" buf;
      '(count, buf) ← parse_error "header_count: " (get_varint buf);
      if count <? 0 then Err (RecordParse "negative header count ") else
      '(hs, buf) ← decode_headers (Z.to_nat count) buf;
      Ok (mkRecord (wrap_s 8 (Z_of_byte a)) ts od k v hs, buf)
  end.

Definition decode : decoder_of RecordsError Record := fun buf =>
  '(len, buf) ← parse_error "record length: " (get_varlong buf);
  if len <? 0 then Err (RecordParse "record length negative or too large: ") else
  let n := Z.to_nat len in
  if bool_decide (length buf < n)%nat then Err (BodyTooShort (n - length buf)) else
  '(r, leftover) ← decode_body (take n buf);
  if bool_decide (leftover = []) then Ok (r, drop n buf)
  else Err (RecordParse "trailing bytes inside record (left=").

End OwnedRecord.

(** ** borrowed.rs: the zero-copy record parser *)
Module BorrowedRecord.

Definition read_nullable_slice (label : string) : decoder_of RecordsError (option (list byte)) :=
  fun buf =>
  '(len, buf) ← parse_error (label +:+ " length: ") (get_varint buf);
  if len <? 0 then Ok (None, buf) else
  let n := Z.to_nat len in
  if bool_decide (length buf < n)%nat then Err (BodyTooShort (n - length buf)) else
  Ok (Some (take n buf), drop n buf).

(** The body of the header loop. *)
Definition parse_header : decoder_of RecordsError RecordHeader := fun buf =>
  '(key_len, buf) ← parse_error "header[" (get_varint buf);
  if key_len <? 0 then Err (RecordParse "header[") else
  let n := Z.to_nat key_len in
  if bool_decide (length buf < n)%nat then Err (BodyTooShort (n - length buf)) else
  let key_bytes := take n buf in
  let buf := drop n buf in
  if negb (utf8_valid key_bytes) then Err (RecordParse "header[") else
  '(v, buf) ← read_nullable_slice "header[" buf;
  Ok (mkRecordHeader key_bytes v, buf).
Fixpoint parse_headers (count : nat) : decoder_of RecordsError (list RecordHeader) := fun buf =>
  match count with
  | O => Ok ([], buf)
  | S count =>
      '(h, buf) ← parse_header buf;
      '(hs, buf) ← parse_headers count buf;
      Ok (h :: hs, buf)
  end.

Definition parse_body : decoder_of RecordsError Record := fun buf =>
  match buf with
  | [] => Err (RecordParse "record body empty")
  | a :: buf =>
      '(ts, buf) ← parse_error "timestamp_delta: " (get_varlong buf);
      '(od, buf) ← parse_error "offset_delta: " (get_varint buf);
      '(k, buf) ← read_nullable_slice "key" buf;
      '(v, buf) ← read_nullable_slice "value" buf;
      '(count, buf) ← parse_error "header_count: " (get_varint buf);
      if count <? 0 then Err (RecordParse "negative header count ") else
      '(hs, buf) ← parse_headers (Z.to_nat count) buf;
      Ok (mkRecord (wrap_s 8 (Z_of_byte a)) ts od k v hs, buf)
  end.

Definition parse_one_record : decoder_of RecordsError Record := fun buf =>
  '(len, buf) ← parse_error "record length: " (get_varlong buf);
  if len <? 0 then Err (RecordParse "record length negative or too large: ") else
  let n := Z.to_nat len in
  if bool_decide (length buf < n)%nat then Err (BodyTooShort (n - length buf)) else
  let body := take n buf in
  let rest := drop n buf in
  '(r, leftover) ← parse_body body;
  if bool_decide (leftover = []) then Ok (r, rest)
  else Err (RecordParse "trailing bytes inside record (left=").

End BorrowedRecord.

(** ** Records: the two parsers agree, and invert the encoder *)
Section RecordFacts.
Import OwnedRecord BorrowedRecord.

Lemma decode_header_same buf : same_outcome (decode_record_header buf) (parse_header buf).
Proof.
  unfold decode_record_header, parse_header, read_nullable_slice, parse_error.
  apply same_outcome_bind; [apply same_outcome_map_err_l, same_outcome_map_err_r, same_outcome_refl|].
  intros [n buf1]. destruct (n <? 0); [done|]. case_bool_decide; [done|].
  destruct (negb _); [done|].
  destruct (get_varint _) as [[vl buf2]|e]; simpl; [|done].
  destruct (vl <? 0); [done|]. by case_bool_decide.
Qed.

Lemma decode_headers_same n buf : same_outcome (decode_headers n buf) (parse_headers n buf).
Proof.
  revert buf. induction n as [|n IH]; intros buf; [done|]. cbn [decode_headers parse_headers].
  apply same_outcome_bind; [apply same_outcome_map_err_l, decode_header_same|].
  intros [h buf']. apply same_outcome_bind; [apply IH|]. by intros [hs buf''].
Qed.

Ltac same_step :=
  match goal with
  | |- same_outcome (mbind _ (decode_nullable_bytes ?l ?b)) _ =>
      change (decode_nullable_bytes l b) with (read_nullable_slice l b)
  | |- same_outcome (mbind _ ?m) (mbind _ ?m) =>
      apply same_outcome_bind; [apply same_outcome_refl|intros []]
  | |- same_outcome (if ?b then _ else _) (if ?b then _ else _) => destruct b
  | |- same_outcome (Err _) (Err _) => exact I
  | |- same_outcome (Ok _) (Ok _) => reflexivity
  end.

Lemma decode_body_same buf : same_outcome (decode_body buf) (parse_body buf).
Proof.
  destruct buf as [|a buf]; [done|]. unfold decode_body, parse_body. repeat same_step.
  apply same_outcome_bind; [apply decode_headers_same|]. by intros [].
Qed.

Lemma decode_same buf : same_outcome (decode buf) (parse_one_record buf).
Proof.
  unfold decode, parse_one_record. repeat same_step.
  apply same_outcome_bind; [apply decode_body_same|]. intros []. repeat same_step.
Qed.

(** A field as [put_field] writes it. *)
Lemma try_len_Ok w n msg len :
  0 < w → try_len w n msg = Ok len → len = Z.of_nat n ∧ in_s w len.
Proof.
  unfold try_len. intros Hw. case_match; [|done]. zify_bools. intros ?. inv_ok.
  unfold in_s. lia.
Qed.

Lemma len_or_max_id w n msg len :
  w = 32 → try_len w n msg = Ok len → len_or_max n = len.
Proof.
  intros ->. unfold try_len, len_or_max. change (32 - 1) with 31.
  case_match; [|done]. intros ?. by inv_ok.
Qed.

Lemma encodes_field label msg v bs :
  put_field msg v = Ok bs → Encodes (decode_nullable_bytes label) bs v.
Proof.
  intros H. unfold put_field in H. destruct v as [v|]; inv_ok.
  - match goal with Hl : try_len _ _ _ = Ok _ |- _ => apply try_len_Ok in Hl as [-> Hr]; [|lia] end.
    eapply (encodes_bind (fun buf => parse_error _ (get_varint buf)));
      [by apply encodes_map_err, wire_encodes|].
    cbv beta. destruct (Z.ltb_spec (Z.of_nat (length v)) 0); [lia|]. rewrite Nat2Z.id.
    apply (encodes_take (fun buf => BodyTooShort (length v - length buf)) Some v).
  - eapply (encodes_map (fun buf => parse_error _ (get_varint buf)));
      [apply encodes_map_err, wire_encodes; by unfold in_s|done].
Qed.

Lemma length_field msg v bs :
  put_field msg v = Ok bs → Z.of_nat (length bs) = field_len v.
Proof.
  unfold put_field, field_len. destruct v as [v|]; intros H; inv_ok.
  - erewrite len_or_max_id by done. apply try_len_Ok in H as [-> Hr]; [|lia].
    by rewrite length_app, Nat2Z.inj_add, length_put_varint.
  - by apply length_put_varint.
Qed.

Ltac field_lengths :=
  repeat match goal with
  | H : put_field _ _ = Ok ?b |- context [length ?b] => rewrite (length_field _ _ _ H)
  end.

Lemma encodes_header h bs :
  utf8_valid (hkey h) = true → put_header h = Ok bs → Encodes parse_header bs h.
Proof.
  intros Hutf H. destruct h as [k v]. unfold put_header in H. simpl in *. inv_ok.
  match goal with Hl : try_len _ _ _ = Ok _ |- _ => apply try_len_Ok in Hl as [-> Hr]; [|lia] end.
  eapply (encodes_bind (fun buf => parse_error _ (get_varint buf)));
    [by apply encodes_map_err, wire_encodes|].
  cbv beta. destruct (Z.ltb_spec (Z.of_nat (length k)) 0); [lia|]. rewrite Nat2Z.id.
  eapply (encodes_take_then (fun buf => BodyTooShort (length k - length buf))
    (fun kb buf => if negb (utf8_valid kb) then Err (RecordParse "header[") else
      '(v, buf) ← read_nullable_slice "header[" buf; Ok (mkRecordHeader kb v, buf))).
  rewrite Hutf. eapply (encodes_map (read_nullable_slice _)); [by eapply encodes_field|done].
Qed.

Definition valid_header (h : RecordHeader) : Prop := utf8_valid (hkey h) = true.

Lemma encodes_headers hs bs :
  Forall valid_header hs → put_headers hs = Ok bs → Encodes (parse_headers (length hs)) bs hs.
Proof.
  intros Hv. revert bs. induction Hv as [|h hs Hh Hhs IH]; intros bs H; simpl in H; inv_ok.
  - apply encodes_ret.
  - eapply (encodes_bind parse_header); [by apply encodes_header|].
    eapply (encodes_map (parse_headers _)); [by apply IH|done].
Qed.

Lemma length_headers hs bs :
  put_headers hs = Ok bs → Z.of_nat (length bs) = foldr (fun h n => header_len h + n) 0 hs.
Proof.
  revert bs. induction hs as [|h hs IH]; intros bs H; simpl in H; inv_ok; [done|].
  simpl. rewrite length_app, Nat2Z.inj_add. rewrite (IH _ ltac:(eassumption)). f_equal.
  unfold put_header in *. inv_ok. unfold header_len.
  erewrite len_or_max_id by done.
  match goal with Hl : try_len _ _ _ = Ok _ |- _ => apply try_len_Ok in Hl as [-> Hr]; [|lia] end.
  rewrite !length_app, !Nat2Z.inj_add, length_put_varint by done.
  field_lengths. lia.
Qed.

(** A record whose fields are in their Rust types. *)
Definition valid_record (r : Record) : Prop :=
  in_s 8 (attributes r) ∧ in_s 64 (timestamp_delta r) ∧ in_s 32 (offset_delta r) ∧
  Forall valid_header (headers r).

Lemma encodes_first_byte {A} (err : RecordsError) v (k : byte → decoder_of RecordsError A) bs a :
  in_s 8 v → (∀ b, wrap_s 8 (Z_of_byte b) = v → Encodes (k b) bs a) →
  Encodes (fun buf => match buf with
                      | [] => Err err
                      | b :: buf => k b buf
                      end) (put_i8 v ++ bs) a.
Proof.
  intros Hv Hk. set (b := byte_of_Z v).
  assert (put_i8 v = [b]) as ->.
  { unfold put_i8, b. simpl. by rewrite Z.shiftr_0_r. }
  destruct (Hk b) as [R T].
  { unfold b. rewrite Z_of_byte_of_Z. by apply (wrap_s_wrap_u 8). }
  split; [apply R|]. intros [|c pre] post Heq Hne; [eauto|].
  simplify_eq/=. by eapply T.
Qed.

Lemma encodes_record_body r bs :
  valid_record r → encode_body r = Ok bs → Encodes parse_body bs r.
Proof.
  intros (Ha & Ht & Ho & Hh) H. unfold encode_body in H. inv_ok.
  eapply encodes_first_byte; [done|]. intros b Hb.
  eapply (encodes_bind (fun buf => parse_error _ (get_varlong buf)));
    [by apply encodes_map_err, wire_encodes|].
  eapply (encodes_bind (fun buf => parse_error _ (get_varint buf)));
    [by apply encodes_map_err, wire_encodes|].
  eapply (encodes_bind (read_nullable_slice _)); [by eapply encodes_field|].
  eapply (encodes_bind (read_nullable_slice _)); [by eapply encodes_field|].
  match goal with Hl : try_len _ _ _ = Ok _ |- _ => apply try_len_Ok in Hl as [-> Hr]; [|lia] end.
  eapply (encodes_bind (fun buf => parse_error _ (get_varint buf)));
    [by apply encodes_map_err, wire_encodes|].
  cbv beta. destruct (Z.ltb_spec (Z.of_nat (length (headers r))) 0); [lia|]. rewrite Nat2Z.id.
  eapply (encodes_map (parse_headers _)); [by apply encodes_headers|].
  intros buf. rewrite Hb. by destruct r.
Qed.

Lemma length_record_body r bs :
  valid_record r → encode_body r = Ok bs → Z.of_nat (length bs) = body_len r.
Proof.
  intros (Ha & Ht & Ho & Hh) H. unfold encode_body in H. inv_ok. unfold body_len.
  erewrite (len_or_max_id _ (length (headers r))) by done.
  match goal with Hl : try_len _ _ _ = Ok _ |- _ => apply try_len_Ok in Hl as [-> Hr]; [|lia] end.
  rewrite !length_app, !Nat2Z.inj_add, length_put_varlong, !length_put_varint by done.
  field_lengths.
  match goal with Hp : put_headers _ = Ok _ |- _ => rewrite (length_headers _ _ Hp) end.
  unfold put_i8. rewrite length_be_bytes. lia.
Qed.

Lemma encodes_record r bs :
  valid_record r → encode r = Ok bs → Encodes parse_one_record bs r.
Proof.
  intros Hv H. unfold encode in H. destruct (Z.ltb_spec (body_len r) (2 ^ 63)); [|done]. inv_ok.
  rename x into body. pose proof (length_record_body r body Hv H) as Hlen.
  destruct (encodes_record_body r body Hv H) as [Hbody _].
  eapply (encodes_bind (fun buf => parse_error _ (get_varlong buf))).
  - apply encodes_map_err, wire_encodes. unfold in_s. lia.
  - cbv beta. rewrite <- Hlen, Nat2Z.id. destruct (Z.ltb_spec (Z.of_nat (length body)) 0); [lia|].
    eapply (encodes_take_map (fun buf => BodyTooShort (length body - length buf))
      (fun b buf => '(r, leftover) ← parse_body b;
         if bool_decide (leftover = []) then Ok (r, buf)
         else Err (RecordParse "trailing bytes inside record (left="))).
    intros buf. by rewrite <- (app_nil_r body), Hbody.
Qed.

Lemma length_record r bs :
  valid_record r → encode r = Ok bs → Z.of_nat (length bs) = encoded_len r.
Proof.
  intros Hv H. unfold encode, encoded_len in *.
  destruct (Z.ltb_spec (body_len r) (2 ^ 63)); [|done]. inv_ok.
  match goal with Hb : encode_body r = Ok _ |- _ => pose proof (length_record_body r _ Hv Hb) end.
  rewrite length_app, Nat2Z.inj_add, length_put_varlong by (unfold in_s; lia). lia.
Qed.

End RecordFacts.

(** ** The attribute word as a product of independent fields *)
Section AttributeFacts.
Import Attributes.

(** What the accessors see: codec, timestamp type and the three flags. *)
Definition view (a : Z) : CompressionType * TimestampType * bool * bool * bool :=
  (compression a, timestamp_type a, is_transactional a, is_control_batch a, has_delete_horizon a).

Lemma compression_ext a a' :
  (∀ i, 0 ≤ i < 3 → Z.testbit a' i = Z.testbit a i) → compression a' = compression a.
Proof.
  intros H. unfold compression. do 2 f_equal. apply Z.bits_inj'. intros i Hi.
  rewrite !Z.land_spec. destruct (decide (i < 3)); [by rewrite H by lia|].
  change 7 with (Z.ones 3). by rewrite Z.ones_spec_high, !andb_false_r by lia.
Qed.

Lemma view_spec a :
  view a = (compression a, if Z.testbit a 3 then LogAppendTime else CreateTime,
            Z.testbit a 4, Z.testbit a 5, Z.testbit a 6).
Proof.
  unfold view, timestamp_type, is_transactional, is_control_batch, has_delete_horizon.
  by rewrite <- !has_bit_testbit by lia.
Qed.

Lemma view_set_bit a i b :
  3 ≤ i → view (set_bit a (Z.shiftl 1 i) b) =
    (compression a,
     if (if 3 =? i then b else Z.testbit a 3) then LogAppendTime else CreateTime,
     if 4 =? i then b else Z.testbit a 4, if 5 =? i then b else Z.testbit a 5,
     if 6 =? i then b else Z.testbit a 6).
Proof.
  intros Hi. rewrite view_spec, !set_bit_testbit by lia. do 4 f_equal.
  apply compression_ext. intros j Hj. rewrite set_bit_testbit by lia.
  by destruct (Z.eqb_spec j i); [lia|].
Qed.

Lemma with_compression_testbit a c i :
  3 ≤ i → Z.testbit (with_compression a c) i = Z.testbit a i.
Proof.
  intros Hi. unfold with_compression.
  rewrite Z.lor_spec, Z.land_spec, Z.lnot_spec by lia.
  change 7 with (Z.ones 3). rewrite Z.ones_spec_high by lia. simpl.
  rewrite andb_true_r. rewrite (Z.bits_above_log2 (as_attribute_bits c) i);
    [apply orb_false_r|by destruct c|].
  assert (Z.log2 (as_attribute_bits c) ≤ 2) by (destruct c; vm_compute; by intros). lia.
Qed.

Lemma compression_with_compression a c : compression (with_compression a c) = c.
Proof.
  unfold compression, with_compression.
  assert (Z.land (Z.lor (Z.land a (Z.lnot 7)) (as_attribute_bits c)) 7
          = Z.land (as_attribute_bits c) 7) as ->.
  { apply Z.bits_inj'. intros i Hi. rewrite !Z.land_spec, Z.lor_spec, Z.land_spec, Z.lnot_spec by lia.
    by destruct (Z.testbit a i), (Z.testbit 7 i), (Z.testbit (as_attribute_bits c) i). }
  by destruct c.
Qed.

Lemma with_compression_range a c : in_s 16 a → in_s 16 (with_compression a c).
Proof.
  rewrite !in_s_shiftr by lia. unfold with_compression.
  rewrite Z.shiftr_lor, Z.shiftr_land.
  assert (Z.shiftr (as_attribute_bits c) (16 - 1) = 0) as -> by (by destruct c).
  change (Z.shiftr (Z.lnot 7) (16 - 1)) with (-1). by rewrite Z.land_m1_r, Z.lor_0_r.
Qed.

End AttributeFacts.

(** ** Properties *)

(** A record survives the wire: what [Record::encode] writes is exactly
    [encoded_len] bytes, the decoder reads the record back from them whatever
    follows, and rejects every truncation. *)
Theorem record_roundtrip r bs :
  valid_record r →
  OwnedRecord.encode r = Ok bs →
  Z.of_nat (length bs) = OwnedRecord.encoded_len r ∧ Encodes OwnedRecord.decode bs r.
Proof.
  intros Hv H. split; [by apply length_record|].
  eapply (encodes_same BorrowedRecord.parse_one_record); [|by apply encodes_record].
  intros buf. apply same_outcome_sym, decode_same.
Qed.

(** The copying and the zero-copy record parser are equivalent: on every
    buffer they either both reject, or return the same record and leave the
    same bytes. *)
Theorem record_parsers_agree buf :
  same_outcome (OwnedRecord.decode buf) (BorrowedRecord.parse_one_record buf).
Proof. apply decode_same. Qed.

(** The attribute word is a product of independent fields: each setter is
    read back by its own accessor, leaves what the other accessors see as it
    was, and keeps the word an [i16]. *)
Theorem attributes_independent a :
  let '(c, t, x, k, d) := view a in
  (∀ c', view (Attributes.with_compression a c') = (c', t, x, k, d)) ∧
  (∀ t', view (Attributes.with_timestamp_type a t') = (c, t', x, k, d)) ∧
  (∀ x', view (Attributes.with_transactional a x') = (c, t, x', k, d)) ∧
  (∀ k', view (Attributes.with_control a k') = (c, t, x, k', d)) ∧
  (∀ d', view (Attributes.with_delete_horizon a d') = (c, t, x, k, d')) ∧
  (in_s 16 a → ∀ c' t' x' k' d',
     in_s 16 (Attributes.with_compression (Attributes.with_timestamp_type
       (Attributes.with_transactional (Attributes.with_control
          (Attributes.with_delete_horizon a d') k') x') t') c')).
Proof.
  destruct (view a) as [[[[c t] x] k] d] eqn:Hv. rewrite view_spec in Hv. simplify_eq.
  split_and!.
  - intros c'. rewrite view_spec, compression_with_compression.
    by rewrite !with_compression_testbit by lia.
  - intros []; [apply (view_set_bit a 3 false)|apply (view_set_bit a 3 true)]; lia.
  - intros x'. apply (view_set_bit a 4). lia.
  - intros k'. apply (view_set_bit a 5). lia.
  - intros d'. apply (view_set_bit a 6). lia.
  - intros Ha c' t' x' k' d'. apply with_compression_range.
    destruct t'; [apply (Attributes.set_bit_range _ 3 false)|apply (Attributes.set_bit_range _ 3 true)];
      try lia; repeat (apply Attributes.set_bit_range; [lia|]); done.
Qed.

Definition sample_record : Record :=
  mkRecord 0 17 2 (Some [x6b]) None [mkRecordHeader [x74] (Some [x61; x62]); mkRecordHeader [] None].

Lemma sample_record_valid : valid_record sample_record.
Proof. unfold valid_record, valid_header, in_s. simpl. repeat constructor; lia. Qed.

Lemma record_roundtrip_witness :
  ∃ bs, OwnedRecord.encode sample_record = Ok bs ∧
    Z.of_nat (length bs) = OwnedRecord.encoded_len sample_record ∧
    Encodes OwnedRecord.decode bs sample_record.
Proof.
  eexists. split; [vm_compute; reflexivity|].
  apply record_roundtrip; [apply sample_record_valid|vm_compute; reflexivity].
Defined.
