(* ===== verification/Batches.v ===== *)
(** * Record batches: header, batch codec, validation

    Models the batch half of [crates/protocol/src/records]: the 61-byte header
    of [header.rs] with the in-place patch of the broker-assigned fields, the
    batch codec of [owned.rs], and of [borrowed.rs] the zero-copy decoder, the
    produce-path validation and the record counter.  CRC-32C ([crc.rs] calls
    the [crc32c] crate), the codec crates and the floating-point output budget
    are parameters. *)

From S2P Require Import Prelude Wire Varint StringBytes Compression Records.
Import Fixed.

(** ** header.rs *)
Module Header.

Record RecordBatchHeader : Type := mkHeader {
  base_offset : Z;
  batch_length : Z;
  partition_leader_epoch : Z;
  magic : Z;
  crc : Z;
  attributes : Z;
  last_offset_delta : Z;
  base_timestamp : Z;
  max_timestamp : Z;
  producer_id : Z;
  producer_epoch : Z;
  base_sequence : Z;
  records_count : Z;
}.

Definition HEADER_LEN : nat := 61.
Definition CRC_COVERAGE_START : nat := 21.

(** [&l[off .. off + n]], and the big-endian integer stored there. *)
Definition slice (off n : nat) (l : list byte) : list byte := take n (drop off l).
Definition signed_at (off n : nat) (l : list byte) : Z :=
  wrap_s (8 * Z.of_nat n) (be_value (slice off n l)).

(** [RecordBatchHeader::ref_from_bytes] on a 61-byte slice: the packed layout. *)
Definition ref_from_bytes (l : list byte) : RecordBatchHeader := {|
  base_offset := signed_at 0 8 l;
  batch_length := signed_at 8 4 l;
  partition_leader_epoch := signed_at 12 4 l;
  magic := signed_at 16 1 l;
  crc := be_value (slice 17 4 l);
  attributes := signed_at 21 2 l;
  last_offset_delta := signed_at 23 4 l;
  base_timestamp := signed_at 27 8 l;
  max_timestamp := signed_at 35 8 l;
  producer_id := signed_at 43 8 l;
  producer_epoch := signed_at 51 2 l;
  base_sequence := signed_at 53 4 l;
  records_count := signed_at 57 4 l;
|}.

(** [copy_from_slice] into [buf[off .. off + |v|]]. *)
Definition overwrite (off : nat) (v buf : list byte) : list byte :=
  take off buf ++ v ++ drop (off + length v) buf.

(** The [assert!] on the length is the [None] case. *)
Definition patch_base_offset_and_leader_epoch (buf : list byte) (base_offset leader_epoch : Z) :
    option (list byte) :=
  if bool_decide (length buf < HEADER_LEN)%nat then None else
  Some (overwrite 12 (put_i32 leader_epoch) (overwrite 0 (put_i64 base_offset) buf)).

End Header.

(** ** owned.rs: [RecordBatch] *)
Module Batch.

Record RecordBatch : Type := mkBatch {
  base_offset : Z;
  partition_leader_epoch : Z;
  attributes : Z;
  last_offset_delta : Z;
  base_timestamp : Z;
  max_timestamp : Z;
  producer_id : Z;
  producer_epoch : Z;
  base_sequence : Z;
  records : list Record;
}.

Definition delete_horizon_ms (b : RecordBatch) : option Z :=
  if Attributes.has_delete_horizon (attributes b) then Some (base_timestamp b) else None.

(** The body of the loop: [saturating_add] then [saturating_sub]. *)
Definition rebase (old_base horizon_ms : Z) (r : Record) : Record :=
  let abs := sat_s 64 (old_base + timestamp_delta r) in
  {| Records.attributes := Records.attributes r;
     timestamp_delta := sat_s 64 (abs - horizon_ms);
     offset_delta := offset_delta r;
     key := key r; value := value r; headers := headers r |}.
Definition with_delete_horizon (b : RecordBatch) (horizon_ms : Z) : RecordBatch := {|
  base_offset := base_offset b;
  partition_leader_epoch := partition_leader_epoch b;
  attributes := Attributes.with_delete_horizon (attributes b) true;
  last_offset_delta := last_offset_delta b;
  base_timestamp := horizon_ms;
  max_timestamp := max_timestamp b;
  producer_id := producer_id b;
  producer_epoch := producer_epoch b;
  base_sequence := base_sequence b;
  records := rebase (base_timestamp b) horizon_ms <$> records b;
|}.

Definition encoded_len (b : RecordBatch) : Z :=
  Z.of_nat Header.HEADER_LEN + foldr (fun r n => OwnedRecord.encoded_len r + n) 0 (records b).

End Batch.

Section Codec.
(** The [crc32c] crate, the codec crates, and [policy.output_limit] (computed
    in [f64]) as the byte budget for a compressed length. *)
Context (crc32c : list byte → Z) (crc32c_append : Z → list byte → Z).
Context (B : Backends) (output_limit : nat → Z).

Definition HEADER_TAIL_LEN : Z := 49.

Definition decompress_body (codec : CompressionType) (raw_body : list byte) :
    result RecordsError (list byte) :=
  match codec with
  | NoCompression => Ok raw_body
  | _ => map_err CompressionFailed (decompress B codec raw_body (output_limit (length raw_body)))
  end.

(** ** borrowed.rs: locating one batch *)
Record ValidatedBatch : Type := mkValidated {
  header : Header.RecordBatchHeader;
  total_len : nat;
  raw_body : list byte;
}.

Definition batch_crc (hdr_slice body : list byte) : Z :=
  crc32c_append (crc32c (drop Header.CRC_COVERAGE_START hdr_slice)) body.

Definition validate_one_v2_batch (buf : list byte) : result RecordsError ValidatedBatch :=
  if bool_decide (length buf < Header.HEADER_LEN)%nat
  then Err (HeaderTooShort (Header.HEADER_LEN - length buf)) else
  let hdr_slice := take Header.HEADER_LEN buf in
  let rest := drop Header.HEADER_LEN buf in
  let hdr := Header.ref_from_bytes hdr_slice in
  if negb (Header.magic hdr =? 2) then Err (UnsupportedMagic (Header.magic hdr)) else
  let n := Header.batch_length hdr - HEADER_TAIL_LEN in
  if n <? 0 then Err (RecordParse "negative or oversized batch_length") else
  let body_len := Z.to_nat n in
  if bool_decide (length rest < body_len)%nat
  then Err (BodyTooShort (body_len - length rest)) else
  let raw_body := take body_len rest in
  let computed := batch_crc hdr_slice raw_body in
  if negb (computed =? Header.crc hdr) then Err (CrcMismatch (Header.crc hdr) computed) else
  Ok (mkValidated hdr (Header.HEADER_LEN + body_len) raw_body).

(** The record loops, with the wrapping of the element error ([wrapped]) that
    the owned decoder and [validate_records] do and [to_owned] does not. *)
Fixpoint parse_records (wrapped : bool) (count : nat) : decoder_of RecordsError (list Record) :=
  fun buf =>
  match count with
  | O => Ok ([], buf)
  | S count =>
      '(r, buf) ← (if wrapped then parse_error "record[" (BorrowedRecord.parse_one_record buf)
                   else BorrowedRecord.parse_one_record buf);
      '(rs, buf) ← parse_records wrapped count buf;
      Ok (r :: rs, buf)
  end.

Definition validate_records (v : ValidatedBatch) : result RecordsError unit :=
  let count := Header.records_count (header v) in
  if count <? 0 then Err (RecordParse "negative records_count ") else
  let codec := Attributes.compression (Header.attributes (header v)) in
  body ← decompress_body codec (raw_body v);
  '(_, remaining) ← parse_records true (Z.to_nat count) body;
  if bool_decide (remaining = []) then Ok tt
  else Err (RecordParse "trailing bytes after records (left=").

Definition of_header (hdr : Header.RecordBatchHeader) (rs : list Record) : Batch.RecordBatch := {|
  Batch.base_offset := Header.base_offset hdr;
  Batch.partition_leader_epoch := Header.partition_leader_epoch hdr;
  Batch.attributes := Header.attributes hdr;
  Batch.last_offset_delta := Header.last_offset_delta hdr;
  Batch.base_timestamp := Header.base_timestamp hdr;
  Batch.max_timestamp := Header.max_timestamp hdr;
  Batch.producer_id := Header.producer_id hdr;
  Batch.producer_epoch := Header.producer_epoch hdr;
  Batch.base_sequence := Header.base_sequence hdr;
  Batch.records := rs;
|}.

(** ** borrowed.rs: the borrowed batch *)
Record BorrowedBatch : Type := mkBorrowed {
  bheader : Header.RecordBatchHeader;
  bbody : list byte;
}.

Definition decode_borrow_impl : decoder_of RecordsError BorrowedBatch := fun buf =>
  if bool_decide (length buf < Header.HEADER_LEN)%nat
  then Err (HeaderTooShort (Header.HEADER_LEN - length buf)) else
  let hdr_slice := take Header.HEADER_LEN buf in
  let rest := drop Header.HEADER_LEN buf in
  let hdr := Header.ref_from_bytes hdr_slice in
  if negb (Header.magic hdr =? 2) then Err (UnsupportedMagic (Header.magic hdr)) else
  let n := Header.batch_length hdr - HEADER_TAIL_LEN in
  if n <? 0 then Err (RecordParse "negative or oversized batch_length") else
  let body_len := Z.to_nat n in
  if bool_decide (length rest < body_len)%nat
  then Err (BodyTooShort (body_len - length rest)) else
  let raw_body := take body_len rest in
  let after := drop body_len rest in
  let computed := batch_crc hdr_slice raw_body in
  if negb (computed =? Header.crc hdr) then Err (CrcMismatch (Header.crc hdr) computed) else
  body ← decompress_body (Attributes.compression (Header.attributes hdr)) raw_body;
  Ok (mkBorrowed hdr body, after).

(** [iter] clamps a negative count to zero; [to_owned] collects the items. *)
Definition to_owned (b : BorrowedBatch) : result RecordsError Batch.RecordBatch :=
  let count := Z.to_nat (Z.max (Header.records_count (bheader b)) 0) in
  '(rs, _) ← parse_records false count (bbody b);
  Ok (of_header (bheader b) rs).

(** ** owned.rs: decode and encode *)
Definition decode_with_policy : decoder_of RecordsError Batch.RecordBatch := fun buf =>
  if bool_decide (length buf < Header.HEADER_LEN)%nat
  then Err (HeaderTooShort (Header.HEADER_LEN - length buf)) else
  let hdr_bytes := take Header.HEADER_LEN buf in
  let buf := drop Header.HEADER_LEN buf in
  let hdr := Header.ref_from_bytes hdr_bytes in
  if negb (Header.magic hdr =? 2) then Err (UnsupportedMagic (Header.magic hdr)) else
  let n := Header.batch_length hdr - HEADER_TAIL_LEN in
  if n <? 0 then Err (RecordParse "negative or oversized batch_length") else
  let body_len := Z.to_nat n in
  if bool_decide (length buf < body_len)%nat
  then Err (BodyTooShort (body_len - length buf)) else
  let body := take body_len buf in
  let buf := drop body_len buf in
  let computed := batch_crc hdr_bytes body in
  if negb (computed =? Header.crc hdr) then Err (CrcMismatch (Header.crc hdr) computed) else
  body_for_records ← decompress_body (Attributes.compression (Header.attributes hdr)) body;
  let count := Header.records_count hdr in
  if count <? 0 then Err (RecordParse "negative records_count ") else
  '(rs, body_cur) ← parse_records true (Z.to_nat count) body_for_records;
  if bool_decide (body_cur = []) then Ok (of_header hdr rs, buf)
  else Err (RecordParse "trailing bytes after records (left=").

Fixpoint encode_records (rs : list Record) : result RecordsError (list byte) :=
  match rs with
  | [] => Ok []
  | r :: rs => b ← OwnedRecord.encode r; bs ← encode_records rs; Ok (b ++ bs)
  end.
Definition covered_head (b : Batch.RecordBatch) (count : Z) : list byte :=
  put_i16 (Batch.attributes b) ++ put_i32 (Batch.last_offset_delta b)
  ++ put_i64 (Batch.base_timestamp b) ++ put_i64 (Batch.max_timestamp b)
  ++ put_i64 (Batch.producer_id b) ++ put_i16 (Batch.producer_epoch b)
  ++ put_i32 (Batch.base_sequence b) ++ put_i32 count.
(** The [i32] addition of the batch length wraps, as in a release build. *)
Definition encode_batch (b : Batch.RecordBatch) : result RecordsError (list byte) :=
  raw_body ← encode_records (Batch.records b);
  body ← (match Attributes.compression (Batch.attributes b) with
          | NoCompression => Ok raw_body
          | codec => map_err CompressionFailed (compress B codec raw_body)
          end);
  len ← OwnedRecord.try_len 32 (length body) "body length exceeds i32";
  let batch_length := wrap_s 32 (HEADER_TAIL_LEN + len) in
  count ← OwnedRecord.try_len 32 (length (Batch.records b)) "records_count exceeds i32";
  let covered := covered_head b count in
  let crc := crc32c_append (crc32c covered) body in
  Ok (put_i64 (Batch.base_offset b) ++ put_i32 batch_length
      ++ put_i32 (Batch.partition_leader_epoch b) ++ put_i8 2 ++ put_u32 crc
      ++ covered ++ body).

End Codec.

(** ** borrowed.rs: counting records without parsing them *)
Definition MAGIC_OFFSET : nat := 16.
(** The [while] loop; each turn drops at least a header, so the length of the
    buffer is enough fuel. *)
Fixpoint count_loop (fuel : nat) (total : Z) (remaining : list byte) : Z :=
  match fuel with
  | O => total
  | S fuel =>
      if bool_decide (length remaining < Header.HEADER_LEN)%nat then total else
      if negb (bool_decide (remaining !! MAGIC_OFFSET = Some x02)) then total else
      let hdr := Header.ref_from_bytes (take Header.HEADER_LEN remaining) in
      if Header.batch_length hdr <? 0 then total else
      let total_len := (12 + Z.to_nat (Header.batch_length hdr))%nat in
      if bool_decide (total_len < Header.HEADER_LEN ∨ length remaining < total_len)%nat
      then total else
      count_loop fuel (total + Z.max (Header.records_count hdr) 0) (drop total_len remaining)
  end.
Definition count_records_in_v2_batches (buf : list byte) : Z :=
  if bool_decide (length buf ≤ MAGIC_OFFSET)%nat || negb (bool_decide (buf !! MAGIC_OFFSET = Some x02))
  then 0 else count_loop (length buf) 0 buf.

(** ** Slices of the header *)
Section HeaderFacts.
Import Header.

Lemma slice_skip off n a b :
  (length a ≤ off)%nat → slice off n (a ++ b) = slice (off - length a) n b.
Proof. intros. unfold slice. by rewrite drop_app_ge by lia. Qed.

Lemma slice_here n a b : length a = n → slice 0 n (a ++ b) = a.
Proof. intros <-. unfold slice. by rewrite drop_0, take_app_length. Qed.

Lemma slice_take off n k l : (off + n ≤ k)%nat → slice off n (take k l) = slice off n l.
Proof.
  intros. unfold slice. rewrite skipn_firstn_comm, take_take. f_equal. lia.
Qed.

Lemma signed_at_take off n k l :
  (off + n ≤ k)%nat → signed_at off n (take k l) = signed_at off n l.
Proof. intros. unfold signed_at. by rewrite slice_take. Qed.

Lemma signed_at_skip off n a b :
  (length a ≤ off)%nat → signed_at off n (a ++ b) = signed_at (off - length a) n b.
Proof. intros. unfold signed_at. by rewrite slice_skip. Qed.

Lemma signed_at_here n v b :
  (0 < n)%nat → in_s (8 * Z.of_nat n) v → signed_at 0 n (be_bytes n v ++ b) = v.
Proof.
  intros Hn Hv. unfold signed_at. rewrite slice_here by apply length_be_bytes.
  rewrite be_value_bytes. apply wrap_s_wrap_u; [lia|done].
Qed.

(** ** In-place patching *)
Lemma length_overwrite off v buf :
  (off + length v ≤ length buf)%nat → length (overwrite off v buf) = length buf.
Proof.
  intros. unfold overwrite. rewrite !length_app, length_take, length_drop. lia.
Qed.

Lemma drop_overwrite off v buf k :
  (off + length v ≤ k)%nat → (off + length v ≤ length buf)%nat →
  drop k (overwrite off v buf) = drop k buf.
Proof.
  intros Hk Hl. unfold overwrite. rewrite app_assoc.
  rewrite drop_app_ge by (rewrite length_app, length_take; lia).
  rewrite drop_drop, length_app, length_take. f_equal. lia.
Qed.

Lemma slice_overwrite_after off v buf k n :
  (off + length v ≤ k)%nat → (off + length v ≤ length buf)%nat →
  slice k n (overwrite off v buf) = slice k n buf.
Proof. intros. unfold slice. by rewrite drop_overwrite. Qed.

Lemma slice_overwrite_before off v buf k n :
  (k + n ≤ off)%nat → (off ≤ length buf)%nat →
  slice k n (overwrite off v buf) = slice k n buf.
Proof.
  intros Hk Hl. rewrite <- (slice_take k n off (overwrite off v buf)) by lia.
  rewrite <- (slice_take k n off buf) by lia. f_equal. unfold overwrite.
  rewrite take_app_le by (rewrite length_take; lia). rewrite take_take. f_equal. lia.
Qed.

Lemma slice_overwrite_here off v buf n :
  length v = n → (off ≤ length buf)%nat → slice off n (overwrite off v buf) = v.
Proof.
  intros Hn Hl. unfold overwrite.
  rewrite slice_skip by (rewrite length_take; lia).
  rewrite length_take, Nat.min_l, Nat.sub_diag by lia. by apply slice_here.
Qed.

End HeaderFacts.

(** ** The frame shared by the three readers *)
Section Frame.
Context (crc32c : list byte → Z) (crc32c_append : Z → list byte → Z).
Context (B : Backends) (output_limit : nat → Z).

Local Abbreviation validate := (validate_one_v2_batch crc32c crc32c_append).
Local Abbreviation decode := (decode_with_policy crc32c crc32c_append B output_limit).
Local Abbreviation decode_borrow := (decode_borrow_impl crc32c crc32c_append B output_limit).

Lemma decode_frame buf :
  decode buf =
    v ← validate buf;
    body ← decompress_body B output_limit
             (Attributes.compression (Header.attributes (header v))) (raw_body v);
    let count := Header.records_count (header v) in
    if count <? 0 then Err (RecordParse "negative records_count ") else
    '(rs, body_cur) ← parse_records true (Z.to_nat count) body;
    if bool_decide (body_cur = []) then Ok (of_header (header v) rs, drop (total_len v) buf)
    else Err (RecordParse "trailing bytes after records (left=").
Proof.
  unfold decode_with_policy, validate_one_v2_batch. cbv zeta.
  do 5 (case_match; [done|]). cbn [mbind result_bind header total_len raw_body].
  by rewrite drop_drop.
Qed.

Lemma decode_borrow_frame buf :
  decode_borrow buf =
    v ← validate buf;
    body ← decompress_body B output_limit
             (Attributes.compression (Header.attributes (header v))) (raw_body v);
    Ok (mkBorrowed (header v) body, drop (total_len v) buf).
Proof.
  unfold decode_borrow_impl, validate_one_v2_batch. cbv zeta.
  do 5 (case_match; [done|]). cbn [mbind result_bind header total_len raw_body].
  by rewrite drop_drop.
Qed.

Lemma parse_records_same n buf : same_outcome (parse_records true n buf) (parse_records false n buf).
Proof.
  revert buf. induction n as [|n IH]; intros buf; [done|]. cbn [parse_records].
  apply same_outcome_bind; [apply same_outcome_map_err_l, same_outcome_refl|].
  intros [r buf']. apply same_outcome_bind; [apply IH|]. by intros [].
Qed.

(** Encoded records are parsed back, one after the other. *)
Lemma encodes_records rs bs :
  Forall valid_record rs → encode_records rs = Ok bs →
  Encodes (parse_records true (length rs)) bs rs.
Proof.
  intros Hv. revert bs. induction Hv as [|r rs Hr _ IH]; intros bs H; simpl in H; inv_ok.
  - apply encodes_ret.
  - eapply (encodes_bind (fun buf => parse_error _ (BorrowedRecord.parse_one_record buf)));
      [by apply encodes_map_err, encodes_record|].
    eapply (encodes_map (parse_records _ _)); [by apply IH|done].
Qed.

Lemma length_records rs bs :
  Forall valid_record rs → encode_records rs = Ok bs →
  Z.of_nat (length bs) = foldr (fun r n => OwnedRecord.encoded_len r + n) 0 rs.
Proof.
  intros Hv. revert bs. induction Hv as [|r rs Hr _ IH]; intros bs H; simpl in H; inv_ok; [done|].
  simpl. rewrite length_app, Nat2Z.inj_add, (IH _ ltac:(eassumption)).
  f_equal. by apply length_record.
Qed.

End Frame.

(** ** What the encoder writes *)
Section Encoded.
Context (crc32c : list byte → Z) (crc32c_append : Z → list byte → Z).
Context (B : Backends) (output_limit : nat → Z).
(** [crc32c_append] returns a [u32]. *)
Context (crc_u32 : ∀ seed data, in_u 32 (crc32c_append seed data)).

Local Abbreviation validate := (validate_one_v2_batch crc32c crc32c_append).
Local Abbreviation decode := (decode_with_policy crc32c crc32c_append B output_limit).
Local Abbreviation encode := (encode_batch crc32c crc32c_append B).

(** A batch whose fields are in their Rust types. *)
Definition valid_batch (b : Batch.RecordBatch) : Prop :=
  in_s 64 (Batch.base_offset b) ∧ in_s 32 (Batch.partition_leader_epoch b) ∧
  in_s 16 (Batch.attributes b) ∧ in_s 32 (Batch.last_offset_delta b) ∧
  in_s 64 (Batch.base_timestamp b) ∧ in_s 64 (Batch.max_timestamp b) ∧
  in_s 64 (Batch.producer_id b) ∧ in_s 16 (Batch.producer_epoch b) ∧
  in_s 32 (Batch.base_sequence b) ∧ Forall valid_record (Batch.records b).

(** The header bytes for given length, CRC and count fields. *)
Definition header_bytes (b : Batch.RecordBatch) (len crc count : Z) : list byte :=
  put_i64 (Batch.base_offset b) ++ put_i32 len ++ put_i32 (Batch.partition_leader_epoch b)
  ++ put_i8 2 ++ put_u32 crc ++ covered_head b count.

Lemma length_covered_head b count : length (covered_head b count) = 40%nat.
Proof. unfold covered_head. by autorewrite with wire. Qed.

Lemma length_header_bytes b len crc count : length (header_bytes b len crc count) = 61%nat.
Proof. unfold header_bytes. autorewrite with wire. by rewrite length_covered_head. Qed.

Lemma drop_header_bytes b len crc count :
  drop Header.CRC_COVERAGE_START (header_bytes b len crc count) = covered_head b count.
Proof.
  unfold header_bytes. rewrite !app_assoc.
  apply drop_app_length'. by autorewrite with wire.
Qed.

Ltac skip_fields :=
  repeat first [rewrite signed_at_skip by (autorewrite with wire; lia)
               |rewrite slice_skip by (autorewrite with wire; lia)];
  autorewrite with wire.

Lemma ref_from_header_bytes b len crc count :
  valid_batch b → in_s 32 len → in_u 32 crc → in_s 32 count →
  Header.ref_from_bytes (header_bytes b len crc count) =
    Header.mkHeader (Batch.base_offset b) len (Batch.partition_leader_epoch b) 2 crc
      (Batch.attributes b) (Batch.last_offset_delta b) (Batch.base_timestamp b)
      (Batch.max_timestamp b) (Batch.producer_id b) (Batch.producer_epoch b)
      (Batch.base_sequence b) count.
Proof.
  intros (?&?&?&?&?&?&?&?&?&_) Hlen Hcrc Hcount.
  unfold Header.ref_from_bytes, header_bytes, covered_head.
  rewrite <- (app_nil_r (put_i32 count)).
  f_equal; skip_fields; try (apply signed_at_here; [lia|done]).
  etransitivity; [apply f_equal, slice_here; apply length_be_bytes|].
  unfold put_u32. by rewrite be_value_bytes, wrap_u_id.
Qed.

(** The batch a successful [encode] lays out. *)
Lemma encode_inv b bs :
  encode b = Ok bs →
  ∃ raw body,
    encode_records (Batch.records b) = Ok raw ∧
    match Attributes.compression (Batch.attributes b) with
    | NoCompression => body = raw
    | codec => compress B codec raw = Ok body
    end ∧
    Z.of_nat (length body) < 2 ^ 31 ∧
    in_s 32 (Z.of_nat (length (Batch.records b))) ∧
    bs = header_bytes b (wrap_s 32 (HEADER_TAIL_LEN + Z.of_nat (length body)))
           (batch_crc crc32c crc32c_append
              (header_bytes b 0 0 (Z.of_nat (length (Batch.records b)))) body)
           (Z.of_nat (length (Batch.records b))) ++ body.
Proof.
  intros H. unfold encode_batch in H. inv_ok.
  match goal with Hl : OwnedRecord.try_len _ (length ?x0) _ = Ok _,
    Hc : OwnedRecord.try_len _ (length (Batch.records b)) _ = Ok _ |- _ =>
    apply try_len_Ok in Hc as [-> ?]; [|lia]; apply try_len_Ok in Hl as [-> [? ?]]; [|lia]
  end.
  eexists _, _. split; [eassumption|]. unfold batch_crc. rewrite drop_header_bytes.
  split_and!; [|done|done|].
  - destruct (Attributes.compression _); [by inv_ok|..];
      match goal with Hm : map_err _ ?m = Ok _ |- _ => destruct m; simpl in Hm; by inv_ok end.
  - unfold header_bytes. by rewrite <- !app_assoc.
Qed.

(** The header of an encoded batch, and the frame checks, which pass on it. *)
Definition header_of (b : Batch.RecordBatch) (body : list byte) (crc : Z) :=
  Header.mkHeader (Batch.base_offset b) (HEADER_TAIL_LEN + Z.of_nat (length body))
    (Batch.partition_leader_epoch b) 2 crc
    (Batch.attributes b) (Batch.last_offset_delta b) (Batch.base_timestamp b)
    (Batch.max_timestamp b) (Batch.producer_id b) (Batch.producer_epoch b)
    (Batch.base_sequence b) (Z.of_nat (length (Batch.records b))).

Lemma validate_framed hb body rest crc b :
  length hb = 61%nat → Header.ref_from_bytes hb = header_of b body crc →
  crc = batch_crc crc32c crc32c_append hb body →
  validate (hb ++ body ++ rest) = Ok (mkValidated (header_of b body crc) (61 + length body) body).
Proof.
  intros Hl Hhdr Hcrc. unfold validate_one_v2_batch.
  rewrite bool_decide_eq_false_2 by (rewrite length_app; unfold Header.HEADER_LEN; lia).
  rewrite take_app_length', drop_app_length' by done. rewrite Hhdr. cbv zeta.
  cbn [Header.magic Header.batch_length Header.crc header_of].
  change (negb (2 =? 2)) with false.
  replace (HEADER_TAIL_LEN + Z.of_nat (length body) - HEADER_TAIL_LEN)
    with (Z.of_nat (length body)) by lia.
  destruct (Z.ltb_spec (Z.of_nat (length body)) 0); [lia|]. rewrite Nat2Z.id.
  rewrite bool_decide_eq_false_2 by (rewrite length_app; lia).
  by rewrite take_app_length, <- Hcrc, Z.eqb_refl.
Qed.

(** Every proper prefix of a frame is rejected. *)
Lemma validate_prefix hb body crc b pre post :
  length hb = 61%nat → Header.ref_from_bytes hb = header_of b body crc →
  hb ++ body = pre ++ post → post ≠ [] → ∃ e, validate pre = Err e.
Proof.
  intros Hl Hhdr Heq Hne. unfold validate_one_v2_batch.
  case_bool_decide as Hs; [eauto|]. unfold Header.HEADER_LEN in *.
  assert (take 61 pre = hb) as ->.
  { apply (f_equal (take 61)) in Heq. rewrite take_app_length' in Heq by done.
    by rewrite take_app_le in Heq by lia. }
  apply (f_equal length) in Heq. rewrite !length_app in Heq.
  assert (length post ≠ 0%nat) by (by destruct post).
  rewrite Hhdr. cbv zeta. cbn [Header.magic Header.batch_length Header.crc header_of].
  change (negb (2 =? 2)) with false.
  replace (HEADER_TAIL_LEN + Z.of_nat (length body) - HEADER_TAIL_LEN)
    with (Z.of_nat (length body)) by lia.
  case_match; [eauto|]. rewrite Nat2Z.id, bool_decide_eq_true_2; [eauto|].
  rewrite length_drop. lia.
Qed.

(** Both facts for the bytes [encode] returns. *)
Lemma encode_frame b bs :
  valid_batch b → encode b = Ok bs → Z.of_nat (length bs) - 12 < 2 ^ 31 →
  ∃ raw body hb crc,
    bs = hb ++ body ∧ length hb = 61%nat ∧
    encode_records (Batch.records b) = Ok raw ∧
    match Attributes.compression (Batch.attributes b) with
    | NoCompression => body = raw
    | codec => compress B codec raw = Ok body
    end ∧
    Header.ref_from_bytes hb = header_of b body crc ∧
    crc = batch_crc crc32c crc32c_append hb body.
Proof.
  intros Hv H Hlen. apply encode_inv in H as (raw & body & Hraw & Hcomp & Hb & Hcount & ->).
  eexists raw, body, _, _. split; [reflexivity|].
  rewrite length_app, length_header_bytes in Hlen.
  split_and!; [apply length_header_bytes|done|done| |].
  - rewrite ref_from_header_bytes; [|done|apply wrap_s_range; lia|apply crc_u32|done].
    unfold header_of. f_equal. apply wrap_s_id; [lia|].
    unfold HEADER_TAIL_LEN, in_s. lia.
  - unfold batch_crc. by rewrite !drop_header_bytes.
Qed.

(** The decoder's budget covers the records of a compressed batch. *)
Definition within_budget (b : Batch.RecordBatch) (bs : list byte) : Prop :=
  Attributes.compression (Batch.attributes b) = NoCompression ∨
  Batch.encoded_len b - 61 ≤ output_limit (length bs - 61) < 2 ^ 64.

Lemma decompress_encoded `{!BackendLaws B} b raw body :
  (Attributes.compression (Batch.attributes b) = NoCompression ∨
   Z.of_nat (length raw) ≤ output_limit (length body) < 2 ^ 64) →
  match Attributes.compression (Batch.attributes b) with
  | NoCompression => body = raw
  | codec => compress B codec raw = Ok body
  end →
  decompress_body B output_limit (Attributes.compression (Batch.attributes b)) body = Ok raw.
Proof.
  intros Hbud Hc. unfold decompress_body.
  destruct (Attributes.compression _) eqn:Hcodec; [by subst|..];
    destruct Hbud as [|Hbud]; try done; by rewrite (decompress_compressed B _ _ _ _ Hc Hbud).
Qed.

End Encoded.

(** ** Properties *)
Section Properties.
Context (crc32c : list byte → Z) (crc32c_append : Z → list byte → Z).
Context (B : Backends) (output_limit : nat → Z).

Local Abbreviation validate := (validate_one_v2_batch crc32c crc32c_append).
Local Abbreviation decode := (decode_with_policy crc32c crc32c_append B output_limit).
Local Abbreviation decode_borrow := (decode_borrow_impl crc32c crc32c_append B output_limit).
Local Abbreviation encode := (encode_batch crc32c crc32c_append B).

Lemma encodes_batch (crc_u32 : ∀ seed data, in_u 32 (crc32c_append seed data))
    (L : BackendLaws B) b bs :
  valid_batch b →
  encode b = Ok bs →
  Z.of_nat (length bs) - 12 < 2 ^ 31 →
  within_budget output_limit b bs →
  Encodes decode bs b.
Proof.
  intros Hv H Hlen Hbud.
  destruct (encode_frame _ _ _ crc_u32 b bs Hv H Hlen)
    as (raw & body & hb & crc & -> & Hl & Hraw & Hcomp & Hhdr & Hcrc).
  assert (Forall valid_record (Batch.records b)) as Hrecs by apply Hv.
  pose proof (length_records _ _ Hrecs Hraw) as Hrawlen.
  assert (decompress_body B output_limit (Attributes.compression (Batch.attributes b)) body
          = Ok raw) as Hdec.
  { apply decompress_encoded; [done| |done]. destruct Hbud as [|Hbud]; [by left|right].
    rewrite length_app, Hl in Hbud.
    replace (61 + length body - 61)%nat with (length body) in Hbud by lia.
    unfold Batch.encoded_len, Header.HEADER_LEN in Hbud. lia. }
  split.
  - intros rest. rewrite decode_frame, <- app_assoc.
    erewrite validate_framed by done. cbn [mbind result_bind header raw_body total_len].
    cbn [header_of Header.attributes Header.records_count].
    rewrite Hdec. cbn [mbind result_bind].
    destruct (Z.ltb_spec (Z.of_nat (length (Batch.records b))) 0); [lia|]. rewrite Nat2Z.id.
    destruct (encodes_records _ _ Hrecs Hraw) as [Hp _].
    rewrite <- (app_nil_r raw), Hp. cbn [mbind result_bind].
    rewrite bool_decide_eq_true_2 by done. rewrite app_assoc, drop_app_length'; [by destruct b|].
    rewrite length_app. lia.
  - intros pre post Heq Hne. rewrite decode_frame.
    destruct (validate_prefix crc32c crc32c_append hb body crc b pre post Hl Hhdr Heq Hne) as [e ->].
    by eexists.
Qed.

(** C17. A batch survives the wire: whatever [encode] writes for a batch whose
    fields are in range, the decoder reads back as that batch, stopping right
    after it, and it rejects every truncation of those bytes.  The batch length
    must fit its [i32] field, and a compressed body the decoder's budget. *)
Theorem batch_roundtrip (crc_u32 : ∀ seed data, in_u 32 (crc32c_append seed data))
    (L : BackendLaws B) b bs :
  valid_batch b →
  encode b = Ok bs →
  Z.of_nat (length bs) - 12 < 2 ^ 31 →
  within_budget output_limit b bs →
  Encodes decode bs b.
Proof. by apply encodes_batch. Qed.

(** C18. The produce fast path admits exactly what the full decoder admits:
    [validate_one_v2_batch] followed by [validate_records] succeeds on a buffer
    if and only if the owned decoder does, and both stop at the same byte. *)
Theorem validation_agrees_with_decode buf rest :
  (∃ b, decode buf = Ok (b, rest)) ↔
  (∃ v, validate buf = Ok v ∧ validate_records B output_limit v = Ok tt ∧
        rest = drop (total_len v) buf).
Proof.
  rewrite decode_frame. unfold validate_records. split.
  - intros [b H]. inv_ok. case_match eqn:Hc; inv_ok. case_bool_decide; inv_ok.
    eexists. split_and!; [done| |done]. rewrite Hc.
    repeat match goal with Hx : _ = Ok _ |- _ => rewrite Hx; clear Hx; cbn [mbind result_bind] end.
    by rewrite bool_decide_eq_true_2.
  - intros (v & Hv & H & ->). rewrite Hv. cbn [mbind result_bind].
    destruct (_ <? 0) eqn:Hc; [done|]. inv_ok. case_bool_decide; inv_ok.
    repeat match goal with Hx : _ = Ok _ |- _ => rewrite Hx; clear Hx; cbn [mbind result_bind] end.
    rewrite bool_decide_eq_true_2 by done. by eexists.
Qed.

(** The zero-copy decoder refines the owned one: what the owned decoder
    accepts, the borrowed decoder accepts too, [to_owned] yields the same
    batch, and the same bytes are left. *)
Theorem borrowed_refines_owned buf b rest :
  decode buf = Ok (b, rest) →
  ∃ bb, decode_borrow buf = Ok (bb, rest) ∧ to_owned bb = Ok b.
Proof.
  rewrite decode_frame, decode_borrow_frame. intros H. inv_ok. cbv zeta in *.
  case_match eqn:Hc; inv_ok. case_bool_decide; inv_ok. zify_bools.
  repeat match goal with Hx : _ = Ok _ |- _ => rewrite Hx; cbn [mbind result_bind] end.
  eexists. split; [done|]. unfold to_owned. cbn [bheader bbody]. rewrite Z.max_l by lia.
  match goal with Hp : parse_records true ?n ?l = Ok _ |- _ =>
    apply (same_outcome_Ok _ _ _ (parse_records_same n l)) in Hp; by rewrite Hp end.
Qed.

End Properties.

(** ** Patching and counting *)
Section Patch.
Context (crc32c : list byte → Z) (crc32c_append : Z → list byte → Z).
Local Abbreviation validate := (validate_one_v2_batch crc32c crc32c_append).

Definition patched (hdr : Header.RecordBatchHeader) (o e : Z) : Header.RecordBatchHeader :=
  Header.mkHeader o (Header.batch_length hdr) e (Header.magic hdr) (Header.crc hdr)
    (Header.attributes hdr) (Header.last_offset_delta hdr) (Header.base_timestamp hdr)
    (Header.max_timestamp hdr) (Header.producer_id hdr) (Header.producer_epoch hdr)
    (Header.base_sequence hdr) (Header.records_count hdr).

Lemma ref_from_patched buf buf' o e :
  in_s 64 o → in_s 32 e →
  Header.patch_base_offset_and_leader_epoch buf o e = Some buf' →
  Header.ref_from_bytes (take 61 buf') = patched (Header.ref_from_bytes (take 61 buf)) o e ∧
  drop 21 buf' = drop 21 buf ∧ length buf' = length buf.
Proof.
  intros Ho He H. unfold Header.patch_base_offset_and_leader_epoch in H.
  case_bool_decide as Hlen; [done|]. inv_ok. unfold Header.HEADER_LEN in *.
  set (b1 := Header.overwrite 0 (put_i64 o) buf).
  assert (length b1 = length buf) as Hb1
    by (apply length_overwrite; autorewrite with wire; lia).
  split_and!.
  - unfold Header.ref_from_bytes, patched. cbn -[Header.slice Header.signed_at take].
    rewrite !signed_at_take, !slice_take by lia. unfold Header.signed_at.
    rewrite 2!slice_overwrite_before by (autorewrite with wire; lia).
    rewrite slice_overwrite_here by (autorewrite with wire; lia).
    rewrite !slice_overwrite_after by (autorewrite with wire; lia).
    unfold b1. rewrite slice_overwrite_here by (autorewrite with wire; lia).
    rewrite !slice_overwrite_after by (autorewrite with wire; lia).
    unfold put_i64, put_i32. rewrite !be_value_bytes.
    by rewrite !wrap_s_wrap_u by (done || lia).
  - rewrite drop_overwrite by (autorewrite with wire; lia).
    by apply drop_overwrite; autorewrite with wire; lia.
  - rewrite length_overwrite; autorewrite with wire; lia.
Qed.

Lemma validate_patched buf buf' v o e :
  in_s 64 o → in_s 32 e →
  validate buf = Ok v →
  Header.patch_base_offset_and_leader_epoch buf o e = Some buf' →
  validate buf' = Ok (mkValidated (patched (header v) o e) (total_len v) (raw_body v)).
Proof.
  intros Ho He Hv Hp. destruct (ref_from_patched buf buf' o e Ho He Hp) as (Hr & Hd & Hl).
  assert (drop 61 buf' = drop 61 buf) as Hd61
    by (change 61%nat with (21 + 40)%nat; rewrite <- !drop_drop; by rewrite Hd).
  assert (drop 21 (take 61 buf') = drop 21 (take 61 buf)) as Hd21
    by (rewrite !skipn_firstn_comm; by rewrite Hd).
  unfold validate_one_v2_batch, batch_crc, Header.HEADER_LEN, Header.CRC_COVERAGE_START in *.
  cbv zeta in *. rewrite Hl, Hr, Hd61, Hd21. clear Hr Hd Hd61 Hd21 Hp Hl.
  set (h := Header.ref_from_bytes (take 61 buf)) in *. clearbody h.
  cbn [patched Header.magic Header.batch_length Header.crc].
  do 5 (case_match; [done|]). by inv_ok.
Qed.

(** Stamping the broker-assigned base offset and leader epoch in place
    keeps a validated batch valid, without recomputing its CRC: exactly those
    two header fields change. *)
Theorem patch_keeps_batch_valid buf buf' v o e :
  in_s 64 o → in_s 32 e →
  validate buf = Ok v →
  Header.patch_base_offset_and_leader_epoch buf o e = Some buf' →
  validate buf' = Ok (mkValidated (patched (header v) o e) (total_len v) (raw_body v)).
Proof. apply validate_patched. Qed.

End Patch.

Section Count.
Context (crc32c : list byte → Z) (crc32c_append : Z → list byte → Z) (B : Backends).
Context (crc_u32 : ∀ seed data, in_u 32 (crc32c_append seed data)).
Local Abbreviation encode := (encode_batch crc32c crc32c_append B).

Lemma wrap_s8_byte c : wrap_s 8 (Z_of_byte c) = 2 → c = x02.
Proof. by destruct c. Qed.

Lemma magic_byte hb rest :
  length hb = 61%nat → Header.magic (Header.ref_from_bytes hb) = 2 →
  (hb ++ rest) !! MAGIC_OFFSET = Some x02.
Proof.
  intros Hl. simpl. unfold Header.signed_at, Header.slice, MAGIC_OFFSET.
  destruct (lookup_lt_is_Some_2 hb 16) as [c Hc]; [lia|].
  rewrite (drop_S _ _ _ Hc). simpl.
  replace (Z_of_byte c * _ + 0) with (Z_of_byte c)
    by (change (2 ^ (8 * Z.of_nat 0)) with 1; lia).
  intros ->%wrap_s8_byte. by rewrite lookup_app_l by lia.
Qed.

(** One turn of the loop over a batch as [encode] writes it. *)
Lemma count_loop_batch fuel total b bs rest :
  valid_batch b → encode b = Ok bs → Z.of_nat (length bs) - 12 < 2 ^ 31 →
  count_loop (S fuel) total (bs ++ rest) =
    count_loop fuel (total + Z.of_nat (length (Batch.records b))) rest ∧
  (61 ≤ length bs)%nat ∧ (bs ++ rest) !! MAGIC_OFFSET = Some x02.
Proof.
  intros Hv H Hlen.
  destruct (encode_frame _ _ _ crc_u32 b bs Hv H Hlen)
    as (raw & body & hb & crc & -> & Hl & _ & _ & Hhdr & _).
  assert ((hb ++ body ++ rest) !! MAGIC_OFFSET = Some x02) as Hm
    by (apply magic_byte; [done|by rewrite Hhdr]).
  rewrite <- !app_assoc. split_and!; [|rewrite length_app; lia|done]. cbn [count_loop].
  rewrite bool_decide_eq_false_2 by (rewrite length_app; unfold Header.HEADER_LEN; lia).
  rewrite bool_decide_eq_true_2 by done.
  unfold Header.HEADER_LEN. rewrite take_app_length', Hhdr by done.
  cbn [negb Header.batch_length Header.records_count header_of]. unfold HEADER_TAIL_LEN.
  destruct (Z.ltb_spec (49 + Z.of_nat (length body)) 0); [lia|].
  replace (12 + Z.to_nat (49 + Z.of_nat (length body)))%nat with (61 + length body)%nat by lia.
  rewrite bool_decide_eq_false_2 by (rewrite !length_app; lia).
  rewrite Z.max_l by lia. f_equal.
  rewrite app_assoc. apply drop_app_length'. rewrite length_app. lia.
Qed.

(** The number of records of a list of batches. *)
Definition total_records (bs : list Batch.RecordBatch) : Z :=
  foldr (fun b n => Z.of_nat (length (Batch.records b)) + n) 0 bs.

Lemma count_loop_batches fuel total batches bss :
  Forall2 (fun b bs => valid_batch b ∧ encode b = Ok bs ∧ Z.of_nat (length bs) - 12 < 2 ^ 31)
    batches bss →
  (length batches ≤ fuel)%nat →
  count_loop fuel total (concat bss) = total + total_records batches.
Proof.
  intros Hall. revert fuel total.
  induction Hall as [|b bs batches bss (Hv & He & Hl) _ IH]; intros fuel total Hfuel; simpl in *.
  - rewrite Z.add_0_r. by destruct fuel.
  - destruct fuel as [|fuel]; [lia|].
    destruct (count_loop_batch fuel total b bs (concat bss) Hv He Hl) as (-> & _).
    rewrite IH by lia. lia.
Qed.

Lemma count_fuel batches bss :
  Forall2 (fun b bs => valid_batch b ∧ encode b = Ok bs ∧ Z.of_nat (length bs) - 12 < 2 ^ 31)
    batches bss →
  (length batches ≤ length (concat bss))%nat.
Proof.
  induction 1 as [|b bs batches bss (Hv & He & Hl) _ IH]; simpl; [done|].
  destruct (count_loop_batch 0 0 b bs [] Hv He Hl) as (_ & Hlen & _).
  rewrite length_app. lia.
Qed.

(** [count_records_in_v2_batches] reads the true number of records of a
    concatenation of encoded batches from the headers alone. *)
Theorem count_records_of_batches batches bss :
  Forall2 (fun b bs => valid_batch b ∧ encode b = Ok bs ∧ Z.of_nat (length bs) - 12 < 2 ^ 31)
    batches bss →
  count_records_in_v2_batches (concat bss) = total_records batches.
Proof.
  intros Hall. unfold count_records_in_v2_batches.
  destruct Hall as [|b bs batches bss (Hv & He & Hl) Hall]; [done|]. simpl.
  destruct (count_loop_batch 0 0 b bs (concat bss) Hv He Hl) as (_ & Hlen & Hm).
  rewrite bool_decide_eq_false_2 by (unfold MAGIC_OFFSET; rewrite length_app; lia).
  rewrite bool_decide_eq_true_2 by done. simpl.
  rewrite (count_loop_batches _ 0 (b :: batches) (bs :: bss)).
  - done.
  - by constructor.
  - apply (count_fuel (b :: batches) (bs :: bss)). by constructor.
Qed.

End Count.

(** For an uncompressed batch [encoded_len] is exactly what [encode] writes. *)
Theorem batch_encoded_len crc32c crc32c_append B b bs :
  valid_batch b →
  Attributes.compression (Batch.attributes b) = NoCompression →
  encode_batch crc32c crc32c_append B b = Ok bs →
  Z.of_nat (length bs) = Batch.encoded_len b.
Proof.
  intros Hv Hc H. apply encode_inv in H as (raw & body & Hraw & Hbody & _ & _ & ->).
  rewrite Hc in Hbody. subst body.
  rewrite length_app, length_header_bytes, Nat2Z.inj_add.
  unfold Batch.encoded_len. f_equal. apply length_records; [apply Hv|done].
Qed.

(** Stamping a delete horizon is invisible to readers of the records: the
    horizon is read back, the batch keeps everything else, and the absolute
    timestamp of every record is unchanged when it and its distance to the
    horizon fit an [i64]. *)
Theorem delete_horizon_keeps_timestamps b h :
  Forall (fun r => in_s 64 (Batch.base_timestamp b + timestamp_delta r) ∧
                   in_s 64 (Batch.base_timestamp b + timestamp_delta r - h)) (Batch.records b) →
  let b' := Batch.with_delete_horizon b h in
  Batch.delete_horizon_ms b' = Some h ∧
  (fun r => Batch.base_timestamp b' + timestamp_delta r) <$> Batch.records b' =
  (fun r => Batch.base_timestamp b + timestamp_delta r) <$> Batch.records b ∧
  Forall2 (fun r' r => Records.attributes r' = Records.attributes r ∧
             offset_delta r' = offset_delta r ∧ key r' = key r ∧ value r' = value r ∧
             headers r' = headers r) (Batch.records b') (Batch.records b) ∧
  Attributes.compression (Batch.attributes b') = Attributes.compression (Batch.attributes b).
Proof.
  intros Hr b'.
  pose proof (view_set_bit (Batch.attributes b) 6 true ltac:(lia)) as Hview.
  unfold view in Hview. rewrite !pair_equal_spec in Hview.
  destruct Hview as ((((Hcomp & _) & _) & _) & Hbit).
  split_and!.
  - unfold Batch.delete_horizon_ms, b', Batch.with_delete_horizon.
    cbn [Batch.attributes Batch.base_timestamp].
    unfold Attributes.with_delete_horizon, Attributes.DELETE_HORIZON_BIT. by rewrite Hbit.
  - unfold b'. cbn. rewrite <- list_fmap_compose. apply list_fmap_ext. intros i r Hi.
    apply (Forall_lookup_1 _ _ _ _ Hr) in Hi as [H1 H2]. cbn.
    rewrite (sat_s_id 64 (_ + _)), sat_s_id by done. lia.
  - unfold b'. cbn. apply Forall2_fmap_l, Forall_Forall2_diag, Forall_true. done.
  - done.
Qed.

(** ** Witnesses: a checksum that adds the bytes, and stored codec formats *)
Definition sum_bytes (l : list byte) : Z := foldr (fun b n => Z_of_byte b + n) 0 l.
Definition toy_crc (l : list byte) : Z := wrap_u 32 (sum_bytes l).
Definition toy_crc_append (seed : Z) (l : list byte) : Z := wrap_u 32 (seed + sum_bytes l).

Lemma toy_crc_u32 seed l : in_u 32 (toy_crc_append seed l).
Proof. apply wrap_u_range. lia. Qed.

Definition sample_batch (attrs : Z) : Batch.RecordBatch :=
  Batch.mkBatch 5 1 attrs 0 1000 1010 (-1) (-1) (-1) [sample_record; sample_record].

Lemma sample_batch_valid attrs : in_s 16 attrs → valid_batch (sample_batch attrs).
Proof.
  intros. unfold valid_batch. cbn. split_and!; try (unfold in_s; lia); [done|].
  repeat constructor; apply sample_record_valid.
Qed.

Definition encoded_sample (attrs : Z) : list byte :=
  match encode_batch toy_crc toy_crc_append stored_backends (sample_batch attrs) with
  | Ok bs => bs
  | Err _ => []
  end.

(** A gzip batch. *)
Lemma batch_roundtrip_witness :
  Encodes (decode_with_policy toy_crc toy_crc_append stored_backends (fun _ => 1000))
    (encoded_sample 1) (sample_batch 1).
Proof.
  apply (batch_roundtrip toy_crc toy_crc_append stored_backends (fun _ => 1000)
           toy_crc_u32 stored_laws).
  - apply sample_batch_valid. unfold in_s. lia.
  - vm_compute. reflexivity.
  - vm_compute. reflexivity.
  - right. vm_compute. split; [intros Heq; discriminate Heq|reflexivity].
Defined.

Lemma borrowed_refines_owned_witness :
  ∃ bb, decode_borrow_impl toy_crc toy_crc_append stored_backends (fun _ => 1000)
          (encoded_sample 1) = Ok (bb, []) ∧ to_owned bb = Ok (sample_batch 1).
Proof.
  apply (borrowed_refines_owned toy_crc toy_crc_append stored_backends (fun _ => 1000)).
  vm_compute. reflexivity.
Defined.

Lemma patch_keeps_batch_valid_witness :
  ∃ buf' v, Header.patch_base_offset_and_leader_epoch (encoded_sample 0) 42 7 = Some buf' ∧
    validate_one_v2_batch toy_crc toy_crc_append (encoded_sample 0) = Ok v ∧
    validate_one_v2_batch toy_crc toy_crc_append buf'
      = Ok (mkValidated (patched (header v) 42 7) (total_len v) (raw_body v)).
Proof.
  eexists _, _. split; [vm_compute; reflexivity|]. split; [vm_compute; reflexivity|].
  eapply (patch_keeps_batch_valid toy_crc toy_crc_append (encoded_sample 0));
    [unfold in_s; lia|unfold in_s; lia|vm_compute; reflexivity|vm_compute; reflexivity].
Defined.

Lemma count_records_of_batches_witness :
  count_records_in_v2_batches (concat [encoded_sample 0; encoded_sample 1]) = 4.
Proof.
  apply (count_records_of_batches toy_crc toy_crc_append stored_backends toy_crc_u32
           [sample_batch 0; sample_batch 1]).
  do 2 (apply List.Forall2_cons;
    [split; [apply sample_batch_valid; unfold in_s; lia|split; vm_compute; reflexivity]|]).
  constructor.
Defined.

Lemma batch_encoded_len_witness :
  Z.of_nat (length (encoded_sample 0)) = Batch.encoded_len (sample_batch 0).
Proof.
  apply (batch_encoded_len toy_crc toy_crc_append stored_backends);
    [apply sample_batch_valid; unfold in_s; lia|reflexivity|vm_compute; reflexivity].
Defined.

Lemma delete_horizon_keeps_timestamps_witness :
  Batch.delete_horizon_ms (Batch.with_delete_horizon (sample_batch 1) 5000) = Some 5000.
Proof.
  apply (delete_horizon_keeps_timestamps (sample_batch 1) 5000).
  repeat constructor; unfold in_s; cbn; lia.
Defined.
