(* ===== verification/BatchStore.v ===== *)
(** * What the log relies on from the batch codec

    The log stores batches as bytes and reads them back with
    [RecordBatch::decode] or by their fixed headers only.  [BatchStore] states
    what that takes; the codec of [Batches.v] provides it. *)

From S2P Require Import Prelude Wire Compression Records Batches.

(** The header fields the log reads without decoding. *)
Definition header_for (b : Batch.RecordBatch) (bs : list byte) : Prop :=
  (Header.HEADER_LEN ≤ length bs)%nat ∧
  let h := Header.ref_from_bytes (take Header.HEADER_LEN bs) in
  Header.base_offset h = Batch.base_offset b ∧
  Header.last_offset_delta h = Batch.last_offset_delta b ∧
  Header.batch_length h = Z.of_nat (length bs) - 12.

(** The batch with the broker-assigned fields replaced. *)
Definition restamp (b : Batch.RecordBatch) (o e : Z) : Batch.RecordBatch :=
  Batch.mkBatch o e (Batch.attributes b) (Batch.last_offset_delta b) (Batch.base_timestamp b)
    (Batch.max_timestamp b) (Batch.producer_id b) (Batch.producer_epoch b)
    (Batch.base_sequence b) (Batch.records b).

(** [bs] is the stored form of [b] when decoding it gives [b] and uses it up. *)
Class BatchStore : Type := {
  batch_encode : Batch.RecordBatch → result RecordsError (list byte);
  batch_decode : decoder_of RecordsError Batch.RecordBatch;
  decode_app b bs rest :
    batch_decode bs = Ok (b, []) → batch_decode (bs ++ rest) = Ok (b, rest);
  decode_cut b pre post :
    batch_decode (pre ++ post) = Ok (b, []) → post ≠ [] → ∃ e, batch_decode pre = Err e;
  decode_header b bs : batch_decode bs = Ok (b, []) → header_for b bs;
  decode_patch b bs bs' o e :
    in_s 64 o → in_s 32 e → batch_decode bs = Ok (b, []) →
    Header.patch_base_offset_and_leader_epoch bs o e = Some bs' →
    batch_decode bs' = Ok (restamp b o e, []);
}.

Section Discharge.
Context (crc32c : list byte → Z) (crc32c_append : Z → list byte → Z).
Context (B : Backends) (output_limit : nat → Z).
Local Abbreviation validate := (validate_one_v2_batch crc32c crc32c_append).
Local Abbreviation decode := (decode_with_policy crc32c crc32c_append B output_limit).

(** A validated frame: its header, and the bytes it spans. *)
Lemma validate_inv buf v :
  validate buf = Ok v →
  (61 ≤ total_len v ≤ length buf)%nat ∧ header v = Header.ref_from_bytes (take 61 buf) ∧
  Z.of_nat (total_len v) = 12 + Header.batch_length (header v).
Proof.
  unfold validate_one_v2_batch, Header.HEADER_LEN. intros H. cbv zeta in H.
  repeat (case_match; [done|]). inv_ok. cbn [total_len header].
  rewrite length_drop in *. zify_bools. unfold HEADER_TAIL_LEN in *. split_and!; try done; lia.
Qed.

Lemma validate_app buf rest v : validate buf = Ok v → validate (buf ++ rest) = Ok v.
Proof.
  intros H. pose proof (validate_inv _ _ H) as (Hlen & _).
  unfold validate_one_v2_batch, Header.HEADER_LEN in *. cbv zeta in *.
  rewrite length_app, take_app_le, drop_app_le by lia.
  rewrite bool_decide_eq_false_2 in * by lia.
  repeat (case_match; [done|]). zify_bools. inv_ok. cbn [total_len] in *.
  rewrite length_app, take_app_le by (rewrite length_drop in *; lia).
  rewrite bool_decide_eq_false_2 by lia.
  match goal with Hc : batch_crc _ _ _ _ = _ |- _ => by rewrite Hc, Z.eqb_refl end.
Qed.

Lemma validate_cut pre post v :
  validate (pre ++ post) = Ok v → (length pre < total_len v)%nat → ∃ e, validate pre = Err e.
Proof.
  intros H Hlt. destruct (validate pre) as [v'|e] eqn:Hp; [|by eexists].
  pose proof (validate_inv _ _ Hp) as (Hlen & _). apply (validate_app _ post) in Hp.
  rewrite H in Hp. simplify_eq. lia.
Qed.

(** What a successful decode tells about the frame. *)
Lemma decode_inv buf b rest :
  decode buf = Ok (b, rest) →
  ∃ v body rs, validate buf = Ok v ∧ rest = drop (total_len v) buf ∧ b = of_header (header v) rs ∧
    decompress_body B output_limit
      (Attributes.compression (Header.attributes (header v))) (raw_body v) = Ok body ∧
    (Header.records_count (header v) <? 0) = false ∧
    parse_records true (Z.to_nat (Header.records_count (header v))) body = Ok (rs, []).
Proof.
  rewrite decode_frame. intros H. inv_ok. cbv zeta in *. case_match eqn:Hc; inv_ok.
  case_bool_decide; inv_ok. subst. by eexists _, _, _.
Qed.

(** And conversely. *)
Lemma decode_of_frame buf v body rs :
  validate buf = Ok v →
  decompress_body B output_limit
    (Attributes.compression (Header.attributes (header v))) (raw_body v) = Ok body →
  (Header.records_count (header v) <? 0) = false →
  parse_records true (Z.to_nat (Header.records_count (header v))) body = Ok (rs, []) →
  decode buf = Ok (of_header (header v) rs, drop (total_len v) buf).
Proof.
  intros Hv Hb Hc Hp. rewrite decode_frame, Hv. cbn [mbind result_bind].
  rewrite Hb. cbn [mbind result_bind]. rewrite Hc, Hp. done.
Qed.

Program Definition codec_store : BatchStore := {|
  batch_encode := encode_batch crc32c crc32c_append B;
  batch_decode := decode;
|}.
Next Obligation.
  intros b bs rest (v & body & rs & Hv & Hr & -> & Hb & Hc & Hp)%decode_inv.
  rewrite (decode_of_frame (bs ++ rest) v body rs); [|by apply validate_app|done..].
  do 2 f_equal. pose proof (validate_inv _ _ Hv) as (Hlen & _).
  apply (f_equal length) in Hr. rewrite length_drop in Hr. simpl in Hr.
  by rewrite drop_app_length' by lia.
Qed.
Next Obligation.
  intros b pre post (v & body & rs & Hv & Hr & -> & Hb & Hc & Hp)%decode_inv Hne.
  destruct (validate_cut pre post v Hv) as [e He].
  - apply (f_equal length) in Hr. rewrite length_drop, length_app in Hr. simpl in Hr.
    destruct post; [done|]. simpl in *. lia.
  - exists e. by rewrite decode_frame, He.
Qed.
Next Obligation.
  intros b bs (v & body & rs & Hv & Hr & -> & Hb & Hc & Hp)%decode_inv.
  pose proof (validate_inv _ _ Hv) as (Hlen & Hh & Ht). unfold header_for, Header.HEADER_LEN.
  rewrite <- Hh. apply (f_equal length) in Hr. rewrite length_drop in Hr. simpl in Hr.
  split_and!; try done; lia.
Qed.
Next Obligation.
  intros b bs bs' o e Ho He (v & body & rs & Hv & Hr & -> & Hb & Hc & Hp)%decode_inv Hpatch.
  pose proof (validate_patched crc32c crc32c_append _ _ _ _ _ Ho He Hv Hpatch) as Hv'.
  rewrite (decode_of_frame bs' _ body rs Hv'); [|done..].
  pose proof (ref_from_patched _ _ _ _ Ho He Hpatch) as (_ & _ & Hl).
  pose proof (validate_inv _ _ Hv') as (Hlen & _). cbn [total_len] in *.
  apply (f_equal length) in Hr. rewrite length_drop in Hr. simpl in Hr.
  rewrite drop_ge by lia. done.
Qed.
End Discharge.
