(* ===== verification/LogIndex.v ===== *)
(** * Segment index files

    Models [crates/log/src/index.rs] (the sparse offset and time indexes),
    [crates/log/src/txn_index.rs] (aborted transactions) and the lookup kernel
    of [crates/verified/src/log_index.rs].  A file is its list of bytes; I/O
    errors are not modelled.  [slice::binary_search_by_key] is an interface
    with its documented contract, which leaves open which of several equal keys
    is found. *)

From S2P Require Import Prelude Wire.
Import Fixed.

(** ** Fixed-width rows *)
Section Rows.
Context {A : Type} (width : nat) (dec : list byte → A) (enc : A → list byte).

(** [<[Raw]>::ref_from_bytes] of the whole rows of a file. *)
Definition parse_rows (file : list byte) : list A :=
  (fun i => dec (take width (drop (i * width) file))) <$> seq 0 (length file / width).

Context (width_pos : (0 < width)%nat) (len_enc : ∀ a, length (enc a) = width).

Lemma length_rows l : length (concat (enc <$> l)) = (length l * width)%nat.
Proof.
  induction l as [|a l IH]; [done|]. rewrite fmap_cons. cbn [concat length].
  rewrite length_app, len_enc, IH. lia.
Qed.

(** What was written row by row is read back, with or without a torn last row. *)
Lemma parse_rows_concat l torn :
  Forall (fun a => dec (enc a) = a) l → (length torn < width)%nat →
  parse_rows (concat (enc <$> l) ++ torn) = l.
Proof.
  intros Hdec Ht. unfold parse_rows. rewrite length_app, length_rows.
  rewrite Nat.div_add_l, (Nat.div_small (length torn)), Nat.add_0_r by lia.
  apply list_eq. intros i. rewrite list_lookup_fmap.
  destruct (decide (i < length l)%nat) as [Hi|Hi].
  2: { rewrite lookup_seq_ge by lia. symmetry. apply lookup_ge_None. lia. }
  rewrite lookup_seq_lt by lia. simpl. destruct (lookup_lt_is_Some_2 l i Hi) as [a Ha].
  rewrite Ha. f_equal. rewrite <- (take_drop_middle l i a Ha) at 1.
  rewrite fmap_app, concat_app, fmap_cons. cbn [concat]. rewrite <- !(assoc_L (++)).
  rewrite drop_app_length' by (rewrite length_rows, length_take; lia).
  rewrite take_app_length' by (by rewrite len_enc).
  rewrite Forall_forall in Hdec. apply Hdec. by eapply list_elem_of_lookup_2.
Qed.
End Rows.

(** [File::set_len]. *)
Definition set_len (n : nat) (file : list byte) : list byte :=
  take n file ++ replicate (n - length file) x00.

(** The loop of both [open]s: rows up to the first whose key does not increase. *)
Fixpoint increasing_prefix {A} (key : A → Z) (last : option Z) (rows : list A) : list A :=
  match rows with
  | [] => []
  | r :: rows =>
      match last with
      | Some k => if key r <=? k then [] else r :: increasing_prefix key (Some (key r)) rows
      | None => r :: increasing_prefix key (Some (key r)) rows
      end
  end.

(** ** verified/src/log_index.rs *)
(** The search loop; [fuel] bounds the interval [hi - lo]. *)
Fixpoint search_loop (fuel : nat) (entries : list (Z * Z)) (target : Z) (lo hi : nat) : nat :=
  match fuel with
  | O => lo
  | S fuel =>
      if (lo <? hi)%nat then
        let mid := (lo + (hi - lo) / 2)%nat in
        match entries !! mid with
        | Some (rel, _) =>
            if rel <=? target then search_loop fuel entries target (S mid) hi
            else search_loop fuel entries target lo mid
        | None => lo
        end
      else lo
  end.
Definition offset_index_lookup (entries : list (Z * Z)) (target : Z) : Z :=
  let lo := search_loop (length entries) entries target 0 (length entries) in
  match lo with
  | O => 0
  | S i => match entries !! i with Some (_, pos) => pos | None => 0 end
  end.

(** ** Searching a sorted slice
    [Ok i] is some position of the key, [Err i] where it would be inserted. *)
Class BinarySearch : Type := {
  binary_search : list Z → Z → result nat nat;
  binary_search_found l k i :
    StronglySorted Z.le l → binary_search l k = Ok i → l !! i = Some k;
  binary_search_missing l k i :
    StronglySorted Z.le l → binary_search l k = Err i →
    (∀ j x, l !! j = Some x → (j < i)%nat → x < k) ∧
    (∀ j x, l !! j = Some x → (i ≤ j)%nat → k < x);
}.

(** One search that meets the contract: the first position not below the key. *)
Definition lower_bound (l : list Z) (k : Z) : result nat nat :=
  let i := length (take_while (fun x => x <? k) l) in
  if decide (l !! i = Some k) then Ok i else Err i.

Program Definition lower_bound_search : BinarySearch := {| binary_search := lower_bound |}.
Next Obligation. intros l k i _. unfold lower_bound. cbv zeta. case_decide; [by intros [= <-]|done]. Qed.
Next Obligation.
  intros l k i Hs. unfold lower_bound. cbv zeta. case_decide as Hne; [done|]. intros [= <-].
  destruct (take_while_prefix (fun x => x <? k) l) as (rest & Hl & Hlt & Hge).
  set (pre := take_while _ _) in *. clearbody pre. subst l. split; intros j x Hj Hji.
  - rewrite lookup_app_l in Hj by done. rewrite Forall_lookup in Hlt. specialize (Hlt _ _ Hj). simpl in Hlt. lia.
  - rewrite lookup_app_r in Hne, Hj by lia. rewrite Nat.sub_diag in Hne.
    apply StronglySorted_app_1_r in Hs. destruct rest as [|y rest]; [done|]. simpl in *.
    assert (k < y) by (zify_bools; assert (y ≠ k) by congruence; lia).
    destruct (j - length pre)%nat as [|j']; simplify_eq/=; [done|].
    apply StronglySorted_inv in Hs as [_ Hs]. rewrite Forall_lookup in Hs. specialize (Hs _ _ Hj). lia.
Qed.

(** ** index.rs: [OffsetIndex] *)
Module OffsetIndex.
Definition OFFSET_ENTRY_SIZE : nat := 8.
Record t : Type := mkOffsetIndex {
  file : list byte;
  entries : list (Z * Z);
}.
Definition raw (e : Z * Z) : list byte := put_u32 e.1 ++ put_u32 e.2.
Definition of_raw (l : list byte) : Z * Z := (be_value (take 4 l), be_value (take 4 (drop 4 l))).

Definition open (file : list byte) : t :=
  mkOffsetIndex file (increasing_prefix snd None (parse_rows OFFSET_ENTRY_SIZE of_raw file)).
Definition append (ix : t) (relative_offset position : Z) : t :=
  mkOffsetIndex (file ix ++ raw (relative_offset, position))
    (entries ix ++ [(relative_offset, position)]).
Definition lookup (ix : t) (target : Z) : Z := offset_index_lookup (entries ix) target.
Definition truncate_by_position (ix : t) (max_position_exclusive : Z) : t :=
  let kept := take_while (fun e => e.2 <? max_position_exclusive) (entries ix) in
  mkOffsetIndex (set_len (length kept * OFFSET_ENTRY_SIZE) (file ix)) kept.
Definition last_entry (ix : t) : option (Z * Z) := last (entries ix).

Section Search.
Context `{BinarySearch}.
Definition position_at_or_after (ix : t) (target : Z) : option Z :=
  match binary_search (entries ix).*1 target with
  | Ok i | Err i => snd <$> entries ix !! i
  end.
End Search.
End OffsetIndex.

(** ** index.rs: [TimeIndex] *)
Module TimeIndex.
Definition TIME_ENTRY_SIZE : nat := 12.
Record t : Type := mkTimeIndex {
  file : list byte;
  entries : list (Z * Z);
}.
Definition raw (e : Z * Z) : list byte := put_i64 e.1 ++ put_u32 e.2.
Definition of_raw (l : list byte) : Z * Z :=
  (wrap_s 64 (be_value (take 8 l)), be_value (take 4 (drop 8 l))).

Definition open (file : list byte) : t :=
  mkTimeIndex file (increasing_prefix snd None (parse_rows TIME_ENTRY_SIZE of_raw file)).
Definition append (ix : t) (timestamp relative_offset : Z) : t :=
  mkTimeIndex (file ix ++ raw (timestamp, relative_offset))
    (entries ix ++ [(timestamp, relative_offset)]).
Definition truncate_by_relative_offset (ix : t) (max_rel_exclusive : Z) : t :=
  let kept := take_while (fun e => e.2 <? max_rel_exclusive) (entries ix) in
  mkTimeIndex (set_len (length kept * TIME_ENTRY_SIZE) (file ix)) kept.

Section Search.
Context `{BinarySearch}.
(** [self.entries[i].1] *)
Definition rel_at (ix : t) (i : nat) : Z :=
  match entries ix !! i with Some (_, rel) => rel | None => 0 end.
Definition lookup (ix : t) (target_timestamp : Z) : Z :=
  match binary_search (entries ix).*1 target_timestamp with
  | Ok i => rel_at ix i
  | Err O => 0
  | Err (S i) => rel_at ix i
  end.
End Search.
End TimeIndex.

(** ** txn_index.rs *)
Module TxnIndex.
Definition ENTRY_BYTES : nat := 24.
Record AbortedTxn : Type := mkAborted {
  start_offset : Z;
  last_offset : Z;
  producer_id : Z;
}.
Record t : Type := mkTxnIndex {
  file : list byte;
  entries : list AbortedTxn;
}.
Definition raw (e : AbortedTxn) : list byte :=
  put_i64 (start_offset e) ++ put_i64 (last_offset e) ++ put_i64 (producer_id e).
Definition of_raw (l : list byte) : AbortedTxn :=
  mkAborted (wrap_s 64 (be_value (take 8 l))) (wrap_s 64 (be_value (take 8 (drop 8 l))))
    (wrap_s 64 (be_value (take 8 (drop 16 l)))).

(** A missing file is [None]; [Err] is [LogError::Corrupt]. *)
Definition open (file : option (list byte)) : result unit t :=
  match file with
  | None => Ok (mkTxnIndex [] [])
  | Some bytes =>
      if negb (length bytes mod ENTRY_BYTES =? 0)%nat then Err tt
      else Ok (mkTxnIndex bytes (parse_rows ENTRY_BYTES of_raw bytes))
  end.
Definition append (ix : t) (e : AbortedTxn) : t :=
  mkTxnIndex (file ix ++ raw e) (entries ix ++ [e]).
Definition aborted_in_range (ix : t) (start_ end_ : Z) : list AbortedTxn :=
  filter (fun e => start_offset e < end_ ∧ start_ ≤ last_offset e) (entries ix).
End TxnIndex.

(** ** Facts *)
Lemma length_raw_offset e : length (OffsetIndex.raw e) = OffsetIndex.OFFSET_ENTRY_SIZE.
Proof. unfold OffsetIndex.raw. by autorewrite with wire. Qed.
Lemma length_raw_time e : length (TimeIndex.raw e) = TimeIndex.TIME_ENTRY_SIZE.
Proof. unfold TimeIndex.raw. by autorewrite with wire. Qed.
Lemma length_raw_txn e : length (TxnIndex.raw e) = TxnIndex.ENTRY_BYTES.
Proof. unfold TxnIndex.raw. by autorewrite with wire. Qed.

Lemma of_raw_offset e : in_u 32 e.1 → in_u 32 e.2 → OffsetIndex.of_raw (OffsetIndex.raw e) = e.
Proof.
  destruct e as [r p]. intros Hr Hp. unfold OffsetIndex.of_raw, OffsetIndex.raw. simpl fst. simpl snd.
  rewrite take_app_length', drop_app_length' by (by rewrite length_put_u32).
  rewrite take_ge by (by rewrite length_put_u32).
  unfold put_u32. rewrite !be_value_bytes. f_equal; by apply wrap_u_id.
Qed.

Lemma of_raw_time e : in_s 64 e.1 → in_u 32 e.2 → TimeIndex.of_raw (TimeIndex.raw e) = e.
Proof.
  destruct e as [r p]. intros Hr Hp. unfold TimeIndex.of_raw, TimeIndex.raw. simpl fst. simpl snd.
  rewrite take_app_length', drop_app_length' by (by rewrite length_put_i64).
  rewrite take_ge by (by rewrite length_put_u32).
  unfold put_u32, put_i64. rewrite !be_value_bytes.
  f_equal; [by apply wrap_s_wrap_u|by apply wrap_u_id].
Qed.

(** *** The kernel *)
(** The entries at or below the target, as a prefix of a sorted index. *)
Definition at_or_below (target : Z) (entries : list (Z * Z)) : list (Z * Z) :=
  take_while (fun e => e.1 <=? target) entries.

Lemma search_loop_spec fuel entries target lo hi :
  ascending fst entries → (hi - lo ≤ fuel)%nat → (lo ≤ hi ≤ length entries)%nat →
  (∀ i e, entries !! i = Some e → (i < lo)%nat → e.1 ≤ target) →
  (∀ i e, entries !! i = Some e → (hi ≤ i)%nat → target < e.1) →
  let n := search_loop fuel entries target lo hi in
  (n ≤ length entries)%nat ∧
  (∀ i e, entries !! i = Some e → (i < n)%nat → e.1 ≤ target) ∧
  (∀ i e, entries !! i = Some e → (n ≤ i)%nat → target < e.1).
Proof.
  intros Hs. revert lo hi. induction fuel as [|fuel IH]; intros lo hi Hf Hr Hlo Hhi; cbn [search_loop].
  { assert (lo = hi) as -> by lia. split_and!; try done; lia. }
  destruct (Nat.ltb_spec lo hi); [|split_and!; try done; [lia|intros; eapply Hhi; eauto; lia]].
  pose proof (Nat.div_lt (hi - lo) 2 ltac:(lia) ltac:(lia)) as Hmid. cbv zeta.
  set (mid := (lo + (hi - lo) / 2)%nat) in *.
  destruct (lookup_lt_is_Some_2 entries mid ltac:(lia)) as [[rel pos] Hm]. rewrite Hm.
  destruct (Z.leb_spec rel target); apply IH; try lia; try done.
  - intros i e Hi Hlt. destruct (decide (i = mid)) as [->|]; [by simplify_eq|].
    pose proof (sorted_lookup _ _ i mid _ _ Hs Hi Hm ltac:(lia)). simpl in *. lia.
  - intros i e Hi Hge. destruct (decide (i = mid)) as [->|]; [by simplify_eq|].
    pose proof (sorted_lookup _ _ mid i _ _ Hs Hm Hi ltac:(lia)). simpl in *. lia.
Qed.

Lemma offset_index_lookup_spec entries target :
  ascending fst entries →
  offset_index_lookup entries target =
  match last (at_or_below target entries) with Some e => e.2 | None => 0 end.
Proof.
  intros Hs. unfold offset_index_lookup.
  destruct (search_loop_spec (length entries) entries target 0 (length entries) Hs)
    as (Hn & Hlo & Hhi); try lia.
  { intros i e Hi Hge. apply lookup_lt_Some in Hi. lia. }
  set (n := search_loop _ _ _ _ _) in *. clearbody n.
  unfold at_or_below. rewrite (take_while_take _ entries n); [|done| |].
  - destruct n as [|i]; [by rewrite take_0|]. rewrite last_lookup, length_take.
    rewrite Nat.min_l by lia. cbn [pred]. rewrite lookup_take_lt by lia.
    by destruct (lookup_lt_is_Some_2 entries i ltac:(lia)) as [[rel pos] ->].
  - intros i e Hi Hlt. apply Z.leb_le. by eapply Hlo.
  - intros e Hi. apply Z.leb_gt. by eapply Hhi.
Qed.

(** *** Files and memory agree *)
(** An offset index whose file holds exactly its entries. *)
Record offset_faithful (ix : OffsetIndex.t) : Prop := {
  of_file : OffsetIndex.file ix = concat (OffsetIndex.raw <$> OffsetIndex.entries ix);
  of_rel : ascending fst (OffsetIndex.entries ix);
  of_pos : ascending snd (OffsetIndex.entries ix);
  of_range : Forall (fun e => in_u 32 e.1 ∧ in_u 32 e.2) (OffsetIndex.entries ix);
}.

Lemma increasing_prefix_all {A} (key : A → Z) last l :
  ascending key l → (∀ k x, last = Some k → head l = Some x → k < key x) →
  increasing_prefix key last l = l.
Proof.
  intros Hs. revert last. induction Hs as [|x l Hs IH Hx]; intros last Hl; [done|]. simpl.
  rewrite IH.
  - destruct last as [k|]; [|done]. pose proof (Hl k x eq_refl eq_refl).
    by rewrite (proj2 (Z.leb_gt _ _)).
  - intros k y [= <-] Hy. destruct l as [|z l]; [done|]. injection Hy as ->.
    rewrite Forall_cons in Hx. by destruct Hx.
Qed.

Lemma offset_faithful_append ix rel pos :
  offset_faithful ix → in_u 32 rel → in_u 32 pos →
  (∀ r p, OffsetIndex.last_entry ix = Some (r, p) → r < rel ∧ p < pos) →
  offset_faithful (OffsetIndex.append ix rel pos).
Proof.
  intros [H1 H2 H3 H4] Hr Hp Hlast. split; simpl.
  - by rewrite H1, fmap_app, concat_app, fmap_cons; cbn [fmap list_fmap concat]; rewrite app_nil_r.
  - apply ascending_snoc; [done|]. intros [r p] H%Hlast. apply H.
  - apply ascending_snoc; [done|]. intros [r p] H%Hlast. apply H.
  - apply Forall_app. split; [done|]. by apply Forall_singleton.
Qed.

Lemma offset_faithful_truncate ix max :
  offset_faithful ix → offset_faithful (OffsetIndex.truncate_by_position ix max).
Proof.
  intros [H1 H2 H3 H4]. unfold OffsetIndex.truncate_by_position.
  destruct (take_while_prefix (fun e => e.2 <? max) (OffsetIndex.entries ix)) as (rest & Hl & _ & _).
  set (kept := take_while _ _) in *. clearbody kept. rewrite Hl in H1, H2, H3, H4.
  split; cbn [OffsetIndex.file OffsetIndex.entries].
  - unfold set_len. rewrite H1, fmap_app, concat_app.
    pose proof (length_rows 8 OffsetIndex.raw ltac:(lia) length_raw_offset kept) as Hlen.
    rewrite take_app_length' by done. rewrite length_app, Hlen.
    replace (_ - _)%nat with 0%nat by (unfold OffsetIndex.OFFSET_ENTRY_SIZE; lia).
    by rewrite app_nil_r.
  - by apply StronglySorted_app_1_l in H2.
  - by apply StronglySorted_app_1_l in H3.
  - by apply Forall_app in H4 as [? _].
Qed.

Lemma offset_open_faithful ix torn :
  offset_faithful ix → (length torn < OffsetIndex.OFFSET_ENTRY_SIZE)%nat →
  OffsetIndex.entries (OffsetIndex.open (OffsetIndex.file ix ++ torn)) = OffsetIndex.entries ix.
Proof.
  intros [H1 H2 H3 H4] Ht. unfold OffsetIndex.open. simpl. rewrite H1.
  rewrite (parse_rows_concat 8 OffsetIndex.of_raw OffsetIndex.raw); [|lia|apply length_raw_offset| |done].
  - by apply increasing_prefix_all.
  - eapply Forall_impl; [exact H4|]. intros e [? ?]. by apply of_raw_offset.
Qed.

(** An offset index survives a restart: reopening its file, with or without
    a torn last row, gives back the same entries, and a lookup finds the
    position of the last entry at or below the target. *)
Theorem offset_index_reopen ix torn target :
  offset_faithful ix → (length torn < OffsetIndex.OFFSET_ENTRY_SIZE)%nat →
  let ix' := OffsetIndex.open (OffsetIndex.file ix ++ torn) in
  OffsetIndex.entries ix' = OffsetIndex.entries ix ∧
  OffsetIndex.lookup ix' target =
    match last (at_or_below target (OffsetIndex.entries ix)) with Some e => e.2 | None => 0 end.
Proof.
  intros Hf Ht. cbv zeta. pose proof (offset_open_faithful ix torn Hf Ht) as He. split; [done|].
  unfold OffsetIndex.lookup. rewrite He. apply offset_index_lookup_spec, Hf.
Qed.

Definition sample_index : OffsetIndex.t :=
  OffsetIndex.append (OffsetIndex.append (OffsetIndex.append (OffsetIndex.open []) 0 0) 100 4096)
    200 8192.

Lemma sample_index_faithful : offset_faithful sample_index.
Proof.
  unfold sample_index. repeat apply offset_faithful_append; try (unfold in_u; lia); try done.
  - by split; try constructor.
  - intros r p [= <- <-]. lia.
  - intros r p [= <- <-]. lia.
Qed.

Lemma offset_index_reopen_witness :
  OffsetIndex.lookup (OffsetIndex.open (OffsetIndex.file sample_index ++ [x00; x00; x07])) 150 = 4096.
Proof.
  destruct (offset_index_reopen sample_index [x00; x00; x07] 150) as [_ H];
    [apply sample_index_faithful|by vm_compute; lia|]. by rewrite H.
Defined.

(** A torn row is only harmless until the next append: [open] drops it from
    memory but leaves it in the file, [append] writes behind it, and the next
    [open] reads rows that straddle the two.  Here the entry (200, 8192) comes
    back as (0, 200), so reads past offset 100 start at a position that is no
    batch boundary. *)
Theorem torn_index_row_misaligns :
  let ix := OffsetIndex.append (OffsetIndex.open []) 0 0 in
  let torn := OffsetIndex.open (OffsetIndex.file ix ++ [x00; x00; x00; x00]) in
  let again := OffsetIndex.open (OffsetIndex.file (OffsetIndex.append torn 200 8192)) in
  OffsetIndex.entries (OffsetIndex.append torn 200 8192) = [(0, 0); (200, 8192)] ∧
  OffsetIndex.entries again = [(0, 0); (0, 200)] ∧
  OffsetIndex.lookup again 100 = 200.
Proof. by vm_compute. Qed.

(** *** Aborted transactions *)
Lemma of_raw_txn e :
  in_s 64 (TxnIndex.start_offset e) → in_s 64 (TxnIndex.last_offset e) →
  in_s 64 (TxnIndex.producer_id e) → TxnIndex.of_raw (TxnIndex.raw e) = e.
Proof.
  destruct e as [a b c]. intros Ha Hb Hc. unfold TxnIndex.of_raw, TxnIndex.raw.
  cbn [TxnIndex.start_offset TxnIndex.last_offset TxnIndex.producer_id] in *.
  change 16%nat with (8 + 8)%nat. rewrite <- drop_drop.
  rewrite !drop_app_length', !take_app_length' by (by rewrite length_put_i64).
  rewrite take_ge by (by rewrite length_put_i64).
  unfold put_i64. rewrite !be_value_bytes. f_equal; by apply wrap_s_wrap_u.
Qed.

(** The aborted-transaction index survives a restart, and a query returns
    exactly the transactions that share an offset with the queried range. *)
Theorem txn_index_reopen_and_query entries e start_ end_ :
  Forall (fun e => in_s 64 (TxnIndex.start_offset e) ∧ in_s 64 (TxnIndex.last_offset e) ∧
                   in_s 64 (TxnIndex.producer_id e) ∧
                   TxnIndex.start_offset e ≤ TxnIndex.last_offset e) entries →
  start_ < end_ →
  let ix := foldl TxnIndex.append (TxnIndex.mkTxnIndex [] []) entries in
  TxnIndex.open (Some (TxnIndex.file ix)) = Ok ix ∧
  (e ∈ TxnIndex.aborted_in_range ix start_ end_ ↔
   e ∈ entries ∧ ∃ o, start_ ≤ o < end_ ∧
     TxnIndex.start_offset e ≤ o ≤ TxnIndex.last_offset e).
Proof.
  intros Hv Hse. cbv zeta.
  assert (∀ ix, foldl TxnIndex.append ix entries =
    TxnIndex.mkTxnIndex (TxnIndex.file ix ++ concat (TxnIndex.raw <$> entries))
      (TxnIndex.entries ix ++ entries)) as Hfold.
  { clear. induction entries as [|x l IH]; intros [f es]; simpl; [by rewrite !app_nil_r|].
    rewrite IH. simpl. by rewrite <- !(assoc_L (++)). }
  rewrite Hfold. cbn [TxnIndex.file TxnIndex.entries app]. split.
  - unfold TxnIndex.open, TxnIndex.ENTRY_BYTES.
    rewrite (length_rows 24 TxnIndex.raw ltac:(lia) length_raw_txn), Nat.Div0.mod_mul.
    cbn [Nat.eqb negb]. do 2 f_equal. rewrite <- (app_nil_r (concat _)).
    rewrite (parse_rows_concat 24 TxnIndex.of_raw TxnIndex.raw); [done|lia|apply length_raw_txn| |simpl; lia].
    eapply Forall_impl; [exact Hv|]. intros x (? & ? & ? & _). by apply of_raw_txn.
  - unfold TxnIndex.aborted_in_range. rewrite list_elem_of_filter. simpl. split.
    + intros [[H1 H2] Hin]. split; [done|]. rewrite Forall_forall in Hv. specialize (Hv e Hin).
      exists (Z.max start_ (TxnIndex.start_offset e)). lia.
    + intros (Hin & o & H1 & H2). split; [lia|done].
Qed.

Lemma txn_index_reopen_and_query_witness :
  TxnIndex.mkAborted 5 9 42 ∈
    TxnIndex.aborted_in_range
      (foldl TxnIndex.append (TxnIndex.mkTxnIndex [] []) [TxnIndex.mkAborted 5 9 42]) 8 12.
Proof.
  apply (txn_index_reopen_and_query [TxnIndex.mkAborted 5 9 42] (TxnIndex.mkAborted 5 9 42) 8 12).
  - apply Forall_singleton. unfold in_s. simpl. lia.
  - lia.
  - split; [by left|]. exists 8. simpl. lia.
Defined.
