(* ===== verification/Segment.v ===== *)
(** * Log segments

    Models [crates/log/src/segment.rs]: one segment with its [.log] file, its
    sparse offset index and its time index.  The file is its bytes, and
    [log_size] their number, which every operation of the source keeps equal.
    Operations that fail half-way return the state they leave behind.  I/O
    errors are not modelled.  Sums of [i64] fields wrap, as in a release build.

    Batches are read and written through [BatchStore], and sorted slices
    searched through [BinarySearch]. *)

From S2P Require Import Prelude Wire Records Batches BatchStore LogIndex.

Inductive LogError : Type :=
| Io
| OffsetTooLow (requested log_start : Z)
| OffsetMismatch (expected actual : Z)
| InvalidArgument (why : string)
| RecordsFailed (e : RecordsError)
| BadSegmentName (why : string)
| Corrupt (why : string).

Record Segment : Type := mkSegment {
  base_offset : Z;
  log_file : list byte;
  offset_index : OffsetIndex.t;
  time_index : TimeIndex.t;
  sealed : bool;
  max_timestamp : Z;
  last_offset : Z;
}.
Definition I64_MIN : Z := - 2 ^ 63.
Definition log_size (s : Segment) : nat := length (log_file s).

Record RawSegmentRead : Type := mkRaw {
  start_offset : Z;
  raw_last_offset : Z;
  bytes : list byte;
}.
Definition raw_empty : RawSegmentRead := mkRaw 0 (-1) [].
Definition raw_is_empty (r : RawSegmentRead) : bool := bool_decide (bytes r = []).

(** [FileRegion] of the segment's own file: position and length. *)
Record RawSegmentDesc : Type := mkDesc {
  desc_start_offset : Z;
  desc_last_offset : Z;
  region : option (nat * nat);
}.
Definition desc_empty : RawSegmentDesc := mkDesc 0 (-1) None.
Definition desc_len (d : RawSegmentDesc) : nat :=
  match region d with Some (_, len) => len | None => 0%nat end.

(** The offset of a batch's last record. *)
Definition batch_last (b : Batch.RecordBatch) : Z :=
  wrap_s 64 (Batch.base_offset b + Batch.last_offset_delta b).

Section Segment.
Context {store : BatchStore} {search : BinarySearch}.

(** ** Opening *)
Definition create (base : Z) : Segment :=
  mkSegment base [] (OffsetIndex.open []) (TimeIndex.open []) false I64_MIN (base - 1).
Definition open (base : Z) (log index timeindex : list byte) : Segment :=
  mkSegment base log (OffsetIndex.open index) (TimeIndex.open timeindex) false I64_MIN (base - 1).

(** Decode batches from the front of [cur] until one fails, the buffer is used
    up, or [f] asks to stop.  A batch takes at least a byte, so the length of
    the buffer is enough fuel. *)
Fixpoint scan {A} (fuel : nat) (f : A → Batch.RecordBatch → nat → A * bool) (st : A)
    (cur : list byte) : A :=
  match fuel with
  | O => st
  | S fuel =>
      match cur with
      | [] => st
      | _ =>
          match batch_decode cur with
          | Err _ => st
          | Ok (b, rest) =>
              let '(st, go) := f st b (length cur - length rest)%nat in
              if go then scan fuel f st rest else st
          end
      end
  end.
Definition scan_batches {A} (f : A → Batch.RecordBatch → nat → A * bool) (st : A) (buf : list byte) : A :=
  scan (length buf) f st buf.

Definition read_log_range (s : Segment) (start_pos : nat) (max_bytes : Z) : list byte :=
  let to_read := Z.min (Z.of_nat (log_size s - start_pos)) max_bytes in
  take (Z.to_nat to_read) (drop start_pos (log_file s)).

Definition set_log (log : list byte) (s : Segment) : Segment :=
  mkSegment (base_offset s) log (offset_index s) (time_index s) (sealed s) (max_timestamp s)
    (last_offset s).
Definition set_ends (last_ts last_off : Z) (s : Segment) : Segment :=
  mkSegment (base_offset s) (log_file s) (offset_index s) (time_index s) (sealed s) last_ts last_off.
Definition set_indexes (oi : OffsetIndex.t) (ti : TimeIndex.t) (s : Segment) : Segment :=
  mkSegment (base_offset s) (log_file s) oi ti (sealed s) (max_timestamp s) (last_offset s).
Definition set_sealed (b : bool) (s : Segment) : Segment :=
  mkSegment (base_offset s) (log_file s) (offset_index s) (time_index s) b (max_timestamp s)
    (last_offset s).

Definition recover_active_tail (s : Segment) : Segment :=
  let scan_start := match OffsetIndex.last_entry (offset_index s) with
                    | Some (_, pos) => Z.to_nat pos | None => 0%nat end in
  if bool_decide (log_size s ≤ scan_start)%nat then s else
  let buf := read_log_range s scan_start (Z.of_nat (log_size s - scan_start)) in
  let '(consumed, last_off, max_ts) :=
    scan_batches (fun '(consumed, last_off, max_ts) b n =>
                    ((consumed + n, batch_last b, Z.max max_ts (Batch.max_timestamp b))%nat, true))
      (0%nat, last_offset s, max_timestamp s) buf in
  let valid_end := (scan_start + consumed)%nat in
  let log := if bool_decide (valid_end < log_size s)%nat
             then set_len valid_end (log_file s) else log_file s in
  set_ends max_ts last_off (set_log log s).
Definition open_active (base : Z) (log index timeindex : list byte) (validate : bool) : Segment :=
  let s := open base log index timeindex in
  if validate then recover_active_tail s else s.

(** ** Reading *)
(** [u32::try_from((offset - base_offset).max(0))] *)
Definition target_rel (s : Segment) (offset : Z) : option Z :=
  let d := Z.max (wrap_s 64 (offset - base_offset s)) 0 in
  if d <? 2 ^ 32 then Some d else None.
Definition start_position (s : Segment) (rel : Z) : nat :=
  Z.to_nat (OffsetIndex.lookup (offset_index s) rel).

Definition read (s : Segment) (offset : Z) (max_bytes : Z) : result LogError (list Batch.RecordBatch) :=
  if last_offset s <? offset then Ok [] else
  match target_rel s offset with
  | None => Err (BadSegmentName "target offset out of range")
  | Some rel =>
      let buf := read_log_range s (start_position s rel) max_bytes in
      Ok (scan_batches (fun '(out, total) b consumed =>
            if offset <=? batch_last b
            then let total := (total + consumed)%nat in
                 ((out ++ [b], total), Z.of_nat total <? max_bytes)
            else ((out, total), true)) ([], 0%nat) buf).1
  end.

(** The header at [pos] of [buf]: base offset, last offset and total length. *)
Definition header_at (buf : list byte) (pos : nat) : Z * Z * nat :=
  let h := Header.ref_from_bytes (take Header.HEADER_LEN (drop pos buf)) in
  (Header.base_offset h, wrap_s 64 (Header.base_offset h + Header.last_offset_delta h),
   (12 + Z.to_nat (Z.max (Header.batch_length h) 0))%nat).

(** What the boundary walk of [read_raw] leaves behind: nothing, a range of the
    buffer, or one oversized batch that has to be read again. *)
Inductive Walk : Type :=
| WalkRange (range : option nat) (range_end : nat) (start_off last_off : Z)
| WalkOne (pos total : nat) (base last : Z).

Section Walk.
Context (fetch_offset limit_offset max_bytes : Z).
Fixpoint raw_walk (fuel : nat) (buf : list byte) (pos : nat) (range : option nat)
    (range_end : nat) (start_off last_off : Z) : Walk :=
  match fuel with
  | O => WalkRange range range_end start_off last_off
  | S fuel =>
      if bool_decide (length buf < pos + Header.HEADER_LEN)%nat
      then WalkRange range range_end start_off last_off else
      let '(base, last, total) := header_at buf pos in
      if last <? fetch_offset
      then raw_walk fuel buf (pos + total) range range_end start_off last_off else
      if limit_offset <=? base then WalkRange range range_end start_off last_off else
      if bool_decide (length buf < pos + total)%nat then
        match range with
        | None => WalkOne pos total base last
        | Some _ => WalkRange range range_end start_off last_off
        end
      else
      let start_off := match range with None => base | Some _ => start_off end in
      let s := match range with None => pos | Some s => s end in
      if max_bytes <=? Z.of_nat (pos + total - s)
      then WalkRange (Some s) (pos + total) start_off last
      else raw_walk fuel buf (pos + total) (Some s) (pos + total) start_off last
  end.
End Walk.

Definition read_raw (s : Segment) (fetch_offset limit_offset max_bytes : Z) :
    result LogError RawSegmentRead :=
  if (last_offset s <? fetch_offset) || (limit_offset <=? fetch_offset) then Ok raw_empty else
  match target_rel s fetch_offset with
  | None => Err (Corrupt "read_raw target offset out of range")
  | Some rel =>
      let start_pos := start_position s rel in
      let buf := read_log_range s start_pos (Z.max max_bytes (Z.of_nat Header.HEADER_LEN)) in
      match raw_walk fetch_offset limit_offset max_bytes (length buf) buf 0 None 0 fetch_offset
              (fetch_offset - 1) with
      | WalkOne pos total base last =>
          let one := read_log_range s (start_pos + pos) (Z.of_nat total) in
          if bool_decide (length one < total)%nat then Ok raw_empty
          else Ok (mkRaw base last one)
      | WalkRange (Some r) range_end start_off last_off =>
          Ok (mkRaw start_off last_off (take (range_end - r) (drop r buf)))
      | WalkRange None _ _ _ => Ok raw_empty
      end
  end.

(** The header-only walk: the same decisions over a [window] of the file from
    [start_pos]; each header is read from the file. *)
Section Desc.
Context (s : Segment) (start_pos window : nat) (fetch_offset limit_offset max_bytes : Z).
Definition desc_of (range : option nat) (range_end : nat) (start_off last_off : Z) : RawSegmentDesc :=
  match range with
  | Some r => mkDesc start_off last_off (Some (start_pos + r, range_end - r)%nat)
  | None => desc_empty
  end.
Fixpoint desc_walk (fuel pos : nat) (range : option nat) (range_end : nat)
    (start_off last_off : Z) : RawSegmentDesc :=
  match fuel with
  | O => desc_of range range_end start_off last_off
  | S fuel =>
      if bool_decide (window < pos + Header.HEADER_LEN)%nat
      then desc_of range range_end start_off last_off else
      let hdr_buf := take Header.HEADER_LEN (drop (start_pos + pos) (log_file s)) in
      if bool_decide (length hdr_buf < Header.HEADER_LEN)%nat
      then desc_of range range_end start_off last_off else
      let '(base, last, total) := header_at hdr_buf 0 in
      if last <? fetch_offset
      then desc_walk fuel (pos + total) range range_end start_off last_off else
      if limit_offset <=? base then desc_of range range_end start_off last_off else
      if bool_decide (window < pos + total)%nat then
        match range with
        | None => if bool_decide (log_size s < start_pos + pos + total)%nat then desc_empty
                  else mkDesc base last (Some (start_pos + pos, total)%nat)
        | Some _ => desc_of range range_end start_off last_off
        end
      else
      let start_off := match range with None => base | Some _ => start_off end in
      let r := match range with None => pos | Some r => r end in
      if max_bytes <=? Z.of_nat (pos + total - r)
      then desc_of (Some r) (pos + total) start_off last
      else desc_walk fuel (pos + total) (Some r) (pos + total) start_off last
  end.
End Desc.

Definition read_raw_desc (s : Segment) (fetch_offset limit_offset max_bytes : Z) :
    result LogError RawSegmentDesc :=
  if (last_offset s <? fetch_offset) || (limit_offset <=? fetch_offset) then Ok desc_empty else
  match target_rel s fetch_offset with
  | None => Err (Corrupt "read_raw_desc target offset out of range")
  | Some rel =>
      let start_pos := start_position s rel in
      let first_read := Z.max max_bytes (Z.of_nat Header.HEADER_LEN) in
      let available := Z.of_nat (log_size s - start_pos) in
      let window := Z.to_nat (Z.min first_read available) in
      Ok (desc_walk s start_pos window fetch_offset limit_offset max_bytes window 0 None 0
            fetch_offset (fetch_offset - 1))
  end.

(** ** Appending *)
Definition should_index (ix : OffsetIndex.t) (position : nat) (index_interval : Z) : bool :=
  match OffsetIndex.last_entry ix with
  | None => true
  | Some (_, last_pos) => index_interval <=? Z.max (Z.of_nat position - last_pos) 0
  end.

(** What both appends do once the bytes are in the file. *)
Definition account (s : Segment) (position : nat) (base last batch_max_ts index_interval : Z) :
    Segment * result LogError nat :=
  let s := set_ends (Z.max (max_timestamp s) batch_max_ts) last s in
  if should_index (offset_index s) position index_interval then
    let rel := wrap_s 64 (base - base_offset s) in
    if negb ((0 <=? rel) && (rel <? 2 ^ 32)) then (s, Err (BadSegmentName "offset overflow in segment")) else
    if 2 ^ 32 <=? Z.of_nat position then (s, Err (BadSegmentName "position overflow in segment")) else
    (set_indexes (OffsetIndex.append (offset_index s) rel (Z.of_nat position))
       (TimeIndex.append (time_index s) (max_timestamp s) rel) s, Ok position)
  else (s, Ok position).

Definition append (s : Segment) (batch : Batch.RecordBatch) (index_interval : Z) :
    Segment * result LogError nat :=
  if sealed s then (s, Err Io) else
  match batch_encode batch with
  | Err e => (s, Err (RecordsFailed e))
  | Ok bytes =>
      let position := log_size s in
      account (set_log (log_file s ++ bytes) s) position (Batch.base_offset batch)
        (batch_last batch) (Batch.max_timestamp batch) index_interval
  end.

Definition append_verbatim (s : Segment) (bytes : list byte) (base last_offset_delta batch_max_ts
    leader_epoch index_interval : Z) : Segment * result LogError nat :=
  if sealed s then (s, Err Io) else
  if bool_decide (length bytes < Header.HEADER_LEN)%nat
  then (s, Err (Corrupt "verbatim batch shorter than v2 header")) else
  match Header.patch_base_offset_and_leader_epoch (take Header.HEADER_LEN bytes) base leader_epoch with
  | None => (s, Err Io)
  | Some header =>
      let position := log_size s in
      account (set_log (log_file s ++ (header ++ drop Header.HEADER_LEN bytes)) s) position base
        (wrap_s 64 (base + last_offset_delta)) batch_max_ts index_interval
  end.

Definition seal (s : Segment) : Segment := set_sealed true s.
Definition seal_at (s : Segment) (last : Z) : Segment := set_sealed true (set_ends (max_timestamp s) last s).

(** ** Truncating *)
Definition truncate_to_relative (s : Segment) (rel : Z) : Segment * result LogError () :=
  let read_limit := match OffsetIndex.position_at_or_after (offset_index s) rel with
                    | Some pos => pos | None => Z.of_nat (log_size s) end in
  let buf := read_log_range s 0 read_limit in
  let target_abs := base_offset s + rel in
  let '(pos, last_kept_offset, last_kept_ts) :=
    scan_batches (fun '(pos, off, ts) b consumed =>
                    if target_abs <=? batch_last b then ((pos, off, ts), false)
                    else ((pos + consumed, batch_last b, Z.max ts (Batch.max_timestamp b))%nat, true))
      (0%nat, base_offset s - 1, I64_MIN) buf in
  let s := set_ends last_kept_ts last_kept_offset (set_log (set_len pos (log_file s)) s) in
  if 2 ^ 32 <=? Z.of_nat pos then (s, Err (BadSegmentName "position overflow")) else
  (set_sealed false
     (set_indexes (OffsetIndex.truncate_by_position (offset_index s) (Z.of_nat pos))
        (TimeIndex.truncate_by_relative_offset (time_index s) rel) s), Ok ()).

(** ** Timestamps *)
(** A record's offset and timestamp. *)
Definition stamp (b : Batch.RecordBatch) (r : Record) : Z * Z :=
  (wrap_s 64 (Batch.base_offset b + offset_delta r),
   wrap_s 64 (Batch.base_timestamp b + timestamp_delta r)).
Definition stamps (bs : list Batch.RecordBatch) : list (Z * Z) :=
  bs ≫= fun b => stamp b <$> Batch.records b.

(** The loops read windows of growing size; [None] when [fuel] runs out, and
    [Some] of what the source returns otherwise. *)
Fixpoint scan_from_floor_windowed (fuel : nat) (s : Segment) (pred : Z → bool) (cursor window : Z) :
    option (option (Z * Z)) :=
  match fuel with
  | O => None
  | S fuel =>
      if last_offset s <? cursor then Some None else
      match read s cursor window with
      | Err _ => Some None
      | Ok batches =>
          match last batches with
          | None => scan_from_floor_windowed fuel s pred cursor (window * 2)
          | Some b =>
              match list_find (fun r => pred r.2) (stamps batches) with
              | Some (_, r) => Some (Some r)
              | None => scan_from_floor_windowed fuel s pred (wrap_s 64 (batch_last b + 1)) window
              end
          end
      end
  end.
Definition offset_for_timestamp (fuel : nat) (s : Segment) (target_ts scan_window : Z) :
    option (option (Z * Z)) :=
  let scan_from := wrap_s 64 (base_offset s + TimeIndex.lookup (time_index s) target_ts) in
  scan_from_floor_windowed fuel s (fun ts => target_ts <=? ts) scan_from (Z.max scan_window 1).

(** The best so far, replaced only by a later timestamp. *)
Definition better (best : option (Z * Z)) (r : Z * Z) : option (Z * Z) :=
  match best with
  | Some b => if b.2 <? r.2 then Some r else best
  | None => Some r
  end.
Fixpoint scan_max_timestamp_windowed (fuel : nat) (s : Segment) (cursor window : Z)
    (best : option (Z * Z)) : option (option (Z * Z)) :=
  match fuel with
  | O => None
  | S fuel =>
      if last_offset s <? cursor then Some best else
      match read s cursor window with
      | Err _ => Some None
      | Ok batches =>
          match last batches with
          | None => scan_max_timestamp_windowed fuel s cursor (window * 2) best
          | Some b => scan_max_timestamp_windowed fuel s (wrap_s 64 (batch_last b + 1)) window
                        (foldl better best (stamps batches))
          end
      end
  end.
Definition offset_of_max_timestamp (fuel : nat) (s : Segment) (scan_window : Z) :
    option (option (Z * Z)) :=
  if max_timestamp s =? I64_MIN
  then scan_max_timestamp_windowed fuel s (base_offset s) (Z.max scan_window 1) None
  else
    let scan_from := wrap_s 64 (base_offset s + TimeIndex.lookup (time_index s) (max_timestamp s)) in
    scan_from_floor_windowed fuel s (fun ts => ts =? max_timestamp s) scan_from (Z.max scan_window 1).
End Segment.
