(* ===== verification/SegmentInv.v ===== *)
(** * What a segment holds

    The abstract content of a segment is the list of its batches with their
    stored bytes.  [holds] relates it to the files and the fields of [Segment.v];
    appending, truncating and recovering are proved to keep it, each with its
    effect on the list. *)

From S2P Require Import Prelude Wire Records Batches BatchStore LogIndex Segment.

Abbreviation Stored := (Batch.RecordBatch * list byte)%type.

Definition flat (l : list Stored) : list byte := concat l.*2.
(** The offset after the last batch of [l], [lo] when there is none. *)
Definition next_offset (lo : Z) (l : list Stored) : Z :=
  foldl (fun _ x => batch_last x.1 + 1) lo l.
(** Offsets run upwards from [lo], without overlap and within an [i64]. *)
Fixpoint ordered (lo : Z) (l : list Stored) : Prop :=
  match l with
  | [] => True
  | x :: l =>
      lo ≤ Batch.base_offset x.1 ≤ batch_last x.1 ∧
      in_s 64 (Batch.base_offset x.1 + Batch.last_offset_delta x.1) ∧
      ordered (batch_last x.1 + 1) l
  end.
Definition max_ts (l : list Stored) : Z :=
  foldl (fun ts x => Z.max ts (Batch.max_timestamp x.1)) I64_MIN l.

(** The batches that fit completely into the first [n] bytes. *)
Fixpoint fits (n : nat) (l : list Stored) : list Stored :=
  match l with
  | [] => []
  | x :: l => if bool_decide (length x.2 ≤ n)%nat then x :: fits (n - length x.2) l else []
  end.

(** An index entry for a batch: where it starts and its relative offset. *)
Definition points_at (base : Z) (l : list Stored) (e : Z * Z) : Prop :=
  ∃ l1 x l2, l = l1 ++ x :: l2 ∧
    e = (Batch.base_offset x.1 - base, Z.of_nat (length (flat l1))).

(** [scan] as it sees the batches themselves. *)
Fixpoint visit {A} (f : A → Batch.RecordBatch → nat → A * bool) (st : A) (l : list Stored) : A :=
  match l with
  | [] => st
  | x :: l => let '(st, go) := f st x.1 (length x.2) in if go then visit f st l else st
  end.

(** ** Lists of batches *)
Lemma flat_app l1 l2 : flat (l1 ++ l2) = flat l1 ++ flat l2.
Proof. unfold flat. by rewrite fmap_app, concat_app. Qed.

Lemma flat_cons x l : flat (x :: l) = x.2 ++ flat l.
Proof. done. Qed.

Lemma next_offset_app lo l1 l2 : next_offset lo (l1 ++ l2) = next_offset (next_offset lo l1) l2.
Proof. apply foldl_app. Qed.

Lemma ordered_app lo l1 l2 :
  ordered lo (l1 ++ l2) ↔ ordered lo l1 ∧ ordered (next_offset lo l1) l2.
Proof.
  revert lo. induction l1 as [|x l1 IH]; intros lo; simpl; [tauto|]. rewrite IH. unfold next_offset.
  simpl. tauto.
Qed.

Lemma ordered_next lo l : ordered lo l → lo ≤ next_offset lo l.
Proof.
  revert lo. induction l as [|x l IH]; intros lo; simpl; [lia|].
  intros (H1 & _ & H2%IH). unfold next_offset in *. simpl. lia.
Qed.

Lemma ordered_below lo l :
  ordered lo l →
  Forall (fun y => lo ≤ Batch.base_offset y.1 ≤ batch_last y.1 ∧ batch_last y.1 < next_offset lo l) l.
Proof.
  revert lo. induction l as [|x l IH]; intros lo; simpl; [constructor|].
  intros (H1 & _ & H2). pose proof (ordered_next _ _ H2). unfold next_offset in *. simpl in *.
  constructor; [lia|]. eapply Forall_impl; [by apply IH|]. simpl. lia.
Qed.

(** The batches below an offset are a prefix. *)
Lemma ordered_split lo l o :
  ordered lo l → ∃ l1 l2, l = l1 ++ l2 ∧ Forall (fun y => batch_last y.1 < o) l1 ∧
    Forall (fun y => o ≤ batch_last y.1) l2.
Proof.
  revert lo. induction l as [|x l IH]; intros lo; simpl.
  - intros _. by exists [], [].
  - intros (H1 & _ & H2). destruct (decide (batch_last x.1 < o)) as [Hx|Hx].
    + destruct (IH _ H2) as (l1 & l2 & -> & ? & ?). exists (x :: l1), l2. by repeat constructor.
    + exists [], (x :: l). split_and!; [done|constructor|]. constructor; [lia|].
      eapply Forall_impl; [by apply ordered_below|]. simpl. lia.
Qed.

Lemma max_ts_snoc l x : max_ts (l ++ [x]) = Z.max (max_ts l) (Batch.max_timestamp x.1).
Proof. unfold max_ts. by rewrite foldl_app. Qed.

Lemma fits_prefix n l : ∃ l2, l = fits n l ++ l2.
Proof.
  revert n. induction l as [|x l IH]; intros n; simpl; [by exists []|].
  case_bool_decide; [|by eexists]. destruct (IH (n - length x.2)%nat) as [l2 Hl2]. exists l2. simpl. congruence.
Qed.

Lemma length_fits n l : (length (flat (fits n l)) ≤ n)%nat.
Proof.
  revert n. induction l as [|x l IH]; intros n; simpl; [lia|].
  case_bool_decide; [|simpl; lia]. rewrite flat_cons, length_app.
  specialize (IH (n - length x.2)%nat). lia.
Qed.

Lemma fits_all n l : (length (flat l) ≤ n)%nat → fits n l = l.
Proof.
  revert n. induction l as [|x l IH]; intros n; [done|]. cbn [fits].
  rewrite flat_cons, length_app. intros H. rewrite bool_decide_eq_true_2 by lia. rewrite IH; [done|lia].
Qed.

(** Patching the header alone patches the whole batch. *)
Lemma overwrite_app off v a b :
  (off + length v ≤ length a)%nat → Header.overwrite off v (a ++ b) = Header.overwrite off v a ++ b.
Proof.
  intros H. unfold Header.overwrite. rewrite take_app_le, drop_app_le by lia.
  by rewrite <- !(assoc_L (++)).
Qed.

Lemma patch_header_patches bytes o e h :
  Header.patch_base_offset_and_leader_epoch (take Header.HEADER_LEN bytes) o e = Some h →
  Header.patch_base_offset_and_leader_epoch bytes o e = Some (h ++ drop Header.HEADER_LEN bytes).
Proof.
  unfold Header.patch_base_offset_and_leader_epoch, Header.HEADER_LEN. rewrite length_take.
  case_bool_decide as Hl; [done|]. rewrite bool_decide_eq_false_2 by lia. intros [= <-]. f_equal.
  rewrite <- (take_drop 61 bytes) at 1.
  rewrite overwrite_app by (rewrite length_take, Fixed.length_put_i64; lia).
  rewrite overwrite_app; [done|].
  rewrite length_overwrite, length_take, ?Fixed.length_put_i32 by (rewrite length_take, Fixed.length_put_i64; lia).
  lia.
Qed.

Section Invariant.
Context {store : BatchStore} {search : BinarySearch}.

(** The bytes of a stored batch decode to it and are used up. *)
Definition stored (x : Stored) : Prop := batch_decode x.2 = Ok (x.1, []).
(** What a scan stops at. *)
Definition undecodable (tail : list byte) : Prop := tail = [] ∨ ∃ e, batch_decode tail = Err e.

Lemma stored_header x : stored x → header_for x.1 x.2.
Proof. apply decode_header. Qed.
Lemma stored_length x : stored x → (61 ≤ length x.2)%nat.
Proof. by intros [H _]%stored_header. Qed.

Lemma flat_nil l : Forall stored l → (length (flat l) < 61)%nat → l = [].
Proof.
  intros [|x l' Hx%stored_length _]; [done|]. rewrite flat_cons, length_app. lia.
Qed.

Lemma length_flat_ge l : Forall stored l → (61 * length l ≤ length (flat l))%nat.
Proof.
  induction 1 as [|x l Hx%stored_length _ IH]; [done|]. rewrite flat_cons, length_app. simpl. lia.
Qed.

Lemma scan_flat {A} (f : A → Batch.RecordBatch → nat → A * bool) st l tail fuel :
  Forall stored l → undecodable tail → (length (flat l) + length tail ≤ fuel)%nat →
  scan fuel f st (flat l ++ tail) = visit f st l.
Proof.
  intros Hl Ht. revert st fuel. induction Hl as [|x l Hx Hl IH]; intros st fuel Hf.
  - simpl. destruct fuel as [|fuel]; [done|]. destruct tail as [|b tail]; [done|].
    destruct Ht as [|[e He]]; [done|]. cbn [scan]. by rewrite He.
  - pose proof (stored_length _ Hx) as Hlen. rewrite flat_cons, length_app in *.
    rewrite <- (assoc_L (++)). destruct fuel as [|fuel]; [lia|]. cbn [scan].
    destruct (x.2 ++ _) eqn:Hcur; [apply (f_equal length) in Hcur; rewrite length_app in Hcur; simpl in Hcur; lia|].
    rewrite <- Hcur. rewrite (decode_app x.1 x.2 _ Hx). rewrite !length_app.
    replace (_ - _)%nat with (length x.2) by lia. cbn [visit].
    destruct (f st x.1 (length x.2)) as [st' [|]]; [|done]. apply IH. lia.
Qed.

(** A window of the file shows the batches that fit, then a part of one. *)
Lemma take_flat n l :
  Forall stored l → ∃ tail, take n (flat l) = flat (fits n l) ++ tail ∧ undecodable tail.
Proof.
  intros Hl. revert n. induction Hl as [|x l Hx Hl IH]; intros n; simpl.
  - exists []. split; [|by left]. apply take_nil.
  - case_bool_decide as Hn; rewrite flat_cons.
    + destruct (IH (n - length x.2)%nat) as (tail & Ht & Hu). exists tail. split; [|done].
      rewrite flat_cons, take_app, (take_ge x.2) by lia. by rewrite Ht, (assoc_L (++)).
    + exists (take n x.2). rewrite take_app_le by lia. split; [done|]. right.
      apply (decode_cut x.1 _ (drop n x.2)); [by rewrite take_drop|].
      intros Hd%(f_equal length). rewrite length_drop in Hd. simpl in Hd. lia.
Qed.

Lemma scan_window {A} (f : A → Batch.RecordBatch → nat → A * bool) st n l :
  Forall stored l → scan_batches f st (take n (flat l)) = visit f st (fits n l).
Proof.
  intros Hl. destruct (take_flat n l Hl) as (tail & Ht & Hu). unfold scan_batches. rewrite Ht.
  apply scan_flat; [|done|by rewrite length_app].
  destruct (fits_prefix n l) as [l2 H]. rewrite H in Hl. by apply Forall_app in Hl as [? _].
Qed.

(** ** The representation *)
(** The files hold the batches of [l]; the last offset may be another one, as
    for a segment that was opened without a scan. *)
Record stores (s : Segment) (l : list Stored) : Prop := {
  h_base : 0 ≤ base_offset s < 2 ^ 63;
  h_file : log_file s = flat l;
  h_stored : Forall stored l;
  h_ordered : ordered (base_offset s) l;
  h_index : offset_faithful (offset_index s);
  h_points : Forall (points_at (base_offset s) l) (OffsetIndex.entries (offset_index s));
}.
Definition holds (s : Segment) (l : list Stored) : Prop :=
  stores s l ∧ last_offset s = next_offset (base_offset s) l - 1.

Lemma points_at_app base l l' e : points_at base l e → points_at base (l ++ l') e.
Proof.
  intros (l1 & x & l2 & -> & ->). exists l1, x, (l2 ++ l'). by rewrite <- (assoc_L (++)).
Qed.

(** An entry for a batch lies before whatever comes after the list. *)
Lemma points_at_bound base l r p :
  Forall stored l → ordered base l → points_at base l (r, p) →
  0 ≤ r < next_offset base l - base ∧ 0 ≤ p < Z.of_nat (length (flat l)).
Proof.
  intros Hs Ho (l1 & x & l2 & -> & [= -> ->]).
  apply Forall_app in Hs as [_ [Hx%stored_length _]%Forall_cons].
  pose proof (ordered_below _ _ Ho) as Hb. apply Forall_app in Hb as [_ [Hb _]%Forall_cons].
  rewrite flat_app, flat_cons, !length_app. lia.
Qed.

Lemma points_last s l r p :
  stores s l → OffsetIndex.last_entry (offset_index s) = Some (r, p) → points_at (base_offset s) l (r, p).
Proof.
  intros H Hl. pose proof (h_points _ _ H) as Hp. rewrite Forall_forall in Hp. apply Hp.
  by apply last_Some_elem_of.
Qed.

Lemma account_same s position base last ts iv :
  sealed (account s position base last ts iv).1 = sealed s ∧
  base_offset (account s position base last ts iv).1 = base_offset s.
Proof. unfold account. cbv zeta. by repeat case_match. Qed.

(** Both appends, once the bytes are written. *)
Lemma account_holds s l x iv :
  holds s l → stored x → next_offset (base_offset s) l ≤ Batch.base_offset x.1 ≤ batch_last x.1 →
  in_s 64 (Batch.base_offset x.1 + Batch.last_offset_delta x.1) →
  let '(s', r) := account (set_log (log_file s ++ x.2) s) (log_size s) (Batch.base_offset x.1)
                    (batch_last x.1) (Batch.max_timestamp x.1) iv in
  holds s' (l ++ [x]) ∧ max_timestamp s' = Z.max (max_timestamp s) (Batch.max_timestamp x.1) ∧
  (Batch.base_offset x.1 - base_offset s < 2 ^ 32 → Z.of_nat (length (flat l)) < 2 ^ 32 →
   r = Ok (length (flat l))).
Proof.
  intros [H _] Hx Hb Hd. pose proof (ordered_next _ _ (h_ordered _ _ H)) as Hn.
  assert (Batch.base_offset x.1 ≤ batch_last x.1 < 2 ^ 63) as Hb63.
  { pose proof (wrap_s_range 64 (Batch.base_offset x.1 + Batch.last_offset_delta x.1)).
    unfold batch_last, in_s in *. lia. }
  assert (∀ oi ti, offset_faithful oi →
    Forall (points_at (base_offset s) (l ++ [x])) (OffsetIndex.entries oi) →
    holds (set_indexes oi ti (set_ends (Z.max (max_timestamp s) (Batch.max_timestamp x.1))
             (batch_last x.1) (set_log (log_file s ++ x.2) s))) (l ++ [x])) as Hall.
  { intros oi ti Hoi Hpts. destruct H. split; [split|]; simpl; try done.
    - by rewrite h_file0, flat_app, flat_cons, app_nil_r.
    - apply Forall_app. by rewrite Forall_singleton.
    - rewrite ordered_app. split; [done|]. simpl. split_and!; try done; lia.
    - rewrite next_offset_app. unfold next_offset at 1. simpl. lia. }
  assert (Forall (points_at (base_offset s) (l ++ [x])) (OffsetIndex.entries (offset_index s))) as Hold.
  { eapply Forall_impl; [exact (h_points _ _ H)|]. intros e. apply points_at_app. }
  assert (log_size s = length (flat l)) as Hsz by (unfold log_size; by rewrite (h_file _ _ H)).
  pose proof (Hall _ (time_index s) (h_index _ _ H) Hold) as Hkeep.
  unfold account. cbv zeta. cbn [offset_index base_offset set_ends set_log max_timestamp time_index].
  rewrite Hsz, wrap_s_id by (unfold in_s; pose proof (h_base _ _ H); lia).
  destruct (should_index _ _ _); [|by split_and!].
  destruct (negb _) eqn:Hrel; [split_and!; [done..|]; intros; zify_bools; pose proof (h_base _ _ H); lia|].
  destruct (Z.leb_spec (2 ^ 32) (Z.of_nat (length (flat l)))); [split_and!; [done..|]; intros; lia|].
  split_and!; [|done..]. apply Hall.
  - zify_bools. apply offset_faithful_append; [apply H|unfold in_u; lia..|].
    intros r p Hl. destruct (points_at_bound _ _ _ _ (h_stored _ _ H) (h_ordered _ _ H) (points_last _ _ _ _ H Hl)).
    lia.
  - apply Forall_app. split; [done|]. apply Forall_singleton. by exists l, x, [].
Qed.

(** Appending a batch whose offsets lie after the segment's end keeps the segment
    well formed, with exactly this batch added: its stored bytes at the end of the
    file, the last offset and the maximum timestamp moved, and the index still
    pointing at batch boundaries, even when the append reports that an index
    entry would overflow.  Otherwise the result is the batch's position. *)
Lemma append_adds_batch s l b bs iv :
  holds s l → sealed s = false → batch_encode b = Ok bs → stored (b, bs) →
  next_offset (base_offset s) l ≤ Batch.base_offset b ≤ batch_last b →
  in_s 64 (Batch.base_offset b + Batch.last_offset_delta b) →
  let '(s', r) := append s b iv in
  holds s' (l ++ [(b, bs)]) ∧ sealed s' = false ∧ base_offset s' = base_offset s ∧
  max_timestamp s' = Z.max (max_timestamp s) (Batch.max_timestamp b) ∧
  (Batch.base_offset b - base_offset s < 2 ^ 32 → Z.of_nat (length (flat l)) < 2 ^ 32 →
   r = Ok (length (flat l))).
Proof.
  intros H Hs He Hst Hb Hd. unfold append. rewrite Hs, He. cbv zeta.
  pose proof (account_holds s l (b, bs) iv H Hst Hb Hd) as Hacc.
  destruct (account_same (set_log (log_file s ++ bs) s) (log_size s) (Batch.base_offset b)
    (batch_last b) (Batch.max_timestamp b) iv) as [H1 H2].
  cbn [fst snd] in Hacc. destruct (account _ _ _ _ _ _). simpl in *. split_and!; [tauto|by rewrite H1|done|tauto..].
Qed.

(** [append_verbatim] stores the producer's bytes as the batch restamped with the
    given base offset and leader epoch: the outcome is the one [append] has for
    that batch, with no byte of the body touched. *)
Lemma append_verbatim_restamps s l b bytes o e iv h :
  holds s l → sealed s = false → stored (b, bytes) → in_s 64 o → in_s 32 e →
  next_offset (base_offset s) l ≤ o ≤ batch_last (restamp b o e) →
  in_s 64 (o + Batch.last_offset_delta b) →
  Header.patch_base_offset_and_leader_epoch (take Header.HEADER_LEN bytes) o e = Some h →
  let '(s', r) := append_verbatim s bytes o (Batch.last_offset_delta b) (Batch.max_timestamp b) e iv in
  holds s' (l ++ [(restamp b o e, h ++ drop Header.HEADER_LEN bytes)]) ∧
  sealed s' = false ∧ base_offset s' = base_offset s ∧
  (o - base_offset s < 2 ^ 32 → Z.of_nat (length (flat l)) < 2 ^ 32 → r = Ok (length (flat l))).
Proof.
  intros H Hs Hst Ho He Hb Hd Hp. pose proof (stored_length _ Hst) as Hlen. simpl in Hlen.
  pose proof (decode_patch _ _ _ _ _ Ho He Hst (patch_header_patches _ _ _ _ Hp)) as Hst'.
  unfold append_verbatim. rewrite Hs, bool_decide_eq_false_2, Hp by (unfold Header.HEADER_LEN; lia).
  pose proof (account_holds s l (restamp b o e, h ++ drop Header.HEADER_LEN bytes) iv H Hst' Hb Hd) as Hacc.
  cbv zeta. simpl in Hacc. unfold batch_last in Hacc. simpl in Hacc.
  destruct (account_same (set_log (log_file s ++ (h ++ drop Header.HEADER_LEN bytes)) s) (log_size s) o
    (wrap_s 64 (o + Batch.last_offset_delta b)) (Batch.max_timestamp b) iv) as [H1 H2].
  destruct (account _ _ _ _ _ _). simpl in *. split_and!; [tauto|by rewrite H1|done|tauto].
Qed.

(** ** Truncating *)
Lemma ascending_keys (l : list (Z * Z)) : ascending fst l → StronglySorted Z.le l.*1.
Proof.
  induction 1 as [|x l _ IH Hx]; simpl; constructor; [done|].
  apply Forall_fmap. eapply Forall_impl; [exact Hx|]. simpl. lia.
Qed.

Lemma position_at_or_after_spec ix rel p :
  offset_faithful ix → OffsetIndex.position_at_or_after ix rel = Some p →
  ∃ r, (r, p) ∈ OffsetIndex.entries ix ∧ rel ≤ r.
Proof.
  intros Hf. pose proof (ascending_keys _ (of_rel _ Hf)) as Hs. unfold OffsetIndex.position_at_or_after.
  destruct (binary_search _ _) as [i|i] eqn:Hb; intros (e & He & ->)%fmap_Some; exists e.1;
    rewrite <- surjective_pairing; (split; [by eapply list_elem_of_lookup_2|]).
  - apply binary_search_found in Hb; [|done]. rewrite list_lookup_fmap, He in Hb. simplify_eq/=. lia.
  - apply binary_search_missing in Hb as [_ Hb]; [|done].
    specialize (Hb i e.1). rewrite list_lookup_fmap, He in Hb. specialize (Hb eq_refl). lia.
Qed.

Lemma fits_app n l1 l2 :
  (length (flat l1) ≤ n)%nat → fits n (l1 ++ l2) = l1 ++ fits (n - length (flat l1)) l2.
Proof.
  revert n. induction l1 as [|x l1 IH]; intros n.
  - simpl. intros _. f_equal. lia.
  - rewrite flat_cons, length_app. intros Hn. simpl. rewrite bool_decide_eq_true_2 by lia.
    rewrite IH by lia. do 3 f_equal. lia.
Qed.

(** An entry at or after an offset lies behind every batch below it. *)
Lemma points_at_after base l1 l2 r p o :
  ordered base (l1 ++ l2) → Forall (fun y => batch_last y.1 < base + o) l1 →
  points_at base (l1 ++ l2) (r, p) → o ≤ r → (length (flat l1) ≤ Z.to_nat p)%nat.
Proof.
  intros Ho Hb (la & x & lb & Hl & [= -> ->]) Hr.
  pose proof (ordered_below _ _ Ho) as Hx. rewrite Hl in Hx.
  apply Forall_app in Hx as [_ [Hx _]%Forall_cons].
  apply app_eq_inv in Hl as [(k & -> & Hk)|(k & -> & _)].
  - destruct k as [|y k]; [rewrite app_nil_r; lia|]. injection Hk as -> _.
    apply Forall_app in Hb as [_ [Hb _]%Forall_cons]. lia.
  - rewrite flat_app, length_app. lia.
Qed.

(** An entry before the end of a prefix is an entry of the prefix. *)
Lemma points_at_prefix base l1 l2 e :
  points_at base (l1 ++ l2) e → e.2 < Z.of_nat (length (flat l1)) → points_at base l1 e.
Proof.
  intros (la & x & lb & Hl & ->). simpl. intros Hlt.
  apply app_eq_inv in Hl as [(k & -> & Hk)|(k & -> & _)].
  - destruct k as [|y k]; [rewrite app_nil_r in Hlt; lia|]. injection Hk as -> _. by exists la, y, k.
  - rewrite flat_app, length_app in Hlt. lia.
Qed.

Lemma set_len_prefix (a b : list byte) : set_len (length a) (a ++ b) = a.
Proof.
  unfold set_len. rewrite take_app_length, length_app.
  replace (_ - _)%nat with 0%nat by lia. apply app_nil_r.
Qed.

Lemma visit_keep base target l1 l2 :
  Forall (fun y => batch_last y.1 < target) l1 → Forall (fun y => target ≤ batch_last y.1) l2 →
  visit (fun '(pos, off, ts) b consumed =>
           if target <=? batch_last b then ((pos, off, ts), false)
           else ((pos + consumed, batch_last b, Z.max ts (Batch.max_timestamp b))%nat, true))
    (0%nat, base - 1, I64_MIN) (l1 ++ l2) =
  (length (flat l1), next_offset base l1 - 1, max_ts l1).
Proof.
  intros H1 H2. unfold max_ts. change 0%nat with (length (flat [])) at 1.
  change (length (flat l1)) with (length (flat ([] ++ l1))).
  generalize (@nil Stored) at 1 2 as l0. generalize I64_MIN as ts. revert base.
  induction H1 as [|x l1 Hx H1 IH]; intros base ts l0.
  - simpl. destruct H2 as [|x l2 Hx _]; simpl; [by rewrite app_nil_r|].
    rewrite (proj2 (Z.leb_le _ _)) by lia. by rewrite app_nil_r.
  - simpl. rewrite (proj2 (Z.leb_gt _ _)) by lia.
    replace (length (flat l0) + length x.2)%nat with (length (flat (l0 ++ [x])))
      by (rewrite flat_app, flat_cons, !length_app; simpl; lia).
    replace (batch_last x.1) with (batch_last x.1 + 1 - 1) by lia. rewrite IH.
    rewrite Z.sub_simpl_r. by rewrite <- (assoc_L (++)).
Qed.

(** Truncating keeps exactly the batches that end below the target, whatever
    the index leads the scan to read; indexes, last offset and maximum timestamp
    are those of the remaining batches, and the segment accepts appends again. *)
Lemma truncate_keeps_below s l rel :
  holds s l → 0 ≤ rel < 2 ^ 32 → Z.of_nat (log_size s) < 2 ^ 32 →
  let keep := filter (fun x => batch_last x.1 < base_offset s + rel) l in
  let '(s', r) := truncate_to_relative s rel in
  r = Ok () ∧ holds s' keep ∧ max_timestamp s' = max_ts keep ∧ sealed s' = false ∧
  base_offset s' = base_offset s.
Proof.
  intros [H _] Hrel Hsz. cbv zeta.
  destruct (ordered_split _ _ (base_offset s + rel) (h_ordered _ _ H)) as (l1 & l2 & -> & H1 & H2).
  rewrite filter_app, (filter_all _ l1), (filter_none _ l2), app_nil_r; [|by eapply Forall_impl; [exact H2|]; simpl; lia|done].
  unfold truncate_to_relative. set (limit := match OffsetIndex.position_at_or_after (offset_index s) rel with
                Some pos => pos | None => Z.of_nat (log_size s) end).
  assert (Z.of_nat (length (flat l1)) ≤ limit) as Hlimit.
  { unfold limit. destruct (OffsetIndex.position_at_or_after _ _) as [p|] eqn:Hp.
    - apply position_at_or_after_spec in Hp as (r & Hin & Hr); [|apply H].
      pose proof (h_points _ _ H) as Hpts. rewrite Forall_forall in Hpts. specialize (Hpts _ Hin).
      pose proof (points_at_bound _ _ _ _ (h_stored _ _ H) (h_ordered _ _ H) Hpts).
      pose proof (points_at_after _ _ _ _ _ rel (h_ordered _ _ H) H1 Hpts Hr). lia.
    - unfold log_size. rewrite (h_file _ _ H), flat_app, length_app. lia. }
  unfold read_log_range, log_size in *. rewrite drop_0, Nat.sub_0_r, (h_file _ _ H) in *.
  rewrite scan_window by apply H. rewrite flat_app, length_app in *.
  rewrite fits_app by lia. rewrite visit_keep; [|done|].
  2: { destruct (fits_prefix (Z.to_nat (Z.min (Z.of_nat (length (flat l1) + length (flat l2))) limit) -
         length (flat l1)) l2) as [l3 Hl3].
       rewrite Hl3 in H2. by apply Forall_app in H2 as [? _]. }
  cbn [log_file set_ends set_log]. rewrite (proj2 (Z.leb_gt _ _)) by lia.
  split_and!; [done| |done..].
  destruct H as [? ? Hst Ho Hix Hpts]. apply Forall_app in Hst as [Hst _]. apply ordered_app in Ho as [Ho _].
  split; [split|]; cbn [base_offset log_file last_offset offset_index set_sealed set_indexes set_ends set_log]; try done.
  - by rewrite set_len_prefix.
  - by apply offset_faithful_truncate.
  - unfold OffsetIndex.truncate_by_position. cbn [OffsetIndex.entries].
    destruct (take_while_prefix (fun e => e.2 <? Z.of_nat (length (flat l1))) (OffsetIndex.entries (offset_index s)))
      as (rest & Hl & Hk & _).
    set (kept := take_while _ _) in *. clearbody kept. rewrite Hl in Hpts. apply Forall_app in Hpts as [Hpts _].
    rewrite Forall_forall in Hpts, Hk |- *. intros e He. eapply points_at_prefix; [by apply Hpts|].
    specialize (Hk e He). simpl in Hk. lia.
Qed.

(** ** Recovering *)
Lemma visit_recover n lo ts l :
  visit (fun '(consumed, last_off, max_ts) b n =>
           ((consumed + n, batch_last b, Z.max max_ts (Batch.max_timestamp b))%nat, true))
    (n, lo - 1, ts) l =
  ((n + length (flat l))%nat, next_offset lo l - 1,
   foldl (fun ts x => Z.max ts (Batch.max_timestamp x.1)) ts l).
Proof.
  revert n lo ts. induction l as [|x l IH]; intros n lo ts; cbn [visit]; [by rewrite Nat.add_0_r|].
  replace (batch_last x.1) with (batch_last x.1 + 1 - 1) by lia. rewrite IH, flat_cons, length_app.
  rewrite Nat.add_assoc. done.
Qed.

Lemma next_offset_skip lo lo' x l : next_offset lo (x :: l) = next_offset lo' (x :: l).
Proof. done. Qed.

Lemma open_index_faithful ix : offset_faithful ix → OffsetIndex.open (OffsetIndex.file ix) = ix.
Proof.
  intros H. pose proof (offset_open_faithful ix [] H) as He. rewrite app_nil_r in He.
  destruct ix as [f es]. unfold OffsetIndex.open in *. simpl in *. f_equal. apply He. vm_compute. lia.
Qed.

(** The scan starts at the last indexed batch. *)
Lemma scan_start_split s l :
  stores s l → ∃ l1 l2, l = l1 ++ l2 ∧
    match OffsetIndex.last_entry (offset_index s) with
    | Some (_, pos) => Z.to_nat pos | None => 0%nat end = length (flat l1) ∧
    (l2 = [] → l1 = []).
Proof.
  intros H. destruct (OffsetIndex.last_entry (offset_index s)) as [[r p]|] eqn:Hl.
  - destruct (points_last _ _ _ _ H Hl) as (l1 & x & l2 & Hll & [= -> ->]). exists l1, (x :: l2).
    split_and!; [done|lia|done].
  - by exists [], l.
Qed.

(** Reopening the active segment after a crash recovers it: whatever
    undecodable bytes a torn write left behind the last complete batch are cut
    off, and the segment holds the same batches, last offset and index as
    before.  The maximum timestamp is only that of the batches from the last
    index entry on. *)
Lemma recovery_restores s l torn ti :
  stores s l → undecodable torn →
  let s' := open_active (base_offset s) (log_file s ++ torn)
              (OffsetIndex.file (offset_index s)) ti true in
  holds s' l ∧
  ∃ l1 l2, l = l1 ++ l2 ∧ (l2 = [] → l1 = []) ∧ max_timestamp s' = max_ts l2 ∧
    match OffsetIndex.last_entry (offset_index s) with
    | Some (_, pos) => Z.to_nat pos | None => 0%nat end = length (flat l1).
Proof.
  intros H Ht. cbv zeta. unfold open_active, open. rewrite open_index_faithful by apply H.
  destruct (scan_start_split s l H) as (l1 & l2 & -> & Hstart & Hnil).
  unfold recover_active_tail. cbn [offset_index]. rewrite Hstart.
  unfold log_size. cbn [log_file set_log base_offset last_offset max_timestamp].
  rewrite (h_file _ _ H), flat_app, !length_app.
  case_bool_decide as Hsz.
  { assert (l2 = []) as -> by (apply flat_nil; [|lia]; pose proof (h_stored _ _ H) as Hs; by apply Forall_app in Hs as [_ ?]).
    rewrite (Hnil eq_refl) in *. simpl in *. destruct torn; [|simpl in *; lia]. split; [|by exists [], []].
    destruct H; split; [split|]; simpl in *; try done. }
  unfold read_log_range, log_size. cbn [log_file]. rewrite !length_app, Z.min_id, Nat2Z.id.
  rewrite <- (assoc_L (++)), drop_app_length, take_ge by (rewrite length_app; lia).
  unfold scan_batches. rewrite scan_flat; [|pose proof (h_stored _ _ H) as Hs; by apply Forall_app in Hs as [_ ?]|done|by rewrite length_app].
  rewrite visit_recover, Nat.add_0_l.
  assert (next_offset (base_offset s) l2 = next_offset (base_offset s) (l1 ++ l2)) as Hnext.
  { destruct l2 as [|x l2]; [by rewrite Hnil|]. by rewrite next_offset_app. }
  split; [|by exists l1, l2].
  destruct H. split; [split|]; cbn [base_offset log_file last_offset offset_index set_ends set_log]; try done.
  - rewrite flat_app, (assoc_L (++)). case_bool_decide.
    + rewrite <- length_app. apply set_len_prefix.
    + destruct torn; [by rewrite app_nil_r|simpl in *; lia].
  - by rewrite Hnext.
Qed.
End Invariant.
