(* ===== verification/SegmentRead.v ===== *)
(** * Reading a segment

    What [read], [read_raw] and [read_raw_desc] of [Segment.v] return on a
    segment that holds a list of batches ([SegmentInv.v]). *)

From S2P Require Import Prelude Wire Records Batches BatchStore LogIndex Segment SegmentInv.

Section Read.
Context {store : BatchStore} {search : BinarySearch}.

(** The index leads to a batch boundary at or before the offset. *)
Lemma start_split s l o :
  stores s l → ∃ l1 l2, l = l1 ++ l2 ∧
    start_position s (Z.max (o - base_offset s) 0) = length (flat l1) ∧
    Forall (fun y => batch_last y.1 < o) l1.
Proof.
  intros H. set (rel := Z.max (o - base_offset s) 0). unfold start_position, OffsetIndex.lookup.
  rewrite offset_index_lookup_spec by apply (h_index _ _ H).
  destruct (last (at_or_below _ _)) as [[r p]|] eqn:Hl; [|by exists [], l].
  unfold at_or_below in Hl.
  destruct (take_while_prefix (fun e => e.1 <=? rel) (OffsetIndex.entries (offset_index s)))
    as (rest & He & Hk & _).
  apply last_Some_elem_of in Hl.
  assert ((r, p) ∈ OffsetIndex.entries (offset_index s)) as Hin by (rewrite He; set_solver).
  rewrite Forall_forall in Hk. specialize (Hk _ Hl). simpl in *.
  pose proof (h_points _ _ H) as Hp. rewrite Forall_forall in Hp.
  destruct (Hp _ Hin) as (l1 & x & l2 & -> & [= -> ->]). exists l1, (x :: l2).
  split_and!; [done|lia|]. pose proof (h_ordered _ _ H) as Ho. apply ordered_app in Ho as [Ho Hx].
  pose proof (ordered_next _ _ Ho). eapply Forall_impl; [by apply ordered_below|]. simpl in *. lia.
Qed.

Lemma target_rel_ok s offset :
  0 ≤ base_offset s → 0 ≤ offset → in_s 64 offset → offset - base_offset s < 2 ^ 32 →
  in_s 64 (base_offset s) →
  target_rel s offset = Some (Z.max (offset - base_offset s) 0).
Proof.
  intros Hb Ho Hr Hlt Hbr. unfold target_rel. rewrite wrap_s_id by (unfold in_s in *; lia).
  cbv zeta. by rewrite (proj2 (Z.ltb_lt _ _)) by lia.
Qed.

Lemma read_log_range_flat s l1 l2 max :
  stores s (l1 ++ l2) →
  read_log_range s (length (flat l1)) max = take (Z.to_nat max) (flat l2).
Proof.
  intros H. unfold read_log_range, log_size. rewrite (h_file _ _ H), flat_app, drop_app_length, length_app.
  replace (_ + _ - _)%nat with (length (flat l2)) by lia.
  destruct (Z.le_gt_cases (Z.of_nat (length (flat l2))) max).
  - by rewrite !take_ge by lia.
  - by rewrite Z.min_r by lia.
Qed.

Lemma visit_read offset max out total l :
  Forall stored l → Z.of_nat (total + length (flat l)) ≤ max →
  (visit (fun '(out, total) b consumed =>
            if offset <=? batch_last b
            then let total := (total + consumed)%nat in ((out ++ [b], total), Z.of_nat total <? max)
            else ((out, total), true)) (out, total) l).1 =
  out ++ (filter (fun x => offset ≤ batch_last x.1) l).*1.
Proof.
  intros Hl. revert out total. induction Hl as [|x l Hx Hl IH]; intros out total Hm; cbn [visit].
  { by rewrite app_nil_r. }
  rewrite flat_cons, length_app in Hm. rewrite filter_cons.
  destruct (Z.leb_spec offset (batch_last x.1)); [rewrite decide_True by done|rewrite decide_False by lia].
  - cbv zeta. destruct (Z.ltb_spec (Z.of_nat (total + length x.2)) max).
    + rewrite IH by lia. by rewrite <- (assoc_L (++)).
    + assert (l = []) as -> by (apply flat_nil; [done|lia]). done.
  - apply IH. lia.
Qed.

(** [read] decodes, from the batch the index leads to, the complete batches
    in the next [max_bytes] and returns those that do not end before the offset,
    so nothing between the offset and the last batch returned is left out. *)
Lemma read_window s l offset max :
  stores s l → 0 ≤ offset ≤ last_offset s → in_s 64 (last_offset s) →
  offset - base_offset s < 2 ^ 32 → 0 ≤ max →
  ∃ l1 l2, l = l1 ++ l2 ∧ Forall (fun y => batch_last y.1 < offset) l1 ∧
    start_position s (Z.max (offset - base_offset s) 0) = length (flat l1) ∧
    read s offset max =
    Ok (filter (fun x => offset ≤ batch_last x.1) (fits (Z.to_nat max) l2)).*1.
Proof.
  intros H Ho Hr Hlt Hmax. pose proof (h_base _ _ H) as Hb.
  destruct (start_split s l offset H) as (l1 & l2 & -> & Hs & Hl1).
  exists l1, l2. split_and!; [done..|].
  unfold read. rewrite (proj2 (Z.ltb_ge _ _)) by lia.
  rewrite target_rel_ok by (unfold in_s in *; lia).
  rewrite Hs, (read_log_range_flat _ _ _ _ H).
  pose proof (h_stored _ _ H) as Hst. apply Forall_app in Hst as [_ Hst].
  rewrite scan_window by done. rewrite visit_read; [done| |].
  - destruct (fits_prefix (Z.to_nat max) l2) as [l3 Hl3]. rewrite Hl3 in Hst. by apply Forall_app in Hst as [? _].
  - pose proof (length_fits (Z.to_nat max) l2). lia.
Qed.

(** ** The descriptor walk *)
Definition region_bytes (s : Segment) (d : RawSegmentDesc) : list byte :=
  match region d with
  | Some (offset, len) => take len (drop offset (log_file s))
  | None => []
  end.

Lemma header_at_window (file : list byte) (start window pos : nat) :
  (pos + Header.HEADER_LEN ≤ window)%nat →
  header_at (take Header.HEADER_LEN (drop (start + pos) file)) 0 =
  header_at (take window (drop start file)) pos.
Proof.
  intros H. unfold header_at. rewrite drop_0, take_take, Nat.min_id, skipn_firstn_comm, drop_drop, take_take.
  by rewrite Nat.min_l by lia.
Qed.

(** The two walks take the same decisions. *)
Lemma desc_walk_raw s start window f lim max fuel pos range re so lo :
  (window ≤ log_size s - start)%nat →
  desc_walk s start window f lim max fuel pos range re so lo =
  match raw_walk f lim max fuel (take window (drop start (log_file s))) pos range re so lo with
  | WalkOne pos total base last =>
      if bool_decide (log_size s < start + pos + total)%nat then desc_empty
      else mkDesc base last (Some (start + pos, total)%nat)
  | WalkRange range re so lo => desc_of start range re so lo
  end.
Proof.
  intros Hw. assert (length (take window (drop start (log_file s))) = window) as Hlen
    by (rewrite length_take, length_drop; unfold log_size in Hw; lia).
  revert pos range re so lo. induction fuel as [|fuel IH]; intros pos range re so lo; [done|].
  cbn [desc_walk raw_walk]. rewrite Hlen. case_bool_decide as Hp; [done|].
  rewrite (bool_decide_eq_false_2 (length _ < _)%nat).
  2: { rewrite length_take, length_drop. unfold log_size in Hw. lia. }
  rewrite (header_at_window _ _ window) by lia. cbv zeta.
  destruct (header_at _ _) as [[base last] total].
  destruct (last <? f); [apply IH|]. destruct (lim <=? base); [done|].
  case_bool_decide; [by destruct range|]. by destruct (max <=? _).
Qed.

Lemma header_at_total buf pos base last total : header_at buf pos = (base, last, total) → (12 ≤ total)%nat.
Proof. unfold header_at. intros [= _ _ <-]. lia. Qed.

Lemma raw_walk_bounds f lim max fuel buf pos range re so lo :
  (re ≤ length buf)%nat → (∀ r, range = Some r → r < re ∧ r ≤ pos)%nat →
  match raw_walk f lim max fuel buf pos range re so lo with
  | WalkOne pos total _ _ => (pos + Header.HEADER_LEN ≤ length buf ∧ 0 < total)%nat
  | WalkRange r re _ _ => (re ≤ length buf)%nat ∧ ∀ s, r = Some s → (s < re)%nat
  end.
Proof.
  revert pos range re so lo. induction fuel as [|fuel IH]; intros pos range re so lo Hre Hr; [naive_solver|].
  cbn [raw_walk]. case_bool_decide; [naive_solver|]. destruct (header_at _ _) as [[base last] total] eqn:Hh.
  apply header_at_total in Hh.
  destruct (last <? f); [apply IH; [done|]; intros r ?; destruct (Hr r); [done|lia]|].
  destruct (lim <=? base); [naive_solver|].
  case_bool_decide; [destruct range; [naive_solver|lia]|].
  assert (match range with Some s => s | None => pos end < pos + total)%nat.
  { destruct range as [r|]; [destruct (Hr r eq_refl)|]; lia. }
  destruct (max <=? _); [split; [lia|]; by intros s [= <-]|]. apply IH; [lia|]. intros r [= <-]. lia.
Qed.

(** A descriptor stands for what was read: the same offsets, and the file region
    that holds the same bytes, none when there are none. *)
Record stands_for (s : Segment) (d : RawSegmentDesc) (r : RawSegmentRead) : Prop := {
  sf_start : desc_start_offset d = start_offset r;
  sf_last : desc_last_offset d = raw_last_offset r;
  sf_bytes : region_bytes s d = bytes r;
  sf_len : desc_len d = length (bytes r);
  sf_none : region d = None ↔ bytes r = [];
}.

Lemma region_stands_for s pos len start last :
  (0 < len)%nat → (pos + len ≤ log_size s)%nat →
  stands_for s (mkDesc start last (Some (pos, len))) (mkRaw start last (take len (drop pos (log_file s)))).
Proof.
  intros H1 H2. assert (length (take len (drop pos (log_file s))) = len) as Hl
    by (rewrite length_take, length_drop; unfold log_size in H2; lia).
  split; try done. simpl. split; [done|]. intros He. rewrite He in Hl. simpl in Hl. lia.
Qed.

(** The zero-copy fetch sends exactly what the copying fetch returns: on every
    segment, well formed or not, [read_raw_desc] fails when [read_raw] does, and
    otherwise its descriptor stands for the bytes. *)
Lemma desc_equals_raw s f lim max :
  match read_raw s f lim max, read_raw_desc s f lim max with
  | Ok r, Ok d => stands_for s d r
  | Err _, Err _ => True
  | _, _ => False
  end.
Proof.
  unfold read_raw, read_raw_desc. destruct (_ || _); [done|]. destruct (target_rel s f) as [rel|]; [|done].
  cbv zeta. set (start := start_position s rel). set (first := Z.max max (Z.of_nat Header.HEADER_LEN)).
  rewrite desc_walk_raw by lia. unfold read_log_range. rewrite (Z.min_comm first).
  set (window := Z.to_nat _). set (buf := take window (drop start (log_file s))).
  assert (length buf = window) as Hlen
    by (unfold buf; rewrite length_take, length_drop; unfold window, log_size; lia).
  rewrite Hlen. pose proof (raw_walk_bounds f lim max window buf 0 None 0 f (f - 1) ltac:(lia) ltac:(done)) as Hbd.
  destruct (raw_walk _ _ _ _ _ _ _ _ _ _) as [[r|] re so lo|pos total base last]; simpl; [|done|].
  - destruct Hbd as [Hre Hr]. specialize (Hr r eq_refl).
    replace (take (re - r) (drop r buf)) with (take (re - r) (drop (start + r) (log_file s))).
    + apply region_stands_for; unfold window, log_size in *; lia.
    + unfold buf. rewrite skipn_firstn_comm, drop_drop, take_take. by rewrite Nat.min_l by lia.
  - assert (start + pos ≤ log_size s)%nat by (unfold Header.HEADER_LEN, window, log_size in *; lia).
    replace (Z.to_nat (Z.min (Z.of_nat (log_size s - (start + pos))) (Z.of_nat total)))
      with (Nat.min (log_size s - (start + pos)) total) by lia.
    rewrite length_take, length_drop. fold (log_size s).
    destruct (decide (log_size s < start + pos + total)%nat).
    + by rewrite !bool_decide_eq_true_2 by lia.
    + rewrite !bool_decide_eq_false_2 by lia. rewrite Nat.min_r by lia. apply region_stands_for; lia.
Qed.

(** ** The walk over whole batches *)
Lemma fits_none k l : Forall stored l → (k < 61)%nat → fits k l = [].
Proof.
  intros [|x l' Hx%stored_length _] Hk; [done|]. simpl. by rewrite bool_decide_eq_false_2 by lia.
Qed.

Section Run.
Context (f lim max : Z) (n : nat) (m : list Stored).
Context (n_max : Z.of_nat n = Z.max max (Z.of_nat Header.HEADER_LEN)) (m_stored : Forall stored m).
Local Abbreviation buf := (take n (flat m)).
Definition below_limit (x : Stored) : bool := Batch.base_offset x.1 <? lim.

Lemma header_at_flat done_ x rest :
  m = done_ ++ x :: rest → (length (flat done_) + Header.HEADER_LEN ≤ length buf)%nat →
  header_at buf (length (flat done_)) = (Batch.base_offset x.1, batch_last x.1, length x.2).
Proof.
  intros Hm Hl. unfold header_at. rewrite Hm in m_stored |- *.
  apply Forall_app in m_stored as [_ [Hx _]%Forall_cons].
  destruct (stored_header _ Hx) as (Hlen & Hb & Hd & Ht).
  rewrite length_take in Hl. rewrite skipn_firstn_comm, flat_app, drop_app_length, flat_cons.
  rewrite take_take, take_app_le by lia. rewrite Nat.min_l by lia. cbv zeta.
  rewrite Hb, Hd, Ht. unfold Header.HEADER_LEN in *. do 2 f_equal. lia.
Qed.

Lemma walk_skip fuel done_ skip rest re so lo :
  m = done_ ++ skip ++ rest → Forall (fun y => batch_last y.1 < f) skip →
  (length buf ≤ fuel + length (flat done_))%nat →
  ∃ fuel', (length buf ≤ fuel' + length (flat (done_ ++ skip)))%nat ∧
  raw_walk f lim max fuel buf (length (flat done_)) None re so lo =
  if bool_decide (length (flat (done_ ++ skip)) + Header.HEADER_LEN ≤ length buf)%nat
  then raw_walk f lim max fuel' buf (length (flat (done_ ++ skip))) None re so lo
  else WalkRange None re so lo.
Proof.
  intros Hm Hs. revert done_ fuel Hm. induction Hs as [|x skip Hx Hs IH]; intros done_ fuel Hm Hf.
  - exists fuel. rewrite app_nil_r. split; [done|]. case_bool_decide as Hl; [done|].
    destruct fuel as [|fuel]; [done|]. cbn [raw_walk]. by rewrite bool_decide_eq_true_2 by lia.
  - assert (61 ≤ length x.2)%nat as Hx61.
    { rewrite Hm in m_stored. rewrite !Forall_app, Forall_cons in m_stored. apply stored_length. tauto. }
    assert (length (flat (done_ ++ [x])) = length (flat done_) + length x.2)%nat as Hx'
      by (rewrite flat_app, flat_cons, !length_app; simpl; lia).
    destruct (decide (length buf < length (flat done_) + Header.HEADER_LEN)%nat) as [Hl|Hl].
    { exists (length buf). split; [lia|]. rewrite bool_decide_eq_false_2 by (rewrite flat_app, length_app; lia).
      destruct fuel as [|fuel]; [done|]. cbn [raw_walk]. by rewrite bool_decide_eq_true_2 by lia. }
    destruct fuel as [|fuel]; [unfold Header.HEADER_LEN in *; lia|]. cbn [raw_walk].
    rewrite bool_decide_eq_false_2 by done.
    rewrite (header_at_flat _ x (skip ++ rest)) by (done || lia). rewrite (proj2 (Z.ltb_lt _ _)) by done.
    rewrite <- Hx'. replace (done_ ++ x :: skip) with ((done_ ++ [x]) ++ skip) by by rewrite <- (assoc_L (++)).
    apply IH; [by rewrite Hm, <- (assoc_L (++))|lia].
Qed.

(** Once started, a run goes on to the limit or the end of the window. *)
Lemma walk_run fuel done_ rest r so lo :
  m = done_ ++ rest → Forall (fun y => f ≤ batch_last y.1) rest →
  (length buf ≤ fuel + length (flat done_))%nat →
  let run := take_while below_limit (fits (n - length (flat done_)) rest) in
  raw_walk f lim max fuel buf (length (flat done_)) (Some r) (length (flat done_)) so lo =
  WalkRange (Some r) (length (flat (done_ ++ run))) so
    (default lo ((fun x => batch_last x.1) <$> last run)).
Proof.
  cbv zeta. intros Hm Hs. revert done_ fuel lo Hm.
  induction Hs as [|x rest Hx Hs IH]; intros done_ fuel lo Hm Hf.
  - simpl. rewrite app_nil_r. destruct fuel as [|fuel]; [done|]. cbn [raw_walk].
    rewrite bool_decide_eq_true_2; [done|]. rewrite Hm, app_nil_r, length_take.
    unfold Header.HEADER_LEN. lia.
  - assert (61 ≤ length x.2)%nat as Hx61.
    { rewrite Hm in m_stored. apply Forall_app in m_stored as [_ [Hx' _]%Forall_cons]. by apply stored_length. }
    assert (length (flat done_) + length x.2 ≤ length (flat m))%nat as Hm'.
    { rewrite Hm, flat_app, flat_cons, !length_app. lia. }
    assert (∀ k, (k < length x.2)%nat ∨ lim ≤ Batch.base_offset x.1 →
      take_while below_limit (fits k (x :: rest)) = []) as Hstop.
    { intros k Hk. cbn [fits]. case_bool_decide; [|done]. simpl. unfold below_limit.
      by rewrite (proj2 (Z.ltb_ge _ _)) by lia. }
    rewrite length_take in Hf.
    destruct fuel as [|fuel]; [rewrite Hstop by lia; by rewrite app_nil_r|]. cbn [raw_walk].
    case_bool_decide as Hl.
    { rewrite Hstop; [by rewrite app_nil_r|]. rewrite length_take in Hl. unfold Header.HEADER_LEN in Hl. lia. }
    rewrite (header_at_flat _ x rest) by (done || lia). rewrite (proj2 (Z.ltb_ge _ _)) by done.
    destruct (Z.leb_spec lim (Batch.base_offset x.1)) as [Hlim|Hlim].
    { rewrite Hstop by auto. by rewrite app_nil_r. }
    rewrite length_take in *. case_bool_decide as Hfit.
    { rewrite Hstop by lia. by rewrite app_nil_r. }
    cbv zeta. cbn [fits]. rewrite (bool_decide_eq_true_2 (length x.2 ≤ _)%nat) by lia. cbn [take_while].
    replace (below_limit x) with true by (unfold below_limit; symmetry; by apply Z.ltb_lt).
    replace (length (flat done_) + length x.2)%nat with (length (flat (done_ ++ [x]))) in *
      by (rewrite flat_app, flat_cons, !length_app; simpl; lia).
    replace (n - length (flat done_) - length x.2)%nat with (n - length (flat (done_ ++ [x])))%nat
      by (rewrite flat_app, flat_cons, !length_app; simpl; lia).
    rewrite last_cons, (cons_middle x done_ (take_while _ _)), (assoc_L (++)).
    destruct (Z.leb_spec max (Z.of_nat (length (flat (done_ ++ [x])) - r))).
    + rewrite fits_none; [by simpl; rewrite app_nil_r| |].
      * rewrite Hm in m_stored. by apply Forall_app in m_stored as [_ [_ ?]%Forall_cons].
      * rewrite flat_app, flat_cons, !length_app in *. unfold Header.HEADER_LEN in *. simpl in *. lia.
    + rewrite IH; [|by rewrite <- (assoc_L (++))|rewrite ?length_take, flat_app, flat_cons, !length_app; simpl; lia].
      by destruct (last (take_while _ _)).
Qed.

(** What a walk from the start of the window finds. *)
Lemma walk_finds skip x rest :
  m = skip ++ x :: rest → Forall (fun y => batch_last y.1 < f) skip →
  Forall (fun y => f ≤ batch_last y.1) (x :: rest) →
  raw_walk f lim max (length buf) buf 0 None 0 f (f - 1) =
  if bool_decide (length (flat skip) + Header.HEADER_LEN ≤ length buf)%nat && below_limit x then
    match take_while below_limit (fits (n - length (flat skip)) (x :: rest)) with
    | [] => WalkOne (length (flat skip)) (length x.2) (Batch.base_offset x.1) (batch_last x.1)
    | run => WalkRange (Some (length (flat skip))) (length (flat (skip ++ run)))
               (Batch.base_offset x.1) (default 0 ((fun x => batch_last x.1) <$> last run))
    end
  else WalkRange None 0 f (f - 1).
Proof.
  intros Hm Hskip Hrest. assert (61 ≤ length x.2)%nat as Hx61.
  { rewrite Hm in m_stored. rewrite Forall_app, Forall_cons in m_stored. apply stored_length. tauto. }
  assert (Forall stored rest) as Hr by (rewrite Hm in m_stored; by apply Forall_app in m_stored as [_ [_ ?]%Forall_cons]).
  assert (length (flat (skip ++ [x])) = length (flat skip) + length x.2)%nat as Hx'
    by (rewrite flat_app, flat_cons, !length_app; simpl; lia).
  assert (length (flat skip) + length x.2 ≤ length (flat m))%nat as Hlm.
  { rewrite Hm, flat_app, flat_cons, !length_app. lia. }
  destruct (walk_skip (length buf) [] skip (x :: rest) 0 f (f - 1) Hm Hskip ltac:(lia)) as (fuel & Hf & Hw).
  cbn [app] in *. change (length (flat [])) with 0%nat in Hw. rewrite Hw. clear Hw.
  case_bool_decide as Hl; [|done]. cbn [andb].
  destruct fuel as [|fuel]; [unfold Header.HEADER_LEN in *; lia|]. cbn [raw_walk].
  rewrite bool_decide_eq_false_2 by lia. rewrite (header_at_flat skip x rest) by done.
  apply Forall_cons in Hrest as [Hx Hrest]. rewrite (proj2 (Z.ltb_ge _ _)) by done. cbv zeta.
  destruct (Z.leb_spec lim (Batch.base_offset x.1)) as [Hlim|Hlim].
  { replace (below_limit x) with false by (unfold below_limit; symmetry; by apply Z.ltb_ge). done. }
  assert (below_limit x = true) as Hb by (by apply Z.ltb_lt). rewrite Hb, length_take in *.
  cbn [fits]. case_bool_decide as Hfit.
  { by rewrite bool_decide_eq_false_2 by lia. }
  rewrite (bool_decide_eq_true_2 (length x.2 ≤ _)%nat) by lia. cbn [take_while]. rewrite Hb.
  rewrite (cons_middle x skip (take_while _ _)), (assoc_L (++)), last_cons, <- Hx'.
  replace (n - length (flat skip) - length x.2)%nat with (n - length (flat (skip ++ [x])))%nat by lia.
  destruct (Z.leb_spec max (Z.of_nat (length (flat (skip ++ [x])) - length (flat skip)))).
  - rewrite fits_none; [by simpl; rewrite app_nil_r|done|unfold Header.HEADER_LEN in *; lia].
  - rewrite (walk_run fuel (skip ++ [x]) rest); [by destruct (last (take_while _ _))|by rewrite <- (assoc_L (++))|done|].
    rewrite length_take. lia.
Qed.
End Run.

(** What a raw fetch returns, in terms of the batches from the index position
    on: [skip] is passed over and [x] is the first batch not before the offset. *)
Definition raw_run (lim max : Z) (skip : list Stored) (x : Stored) (rest : list Stored) : RawSegmentRead :=
  let n := Z.to_nat (Z.max max (Z.of_nat Header.HEADER_LEN)) in
  if bool_decide (length (flat skip) + Header.HEADER_LEN ≤ n)%nat && (Batch.base_offset x.1 <? lim) then
    match take_while (below_limit lim) (fits (n - length (flat skip)) (x :: rest)) with
    | [] => mkRaw (Batch.base_offset x.1) (batch_last x.1) x.2
    | run => mkRaw (Batch.base_offset x.1) (default 0 ((fun x => batch_last x.1) <$> last run)) (flat run)
    end
  else raw_empty.

(** [read_raw] returns verbatim a contiguous run of complete batches, from
    the first one not before the offset up to the limit or the end of the window
    that starts at the index position; a first batch that is larger than the
    window is returned alone, and nothing only when its header is not in the
    window or it starts at the limit. *)
Lemma read_raw_run s l f lim max :
  holds s l → l ≠ [] → 0 ≤ f ≤ last_offset s → in_s 64 (last_offset s) → f < lim →
  f - base_offset s < 2 ^ 32 →
  ∃ l0 skip x rest, l = l0 ++ skip ++ x :: rest ∧
    start_position s (Z.max (f - base_offset s) 0) = length (flat l0) ∧
    Forall (fun y => batch_last y.1 < f) (l0 ++ skip) ∧ f ≤ batch_last x.1 ∧
    read_raw s f lim max = Ok (raw_run lim max skip x rest).
Proof.
  intros [H Hlast] Hne Hf Hr Hlim Hlt. pose proof (h_base _ _ H) as Hb. rewrite Hlast in *.
  destruct (start_split s l f H) as (l0 & l2 & -> & Hs & Hl0).
  pose proof (h_ordered _ _ H) as Ho. apply ordered_app in Ho as [Ho0 Ho].
  destruct (ordered_split _ _ f Ho) as (skip & l3 & -> & Hskip & Hl3).
  destruct l3 as [|x rest].
  { exfalso. rewrite app_nil_r in *. rewrite next_offset_app in *.
    destruct skip as [|y skip _] using rev_ind.
    - cbn in Hf. destruct l0 as [|y l0 _] using rev_ind; [done|].
      apply Forall_app in Hl0 as [_ [Hl0 _]%Forall_cons]. rewrite next_offset_app in Hf. unfold next_offset in Hf. simpl in *. lia.
    - apply Forall_app in Hskip as [_ [Hskip _]%Forall_cons]. rewrite next_offset_app in Hf. unfold next_offset in Hf. simpl in *. lia. }
  exists l0, skip, x, rest. split_and!; [done..| |by apply Forall_cons in Hl3 as [? _]|].
  { by apply Forall_app. }
  unfold read_raw. rewrite Hlast, (proj2 (Z.ltb_ge _ _)), (proj2 (Z.leb_gt _ _)) by lia.
  cbn [orb]. rewrite target_rel_ok by (unfold in_s in *; lia). rewrite Hs, (read_log_range_flat _ _ _ _ H).
  pose proof (h_stored _ _ H) as Hst. apply Forall_app in Hst as [_ Hst].
  set (n := Z.to_nat (Z.max max (Z.of_nat Header.HEADER_LEN))).
  rewrite (walk_finds f lim max n _ ltac:(unfold n; lia) Hst skip x rest) by done.
  unfold raw_run. fold n. pose proof Hst as [_ [Hx61%stored_length _]%Forall_cons]%Forall_app.
  assert (length (flat skip) + length x.2 ≤ length (flat (skip ++ x :: rest)))%nat
    by (rewrite flat_app, flat_cons, !length_app; lia).
  rewrite (bool_decide_ext _ (length (flat skip) + Header.HEADER_LEN ≤ n)%nat)
    by (rewrite length_take; unfold Header.HEADER_LEN; lia).
  unfold below_limit at 1. case_bool_decide; [|done]. destruct (_ <? _); [|done]. cbn [andb].
  destruct (fits_prefix (n - length (flat skip)) (x :: rest)) as [l4 Hl4].
  destruct (take_while_prefix (below_limit lim) (fits (n - length (flat skip)) (x :: rest))) as (l5 & Hl5 & _).
  pose proof (length_fits (n - length (flat skip)) (x :: rest)) as Hlen.
  destruct (take_while _ _) as [|y run].
  - rewrite <- length_app, <- flat_app. rewrite (assoc_L (++)) in H.
    rewrite (read_log_range_flat _ _ _ _ H), Nat2Z.id, flat_cons, take_app_length.
    by rewrite bool_decide_eq_false_2 by lia.
  - do 2 f_equal. rewrite (flat_app skip (y :: run)), length_app, (flat_app skip (x :: rest)), skipn_firstn_comm, drop_app_length.
    replace (_ + _ - _)%nat with (length (flat (y :: run))) by lia.
    rewrite Hl5, flat_app, length_app in Hlen.
    rewrite Hl4, Hl5, !flat_app, <- !(assoc_L (++)), take_take, Nat.min_l by lia.
    apply take_app_length.
Qed.
End Read.
