(* ===== verification/SegmentTime.v ===== *)
(** * Looking up timestamps in a segment

    When [offset_for_timestamp] of [Segment.v] finds the first record at or
    after a timestamp, that its windowed scan ends, and two ways in which the
    sparse time index and [seal_at] defeat it. *)

From S2P Require Import Prelude Wire Compression Records Batches BatchStore LogIndex Segment SegmentInv.
From S2P Require Import SegmentRead.

(** The batches that do not end before an offset. *)
Definition from_offset (o : Z) (l : list Stored) : list Stored :=
  filter (fun x => o ≤ batch_last x.1) l.
Definition first_match (pred : Z → bool) (l : list Stored) : option (Z * Z) :=
  snd <$> list_find (fun r => pred r.2) (stamps l.*1).

Lemma stamps_app l1 l2 : stamps (l1 ++ l2) = stamps l1 ++ stamps l2.
Proof. apply bind_app. Qed.

Lemma first_match_app pred l1 l2 :
  first_match pred (l1 ++ l2) =
  match first_match pred l1 with Some r => Some r | None => first_match pred l2 end.
Proof.
  unfold first_match. rewrite fmap_app, stamps_app.
  destruct (list_find _ (stamps l1.*1)) as [[i r]|] eqn:H1.
  - by erewrite list_find_app_l.
  - rewrite list_find_app_r by done. by destruct (list_find _ (stamps l2.*1)) as [[i r]|].
Qed.

(** In an ordered list, what lies behind a batch is what follows it. *)
Lemma from_offset_after lo l1 x l2 :
  ordered lo (l1 ++ x :: l2) → from_offset (batch_last x.1 + 1) (l1 ++ x :: l2) = l2.
Proof.
  intros [H1 (Hx & _ & H2)]%ordered_app. unfold from_offset. rewrite filter_app, filter_cons.
  rewrite decide_False by lia. rewrite filter_none, filter_all; [done| |].
  - eapply Forall_impl; [by apply ordered_below|]. simpl. lia.
  - eapply Forall_impl; [by apply ordered_below|]. simpl. lia.
Qed.

Lemma from_offset_length o l : (length (from_offset o l) ≤ length l)%nat.
Proof. apply length_filter. Qed.

Section Time.
Context {store : BatchStore} {search : BinarySearch}.

(** What one round of the scan reads. *)
Lemma read_from s l cursor window :
  stores s l → 0 ≤ cursor ≤ last_offset s → last_offset s < base_offset s + 2 ^ 32 →
  in_s 64 (last_offset s) → 1 ≤ window →
  ∃ got more, from_offset cursor l = got ++ more ∧ read s cursor window = Ok got.*1 ∧
    (got = [] → more ≠ [] → window < Z.of_nat (length (flat l))).
Proof.
  intros H Hc Hsz Hr Hw.
  destruct (read_window s l cursor window H Hc Hr ltac:(lia) ltac:(lia)) as (l1 & l2 & -> & H1 & _ & Hread).
  destruct (fits_prefix (Z.to_nat window) l2) as [l3 Hl3].
  exists (from_offset cursor (fits (Z.to_nat window) l2)), (from_offset cursor l3). split_and!; [|done|].
  - unfold from_offset. rewrite Hl3 at 1. rewrite !filter_app, (filter_none _ l1); [done|].
    eapply Forall_impl; [exact H1|]. simpl. lia.
  - intros _ Hmore. destruct (decide (length (flat l2) ≤ Z.to_nat window)%nat) as [Hfit|Hfit].
    + exfalso. rewrite fits_all in Hl3 by done. apply Hmore.
      assert (l3 = []) as -> by (apply (app_inv_head l2); by rewrite app_nil_r). done.
    + rewrite flat_app, length_app. lia.
Qed.

Lemma from_offset_covers s l cursor :
  holds s l → base_offset s ≤ cursor ≤ last_offset s → from_offset cursor l ≠ [].
Proof.
  intros [H Hlast] Hc. rewrite Hlast in Hc.
  destruct l as [|y l _] using rev_ind; [unfold next_offset in Hc; simpl in Hc; lia|].
  rewrite next_offset_app in Hc. unfold next_offset in Hc. simpl in Hc. unfold from_offset.
  rewrite filter_app, filter_cons, decide_True by lia. by destruct (filter _ l).
Qed.

(** The scan ends and finds the first match behind the cursor. *)
Lemma scan_from_floor_spec fuel s l pred cursor window :
  holds s l → base_offset s ≤ cursor → last_offset s < base_offset s + 2 ^ 32 →
  last_offset s < 2 ^ 63 - 1 → 1 ≤ window →
  (length (from_offset cursor l) + (length (flat l) - Z.to_nat window) < fuel)%nat →
  scan_from_floor_windowed fuel s pred cursor window = Some (first_match pred (from_offset cursor l)).
Proof.
  intros Hh Hc Hsz Hr Hw. pose proof Hh as [H Hlast].
  pose proof (ordered_next _ _ (h_ordered _ _ H)) as Hn. pose proof (h_base _ _ H) as Hb.
  revert cursor window Hc Hw.
  induction fuel as [|fuel IH]; intros cursor window Hc Hw Hf; [lia|].
  cbn [scan_from_floor_windowed]. destruct (Z.ltb_spec (last_offset s) cursor) as [Hend|Hend].
  { unfold from_offset. rewrite filter_none; [done|].
    eapply Forall_impl; [apply ordered_below, H|]. simpl. lia. }
  destruct (read_from s l cursor window H ltac:(lia) Hsz ltac:(unfold in_s; lia) Hw)
    as (got & more & Hgm & Hread & Hgrow).
  pose proof (from_offset_covers s l cursor Hh ltac:(lia)) as Hne.
  rewrite Hread, fmap_last. destruct got as [|y got _] using rev_ind.
  - rewrite Hgm in Hne. specialize (Hgrow eq_refl Hne). apply IH; lia.
  - rewrite last_snoc. cbn [fmap option_fmap option_map]. rewrite Hgm, first_match_app.
    unfold first_match at 1. destruct (list_find _ (stamps _)) as [[i r]|]; [done|]. cbn [fmap option_fmap option_map].
    destruct (ordered_split _ _ cursor (h_ordered _ _ H)) as (l1 & l2 & -> & H1 & H2).
    assert (from_offset cursor (l1 ++ l2) = l2) as Hl2.
    { unfold from_offset. rewrite filter_app, filter_none, filter_all; [done..|].
      eapply Forall_impl; [exact H1|]. simpl. lia. }
    rewrite Hl2 in Hgm. subst l2. rewrite <- (assoc_L (++)) in *.
    assert (from_offset (batch_last y.1 + 1) (l1 ++ got ++ [y] ++ more) = more) as Hnext.
    { rewrite (assoc_L (++) l1). eapply from_offset_after. rewrite <- (assoc_L (++)). apply H. }
    assert (base_offset s ≤ batch_last y.1 ≤ last_offset s) as Hy.
    { pose proof (ordered_below _ _ (h_ordered _ _ H)) as Hbl. rewrite Forall_forall in Hbl.
      assert (y ∈ l1 ++ got ++ [y] ++ more) as Hy%Hbl
        by (rewrite !elem_of_app, list_elem_of_singleton; auto). lia. }
    rewrite wrap_s_id by (unfold in_s; lia). rewrite IH; [by rewrite Hnext|lia|done|].
    rewrite Hnext. rewrite Hl2, !length_app in Hf. change (length [y]) with 1%nat in Hf. lia.
Qed.

(** ** The time index *)
(** No record is later than its batch says. *)
Definition stamped (x : Stored) : Prop :=
  Forall (fun r => r.2 ≤ Batch.max_timestamp x.1) (stamps [x.1]).

(** Each entry bounds the timestamps of the batches before its offset. *)
Record timed (s : Segment) (l : list Stored) : Prop := {
  t_sorted : StronglySorted Z.le (TimeIndex.entries (time_index s)).*1;
  t_entries : Forall (fun e => e.1 ≤ max_timestamp s ∧
                0 ≤ e.2 ≤ next_offset (base_offset s) l - base_offset s)
                (TimeIndex.entries (time_index s));
  t_below : Forall (fun e => Forall (fun y => batch_last y.1 < base_offset s + e.2 →
                                             Batch.max_timestamp y.1 ≤ e.1) l)
              (TimeIndex.entries (time_index s));
  t_max : Forall (fun y => Batch.max_timestamp y.1 ≤ max_timestamp s) l;
}.

Lemma sorted_snoc l x : StronglySorted Z.le l → Forall (fun y => y ≤ x) l → StronglySorted Z.le (l ++ [x]).
Proof.
  induction 1 as [|y l _ IH Hy]; intros Hx; simpl; [repeat constructor|].
  apply Forall_cons in Hx as [Hyx Hx]. constructor; [by apply IH|].
  apply Forall_app. by rewrite Forall_singleton.
Qed.

(** Appending keeps the time index sound. *)
Lemma account_timed s l x iv :
  holds s l → timed s l → stored x →
  next_offset (base_offset s) l ≤ Batch.base_offset x.1 ≤ batch_last x.1 →
  in_s 64 (Batch.base_offset x.1 + Batch.last_offset_delta x.1) →
  timed (account (set_log (log_file s ++ x.2) s) (log_size s) (Batch.base_offset x.1)
           (batch_last x.1) (Batch.max_timestamp x.1) iv).1 (l ++ [x]).
Proof.
  intros [H _] [T1 T2 T3 T4] Hx Hb Hd. pose proof (ordered_next _ _ (h_ordered _ _ H)) as Hn.
  pose proof (h_base _ _ H) as Hbase.
  assert (Batch.base_offset x.1 ≤ batch_last x.1 < 2 ^ 63) as Hb63.
  { pose proof (wrap_s_range 64 (Batch.base_offset x.1 + Batch.last_offset_delta x.1)).
    unfold batch_last, in_s in *. lia. }
  assert (next_offset (base_offset s) (l ++ [x]) = batch_last x.1 + 1) as Hnx
    by by rewrite next_offset_app.
  set (mx := Z.max (max_timestamp s) (Batch.max_timestamp x.1)).
  assert (timed (set_ends mx (batch_last x.1) (set_log (log_file s ++ x.2) s)) (l ++ [x])) as Hkeep.
  { split; cbn [time_index base_offset max_timestamp set_ends set_log]; try done.
    - rewrite Hnx. eapply Forall_impl; [exact T2|]. simpl. lia.
    - rewrite Forall_forall in T2, T3 |- *. intros e He. apply Forall_app. split; [by apply T3|].
      apply Forall_singleton. specialize (T2 e He). simpl in *. lia.
    - apply Forall_app. split; [|apply Forall_singleton; lia].
      eapply Forall_impl; [exact T4|]. simpl. lia. }
  unfold account. cbv zeta. destruct (should_index _ _ _); [|exact Hkeep].
  cbn [base_offset set_ends set_log]. rewrite wrap_s_id by (unfold in_s; lia).
  destruct (negb _) eqn:Hneg; [exact Hkeep|]. destruct (2 ^ 32 <=? _); [exact Hkeep|]. destruct Hkeep as [K1 K2 K3 K4].
  cbn [time_index base_offset max_timestamp set_ends set_log] in *.
  split; cbn [fst time_index base_offset max_timestamp set_ends set_log set_indexes TimeIndex.append TimeIndex.entries]; try done.
  - rewrite fmap_app. apply sorted_snoc; [done|]. apply Forall_fmap.
    eapply Forall_impl; [exact K2|]. simpl. tauto.
  - apply Forall_app. split; [done|]. apply Forall_singleton. simpl. rewrite Hnx. lia.
  - apply Forall_app. split; [done|]. apply Forall_singleton. eapply Forall_impl; [exact K4|]. simpl. lia.
Qed.

Lemma first_match_none pred l :
  Forall stamped l → Forall (fun y => ∀ ts, ts ≤ Batch.max_timestamp y.1 → pred ts = false) l →
  first_match pred l = None.
Proof.
  intros Hst Hp. unfold first_match.
  assert (list_find (fun r => pred r.2) (stamps l.*1) = None) as ->; [|done].
  apply list_find_None. induction Hst as [|x l Hx Hst IH]; [done|].
  apply Forall_cons in Hp as [Hpx Hp]. rewrite fmap_cons. change (x.1 :: l.*1) with ([x.1] ++ l.*1).
  rewrite stamps_app. apply Forall_app. split; [|by apply IH].
  eapply Forall_impl; [exact Hx|]. simpl. intros r Hr. rewrite (Hpx _ Hr). simpl. tauto.
Qed.

(** The floor a lookup gives skips no batch that reaches the target. *)
Lemma time_floor s l target :
  timed s l →
  (∀ rel, (target, rel) ∈ TimeIndex.entries (time_index s) →
     Forall (fun y => batch_last y.1 < base_offset s + rel → Batch.max_timestamp y.1 < target) l) →
  let rel := TimeIndex.lookup (time_index s) target in
  0 ≤ rel ≤ Z.max 0 (next_offset (base_offset s) l - base_offset s) ∧
  Forall (fun y => batch_last y.1 < base_offset s + rel →
                   Batch.max_timestamp y.1 < target ∨ rel = 0) l.
Proof.
  intros [T1 T2 T3 T4] Hties. cbv zeta. unfold TimeIndex.lookup, TimeIndex.rel_at.
  assert (∀ i e, TimeIndex.entries (time_index s) !! i = Some e → e.1 ≤ target →
    (e.1 = target → (target, e.2) ∈ TimeIndex.entries (time_index s)) →
    0 ≤ e.2 ≤ Z.max 0 (next_offset (base_offset s) l - base_offset s) ∧
    Forall (fun y => batch_last y.1 < base_offset s + e.2 → Batch.max_timestamp y.1 < target ∨ e.2 = 0) l) as He.
  { intros i e Hi Hle Hin. rewrite Forall_lookup in T2, T3. pose proof (T2 _ _ Hi). pose proof (T3 _ _ Hi) as Hb.
    split; [lia|]. destruct (decide (e.1 = target)) as [Heq|Hneq].
    - eapply Forall_impl; [by apply Hties, Hin|]. simpl. tauto.
    - eapply Forall_impl; [exact Hb|]. simpl. intros y Hy Hlt. specialize (Hy Hlt). lia. }
  assert (0 ≤ 0 ≤ Z.max 0 (next_offset (base_offset s) l - base_offset s) ∧
    Forall (fun y => batch_last y.1 < base_offset s + 0 → Batch.max_timestamp y.1 < target ∨ 0 = 0) l) as H0.
  { split; [lia|]. apply Forall_true. auto. }
  destruct (binary_search _ _) as [i|[|i]] eqn:Hb; [| |].
  - apply binary_search_found in Hb; [|done]. rewrite list_lookup_fmap in Hb.
    destruct (_ !! i) as [[ts rel]|] eqn:Hi; [|done]. simplify_eq/=.
    apply (He i (target, rel)); [done|simpl; lia|]. intros _. by eapply list_elem_of_lookup_2.
  - done.
  - apply binary_search_missing in Hb as [Hb _]; [|done].
    destruct (_ !! i) as [[ts rel]|] eqn:Hi; [|done].
    specialize (Hb i ts). rewrite list_lookup_fmap, Hi in Hb. specialize (Hb eq_refl ltac:(lia)).
    apply (He i (ts, rel)); simpl; [done|lia|lia].
Qed.

(** [offset_for_timestamp] ends and returns the first record of the segment
    whose timestamp reaches the target, for any window size, provided that no
    index entry with exactly the target's timestamp lies behind a batch that
    already reached it. *)
Theorem offset_for_timestamp_exact s l target window :
  holds s l → timed s l → Forall stamped l →
  last_offset s < base_offset s + 2 ^ 32 → last_offset s < 2 ^ 63 - 1 →
  (∀ rel, (target, rel) ∈ TimeIndex.entries (time_index s) →
     Forall (fun y => batch_last y.1 < base_offset s + rel → Batch.max_timestamp y.1 < target) l) →
  offset_for_timestamp (S (length l + length (flat l))) s target window =
  Some (first_match (fun ts => target <=? ts) l).
Proof.
  intros Hh Ht Hst Hsz Hr Hties. pose proof Hh as [H Hlast].
  destruct (time_floor s l target Ht Hties) as [Hrel Hbelow]. cbv zeta in *.
  pose proof (h_base _ _ H) as Hb. pose proof (ordered_next _ _ (h_ordered _ _ H)) as Hn.
  unfold offset_for_timestamp. set (rel := TimeIndex.lookup _ _) in *.
  rewrite wrap_s_id by (unfold in_s; lia).
  rewrite (scan_from_floor_spec _ s l) by (done || lia ||
    (pose proof (from_offset_length (base_offset s + rel) l); lia)).
  f_equal. destruct (ordered_split _ _ (base_offset s + rel) (h_ordered _ _ H)) as (l1 & l2 & -> & H1 & H2).
  unfold from_offset. rewrite filter_app, filter_none, filter_all; [|done|].
  2: { eapply Forall_impl; [exact H1|]. simpl. lia. }
  cbn [app]. rewrite first_match_app, (first_match_none _ l1); [done| |].
  - by apply Forall_app in Hst as [? _].
  - apply Forall_app in Hbelow as [Hbelow _]. rewrite Forall_forall in H1, Hbelow |- *. intros y Hy ts Hts.
    apply Z.leb_gt. destruct (Hbelow y Hy (H1 y Hy)) as [|Hz]; [lia|].
    pose proof (ordered_below _ _ (h_ordered _ _ H)) as Hbl. rewrite Forall_forall in Hbl.
    assert (y ∈ l1 ++ l2) as Hy'%Hbl by (apply elem_of_app; auto). specialize (H1 y Hy). lia.
Qed.

(** Sealing a segment at an offset its batches do not reach, as [Log::open]
    does from the name of the next segment, makes the timestamp scan run forever
    once it is past the last batch: every read is empty, and the loop grows its
    window and tries again. *)
Theorem sealed_scan_diverges s l last pred cursor window fuel :
  stores s l → next_offset (base_offset s) l ≤ cursor ≤ last → last < base_offset s + 2 ^ 32 →
  last < 2 ^ 63 → 1 ≤ window →
  scan_from_floor_windowed fuel (seal_at s last) pred cursor window = None.
Proof.
  intros H Hc Hsz Hr Hw. pose proof (h_base _ _ H) as Hb. pose proof (ordered_next _ _ (h_ordered _ _ H)) as Hn.
  assert (stores (seal_at s last) l) as Hs by by destruct H.
  revert window Hw. induction fuel as [|fuel IH]; intros window Hw; [done|].
  cbn [scan_from_floor_windowed]. rewrite (proj2 (Z.ltb_ge _ _)) by (simpl; lia).
  destruct (read_from (seal_at s last) l cursor window Hs) as (got & more & Hgm & Hread & _);
    [simpl; unfold in_s; lia..|]. rewrite Hread.
  assert (from_offset cursor l = []) as Hnil.
  { unfold from_offset. apply filter_none. eapply Forall_impl; [apply ordered_below, H|]. simpl. lia. }
  rewrite Hnil in Hgm. symmetry in Hgm. apply app_eq_nil in Hgm as [-> _]. apply IH. lia.
Qed.
End Time.
