(* ===== verification/SegmentCases.v ===== *)
(** * Segments at work

    A small segment written through [append], with the batch codec of
    [Batches.v] and a concrete search: the theorems on segments at concrete
    inputs, and the behaviours of the code that fall short of its comments. *)

From S2P Require Import Prelude Wire Compression Records Batches BatchStore LogIndex Segment SegmentInv.
From S2P Require Import SegmentRead SegmentTime.

#[export] Instance toy_store : BatchStore :=
  codec_store toy_crc toy_crc_append stored_backends (fun _ => 1000).

(** One record per batch. *)
Definition one (base ts : Z) : Batch.RecordBatch :=
  Batch.mkBatch base 0 0 0 ts ts (-1) (-1) (-1) [mkRecord 0 0 0 None None []].
Definition wire (b : Batch.RecordBatch) : list byte :=
  match batch_encode b with Ok bs => bs | Err _ => [] end.
Definition put (s : Segment) (b : Batch.RecordBatch) : Segment := (append s b 100).1.

(** Three batches of 68 bytes; the second has no index entry. *)
Definition trio : list Stored := [(one 0 10, wire (one 0 10)); (one 1 100, wire (one 1 100)); (one 2 50, wire (one 2 50))].
Definition sample : Segment := put (put (put (create 0) (one 0 10)) (one 1 100)) (one 2 50).

Lemma create_holds base : 0 ≤ base < 2 ^ 63 → holds (create base) [] ∧ timed (create base) [].
Proof.
  intros Hb. split; [split; [split|]|split]; try done; try (by constructor).
  by split; try constructor.
Qed.

Lemma put_holds s l b :
  holds s l → timed s l → sealed s = false → batch_encode b = Ok (wire b) → stored (b, wire b) →
  next_offset (base_offset s) l ≤ Batch.base_offset b ≤ batch_last b →
  in_s 64 (Batch.base_offset b + Batch.last_offset_delta b) →
  holds (put s b) (l ++ [(b, wire b)]) ∧ timed (put s b) (l ++ [(b, wire b)]) ∧
  sealed (put s b) = false ∧ base_offset (put s b) = base_offset s.
Proof.
  intros H Ht Hs He Hst Hb Hd. pose proof (account_holds s l (b, wire b) 100 H Hst Hb Hd) as Hh.
  pose proof (account_timed s l (b, wire b) 100 H Ht Hst Hb Hd) as Htt.
  unfold put, append. rewrite Hs, He. cbv zeta. cbn [fst snd] in *.
  destruct (account_same (set_log (log_file s ++ wire b) s) (log_size s) (Batch.base_offset b) (batch_last b)
    (Batch.max_timestamp b) 100) as [-> ->].
  by destruct (account _ _ _ _ _ _) as [s' r]; destruct Hh.
Qed.

Lemma one_ok base ts :
  base = 0 ∨ base = 1 ∨ base = 2 ∨ base = 3 → ts = 10 ∨ ts = 50 ∨ ts = 100 →
  batch_encode (one base ts) = Ok (wire (one base ts)) ∧ stored (one base ts, wire (one base ts)) ∧
  batch_last (one base ts) = base.
Proof. intros [-> |[-> |[-> | ->]]] [-> |[-> | ->]]; split_and!; vm_compute; reflexivity. Qed.

Lemma sample_ok : holds sample trio ∧ timed sample trio ∧ sealed sample = false.
Proof.
  destruct (create_holds 0 ltac:(lia)) as [H0 T0].
  destruct (one_ok 0 10 ltac:(auto) ltac:(auto)) as (E1 & S1 & L1).
  destruct (one_ok 1 100 ltac:(auto) ltac:(auto)) as (E2 & S2 & L2).
  destruct (one_ok 2 50 ltac:(auto) ltac:(auto)) as (E3 & S3 & L3).
  destruct (put_holds _ _ (one 0 10) H0 T0 eq_refl E1 S1) as (H1 & T1 & Hs1 & B1);
    [rewrite L1; by split|by split|].
  destruct (put_holds _ _ (one 1 100) H1 T1 Hs1 E2 S2) as (H2 & T2 & Hs2 & B2);
    [rewrite B1, L2; unfold next_offset; rewrite foldl_app; cbn [foldl fst]; rewrite L1; by split|by split|].
  destruct (put_holds _ _ (one 2 50) H2 T2 Hs2 E3 S3) as (H3 & T3 & Hs3 & _);
    [rewrite B2, B1, L3; unfold next_offset; rewrite foldl_app; cbn [foldl fst]; rewrite L2; by split|by split|].
  split_and!; [exact H3|exact T3|exact Hs3].
Qed.

(** ** Where the code falls short *)

(** The anti-stall rule of [read_raw] fails when the index leads to an
    earlier batch and the window ends before the header of the wanted one: the
    batch at offset 1 has 68 bytes, and a fetch of up to 100 bytes from offset 1
    returns nothing, as does every retry; only a window that also spans the
    batch before it makes progress. *)
Theorem read_raw_stalls :
  map (fun x => length x.2) trio = [68; 68; 68]%nat ∧ last_offset sample = 2 ∧
  read_raw sample 1 3 100 = Ok raw_empty ∧
  read_raw sample 1 3 136 = Ok (mkRaw 1 1 (wire (one 1 100))).
Proof. vm_compute. done. Qed.

(** Recovery gives up when the index is ahead of the log, as after a crash
    that kept an index entry but not the batch it points to: the two complete
    batches in the file are left in place, but the segment claims to be empty,
    so the next append writes offset 0 again behind them. *)
Theorem recovery_forgets_batches :
  let s := open_active 0 (take 136 (log_file sample)) (OffsetIndex.file (offset_index sample))
             (TimeIndex.file (time_index sample)) true in
  OffsetIndex.entries (offset_index s) = [(0, 0); (2, 136)] ∧
  log_file s = flat (take 2 trio) ∧ last_offset s = -1.
Proof. vm_compute. done. Qed.

Lemma lookup_second {search : BinarySearch} ix :
  TimeIndex.entries ix = [(10, 0); (100, 2)] → TimeIndex.lookup ix 100 = 2.
Proof.
  unfold TimeIndex.lookup, TimeIndex.rel_at. intros ->. cbn [fmap list_fmap fst].
  destruct (binary_search [10; 100] 100) as [i|i] eqn:Hb.
  - apply binary_search_found in Hb; [|repeat constructor; lia].
    destruct i as [|[|i]]; simplify_eq/=; done.
  - apply binary_search_missing in Hb as [H1 H2]; [|repeat constructor; lia].
    destruct (decide (1 < i)%nat) as [Hi|Hi].
    + specialize (H1 1%nat 100 eq_refl Hi). lia.
    + specialize (H2 1%nat 100 eq_refl ltac:(lia)). lia.
Qed.

(** The time index can hide the answer: the entry for the third batch
    carries the maximum timestamp so far, 100, which is that of the second batch,
    so a lookup of 100 starts behind the record it should find.  Both the lookup
    of timestamp 100 and the lookup of the maximum find nothing, with any search
    that meets its contract, although the record at offset 1 has it. *)
Theorem time_index_hides_batch {search : BinarySearch} :
  TimeIndex.entries (time_index sample) = [(10, 0); (100, 2)] ∧ max_timestamp sample = 100 ∧
  first_match (fun ts => 100 <=? ts) trio = Some (1, 100) ∧
  offset_for_timestamp 10 sample 100 1048576 = Some None ∧
  offset_of_max_timestamp 10 sample 1048576 = Some None.
Proof.
  assert (TimeIndex.entries (time_index sample) = [(10, 0); (100, 2)]) as He by (vm_compute; done).
  pose proof (lookup_second _ He) as Hl.
  split_and!; [done|by vm_compute|by vm_compute| |].
  - unfold offset_for_timestamp. rewrite Hl. by vm_compute.
  - unfold offset_of_max_timestamp. replace (max_timestamp sample) with 100 by (vm_compute; done).
    rewrite Hl. by vm_compute.
Qed.

(** ** The theorems at this segment *)
#[export] Instance toy_search : BinarySearch := lower_bound_search.

Lemma sample_facts :
  base_offset sample = 0 ∧ last_offset sample = 2 ∧ next_offset (base_offset sample) trio = 3 ∧
  length (flat trio) = 204%nat.
Proof. vm_compute. done. Qed.

Lemma trio_stamped : Forall stamped trio.
Proof. repeat constructor; vm_compute; discriminate. Qed.

Lemma offset_for_timestamp_exact_witness :
  offset_for_timestamp 208 sample 20 1 = Some (first_match (fun ts => 20 <=? ts) trio).
Proof.
  destruct sample_ok as (H & Ht & _).
  apply (offset_for_timestamp_exact sample trio 20 1 H Ht trio_stamped).
  - vm_compute. reflexivity.
  - vm_compute. reflexivity.
  - intros rel Hin. replace (TimeIndex.entries (time_index sample)) with [(10, 0); (100, 2)] in Hin
      by (vm_compute; reflexivity).
    rewrite !elem_of_cons in Hin. destruct Hin as [[=]|[[=]|Hin]]. by apply not_elem_of_nil in Hin.
Defined.

Lemma sealed_scan_diverges_witness :
  scan_from_floor_windowed 1000 (seal_at sample 9) (fun ts => 200 <=? ts) 3 1048576 = None.
Proof.
  destruct sample_ok as ([H _] & _ & _).
  apply (sealed_scan_diverges sample trio 9 (fun ts => 200 <=? ts) 3 1048576 1000 H);
    vm_compute; first [reflexivity | split; (reflexivity || discriminate) | discriminate].
Defined.
