(* ===== verification/Kernels.v ===== *)
(** * Decision kernels

    Models the pure functions of [crates/verified/src]: the consensus kernels
    ([consensus.rs]), the broker's fetch and delete-records arithmetic
    ([broker.rs]) and the offset reservation ([offset_allocator.rs]).  The
    high-watermark kernel is compared with its sort-based definition. *)

From S2P Require Import Prelude.

(** ** consensus.rs *)
Module Consensus.

Definition election_jitter_ms (me epoch base_ms : Z) : Z :=
  if base_ms =? 0 then 0 else
  let mix := Z.lxor (wrap_u 64 (me * 0x9E3779B97F4A7C15))
                    (wrap_u 64 (epoch * 0xD1B54A32D192ED03)) in
  mix mod base_ms.

Definition log_is_up_to_date (my_epoch my_end cand_epoch cand_offset : Z) : bool :=
  (my_epoch <? cand_epoch) || ((cand_epoch =? my_epoch) && (my_end <=? cand_offset)).

(** The counter stops at [majority], as in the source. *)
Definition bump (cand : Z) (majority : nat) (count : nat) (x : Z) : nat :=
  if (cand <=? x) && bool_decide (count < majority)%nat then S count else count.
Definition candidate_has_majority (log_end : Z) (follower_offsets : list Z) (cand : Z)
    (majority : nat) : bool :=
  let count := bump cand majority 0 log_end in
  let count := foldl (bump cand majority) count follower_offsets in
  bool_decide (majority ≤ count)%nat.

Definition I64_MIN : Z := - 2 ^ 63.

Definition recompute_high_watermark (log_end : Z) (follower_offsets : list Z) (majority : nat)
    (epoch_start_offset current_hwm : Z) : Z :=
  let majority_offset :=
    if candidate_has_majority log_end follower_offsets log_end majority then log_end else I64_MIN in
  let majority_offset :=
    foldl (fun best cand =>
             if (best <? cand) && candidate_has_majority log_end follower_offsets cand majority
             then cand else best) majority_offset follower_offsets in
  let gated := if epoch_start_offset <? majority_offset then majority_offset else current_hwm in
  Z.max gated current_hwm.

Definition handoff_high_watermark (previous_hw quorum_frontier : Z) : Z :=
  if quorum_frontier <=? previous_hw then previous_hw else quorum_frontier.

(** *** Counting members *)
Definition count_ge (v : Z) (l : list Z) : nat := length (filter (fun x => v ≤ x) l).

Lemma count_ge_cons v x l :
  count_ge v (x :: l) = ((if (v <=? x)%Z then 1 else 0) + count_ge v l)%nat.
Proof.
  unfold count_ge. rewrite filter_cons. destruct (Z.leb_spec v x).
  - by rewrite decide_True by done.
  - by rewrite decide_False by lia.
Qed.

Lemma bump_fold cand majority l count :
  (count ≤ majority)%nat →
  foldl (bump cand majority) count l = Nat.min (count + count_ge cand l) majority.
Proof.
  revert count. induction l as [|x l IH]; intros count Hc; simpl.
  - unfold count_ge. simpl. lia.
  - rewrite count_ge_cons. unfold bump at 2. destruct (cand <=? x); simpl.
    + case_bool_decide; rewrite IH by lia; lia.
    + rewrite IH by lia. done.
Qed.

Lemma candidate_has_majority_spec log_end l cand majority :
  candidate_has_majority log_end l cand majority =
  bool_decide (majority ≤ count_ge cand (log_end :: l))%nat.
Proof.
  unfold candidate_has_majority. rewrite bump_fold.
  - apply bool_decide_ext. rewrite count_ge_cons. unfold bump.
    destruct (cand <=? log_end); simpl; [case_bool_decide|]; lia.
  - unfold bump. destruct (_ && _) eqn:H; [zify_bools|]; lia.
Qed.

(** [m] is the [k]-th largest element of [l]. *)
Definition kth_largest (k : nat) (l : list Z) (m : Z) : Prop :=
  m ∈ l ∧ (k ≤ count_ge m l)%nat ∧ ∀ v, v ∈ l → (k ≤ count_ge v l)%nat → v ≤ m.

Lemma kth_largest_unique k l m m' : kth_largest k l m → kth_largest k l m' → m = m'.
Proof. intros (H1 & H2 & H3) (H1' & H2' & H3'). apply Z.le_antisymm; eauto. Qed.

Lemma count_ge_perm v l l' : l ≡ₚ l' → count_ge v l = count_ge v l'.
Proof. intros Hp. unfold count_ge. by rewrite Hp. Qed.

Lemma count_ge_mono v w l : v ≤ w → (count_ge w l ≤ count_ge v l)%nat.
Proof.
  intros Hvw. induction l as [|x l IH]; [done|]. rewrite !count_ge_cons.
  destruct (Z.leb_spec w x), (Z.leb_spec v x); lia.
Qed.

(** Sorting in decreasing order and indexing finds it. *)
Definition sort_desc (l : list Z) : list Z := merge_sort (flip Z.le) l.

Lemma count_ge_nth_sorted l i m :
  StronglySorted (flip Z.le) l → l !! i = Some m → (S i ≤ count_ge m l)%nat.
Proof.
  intros Hs. revert i. induction Hs as [|x l Hs IH Hx]; intros i Hi; [done|].
  rewrite count_ge_cons. destruct i as [|i]; simplify_eq/=.
  - destruct (Z.leb_spec m m); lia.
  - pose proof (IH _ Hi). rewrite Forall_forall in Hx.
    assert (m ≤ x) by (apply Hx; by eapply list_elem_of_lookup_2).
    destruct (Z.leb_spec m x); lia.
Qed.

Lemma count_ge_above_nth l i m v :
  StronglySorted (flip Z.le) l → l !! i = Some m → m < v → (count_ge v l ≤ i)%nat.
Proof.
  intros Hs. revert i. induction Hs as [|x l Hs IH Hx]; intros i Hi Hv; [done|].
  rewrite count_ge_cons. rewrite Forall_forall in Hx. destruct i as [|i]; simplify_eq/=.
  - destruct (Z.leb_spec v m); [lia|]. clear IH Hs. induction l as [|y l IH]; [done|].
    rewrite count_ge_cons. assert (y ≤ m) by (apply Hx; by left).
    destruct (Z.leb_spec v y); [lia|]. apply IH. intros z Hz. apply Hx. by right.
  - pose proof (IH _ Hi Hv). destruct (Z.leb_spec v x); lia.
Qed.

#[local] Instance flip_le_total : Total (flip Z.le).
Proof. intros x y. unfold flip. lia. Qed.
#[local] Instance flip_le_trans : Transitive (flip Z.le).
Proof. intros x y z. unfold flip. lia. Qed.

Lemma sort_desc_kth k l m :
  (1 ≤ k)%nat → sort_desc l !! (k - 1)%nat = Some m → kth_largest k l m.
Proof.
  intros Hk Hm.
  assert (StronglySorted (flip Z.le) (sort_desc l)) as Hs by apply (StronglySorted_merge_sort _ _).
  assert (sort_desc l ≡ₚ l) as Hp by apply merge_sort_Permutation.
  split_and!.
  - rewrite <- Hp. by eapply list_elem_of_lookup_2.
  - rewrite <- (count_ge_perm m _ _ Hp). pose proof (count_ge_nth_sorted _ _ _ Hs Hm). lia.
  - intros v _ Hv. rewrite <- (count_ge_perm v _ _ Hp) in Hv.
    destruct (decide (v ≤ m)) as [|Hlt]; [done|].
    pose proof (count_ge_above_nth _ _ _ v Hs Hm). lia.
Qed.

(** The scan of the kernel keeps the greatest qualifying member seen so far. *)
Lemma scan_best (P : Z → bool) l best :
  let best' := foldl (fun b c => if (b <? c) && P c then c else b) best l in
  best ≤ best' ∧ (best' = best ∨ (best' ∈ l ∧ P best' = true)) ∧
  (∀ v, v ∈ l → P v = true → v ≤ best').
Proof.
  revert best. induction l as [|x l IH]; intros best; cbn [foldl].
  { split_and!; [lia|by left|]. intros v Hv. by apply elem_of_nil in Hv. }
  set (b1 := if (best <? x) && P x then x else best).
  destruct (IH b1) as (H1 & H2 & H3). fold b1 in H1, H2, H3. cbv zeta in *.
  set (b2 := foldl _ b1 l) in *. clearbody b2.
  assert (best ≤ b1 ∧ (b1 = best ∨ b1 = x ∧ P x = true) ∧ (P x = true → x ≤ b1)) as (K1 & K2 & K3).
  { subst b1. destruct (Z.ltb_spec best x), (P x); simpl; auto with lia. }
  split_and!.
  - lia.
  - destruct H2 as [->|[Hin HP]]; [|right; split; [by right|done]].
    destruct K2 as [->|[-> ?]]; [by left|right; split; [by left|done]].
  - intros v [->|Hv]%elem_of_cons HP; [specialize (K3 HP); lia|by apply H3].
Qed.

(** The kernel's majority offset. *)
Definition majority_offset (log_end : Z) (l : list Z) (majority : nat) : Z :=
  foldl (fun best cand =>
           if (best <? cand) && candidate_has_majority log_end l cand majority
           then cand else best)
    (if candidate_has_majority log_end l log_end majority then log_end else I64_MIN) l.

Lemma sort_desc_lookup l k :
  (1 ≤ k ≤ length l)%nat → ∃ m, sort_desc l !! (k - 1)%nat = Some m.
Proof.
  intros Hk. apply lookup_lt_is_Some_2.
  assert (sort_desc l ≡ₚ l) as Hp by apply merge_sort_Permutation.
  apply Permutation_length in Hp. lia.
Qed.

Lemma majority_offset_scan log_end l majority :
  let best := majority_offset log_end l majority in
  let qualifies v := (majority ≤ count_ge v (log_end :: l))%nat in
  (best = I64_MIN ∨ (best ∈ log_end :: l ∧ qualifies best)) ∧
  (∀ v, v ∈ log_end :: l → qualifies v → v ≤ best).
Proof.
  cbv zeta. unfold majority_offset.
  destruct (scan_best (fun c => candidate_has_majority log_end l c majority) l
    (if candidate_has_majority log_end l log_end majority then log_end else I64_MIN))
    as (H1 & H2 & H3).
  cbv zeta in *. set (best := foldl _ _ l) in *. clearbody best.
  setoid_rewrite candidate_has_majority_spec in H2.
  setoid_rewrite candidate_has_majority_spec in H3.
  rewrite candidate_has_majority_spec in H1.
  setoid_rewrite bool_decide_eq_true in H2. setoid_rewrite bool_decide_eq_true in H3.
  split.
  - destruct H2 as [->|[Hin Hq]]; [|right; split; [by right|done]].
    case_bool_decide; [right; split; [by left|done]|by left].
  - intros v [->|Hv]%elem_of_cons Hq; [|by apply H3].
    by rewrite bool_decide_eq_true_2 in H1 by done.
Qed.

Lemma majority_offset_kth log_end l majority :
  (1 ≤ majority ≤ S (length l))%nat → Forall (in_s 64) (log_end :: l) →
  kth_largest majority (log_end :: l) (majority_offset log_end l majority).
Proof.
  intros Hm Hr. destruct (majority_offset_scan log_end l majority) as (H2 & H3).
  cbv zeta in *. set (best := majority_offset _ _ _) in *. clearbody best.
  destruct (sort_desc_lookup (log_end :: l) majority) as [m Hsort]; [simpl; lia|].
  apply sort_desc_kth in Hsort as (Km1 & Km2 & _); [|lia].
  destruct H2 as [->|[Hin Hq]]; [|by split_and!].
  assert (m = I64_MIN) as ->; [|by split_and!].
  specialize (H3 m Km1 Km2). rewrite Forall_forall in Hr. specialize (Hr m Km1).
  unfold in_s, I64_MIN in *. lia.
Qed.

(** What the callers rely on, without assumptions on the offsets. *)
Lemma recompute_high_watermark_spec log_end l majority start cur :
  let new := recompute_high_watermark log_end l majority start cur in
  cur ≤ new ∧
  (cur < new → start < new ∧ (new = I64_MIN ∨
     (new ∈ log_end :: l ∧ (majority ≤ count_ge new (log_end :: l))%nat))).
Proof.
  cbv zeta.
  change (recompute_high_watermark log_end l majority start cur) with
    (Z.max (if start <? majority_offset log_end l majority
            then majority_offset log_end l majority else cur) cur).
  destruct (majority_offset_scan log_end l majority) as (H2 & _).
  cbv zeta in *. set (best := majority_offset _ _ _) in *. clearbody best.
  destruct (Z.ltb_spec start best); split; try lia. intros Hlt.
  by rewrite Z.max_l by lia.
Qed.

(** The definition the kernel replaced: sort in decreasing order, take the
    [majority]-th element, gate it on the epoch start, never go back. *)
Definition hwm_by_sort (log_end : Z) (follower_offsets : list Z) (majority : nat)
    (epoch_start_offset current_hwm : Z) : option Z :=
  m ← sort_desc (log_end :: follower_offsets) !! (majority - 1)%nat;
  Some (Z.max (if epoch_start_offset <? m then m else current_hwm) current_hwm).

(** C13. The high-watermark kernel computes the majority-th largest replicated
    offset: it agrees with the sort-based definition for every voter count. *)
Theorem hwm_is_majority_offset log_end follower_offsets majority start cur :
  (1 ≤ majority ≤ S (length follower_offsets))%nat →
  Forall (in_s 64) (log_end :: follower_offsets) →
  hwm_by_sort log_end follower_offsets majority start cur =
  Some (recompute_high_watermark log_end follower_offsets majority start cur).
Proof.
  intros Hm Hr. unfold hwm_by_sort.
  destruct (sort_desc_lookup (log_end :: follower_offsets) majority) as [m Hsort]; [simpl; lia|].
  rewrite Hsort. simpl. f_equal. apply sort_desc_kth in Hsort; [|lia].
  by rewrite (kth_largest_unique _ _ _ _ Hsort (majority_offset_kth _ _ _ Hm Hr)).
Qed.

Lemma hwm_is_majority_offset_witness :
  hwm_by_sort 10 [7; 4; 9; 2] 3 5 6 = Some 7.
Proof.
  apply (hwm_is_majority_offset 10 [7; 4; 9; 2] 3 5 6);
    [simpl; lia|repeat constructor; unfold in_s; lia].
Defined.

(** The jitter stays below the base, so the sum the election timer adds it to
    cannot overflow for any timeout [new] can build. *)
Lemma election_jitter_range me epoch base :
  0 ≤ base → 0 ≤ election_jitter_ms me epoch base ≤ base.
Proof.
  intros Hb. unfold election_jitter_ms. destruct (Z.eqb_spec base 0); [lia|].
  match goal with |- context [?m mod base] => pose proof (Z.mod_pos_bound m base) end. lia.
Qed.

End Consensus.

(** ** broker.rs *)
Module Broker.



Definition delete_records_target (requested_offset high_watermark : Z) : Z :=
  if requested_offset =? -1 then high_watermark else requested_offset.
Definition delete_records_offset_out_of_range (target log_end_offset : Z) : bool :=
  (target <? 0) || (log_end_offset <? target).

Definition effective_share_backlog (hwm spso log_start : Z) : Z :=
  let base := if (0 <=? spso) && (log_start <? spso) then spso else log_start in
  let difference := sat_s 64 (hwm - base) in
  if 0 <? difference then difference else 0.



End Broker.

(** ** offset_allocator.rs *)
Module OffsetAllocator.

Definition reserve_offsets (next count : Z) : Z * Z := (next, sat_s 64 (next + count)).

(** Reserved ranges follow each other: the next base is the end of this range. *)
Lemma reserve_offsets_advance next count :
  0 ≤ next → 0 ≤ count → next + count < 2 ^ 63 →
  reserve_offsets next count = (next, next + count).
Proof. intros. unfold reserve_offsets. rewrite sat_s_id; [done|]. unfold in_s. lia. Qed.

End OffsetAllocator.
