(* ===== verification/Voters.v ===== *)
(** * Voter sets (KIP-853)

    Models [crates/voters/src/lib.rs].  A [BTreeMap] keyed by node id is a
    [gmap]; ids are Rust [u64]s, kept as [Z]. *)

From S2P Require Import Prelude.

Abbreviation NodeId := Z (only parsing).
Abbreviation Uuid := (list byte) (only parsing).

Record VoterEndpoint : Type := mkEndpoint {
  name : string;
  host : string;
  port : Z;
}.
Record KRaftVersionRange : Type := mkRange {
  min : Z;
  max : Z;
}.
Definition default_range : KRaftVersionRange := mkRange 0 1.
Record Voter : Type := mkVoter {
  id : NodeId;
  directory_id : Uuid;
  endpoints : list VoterEndpoint;
  kraft_version : KRaftVersionRange;
}.

#[global] Instance endpoint_eq_dec : EqDecision VoterEndpoint.
Proof. solve_decision. Defined.
#[global] Instance range_eq_dec : EqDecision KRaftVersionRange.
Proof. solve_decision. Defined.
#[global] Instance voter_eq_dec : EqDecision Voter.
Proof. solve_decision. Defined.

Module VoterSet.

Abbreviation t := (gmap NodeId Voter).

(** Collecting into a map: a later voter with the same id replaces an earlier one. *)
Definition from_voters (voters : list Voter) : t :=
  foldl (fun m v => <[id v := v]> m) ∅ voters.
Definition contains (s : t) (n : NodeId) : bool := bool_decide (n ∈ dom s).
Definition get (s : t) (n : NodeId) : option Voter := s !! n.
Definition ids (s : t) : gset NodeId := dom s.
Definition len (s : t) : nat := size s.
Definition is_empty (s : t) : bool := bool_decide (s = ∅).
Definition with_voter (s : t) (v : Voter) : t := <[id v := v]> s.
Definition without_voter (s : t) (n : NodeId) : t := delete n s.

Lemma contains_spec s n : contains s n = true ↔ n ∈ ids s.
Proof. unfold contains, ids. by rewrite bool_decide_eq_true. Qed.

Lemma contains_false s n : contains s n = false ↔ n ∉ ids s.
Proof. unfold contains, ids. by rewrite bool_decide_eq_false. Qed.

Lemma len_ids s : len s = size (ids s).
Proof. unfold len, ids. by rewrite size_dom. Qed.

(** Every key of a set built by these operations is the id of its voter. *)
Definition keyed (s : t) : Prop := map_Forall (fun n v => id v = n) s.

Lemma keyed_with_voter s v : keyed s → keyed (with_voter s v).
Proof. intros. by apply map_Forall_insert_2. Qed.

Lemma keyed_from_voters vs : keyed (from_voters vs).
Proof.
  unfold from_voters. assert (keyed ∅) as H by apply map_Forall_empty.
  revert H. generalize (∅ : t). induction vs as [|v vs IH]; simpl; [done|].
  intros m Hm. by apply IH, keyed_with_voter.
Qed.

End VoterSet.
