(* ===== verification/Kraft.v ===== *)
(** * The KRaft quorum state machine (KIP-595, KIP-996, KIP-853)

    Models [crates/kraft-core/src]: the data of [types.rs], [role.rs],
    [event.rs] and [action.rs], and every operation of [core.rs].  A method
    [fn m(&mut self, ...) -> Vec<Action>] is a function from a machine to the
    new machine and the actions, in the order they are pushed.  Tracing has no
    effect and is dropped. *)

From S2P Require Import Prelude Kernels Voters.

(** ** types.rs *)
Abbreviation Epoch := Z (only parsing).
Abbreviation SimInstant := Z (only parsing).
Definition U32_MAX : Z := 2 ^ 32 - 1.

Definition saturating_add_ms (t : SimInstant) (ms : Z) : SimInstant := sat_u 64 (t + ms).

Record ReplicaKey : Type := mkReplicaKey {
  key_id : NodeId;
  key_directory_id : Uuid;
}.
Definition nil_uuid : Uuid := replicate 16 x00.

Record LogOffsetMetadata : Type := mkLogOffset {
  offset : Z;
  epoch : Epoch;
}.

(** The [LogView] trait: the three answers the machine may ask its log for. *)
Record LogView : Type := mkLogView {
  end_offset : Z;
  last_epoch : Epoch;
  end_offset_for_epoch : Epoch → option Z;
}.

Record QuorumState : Type := mkQuorumState {
  cluster_id : Uuid;
  kraft_version : Z;
  leader_epoch : Epoch;
  leader_id : option NodeId;
  voted_key : option ReplicaKey;
  voters : VoterSet.t;
}.
Definition bootstrap (cluster_id : Uuid) (voters : VoterSet.t) : QuorumState :=
  mkQuorumState cluster_id 0 0 None None voters.
Definition majority (s : QuorumState) : nat := (VoterSet.len (voters s) / 2 + 1)%nat.
#[global] Arguments majority : simpl never.

(** ** role.rs *)
Record ReplicaProgress : Type := mkProgress {
  fetch_offset : Z;
}.
Definition default_progress : ReplicaProgress := mkProgress 0.

Inductive Role : Type :=
| Unattached (election_deadline : SimInstant)
| Voted (election_deadline : SimInstant)
| Follower (leader : NodeId) (fetch_deadline : SimInstant)
| Prospective (granted : gset NodeId) (election_deadline : SimInstant)
| Candidate (granted : gset NodeId) (election_deadline : SimInstant)
| Leader (replicas : gmap NodeId ReplicaProgress) (high_watermark epoch_start_offset : Z)
| Resigned
| Observer (leader : option NodeId) (fetch_deadline : SimInstant).
Definition default_role : Role := Unattached 0.
Definition is_leader (r : Role) : bool :=
  match r with Leader _ _ _ => true | _ => false end.
Definition role_name (r : Role) : string :=
  match r with
  | Unattached _ => "Unattached"
  | Voted _ => "Voted"
  | Follower _ _ => "Follower"
  | Prospective _ _ => "Prospective"
  | Candidate _ _ => "Candidate"
  | Leader _ _ _ => "Leader"
  | Resigned => "Resigned"
  | Observer _ _ => "Observer"
  end.

(** ** event.rs *)
Record LogEnd : Type := mkLogEnd {
  le_last_epoch : Epoch;
  le_last_offset : Z;
}.
Inductive Event : Type :=
| ElectionTimeout
| FetchTimeout
| ReceiveVoteRequest (from voter_id : NodeId) (candidate_epoch : Epoch) (candidate : NodeId)
    (candidate_log_end : LogEnd) (pre_vote : bool)
| ReceiveVoteResponse (from : NodeId) (epoch : Epoch) (vote_granted : bool)
| ReceiveBeginQuorumEpoch (leader : NodeId) (leader_epoch : Epoch)
| ReceiveEndQuorumEpoch (leader : NodeId) (leader_epoch : Epoch)
| ReceiveFetch (from : NodeId) (fetch_epoch : Epoch) (fetch_offset : Z)
| ReceiveFetchResponse (leader : NodeId) (leader_epoch : Epoch)
    (diverging : option LogOffsetMetadata).

(** ** action.rs *)
Inductive TimerKind : Type := ElectionTimer | FetchTimer.
Inductive Action : Type :=
| SendVoteRequest (epoch : Epoch) (pre_vote : bool)
| ReplyVote (to : NodeId) (epoch : Epoch) (granted : bool)
| SendBeginQuorumEpoch (epoch : Epoch)
| SendEndQuorumEpoch (epoch : Epoch)
| SendFetch (leader : NodeId)
| TransitionedTo (role : string)
| PersistQuorumState
| AppendLeaderChange (epoch : Epoch)
| AdvanceHighWatermark (offset : Z)
| TruncateTo (point : LogOffsetMetadata)
| ResetTimer (kind : TimerKind) (deadline : SimInstant).

(** ** core.rs *)
Record QuorumStateMachine : Type := mkMachine {
  me : NodeId;
  state : QuorumState;
  adjacent_voters : option VoterSet.t;
  role : Role;
  election_timeout_ms : Z;
}.
Abbreviation M := QuorumStateMachine.

(** Field updates. *)
Definition set_state (s : QuorumState) (m : M) : M :=
  mkMachine (me m) s (adjacent_voters m) (role m) (election_timeout_ms m).
Definition set_role (r : Role) (m : M) : M :=
  mkMachine (me m) (state m) (adjacent_voters m) r (election_timeout_ms m).
Definition set_adjacent (a : option VoterSet.t) (m : M) : M :=
  mkMachine (me m) (state m) a (role m) (election_timeout_ms m).
Definition with_leader_epoch (e : Epoch) (s : QuorumState) : QuorumState :=
  mkQuorumState (cluster_id s) (kraft_version s) e (leader_id s) (voted_key s) (voters s).
Definition with_leader_id (l : option NodeId) (s : QuorumState) : QuorumState :=
  mkQuorumState (cluster_id s) (kraft_version s) (leader_epoch s) l (voted_key s) (voters s).
Definition with_voted_key (k : option ReplicaKey) (s : QuorumState) : QuorumState :=
  mkQuorumState (cluster_id s) (kraft_version s) (leader_epoch s) (leader_id s) k (voters s).
Definition with_voters (v : VoterSet.t) (s : QuorumState) : QuorumState :=
  mkQuorumState (cluster_id s) (kraft_version s) (leader_epoch s) (leader_id s) (voted_key s) v.
Definition with_kraft_version (v : Z) (s : QuorumState) : QuorumState :=
  mkQuorumState (cluster_id s) v (leader_epoch s) (leader_id s) (voted_key s) (voters s).

Definition is_voter (m : M) : bool := VoterSet.contains (voters (state m)) (me m).

(** [millis] is [election_timeout.millis_i64()]; a negative one counts as zero. *)
Definition new (me : NodeId) (state : QuorumState) (millis : Z) : M :=
  let observer := negb (VoterSet.contains (voters state) me) in
  let role := if observer then Observer None 0 else default_role in
  mkMachine me state None role (if millis <? 0 then 0 else millis).

(** The [u64] sum of timeout and jitter wraps as in a release build; for every
    machine [new] builds it does not overflow. *)
Definition election_deadline (m : M) (now : SimInstant) : SimInstant :=
  saturating_add_ms now
    (wrap_u 64 (election_timeout_ms m +
       Consensus.election_jitter_ms (me m) (leader_epoch (state m)) (election_timeout_ms m))).

Definition fetch_deadline (m : M) (now : SimInstant) : SimInstant :=
  saturating_add_ms now (election_timeout_ms m).

Definition log_is_up_to_date (log : LogView) (cand : LogEnd) : bool :=
  Consensus.log_is_up_to_date (last_epoch log) (end_offset log)
    (le_last_epoch cand) (le_last_offset cand).

Definition current_or_adjacent_voter (m : M) (n : NodeId) : bool :=
  VoterSet.contains (voters (state m)) n
  || match adjacent_voters m with Some vs => VoterSet.contains vs n | None => false end.

(** [replicas.entry(id).or_default()] for each voter other than this one. *)
Definition or_default (me : NodeId) (r : gmap NodeId ReplicaProgress) (n : NodeId) :
    gmap NodeId ReplicaProgress :=
  if n =? me then r else
  match r !! n with Some _ => r | None => <[n := default_progress]> r end.

Definition apply_voter_set (m : M) (vs : VoterSet.t) (now : SimInstant) : M * list Action :=
  let was_voter := is_voter m in
  let leader := leader_id (state m) in
  let m := if bool_decide (voters (state m) = vs) then m
           else set_adjacent (Some (voters (state m))) m in
  let m := set_state (with_voters vs (state m)) m in
  match role m with
  | Leader replicas hwm start =>
      let kept := filter (fun p => VoterSet.contains vs p.1 = true ∧ p.1 ≠ me m) replicas in
      (set_role (Leader (foldl (or_default (me m)) kept (elements (VoterSet.ids vs))) hwm start) m, [])
  | _ =>
      match was_voter, is_voter m with
      | true, false =>
          let deadline := fetch_deadline m now in
          let m := set_role (Observer leader deadline) m in
          (m, TransitionedTo (role_name (role m)) ::
              match leader with
              | Some l => [SendFetch l; ResetTimer FetchTimer deadline]
              | None => []
              end)
      | false, true =>
          match leader with
          | Some l =>
              let deadline := fetch_deadline m now in
              let m := set_role (Follower l deadline) m in
              (m, [TransitionedTo (role_name (role m)); SendFetch l; ResetTimer FetchTimer deadline])
          | None =>
              let deadline := election_deadline m now in
              let m := set_role (Unattached deadline) m in
              (m, [TransitionedTo (role_name (role m)); ResetTimer ElectionTimer deadline])
          end
      | _, _ => (m, [])
      end
  end.

Definition set_kraft_version (m : M) (version : Z) : M :=
  set_state (with_kraft_version version (state m)) m.
Definition commit_voter_set (m : M) : M := set_adjacent None m.

Definition finish_local_leader_removal (m : M) (now : SimInstant) : M * list Action :=
  if is_voter m || negb (is_leader (role m)) then (m, []) else
  let e := leader_epoch (state m) in
  let m := set_state (with_leader_id None (state m)) m in
  let m := set_role (Observer None (fetch_deadline m now)) m in
  (m, [SendEndQuorumEpoch e; PersistQuorumState; TransitionedTo (role_name (role m))]).

Definition recompute_high_watermark (m : M) (log_end : Z) : Z :=
  match role m with
  | Leader replicas hwm start =>
      let follower_offsets := (fun p => Z.min (fetch_offset p) log_end) <$> values replicas in
      if is_voter m then
        Consensus.recompute_high_watermark log_end follower_offsets (majority (state m)) start
          (Z.min hwm log_end)
      else
        let sorted := Consensus.sort_desc follower_offsets in
        let picked := match sorted !! (majority (state m) - 1)%nat with
                      | Some o => if start <? o then o else hwm
                      | None => hwm
                      end in
        Z.max picked hwm
  | _ => 0
  end.

Definition handle_fetch (m : M) (log : LogView) (from : NodeId) (fetch_epoch : Epoch)
    (fetch_offset : Z) : M * list Action :=
  if negb (is_leader (role m)) then (m, []) else
  let diverging :=
    if 0 <? fetch_offset then
      match end_offset_for_epoch log fetch_epoch with
      | Some div_end => if div_end <? fetch_offset then Some div_end else None
      | None => None
      end
    else None in
  match diverging with
  | Some div_end => (m, [TruncateTo (mkLogOffset div_end fetch_epoch)])
  | None =>
      let log_end := end_offset log in
      let m := match role m with
               | Leader replicas hwm start =>
                   match replicas !! from with
                   | Some _ => set_role (Leader (<[from := mkProgress fetch_offset]> replicas) hwm start) m
                   | None => m
                   end
               | _ => m
               end in
      let new_hwm := recompute_high_watermark m log_end in
      match role m with
      | Leader replicas hwm start =>
          if hwm <? new_hwm
          then (set_role (Leader replicas new_hwm start) m, [AdvanceHighWatermark new_hwm])
          else (m, [])
      | _ => (m, [])
      end
  end.

Definition handle_fetch_response (m : M) (leader : NodeId) (diverging : option LogOffsetMetadata)
    (now : SimInstant) : M * list Action :=
  match diverging with
  | Some point => (m, [TruncateTo point])
  | None => (m, [SendFetch leader; ResetTimer FetchTimer (fetch_deadline m now)])
  end.

Definition handle_begin_quorum_epoch (m : M) (leader : NodeId) (e : Epoch) (now : SimInstant) :
    M * list Action :=
  let membership_known :=
    negb (VoterSet.is_empty (voters (state m)))
    || match adjacent_voters m with Some vs => negb (VoterSet.is_empty vs) | None => false end in
  if membership_known && negb (current_or_adjacent_voter m leader) then (m, []) else
  let accept := (leader_epoch (state m) <? e)
                || ((e =? leader_epoch (state m)) && bool_decide (leader_id (state m) = None)) in
  if negb accept then (m, []) else
  let m := set_state (with_voted_key None (with_leader_id (Some leader)
                        (with_leader_epoch e (state m)))) m in
  let deadline := fetch_deadline m now in
  let m := set_role (if is_voter m then Follower leader deadline
                     else Observer (Some leader) deadline) m in
  (m, [PersistQuorumState; TransitionedTo (role_name (role m)); SendFetch leader;
       ResetTimer FetchTimer deadline]).

(** The election timer is armed at [deadline], which every caller passes as [now]. *)
Definition transition_to_unattached (m : M) (e : Epoch) (deadline : SimInstant) :
    M * list Action :=
  let m := set_state (with_voted_key None (with_leader_id None (with_leader_epoch e (state m)))) m in
  let m := set_role (Unattached deadline) m in
  (m, [PersistQuorumState; TransitionedTo "Unattached"; ResetTimer ElectionTimer deadline]).

Definition tally_prevote_reached_majority (m : M) : bool :=
  match role m with
  | Prospective granted _ => bool_decide (majority (state m) ≤ size granted)%nat
  | _ => false
  end.
Definition tally_candidate_reached_majority (m : M) : bool :=
  match role m with
  | Candidate granted _ => bool_decide (majority (state m) ≤ size granted)%nat
  | _ => false
  end.

Definition promote_to_leader_inner (m : M) (log : LogView) : M * list Action :=
  let e := leader_epoch (state m) in
  let m := set_state (with_leader_id (Some (me m)) (state m)) m in
  let replicas :=
    foldl (fun r n => if n =? me m then r else <[n := default_progress]> r) ∅
      (elements (VoterSet.ids (voters (state m)))) in
  let m := set_role (Leader replicas 0 (end_offset log)) m in
  (m, [AppendLeaderChange e; SendBeginQuorumEpoch e; PersistQuorumState;
       TransitionedTo (role_name (role m))]).
Definition promote_to_leader (m : M) (log : LogView) : M * list Action :=
  promote_to_leader_inner m log.

Definition promote_to_candidate (m : M) (log : LogView) (now : SimInstant) : M * list Action :=
  let m := set_state (with_voted_key (Some (mkReplicaKey (me m) nil_uuid)) (with_leader_id None
             (with_leader_epoch (sat_u 32 (leader_epoch (state m) + 1)) (state m)))) m in
  let deadline := election_deadline m now in
  let m := set_role (Candidate {[ me m ]} deadline) m in
  let actions := [PersistQuorumState; TransitionedTo (role_name (role m));
                  SendVoteRequest (leader_epoch (state m)) false;
                  ResetTimer ElectionTimer deadline] in
  if tally_candidate_reached_majority m then
    let '(m, more) := promote_to_leader_inner m log in (m, actions ++ more)
  else (m, actions).

Definition start_election (m : M) (log : LogView) (now : SimInstant) : M * list Action :=
  let m := set_state (with_leader_id None (state m)) m in
  let deadline := election_deadline m now in
  let m := set_role (Prospective {[ me m ]} deadline) m in
  let actions := [TransitionedTo (role_name (role m));
                  SendVoteRequest (leader_epoch (state m)) true;
                  ResetTimer ElectionTimer deadline] in
  if tally_prevote_reached_majority m then
    let '(m, more) := promote_to_candidate m log now in (m, actions ++ more)
  else (m, actions).

Definition handle_fetch_timeout (m : M) (log : LogView) (now : SimInstant) : M * list Action :=
  if is_voter m then start_election m log now else (m, []).

Definition handle_end_quorum_epoch (m : M) (log : LogView) (e : Epoch) (now : SimInstant) :
    M * list Action :=
  if e <? leader_epoch (state m) then (m, []) else
  if is_voter m then start_election m log now
  else transition_to_unattached m (leader_epoch (state m)) now.

Definition handle_election_timeout (m : M) (log : LogView) (now : SimInstant) : M * list Action :=
  if negb (is_voter m) then (m, []) else start_election m log now.

Definition handle_vote_response (m : M) (log : LogView) (from : NodeId) (e : Epoch)
    (vote_granted : bool) (now : SimInstant) : M * list Action :=
  if negb vote_granted && (leader_epoch (state m) <? e) then transition_to_unattached m e now else
  if negb vote_granted then (m, []) else
  match role m with
  | Prospective granted d =>
      if e =? leader_epoch (state m) then
        let m := set_role (Prospective ({[ from ]} ∪ granted) d) m in
        if tally_prevote_reached_majority m then promote_to_candidate m log now else (m, [])
      else (m, [])
  | Candidate granted d =>
      if e =? leader_epoch (state m) then
        let m := set_role (Candidate ({[ from ]} ∪ granted) d) m in
        if tally_candidate_reached_majority m then promote_to_leader m log else (m, [])
      else (m, [])
  | _ => (m, [])
  end.

Definition handle_vote_request (m : M) (from voter_id : NodeId) (candidate_epoch : Epoch)
    (candidate : NodeId) (cand_log : LogEnd) (pre_vote : bool) (log : LogView) (now : SimInstant) :
    M * list Action :=
  if negb (voter_id =? me m) && negb (voter_id =? 0) then (m, []) else
  if negb (is_voter m) || negb (current_or_adjacent_voter m candidate)
  then (m, [ReplyVote from (leader_epoch (state m)) false]) else
  if candidate_epoch <? leader_epoch (state m)
  then (m, [ReplyVote from (leader_epoch (state m)) false]) else
  let '(m, actions) :=
    if negb pre_vote && (leader_epoch (state m) <? candidate_epoch)
    then transition_to_unattached m candidate_epoch now else (m, []) in
  let up_to_date := log_is_up_to_date log cand_log in
  let no_leader := bool_decide (leader_id (state m) = None) in
  let granted :=
    if pre_vote then up_to_date && no_leader
    else
      let not_voted_other :=
        match voted_key (state m) with None => true | Some k => key_id k =? candidate end in
      up_to_date && not_voted_other && no_leader in
  let '(m, actions) :=
    if granted && negb pre_vote then
      let m := set_state (with_voted_key (Some (mkReplicaKey candidate nil_uuid)) (state m)) m in
      let deadline := election_deadline m now in
      let m := set_role (Voted deadline) m in
      (m, actions ++ [PersistQuorumState; TransitionedTo (role_name (role m));
                      ResetTimer ElectionTimer deadline])
    else (m, actions) in
  (m, actions ++ [ReplyVote from (leader_epoch (state m)) granted]).

Definition on_event (m : M) (event : Event) (log : LogView) (now : SimInstant) : M * list Action :=
  match event with
  | ReceiveVoteRequest from voter_id candidate_epoch candidate candidate_log_end pre_vote =>
      handle_vote_request m from voter_id candidate_epoch candidate candidate_log_end pre_vote log now
  | ElectionTimeout => handle_election_timeout m log now
  | ReceiveVoteResponse from e vote_granted => handle_vote_response m log from e vote_granted now
  | ReceiveBeginQuorumEpoch leader e => handle_begin_quorum_epoch m leader e now
  | ReceiveEndQuorumEpoch _ e => handle_end_quorum_epoch m log e now
  | ReceiveFetch from fetch_epoch fetch_offset => handle_fetch m log from fetch_epoch fetch_offset
  | ReceiveFetchResponse leader _ diverging => handle_fetch_response m leader diverging now
  | FetchTimeout => handle_fetch_timeout m log now
  end.
