(* ===== verification/KraftMachine.v ===== *)
(** * Local properties of the quorum state machine

    Invariants and step lemmas of one [QuorumStateMachine] ([Kraft.v]): what an
    event can do to the epoch, the vote, the leader belief and the role, and
    what its actions promise to the other nodes.  The cluster development
    ([KraftCluster.v]) uses only these lemmas. *)

From S2P Require Import Prelude Kernels Voters Kraft.

(** ** Automation: run one event *)
Ltac unfold_handlers H :=
  unfold on_event, handle_vote_request, handle_election_timeout, handle_vote_response,
    handle_begin_quorum_epoch, handle_end_quorum_epoch, handle_fetch, handle_fetch_response,
    handle_fetch_timeout, start_election, promote_to_candidate, promote_to_leader,
    promote_to_leader_inner, transition_to_unattached, tally_prevote_reached_majority,
    tally_candidate_reached_majority in H.

(** Reduce field updates and nothing else. *)
Ltac fields := cbn [me state adjacent_voters role election_timeout_ms set_state set_role set_adjacent
  with_leader_epoch with_leader_id with_voted_key with_voters with_kraft_version
  cluster_id kraft_version leader_epoch leader_id voted_key voters
  is_leader role_name key_id fst snd app fmap option_fmap option_map] in *.

(** Split [H : on_event m ev log now = (m', acts)] into one goal per path. *)
Ltac run_event H :=
  unfold_handlers H; cbv zeta in H; fields;
  repeat (case_match; fields);
  simplify_eq; fields.

Lemma on_event_fixed m ev log now m' acts :
  on_event m ev log now = (m', acts) →
  me m' = me m ∧ voters (state m') = voters (state m) ∧
  adjacent_voters m' = adjacent_voters m ∧ election_timeout_ms m' = election_timeout_ms m ∧
  cluster_id (state m') = cluster_id (state m).
Proof.
  intros H. destruct ev; run_event H; done.
Qed.

(** Shorthands for the parts of a machine the election is about. *)
Definition mepoch (m : M) : Epoch := leader_epoch (state m).
Definition mvote (m : M) : option NodeId := key_id <$> voted_key (state m).
Definition mleader (m : M) : option NodeId := leader_id (state m).
Definition is_candidate (r : Role) : bool :=
  match r with Candidate _ _ => true | _ => false end.

Ltac run H := run_event H; unfold mepoch, mvote, mleader, U32_MAX, sat_u in *; fields; zify_bools.

(** The epoch carried by an event is a [u32]. *)
Definition event_ok (ev : Event) : Prop :=
  match ev with
  | ReceiveVoteRequest _ _ e _ _ _ | ReceiveVoteResponse _ e _
  | ReceiveBeginQuorumEpoch _ e => in_u 32 e
  | _ => True
  end.

Lemma on_event_epoch m ev log now m' acts :
  in_u 32 (mepoch m) → on_event m ev log now = (m', acts) → mepoch m ≤ mepoch m'.
Proof. unfold in_u. intros Hr H. destruct ev; run H; lia. Qed.

Lemma on_event_epoch_range m ev log now m' acts :
  in_u 32 (mepoch m) → event_ok ev → on_event m ev log now = (m', acts) → in_u 32 (mepoch m').
Proof. intros Hr He H. destruct ev; run H; unfold event_ok, in_u in *; lia. Qed.

(** Within an epoch a vote only ever appears, by granting a real request; the
    one thing that erases it is following a leader of that same epoch. *)
Lemma on_event_vote m ev log now m' acts :
  0 ≤ mepoch m < U32_MAX → on_event m ev log now = (m', acts) → mepoch m' = mepoch m →
  mvote m' = mvote m ∨
  (∃ l, ev = ReceiveBeginQuorumEpoch l (mepoch m) ∧ mleader m' = Some l ∧ mvote m' = None) ∨
  (∃ from v c le, ev = ReceiveVoteRequest from v (mepoch m) c le false ∧ mvote m = None) ∨
  is_voter m = false.
Proof.
  intros Hr H He. destruct ev; run H; try lia; try (by left); try (by right; right; right).
  all: try (right; left; eexists; split_and!; [f_equal; lia|done|done]).
  all: match goal with Hv : voted_key _ = _ |- _ => rewrite Hv end; fields.
  all: first [left; congruence
             |right; right; left; do 4 eexists; split; [f_equal; lia|done]].
Qed.

(** How a candidacy comes about: it continues one of the same epoch, possibly
    with one more grant of that epoch, or it is fresh, in the next epoch and
    with the node's own vote. *)
Definition tally_of (m : M) (ev : Event) (g : gset NodeId) (e : Epoch) (v : option NodeId) : Prop :=
  (e = mepoch m ∧ v = mvote m ∧ ∃ g0 d0, role m = Candidate g0 d0 ∧
     (g = g0 ∨ ∃ from, ev = ReceiveVoteResponse from (mepoch m) true ∧ g = {[ from ]} ∪ g0)) ∨
  (e = sat_u 32 (mepoch m + 1) ∧ g = {[ me m ]} ∧ v = Some (me m)).

(** Grants are only counted for answers that are grants. *)
Ltac vote_granted_true :=
  repeat match goal with
  | H : negb ?b && _ = false, H' : negb ?b = false |- _ => clear H
  | H : negb ?b = false |- _ => apply negb_false_iff in H; try subst b
  end.

Lemma on_event_candidate m ev log now m' acts g d :
  on_event m ev log now = (m', acts) → role m' = Candidate g d →
  tally_of m ev g (mepoch m') (mvote m').
Proof.
  intros H Hrole.
  destruct ev; run_event H; try congruence; unfold tally_of, mepoch, mvote; fields.
  all: try (right; simplify_eq; done).
  all: left; split_and!; [done..|].
  all: do 2 eexists; split; [eassumption|].
  all: first [left; congruence|right; vote_granted_true; simplify_eq; eexists; split; [|reflexivity]].
  all: f_equal; by apply Z.eqb_eq.
Qed.

(** Only voters campaign, and only voters hold a vote. *)
Definition campaigning (r : Role) : bool :=
  match r with Prospective _ _ | Candidate _ _ => true | _ => false end.

Lemma on_event_campaign m ev log now m' acts :
  on_event m ev log now = (m', acts) → campaigning (role m') = true →
  is_voter m = true ∨ campaigning (role m) = true.
Proof.
  intros H Hc. destruct ev; run_event H; zify_bools; try discriminate; auto.
  all: try (by right); match goal with Hr : role _ = _ |- _ => rewrite Hr in Hc; discriminate Hc end.
Qed.

Lemma on_event_voter m ev log now m' acts :
  on_event m ev log now = (m', acts) → mvote m' ≠ None →
  mvote m' = mvote m ∨ is_voter m = true ∨ campaigning (role m) = true.
Proof.
  intros H Hc. unfold mvote in *. destruct ev; run_event H; zify_bools; auto.
Qed.

(** A new leader has just collected a majority of such grants. *)
Lemma on_event_leader m ev log now m' acts :
  on_event m ev log now = (m', acts) → is_leader (role m') = true →
  (is_leader (role m) = true ∧ state m' = state m) ∨
  (∃ g, (majority (state m) ≤ size g)%nat ∧ tally_of m ev g (mepoch m') (mvote m')).
Proof.
  intros H Hrole.
  destruct ev; run_event H; try congruence; try (by left).
  all: try (left; split; [|done]; match goal with Hr : role _ = _ |- _ => by rewrite Hr end).
  all: try (match goal with Hr : role _ = _ |- _ => rewrite Hr in Hrole; discriminate Hrole end).
  all: right; vote_granted_true; zify_bools; eexists; (split; [eassumption|]).
  all: unfold tally_of, mepoch, mvote; fields; first [by right|left; split_and!; [done..|]].
  all: do 2 eexists; split; [eassumption|].
  all: right; eexists; split; [|reflexivity]; f_equal; done.
Qed.

(** An epoch is spent for a node once the node is past it, or in it without
    being a candidate: it will not be a candidate of that epoch again. *)
Definition spent (m : M) (e : Epoch) : Prop :=
  e < mepoch m ∨ (e = mepoch m ∧ is_candidate (role m) = false).

Lemma on_event_spent m ev log now m' acts e :
  in_u 32 (mepoch m) → e < U32_MAX → on_event m ev log now = (m', acts) →
  spent m e → spent m' e.
Proof.
  intros Hr He H Hs. pose proof (on_event_epoch _ _ _ _ _ _ Hr H) as Hmono.
  destruct Hs as [Hlt|[-> Hrole]]; [left; lia|].
  destruct (decide (mepoch m' = mepoch m)) as [Heq|Hne]; [right|left; lia].
  split; [done|]. destruct (role m') as [| | | |g d| | |] eqn:Hrole'; try done.
  destruct (on_event_candidate _ _ _ _ _ _ _ _ H Hrole') as [(_ & _ & g0 & d0 & Hc & _)|(Hs & _)].
  - by rewrite Hc in Hrole.
  - unfold sat_u, in_u, U32_MAX in *. lia.
Qed.

(** Enumerate the elements of an explicit list of actions. *)
Ltac elems H :=
  lazymatch type of H with
  | _ ∈ [] => by apply elem_of_nil in H
  | _ ∈ _ :: _ => apply elem_of_cons in H; destruct H as [H|H]; [try discriminate H|elems H]
  end.

(** What the actions of a step promise. *)
Lemma on_event_grant m ev log now m' acts to e :
  on_event m ev log now = (m', acts) → ReplyVote to e true ∈ acts →
  e = mepoch m' ∧ is_voter m = true ∧
  ∃ v ce c le pre, ev = ReceiveVoteRequest to v ce c le pre ∧
    current_or_adjacent_voter m c = true ∧
    (pre = false → e = ce ∧ mvote m' = Some c) ∧ (pre = true → e ≤ ce ∧ m' = m).
Proof.
  intros H Hin.
  destruct ev; run_event H; elems Hin; injection Hin as -> -> Hg; try discriminate Hg.
  all: symmetry in Hg; zify_bools; try congruence; unfold mepoch, mvote; fields.
  all: split_and!; [done..|]; do 5 eexists; split; [reflexivity|].
  all: split_and!; intros; try discriminate; try done; split; try done; lia.
Qed.

Lemma on_event_prevote m ev log now m' acts e :
  in_u 32 (mepoch m) → e < U32_MAX →
  on_event m ev log now = (m', acts) → SendVoteRequest e true ∈ acts → spent m' e.
Proof.
  intros Hr He H Hin. unfold spent, mepoch, in_u, U32_MAX, sat_u in *.
  destruct ev; run_event H; elems Hin; injection Hin as ->; try discriminate.
  all: unfold mepoch; fields; unfold sat_u in *; first [by right|left; lia].
Qed.

(** Actions only carry the epochs the node is or was in. *)
Definition action_epoch (a : Action) : option Epoch :=
  match a with
  | SendVoteRequest e _ | ReplyVote _ e _ | SendBeginQuorumEpoch e => Some e
  | _ => None
  end.

Lemma on_event_action_epoch m ev log now m' acts a e :
  on_event m ev log now = (m', acts) → a ∈ acts → action_epoch a = Some e →
  e = mepoch m ∨ e = mepoch m'.
Proof.
  intros H Hin He. unfold mepoch.
  destruct ev; run_event H; elems Hin; subst a; simplify_eq/=; auto.
Qed.

Lemma on_event_begin m ev log now m' acts e :
  on_event m ev log now = (m', acts) → SendBeginQuorumEpoch e ∈ acts →
  is_leader (role m') = true ∧ e = mepoch m'.
Proof.
  intros H Hin.
  destruct ev; run_event H; elems Hin; injection Hin as ->; done.
Qed.

(** Where a leader belief comes from. *)
Lemma on_event_belief m ev log now m' acts l :
  on_event m ev log now = (m', acts) → mleader m' = Some l →
  (mleader m = Some l ∧ mepoch m' = mepoch m) ∨
  ev = ReceiveBeginQuorumEpoch l (mepoch m') ∨
  (l = me m ∧ is_leader (role m') = true).
Proof.
  intros H Hl. unfold mleader, mepoch in *.
  destruct ev; run_event H; simplify_eq; try (by left); try (by right; left); by right; right.
Qed.

(** Every change of the epoch or of the vote is persisted. *)
Lemma on_event_durable m ev log now m' acts :
  on_event m ev log now = (m', acts) →
  PersistQuorumState ∈ acts ∨
  (mepoch m' = mepoch m ∧ voted_key (state m') = voted_key (state m)).
Proof.
  intros H. unfold mepoch.
  destruct ev; run_event H; first [by right|left; set_solver].
Qed.

