(* ===== verification/KraftInvariant.v ===== *)
(** * Invariants of one quorum state machine

    The well-formedness invariant that ties the role of a machine to its
    quorum state, for every sequence of the operations a driver can perform
    ([on_event], [apply_voter_set], [set_kraft_version], [commit_voter_set],
    [finish_local_leader_removal]); the write-ahead discipline of the actions;
    and what an advance of the high watermark certifies. *)

From S2P Require Import Prelude Kernels Voters Kraft KraftMachine.

(** ** Operations of a driver *)
Inductive Op : Type :=
| Handle (ev : Event) (log : LogView) (now : SimInstant)
| ApplyVoterSet (vs : VoterSet.t) (now : SimInstant)
| SetKraftVersion (version : Z)
| CommitVoterSet
| FinishLocalLeaderRemoval (now : SimInstant).

Definition run_op (m : M) (op : Op) : M * list Action :=
  match op with
  | Handle ev log now => on_event m ev log now
  | ApplyVoterSet vs now => apply_voter_set m vs now
  | SetKraftVersion v => (set_kraft_version m v, [])
  | CommitVoterSet => (commit_voter_set m, [])
  | FinishLocalLeaderRemoval now => finish_local_leader_removal m now
  end.

Definition run_ops (m : M) (ops : list Op) : M := foldl (fun m op => (run_op m op).1) m ops.

(** ** Well-formedness *)
Definition peers (m : M) : gset NodeId := VoterSet.ids (voters (state m)) ∖ {[ me m ]}.

Definition well_formed (m : M) : Prop :=
  match role m with
  | Unattached _ => True
  | Voted _ => is_voter m = true ∧ mleader m = None ∧ mvote m ≠ None
  | Follower l _ => is_voter m = true ∧ mleader m = Some l
  | Prospective granted _ => is_voter m = true ∧ mleader m = None ∧ me m ∈ granted
  | Candidate granted _ =>
      is_voter m = true ∧ mleader m = None ∧ mvote m = Some (me m) ∧ me m ∈ granted
  | Leader replicas hwm _ =>
      mleader m = Some (me m) ∧ mvote m = Some (me m) ∧ dom replicas = peers m ∧ 0 ≤ hwm
  | Resigned => False
  | Observer l _ => is_voter m = false ∧ (l = None ∨ l = mleader m)
  end.

Lemma dom_new_replicas me (X : gset NodeId) :
  dom (foldl (fun (r : gmap NodeId ReplicaProgress) n =>
         if n =? me then r else <[n := default_progress]> r) ∅ (elements X)) = X ∖ {[ me ]}.
Proof.
  assert (∀ (l : list NodeId) r,
    dom (foldl (fun (r : gmap NodeId ReplicaProgress) n =>
           if n =? me then r else <[n := default_progress]> r) r l) =
    dom r ∪ (list_to_set l ∖ {[ me ]})) as H.
  { induction l as [|n l IH]; intros r; simpl; [set_solver|].
    rewrite IH. destruct (Z.eqb_spec n me); [|rewrite dom_insert_L]; set_solver. }
  rewrite H, dom_empty_L, list_to_set_elements_L. set_solver.
Qed.

Lemma dom_or_default me (l : list NodeId) r :
  dom (foldl (or_default me) r l) = dom r ∪ (list_to_set l ∖ {[ me ]}).
Proof.
  revert r. induction l as [|n l IH]; intros r; simpl; [set_solver|].
  rewrite IH. unfold or_default. destruct (Z.eqb_spec n me); [set_solver|].
  destruct (r !! n) eqn:Hn; [apply elem_of_dom_2 in Hn|rewrite dom_insert_L]; set_solver.
Qed.

Lemma dom_retained (vs : VoterSet.t) me (r : gmap NodeId ReplicaProgress) :
  dom (filter (fun p => VoterSet.contains vs p.1 = true ∧ p.1 ≠ me) r) ⊆
  VoterSet.ids vs ∖ {[ me ]}.
Proof.
  intros n [p Hp]%elem_of_dom. apply map_lookup_filter_Some in Hp as (_ & Hc & Hn).
  apply VoterSet.contains_spec in Hc. set_solver.
Qed.

(** ** Fetches *)
(** The replica table after a fetch at [offset] from [from]. *)
Definition fetched (replicas : gmap NodeId ReplicaProgress) (from : NodeId) (o : Z) :=
  match replicas !! from with
  | Some _ => <[from := mkProgress o]> replicas
  | None => replicas
  end.

Lemma dom_fetched r from o : dom (fetched r from o) = dom r.
Proof.
  unfold fetched. destruct (r !! from) eqn:H; [|done].
  apply elem_of_dom_2 in H. rewrite dom_insert_L. set_solver.
Qed.

(** A fetch either changes nothing, or it is the leader's and moves the
    fetcher's progress and possibly the high watermark. *)
Lemma handle_fetch_cases m log from e o m' acts :
  handle_fetch m log from e o = (m', acts) →
  (m' = m ∧ ∀ h, AdvanceHighWatermark h ∉ acts) ∨
  ∃ replicas hwm start, role m = Leader replicas hwm start ∧
    let m1 := set_role (Leader (fetched replicas from o) hwm start) m in
    let h := recompute_high_watermark m1 (end_offset log) in
    (m' = m1 ∧ acts = []) ∨
    (hwm < h ∧ m' = set_role (Leader (fetched replicas from o) h start) m ∧
     acts = [AdvanceHighWatermark h]).
Proof.
  unfold handle_fetch. intros H. destruct (role m) as [| | | | |r hwm start| |] eqn:Hrole; simpl in H.
  all: try (left; simplify_eq; split; [done|intros h Hin; by apply elem_of_nil in Hin]).
  destruct (if 0 <? o then _ else None) in H.
  { left. simplify_eq. split; [done|]. intros h Hin. elems Hin. }
  right. exists r, hwm, start. split; [done|]. cbv zeta. unfold fetched in *.
  replace (match r !! from with Some _ => _ | None => m end) with
    (set_role (Leader (match r !! from with
       Some _ => <[from:=mkProgress o]> r | None => r end) hwm start) m) in H
    by (destruct (r !! from); [done|]; destruct m; simpl in *; by subst).
  fields. destruct (Z.ltb_spec hwm (recompute_high_watermark
    (set_role (Leader (match r !! from with
       Some _ => <[from:=mkProgress o]> r | None => r end) hwm start) m) (end_offset log)));
    simplify_eq; [right|left]; done.
Qed.

(** ** Preservation *)
Lemma well_formed_new n s millis : well_formed (new n s millis).
Proof.
  unfold well_formed, new. simpl. destruct (VoterSet.contains _ _) eqn:H; simpl; [done|].
  split; [done|by left].
Qed.

Lemma well_formed_fetch m log from e o m' acts :
  well_formed m → handle_fetch m log from e o = (m', acts) → well_formed m'.
Proof.
  intros Hwf [[-> _]|(r & hwm & start & Hrole & Hm)]%handle_fetch_cases; [done|].
  unfold well_formed in *. rewrite Hrole in Hwf. destruct Hwf as (Hl & Hv & Hd & Hh).
  destruct Hm as [[-> _]|(? & -> & _)]; simpl; rewrite dom_fetched; split_and!; try done; lia.
Qed.

(** Close the goals of a step: the facts of the old role, then the new one's. *)
Ltac wf_solve :=
  unfold well_formed, is_voter, peers, mleader, mvote in *;
  repeat match goal with Hr : role _ = _, Hwf : match role _ with _ => _ end |- _ =>
    rewrite Hr in Hwf end;
  fields; try match goal with Hr : role ?m = _ |- context [role ?m] => rewrite Hr end; simplify_eq; zify_bools;
  repeat match goal with H : _ ∧ _ |- _ => destruct H end;
  repeat split; try rewrite dom_new_replicas;
  solve [done|congruence|by left|by right|
         match goal with |- _ ∈ _ => set_solver end].

Lemma well_formed_event m ev log now m' acts :
  well_formed m → on_event m ev log now = (m', acts) → well_formed m'.
Proof.
  intros Hwf H. destruct ev; [..|by eapply well_formed_fetch|].
  all: run_event H; try done; wf_solve.
Qed.

Lemma well_formed_apply m vs now : well_formed m → well_formed (apply_voter_set m vs now).1.
Proof.
  intros Hwf. unfold apply_voter_set. cbv zeta.
  set (m1 := if bool_decide _ then m else _).
  assert (∃ a, m1 = set_adjacent a m) as [a ->].
  { subst m1. case_bool_decide; [exists (adjacent_voters m); by destruct m|by eexists]. }
  unfold is_voter; fields.
  destruct (role m) as [| | | | |r hwm start| |] eqn:Hrole.
  6: { unfold well_formed, peers, mleader, mvote in *. rewrite Hrole in Hwf. fields.
       destruct Hwf as (Hl & Hv & Hd & Hh). split_and!; try done.
       rewrite dom_or_default, list_to_set_elements_L.
       pose proof (dom_retained vs (me m) r). set_solver. }
  all: repeat (case_match; fields); wf_solve.
Qed.

Lemma well_formed_op m op : well_formed m → well_formed (run_op m op).1.
Proof.
  intros Hwf. destruct op as [ev log now|vs now|v| |now]; simpl; try done.
  - destruct (on_event m ev log now) eqn:H. by eapply well_formed_event.
  - by apply well_formed_apply.
  - unfold finish_local_leader_removal. destruct (is_voter m) eqn:Hv; [done|].
    destruct (is_leader (role m)); [|done]. split; [done|by left].
Qed.

(** C35. The role of a machine and its vote, its leader and its replica table stay
    consistent under every sequence of operations: a leader believes in itself, voted
    for itself and tracks exactly the other voters; a follower is a voter and believes
    in the leader it follows; voters that campaign or have voted believe in no leader;
    campaigns and votes are of voters only, and a candidate's vote is its own;
    observers are no voters; and the role [Resigned] is never reached.  Nothing is
    said of an unattached machine, nor of epochs. *)
Theorem role_consistent n s millis ops : well_formed (run_ops (new n s millis) ops).
Proof.
  unfold run_ops. pose proof (well_formed_new n s millis) as H. revert H.
  generalize (new n s millis). induction ops as [|op ops IH]; intros m Hwf; simpl; [done|].
  by apply IH, well_formed_op.
Qed.

(** ** The write-ahead discipline *)
(** The messages by which a node commits itself to its epoch and its vote. *)
Definition promises (a : Action) : bool :=
  match a with
  | SendVoteRequest _ pre_vote => negb pre_vote
  | ReplyVote _ _ _ | SendBeginQuorumEpoch _ => true
  | _ => false
  end.

(** No promise comes before the first [PersistQuorumState]. *)
Fixpoint persists_first (acts : list Action) : bool :=
  match acts with
  | [] => true
  | PersistQuorumState :: _ => true
  | a :: acts => negb (promises a) && persists_first acts
  end.

Lemma persists_first_before before a later :
  persists_first (before ++ a :: later) = true → promises a = true →
  PersistQuorumState ∈ before.
Proof.
  induction before as [|b before IH]; simpl; intros H Ha.
  - destruct a; simpl in *; try discriminate; rewrite Ha in H; discriminate.
  - destruct b; try (by left); simpl in H; zify_bools; right; by apply IH.
Qed.

Lemma on_event_persists_first m ev log now m' acts :
  on_event m ev log now = (m', acts) →
  persists_first acts = true ∨
  (mepoch m' = mepoch m ∧ voted_key (state m') = voted_key (state m)).
Proof.
  intros H. unfold mepoch. destruct ev; run_event H; first [by right|by left].
Qed.

(** C33. A node persists before it promises: when an event changes the epoch or
    the vote, every binding message among its actions comes after a
    [PersistQuorumState]. *)
Theorem persist_before_promise m ev log now m' before a later :
  on_event m ev log now = (m', before ++ a :: later) →
  promises a = true →
  PersistQuorumState ∈ before ∨
  (mepoch m' = mepoch m ∧ voted_key (state m') = voted_key (state m)).
Proof.
  intros [H|H]%on_event_persists_first Ha; [left|by right].
  by eapply persists_first_before.
Qed.

(** ** The high watermark *)
(** The log position of voter [n], as the leader [m] knows it. *)
Definition replicated (m : M) (log_end : Z) (n : NodeId) : Z :=
  if n =? me m then log_end else
  match role m with
  | Leader replicas _ _ =>
      match replicas !! n with Some p => fetch_offset p | None => -1 end
  | _ => -1
  end.

(** The voters known to have everything below [h]. *)
Definition holders (m : M) (log_end h : Z) : gset NodeId :=
  filter (fun n => h ≤ replicated m log_end n) (VoterSet.ids (voters (state m))).

Section Holders.
Context (r : gmap NodeId ReplicaProgress) (log_end h : Z).

Lemma values_perm : values r ≡ₚ (map_to_list r).*2.
Proof. unfold values. by rewrite entries_perm. Qed.

Lemma count_values :
  Consensus.count_ge h ((fun p => Z.min (fetch_offset p) log_end) <$> values r) =
  length (filter (fun p => h ≤ Z.min (fetch_offset p.2) log_end) (map_to_list r)).
Proof.
  rewrite (Consensus.count_ge_perm h _ ((fun p => Z.min (fetch_offset p) log_end) <$>
    (map_to_list r).*2)) by (by rewrite values_perm).
  unfold Consensus.count_ge. by rewrite <- list_fmap_compose, filter_fmap, length_fmap.
Qed.

Lemma count_values_set (X : gset NodeId) :
  (∀ n p, r !! n = Some p → h ≤ fetch_offset p → n ∈ X) →
  (Consensus.count_ge h ((fun p => Z.min (fetch_offset p) log_end) <$> values r) ≤ size X)%nat.
Proof.
  intros HX. rewrite count_values. set (l := filter _ _).
  rewrite <- (length_fmap fst l).
  assert (NoDup l.*1) as Hnd.
  { eapply (sublist_NoDup _ (map_to_list r).*1);
      [apply NoDup_fst_map_to_list|apply fmap_sublist, sublist_filter]. }
  rewrite <- (size_list_to_set (C := gset NodeId) l.*1 Hnd).
  apply subseteq_size. intros n Hn%elem_of_list_to_set.
  apply list_elem_of_fmap in Hn as ([n' p] & -> & Hp).
  apply list_elem_of_filter in Hp as [Hh Hp%elem_of_map_to_list]. eapply HX; [done|]. simpl in *. lia.
Qed.
End Holders.

Lemma size_holders_me m log_end h :
  is_voter m = true → h ≤ log_end →
  size (holders m log_end h) = S (size (holders m log_end h ∖ {[ me m ]})).
Proof.
  intros Hv%VoterSet.contains_spec Hle.
  assert (me m ∈ holders m log_end h) as Hin.
  { apply elem_of_filter. split; [|done]. unfold replicated. by rewrite Z.eqb_refl. }
  rewrite (union_difference_L {[ me m ]} (holders m log_end h)) at 1 by set_solver.
  rewrite size_union, size_singleton by set_solver. done.
Qed.

(** Every value the leader recomputes past the current one is backed by a
    majority of the voters. *)
Lemma recompute_backed m log_end replicas hwm start h :
  role m = Leader replicas hwm start → dom replicas = peers m → 0 ≤ hwm →
  recompute_high_watermark m log_end = h → hwm < h →
  start < h ∧ h ≤ log_end ∧ (majority (state m) ≤ size (holders m log_end h))%nat.
Proof.
  intros Hrole Hdom H0 Hh Hlt. unfold recompute_high_watermark in Hh. rewrite Hrole in Hh.
  set (offs := (fun p => Z.min (fetch_offset p) log_end) <$> values replicas) in *.
  assert (∀ o, o ∈ offs → o ≤ log_end) as Hoffs.
  { intros o (p & -> & _)%list_elem_of_fmap. lia. }
  assert (∀ n p, replicas !! n = Some p → h ≤ fetch_offset p →
    n ∈ holders m log_end h ∖ {[ me m ]}) as Hin.
  { intros n p Hn Hp. pose proof (elem_of_dom_2 _ _ _ Hn) as Hd. rewrite Hdom in Hd.
    unfold peers in Hd. apply elem_of_difference in Hd as [Hv Hme].
    apply elem_of_difference. split; [|done]. apply elem_of_filter. split; [|done].
    unfold replicated. rewrite (proj2 (Z.eqb_neq n (me m))) by set_solver.
    by rewrite Hrole, Hn. }
  pose proof (count_values_set replicas log_end h _ Hin) as Hc. fold offs in Hc.
  destruct (is_voter m) eqn:Hv.
  - destruct (Consensus.recompute_high_watermark_spec log_end offs (majority (state m)) start
      (Z.min hwm log_end)) as [_ Hspec]. cbv zeta in Hspec. rewrite Hh in Hspec.
    destruct Hspec as (Hs & [->|[Hel Hmaj]]); [lia|unfold Consensus.I64_MIN in *; lia|].
    assert (h ≤ log_end) as Hle
      by (apply elem_of_cons in Hel as [->|Hel]; [lia|by apply Hoffs]).
    split_and!; [done|done|]. rewrite Consensus.count_ge_cons in Hmaj.
    rewrite (proj2 (Z.leb_le h log_end)) in Hmaj by done.
    rewrite (size_holders_me m log_end h Hv Hle). lia.
  - destruct (Consensus.sort_desc offs !! (majority (state m) - 1)%nat) as [o|] eqn:Ho; [|lia].
    destruct (Z.ltb_spec start o); [|lia]. assert (o = h) as -> by lia.
    apply Consensus.sort_desc_kth in Ho as (Hel & Hmaj & _); [|unfold majority; lia].
    split_and!; [done|by apply Hoffs|].
    assert (holders m log_end h ∖ {[ me m ]} ⊆ holders m log_end h) as Hsub%subseteq_size
      by set_solver. lia.
Qed.

(** The high watermark only advances over what is committed: when an event
    makes a machine advance it to [h], the machine leads, [h] is past the old
    value and past the start of the leader's own epoch, the leader's log has
    it, and the voters known to hold everything below it form a majority. *)
Theorem hwm_advance_committed m ev log now m' acts h :
  well_formed m →
  on_event m ev log now = (m', acts) → AdvanceHighWatermark h ∈ acts →
  ∃ replicas replicas' hwm start,
    role m = Leader replicas hwm start ∧ role m' = Leader replicas' h start ∧
    hwm < h ∧ start < h ∧ h ≤ end_offset log ∧
    (majority (state m') ≤ size (holders m' (end_offset log) h))%nat.
Proof.
  intros Hwf H Hin. destruct ev.
  all: try (run_event H; elems Hin; fail).
  apply handle_fetch_cases in H as [[_ Hno]|(r & hwm & start & Hrole & Hm)]; [by apply Hno in Hin|].
  destruct Hm as [[-> ->]|(Hlt & -> & ->)]; [elems Hin|].
  elems Hin. injection Hin as ->.
  set (m1 := set_role (Leader (fetched r from fetch_offset) hwm start) m) in *.
  unfold well_formed in Hwf. rewrite Hrole in Hwf. destruct Hwf as (_ & _ & Hd & H0).
  destruct (recompute_backed m1 (end_offset log) (fetched r from fetch_offset) hwm start _
    eq_refl ltac:(by rewrite dom_fetched) H0 eq_refl Hlt) as (Hs & Hle & Hmaj).
  by eexists _, _, _, _.
Qed.

(** A leader's high watermark never moves back while it leads its epoch,
    whatever a driver does to it, and neither does its epoch's first offset. *)
Theorem hwm_never_regresses m op replicas replicas' hwm hwm' start start' :
  0 ≤ mepoch m < U32_MAX →
  role m = Leader replicas hwm start →
  role (run_op m op).1 = Leader replicas' hwm' start' →
  mepoch (run_op m op).1 = mepoch m →
  hwm ≤ hwm' ∧ start' = start.
Proof.
  intros He Hrole Hrole' Hep. destruct op as [ev log now|vs now|v| |now]; simpl in *.
  - destruct (on_event m ev log now) as [m' acts] eqn:H. simpl in *.
    destruct ev.
    all: try (run H; first [lia|match goal with
      H1 : role ?x = _, H2 : role ?x = _ |- _ => rewrite H1 in H2; simplify_eq; lia end]; fail).
    apply handle_fetch_cases in H as [[-> _]|(r & h & s & Hr & [[-> _]|(? & -> & _)])];
      fields; rewrite Hrole in *; simplify_eq; lia.
  - unfold apply_voter_set in Hrole'. case_bool_decide; simpl in Hrole'; rewrite Hrole in Hrole';
      simpl in Hrole'; simplify_eq; lia.
  - rewrite Hrole in Hrole'. simplify_eq. lia.
  - rewrite Hrole in Hrole'. simplify_eq. lia.
  - unfold finish_local_leader_removal in Hrole'. rewrite Hrole in Hrole'.
    destruct (is_voter m); simpl in Hrole'; [|done]. rewrite Hrole in Hrole'. simplify_eq. lia.
Qed.

(** ** Witnesses *)
Definition trio : VoterSet.t :=
  VoterSet.from_voters ((fun n => mkVoter n nil_uuid [] default_range) <$> [1; 2; 3]).
Definition leader_of_trio : M :=
  mkMachine 1 (mkQuorumState nil_uuid 1 1 (Some 1) (Some (mkReplicaKey 1 nil_uuid)) trio) None
    (Leader {[ 2 := mkProgress 0; 3 := mkProgress 0 ]} 0 4) 1000.
Definition nine_entries : LogView := mkLogView 9 1 (fun _ => None).
Definition fetch_at_seven : Event := ReceiveFetch 2 1 7.

Lemma persist_before_promise_witness :
  PersistQuorumState ∈ [PersistQuorumState; TransitionedTo "Unattached";
                        ResetTimer ElectionTimer 5] ∨ (2 = 1 ∧ @None ReplicaKey = None).
Proof.
  destruct (persist_before_promise leader_of_trio
    (ReceiveVoteRequest 2 1 2 2 (mkLogEnd 0 0) false) nine_entries 5 _
    [PersistQuorumState; TransitionedTo "Unattached"; ResetTimer ElectionTimer 5]
    (ReplyVote 2 2 false) [] eq_refl eq_refl) as [H|[H _]]; [by left|done].
Defined.

Lemma leader_of_trio_well_formed : well_formed leader_of_trio.
Proof. split_and!; [done|done| |done]. by vm_compute. Qed.

Lemma hwm_advance_committed_witness :
  ∃ replicas replicas' hwm start,
    role leader_of_trio = Leader replicas hwm start ∧
    role (on_event leader_of_trio fetch_at_seven nine_entries 5).1 = Leader replicas' 7 start ∧
    hwm < 7 ∧ start < 7.
Proof.
  destruct (hwm_advance_committed leader_of_trio fetch_at_seven nine_entries 5 _ _ 7
    leader_of_trio_well_formed (surjective_pairing _)) as (r & r' & h & s & H1 & H2 & H3 & H4 & _).
  - vm_compute. by left.
  - by exists r, r', h, s.
Defined.

Lemma hwm_never_regresses_witness : 0 ≤ 7 ∧ (4 = 4 :> Z).
Proof.
  by apply (hwm_never_regresses leader_of_trio (Handle fetch_at_seven nine_entries 5)
    {[ 2 := mkProgress 0; 3 := mkProgress 0 ]} {[ 2 := mkProgress 7; 3 := mkProgress 0 ]} 0 7 4 4).
Defined.
