(* ===== verification/KraftCluster.v ===== *)
(** * Elections in a cluster of quorum state machines

    A cluster is a set of machines ([Kraft.v]) with their persisted quorum
    states and a network that may delay, reorder, duplicate and lose messages:
    a message once sent stays available for delivery.  Actions become messages
    as in [crates/kraft-core/src/sim.rs] ([apply_action],
    [broadcast_vote_request]); timers may fire at any time; a node may restart
    from its persisted state.  The voter set is static.

    Election safety is proved for the runs in which no voter is asked for a
    vote of an epoch whose leader it has already followed, and is shown to fail
    without that restriction. *)

From S2P Require Import Prelude Kernels Voters Kraft KraftMachine.

#[global] Instance log_end_eq_dec : EqDecision LogEnd.
Proof. solve_decision. Defined.
#[global] Instance log_offset_eq_dec : EqDecision LogOffsetMetadata.
Proof. solve_decision. Defined.
#[global] Instance event_eq_dec : EqDecision Event.
Proof. solve_decision. Defined.

(** [sim.rs]: a message on the bus. *)
Record Message : Type := mkMessage {
  src : NodeId;
  dst : NodeId;
  event : Event;
}.
#[global] Instance message_eq_dec : EqDecision Message.
Proof. solve_decision. Defined.

(** ** State *)
Record Cluster : Type := mkCluster {
  nodes : gmap NodeId M;
  disk : gmap NodeId QuorumState;
  net : list Message;
  (** every state each node has been in, for the statements only *)
  past : list (NodeId * M);
}.

Section Cluster.
Context (V : gset NodeId).

Definition log_end (log : LogView) : LogEnd := mkLogEnd (last_epoch log) (end_offset log).

Definition to_peers (peers : list NodeId) (n : NodeId) (f : NodeId → Event) : list Message :=
  (fun p => mkMessage n p (f p)) <$> filter (fun p => p ≠ n) peers.

(** What [apply_action] puts on the bus for the election protocol.  Fetches are
    left to the environment, which may send any. *)
Definition broadcast_vote_request (n : NodeId) (log : LogView) (e : Epoch) (pre_vote : bool) :
    list Message :=
  to_peers (elements V) n (fun peer => ReceiveVoteRequest n peer e n (log_end log) pre_vote).
Definition apply_action (all : list NodeId) (n : NodeId) (log : LogView) (a : Action) :
    list Message :=
  match a with
  | SendVoteRequest e pre_vote => broadcast_vote_request n log e pre_vote
  | ReplyVote to e granted => [mkMessage n to (ReceiveVoteResponse n e granted)]
  | SendBeginQuorumEpoch e => to_peers all n (fun _ => ReceiveBeginQuorumEpoch n e)
  | SendEndQuorumEpoch e => to_peers all n (fun _ => ReceiveEndQuorumEpoch n e)
  | _ => []
  end.

Definition persists (acts : list Action) : bool :=
  existsb (fun a => match a with PersistQuorumState => true | _ => false end) acts.

(** One event at node [n]: run the machine, persist if asked to, send. *)
Definition after (c : Cluster) (n : NodeId) (m' : M) (log : LogView) (acts : list Action) :
    Cluster := {|
  nodes := <[n := m']> (nodes c);
  disk := if persists acts then <[n := state m']> (disk c) else disk c;
  net := (acts ≫= apply_action (elements (dom (nodes c))) n log) ++ net c;
  past := (n, m') :: past c;
|}.

Definition restarted (c : Cluster) (n : NodeId) (m' : M) : Cluster := {|
  nodes := <[n := m']> (nodes c);
  disk := disk c;
  net := net c;
  past := (n, m') :: past c;
|}.

(** Election messages must have been sent; everything else may happen any time. *)
Definition available (c : Cluster) (n : NodeId) (ev : Event) : Prop :=
  match ev with
  | ReceiveVoteRequest _ _ _ _ _ _ | ReceiveVoteResponse _ _ _ | ReceiveBeginQuorumEpoch _ _ =>
      Exists (fun msg => dst msg = n ∧ event msg = ev) (net c)
  | _ => True
  end.

(** [n] once followed another node as leader of epoch [e]. *)
Definition followed_in (c : Cluster) (n : NodeId) (e : Epoch) : Prop :=
  ∃ m0 l, (n, m0) ∈ past c ∧ mepoch m0 = e ∧ mleader m0 = Some l ∧ l ≠ n.

(** A binding vote request for an epoch whose leader [n] has followed. *)
Definition revote (c : Cluster) (n : NodeId) (ev : Event) : Prop :=
  match ev with
  | ReceiveVoteRequest _ _ e _ _ false => followed_in c n e
  | _ => False
  end.

(** [strict] runs exclude those requests. *)
Inductive step (strict : bool) (c : Cluster) : Cluster → Prop :=
| step_event n m ev log now m' acts :
    nodes c !! n = Some m → available c n ev →
    (strict = true → ¬ revote c n ev) →
    on_event m ev log now = (m', acts) →
    step strict c (after c n m' log acts)
| step_restart n s millis :
    disk c !! n = Some s →
    step strict c (restarted c n (new n s millis)).

(** Every node starts from the same bootstrap state, with a timeout of its own. *)
Definition initial (cid : Uuid) (vs : VoterSet.t) (millis : NodeId → Z) (ids : gset NodeId) :
    Cluster :=
  let boot := bootstrap cid vs in
  let ns := set_to_map (fun n => (n, new n boot (millis n))) ids in
  {| nodes := ns;
     disk := set_to_map (fun n => (n, boot)) ids;
     net := [];
     past := map_to_list ns |}.

Inductive reachable (strict : bool) : Cluster → Prop :=
| reach_init cid vs millis ids :
    VoterSet.ids vs = V → reachable strict (initial cid vs millis ids)
| reach_step c c' : reachable strict c → step strict c c' → reachable strict c'.

(** ** Facts about the past *)
Definition voted_in (c : Cluster) (n : NodeId) (e : Epoch) (x : NodeId) : Prop :=
  ∃ m0, (n, m0) ∈ past c ∧ mepoch m0 = e ∧ mvote m0 = Some x.
Definition led_in (c : Cluster) (n : NodeId) (e : Epoch) : Prop :=
  ∃ m0, (n, m0) ∈ past c ∧ mepoch m0 = e ∧ is_leader (role m0) = true.

Definition grows (c c' : Cluster) : Prop := ∀ p, p ∈ past c → p ∈ past c'.

Lemma voted_in_grows c c' n e x : grows c c' → voted_in c n e x → voted_in c' n e x.
Proof. intros Hg (m0 & ? & ?). exists m0. eauto. Qed.
Lemma led_in_grows c c' n e : grows c c' → led_in c n e → led_in c' n e.
Proof. intros Hg (m0 & ? & ?). exists m0. eauto. Qed.
Lemma followed_in_grows c c' n e : grows c c' → followed_in c n e → followed_in c' n e.
Proof. intros Hg (m0 & l & ? & ?). exists m0, l. eauto. Qed.

(** ** The invariant *)
Record Inv (c : Cluster) : Prop := {
  inv_node n m : nodes c !! n = Some m →
    (n, m) ∈ past c ∧ me m = n ∧ VoterSet.ids (voters (state m)) = V ∧
    adjacent_voters m = None ∧ in_u 32 (mepoch m) ∧ (campaigning (role m) = true → n ∈ V);
  inv_disk n s : disk c !! n = Some s → ∃ m, nodes c !! n = Some m ∧
    leader_epoch s = mepoch m ∧ voted_key s = voted_key (state m) ∧
    voters s = voters (state m) ∧ ∀ l, leader_id s = Some l → led_in c l (leader_epoch s);
  inv_past n m0 : (n, m0) ∈ past c → ∃ m, nodes c !! n = Some m ∧ mepoch m0 ≤ mepoch m;
  inv_voter n e x : voted_in c n e x → n ∈ V;
  inv_vote n m x : nodes c !! n = Some m → mepoch m < U32_MAX →
    voted_in c n (mepoch m) x → mvote m = Some x ∨ followed_in c n (mepoch m);
  inv_unique n e x y : e < U32_MAX → voted_in c n e x → voted_in c n e y → x = y;
  inv_response msg from e : msg ∈ net c → event msg = ReceiveVoteResponse from e true →
    e < U32_MAX → from ∈ V ∧
    (voted_in c from e (dst msg) ∨ ∀ m, nodes c !! dst msg = Some m → spent m e);
  inv_request msg from v e cand le pre : msg ∈ net c →
    event msg = ReceiveVoteRequest from v e cand le pre →
    from = cand ∧ (pre = true → ∃ m, nodes c !! from = Some m ∧ e ≤ mepoch m ∧
                                 (e < U32_MAX → spent m e));
  inv_begin msg l e : msg ∈ net c → event msg = ReceiveBeginQuorumEpoch l e →
    l ≠ dst msg ∧ led_in c l e;
  inv_event msg : msg ∈ net c → event_ok (event msg);
  inv_candidate n m g d : nodes c !! n = Some m → role m = Candidate g d → mepoch m < U32_MAX →
    ∀ v, v ∈ g → v ∈ V ∧ voted_in c v (mepoch m) n;
  inv_leader n e : led_in c n e → e < U32_MAX →
    ∃ Q : gset NodeId, Q ⊆ V ∧ (size V / 2 + 1 ≤ size Q)%nat ∧ ∀ v, v ∈ Q → voted_in c v e n;
  inv_belief n m0 l : (n, m0) ∈ past c → mleader m0 = Some l → led_in c l (mepoch m0);
}.

(** *** One event preserves it *)
Section EventStep.
Context (c : Cluster) (Hinv : Inv c).
Context (n : NodeId) (m : M) (ev : Event) (log : LogView) (now : SimInstant).
Context (m' : M) (acts : list Action).
Context (Hn : nodes c !! n = Some m) (Hav : available c n ev).
Context (Hev : on_event m ev log now = (m', acts)).

Let c' := after c n m' log acts.

Lemma ev_message :
  match ev with
  | ReceiveVoteRequest _ _ _ _ _ _ | ReceiveVoteResponse _ _ _ | ReceiveBeginQuorumEpoch _ _ =>
      ∃ msg, msg ∈ net c ∧ dst msg = n ∧ event msg = ev
  | _ => True
  end.
Proof.
  destruct ev; try done; apply Exists_exists in Hav as (msg & Hin & Hd & He); eauto.
Qed.

Lemma ev_ok : event_ok ev.
Proof.
  pose proof ev_message as H. destruct ev; try done;
    destruct H as (msg & Hin & _ & <-); by apply (inv_event c Hinv).
Qed.

Lemma ev_grows : grows c c'.
Proof. intros p Hp. by right. Qed.
Hint Resolve ev_grows voted_in_grows led_in_grows followed_in_grows : core.

Lemma ev_node : (n, m) ∈ past c ∧ me m = n ∧ VoterSet.ids (voters (state m)) = V ∧
  adjacent_voters m = None ∧ in_u 32 (mepoch m) ∧ (campaigning (role m) = true → n ∈ V).
Proof. by apply inv_node. Qed.

Lemma ev_mono : mepoch m ≤ mepoch m'.
Proof. destruct ev_node as (_ & _ & _ & _ & Hr & _). by eapply on_event_epoch. Qed.

Lemma ev_is_voter : is_voter m = true ↔ n ∈ V.
Proof.
  destruct ev_node as (_ & Hme & Hv & _). unfold is_voter.
  by rewrite VoterSet.contains_spec, Hv, Hme.
Qed.

Lemma past_new n0 m0 : (n0, m0) ∈ past c' → (n0 = n ∧ m0 = m') ∨ (n0, m0) ∈ past c.
Proof. intros [[= -> ->]|Hp]%elem_of_cons; auto. Qed.

Lemma voted_new n0 e x :
  voted_in c' n0 e x → voted_in c n0 e x ∨ (n0 = n ∧ e = mepoch m' ∧ mvote m' = Some x).
Proof. intros (m0 & [[-> ->]|Hp]%past_new & He & Hx); [right|left; exists m0]; auto. Qed.

(** Votes and terms of the past never reach beyond a node's present epoch. *)
Lemma voted_epoch e x : voted_in c n e x → e ≤ mepoch m.
Proof.
  intros (m0 & Hp & <- & _). apply (inv_past c Hinv) in Hp as (m1 & Hm1 & Hle).
  by rewrite Hn in Hm1; simplify_eq.
Qed.

Lemma ev_node' : (n, m') ∈ past c' ∧ me m' = n ∧ VoterSet.ids (voters (state m')) = V ∧
  adjacent_voters m' = None ∧ in_u 32 (mepoch m') ∧ (campaigning (role m') = true → n ∈ V).
Proof.
  destruct ev_node as (_ & Hme & Hv & Ha & Hr & Hc).
  destruct (on_event_fixed _ _ _ _ _ _ Hev) as (E1 & E2 & E3 & _).
  split_and!; [by left|congruence|congruence|congruence| |].
  - eapply on_event_epoch_range; [exact Hr|apply ev_ok|exact Hev].
  - intros Hcam. apply (on_event_campaign _ _ _ _ _ _ Hev) in Hcam as [Hvo|Hcam]; [|auto].
    by apply ev_is_voter.
Qed.

(** The grants of a candidacy that this event continues or starts are votes. *)
Lemma tally_votes g e v0 :
  tally_of m ev g e v0 → e = mepoch m' → v0 = mvote m' → e < U32_MAX →
  (campaigning (role m') = true ∨ is_voter m = true ∨ campaigning (role m) = true) →
  ∀ v, v ∈ g → v ∈ V ∧ voted_in c' v e n.
Proof.
  destruct ev_node as (Hpast & Hme & _ & _ & _ & Hcv).
  intros Ht He Hv0 Hmax Hcam v Hv.
  destruct Ht as [(Heq & _ & g0 & d0 & Hrole & Hg)|(_ & -> & Hself)].
  - assert (∀ u, u ∈ g0 → u ∈ V ∧ voted_in c' u e n) as Hold.
    { intros u Hu. rewrite Heq. rewrite Heq in Hmax.
      destruct (inv_candidate c Hinv n m g0 d0 Hn Hrole Hmax u Hu). eauto. }
    destruct Hg as [->|(from & Hr & ->)]; [by apply Hold|].
    apply elem_of_union in Hv as [->%elem_of_singleton|Hv]; [|by apply Hold].
    pose proof ev_message as Hm. rewrite Hr in Hm. destruct Hm as (msg & Hin & Hd & He').
    rewrite <- Heq in He'. destruct (inv_response c Hinv _ _ _ Hin He' Hmax) as [HV [Hvote|Hsp]].
    + rewrite Hd in Hvote. eauto.
    + rewrite Hd in Hsp. destruct (Hsp m Hn) as [Hlt|[_ Hnc]]; [lia|].
      by rewrite Hrole in Hnc.
  - apply elem_of_singleton in Hv as ->. rewrite Hme. split.
    + destruct Hcam as [Hcam|[Hvo|Hcam]]; [by apply ev_node'|by apply ev_is_voter|auto].
    + exists m'. split_and!; [by left|done|]. by rewrite <- Hv0, Hself, Hme.
Qed.

Lemma ev_spent n0 m0 e :
  nodes c !! n0 = Some m0 → e < U32_MAX → spent m0 e → ∀ m1, nodes c' !! n0 = Some m1 → spent m1 e.
Proof.
  intros H0 He Hs m1 H1. destruct ev_node as (_ & _ & _ & _ & Hr & _).
  destruct (decide (n0 = n)) as [->|Hne].
  - rewrite Hn in H0. unfold c' in H1. simpl in H1.
    rewrite lookup_insert_eq in H1. simplify_eq. by eapply on_event_spent.
  - unfold c' in H1. simpl in H1. rewrite lookup_insert_ne in H1 by done.
    by rewrite H0 in H1; simplify_eq.
Qed.

(** Messages of this step, and what they say. *)
Lemma net_new msg :
  msg ∈ net c' → msg ∈ net c ∨
  (∃ a, a ∈ acts ∧ msg ∈ apply_action (elements (dom (nodes c))) n log a).
Proof.
  unfold c'. simpl. intros [Hin|Hin]%elem_of_app; [right|by left].
  apply list_elem_of_bind in Hin as (a & Hmsg & Ha). eauto.
Qed.

Lemma to_peers_spec peers f msg :
  msg ∈ to_peers peers n f → dst msg ≠ n ∧ event msg = f (dst msg).
Proof.
  unfold to_peers. intros (p & -> & Hp)%list_elem_of_fmap.
  apply list_elem_of_filter in Hp as [Hne _]. done.
Qed.

(** A vote of the past, in the node's new epoch. *)
Lemma old_vote y :
  ¬ revote c n ev → mepoch m' < U32_MAX → voted_in c n (mepoch m') y →
  (mvote m' = mvote m ∧ mepoch m' = mepoch m ∧ (mvote m = Some y ∨ followed_in c n (mepoch m))) ∨
  (mvote m' = None ∧ followed_in c' n (mepoch m')).
Proof.
  intros Hs Hmax Hy. pose proof (voted_epoch _ _ Hy) as Hle. pose proof ev_mono as Hmono.
  assert (mepoch m' = mepoch m) as Heq by lia. rewrite Heq in Hmax, Hy.
  destruct ev_node as (_ & _ & _ & _ & [Hlo _] & _).
  pose proof (inv_voter c Hinv _ _ _ Hy) as HV.
  pose proof (inv_vote c Hinv n m y Hn Hmax Hy) as Hold.
  destruct (on_event_vote _ _ _ _ _ _ (conj Hlo Hmax) Hev Heq)
    as [Hsame|[(l & Hb & Hl & Hnone)|[(from & v & cd & le & Hr & Hnone)|Hnv]]].
  - left. split_and!; done.
  - right. split; [done|]. exists m', l. split_and!; [by left|done|done|].
    pose proof ev_message as Hm. rewrite Hb in Hm. destruct Hm as (msg & Hin & Hd & He).
    destruct (inv_begin c Hinv _ _ _ Hin He) as [Hne _]. by rewrite Hd in Hne.
  - exfalso. rewrite Hr in Hs. rewrite Hnone in Hold. by destruct Hold.
  - apply ev_is_voter in HV. congruence.
Qed.

Lemma ev_vote x :
  ¬ revote c n ev → mepoch m' < U32_MAX → voted_in c' n (mepoch m') x →
  mvote m' = Some x ∨ followed_in c' n (mepoch m').
Proof.
  intros Hs Hmax [Hx|(_ & _ & Hx)]%voted_new; [|by left].
  destruct (old_vote x Hs Hmax Hx) as [(-> & Heq & [->|Hf])|[_ Hf]]; auto.
  right. rewrite Heq. eauto.
Qed.

Lemma ev_unique x y :
  ¬ revote c n ev → mepoch m' < U32_MAX →
  mvote m' = Some x → voted_in c n (mepoch m') y → x = y.
Proof.
  intros Hs Hmax Hx Hy. destruct (old_vote y Hs Hmax Hy) as [(Hsame & Heq & _)|[Hnone _]];
    [|congruence].
  rewrite Heq in Hmax, Hy. destruct ev_node as (Hp & _).
  apply (inv_unique c Hinv n (mepoch m)); [done| |done].
  exists m. split_and!; congruence.
Qed.

Lemma ev_voter n0 e x : voted_in c' n0 e x → n0 ∈ V.
Proof.
  intros [Hx|(-> & _ & Hx)]%voted_new; [by eapply inv_voter|].
  destruct ev_node as (Hp & _ & _ & _ & _ & Hcv).
  destruct (on_event_voter _ _ _ _ _ _ Hev) as [Hsame|[Hvo|Hcam]].
  - congruence.
  - apply (inv_voter c Hinv n (mepoch m) x). exists m. split_and!; congruence.
  - by apply ev_is_voter.
  - auto.
Qed.

Lemma ev_leader n0 e :
  led_in c' n0 e → e < U32_MAX →
  ∃ Q : gset NodeId, Q ⊆ V ∧ (size V / 2 + 1 ≤ size Q)%nat ∧ ∀ v, v ∈ Q → voted_in c' v e n0.
Proof.
  intros (m0 & Hp & <- & Hlead) Hmax.
  assert (∀ n1 e1, led_in c n1 e1 → e1 < U32_MAX → ∃ Q : gset NodeId, Q ⊆ V ∧
    (size V / 2 + 1 ≤ size Q)%nat ∧ ∀ v, v ∈ Q → voted_in c' v e1 n1) as Hold.
  { intros n1 e1 H1 H2. destruct (inv_leader c Hinv n1 e1 H1 H2) as (Q & ? & ? & ?).
    exists Q. eauto. }
  apply past_new in Hp as [[-> ->]|Hp]; [|apply Hold; [by exists m0|done]].
  destruct ev_node as (Hpast & _ & Hv & _ & _).
  destruct (on_event_leader _ _ _ _ _ _ Hev Hlead) as [[Hl Hst]|(g & Hmaj & Ht)].
  - apply Hold; [|done]. exists m. split_and!; [done| |done]. unfold mepoch. by rewrite Hst.
  - assert (is_voter m = true ∨ campaigning (role m) = true) as Hcam.
    { destruct Ht as [(_ & _ & g0 & d0 & -> & _)|(_ & _ & Hself)]; [by right|].
      destruct (on_event_voter _ _ _ _ _ _ Hev) as [Hsame|?]; [congruence| |done].
      left. apply ev_is_voter, (inv_voter c Hinv n (mepoch m) (me m)).
      exists m. split_and!; congruence. }
    pose proof (tally_votes g _ _ Ht eq_refl eq_refl Hmax (or_intror Hcam)) as Hg.
    exists g. split_and!.
    + intros v Hin. by apply Hg.
    + unfold majority in Hmaj. by rewrite VoterSet.len_ids, Hv in Hmaj.
    + intros v Hin. by apply Hg.
Qed.

Lemma ev_belief n0 m0 l : (n0, m0) ∈ past c' → mleader m0 = Some l → led_in c' l (mepoch m0).
Proof.
  intros [[-> ->]|Hp]%past_new Hl; [|apply (led_in_grows c); [auto|by eapply inv_belief]].
  destruct ev_node as (Hpast & Hme & _).
  destruct (on_event_belief _ _ _ _ _ _ _ Hev Hl) as [[Hold Heq]|[Hb|[-> Hlead]]].
  - rewrite Heq. apply (led_in_grows c); [auto|by eapply inv_belief].
  - pose proof ev_message as Hm. rewrite Hb in Hm. destruct Hm as (msg & Hin & _ & He).
    apply (led_in_grows c); [auto|]. by apply (inv_begin c Hinv _ _ _ Hin He).
  - exists m'. rewrite Hme. split_and!; [by left|done|done].
Qed.

(** *** The messages of the step *)
Lemma ev_response msg from e :
  msg ∈ net c' → event msg = ReceiveVoteResponse from e true → e < U32_MAX →
  from ∈ V ∧ (voted_in c' from e (dst msg) ∨ ∀ m1, nodes c' !! dst msg = Some m1 → spent m1 e).
Proof.
  intros [Hin|(a & Ha & Hin)]%net_new He Hmax.
  - destruct (inv_response c Hinv _ _ _ Hin He Hmax) as [HV [Hv|Hs]]; split; eauto.
    right. intros m1 Hm1. destruct (nodes c !! dst msg) as [m0|] eqn:H0.
    + by eapply ev_spent; eauto.
    + unfold c' in Hm1. simpl in Hm1. destruct (decide (dst msg = n)) as [Heq|Hne].
      * rewrite Heq in H0. congruence.
      * rewrite lookup_insert_ne in Hm1 by done. congruence.
  - destruct a; simpl in Hin; try (by apply elem_of_nil in Hin);
      try (apply to_peers_spec in Hin as [_ Hin]; congruence).
    apply list_elem_of_singleton in Hin as ->. simpl in *. injection He as <- -> ->.
    destruct (on_event_grant _ _ _ _ _ _ _ _ Hev Ha)
      as (-> & Hvo & v & ce & cd & le & pre & Hreq & _ & Hreal & Hpre).
    split; [by apply ev_is_voter|].
    pose proof ev_message as Hm. rewrite Hreq in Hm. destruct Hm as (rq & Hrq & _ & Herq).
    destruct (inv_request c Hinv _ _ _ _ _ _ _ Hrq Herq) as [-> Hsp].
    destruct pre.
    + right. destruct (Hpre eq_refl) as [Hle Hm']. destruct (Hsp eq_refl) as (m0 & Hm0 & Hle0 & Hs0).
      apply (ev_spent _ m0); [done|done|].
      destruct (decide (ce = mepoch m')) as [->|Hne]; [auto|left; lia].
    + left. destruct (Hreal eq_refl) as [_ Hvote]. exists m'. split_and!; [by left|done|done].
Qed.

Lemma ev_request msg from v e cand le pre :
  msg ∈ net c' → event msg = ReceiveVoteRequest from v e cand le pre →
  from = cand ∧ (pre = true → ∃ m1, nodes c' !! from = Some m1 ∧ e ≤ mepoch m1 ∧
                               (e < U32_MAX → spent m1 e)).
Proof.
  intros [Hin|(a & Ha & Hin)]%net_new He.
  - destruct (inv_request c Hinv _ _ _ _ _ _ _ Hin He) as [-> Hpre]. split; [done|].
    intros ->. destruct (Hpre eq_refl) as (m0 & H0 & Hle & Hsp).
    unfold c'. simpl. destruct (decide (cand = n)) as [->|Hne].
    + exists m'. rewrite lookup_insert_eq. split_and!; [done| |].
      * pose proof ev_mono. rewrite Hn in H0. simplify_eq. lia.
      * intros Hmax. eapply ev_spent; [exact H0|done|auto|]. unfold c'. simpl. apply lookup_insert_eq.
    + exists m0. by rewrite lookup_insert_ne by done.
  - destruct a as [e0 pre0| | | | | | | | | |]; simpl in Hin; try (by apply elem_of_nil in Hin);
      try (apply to_peers_spec in Hin as [_ Hin]; congruence);
      try (apply list_elem_of_singleton in Hin as ->; simpl in He; congruence).
    apply to_peers_spec in Hin as [_ Hin]. rewrite Hin in He. injection He as <- _ <- <- _ <-.
    split; [done|]. intros ->. exists m'. unfold c'. simpl. rewrite lookup_insert_eq.
    destruct ev_node as (_ & _ & _ & _ & Hr & _).
    split_and!; [done| |].
    + destruct (on_event_action_epoch _ _ _ _ _ _ _ e0 Hev Ha eq_refl) as [->| ->]; [|lia].
      apply ev_mono.
    + intros Hmax. by eapply on_event_prevote.
Qed.

Lemma ev_begin msg l e :
  msg ∈ net c' → event msg = ReceiveBeginQuorumEpoch l e → l ≠ dst msg ∧ led_in c' l e.
Proof.
  intros [Hin|(a & Ha & Hin)]%net_new He.
  - destruct (inv_begin c Hinv _ _ _ Hin He). eauto.
  - destruct a as [| |e0| | | | | | | |]; simpl in Hin; try (by apply elem_of_nil in Hin);
      try (apply to_peers_spec in Hin as [_ Hin]; congruence);
      try (apply list_elem_of_singleton in Hin as ->; simpl in He; congruence).
    apply to_peers_spec in Hin as [Hne Hin]. rewrite Hin in He. injection He as <- <-.
    split; [done|]. destruct (on_event_begin _ _ _ _ _ _ _ Hev Ha) as [Hl ->].
    exists m'. split_and!; [by left|done|done].
Qed.

Lemma ev_event msg : msg ∈ net c' → event_ok (event msg).
Proof.
  intros [Hin|(a & Ha & Hin)]%net_new; [by apply (inv_event c Hinv)|].
  assert (∀ e, action_epoch a = Some e → in_u 32 e) as Hok.
  { intros e He. destruct ev_node as (_ & _ & _ & _ & Hr & _).
    destruct ev_node' as (_ & _ & _ & _ & Hr' & _).
    by destruct (on_event_action_epoch _ _ _ _ _ _ _ e Hev Ha He) as [->| ->]. }
  destruct a; simpl in Hin; try (by apply elem_of_nil in Hin);
    try (apply to_peers_spec in Hin as [_ ->]; simpl; first [exact I|by apply Hok]);
    try (apply list_elem_of_singleton in Hin as ->; simpl; first [exact I|by apply Hok]).
Qed.

Lemma persists_spec : persists acts = true ↔ PersistQuorumState ∈ acts.
Proof.
  unfold persists. rewrite existsb_exists. split.
  - intros (a & Hin & Ha). destruct a; try done. by apply list_elem_of_In.
  - intros Hin. exists PersistQuorumState. split; [by apply list_elem_of_In|done].
Qed.

Lemma ev_disk n0 s : disk c' !! n0 = Some s → ∃ m1, nodes c' !! n0 = Some m1 ∧
  leader_epoch s = mepoch m1 ∧ voted_key s = voted_key (state m1) ∧
  voters s = voters (state m1) ∧ ∀ l, leader_id s = Some l → led_in c' l (leader_epoch s).
Proof.
  unfold c' at 1 2. simpl. intros Hd.
  assert (∀ s0, disk c !! n0 = Some s0 → s = s0 → n0 ≠ n ∨ persists acts = false →
    ∃ m1, <[n:=m']> (nodes c) !! n0 = Some m1 ∧ leader_epoch s = mepoch m1 ∧
    voted_key s = voted_key (state m1) ∧ voters s = voters (state m1) ∧
    ∀ l, leader_id s = Some l → led_in c' l (leader_epoch s)) as Hold.
  { intros s0 H0 <- Hcase. destruct (inv_disk c Hinv _ _ H0) as (m0 & Hm0 & E1 & E2 & E3 & Hl).
    destruct (decide (n0 = n)) as [->|Hne].
    - destruct Hcase as [?|Hp]; [done|]. exists m'. rewrite lookup_insert_eq.
      rewrite Hn in Hm0. simplify_eq.
      destruct (on_event_durable _ _ _ _ _ _ Hev) as [Hin|[Ee Ev]];
        [apply persists_spec in Hin; congruence|].
      destruct (on_event_fixed _ _ _ _ _ _ Hev) as (_ & Evs & _).
      split_and!; [done|congruence|congruence|congruence|eauto].
    - exists m0. rewrite lookup_insert_ne by done. split_and!; eauto. }
  destruct (persists acts) eqn:Hp; [|by eapply Hold; eauto].
  destruct (decide (n0 = n)) as [->|Hne].
  - rewrite lookup_insert_eq in Hd. injection Hd as <-. exists m'. rewrite lookup_insert_eq.
    split_and!; [done..|]. intros l Hl. apply (ev_belief n m'); [by left|done].
  - rewrite lookup_insert_ne in Hd by done. eapply Hold; eauto.
Qed.

Lemma event_preserves : ¬ revote c n ev → Inv c'.
Proof.
  intros Hs.
  assert (∀ n0 m0, nodes c' !! n0 = Some m0 →
    (n0 = n ∧ m0 = m') ∨ (n0 ≠ n ∧ nodes c !! n0 = Some m0)) as Hcase.
  { intros n0 m0. unfold c'. simpl. intros [[<- <-]|[? ?]]%lookup_insert_Some; auto. }
  split.
  - intros n0 m0 [[-> ->]|[Hne H0]]%Hcase; [apply ev_node'|].
    destruct (inv_node c Hinv n0 m0 H0) as (Hp & Hrest). split; [by right|done].
  - apply ev_disk.
  - intros n0 m0 [[-> ->]|Hp]%past_new.
    + exists m'. unfold c'. simpl. rewrite lookup_insert_eq. split; [done|lia].
    + destruct (inv_past c Hinv n0 m0 Hp) as (m1 & Hm1 & Hle). unfold c'. simpl.
      destruct (decide (n0 = n)) as [->|Hne].
      * exists m'. rewrite lookup_insert_eq. split; [done|]. pose proof ev_mono.
        rewrite Hn in Hm1. simplify_eq. lia.
      * exists m1. by rewrite lookup_insert_ne by done.
  - apply ev_voter.
  - intros n0 m0 x [[-> ->]|[Hne H0]]%Hcase Hmax Hx; [by apply ev_vote|].
    apply voted_new in Hx as [Hx|(-> & _)]; [|done].
    destruct (inv_vote c Hinv n0 m0 x H0 Hmax Hx); eauto.
  - intros n0 e x y Hmax [Hx|(-> & -> & Hx)]%voted_new [Hy|(? & Hey & Hy)]%voted_new.
    + by apply (inv_unique c Hinv n0 e).
    + subst. symmetry. by apply ev_unique.
    + by apply ev_unique.
    + congruence.
  - apply ev_response.
  - apply ev_request.
  - apply ev_begin.
  - apply ev_event.
  - intros n0 m0 g d [[-> ->]|[Hne H0]]%Hcase Hrole Hmax v Hv.
    + eapply tally_votes; [by eapply on_event_candidate|done|done|done| |done].
      left. by rewrite Hrole.
    + destruct (inv_candidate c Hinv n0 m0 g d H0 Hrole Hmax v Hv). eauto.
  - apply ev_leader.
  - apply ev_belief.
Qed.

End EventStep.

(** *** A restart preserves it *)
Section RestartStep.
Context (c : Cluster) (Hinv : Inv c) (n : NodeId) (s : QuorumState) (millis : Z).
Context (Hd : disk c !! n = Some s).

Let m' := new n s millis.
Let c' := restarted c n m'.

Lemma rs_grows : grows c c'.
Proof. intros p Hp. by right. Qed.
Hint Resolve rs_grows voted_in_grows led_in_grows followed_in_grows : core.

(** The restarted node resumes its epoch and its vote, in an idle role. *)
Lemma rs_node : ∃ m, nodes c !! n = Some m ∧ mepoch m' = mepoch m ∧ mvote m' = mvote m ∧
  voters (state m') = voters (state m) ∧ ∀ l, mleader m' = Some l → led_in c l (mepoch m').
Proof.
  destruct (inv_disk c Hinv n s Hd) as (m & Hn & E1 & E2 & E3 & Hl).
  exists m. unfold mepoch, mvote, mleader. simpl. rewrite E2. split_and!; done.
Qed.

Lemma rs_role :
  is_leader (role m') = false ∧ campaigning (role m') = false ∧ is_candidate (role m') = false.
Proof. unfold m', new. simpl. by destruct (negb _). Qed.

Lemma rs_case n0 m0 :
  nodes c' !! n0 = Some m0 → (n0 = n ∧ m0 = m') ∨ (n0 ≠ n ∧ nodes c !! n0 = Some m0).
Proof. unfold c'. simpl. intros [[<- <-]|[? ?]]%lookup_insert_Some; auto. Qed.

Lemma rs_lookup n0 m0 :
  nodes c !! n0 = Some m0 → ∃ m1, nodes c' !! n0 = Some m1 ∧ mepoch m1 = mepoch m0.
Proof.
  intros H0. destruct rs_node as (m & Hn & Ee & _). unfold c'. simpl.
  destruct (decide (n0 = n)) as [->|Hne].
  - exists m'. rewrite lookup_insert_eq. split; congruence.
  - exists m0. by rewrite lookup_insert_ne by done.
Qed.

Lemma rs_voted n0 e x : voted_in c' n0 e x → voted_in c n0 e x.
Proof.
  destruct rs_node as (m & Hn & Ee & Ev & _). destruct (inv_node c Hinv n m Hn) as (Hp & _).
  intros (m0 & [[= -> ->]|Hin]%elem_of_cons & <- & Hx); [|by exists m0].
  exists m. split_and!; congruence.
Qed.

Lemma rs_led n0 e : led_in c' n0 e → led_in c n0 e.
Proof.
  destruct rs_role as (Hnl & _).
  intros (m0 & [[= -> ->]|Hin]%elem_of_cons & He & Hx); [congruence|by exists m0].
Qed.

Lemma rs_spent n0 m0 m1 e :
  nodes c !! n0 = Some m0 → spent m0 e → nodes c' !! n0 = Some m1 → spent m1 e.
Proof.
  destruct rs_node as (m & Hn & Ee & _). destruct rs_role as (_ & _ & Hnc).
  intros H0 Hs [[-> ->]|[_ H1]]%rs_case; [|congruence].
  rewrite Hn in H0. injection H0 as <-. unfold spent. rewrite Ee.
  destruct Hs as [?|[? _]]; [by left|by right].
Qed.

Lemma restart_preserves : Inv c'.
Proof.
  destruct rs_node as (m & Hn & Ee & Ev & Evs & Hl). destruct rs_role as (Hnl & Hnc & _).
  destruct (inv_node c Hinv n m Hn) as (Hp & Hme & Hv & Ha & Hr & Hc).
  split.
  - intros n0 m0 [[-> ->]|[Hne H0]]%rs_case.
    + split_and!; [by left|done|congruence|done|by rewrite Ee|congruence].
    + destruct (inv_node c Hinv n0 m0 H0) as (Hp0 & Hrest). split; [by right|done].
  - intros n0 s0 H0. destruct (inv_disk c Hinv n0 s0 H0) as (m0 & Hm0 & F1 & F2 & F3 & F4).
    destruct (decide (n0 = n)) as [->|Hne].
    + simpl in H0. rewrite Hd in H0. injection H0 as <-.
      exists m'. unfold c'. simpl. rewrite lookup_insert_eq. split_and!; eauto.
    + exists m0. unfold c'. simpl. rewrite lookup_insert_ne by done. split_and!; eauto.
  - intros n0 m0 [[= -> ->]|Hin]%elem_of_cons.
    + exists m'. unfold c'. simpl. rewrite lookup_insert_eq. split; [done|lia].
    + destruct (inv_past c Hinv n0 m0 Hin) as (m1 & Hm1 & Hle).
      destruct (rs_lookup n0 m1 Hm1) as (m2 & Hm2 & He2). exists m2. split; [done|lia].
  - intros n0 e x Hx%rs_voted. by eapply inv_voter.
  - intros n0 m0 x [[-> ->]|[Hne H0]]%rs_case Hmax Hx%rs_voted.
    + rewrite Ee in *. rewrite Ev. destruct (inv_vote c Hinv n m x Hn Hmax Hx); eauto.
    + destruct (inv_vote c Hinv n0 m0 x H0 Hmax Hx); eauto.
  - intros n0 e x y Hmax Hx%rs_voted Hy%rs_voted. by apply (inv_unique c Hinv n0 e).
  - intros msg from e Hin He Hmax.
    destruct (inv_response c Hinv msg from e Hin He Hmax) as [HV [Hx|Hs]]; split; eauto.
    right. intros m1 H1. pose proof H1 as [[Heq ->]|[_ H0]]%rs_case; [|by apply Hs].
    eapply rs_spent; [exact Hn|apply Hs; congruence|congruence].
  - intros msg from v e cand le pre Hin He.
    destruct (inv_request c Hinv _ _ _ _ _ _ _ Hin He) as [-> Hpre]. split; [done|].
    intros Htrue. destruct (Hpre Htrue) as (m0 & H0 & Hle & Hs).
    destruct (rs_lookup _ _ H0) as (m1 & H1 & He1). exists m1. split_and!; [done|lia|].
    intros Hmax. eapply rs_spent; eauto.
  - intros msg l e Hin He. destruct (inv_begin c Hinv _ _ _ Hin He). eauto.
  - apply (inv_event c Hinv).
  - intros n0 m0 g d [[-> ->]|[Hne H0]]%rs_case Hrole Hmax v Hin; [by rewrite Hrole in Hnc|].
    destruct (inv_candidate c Hinv n0 m0 g d H0 Hrole Hmax v Hin). eauto.
  - intros n0 e Hx%rs_led Hmax. destruct (inv_leader c Hinv n0 e Hx Hmax) as (Q & ? & ? & HQ).
    exists Q. eauto.
  - intros n0 m0 l [[= -> ->]|Hin]%elem_of_cons Hl0; [by eauto|].
    apply (led_in_grows c); [auto|by eapply inv_belief].
Qed.

End RestartStep.

Lemma initial_node cid vs millis ids n m :
  nodes (initial cid vs millis ids) !! n = Some m → m = new n (bootstrap cid vs) (millis n).
Proof.
  simpl. intros H. apply lookup_set_to_map in H as (n' & _ & [= <- <-]); [done|].
  intros y y' _ _. done.
Qed.

Lemma initial_past cid vs millis ids n m :
  (n, m) ∈ past (initial cid vs millis ids) ↔ nodes (initial cid vs millis ids) !! n = Some m.
Proof. simpl. apply elem_of_map_to_list. Qed.

Lemma initial_inv cid vs millis ids : VoterSet.ids vs = V → Inv (initial cid vs millis ids).
Proof.
  intros HV. set (c0 := initial cid vs millis ids).
  assert (∀ n m, (n, m) ∈ past c0 → m = new n (bootstrap cid vs) (millis n)) as Hpast.
  { intros n m Hp%initial_past. by eapply initial_node. }
  assert (∀ n m, is_leader (role (new n (bootstrap cid vs) m)) = false ∧
                 campaigning (role (new n (bootstrap cid vs) m)) = false) as Hrole.
  { intros n m. simpl. by destruct (negb _). }
  split.
  - intros n m Hn. pose proof (initial_node _ _ _ _ _ _ Hn) as ->.
    split_and!; [by apply initial_past|done|done|done|done|].
    intros Hc. by rewrite (proj2 (Hrole n (millis n))) in Hc.
  - intros n s Hs. exists (new n (bootstrap cid vs) (millis n)). simpl in *.
    apply lookup_set_to_map in Hs as (n' & Hn' & [= -> <-]); [|done].
    split_and!; try done. apply lookup_set_to_map; [done|]. by exists n.
  - intros n m0 Hp. exists m0. split; [by apply initial_past|done].
  - intros n e x (m0 & Hp & _ & Hx). by rewrite (Hpast _ _ Hp) in Hx.
  - intros n m x _ _ (m0 & Hp & _ & Hx). by rewrite (Hpast _ _ Hp) in Hx.
  - intros n e x y _ (m0 & Hp & _ & Hx). by rewrite (Hpast _ _ Hp) in Hx.
  - intros msg from e Hin. by apply elem_of_nil in Hin.
  - intros msg from v e cand le pre Hin. by apply elem_of_nil in Hin.
  - intros msg l e Hin. by apply elem_of_nil in Hin.
  - intros msg Hin. by apply elem_of_nil in Hin.
  - intros n m g d Hn Hc. pose proof (initial_node _ _ _ _ _ _ Hn) as ->.
    pose proof (proj2 (Hrole n (millis n))) as Hr. by rewrite Hc in Hr.
  - intros n e (m0 & Hp & _ & Hlead). rewrite (Hpast _ _ Hp) in Hlead.
    by rewrite (proj1 (Hrole n (millis n))) in Hlead.
  - intros n m0 l Hp Hl. by rewrite (Hpast _ _ Hp) in Hl.
Qed.

Lemma reachable_inv c : reachable true c → Inv c.
Proof.
  induction 1 as [cid vs millis ids HV|c c' _ IH Hstep]; [by apply initial_inv|].
  destruct Hstep as [n m ev log now m' acts Hn Hav Hs Hev|n s millis Hd].
  - by eapply event_preserves; eauto.
  - by apply restart_preserves.
Qed.

(** Two majorities share a voter. *)
Lemma majorities_intersect (Q1 Q2 : gset NodeId) :
  Q1 ⊆ V → Q2 ⊆ V → (size V / 2 + 1 ≤ size Q1)%nat → (size V / 2 + 1 ≤ size Q2)%nat →
  ∃ v, v ∈ Q1 ∧ v ∈ Q2.
Proof.
  intros H1 H2 S1 S2. destruct (decide (Q1 ∩ Q2 = ∅)) as [He|Hne].
  - exfalso. assert (size (Q1 ∪ Q2) = (size Q1 + size Q2)%nat) as Hs
      by (apply size_union; clear -He; set_solver).
    assert (size (Q1 ∪ Q2) ≤ size V)%nat by (apply subseteq_size; clear -H1 H2; set_solver).
    pose proof (Nat.div_mod_eq (size V) 2). pose proof (Nat.mod_upper_bound (size V) 2). lia.
  - apply set_choose_L in Hne as [v Hv]. exists v. set_solver.
Qed.

Lemma one_leader_per_epoch c x y e :
  Inv c → e < U32_MAX → led_in c x e → led_in c y e → x = y.
Proof.
  intros Hinv Hmax Hx Hy.
  destruct (inv_leader c Hinv x e Hx Hmax) as (Q1 & Hs1 & Hm1 & Hv1).
  destruct (inv_leader c Hinv y e Hy Hmax) as (Q2 & Hs2 & Hm2 & Hv2).
  destruct (majorities_intersect Q1 Q2 Hs1 Hs2 Hm1 Hm2) as (v & Hin1 & Hin2).
  apply (inv_unique c Hinv v e); auto.
Qed.

End Cluster.

(** ** Properties *)

(** C1. Election safety: over the whole history of a run, at most one node has
    been leader in any given epoch.  The run may delay, reorder, duplicate and
    lose messages and restart nodes from their persisted state; it excludes
    only binding vote requests for an epoch whose leader the voter has already
    followed (see [stale_vote_splits_epoch]), and the epoch must be below the
    value at which the epoch counter saturates. *)
Theorem election_safety (V : gset NodeId) (c : Cluster) (x y : NodeId) (e : Epoch) :
  reachable V true c → e < U32_MAX →
  led_in c x e → led_in c y e → x = y.
Proof. intros Hr. apply (one_leader_per_epoch V). by apply reachable_inv. Qed.

(** C2. Leader agreement: whenever two nodes are in the same epoch and both
    believe in a leader, they believe in the same one, and that node really was
    elected in this epoch.  As for election safety, the run excludes binding vote
    requests for an epoch whose leader the voter has already followed, and the epoch
    must be below the value at which the epoch counter saturates. *)
Theorem leader_agreement (V : gset NodeId) (c : Cluster) (n1 n2 : NodeId) (m1 m2 : M)
    (l1 l2 : NodeId) :
  reachable V true c →
  nodes c !! n1 = Some m1 → nodes c !! n2 = Some m2 →
  leader_epoch (state m1) = leader_epoch (state m2) → leader_epoch (state m1) < U32_MAX →
  leader_id (state m1) = Some l1 → leader_id (state m2) = Some l2 →
  l1 = l2 ∧ led_in c l1 (leader_epoch (state m1)).
Proof.
  intros Hr%reachable_inv H1 H2 He Hmax Hl1 Hl2.
  destruct (inv_node V c Hr n1 m1 H1) as (Hp1 & _). destruct (inv_node V c Hr n2 m2 H2) as (Hp2 & _).
  pose proof (inv_belief V c Hr _ _ _ Hp1 Hl1) as K1.
  pose proof (inv_belief V c Hr _ _ _ Hp2 Hl2) as K2. unfold mepoch in *.
  split; [|done]. rewrite <- He in K2. by eapply one_leader_per_epoch.
Qed.

(** Single vote: over the whole history of a run, including restarts, a
    node never holds binding votes for two candidates in the same epoch. *)
Theorem single_vote_per_epoch (V : gset NodeId) (c : Cluster) (n x y : NodeId) (e : Epoch) :
  reachable V true c → e < U32_MAX →
  voted_in c n e x → voted_in c n e y → x = y.
Proof. intros Hr%reachable_inv. by apply (inv_unique V c Hr). Qed.

(** ** Executing runs *)
#[global] Instance available_dec c n ev : Decision (available c n ev).
Proof. unfold available. destruct ev; apply _. Defined.

Definition past_b (c : Cluster) (n : NodeId) (e : Epoch) (P : M → bool) : bool :=
  existsb (fun p => (p.1 =? n) && (mepoch p.2 =? e) && P p.2) (past c).

Lemma past_b_spec c n e P :
  past_b c n e P = true ↔ ∃ m0, (n, m0) ∈ past c ∧ mepoch m0 = e ∧ P m0 = true.
Proof.
  unfold past_b. rewrite existsb_exists. split.
  - intros ([n0 m0] & Hin%list_elem_of_In & H). simpl in H. zify_bools. subst. eauto.
  - intros (m0 & Hin & <- & HP). exists (n, m0). split; [by apply list_elem_of_In|].
    simpl. by rewrite !Z.eqb_refl, HP.
Qed.

Definition follows_other (n : NodeId) (m : M) : bool :=
  match mleader m with Some l => negb (l =? n) | None => false end.

Lemma followed_b_spec c n e : past_b c n e (follows_other n) = true ↔ followed_in c n e.
Proof.
  rewrite past_b_spec. unfold followed_in, follows_other. split.
  - intros (m0 & Hin & He & H). destruct (mleader m0) as [l|] eqn:Hl; [|done].
    exists m0, l. zify_bools. done.
  - intros (m0 & l & Hin & He & Hl & Hne). exists m0. rewrite Hl. split_and!; [done..|].
    by apply negb_true_iff, Z.eqb_neq.
Qed.

Lemma led_b_spec c n e : past_b c n e (fun m => is_leader (role m)) = true ↔ led_in c n e.
Proof. apply past_b_spec. Qed.

Definition revote_b (c : Cluster) (n : NodeId) (ev : Event) : bool :=
  match ev with
  | ReceiveVoteRequest _ _ e _ _ false => past_b c n e (follows_other n)
  | _ => false
  end.

Section Exec.
Context (V : gset NodeId).

(** Run one event if the cluster allows it. *)
Definition exec (strict : bool) (c : Cluster) (x : NodeId * Event) : option Cluster :=
  let '(n, ev) := x in
  let log := mkLogView 0 0 (fun _ => None) in
  m ← nodes c !! n;
  if bool_decide (available c n ev) && negb (strict && revote_b c n ev) then
    let '(m', acts) := on_event m ev log 0 in Some (after V c n m' log acts)
  else None.
Fixpoint exec_all (strict : bool) (c : Cluster) (xs : list (NodeId * Event)) : option Cluster :=
  match xs with
  | [] => Some c
  | x :: xs => c ← exec strict c x; exec_all strict c xs
  end.

Lemma exec_step strict c x c' : exec strict c x = Some c' → step V strict c c'.
Proof.
  destruct x as [n ev]. simpl. intros H.
  destruct (nodes c !! n) as [m|] eqn:Hn; simpl in H; [|done].
  destruct (_ && _) eqn:Hg; [|done]. apply andb_true_iff in Hg as [Hav Hs].
  destruct (on_event m ev _ 0) as [m' acts] eqn:Hev. injection H as <-.
  eapply step_event; [exact Hn|by eapply bool_decide_eq_true_1| |exact Hev].
  intros -> Hrev. destruct ev; try done. destruct pre_vote; [done|].
  apply followed_b_spec in Hrev. simpl in Hs. by rewrite Hrev in Hs.
Qed.

Lemma exec_all_reachable strict c xs c' :
  reachable V strict c → exec_all strict c xs = Some c' → reachable V strict c'.
Proof.
  revert c. induction xs as [|x xs IH]; simpl; intros c Hr H.
  - by injection H as <-.
  - destruct (exec strict c x) as [c1|] eqn:Hx; [|done]. simpl in H.
    eapply IH; [|exact H]. eapply reach_step; [exact Hr|by apply (exec_step strict c x)].
Qed.

End Exec.

(** Three voters. *)
Definition three : gset NodeId := {[ 1; 2; 3 ]}.
Definition voter_of (n : NodeId) : Voter := mkVoter n nil_uuid [] default_range.
Definition three_voters : VoterSet.t := VoterSet.from_voters (voter_of <$> [1; 2; 3]).
Definition boot3 : Cluster := initial nil_uuid three_voters (fun _ => 1000) three.
Definition empty_log : LogEnd := mkLogEnd 0 0.
Definition request (from to : NodeId) (e : Epoch) (pre : bool) : NodeId * Event :=
  (to, ReceiveVoteRequest from to e from empty_log pre).
Definition grant (from to : NodeId) (e : Epoch) : NodeId * Event :=
  (to, ReceiveVoteResponse from e true).
Definition begin_epoch (leader to : NodeId) (e : Epoch) : NodeId * Event :=
  (to, ReceiveBeginQuorumEpoch leader e).

Lemma boot3_reachable strict : reachable three strict boot3.
Proof. apply reach_init. vm_compute. reflexivity. Qed.

(** Node 1 is elected in epoch 1 and node 2 follows it. *)
Definition normal_election : list (NodeId * Event) :=
  [ (1, ElectionTimeout); request 1 2 0 true; grant 2 1 0; request 1 2 1 false; grant 2 1 1;
    begin_epoch 1 2 1 ].
Definition after_election : Cluster := default boot3 (exec_all three true boot3 normal_election).

Lemma after_election_reachable : reachable three true after_election.
Proof.
  apply (exec_all_reachable three true boot3 normal_election); [apply boot3_reachable|].
  vm_compute. reflexivity.
Qed.

Lemma election_safety_witness : led_in after_election 1 1 ∧ (1 = 1 :> NodeId).
Proof.
  assert (led_in after_election 1 1) as H
    by (apply led_b_spec; vm_compute; reflexivity).
  split; [exact H|].
  apply (election_safety three after_election 1 1 1); [apply after_election_reachable|
    unfold U32_MAX; lia|exact H|exact H].
Defined.

Lemma single_vote_per_epoch_witness : voted_in after_election 2 1 1 ∧ (1 = 1 :> NodeId).
Proof.
  assert (voted_in after_election 2 1 1) as H.
  { destruct (proj1 (past_b_spec after_election 2 1 (fun m => bool_decide (mvote m = Some 1))))
      as (m0 & Hin & He & Hv); [vm_compute; reflexivity|].
    exists m0. apply bool_decide_eq_true_1 in Hv. done. }
  split; [exact H|].
  apply (single_vote_per_epoch three after_election 2 1 1 1);
    [apply after_election_reachable|unfold U32_MAX; lia|exact H|exact H].
Defined.

Definition node_of (c : Cluster) (n : NodeId) : M :=
  default (new n (bootstrap nil_uuid three_voters) 0) (nodes c !! n).

Lemma leader_agreement_witness :
  (1 = 1 :> NodeId) ∧ led_in after_election 1 (leader_epoch (state (node_of after_election 1))).
Proof.
  apply (leader_agreement three after_election 1 2 (node_of after_election 1)
           (node_of after_election 2) 1 1);
    [apply after_election_reachable|vm_compute; reflexivity..].
Defined.

(** Nodes 1 and 3 both win pre-votes and become candidates of epoch 1.  Node 2
    votes for 1, follows it, loses contact before fetching anything, and then
    receives the delayed request of 3. *)
Definition split_epoch : list (NodeId * Event) :=
  [ (1, ElectionTimeout); (3, ElectionTimeout);
    request 1 2 0 true; request 3 2 0 true; grant 2 1 0; grant 2 3 0;
    request 1 2 1 false; grant 2 1 1; begin_epoch 1 2 1;
    (2, FetchTimeout); request 3 2 1 false; grant 2 3 1 ].

(** C39. Without that restriction election safety fails: following a leader
    erases the vote of the epoch ([handle_begin_quorum_epoch]), giving up on it
    erases the leader ([start_election]), and the voter then grants a second
    vote in the same epoch.  A run of three voters reaches a state in which
    nodes 1 and 3 are both leaders of epoch 1. *)
Theorem stale_vote_splits_epoch :
  ∃ c m1 m3, reachable three false c ∧
    nodes c !! 1 = Some m1 ∧ nodes c !! 3 = Some m3 ∧
    is_leader (role m1) = true ∧ is_leader (role m3) = true ∧
    leader_epoch (state m1) = 1 ∧ leader_epoch (state m3) = 1.
Proof.
  destruct (exec_all three false boot3 split_epoch) as [c|] eqn:Hc; [|by vm_compute in Hc].
  assert (reachable three false c) as Hr.
  { eapply exec_all_reachable; [apply boot3_reachable|exact Hc]. }
  exists c. vm_compute in Hc. injection Hc as <-.
  eexists _, _. split; [exact Hr|]. split; [vm_compute; reflexivity|].
  split; [vm_compute; reflexivity|]. repeat split; reflexivity.
Qed.
