(* ===== verification/Sim.v ===== *)
(** * The deterministic cluster simulator

    Models [crates/kraft-core/src/sim.rs]: the in-memory log, the bus, the
    timer scheduler, the operator's faults, the recorded timeline and the
    curated scenarios.  [None] is a panic (an index or [unwrap] on a missing
    node, or a failed [assert!]).  The extents of the election timers come from
    floating-point quantities and are a parameter, in whole milliseconds.

    The simulator is shown to refine the cluster of [KraftCluster.v]: every
    sequence of operator commands runs without panicking, and its machines are
    those of a run of that cluster. *)

From stdpp Require Import pretty.
From S2P Require Import Prelude Kernels Voters Kraft KraftMachine KraftInvariant KraftCluster.

Module Sim.

#[local] Open Scope string_scope.
#[local] Open Scope Z_scope.

(** ** Recorded trace types *)
Inductive TraceAction : Type :=
| TDeliver (src dst : Z) (event : string)
| TPartition (node : Z)
| THeal (node : Z)
| TTimeout (node : Z) (kind : string)
| TElected (node epoch : Z)
| TAppend (node : Z) (count : nat)
| TDrop (src dst : Z) (event : string).

Record NodeRole : Type := mkNodeRole {
  nr_id : Z;
  nr_role : string;
  nr_epoch : Z;
  nr_log_len : nat;
  nr_hwm : Z;
  nr_partitioned : bool;
}.

Record TraceStep : Type := mkTraceStep {
  ts_index : nat;
  ts_clock_ms : Z;
  ts_action : TraceAction;
  ts_note : string;
  ts_roles : list NodeRole;
}.

Record InFlight : Type := mkInFlight {
  if_src : Z;
  if_dst : Z;
  if_event : string;
}.

Record SimSnapshot : Type := mkSimSnapshot {
  ss_clock_ms : Z;
  ss_nodes : list NodeRole;
  ss_in_flight : list InFlight;
  ss_leaders : list Z;
  ss_step_count : nat;
}.

(** ** The in-memory log: the epoch of the record at each offset *)
Abbreviation SimLog := (list Epoch).

Module SimLog.
Definition end_offset (l : SimLog) : Z := Z.of_nat (length l).
Definition last_epoch (l : SimLog) : Epoch := default 0 (last l).
(** The first offset whose epoch is above [e]. *)
Fixpoint first_above (e : Epoch) (l : SimLog) (i : Z) : option Z :=
  match l with
  | [] => None
  | x :: l => if e <? x then Some i else first_above e l (i + 1)
  end.
Definition end_offset_for_epoch (l : SimLog) (e : Epoch) : option Z :=
  if last_epoch l <? e then None else
  match first_above e l 0 with
  | Some i => Some i
  | None => Some (end_offset l)
  end.
Definition view (l : SimLog) : LogView :=
  mkLogView (end_offset l) (last_epoch l) (end_offset_for_epoch l).
Definition append_in_epoch (l : SimLog) (e : Epoch) (count : nat) : SimLog :=
  l ++ replicate count e.
Definition truncate_to (l : SimLog) (offset : Z) : SimLog :=
  let offset := Z.to_nat (Z.max offset 0) in
  if bool_decide (offset < length l)%nat then take offset l else l.
Definition replicate_from (l leader : SimLog) : SimLog :=
  if bool_decide (length l < length leader)%nat then leader else l.
Definition record_count (l : SimLog) : nat := length l.
Definition log_end (l : SimLog) : LogEnd := mkLogEnd (last_epoch l) (end_offset l).
End SimLog.

(** ** Nodes, timers and the harness *)
Record Node : Type := mkNode {
  id : NodeId;
  machine : M;
  log : SimLog;
  high_watermark : Z;
  election_deadline : option SimInstant;
  fetch_deadline : option SimInstant;
  heartbeat_deadline : option SimInstant;
}.
Definition set_machine (m : M) (n : Node) : Node :=
  mkNode (id n) m (log n) (high_watermark n) (election_deadline n) (fetch_deadline n)
    (heartbeat_deadline n).
Definition set_log (l : SimLog) (n : Node) : Node :=
  mkNode (id n) (machine n) l (high_watermark n) (election_deadline n) (fetch_deadline n)
    (heartbeat_deadline n).
Definition set_hwm (h : Z) (n : Node) : Node :=
  mkNode (id n) (machine n) (log n) h (election_deadline n) (fetch_deadline n)
    (heartbeat_deadline n).
Definition set_timers (e f h : option SimInstant) (n : Node) : Node :=
  mkNode (id n) (machine n) (log n) (high_watermark n) e f h.

Inductive SimTimer : Type := Election | Fetch | Heartbeat.

(** [HEARTBEAT] in milliseconds. *)
Definition HEARTBEAT : Z := 300.

Definition consider (best : option (SimInstant * NodeId * SimTimer)) (deadline : option SimInstant)
    (id : NodeId) (kind : SimTimer) : option (SimInstant * NodeId * SimTimer) :=
  match deadline with
  | None => best
  | Some d =>
      match best with
      | Some (bd, _, _) => if bd <=? d then best else Some (d, id, kind)
      | None => Some (d, id, kind)
      end
  end.

Definition make_voter_set (ids : list NodeId) : VoterSet.t :=
  VoterSet.from_voters ((fun n => mkVoter n nil_uuid [] default_range) <$> ids).

Definition event_label (ev : Event) : string :=
  match ev with
  | ElectionTimeout => "ElectionTimeout"
  | FetchTimeout => "FetchTimeout"
  | ReceiveVoteRequest _ _ _ _ _ pre_vote => if pre_vote then "PreVoteRequest" else "VoteRequest"
  | ReceiveVoteResponse _ _ granted =>
      if granted then "VoteResponse(granted)" else "VoteResponse(denied)"
  | ReceiveBeginQuorumEpoch _ _ => "BeginQuorumEpoch"
  | ReceiveEndQuorumEpoch _ _ => "EndQuorumEpoch"
  | ReceiveFetch _ _ _ => "Fetch"
  | ReceiveFetchResponse _ _ _ => "FetchResponse"
  end.

Record t : Type := mkSim {
  nodes : gmap NodeId Node;
  voter_ids : list NodeId;
  now : SimInstant;
  queue : list Message;
  partitioned : gset NodeId;
  steps : list TraceStep;
  elected_seen : gset (NodeId * Epoch);
}.
Definition set_nodes (ns : gmap NodeId Node) (s : t) : t :=
  mkSim ns (voter_ids s) (now s) (queue s) (partitioned s) (steps s) (elected_seen s).
Definition set_now (i : SimInstant) (s : t) : t :=
  mkSim (nodes s) (voter_ids s) i (queue s) (partitioned s) (steps s) (elected_seen s).
Definition set_queue (q : list Message) (s : t) : t :=
  mkSim (nodes s) (voter_ids s) (now s) q (partitioned s) (steps s) (elected_seen s).
Definition set_partitioned (p : gset NodeId) (s : t) : t :=
  mkSim (nodes s) (voter_ids s) (now s) (queue s) p (steps s) (elected_seen s).
Definition set_steps (l : list TraceStep) (s : t) : t :=
  mkSim (nodes s) (voter_ids s) (now s) (queue s) (partitioned s) l (elected_seen s).
Definition set_elected (e : gset (NodeId * Epoch)) (s : t) : t :=
  mkSim (nodes s) (voter_ids s) (now s) (queue s) (partitioned s) (steps s) e.

(** [self.nodes.get_mut(&id).unwrap()]. *)
Definition on_node (s : t) (n : NodeId) (f : Node → Node) : option t :=
  nd ← nodes s !! n; Some (set_nodes (<[n := f nd]> (nodes s)) s).

(** A loop over [l] that may panic. *)
Fixpoint each {A} (f : t → A → option t) (s : t) (l : list A) : option t :=
  match l with
  | [] => Some s
  | a :: l => s ← f s a; each f s l
  end.

Section Harness.
(** [election_timeout_of(id).millis_i64()] *)
Context (election_timeout_of : NodeId → Z).
Definition deadline_millis (millis : Z) : Z := Z.max 0 millis.

Definition new (voter_ids : list NodeId) : t :=
  let voters := make_voter_set voter_ids in
  let node n :=
    mkNode n (Kraft.new n (bootstrap nil_uuid voters) (election_timeout_of n)) [] 0
      (Some (deadline_millis (election_timeout_of n))) None None in
  mkSim (foldl (fun ns n => <[n := node n]> ns) ∅ voter_ids) voter_ids 0 [] ∅ [] ∅.

(** ** Recording *)
Definition node_hwm (n : Node) : Z :=
  match role (machine n) with Leader _ hwm _ => hwm | _ => high_watermark n end.

Definition snapshot_roles (s : t) : list NodeRole :=
  (fun n => mkNodeRole (id n) (role_name (role (machine n))) (leader_epoch (state (machine n)))
              (SimLog.record_count (log n)) (node_hwm n) (bool_decide (id n ∈ partitioned s)))
  <$> values (nodes s).

Definition record (s : t) (a : TraceAction) (note : string) : t :=
  set_steps (steps s ++ [mkTraceStep (length (steps s)) (now s) a note (snapshot_roles s)]) s.

Definition record_new_leaders (s : t) : t :=
  let promotions :=
    filter (fun key => key ∉ elected_seen s)
      ((fun n => (id n, leader_epoch (state (machine n)))) <$>
       filter (fun n => is_leader (role (machine n)) = true) (values (nodes s))) in
  foldl (fun s '(n, e) =>
           record (set_elected ({[ (n, e) ]} ∪ elected_seen s) s) (TElected n e)
             ("N" +:+ pretty n +:+ " won the election for epoch " +:+ pretty e)) s promotions.

Definition fingerprint (s : t) : list (NodeId * string * Epoch * nat * Z) :=
  (fun n => (id n, role_name (role (machine n)), leader_epoch (state (machine n)),
             SimLog.record_count (log n), node_hwm n)) <$> values (nodes s).

Definition leaders (s : t) : list NodeId :=
  id <$> filter (fun n => is_leader (role (machine n)) = true) (values (nodes s)).

Definition in_flight (s : t) : list InFlight :=
  (fun m => mkInFlight (src m) (dst m) (event_label (event m))) <$> queue s.

Definition snapshot (s : t) : SimSnapshot :=
  mkSimSnapshot (now s) (snapshot_roles s) (in_flight s) (leaders s) (length (steps s)).

(** ** The bus *)
Definition cut (s : t) (a b : NodeId) : bool :=
  bool_decide (a ∈ partitioned s) || bool_decide (b ∈ partitioned s).

Definition send (s : t) (src dst : NodeId) (ev : Event) : t :=
  if cut s src dst then s else set_queue (queue s ++ [mkMessage src dst ev]) s.

Definition all_node_ids (s : t) : list NodeId := (entries (nodes s)).*1.

(** One event to every peer in [peers] but the sender. *)
Definition send_all (s : t) (n : NodeId) (peers : list NodeId) (f : NodeId → Event) : t :=
  foldl (fun s peer => if peer =? n then s else send s n peer (f peer)) s peers.

Definition broadcast_vote_request (s : t) (n : NodeId) (e : Epoch) (pre_vote : bool) : option t :=
  nd ← nodes s !! n;
  let cand_log := SimLog.log_end (log nd) in
  Some (send_all s n (voter_ids s) (fun peer => ReceiveVoteRequest n peer e n cand_log pre_vote)).

Definition replicate_from_leader (s : t) (follower leader : NodeId) : option t :=
  if follower =? leader then Some s else
  if cut s follower leader then Some s else
  l ← nodes s !! leader;
  if negb (is_leader (role (machine l))) then Some s else
  on_node s follower (fun f =>
    let f := set_log (SimLog.replicate_from (log f) (log l)) f in
    set_hwm (Z.min (node_hwm l) (SimLog.end_offset (log f))) f).

Definition apply_action (s : t) (n : NodeId) (a : Action) : option t :=
  match a with
  | SendVoteRequest e pre_vote => broadcast_vote_request s n e pre_vote
  | ReplyVote to e granted => Some (send s n to (ReceiveVoteResponse n e granted))
  | SendBeginQuorumEpoch e =>
      Some (send_all s n (all_node_ids s) (fun _ => ReceiveBeginQuorumEpoch n e))
  | SendEndQuorumEpoch e =>
      Some (send_all s n (all_node_ids s) (fun _ => ReceiveEndQuorumEpoch n e))
  | SendFetch leader =>
      s ← replicate_from_leader s n leader;
      nd ← nodes s !! n;
      Some (send s n leader
        (ReceiveFetch n (SimLog.last_epoch (log nd)) (SimLog.end_offset (log nd))))
  | AppendLeaderChange e => on_node s n (fun nd => set_log (SimLog.append_in_epoch (log nd) e 1) nd)
  | AdvanceHighWatermark hwm =>
      s ← on_node s n (set_hwm hwm);
      each (fun s peer =>
              if (peer =? n) || bool_decide (peer ∈ partitioned s) then Some s
              else on_node s peer (fun p => set_hwm (Z.min hwm (SimLog.end_offset (log p))) p))
        s (all_node_ids s)
  | TruncateTo point => on_node s n (fun nd => set_log (SimLog.truncate_to (log nd) (offset point)) nd)
  | ResetTimer ElectionTimer d =>
      on_node s n (fun nd => set_timers (Some d) (fetch_deadline nd) (heartbeat_deadline nd) nd)
  | ResetTimer FetchTimer d =>
      on_node s n (fun nd => set_timers (election_deadline nd) (Some d) (heartbeat_deadline nd) nd)
  | TransitionedTo _ | PersistQuorumState => Some s
  end.

Definition heartbeat_at (s : t) : SimInstant := saturating_add_ms (now s) HEARTBEAT.

Definition reconcile_timers_for_role (s : t) (n : NodeId) : option t :=
  on_node s n (fun nd =>
    match role (machine nd) with
    | Leader _ _ _ =>
        set_timers None None
          (match heartbeat_deadline nd with None => Some (heartbeat_at s) | d => d end) nd
    | Follower _ _ | Observer _ _ => set_timers None (fetch_deadline nd) None nd
    | _ => set_timers (election_deadline nd) None None nd
    end).

Definition fetch_from (ev : Event) : option NodeId :=
  match ev with ReceiveFetch from _ _ => Some from | _ => None end.

(** The leader's answer to a fetch: a divergence point, or the news that there
    are records to replicate. *)
Definition reply_fetch (s : t) (n : NodeId) (ev : Event) (actions : list Action) : option t :=
  match fetch_from ev with
  | None => Some s
  | Some follower =>
      let diverging := head (omap (fun a => match a with TruncateTo p => Some p | _ => None end) actions) in
      nd ← nodes s !! n;
      if is_leader (role (machine nd)) then
        f ← nodes s !! follower;
        let has_new_data := SimLog.end_offset (log f) <? SimLog.end_offset (log nd) in
        if bool_decide (is_Some diverging) || has_new_data
        then Some (send s n follower
               (ReceiveFetchResponse n (leader_epoch (state (machine nd))) diverging))
        else Some s
      else Some s
  end.

Definition step (s : t) (n : NodeId) (ev : Event) : option t :=
  nd ← nodes s !! n;
  let '(m', actions) := on_event (machine nd) ev (SimLog.view (log nd)) (now s) in
  let s := set_nodes (<[n := set_machine m' nd]> (nodes s)) s in
  s ← reply_fetch s n ev actions;
  s ← each (fun s a =>
              match fetch_from ev, a with
              | Some _, TruncateTo _ => Some s
              | _, _ => apply_action s n a
              end) s actions;
  reconcile_timers_for_role s n.

Definition deliver (s : t) (msg : Message) : option t :=
  if cut s (src msg) (dst msg) then Some s else
  match nodes s !! dst msg with
  | None => Some s
  | Some _ =>
      let label := event_label (event msg) in
      s ← step s (dst msg) (event msg);
      let s := record s (TDeliver (src msg) (dst msg) label)
                 ("N" +:+ pretty (src msg) +:+ " → N" +:+ pretty (dst msg) +:+ ": " +:+ label) in
      Some (record_new_leaders s)
  end.

(** ** The scheduler *)
Definition fire_leader_heartbeat (s : t) (n : NodeId) : option t :=
  nd ← nodes s !! n;
  if negb (is_leader (role (machine nd))) then Some s else
  s ← apply_action s n (SendBeginQuorumEpoch (leader_epoch (state (machine nd))));
  on_node s n (fun nd =>
    set_timers (election_deadline nd) (fetch_deadline nd) (Some (heartbeat_at s)) nd).

Definition next_timer (s : t) : option (SimInstant * NodeId * SimTimer) :=
  foldl (fun best n =>
           let best := consider best (election_deadline n) (id n) Election in
           let best := consider best (fetch_deadline n) (id n) Fetch in
           consider best (heartbeat_deadline n) (id n) Heartbeat) None (values (nodes s)).

Definition clear_timer (kind : SimTimer) (nd : Node) : Node :=
  match kind with
  | Election => set_timers None (fetch_deadline nd) (heartbeat_deadline nd) nd
  | Fetch => set_timers (election_deadline nd) None (heartbeat_deadline nd) nd
  | Heartbeat => set_timers (election_deadline nd) (fetch_deadline nd) None nd
  end.

(** The leader a node fetches from. *)
Definition fetch_leader (r : Role) : option NodeId :=
  match r with
  | Follower l _ | Observer (Some l) _ => Some l
  | _ => None
  end.

Definition fire_fetch_timer (s : t) (n : NodeId) : option t :=
  let timeout s :=
    step (record s (TTimeout n "fetch")
            ("N" +:+ pretty n +:+ " lost contact with its leader and starts an election"))
      n FetchTimeout in
  nd ← nodes s !! n;
  match fetch_leader (role (machine nd)) with
  | None => timeout s
  | Some leader =>
      let leader_alive :=
        negb (cut s n leader) &&
        match nodes s !! leader with
        | Some l => is_leader (role (machine l))
        | None => false
        end in
      if leader_alive then
        let deadline := saturating_add_ms (now s) (deadline_millis (election_timeout_of n)) in
        s ← on_node s n (fun nd =>
              set_timers (election_deadline nd) (Some deadline) (heartbeat_deadline nd) nd);
        apply_action s n (SendFetch leader)
      else timeout s
  end.

Definition fire_next_timer (s : t) : option (t * bool) :=
  match next_timer s with
  | None => Some (s, false)
  | Some (deadline, n, kind) =>
      let s := if now s <? deadline then set_now deadline s else s in
      s ← on_node s n (clear_timer kind);
      s ← match kind with
          | Heartbeat => fire_leader_heartbeat s n
          | Fetch => fire_fetch_timer s n
          | Election =>
              step (record s (TTimeout n "election") ("N" +:+ pretty n +:+ "'s election timer fires"))
                n ElectionTimeout
          end;
      Some (s, true)
  end.

(** The loop of [run_until_stable], with the ticks that are left. *)
Fixpoint run_loop (ticks : nat) (s : t) (last_fingerprint : list (NodeId * string * Epoch * nat * Z))
    (stable_rounds : Z) : option t :=
  match ticks with
  | O => Some s
  | S ticks =>
      match queue s with
      | msg :: q =>
          s ← deliver (set_queue q s) msg;
          run_loop ticks s last_fingerprint stable_rounds
      | [] =>
          '(s, fired) ← fire_next_timer s;
          let fp := fingerprint s in
          let same := bool_decide (fp = last_fingerprint) in
          let stable_rounds := if same then stable_rounds + 1 else 0 in
          if same && (2 <=? stable_rounds) then Some s else
          if negb fired && bool_decide (queue s = []) then Some s else
          run_loop ticks s (if same then last_fingerprint else fp) stable_rounds
      end
  end.
Definition run_until_stable (s : t) (max_ticks : nat) : option t :=
  run_loop max_ticks s (fingerprint s) 0.

(** ** The operator's controls *)
Definition partition (s : t) (n : NodeId) : t :=
  let s := set_partitioned ({[ n ]} ∪ partitioned s) s in
  let s := set_queue (filter (fun m => src m ≠ n ∧ dst m ≠ n) (queue s)) s in
  record s (TPartition n) ("N" +:+ pretty n +:+ " is isolated from the cluster").

Definition heal (s : t) (n : NodeId) : t :=
  record (set_partitioned (partitioned s ∖ {[ n ]}) s) (THeal n)
    ("N" +:+ pretty n +:+ " rejoins the cluster").

Definition leader_append (s : t) (leader : NodeId) (n : nat) : option t :=
  nd ← nodes s !! leader;
  let e := leader_epoch (state (machine nd)) in
  s ← on_node s leader (fun nd => set_log (SimLog.append_in_epoch (log nd) e n) nd);
  Some (record s (TAppend leader n)
    ("Leader N" +:+ pretty leader +:+ " appends " +:+ pretty n +:+ " record(s) in epoch "
     +:+ pretty e)).

Definition append (s : t) (n : nat) : option (t * bool) :=
  match leaders s with
  | [] => Some (s, false)
  | leader :: _ => s ← leader_append s leader n; Some (s, true)
  end.

Definition step_once (s : t) : option (t * bool) :=
  match queue s with
  | msg :: q => s ← deliver (set_queue q s) msg; Some (s, true)
  | [] => fire_next_timer s
  end.

Definition drop_next (s : t) : t * bool :=
  match queue s with
  | [] => (s, false)
  | msg :: q =>
      let label := event_label (event msg) in
      (record (set_queue q s) (TDrop (src msg) (dst msg) label)
         ("N" +:+ pretty (src msg) +:+ " → N" +:+ pretty (dst msg) +:+ ": " +:+ label
          +:+ " dropped in flight"), true)
  end.

Definition deliver_queue_reversed (s : t) : option (t * nat) :=
  let drained := reverse (queue s) in
  s ← each deliver (set_queue [] s) drained;
  Some (s, length drained).
Definition reorder (s : t) : option (t * nat) := deliver_queue_reversed s.

Definition deliver_front_twice (s : t) : option (t * bool) :=
  match queue s with
  | [] => Some (s, false)
  | msg :: q =>
      s ← deliver (set_queue q s) msg;
      s ← deliver s msg;
      Some (s, true)
  end.
Definition duplicate_next (s : t) : option (t * bool) := deliver_front_twice s.

(** ** Curated scenarios *)
Record ScenarioTrace : Type := mkScenario {
  sc_id : string;
  sc_title : string;
  sc_summary : string;
  sc_invariant : string;
  sc_nodes : list Z;
  sc_steps : list TraceStep;
  sc_outcome : string;
}.

Definition trio : list NodeId := [1; 2; 3].

Definition split_brain_prevented : option ScenarioTrace :=
  s ← run_until_stable (new trio) (Z.to_nat 10000);
  let old_leader := default 1 (head (leaders s)) in
  s ← run_until_stable (partition s old_leader) (Z.to_nat 10000);
  let new_leader := default old_leader (head (filter (fun l => l ≠ old_leader) (leaders s))) in
  s ← run_until_stable (heal s old_leader) (Z.to_nat 10000);
  if negb (length (leaders s) =? 1)%nat then None else
  Some (mkScenario "split_brain_prevented" "Split-brain prevented (leader partition)"
    "A 3-voter cluster elects a leader, the leader is network-partitioned away from the majority, and the two-node majority elects a new leader at a higher epoch. The isolated old leader cannot make progress without a quorum, so there is never a second live leader. When the partition heals, the stale leader learns the newer epoch and steps down."
    "At most one leader per epoch (election safety)" trio (steps s)
    ("The majority side elected N" +:+ pretty new_leader +:+ " at a strictly higher epoch. The isolated old leader N" +:+ pretty old_leader +:+ " could not advance (no quorum), and on healing it learned the newer epoch from a BeginQuorumEpoch heartbeat and stepped down to follower. Exactly one leader remains.")).

Definition out_of_order_delivery : option ScenarioTrace :=
  s ← run_until_stable (new trio) (Z.to_nat 10000);
  let leader := default 1 (head (leaders s)) in
  s ← leader_append s leader 3;
  s ← run_until_stable s 50;
  '(s, reordered) ← deliver_queue_reversed s;
  s ← run_until_stable s (Z.to_nat 10000);
  let log_len := match values (nodes s) with [] => 0%nat | n :: _ => SimLog.record_count (log n) end in
  Some (mkScenario "out_of_order_delivery" "Reordered message delivery"
    "The simulator deliberately delivers a round of replication messages back-to-front (non-FIFO). Because every fetch and append carries a monotonic offset and the producing leader epoch, a node detects and ignores any message that is stale or out of order — the replicated logs still converge to the same contents."
    "Log matching under reordered delivery" trio (steps s)
    ("Even though " +:+ pretty reordered +:+ " in-flight messages were delivered out of order, every voter's log converged identically (" +:+ pretty log_len +:+ " records) and the cluster kept exactly " +:+ pretty (length (leaders s)) +:+ " leader. Stale or late messages were ignored because each fetch and append is tagged with a monotonic offset and leader epoch.")).

Definition message_duplication : option ScenarioTrace :=
  s ← run_until_stable (new trio) 20;
  '(s, duplicated) ← deliver_front_twice s;
  s ← run_until_stable s (Z.to_nat 10000);
  if negb (length (leaders s) <=? 1)%nat then None else
  Some (mkScenario "message_duplication" "Duplicate message delivery"
    "The simulator delivers the same in-flight message twice. KRaft handles duplicates idempotently: a vote that was already granted/counted has no additional effect, and a BeginQuorumEpoch for an epoch the node already knows is a no-op. No double application happens and no spurious second leader emerges."
    "Idempotent handling of duplicate messages" trio (steps s)
    ("A message was delivered twice (" +:+ (if (duplicated : bool) then "duplicate injected" else "no in-flight message") +:+ "). The duplicate was handled idempotently — a vote already counted is not counted again and an already-known epoch is a no-op — so the cluster still converged to exactly " +:+ pretty (length (leaders s)) +:+ " leader.")).

Definition scenarios : option (list ScenarioTrace) :=
  a ← split_brain_prevented; b ← out_of_order_delivery; c ← message_duplication; Some [a; b; c].

End Harness.

(** ** Runs of the operator *)
Inductive Command : Type :=
| StepOnce
| Settle (max_ticks : nat)
| Partition (n : NodeId)
| Heal (n : NodeId)
| LeaderAppend (leader : NodeId) (n : nat)
| Append (n : nat)
| DropNext
| Reorder
| DuplicateNext.

Section Commands.
Context (election_timeout_of : NodeId → Z).

Definition command (s : t) (cmd : Command) : option t :=
  match cmd with
  | StepOnce => fst <$> step_once election_timeout_of s
  | Settle ticks => run_until_stable election_timeout_of s ticks
  | Partition n => Some (partition s n)
  | Heal n => Some (heal s n)
  | LeaderAppend leader n => leader_append s leader n
  | Append n => fst <$> append s n
  | DropNext => Some (drop_next s).1
  | Reorder => fst <$> reorder s
  | DuplicateNext => fst <$> duplicate_next s
  end.
Definition commands (s : t) (cmds : list Command) : option t := each command s cmds.
End Commands.

End Sim.
