(* ===== verification/SimRefinement.v ===== *)
(** * The simulator refines the cluster

    Every run of [Sim.v] is a run of the cluster of [KraftCluster.v]: the
    machines are the same, and every message on the simulated bus is one the
    cluster has sent.  In particular no sequence of operator commands panics. *)

From S2P Require Import Prelude Kernels Voters Kraft KraftMachine KraftInvariant KraftCluster Sim.
Import Sim.

(** ** What the refinement needs of one event *)
Definition sender (ev : Event) : option NodeId :=
  match ev with
  | ElectionTimeout | FetchTimeout => None
  | ReceiveVoteRequest from _ _ _ _ _ | ReceiveVoteResponse from _ _ | ReceiveFetch from _ _ =>
      Some from
  | ReceiveBeginQuorumEpoch l _ | ReceiveEndQuorumEpoch l _ | ReceiveFetchResponse l _ _ => Some l
  end.

(** A new leader announces itself. *)
Lemma on_event_announce m ev log now m' acts :
  on_event m ev log now = (m', acts) → is_leader (role m') = true →
  (is_leader (role m) = true ∧ mepoch m' = mepoch m) ∨ SendBeginQuorumEpoch (mepoch m') ∈ acts.
Proof.
  intros H Hl. unfold mepoch.
  destruct ev; run_event H; try discriminate.
  all: try (left; split; [|done]; match goal with Hr : role _ = _ |- _ => by rewrite ?Hr in * end).
  all: try (by left); right; set_solver.
Qed.

(** Fetches go to the sender of the event. *)
Lemma on_event_fetch m ev log now m' acts l :
  on_event m ev log now = (m', acts) → SendFetch l ∈ acts → sender ev = Some l.
Proof.
  intros H Hin. destruct ev; run_event H; elems Hin; by injection Hin as ->.
Qed.

(** Vote requests come before anything that changes the log. *)
Definition touches_log (a : Action) : bool :=
  match a with AppendLeaderChange _ | SendFetch _ | TruncateTo _ => true | _ => false end.
Definition vote_request (a : Action) : bool :=
  match a with SendVoteRequest _ _ => true | _ => false end.
Fixpoint requests_first (acts : list Action) : bool :=
  match acts with
  | [] => true
  | a :: acts =>
      (if touches_log a then forallb (fun b => negb (vote_request b)) acts else true)
      && requests_first acts
  end.

Lemma on_event_requests_first m ev log now m' acts :
  on_event m ev log now = (m', acts) → requests_first acts = true.
Proof. intros H. destruct ev; run_event H; done. Qed.

(** ** The simulation relation *)
Section Refinement.
Context (election_timeout_of : NodeId → Z) (V : gset NodeId).

Abbreviation Cl := KraftCluster.Cluster.
Abbreviation machines c := (KraftCluster.nodes c).

(** A message the cluster may deliver, from one of its nodes. *)
Definition good (c : Cl) (msg : Message) : Prop :=
  available c (dst msg) (event msg) ∧ src msg ∈ V ∧ sender (event msg) = Some (src msg).

(** Leaders have announced themselves to everybody. *)
Definition announced (c : Cl) : Prop :=
  ∀ n m p, machines c !! n = Some m → is_leader (role m) = true → p ∈ V → p ≠ n →
    mkMessage n p (ReceiveBeginQuorumEpoch n (mepoch m)) ∈ net c.

Record refines (s : t) (c : Cl) : Prop := {
  r_machines : machines c = machine <$> nodes s;
  r_dom : dom (nodes s) = V;
  r_ids : ∀ n nd, nodes s !! n = Some nd → id nd = n;
  r_voters : ∀ n, n ∈ voter_ids s → n ∈ V;
  r_queue : ∀ msg, msg ∈ queue s → good c msg;
}.

(** [c'] comes after [c]. *)
Definition later (c c' : Cl) : Prop := ∀ msg, msg ∈ net c → msg ∈ net c'.

Lemma later_refl c : later c c.
Proof. by intros msg. Qed.
#[local] Hint Resolve later_refl : core.

Lemma good_later c c' msg : later c c' → good c msg → good c' msg.
Proof.
  intros Hl (Ha & Hs). split; [|done]. unfold available in *.
  destruct (event msg); try done; rewrite Exists_exists in *; naive_solver.
Qed.

Lemma good_net c msg : msg ∈ net c → src msg ∈ V → sender (event msg) = Some (src msg) → good c msg.
Proof.
  intros Hin Hs He. split_and!; try done. unfold available.
  destruct (event msg) eqn:Hev; try done; rewrite Exists_exists; by exists msg.
Qed.

(** Changes that touch neither machines nor messages. *)
Lemma refines_same s s' c :
  nodes s' = nodes s → voter_ids s' = voter_ids s → queue s' ⊆ queue s →
  refines s c → refines s' c.
Proof.
  intros Hn Hv Hq [H1 H2 H3 H4 H5]. split; rewrite ?Hn, ?Hv; try done.
  intros msg Hin. by apply H5, Hq.
Qed.

Lemma refines_record s a note c : refines s c → refines (record s a note) c.
Proof. by apply refines_same. Qed.

Lemma refines_record_new_leaders s c : refines s c → refines (record_new_leaders s) c.
Proof.
  unfold record_new_leaders. generalize (filter (fun key => key ∉ elected_seen s)
    ((fun n => (id n, leader_epoch (state (machine n)))) <$>
     filter (fun n => is_leader (role (machine n)) = true) (values (nodes s)))).
  intros l. revert s. induction l as [|[n e] l IH]; intros s H; simpl; [done|].
  apply IH, refines_record. revert H. by apply refines_same.
Qed.

Lemma refines_send s c n p ev :
  refines s c → good c (mkMessage n p ev) → refines (send s n p ev) c.
Proof.
  intros H Hg. unfold send. destruct (cut s n p); [done|]. destruct H as [H1 H2 H3 H4 H5].
  split; try done. simpl. intros msg [Hin|Hin]%elem_of_app; [by apply H5|].
  apply list_elem_of_singleton in Hin. by subst.
Qed.

Lemma refines_send_all s c n ps f :
  refines s c → (∀ p, p ∈ ps → p ≠ n → good c (mkMessage n p (f p))) →
  refines (send_all s n ps f) c ∧ nodes (send_all s n ps f) = nodes s.
Proof.
  unfold send_all. revert s. induction ps as [|p ps IH]; intros s H Hg; simpl; [done|].
  destruct (Z.eqb_spec p n).
  - apply IH; [done|]. intros q Hq. apply Hg. by right.
  - destruct (IH (send s n p (f p))) as [H1 H2].
    + apply refines_send; [done|]. apply Hg; [by left|done].
    + intros q Hq. apply Hg. by right.
    + split; [done|]. rewrite H2. unfold send. by destruct (cut s n p).
Qed.

(** Updates of a node that keep its machine. *)
Lemma refines_on_node s c n f :
  refines s c → n ∈ V → (∀ nd, machine (f nd) = machine nd ∧ id (f nd) = id nd) →
  ∃ nd s', nodes s !! n = Some nd ∧ on_node s n f = Some s' ∧ refines s' c ∧
    nodes s' = <[n := f nd]> (nodes s).
Proof.
  intros [H1 H2 H3 H4 H5] Hn Hf. rewrite <- H2 in Hn. apply elem_of_dom in Hn as [nd Hnd].
  exists nd. unfold on_node. rewrite Hnd. simpl. eexists. split_and!; [done|done| |done].
  destruct (Hf nd) as [Hm Hid]. split; simpl; try done.
  - rewrite fmap_insert, Hm, H1. symmetry. apply insert_id. by rewrite lookup_fmap, Hnd.
  - rewrite dom_insert_L. apply elem_of_dom_2 in Hnd. set_solver.
  - intros n' nd' [(<- & <-)|(_ & Hn')]%lookup_insert_Some; [|by apply H3].
    rewrite Hid. by apply H3.
Qed.

(** A loop whose body keeps an invariant does not panic. *)
Lemma each_inv {A} (P : list A → t → Prop) f l s :
  P l s → (∀ a l s, P (a :: l) s → ∃ s', f s a = Some s' ∧ P l s') →
  ∃ s', each f s l = Some s' ∧ P [] s'.
Proof.
  intros HP Hf. revert s HP. induction l as [|a l IH]; intros s HP; simpl; [by exists s|].
  destruct (Hf _ _ _ HP) as (s1 & -> & HP1). simpl. by apply IH.
Qed.

Lemma each_keeps {A} (P : t → Prop) (ok : A → Prop) f l s :
  P s → (∀ a, a ∈ l → ok a) → (∀ a s, ok a → P s → ∃ s', f s a = Some s' ∧ P s') →
  ∃ s', each f s l = Some s' ∧ P s'.
Proof.
  intros HP Hl Hf.
  destruct (each_inv (fun l s => P s ∧ ∀ a, a ∈ l → ok a) f l s) as (s' & Hs & HP' & _);
    [done| |by exists s'].
  intros a l1 s1 [HP1 Hl1]. destruct (Hf a s1) as (s2 & Hs2 & HP2); [apply Hl1; by left|done|].
  exists s2. split_and!; try done. intros b Hb. apply Hl1. by right.
Qed.

(** ** Actions *)
Lemma elem_of_to_peers ps n f p :
  p ∈ ps → p ≠ n → mkMessage n p (f p) ∈ to_peers ps n f.
Proof.
  intros Hp Hn. unfold to_peers. apply list_elem_of_fmap. exists p. split; [done|].
  by apply list_elem_of_filter.
Qed.

Lemma refines_replicate s c n l :
  refines s c → n ∈ V → l ∈ V →
  ∃ s', replicate_from_leader s n l = Some s' ∧ refines s' c.
Proof.
  intros H Hn Hl. unfold replicate_from_leader.
  destruct (n =? l); [by exists s|]. destruct (cut s n l); [by exists s|].
  rewrite <- (r_dom _ _ H) in Hl. apply elem_of_dom in Hl as [nl ->]. simpl.
  destruct (negb _); [by exists s|].
  destruct (refines_on_node s c n (fun f =>
    let f := set_log (SimLog.replicate_from (log f) (log nl)) f in
    set_hwm (Z.min (node_hwm nl) (SimLog.end_offset (log f))) f) H Hn) as (nd & s' & _ & Hs & Hr & _);
    [done|]. by exists s'.
Qed.

(** Spreading the high watermark changes no log. *)
Definition logs (s : t) : gmap NodeId SimLog := log <$> nodes s.

Lemma refines_spread_hwm s c n hwm ps :
  refines s c → (∀ p, p ∈ ps → p ∈ V) →
  ∃ s', each (fun s peer =>
          if (peer =? n) || bool_decide (peer ∈ partitioned s) then Some s
          else on_node s peer (fun p => set_hwm (Z.min hwm (SimLog.end_offset (log p))) p)) s ps
        = Some s' ∧ refines s' c ∧ logs s' = logs s.
Proof.
  intros H Hps.
  apply (each_keeps (fun s' => refines s' c ∧ logs s' = logs s) (fun p => p ∈ V)); [done|done|].
  intros p s1 Hp [Hr Hlogs]. destruct (_ || _); [by exists s1|].
  destruct (refines_on_node s1 c p (fun p => set_hwm (Z.min hwm (SimLog.end_offset (log p))) p) Hr Hp)
    as (nd & s' & Hnd & Hs & Hr' & Hns); [done|]. exists s'. split_and!; try done.
  rewrite <- Hlogs. unfold logs. rewrite Hns, fmap_insert. apply insert_id.
  by rewrite lookup_fmap, Hnd.
Qed.

Lemma all_node_ids_V s c p : refines s c → p ∈ all_node_ids s ↔ p ∈ V.
Proof.
  intros H. rewrite <- (r_dom _ _ H). unfold all_node_ids. rewrite entries_perm, elem_of_dom.
  rewrite list_elem_of_fmap. split.
  - intros ([k x] & -> & Hx%elem_of_map_to_list). by exists x.
  - intros [x Hx]. exists (p, x). split; [done|]. by apply elem_of_map_to_list.
Qed.

Section Action.
Context (s : t) (c : Cl) (n : NodeId) (nd : Node) (log0 : SimLog) (a : Action).
Hypothesis (Hr : refines s c) (Hnd : nodes s !! n = Some nd).
Hypothesis (Hnet : ∀ msg, msg ∈ KraftCluster.apply_action V (elements V) n (SimLog.view log0) a →
                          msg ∈ net c).
Hypothesis (Hlog : vote_request a = true → log nd = log0).
Hypothesis (Hfetch : ∀ l, a = SendFetch l → l ∈ V).

Let Hn : n ∈ V.
Proof. rewrite <- (r_dom _ _ Hr). by eapply elem_of_dom_2. Qed.

Lemma refines_action :
  ∃ s' nd', apply_action s n a = Some s' ∧ refines s' c ∧ nodes s' !! n = Some nd' ∧
    (touches_log a = false → log nd' = log nd).
Proof.
  assert (∀ p ev, mkMessage n p ev ∈ net c → sender ev = Some n → good c (mkMessage n p ev)) as Hgood.
  { intros p ev Hin Hs. by apply good_net. }
  assert (∀ ps f, refines (send_all s n ps f) c ∧ nodes (send_all s n ps f) = nodes s →
    ∃ s' nd', Some (send_all s n ps f) = Some s' ∧ refines s' c ∧ nodes s' !! n = Some nd' ∧
      (touches_log a = false → log nd' = log nd)) as Hall.
  { intros ps f [H1 H2]. exists (send_all s n ps f), nd. by rewrite H2. }
  assert (∀ f, (∀ x, machine (f x) = machine x ∧ id (f x) = id x) →
    (touches_log a = false → log (f nd) = log nd) →
    ∃ s' nd', on_node s n f = Some s' ∧ refines s' c ∧ nodes s' !! n = Some nd' ∧
      (touches_log a = false → log nd' = log nd)) as Hon.
  { intros f Hf Hl. destruct (refines_on_node s c n f Hr Hn Hf) as (nd1 & s' & H1 & Hs & Hr' & Hns).
    simplify_eq. exists s', (f nd). rewrite Hns, lookup_insert_eq. done. }
  destruct a as [e pre|to e g|e|e|l|r| |e|h|pt|k d] eqn:Ha; simpl in *; try done.
  - unfold broadcast_vote_request. rewrite Hnd. simpl. apply Hall.
    apply refines_send_all; [done|]. intros p Hp Hne. apply Hgood; [|done]. apply Hnet.
    rewrite (Hlog eq_refl). apply (elem_of_to_peers _ _ (fun p =>
      ReceiveVoteRequest n p e n (SimLog.log_end log0) pre)); [|done].
    apply elem_of_elements. by apply (r_voters _ _ Hr).
  - eexists _, nd. split_and!; [done| |unfold send; by destruct (cut s n to)|done].
    apply refines_send; [done|]. apply Hgood; [|done]. apply Hnet. by left.
  - apply Hall, refines_send_all; [done|]. intros p Hp Hne. apply Hgood; [|done]. apply Hnet.
    apply (elem_of_to_peers _ _ (fun _ => _)); [|done].
    apply elem_of_elements. by apply (all_node_ids_V s c).
  - apply Hall, refines_send_all; [done|]. intros p Hp Hne. apply Hgood; [|done]. apply Hnet.
    apply (elem_of_to_peers _ _ (fun _ => _)); [|done].
    apply elem_of_elements. by apply (all_node_ids_V s c).
  - destruct (refines_replicate s c n l Hr Hn (Hfetch l eq_refl)) as (s1 & -> & Hr1). simpl.
    pose proof Hn as Hn1. rewrite <- (r_dom _ _ Hr1) in Hn1. apply elem_of_dom in Hn1 as [nd1 Hnd1].
    rewrite Hnd1. simpl. eexists _, nd1. split_and!; [done| |unfold send; by destruct (cut s1 n l)|done].
    by apply refines_send.
  - by exists s, nd.
  - by exists s, nd.
  - by apply Hon.
  - destruct (refines_on_node s c n (set_hwm h) Hr Hn) as (nd1 & s1 & H1 & -> & Hr1 & Hns); [done|].
    simplify_eq. simpl. destruct (refines_spread_hwm s1 c n h (all_node_ids s1) Hr1)
      as (s2 & Hs2 & Hr2 & Hl2); [intros p Hp; by apply (all_node_ids_V s1 c)|].
    exists s2. pose proof Hn as Hn2. rewrite <- (r_dom _ _ Hr2) in Hn2.
    apply elem_of_dom in Hn2 as [nd2 Hnd2]. exists nd2. split_and!; try done. intros _.
    apply (f_equal (lookup n)) in Hl2. unfold logs in Hl2.
    rewrite !lookup_fmap, Hnd2, Hns, lookup_insert_eq in Hl2. by injection Hl2 as ->.
  - by apply Hon.
  - destruct k; by apply Hon.
Qed.
End Action.

(** ** One event *)
Section Event.
Context (s : t) (c : Cl) (n : NodeId) (nd : Node) (ev : Event) (m' : M) (acts : list Action).
Hypothesis (Hr : refines s c) (Hnd : nodes s !! n = Some nd).
Hypothesis (Hsender : ∀ l, sender ev = Some l → l ∈ V).
Hypothesis (Hev : on_event (machine nd) ev (SimLog.view (log nd)) (now s) = (m', acts)).

Let c' : Cl := after V c n m' (SimLog.view (log nd)) acts.
Let Hn : n ∈ V.
Proof. rewrite <- (r_dom _ _ Hr). by eapply elem_of_dom_2. Qed.

Lemma event_dom : dom (machines c) = V.
Proof. by rewrite (r_machines _ _ Hr), dom_fmap_L, (r_dom _ _ Hr). Qed.

Lemma event_sent a msg :
  a ∈ acts → msg ∈ KraftCluster.apply_action V (elements V) n (SimLog.view (log nd)) a →
  msg ∈ net c'.
Proof.
  intros Ha Hm. subst c'. simpl. apply elem_of_app. left. apply list_elem_of_bind.
  exists a. by rewrite event_dom.
Qed.

Lemma event_later : later c c'.
Proof. intros msg Hm. subst c'. simpl. apply elem_of_app. by right. Qed.

Lemma event_refines : refines (set_nodes (<[n := set_machine m' nd]> (nodes s)) s) c'.
Proof.
  pose proof Hr as [H1 H2 H3 H4 H5]. split; simpl; try done.
  - by rewrite fmap_insert, H1.
  - rewrite dom_insert_L. set_solver.
  - intros k x [(<- & <-)|(_ & Hk)]%lookup_insert_Some; [by apply (H3 n nd)|by apply H3].
  - intros msg Hm. apply (good_later c); [apply event_later|by apply H5].
Qed.

Lemma event_announced : announced c → announced c'.
Proof.
  intros Ha k m p Hk Hl Hp Hne. change (machines c') with (<[n := m']> (machines c)) in Hk.
  apply lookup_insert_Some in Hk as [(<- & <-)|(_ & Hk)]; [|by apply event_later, Ha].
  destruct (on_event_announce _ _ _ _ _ _ Hev Hl) as [[Hl0 He]|Hb].
  - apply event_later. rewrite He. eapply Ha; try done.
    by rewrite (r_machines _ _ Hr), lookup_fmap, Hnd.
  - apply (event_sent _ _ Hb), (elem_of_to_peers _ _ (fun _ => _)); [|done].
    by apply elem_of_elements.
Qed.

Lemma event_reply s1 :
  refines s1 c' → (∃ nd1, nodes s1 !! n = Some nd1) →
  ∃ s2, reply_fetch s1 n ev acts = Some s2 ∧ refines s2 c' ∧ nodes s2 = nodes s1.
Proof.
  intros Hr1 [nd1 Hnd1]. unfold reply_fetch. destruct (fetch_from ev) as [follower|] eqn:Hf; [|by exists s1].
  assert (follower ∈ V) as Hfo by (apply Hsender; by destruct ev; simplify_eq/=).
  rewrite Hnd1. simpl. destruct (is_leader _); [|by exists s1].
  rewrite <- (r_dom _ _ Hr1) in Hfo. apply elem_of_dom in Hfo as [f ->]. simpl.
  destruct (_ || _); [|by exists s1]. eexists. split_and!; [done| |unfold send; by destruct (cut s1 n follower)].
  by apply refines_send.
Qed.

Lemma event_actions s1 nd1 :
  refines s1 c' → nodes s1 !! n = Some nd1 → log nd1 = log nd →
  ∃ s2 nd2, each (fun s a =>
      match fetch_from ev, a with
      | Some _, TruncateTo _ => Some s
      | _, _ => apply_action s n a
      end) s1 acts = Some s2 ∧ refines s2 c' ∧ nodes s2 !! n = Some nd2.
Proof.
  intros Hr1 Hnd1 Hlog1.
  destruct (each_inv (fun l s => refines s c' ∧ (∀ a, a ∈ l → a ∈ acts) ∧ requests_first l = true ∧
    ∃ nd, nodes s !! n = Some nd ∧
      (log nd = log nd1 ∨ forallb (fun b => negb (vote_request b)) l = true))
    (fun s a => match fetch_from ev, a with
      | Some _, TruncateTo _ => Some s | _, _ => apply_action s n a end) acts s1)
    as (s2 & Hs2 & Hr2 & _ & _ & nd2 & Hnd2 & _).
  - split_and!; try done; [by eapply on_event_requests_first|]. exists nd1. auto.
  - intros a l s2 (Hr2 & Hin & Hq & nd2 & Hnd2 & Hor). simpl in Hq. zify_bools.
    assert (∀ b, b ∈ l → b ∈ acts) as Hin' by (intros b Hb; apply Hin; by right).
    destruct (match fetch_from ev, a with Some _, TruncateTo _ => true | _, _ => false end) eqn:Hsk.
    { destruct (fetch_from ev), a; try done. exists s2. split_and!; try done. exists nd2. auto. }
    replace (match fetch_from ev with Some _ => _ | None => _ end) with (apply_action s2 n a)
      by (by destruct (fetch_from ev), a).
    destruct (refines_action s2 c' n nd2 (log nd) a Hr2 Hnd2) as (s3 & nd3 & Hs3 & Hr3 & Hnd3 & Hl3).
    + intros msg. apply event_sent, Hin. by left.
    + intros Hv. destruct Hor as [->|Hor]; [done|]. simpl in Hor. rewrite Hv in Hor. done.
    + intros x ->. apply Hsender. eapply on_event_fetch; [done|]. apply Hin. by left.
    + exists s3. split_and!; try done. exists nd3. split; [done|].
      destruct (touches_log a); [by right|]. rewrite (Hl3 eq_refl).
      destruct Hor as [Hor|Hor]; [by left|right]. simpl in Hor. by zify_bools.
  - by exists s2, nd2.
Qed.
End Event.

(** ** The operations *)
Definition ok (s : t) (c : Cl) : Prop := reachable V false c ∧ announced c ∧ refines s c.
Definition goes (s : t) (c : Cl) (o : option t) : Prop :=
  ∃ s' c', o = Some s' ∧ ok s' c' ∧ later c c'.

Lemma goes_here s c s' : ok s c → (refines s c → refines s' c) → goes s c (Some s').
Proof. intros (H1 & H2 & H3) Hr. exists s', c. split_and!; auto. split_and!; auto. Qed.

Lemma goes_bind s c (o : option t) (f : t → option t) :
  goes s c o → (∀ s' c', ok s' c' → later c c' → goes s' c' (f s')) → goes s c (o ≫= f).
Proof.
  intros (s1 & c1 & -> & Hok & Hl) Hf. destruct (Hf s1 c1 Hok Hl) as (s2 & c2 & Hs & Hok2 & Hl2).
  exists s2, c2. split_and!; try done. intros msg Hm. by apply Hl2, Hl.
Qed.

Lemma goes_step s c n nd ev :
  ok s c → nodes s !! n = Some nd → available c n ev → (∀ l, sender ev = Some l → l ∈ V) →
  goes s c (step s n ev).
Proof.
  intros (Hreach & Hann & Hr) Hnd Hav Hsend. unfold step. rewrite Hnd. simpl.
  destruct (on_event _ _ _ _) as [m' acts] eqn:Hev.
  set (c' := after V c n m' (SimLog.view (log nd)) acts).
  assert (refines (set_nodes (<[n := set_machine m' nd]> (nodes s)) s) c') as Hr0
    by (by eapply event_refines).
  destruct (event_reply s c n nd ev m' acts Hr Hnd Hsend Hev _ Hr0) as (s1 & Hs1 & Hr1 & Hns1).
  { exists (set_machine m' nd). simpl. by rewrite lookup_insert_eq. }
  rewrite Hs1. simpl.
  destruct (event_actions s c n nd ev m' acts Hr Hsend Hev s1 (set_machine m' nd) Hr1)
    as (s2 & nd2 & -> & Hr2 & Hnd2).
  { rewrite Hns1. simpl. by rewrite lookup_insert_eq. }
  { done. }
  simpl. unfold reconcile_timers_for_role.
  assert (n ∈ V) as Hn by (rewrite <- (r_dom _ _ Hr); by eapply elem_of_dom_2).
  match goal with |- context [on_node s2 n ?f] =>
    destruct (refines_on_node s2 c' n f Hr2 Hn) as (nd3 & s3 & _ & -> & Hr3 & _) end.
  { intros x. by destruct (role (machine x)). }
  exists s3, c'. split_and!; [done| |by apply event_later]. split_and!; try done.
  - eapply reach_step; [exact Hreach|]. eapply step_event; try done.
    by rewrite (r_machines _ _ Hr), lookup_fmap, Hnd.
  - by eapply event_announced.
Qed.

Lemma goes_deliver s c msg : ok s c → good c msg → goes s c (deliver s msg).
Proof.
  intros Hok (Hav & Hsrc & Hs). unfold deliver. destruct (cut _ _ _); [by apply goes_here|].
  destruct (nodes s !! dst msg) as [nd|] eqn:Hnd; [|by apply goes_here].
  apply goes_bind; [eapply goes_step; try done; intros l Hl; congruence|].
  intros s1 c1 Hok1 _. apply goes_here; [done|].
  intros Hr. by apply refines_record_new_leaders, refines_record.
Qed.

Lemma ok_pop s c msg q : ok s c → queue s = msg :: q → ok (set_queue q s) c ∧ good c msg.
Proof.
  intros (H1 & H2 & H3) Hq. split.
  - split_and!; try done. revert H3. apply refines_same; try done. simpl. rewrite Hq. set_solver.
  - apply (r_queue _ _ H3). rewrite Hq. by left.
Qed.

(** *** Timers *)
Definition due (s : t) (b : option (SimInstant * NodeId * SimTimer)) : Prop :=
  match b with Some (_, n, _) => n ∈ V | None => True end.

Lemma due_consider s b d n k : due s b → n ∈ V → due s (consider b d n k).
Proof.
  intros Hb Hn. unfold consider. destruct d as [d|]; [|done]. destruct b as [[[bd bn] bk]|]; [|done].
  by destruct (bd <=? d).
Qed.

Lemma due_next_timer s c : refines s c → due s (next_timer s).
Proof.
  intros Hr. unfold next_timer.
  assert (∀ nd, nd ∈ values (nodes s) → id nd ∈ V) as Hid.
  { intros nd [k Hk]%elem_of_values. rewrite (r_ids _ _ Hr _ _ Hk), <- (r_dom _ _ Hr).
    by eapply elem_of_dom_2. }
  assert (due s None) as Hd by done. revert Hd Hid. generalize (@None (SimInstant * NodeId * SimTimer)).
  induction (values (nodes s)) as [|nd l IH]; intros b Hb Hid; simpl; [done|].
  apply IH; [|intros x Hx; apply Hid; by right].
  assert (id nd ∈ V) by (apply Hid; by left). by repeat apply due_consider.
Qed.

Lemma goes_on_node s c n f :
  ok s c → n ∈ V → (∀ nd, machine (f nd) = machine nd ∧ id (f nd) = id nd) →
  goes s c (on_node s n f).
Proof.
  intros (H1 & H2 & Hr) Hn Hf. destruct (refines_on_node s c n f Hr Hn Hf) as (nd & s' & _ & Hs & Hr' & _).
  exists s', c. by split_and!.
Qed.

Lemma ok_node s c n : ok s c → n ∈ V → ∃ nd, nodes s !! n = Some nd.
Proof. intros (_ & _ & Hr) Hn. rewrite <- (r_dom _ _ Hr) in Hn. by apply elem_of_dom in Hn. Qed.

Lemma goes_heartbeat s c n : ok s c → n ∈ V → goes s c (fire_leader_heartbeat s n).
Proof.
  intros Hok Hn. unfold fire_leader_heartbeat. destruct (ok_node _ _ _ Hok Hn) as [nd Hnd].
  rewrite Hnd. cbn [mbind option_bind].
  destruct (is_leader (role (machine nd))) eqn:Hl; cbn [negb]; [|by apply goes_here].
  apply goes_bind; [|intros s1 c1 Hok1 _; by apply goes_on_node].
  pose proof Hok as (_ & Hann & Hr).
  assert (machines c !! n = Some (machine nd)) as Hm
    by (by rewrite (r_machines _ _ Hr), lookup_fmap, Hnd).
  destruct (refines_action s c n nd (log nd) (SendBeginQuorumEpoch (leader_epoch (state (machine nd))))
    Hr Hnd) as (s' & _ & Hs' & Hr' & _); [|done|done|].
  - intros msg (p & -> & [Hp Hpn]%list_elem_of_filter)%list_elem_of_fmap.
    apply elem_of_elements in Hpn. by apply (Hann n (machine nd) p).
  - rewrite Hs'. by apply goes_here.
Qed.

Lemma goes_timeout s c n a note ev :
  ok s c → n ∈ V → available c n ev → sender ev = None → goes s c (step (record s a note) n ev).
Proof.
  intros Hok Hn Hav Hs. destruct (ok_node _ _ _ Hok Hn) as [nd Hnd]. pose proof Hok as (H1 & H2 & H3).
  eapply (goes_step (record s a note) c n nd); [|done|done|congruence].
  split_and!; try done. by apply refines_record.
Qed.

Lemma goes_send_fetch s c n l : ok s c → n ∈ V → l ∈ V → goes s c (apply_action s n (SendFetch l)).
Proof.
  intros Hok Hn Hl. destruct (ok_node _ _ _ Hok Hn) as [nd Hnd]. pose proof Hok as (H1 & H2 & Hr).
  destruct (refines_action s c n nd (log nd) (SendFetch l) Hr Hnd) as (s' & _ & Hs' & Hr' & _); try done.
  - intros msg Hm. by apply elem_of_nil in Hm.
  - by intros x [= <-].
  - rewrite Hs'. by apply goes_here.
Qed.

Lemma goes_fetch_timer s c n : ok s c → n ∈ V → goes s c (fire_fetch_timer election_timeout_of s n).
Proof.
  intros Hok Hn. unfold fire_fetch_timer. destruct (ok_node _ _ _ Hok Hn) as [nd Hnd].
  rewrite Hnd. simpl. destruct (fetch_leader _) as [l|]; [|by apply goes_timeout].
  destruct (negb (cut s n l) && _) eqn:Ha; [|by apply goes_timeout].
  apply andb_true_iff in Ha as [_ Ha]. destruct (nodes s !! l) as [nl|] eqn:Hl; [|done].
  assert (l ∈ V) by (destruct Hok as (_ & _ & Hr); rewrite <- (r_dom _ _ Hr); by eapply elem_of_dom_2).
  apply goes_bind; [by apply goes_on_node|]. intros s1 c1 Hok1 _. by apply goes_send_fetch.
Qed.

Lemma goes_fire s c :
  ok s c → ∃ s' c' b, fire_next_timer election_timeout_of s = Some (s', b) ∧ ok s' c' ∧ later c c'.
Proof.
  intros Hok. unfold fire_next_timer. pose proof Hok as (H1 & H2 & Hr).
  pose proof (due_next_timer s c Hr) as Hdue.
  destruct (next_timer s) as [[[d n] k]|]; [|by exists s, c, false]. simpl in Hdue.
  set (s1 := if now s <? d then set_now d s else s).
  assert (ok s1 c) as Hok1.
  { split_and!; try done. subst s1. destruct (now s <? d); [|done]. revert Hr. by apply refines_same. }
  clearbody s1. assert (goes s1 c (on_node s1 n (clear_timer k))) as (s2 & c2 & -> & Hok2 & Hl2)
    by (apply goes_on_node; [done|done|intros x; by destruct k]). simpl.
  assert (goes s2 c2 match k with
    | Heartbeat => fire_leader_heartbeat s2 n
    | Fetch => fire_fetch_timer election_timeout_of s2 n
    | Election => step (record s2 (TTimeout n "election")
        ("N" +:+ pretty.pretty n +:+ "'s election timer fires")) n ElectionTimeout
    end) as (s3 & c3 & -> & Hok3 & Hl3)
    by (destruct k; [by apply goes_timeout|by apply goes_fetch_timer|by apply goes_heartbeat]).
  exists s3, c3, true. split_and!; try done. intros msg Hm. by apply Hl3, Hl2.
Qed.

Lemma goes_run_loop ticks s c fp r : ok s c → goes s c (run_loop election_timeout_of ticks s fp r).
Proof.
  revert s c fp r. induction ticks as [|ticks IH]; intros s c fp r Hok; simpl; [by apply goes_here|].
  destruct (queue s) as [|msg q] eqn:Hq.
  - destruct (goes_fire s c Hok) as (s1 & c1 & b & -> & Hok1 & Hl1). simpl.
    assert (∀ o, goes s1 c1 o → goes s c o) as Hk.
    { intros o (s2 & c2 & Ho & Hok2 & Hl2). exists s2, c2. split_and!; try done.
      intros m Hm. by apply Hl2, Hl1. }
    destruct (_ && _); [by apply Hk, goes_here|]. destruct (negb b && _); [by apply Hk, goes_here|].
    by apply Hk, IH.
  - destruct (ok_pop _ _ _ _ Hok Hq) as [Hok1 Hg].
    apply (goes_bind (set_queue q s)); [by apply goes_deliver|]. auto.
Qed.

(** *** Commands *)
Definition command_ok (cmd : Command) : Prop :=
  match cmd with LeaderAppend l _ => l ∈ V | _ => True end.

Lemma goes_fst {A} s c (o : option (t * A)) :
  (∃ s' c' b, o = Some (s', b) ∧ ok s' c' ∧ later c c') ↔ goes s c (fst <$> o).
Proof.
  split.
  - intros (s' & c' & b & -> & Hok & Hl). by exists s', c'.
  - intros (s' & c' & Ho & Hok & Hl). destruct o as [[s1 b]|]; simplify_eq/=. by exists s', c', b.
Qed.

Lemma goes_append s c l n : ok s c → l ∈ V → goes s c (leader_append s l n).
Proof.
  intros Hok Hl. unfold leader_append. destruct (ok_node _ _ _ Hok Hl) as [nd Hnd]. rewrite Hnd.
  cbn [mbind option_bind]. apply goes_bind; [by apply goes_on_node|].
  intros s1 c1 Hok1 _. apply goes_here; [done|]. apply refines_record.
Qed.

Lemma goes_reversed s c l :
  ok s c → Forall (good c) l → goes s c (each deliver s l).
Proof.
  revert s c. induction l as [|msg l IH]; intros s c Hok Hl; simpl; [by apply goes_here|].
  apply Forall_cons in Hl as [Hg Hl]. apply goes_bind; [by apply goes_deliver|].
  intros s1 c1 Hok1 Hl1. apply IH; [done|]. eapply Forall_impl; [exact Hl|].
  intros x. by apply good_later.
Qed.

Lemma goes_command s c cmd :
  ok s c → command_ok cmd → goes s c (command election_timeout_of s cmd).
Proof.
  intros Hok Hcmd. pose proof Hok as (H1 & H2 & Hr). destruct cmd as [|ticks|n|n|l n|n| | |]; simpl.
  - unfold step_once. destruct (queue s) as [|msg q] eqn:Hq; [by apply goes_fst, goes_fire|].
    destruct (ok_pop _ _ _ _ Hok Hq) as [Hok1 Hg].
    destruct (goes_deliver _ _ _ Hok1 Hg) as (s' & c' & -> & ? & ?). by exists s', c'.
  - by apply goes_run_loop.
  - apply goes_here; [done|]. intros _. apply refines_record. revert Hr. apply refines_same; try done.
    simpl. intros m Hm. by apply list_elem_of_filter in Hm as [_ Hm].
  - apply goes_here; [done|]. intros _. apply refines_record. revert Hr. by apply refines_same.
  - by apply goes_append.
  - unfold append. destruct (leaders s) as [|l ls] eqn:Hls; [by apply goes_here|].
    assert (l ∈ leaders s) as Hin by (rewrite Hls; by left).
    apply list_elem_of_fmap in Hin as (nd & -> & [_ Hnd]%list_elem_of_filter).
    apply elem_of_values in Hnd as [k Hk]. rewrite (r_ids _ _ Hr _ _ Hk).
    destruct (goes_append s c k n Hok) as (s' & c' & -> & ? & ?); [|by exists s', c'].
    rewrite <- (r_dom _ _ Hr). by eapply elem_of_dom_2.
  - apply goes_here; [done|]. intros _. unfold drop_next.
    destruct (queue s) as [|msg q] eqn:Hq; [done|]. apply refines_record.
    revert Hr. apply refines_same; try done. simpl. rewrite Hq. set_solver.
  - unfold reorder, deliver_queue_reversed.
    destruct (goes_reversed (set_queue [] s) c (reverse (queue s))) as (s' & c' & -> & ? & ?).
    + split_and!; try done. revert Hr. apply refines_same; try done. set_solver.
    + apply Forall_forall. intros m Hm. rewrite elem_of_reverse in Hm. by apply Hr.
    + by exists s', c'.
  - unfold duplicate_next, deliver_front_twice. destruct (queue s) as [|msg q] eqn:Hq; [by apply goes_here|].
    destruct (ok_pop _ _ _ _ Hok Hq) as [Hok1 Hg].
    destruct (goes_deliver _ _ _ Hok1 Hg) as (s1 & c1 & -> & Hok2 & Hl2). cbn [mbind option_bind].
    destruct (goes_deliver _ _ _ Hok2 (good_later _ _ _ Hl2 Hg)) as (s2 & c2 & -> & Hok3 & Hl3).
    exists s2, c2. split_and!; try done. intros m Hm. by apply Hl3, Hl2.
Qed.

Lemma goes_commands s c cmds :
  ok s c → Forall command_ok cmds → goes s c (commands election_timeout_of s cmds).
Proof.
  unfold commands. revert s c. induction cmds as [|cmd cmds IH]; intros s c Hok Hc; simpl;
    [by apply goes_here|].
  apply Forall_cons in Hc as [Hcmd Hc]. apply goes_bind; [by apply goes_command|].
  intros s1 c1 Hok1 _. by apply IH.
Qed.
End Refinement.

(** ** The bootstrap *)
Section Bootstrap.
Context (election_timeout_of : NodeId → Z).

Lemma ids_make_voter_set ids : VoterSet.ids (make_voter_set ids) = list_to_set ids.
Proof.
  unfold make_voter_set, VoterSet.from_voters, VoterSet.ids.
  assert (∀ (m : VoterSet.t), dom (foldl (fun m v => <[Voters.id v := v]> m) m
    ((fun n => mkVoter n nil_uuid [] default_range) <$> ids)) = dom m ∪ list_to_set ids) as H.
  { induction ids as [|n ids IH]; intros m; simpl; [set_solver|].
    rewrite IH, dom_insert_L. simpl. set_solver. }
  rewrite H. set_solver.
Qed.

Lemma lookup_foldl_insert {A} (f : NodeId → A) ids (m : gmap NodeId A) n :
  foldl (fun ns n => <[n := f n]> ns) m ids !! n =
  if bool_decide (n ∈ ids) then Some (f n) else m !! n.
Proof.
  revert m. induction ids as [|k ids IH]; intros m; simpl; [done|]. rewrite IH.
  destruct (decide (n = k)) as [->|Hne].
  - rewrite lookup_insert_eq. rewrite (bool_decide_eq_true_2 (k ∈ k :: ids)) by (by left).
    by destruct (bool_decide _).
  - rewrite lookup_insert_ne by done. by rewrite (bool_decide_ext (n ∈ ids) (n ∈ k :: ids))
      by (rewrite elem_of_cons; naive_solver).
Qed.

Lemma ok_new ids :
  ok (list_to_set ids) (new election_timeout_of ids)
    (initial nil_uuid (make_voter_set ids) election_timeout_of (list_to_set ids)).
Proof.
  split_and!.
  - apply reach_init. apply ids_make_voter_set.
  - intros n m p Hn Hl. apply initial_node in Hn as ->. simpl in Hl. by destruct (negb _) in Hl.
  - split; simpl.
    + apply map_eq. intros n. rewrite lookup_fmap, lookup_foldl_insert.
      case_bool_decide as Hn; simpl.
      * apply lookup_set_to_map; [done|]. exists n. split; [set_solver|done].
      * apply eq_None_not_Some. intros [m Hm]. apply lookup_set_to_map in Hm as (k & Hk & [= <- <-]); [|done].
        set_solver.
    + apply set_eq. intros n. rewrite elem_of_dom, lookup_foldl_insert, elem_of_list_to_set.
      case_bool_decide; rewrite ?lookup_empty; naive_solver.
    + intros n nd. rewrite lookup_foldl_insert. case_bool_decide; [|done]. by intros [= <-].
    + set_solver.
    + intros msg Hm. by apply elem_of_nil in Hm.
Qed.
End Bootstrap.

(** C34. The simulator refines the cluster: whatever the operator does, provided that
    the commands that append at a named leader name one of the nodes, no simulation
    panics; the machines it ends with are those of a run of the cluster of its voters
    (a run that may deliver stale vote requests); and every message still on its bus
    is one that the cluster could deliver: it comes from one of the nodes, and if it
    belongs to an election then the cluster has sent it. *)
Theorem sim_refines_cluster (election_timeout_of : NodeId → Z) ids cmds :
  Forall (command_ok (list_to_set ids)) cmds →
  ∃ s c, commands election_timeout_of (new election_timeout_of ids) cmds = Some s ∧
    reachable (list_to_set ids) false c ∧ KraftCluster.nodes c = machine <$> nodes s ∧
    ∀ msg, msg ∈ queue s → available c (dst msg) (event msg) ∧ src msg ∈ ids ∧ sender (event msg) = Some (src msg).
Proof.
  intros Hc. destruct (goes_commands election_timeout_of _ _ _ cmds (ok_new election_timeout_of ids) Hc)
    as (s & c & Hs & (Hreach & _ & Hr) & _).
  exists s, c. split_and!; try done; [apply Hr|]. intros msg (Ha & Hi%elem_of_list_to_set & He)%(r_queue _ _ _ Hr).
  by split_and!.
Qed.

(** The staggered timeouts of [election_timeout_of]. *)
Definition staggered (n : NodeId) : Z := 1000 + 50 * n.

Lemma sim_refines_cluster_witness :
  ∃ s c, commands staggered (new staggered trio)
           [Settle 1000; Partition 1; Settle 1000; LeaderAppend 3 2; Reorder; Heal 1; Settle 1000]
         = Some s ∧
    reachable (list_to_set trio) false c ∧ KraftCluster.nodes c = machine <$> nodes s ∧
    ∀ msg, msg ∈ queue s → available c (dst msg) (event msg) ∧ src msg ∈ trio ∧ sender (event msg) = Some (src msg).
Proof.
  apply sim_refines_cluster. repeat constructor.
Defined.
