(* ===== verification/SnapshotFetch.v ===== *)
(** * Reassembling a metadata snapshot

    Models [crates/kraft-core/src/snapshot_fetch.rs], the state machine of a
    follower that fetches a snapshot in chunks (KIP-630), with the cap on what
    a leader can make it buffer; and the two ends of the transfer in
    [crates/raft/src/kraft/controller.rs]: the leader that serves byte ranges of a
    checkpoint, and the follower that starts a transfer, feeds it the responses and
    installs the result.  The caps are the validated whole numbers of bytes; their
    validation from floating-point quantities, the encoding of the messages and
    what an installation does to the image are not modelled. *)

From S2P Require Import Prelude Voters.

Module SnapshotFetch.

Abbreviation SnapshotId := (Z * Z)%type.

Definition METADATA_SNAPSHOT_FETCH_HARD_MAX_BYTES : Z := 1073741824.

Record SnapshotFetchState : Type := mkFetch {
  snapshot_id : SnapshotId;
  leader_id : NodeId;
  buf : list byte;
  size : option Z;
  max_size : Z;
}.

Inductive SnapshotFetchStep : Type :=
| Continue (next_position : Z)
| Complete (snapshot : list byte)
| Restart.

Definition with_max (id : SnapshotId) (leader : NodeId) (max_size : Z) : SnapshotFetchState :=
  mkFetch id leader [] None max_size.
Definition new (id : SnapshotId) (leader : NodeId) : SnapshotFetchState :=
  with_max id leader METADATA_SNAPSHOT_FETCH_HARD_MAX_BYTES.

(** [i64::try_from(len).unwrap_or(i64::MAX)] *)
Definition len_i64 (l : list byte) : Z := Z.min (Z.of_nat (length l)) (2 ^ 63 - 1).
Definition next_position (st : SnapshotFetchState) : Z := len_i64 (buf st).

Definition set_buf (b : list byte) (st : SnapshotFetchState) : SnapshotFetchState :=
  mkFetch (snapshot_id st) (leader_id st) b (size st) (max_size st).
Definition set_size (s : option Z) (st : SnapshotFetchState) : SnapshotFetchState :=
  mkFetch (snapshot_id st) (leader_id st) (buf st) s (max_size st).

Definition on_chunk (st : SnapshotFetchState) (id : SnapshotId) (sz position : Z)
    (chunk : list byte) : SnapshotFetchState * SnapshotFetchStep :=
  if negb (bool_decide (id = snapshot_id st)) || negb (position =? next_position st)
     || (sz <? 0) || (max_size st <? sz)
  then (st, Restart) else
  if match size st with Some s => negb (s =? sz) | None => false end then (st, Restart) else
  let st := set_size (Some sz) st in
  if sz - position <? len_i64 chunk then (st, Restart) else
  let st := set_buf (buf st ++ chunk) st in
  if sz <=? next_position st then (set_buf [] st, Complete (buf st))
  else (st, Continue (next_position st)).

(** ** The two ends of a transfer *)
Definition SNAPSHOT_NOT_FOUND : Z := 98.
Record FetchSnapshotRequest : Type := mkRequest { q_id : SnapshotId; q_position : Z; q_max_bytes : Z }.
Record FetchSnapshotResponse : Type := mkResponse {
  p_id : SnapshotId;
  p_size : Z;
  p_position : Z;
  p_bytes : list byte;
  p_error_code : Z;
}.
Definition byte_range (bytes : list byte) (position max : nat) : list byte :=
  let start := Nat.min position (length bytes) in
  let stop := Nat.min (start + max) (length bytes) in
  take (stop - start) (drop start bytes).
(** [checkpoints] is the checkpoint files by the id in their names. *)
Definition serve_fetch_snapshot (checkpoints : gmap SnapshotId (list byte)) (q : FetchSnapshotRequest) :
    FetchSnapshotResponse :=
  match checkpoints !! q_id q with
  | Some bytes =>
      mkResponse (q_id q) (len_i64 bytes) (q_position q)
        (byte_range bytes (Z.to_nat (Z.max (q_position q) 0)) (Z.to_nat (Z.max (q_max_bytes q) 0))) 0
  | None => mkResponse (q_id q) 0 (q_position q) [] SNAPSHOT_NOT_FOUND
  end.

Record Engine : Type := mkEngine {
  me : NodeId;
  log_end_offset : Z;
  metadata_snapshot_fetch_max : Z;
  metadata_raft_fetch_max : Z;
  snapshot_fetch : option SnapshotFetchState;
}.
Definition set_snapshot_fetch (v : option SnapshotFetchState) (e : Engine) : Engine :=
  mkEngine (me e) (log_end_offset e) (metadata_snapshot_fetch_max e) (metadata_raft_fetch_max e) v.
(** What the engine sends, and the snapshot it installs. *)
Inductive Effect : Type :=
| SendFetch (to : NodeId)
| SendFetchSnapshot (to : NodeId) (q : FetchSnapshotRequest)
| InstallSnapshot (id : SnapshotId) (bytes : list byte).
Definition send_fetch_snapshot (e : Engine) (leader : NodeId) (id : SnapshotId) (position : Z) : list Effect :=
  if leader =? me e then [] else [SendFetchSnapshot leader (mkRequest id position (metadata_raft_fetch_max e))].
Definition should_start_snapshot_fetch (id : SnapshotId) (log_end : Z) (active : option SnapshotId) : bool :=
  (log_end <? id.1) && negb (bool_decide (active = Some id)).
(** The branch of [on_fetch_response] for a response that names a snapshot. *)
Definition on_snapshot_hint (e : Engine) (leader : NodeId) (id : SnapshotId) : Engine * list Effect :=
  if should_start_snapshot_fetch id (log_end_offset e) (snapshot_id <$> snapshot_fetch e)
  then (set_snapshot_fetch (Some (with_max id leader (metadata_snapshot_fetch_max e))) e, send_fetch_snapshot e leader id 0)
  else (e, []).
Definition snapshot_fetch_response_invalid (error_code : Z) (from leader : NodeId) : bool :=
  negb ((error_code =? 0) && (from =? leader)).
Definition on_fetch_snapshot_response (e : Engine) (from : NodeId) (p : FetchSnapshotResponse) : Engine * list Effect :=
  match snapshot_fetch e with
  | None => (e, [])
  | Some st =>
      if snapshot_fetch_response_invalid (p_error_code p) from (leader_id st)
      then (set_snapshot_fetch None e, [SendFetch from]) else
      match on_chunk st (p_id p) (p_size p) (p_position p) (p_bytes p) with
      | (st, Continue next_position) =>
          let e := set_snapshot_fetch (Some st) e in (e, send_fetch_snapshot e from (p_id p) next_position)
      | (_, Restart) => (set_snapshot_fetch None e, [SendFetch from])
      | (st, Complete assembled) =>
          (set_snapshot_fetch None e, [InstallSnapshot (snapshot_id st) assembled; SendFetch from])
      end
  end.
(** The transfer as the transport drives it: every request of the engine to the
    leader is answered, and the answer posted back to the engine's loop.  [None] when
    [fuel] round trips have not brought it to rest. *)
Fixpoint transfer (fuel : nat) (checkpoints : gmap SnapshotId (list byte)) (e : Engine) (sent : list Effect) :
    option (Engine * list Effect) :=
  match sent with
  | [SendFetchSnapshot leader q] =>
      match fuel with
      | O => None
      | S fuel =>
          let '(e, sent) := on_fetch_snapshot_response e leader (serve_fetch_snapshot checkpoints q) in
          transfer fuel checkpoints e sent
      end
  | _ => Some (e, sent)
  end.

(** ** Facts *)
(** What is buffered stays within the declared size and the cap. *)
Definition bounded (st : SnapshotFetchState) : Prop :=
  max_size st < 2 ^ 63 - 1 ∧
  match size st with
  | Some s => Z.of_nat (length (buf st)) ≤ s ≤ max_size st
  | None => buf st = []
  end.

Lemma len_i64_small l : Z.of_nat (length l) < 2 ^ 63 → len_i64 l = Z.of_nat (length l).
Proof. unfold len_i64. lia. Qed.

(** Every way a chunk can be handled. *)
Lemma on_chunk_cases st id sz pos chunk :
  bounded st →
  let st' := set_buf (buf st ++ chunk) (set_size (Some sz) st) in
  let n := Z.of_nat (length (buf st ++ chunk)) in
  let accepted := id = snapshot_id st ∧ pos = Z.of_nat (length (buf st)) ∧
                  (size st = None ∨ size st = Some sz) ∧ n ≤ sz ≤ max_size st in
  (on_chunk st id sz pos chunk = (set_buf [] st', Complete (buf st ++ chunk)) ∧ accepted ∧ n = sz) ∨
  (on_chunk st id sz pos chunk = (st', Continue n) ∧ accepted ∧ n < sz) ∨
  ((on_chunk st id sz pos chunk).2 = Restart ∧ ¬ accepted ∧ bounded (on_chunk st id sz pos chunk).1).
Proof.
  intros [Hmax Hb]. cbv zeta. unfold on_chunk, next_position.
  assert (Z.of_nat (length (buf st)) < 2 ^ 63) as Hlen
    by (destruct (size st); [lia|rewrite Hb; simpl; lia]).
  rewrite (len_i64_small (buf st)) by done.
  destruct (negb (bool_decide (id = snapshot_id st)) || _ || _ || _) eqn:H1.
  { right; right. split_and!; [done| |done]. intros (-> & -> & _ & Hn).
    rewrite bool_decide_eq_true_2, Z.eqb_refl in H1 by done. simpl in H1. zify_bools; lia. }
  apply orb_false_iff in H1 as [[[H1 H2]%orb_false_iff H3]%orb_false_iff H4].
  apply negb_false_iff, bool_decide_eq_true in H1. zify_bools. subst id pos.
  destruct (match size st with Some s => _ | None => false end) eqn:H5.
  { right; right. split_and!; [done| |done]. intros (_ & _ & [Hs|Hs] & _); rewrite Hs in H5; [done|].
    by rewrite Z.eqb_refl in H5. }
  assert (size st = None ∨ size st = Some sz) as Hsz.
  { destruct (size st); [right|by left]. zify_bools. by subst. }
  assert (bounded (set_size (Some sz) st)) as Hb'.
  { split; [done|]. simpl. destruct Hsz as [Hs|Hs]; rewrite Hs in Hb; [rewrite Hb; simpl|]; lia. }
  cbn [set_size set_buf buf size]. rewrite length_app, Nat2Z.inj_add.
  destruct (Z.ltb_spec (sz - Z.of_nat (length (buf st))) (len_i64 chunk)) as [H6|H6].
  { right; right. split_and!; [done| |done]. intros (_ & _ & _ & Hn). unfold len_i64 in H6. lia. }
  rewrite len_i64_small in H6 by (unfold len_i64 in H6; destruct Hb' as [_ Hb']; simpl in Hb'; lia).
  rewrite len_i64_small by (rewrite length_app, Nat2Z.inj_add; lia).
  rewrite length_app, Nat2Z.inj_add.
  destruct (Z.leb_spec sz (Z.of_nat (length (buf st)) + Z.of_nat (length chunk))).
  - left. split_and!; try done; lia.
  - right; left. split_and!; try done; lia.
Qed.

Lemma bounded_on_chunk st id sz pos chunk :
  bounded st → bounded (on_chunk st id sz pos chunk).1.
Proof.
  intros Hb. destruct (on_chunk_cases st id sz pos chunk Hb) as [(-> & Ha & Hn)|[(-> & Ha & Hn)|(_ & _ & H)]];
    [..|done]; destruct Ha as (_ & _ & _ & Ha); (split; [apply Hb|]); simpl in *; lia.
Qed.

(** ** Fetching from a leader *)
(** Feed a sequence of responses. *)
Definition feed (st : SnapshotFetchState) (r : SnapshotId * Z * Z * list byte) :
    SnapshotFetchState * SnapshotFetchStep :=
  let '(id, sz, pos, chunk) := r in on_chunk st id sz pos chunk.

(** Whatever a peer sends, a follower never buffers more than its cap, nor
    more than the size it was first promised. *)
Theorem reassembly_bounded id leader max responses :
  0 ≤ max ≤ METADATA_SNAPSHOT_FETCH_HARD_MAX_BYTES →
  let st := foldl (fun st r => (feed st r).1) (with_max id leader max) responses in
  Z.of_nat (length (buf st)) ≤ max ∧ ∀ s, size st = Some s → Z.of_nat (length (buf st)) ≤ s ≤ max.
Proof.
  intros Hm. cbv zeta.
  assert (∀ st, bounded st ∧ max_size st = max →
    let st' := foldl (fun st r => (feed st r).1) st responses in bounded st' ∧ max_size st' = max) as H.
  { induction responses as [|[[[i sz] pos] chunk] rs IH]; intros st [Hb Hst]; simpl; [done|].
    apply IH. split; [by apply bounded_on_chunk|]. rewrite <- Hst. unfold on_chunk.
    by repeat case_match. }
  destruct (H (with_max id leader max)) as [[_ Hb] Hmax].
  { unfold METADATA_SNAPSHOT_FETCH_HARD_MAX_BYTES in Hm. split; [split; simpl; [lia|done]|done]. }
  rewrite Hmax in Hb. destruct (size _) as [s|].
  - split; [lia|]. by intros s' [= <-].
  - rewrite Hb. split; [simpl; lia|done].
Qed.

Section Transfer.
Context (checkpoints : gmap SnapshotId (list byte)) (id : SnapshotId) (snapshot : list byte) (leader : NodeId).
Hypothesis stored : checkpoints !! id = Some snapshot.

(** A transfer that has received a part of the snapshot. *)
Record underway (e : Engine) (st : SnapshotFetchState) : Prop := {
  uw_active : snapshot_fetch e = Some st;
  uw_peer : leader ≠ me e;
  uw_chunk : 0 < metadata_raft_fetch_max e;
  uw_bounded : bounded st;
  uw_id : snapshot_id st = id ∧ leader_id st = leader;
  uw_fits : Z.of_nat (length snapshot) ≤ max_size st;
  uw_size : size st = None ∨ size st = Some (Z.of_nat (length snapshot));
  uw_prefix : ∃ rest, snapshot = buf st ++ rest;
}.

(** The leader answers with what comes next, as much as was asked for. *)
Lemma served n rest sent :
  snapshot = sent ++ rest → Z.of_nat (length snapshot) < 2 ^ 63 - 1 →
  serve_fetch_snapshot checkpoints (mkRequest id (Z.of_nat (length sent)) (Z.of_nat n)) =
  mkResponse id (Z.of_nat (length snapshot)) (Z.of_nat (length sent)) (take n rest) 0.
Proof.
  intros Hs Hl. unfold serve_fetch_snapshot. simpl. rewrite stored, len_i64_small by lia. f_equal. unfold byte_range.
  rewrite !Z.max_l, !Nat2Z.id by lia. rewrite Hs, length_app, (Nat.min_l (length sent)) by lia. rewrite drop_app_length.
  destruct (decide (n ≤ length rest)%nat).
  - by rewrite Nat.min_l, Nat.add_sub' by lia.
  - rewrite Nat.min_r by lia. by rewrite !take_ge by lia.
Qed.

Lemma transfer_ends fuel e st :
  underway e st → (0 < fuel)%nat →
  Z.of_nat (length snapshot) - Z.of_nat (length (buf st)) ≤ Z.of_nat fuel * metadata_raft_fetch_max e →
  transfer fuel checkpoints e (send_fetch_snapshot e leader id (Z.of_nat (length (buf st)))) =
  Some (set_snapshot_fetch None e, [InstallSnapshot id snapshot; SendFetch leader]).
Proof.
  revert e st. induction fuel as [|fuel IH]; intros e st Hu Hf Hr; [lia|].
  destruct Hu as [Ha Hp Hc Hb [Hid Hld] Hfit Hsz [rest Hs]]. pose proof (proj1 Hb) as Hmax.
  unfold send_fetch_snapshot. rewrite (proj2 (Z.eqb_neq _ _)) by done. cbn [transfer].
  rewrite <- (Z2Nat.id (metadata_raft_fetch_max e)) by lia. set (n := Z.to_nat (metadata_raft_fetch_max e)) in *.
  rewrite (served n rest) by (done || lia). unfold on_fetch_snapshot_response, snapshot_fetch_response_invalid.
  rewrite Ha, Hld. cbn [p_error_code p_id p_size p_position p_bytes]. rewrite !Z.eqb_refl. simpl.
  assert (length snapshot = length (buf st) + length rest)%nat as Hlen by (by rewrite Hs, length_app).
  destruct (on_chunk_cases st id (Z.of_nat (length snapshot)) (Z.of_nat (length (buf st))) (take n rest) Hb)
    as [(-> & _ & Hn)|[(Hch & _ & Hn)|(_ & Hno & _)]]; rewrite ?length_app, ?length_take in *.
  - simpl. rewrite Hid, take_ge, <- Hs by lia. by destruct fuel.
  - rewrite Hch. pose proof (bounded_on_chunk st id (Z.of_nat (length snapshot)) (Z.of_nat (length (buf st))) (take n rest) Hb) as Hb'.
    rewrite Hch in Hb'. simpl in Hb'. assert (length (take n rest) = n) as Ht by (rewrite length_take; lia).
    set (st' := set_buf (buf st ++ take n rest) (set_size (Some (Z.of_nat (length snapshot))) st)) in *.
    replace (Z.of_nat (length (buf st) + Nat.min n (length rest))) with (Z.of_nat (length (buf st')))
      by (simpl; rewrite length_app, length_take; lia).
    assert (Z.of_nat (length (buf st')) = Z.of_nat (length (buf st)) + Z.of_nat n) as Hbl by (simpl; rewrite length_app, Ht; lia).
    rewrite (IH (set_snapshot_fetch (Some st') e) st'); [done| |lia|simpl; simpl in Hbl; lia].
    split; simpl; try done; [by right|]. exists (drop n rest). by rewrite <- app_assoc, take_drop.
  - destruct Hno. split_and!; try done; lia.
Qed.
End Transfer.

(** C37. A snapshot transfer between the follower and the leader of the engine
    completes.  Suppose the leader has and keeps the checkpoint the hint names, which is beyond
    the follower's log and not being fetched already; the leader is another node; the
    checkpoint is no longer than the follower's cap, which is at most 1 GiB; and
    every request is answered in turn, with no other response in between.  Then the
    follower installs exactly the leader's bytes, resumes fetching from the leader
    and has no transfer left, after at most one request per [metadata_raft_fetch_max]
    bytes, and one more. *)
Theorem fetch_completes checkpoints id leader snapshot e :
  checkpoints !! id = Some snapshot → leader ≠ me e →
  log_end_offset e < id.1 → snapshot_id <$> snapshot_fetch e ≠ Some id → 0 < metadata_raft_fetch_max e →
  Z.of_nat (length snapshot) ≤ metadata_snapshot_fetch_max e ≤ METADATA_SNAPSHOT_FETCH_HARD_MAX_BYTES →
  let '(e1, sent) := on_snapshot_hint e leader id in
  transfer (S (Z.to_nat (Z.of_nat (length snapshot) / metadata_raft_fetch_max e))) checkpoints e1 sent =
  Some (set_snapshot_fetch None e, [InstallSnapshot id snapshot; SendFetch leader]).
Proof.
  intros Hs Hp Hl Hna Hc Hm. unfold on_snapshot_hint, should_start_snapshot_fetch.
  rewrite (proj2 (Z.ltb_lt _ _)), bool_decide_eq_false_2 by done. cbn [negb andb].
  unfold METADATA_SNAPSHOT_FETCH_HARD_MAX_BYTES in Hm.
  set (st := with_max id leader (metadata_snapshot_fetch_max e)).
  apply (transfer_ends checkpoints id snapshot leader Hs _ (set_snapshot_fetch (Some st) e) st).
  - split; simpl; try done; [split; simpl; [lia|done]|lia|by left|by exists snapshot].
  - lia.
  - simpl. pose proof (Z.mul_succ_div_gt (Z.of_nat (length snapshot)) (metadata_raft_fetch_max e) Hc).
    pose proof (Z.div_pos (Z.of_nat (length snapshot)) (metadata_raft_fetch_max e) ltac:(lia) Hc). lia.
Qed.

(** ** Witnesses *)
Lemma reassembly_bounded_witness :
  Z.of_nat (length (buf (feed (with_max (5, 1) 2 4) (5, 1, 3, 0, [x61; x62])).1)) ≤ 4.
Proof.
  destruct (reassembly_bounded (5, 1) 2 4 [(5, 1, 3, 0, [x61; x62])]) as [H _]; [|exact H].
  unfold METADATA_SNAPSHOT_FETCH_HARD_MAX_BYTES. lia.
Defined.

Lemma fetch_completes_witness :
  let e := mkEngine 1 4 8 2 None in
  transfer 2 {[(5, 1) := [x61; x62; x63]]} (on_snapshot_hint e 2 (5, 1)).1 (on_snapshot_hint e 2 (5, 1)).2 =
  Some (e, [InstallSnapshot (5, 1) [x61; x62; x63]; SendFetch 2]).
Proof.
  refine (fetch_completes {[(5, 1) := [x61; x62; x63]]} (5, 1) 2 [x61; x62; x63] (mkEngine 1 4 8 2 None) _ _ _ _ _ _).
  - reflexivity.
  - discriminate.
  - reflexivity.
  - discriminate.
  - reflexivity.
  - split; vm_compute; discriminate.
Defined.
End SnapshotFetch.
