(* ===== verification/Decimal.v ===== *)
(** * Integers as text

    What the log uses of Rust's integer formatting and parsing
    ([format!("{n}")], [format!("{n:020}")], [str::parse]), of [str::lines],
    [str::trim] and [split_whitespace], and the segment file names of
    [crates/log/src/name.rs].  Text is its bytes; white space is that of ASCII,
    the only one these files hold. *)

From S2P Require Import Prelude BatchStore LogIndex Segment.

(** ** Formatting *)
Definition digit (d : Z) : byte := byte_of_Z (48 + d).
Definition minus : byte := byte_of_Z 45.
Definition plus : byte := byte_of_Z 43.

(** Twenty digits hold every 64-bit number. *)
Definition DIGITS : nat := 20.
Fixpoint digits (fuel : nat) (n : Z) (acc : list byte) : list byte :=
  match fuel with
  | O => acc
  | S fuel =>
      let acc := digit (n mod 10) :: acc in
      if n <? 10 then acc else digits fuel (n / 10) acc
  end.
Definition unsigned (n : Z) : list byte := digits DIGITS n [].
Definition zeros (width : nat) (l : list byte) : list byte :=
  replicate (width - length l) (digit 0) ++ l.

(** [format!("{n}")] and [format!("{n:0width}")]: the sign counts for the width
    and precedes the zeros. *)
Definition show (n : Z) : list byte :=
  if n <? 0 then minus :: unsigned (- n) else unsigned n.
Definition show_padded (width : nat) (n : Z) : list byte :=
  if n <? 0 then minus :: zeros (width - 1) (unsigned (- n)) else zeros width (unsigned n).

(** ** Parsing *)
Definition digit_value (b : byte) : option Z :=
  let v := Z_of_byte b - 48 in
  if (0 <=? v) && (v <? 10) then Some v else None.
Fixpoint parse_digits (acc : Z) (l : list byte) : option Z :=
  match l with
  | [] => Some acc
  | b :: l => match digit_value b with
              | Some v => parse_digits (acc * 10 + v) l
              | None => None
              end
  end.
(** The magnitude: at least one digit. *)
Definition parse_magnitude (l : list byte) : option Z :=
  match l with [] => None | _ => parse_digits 0 l end.

(** [str::parse] for [i<w>] and [u<w>]: an optional sign, digits, and the value
    in range. *)
Definition parse_s (w : Z) (l : list byte) : option Z :=
  n ← match l with
      | b :: l' => if bool_decide (b = minus) then Z.opp <$> parse_magnitude l'
                   else if bool_decide (b = plus) then parse_magnitude l'
                   else parse_magnitude l
      | [] => None
      end;
  if bool_decide (in_s w n) then Some n else None.
Definition parse_u (w : Z) (l : list byte) : option Z :=
  n ← match l with
      | b :: l' => if bool_decide (b = plus) then parse_magnitude l' else parse_magnitude l
      | [] => None
      end;
  if bool_decide (in_u w n) then Some n else None.

(** ** Lines and words *)
Definition newline : byte := byte_of_Z 10.
Definition carriage_return : byte := byte_of_Z 13.
Definition space : byte := byte_of_Z 32.
Definition is_space (b : byte) : bool :=
  let v := Z_of_byte b in (v =? 32) || ((9 <=? v) && (v <=? 13)).

(** [str::lines]: the pieces before each newline, and what follows the last one
    unless it is empty; a carriage return before the newline is dropped. *)
Definition strip_cr (l : list byte) : list byte :=
  match last l with
  | Some b => if bool_decide (b = carriage_return) then take (length l - 1) l else l
  | None => l
  end.
Fixpoint lines_from (cur : list byte) (l : list byte) : list (list byte) :=
  match l with
  | [] => match cur with [] => [] | _ => [cur] end
  | b :: l => if bool_decide (b = newline) then strip_cr cur :: lines_from [] l
              else lines_from (cur ++ [b]) l
  end.
Definition lines (l : list byte) : list (list byte) := lines_from [] l.

Fixpoint words_from (cur : list byte) (l : list byte) : list (list byte) :=
  match l with
  | [] => match cur with [] => [] | _ => [cur] end
  | b :: l => if is_space b then match cur with
                                 | [] => words_from [] l
                                 | _ => cur :: words_from [] l
                                 end
              else words_from (cur ++ [b]) l
  end.
Definition split_whitespace (l : list byte) : list (list byte) := words_from [] l.

Fixpoint trim_start (l : list byte) : list byte :=
  match l with
  | b :: l' => if is_space b then trim_start l' else l
  | [] => []
  end.
Definition trim (l : list byte) : list byte := reverse (trim_start (reverse (trim_start l))).

(** ** Segment file names *)
Module Name.
Definition FILENAME_DIGITS : nat := 20.
Definition dot_log : list byte := byte_of_Z <$> [46; 108; 111; 103].
Definition format_base_offset (base : Z) : list byte := show_padded 20 base.
Definition log_name (base : Z) : list byte := format_base_offset base ++ dot_log.
Definition strip_suffix (suffix l : list byte) : option (list byte) :=
  let n := (length l - length suffix)%nat in
  if bool_decide (l = take n l ++ suffix) then Some (take n l) else None.
Definition parse_log_filename (name : list byte) : result LogError Z :=
  match strip_suffix dot_log name with
  | None => Err (BadSegmentName "no .log suffix")
  | Some stem =>
      if negb (bool_decide (length stem = FILENAME_DIGITS)) then Err (BadSegmentName "digit count") else
      match parse_s 64 stem with
      | Some n => Ok n
      | None => Err (BadSegmentName "not a number")
      end
  end.
End Name.

(** ** Formatting and parsing agree *)
Lemma digit_value_digit d : 0 ≤ d < 10 → digit_value (digit d) = Some d.
Proof.
  intros Hd. unfold digit_value, digit. rewrite Z_of_byte_of_Z, Z.mod_small by lia.
  replace (48 + d - 48) with d by lia.
  rewrite (proj2 (Z.leb_le _ _)), (proj2 (Z.ltb_lt _ _)) by lia. done.
Qed.

(** A digit is no sign and no white space. *)
Definition is_digit (b : byte) : Prop := 48 ≤ Z_of_byte b < 58.

Lemma digit_is_digit d : 0 ≤ d < 10 → is_digit (digit d).
Proof. intros. unfold is_digit, digit. rewrite Z_of_byte_of_Z, Z.mod_small; lia. Qed.

Lemma is_digit_not_sign b : is_digit b → b ≠ minus ∧ b ≠ plus.
Proof.
  unfold is_digit, minus, plus.
  intros H. split; intros ->; rewrite Z_of_byte_of_Z, Z.mod_small in H; lia.
Qed.

Lemma is_digit_not_space b : is_digit b → is_space b = false.
Proof.
  unfold is_digit, is_space. intros H. apply orb_false_iff; split; [by apply Z.eqb_neq; lia|].
  apply andb_false_iff. right. apply Z.leb_gt. lia.
Qed.

Lemma digits_spec fuel n acc :
  0 ≤ n < 10 ^ Z.of_nat fuel → ∃ ds, digits fuel n acc = ds ++ acc ∧
  (fuel ≠ 0%nat → ds ≠ []) ∧ (length ds ≤ fuel)%nat ∧ Forall is_digit ds ∧
  ∀ a rest, parse_digits a (ds ++ rest) = parse_digits (a * 10 ^ Z.of_nat (length ds) + n) rest.
Proof.
  revert n acc. induction fuel as [|fuel IH]; intros n acc Hn.
  { exists []. simpl in *. split_and!; try done. intros a rest. f_equal. lia. }
  simpl. pose proof (Z.mod_pos_bound n 10 ltac:(lia)) as Hm.
  destruct (n <? 10) eqn:Hlt; zify_bools.
  - rewrite Z.mod_small by lia. exists [digit n]. simpl.
    split_and!; try done; [lia|repeat constructor; apply digit_is_digit; lia|].
    intros a rest. rewrite digit_value_digit by lia. f_equal; lia.
  - destruct (IH (n / 10) (digit (n mod 10) :: acc)) as (ds & Heq & _ & Hlen & Hds & Hp).
    { replace (10 ^ Z.of_nat (S fuel)) with (10 * 10 ^ Z.of_nat fuel) in Hn
        by (rewrite <- Z.pow_succ_r by lia; f_equal; lia).
      split; [apply Z.div_pos; lia|]. apply Z.div_lt_upper_bound; lia. }
    exists (ds ++ [digit (n mod 10)]). rewrite Heq, <- !app_assoc. split_and!; try done.
    + intros _ H. by destruct ds.
    + rewrite length_app. simpl. lia.
    + apply Forall_app. split; [done|]. repeat constructor; by apply digit_is_digit.
    + intros a rest. rewrite <- app_assoc, Hp. simpl. rewrite digit_value_digit by lia. f_equal.
      rewrite length_app, Nat.add_comm, Nat2Z.inj_add, Z.pow_add_r by lia.
      pose proof (Z.div_mod n 10 ltac:(lia)). simpl. lia.
Qed.

Lemma digits_length fuel k n acc :
  0 ≤ n < 10 ^ Z.of_nat (S k) → (length (digits fuel n acc) ≤ S k + length acc)%nat.
Proof.
  revert k n acc. induction fuel as [|fuel IH]; intros k n acc Hn; simpl; [lia|].
  destruct (n <? 10) eqn:Hlt; simpl; [lia|]. zify_bools.
  destruct k as [|k]; [change (10 ^ Z.of_nat 1) with 10 in Hn; lia|].
  eapply Nat.le_trans; [apply (IH k)|simpl; lia]. rewrite Nat2Z.inj_succ, Z.pow_succ_r in Hn by lia.
  split; [apply Z.div_pos; lia|]. apply Z.div_lt_upper_bound; lia.
Qed.

(** What [unsigned] writes: a non-empty block of digits that reads back. *)
Lemma unsigned_spec n :
  in_u 64 n →
  unsigned n ≠ [] ∧ (length (unsigned n) ≤ 20)%nat ∧ Forall is_digit (unsigned n) ∧
  ∀ k, parse_digits 0 (replicate k (digit 0) ++ unsigned n) = Some n.
Proof.
  intros Hn. destruct (digits_spec DIGITS n []) as (ds & Heq & Hne & Hlen & Hds & Hp).
  { unfold in_u in Hn. change (10 ^ Z.of_nat DIGITS) with 100000000000000000000. lia. }
  unfold unsigned. rewrite Heq, app_nil_r in *. split_and!; auto.
  induction k as [|k IH]; cbn [replicate app].
  - specialize (Hp 0 []). rewrite app_nil_r in Hp. by rewrite Hp.
  - cbn [parse_digits]. by rewrite digit_value_digit by lia.
Qed.

Lemma parse_magnitude_zeros w n :
  in_u 64 n → parse_magnitude (zeros w (unsigned n)) = Some n.
Proof.
  intros Hn. destruct (unsigned_spec n Hn) as (Hne & _ & _ & Hp). unfold parse_magnitude, zeros.
  destruct (_ ++ _) eqn:E; [by apply app_eq_nil in E as [_ ?]|]. rewrite <- E. apply Hp.
Qed.

Lemma zeros_cons w n : in_u 64 n → ∃ b l, zeros w (unsigned n) = b :: l ∧ is_digit b.
Proof.
  intros Hn. destruct (unsigned_spec n Hn) as (Hne & _ & Hd & _). unfold zeros.
  destruct (_ - _)%nat as [|k]; simpl.
  - destruct (unsigned n) as [|b l]; [done|]. apply Forall_cons in Hd as [? _]. by exists b, l.
  - eexists _, _. split; [done|]. by apply digit_is_digit.
Qed.

Lemma in_s_64_magnitude n : in_s 64 n → in_u 64 (Z.abs n).
Proof. unfold in_s, in_u. lia. Qed.

Lemma parse_show_padded w width n : w ≤ 64 → in_s w n → parse_s w (show_padded width n) = Some n.
Proof.
  intros Hw Hn.
  assert (in_s 64 n) as H64.
  { unfold in_s in *. pose proof (Z.pow_le_mono_r 2 (w - 1) (64 - 1)). lia. }
  apply in_s_64_magnitude in H64. unfold show_padded, parse_s.
  destruct (n <? 0) eqn:Hs; zify_bools.
  - rewrite Z.abs_neq in H64 by lia. rewrite bool_decide_eq_true_2 by done.
    rewrite parse_magnitude_zeros by done. simpl. rewrite Z.opp_involutive.
    by rewrite bool_decide_eq_true_2.
  - rewrite Z.abs_eq in H64 by lia. pose proof (parse_magnitude_zeros width n H64) as Hp.
    destruct (zeros_cons width n H64) as (b & l & Heq & Hb). rewrite Heq in *.
    destruct (is_digit_not_sign b Hb). rewrite !bool_decide_eq_false_2 by done.
    rewrite Hp. simpl. by rewrite bool_decide_eq_true_2.
Qed.

Lemma show_unpadded n : show n = show_padded 0 n.
Proof. done. Qed.

Lemma parse_show w n : w ≤ 64 → in_s w n → parse_s w (show n) = Some n.
Proof. rewrite show_unpadded. apply parse_show_padded. Qed.

Lemma parse_u_unsigned n : in_u 64 n → parse_u 64 (unsigned n) = Some n.
Proof.
  intros Hn. pose proof (parse_magnitude_zeros 0 n Hn) as Hp.
  destruct (zeros_cons 0 n Hn) as (b & l & Heq & Hb). change (zeros 0 (unsigned n)) with (unsigned n) in *.
  unfold parse_u. rewrite Heq in *. destruct (is_digit_not_sign b Hb).
  rewrite bool_decide_eq_false_2 by done. rewrite Hp. simpl. by rewrite bool_decide_eq_true_2.
Qed.

(** Numbers are words: not empty and without white space. *)
Definition word (l : list byte) : Prop := l ≠ [] ∧ Forall (fun b => is_space b = false) l.

Lemma unsigned_word n : in_u 64 n → word (unsigned n).
Proof.
  intros (Hne & _ & Hd & _)%unsigned_spec. split; [done|].
  eapply Forall_impl; [done|]. apply is_digit_not_space.
Qed.

Lemma show_word n : in_s 64 n → word (show n).
Proof.
  intros H%in_s_64_magnitude. unfold show. destruct (n <? 0) eqn:Hs; zify_bools.
  - rewrite Z.abs_neq in H by lia. destruct (unsigned_word _ H) as [_ Hw].
    split; [done|]. by constructor.
  - rewrite Z.abs_eq in H by lia. by apply unsigned_word.
Qed.

Lemma words_word cur l rest :
  Forall (fun b => is_space b = false) l → words_from cur (l ++ rest) = words_from (cur ++ l) rest.
Proof.
  intros Hl. revert cur. induction Hl as [|b l Hb _ IH]; intros cur; simpl; [by rewrite app_nil_r|].
  by rewrite Hb, IH, <- app_assoc.
Qed.

Lemma split_two a b : word a → word b → split_whitespace (a ++ space :: b) = [a; b].
Proof.
  intros [Ha Ha'] [Hb Hb']. unfold split_whitespace. rewrite words_word by done. simpl.
  destruct a as [|x a]; [done|]. change (is_space space) with true. cbv iota. f_equal.
  rewrite <- (app_nil_r b) at 1. rewrite words_word by done. simpl. by destruct b.
Qed.

Lemma trim_word l : word l → trim l = l.
Proof.
  assert (∀ l, Forall (fun b => is_space b = false) l → trim_start l = l) as Hs.
  { intros ? [|b l' Hb _]; [done|]. simpl. by rewrite Hb. }
  intros [_ Hl]. unfold trim. rewrite (Hs l) by done.
  rewrite Hs by by apply Forall_reverse. apply reverse_involutive.
Qed.

(** A line that holds no line terminator is read back as it is. *)
Definition line (l : list byte) : Prop := Forall (fun b => b ≠ newline ∧ b ≠ carriage_return) l.

Lemma strip_cr_line l : line l → strip_cr l = l.
Proof.
  intros Hl. unfold strip_cr. destruct (last l) as [b|] eqn:Hb; [|done].
  apply last_Some_elem_of in Hb. unfold line in Hl. rewrite Forall_forall in Hl.
  destruct (Hl b Hb). by rewrite bool_decide_eq_false_2.
Qed.

Lemma lines_from_line cur l rest :
  line l → lines_from cur (l ++ newline :: rest) = strip_cr (cur ++ l) :: lines_from [] rest.
Proof.
  intros Hl. revert cur. induction Hl as [|b l [Hb _] _ IH]; intros cur; simpl.
  - by rewrite app_nil_r.
  - rewrite bool_decide_eq_false_2 by done. by rewrite IH, <- app_assoc.
Qed.

Lemma lines_line l rest : line l → lines (l ++ newline :: rest) = l :: lines rest.
Proof. intros Hl. unfold lines. by rewrite lines_from_line, strip_cr_line. Qed.

Lemma not_space_line l : Forall (fun b => is_space b = false) l → line l.
Proof.
  intros H. eapply Forall_impl; [exact H|]. intros b Hb. split; intros ->; discriminate Hb.
Qed.

Lemma length_zeros w l : (length l ≤ w)%nat → length (zeros w l) = w.
Proof. intros. unfold zeros. rewrite length_app, length_replicate. lia. Qed.

Lemma length_name base : in_s 64 base → length (Name.format_base_offset base) = 20%nat.
Proof.
  intros Hb.
  assert (length (unsigned (Z.abs base)) ≤ 19)%nat as Hl.
  { eapply Nat.le_trans; [apply (digits_length _ 18)|done].
    unfold in_s in Hb. change (10 ^ Z.of_nat 19) with 10000000000000000000. lia. }
  unfold Name.format_base_offset, show_padded. destruct (base <? 0) eqn:Hs; zify_bools.
  - rewrite Z.abs_neq in Hl by lia. cbn [length]. by rewrite length_zeros.
  - rewrite Z.abs_eq in Hl by lia. apply length_zeros. lia.
Qed.

(** A segment's file name gives back its base offset. *)
Lemma parse_log_name base : in_s 64 base → Name.parse_log_filename (Name.log_name base) = Ok base.
Proof.
  intros Hb. unfold Name.parse_log_filename, Name.strip_suffix, Name.log_name.
  rewrite length_app, Nat.add_sub, take_app_length, bool_decide_eq_true_2 by done.
  rewrite length_name by done.
  rewrite bool_decide_eq_true_2 by done. simpl. unfold Name.format_base_offset.
  by rewrite parse_show_padded by (done || lia).
Qed.
