(* ===== verification/LeaderEpoch.v ===== *)
(** * The leader-epoch checkpoint

    Models [crates/log/src/leader_epoch_checkpoint.rs]: the history of leader
    epochs of a partition, the queries replicas use to find where their logs
    diverge (KIP-101, KIP-320), and the text file that keeps the history.  The
    file is replaced by a rename, so it is its last complete text.  I/O errors
    are not modelled. *)

From S2P Require Import Prelude BatchStore LogIndex Segment Decimal.

Record EpochEntry : Type := mkEntry { epoch : Z; start_offset : Z }.
#[global] Instance EpochEntry_eq_dec : EqDecision EpochEntry.
Proof. solve_decision. Defined.

Definition UNDEFINED_EPOCH : Z := -1.
Definition UNDEFINED_OFFSET : Z := -1.

(** [Iterator::max_by_key] keeps the last of equal keys, [min_by_key] the first. *)
Definition max_by {A} (f : A → Z) : list A → option A :=
  foldl (fun best x => match best with
                       | Some b => if f x <? f b then Some b else Some x
                       | None => Some x
                       end) None.
Definition min_by {A} (f : A → Z) : list A → option A :=
  foldl (fun best x => match best with
                       | Some b => if f x <? f b then Some x else Some b
                       | None => Some x
                       end) None.

Module Entries.
Definition latest_epoch (es : list EpochEntry) : option Z := max_by id (epoch <$> es).
Definition end_offset_for_epoch (es : list EpochEntry) (e log_end_offset : Z) : Z :=
  if negb (existsb (fun x => epoch x =? e) es) then UNDEFINED_OFFSET else
  default log_end_offset (min_by id (start_offset <$> filter (fun x => e < epoch x) es)).
Definition epoch_for_offset (es : list EpochEntry) (offset : Z) : option Z :=
  epoch <$> max_by start_offset (filter (fun x => start_offset x ≤ offset) es).
Definition epoch_and_offset_for_entries (es : list EpochEntry) (requested log_end_offset : Z) : Z * Z :=
  if requested =? UNDEFINED_EPOCH then (UNDEFINED_EPOCH, log_end_offset) else
  if bool_decide (latest_epoch es = Some requested) then (requested, log_end_offset) else
  match min_by epoch (filter (fun x => requested < epoch x) es) with
  | None => (UNDEFINED_EPOCH, log_end_offset)
  | Some next =>
      match max_by id (epoch <$> filter (fun x => epoch x ≤ requested) es) with
      | Some f => (f, start_offset next)
      | None => (requested, start_offset next)
      end
  end.
Definition append_to (es : list EpochEntry) (e start : Z) : list EpochEntry * bool :=
  if existsb (fun x => epoch x =? e) es then (es, false) else (es ++ [mkEntry e start], true).
Definition truncate_to (es : list EpochEntry) (end_offset : Z) : list EpochEntry :=
  filter (fun x => start_offset x < end_offset) es.
End Entries.

Module Checkpoint.
(** The entries in memory and the file, [None] while there is none. *)
Record t : Type := mk { entries : list EpochEntry; file : option (list byte) }.

Definition row (e : EpochEntry) : list byte :=
  (show (epoch e) ++ space :: show (start_offset e)) ++ [newline].
Definition text (es : list EpochEntry) : list byte :=
  (digit 0 :: [newline]) ++ (unsigned (Z.of_nat (length es)) ++ [newline]) ++ (es ≫= row).
Definition flush (c : t) : t := mk (entries c) (Some (text (entries c))).

Definition parse_row (l : list byte) : result LogError EpochEntry :=
  let parts := split_whitespace l in
  match head parts ≫= parse_s 32 with
  | None => Err (Corrupt "bad checkpoint row")
  | Some e =>
      match parts !! 1%nat ≫= parse_s 64 with
      | None => Err (Corrupt "bad checkpoint row")
      | Some o => Ok (mkEntry e o)
      end
  end.
Fixpoint parse_rows (ls : list (list byte)) : result LogError (list EpochEntry) :=
  match ls with
  | [] => Ok []
  | l :: ls => e ← parse_row l; es ← parse_rows ls; Ok (e :: es)
  end.
Definition parse (s : list byte) : result LogError (list EpochEntry) :=
  let ls := tail (lines s) in
  let count := default 0 (head ls ≫= fun l => parse_u 64 (trim l)) in
  parse_rows (take (Z.to_nat count) (tail ls)).
Definition open (f : option (list byte)) : result LogError t :=
  match f with
  | Some s => es ← parse s; Ok (mk es f)
  | None => Ok (mk [] None)
  end.

Definition append (c : t) (e start : Z) : t :=
  let '(es, added) := Entries.append_to (entries c) e start in
  if added then flush (mk es (file c)) else mk es (file c).
Definition truncate_from_end (c : t) (end_offset : Z) : t :=
  let es := Entries.truncate_to (entries c) end_offset in
  let c' := mk es (file c) in
  if bool_decide (length es ≠ length (entries c)) then flush c' else c'.
Definition clear (c : t) : t :=
  match entries c with [] => c | _ => flush (mk [] (file c)) end.

Inductive Op : Type :=
| OpAppend (e start : Z)
| OpTruncate (end_offset : Z)
| OpClear.
Definition run (c : t) (op : Op) : t :=
  match op with
  | OpAppend e start => append c e start
  | OpTruncate o => truncate_from_end c o
  | OpClear => clear c
  end.
End Checkpoint.

(** ** Sorted histories *)
Lemma max_by_last {A} (f : A → Z) l : ascending f l → max_by f l = last l.
Proof.
  induction l as [|x l IH] using rev_ind; [done|]. intros Hs.
  unfold max_by in *. rewrite foldl_app, last_snoc, IH by by eapply StronglySorted_app_1_l.
  simpl. destruct (last l) as [y|] eqn:Hy; [|done].
  apply last_Some_elem_of in Hy.
  pose proof (StronglySorted_app_1_elem_of _ _ _ y x Hs Hy ltac:(by apply list_elem_of_singleton)).
  destruct (f x <? f y) eqn:?; zify_bools; [simpl in *; lia|done].
Qed.

Lemma min_by_head {A} (f : A → Z) l : ascending f l → min_by f l = head l.
Proof.
  induction l as [|x l IH] using rev_ind; [done|]. intros Hs.
  unfold min_by in *. rewrite foldl_app, IH by by eapply StronglySorted_app_1_l.
  destruct l as [|y l]; [done|]. simpl.
  pose proof (StronglySorted_app_1_elem_of _ _ _ y x Hs ltac:(by left)
                ltac:(by apply list_elem_of_singleton)).
  destruct (f x <? f y) eqn:?; zify_bools; [simpl in *; lia|done].
Qed.

Lemma ascending_split {A} (f : A → Z) l k :
  ascending f l → ∃ lo hi, l = lo ++ hi ∧ Forall (fun x => f x ≤ k) lo ∧ Forall (fun x => k < f x) hi.
Proof.
  induction 1 as [|x l Hs (lo & hi & -> & Hlo & Hhi) Hx]; [by exists [], []|].
  destruct (decide (f x ≤ k)).
  - exists (x :: lo), hi. split_and!; [done|by constructor|done].
  - exists [], (x :: lo ++ hi). split_and!; [done..|]. constructor; [lia|].
    eapply Forall_impl; [done|]. simpl. intros; lia.
Qed.

(** Epochs and start offsets both increase. *)
Definition history (es : list EpochEntry) : Prop :=
  ascending epoch es ∧ ascending start_offset es.

Lemma history_app lo hi : history (lo ++ hi) → history lo ∧ history hi.
Proof.
  intros [H1 H2]. split; split;
    [by eapply StronglySorted_app_1_l in H1|by eapply StronglySorted_app_1_l in H2|
     by eapply StronglySorted_app_1_r in H1|by eapply StronglySorted_app_1_r in H2].
Qed.

Lemma ascending_fmap {A} (f : A → Z) l : ascending f l → ascending id (f <$> l).
Proof.
  unfold ascending. induction 1; [constructor|]. rewrite fmap_cons. constructor; [done|].
  by rewrite Forall_fmap.
Qed.

Lemma latest_last es : history es → Entries.latest_epoch es = epoch <$> last es.
Proof.
  intros [H _]. unfold Entries.latest_epoch. rewrite max_by_last by by apply ascending_fmap.
  apply fmap_last.
Qed.

Lemma owner_last es i :
  history es →
  Entries.epoch_for_offset es i = epoch <$> last (filter (fun x => start_offset x ≤ i) es).
Proof.
  intros [_ H]. unfold Entries.epoch_for_offset. by rewrite max_by_last by by apply ascending_filter.
Qed.

(** The owner of an offset is one of the entries, and entries that start later
    do not matter. *)
Lemma owner_app_l lo hi i :
  history (lo ++ hi) → Forall (fun x => i < start_offset x) hi →
  Entries.epoch_for_offset (lo ++ hi) i = Entries.epoch_for_offset lo i.
Proof.
  intros Hh Hi. pose proof (history_app _ _ Hh) as [? _]. rewrite !owner_last by done.
  rewrite filter_app, (filter_none _ hi), app_nil_r; [done|].
  eapply Forall_impl; [done|]. simpl. lia.
Qed.

Lemma owner_app_r lo n hi i :
  history (lo ++ n :: hi) → start_offset n ≤ i →
  ∃ x, x ∈ n :: hi ∧ Entries.epoch_for_offset (lo ++ n :: hi) i = Some (epoch x).
Proof.
  intros Hh Hi. rewrite owner_last by done. rewrite filter_app, last_app, filter_cons_True by done.
  destruct (last (n :: _)) as [x|] eqn:Hx; [|by apply last_None in Hx].
  exists x. split; [|done]. apply last_Some_elem_of in Hx.
  apply elem_of_cons in Hx as [->|[_ Hx]%list_elem_of_filter]; [by left|by right].
Qed.

Lemma owner_elem es i e :
  history es → Entries.epoch_for_offset es i = Some e → ∃ x, x ∈ es ∧ epoch x = e.
Proof.
  intros Hh. rewrite owner_last by done. intros (x & Hx & ->)%fmap_Some. exists x.
  by apply last_Some_elem_of, list_elem_of_filter in Hx as [_ ?].
Qed.

(** ** Where logs diverge *)

(** The answer to an epoch, in terms of the entries up to it and above it. *)
Lemma answer_split lo hi r leo :
  history (lo ++ hi) → 0 ≤ r → Forall (fun x => epoch x ≤ r) lo → Forall (fun x => r < epoch x) hi →
  Entries.epoch_and_offset_for_entries (lo ++ hi) r leo =
  (match hi, last lo with
   | [], Some x => if epoch x =? r then r else UNDEFINED_EPOCH
   | [], None => UNDEFINED_EPOCH
   | _, Some x => epoch x
   | _, None => r
   end, match hi with n :: _ => start_offset n | [] => leo end).
Proof.
  intros Hh Hr Hlo Hhi. pose proof (history_app _ _ Hh) as [[Hl _] [Hu _]].
  unfold Entries.epoch_and_offset_for_entries. rewrite latest_last by done.
  unfold UNDEFINED_EPOCH. rewrite (proj2 (Z.eqb_neq _ _)) by lia.
  rewrite !filter_app, (filter_all (fun x => r < epoch x) hi) by done.
  rewrite (filter_all (fun x => epoch x ≤ r) lo) by done.
  rewrite (filter_none _ lo), (filter_none _ hi) by (eapply Forall_impl; [done|]; simpl; lia).
  rewrite app_nil_r, app_nil_l, min_by_head by done.
  rewrite max_by_last, fmap_last by by apply ascending_fmap.
  rewrite last_app. destruct hi as [|n hi]; simpl.
  - destruct (last lo) as [x|]; simpl; [|done].
    destruct (epoch x =? r) eqn:E; zify_bools; [by rewrite bool_decide_eq_true_2 by congruence|].
    by rewrite bool_decide_eq_false_2 by congruence.
  - destruct (last (n :: hi)) as [y|] eqn:Hy; [|by apply last_None in Hy].
    apply last_Some_elem_of in Hy. rewrite Forall_forall in Hhi. specialize (Hhi y Hy).
    rewrite bool_decide_eq_false_2 by (simpl; intros [=]; lia). by destruct (last lo).
Qed.

(** The answer's offset is the first one that a later epoch wrote. *)
Lemma answer_end es r leo :
  history es → 0 ≤ r → ∃ lo hi,
  es = lo ++ hi ∧ Forall (fun x => epoch x ≤ r) lo ∧
  ∀ i, i < leo →
  let o := (Entries.epoch_and_offset_for_entries es r leo).2 in
  (i < o → Entries.epoch_for_offset es i = Entries.epoch_for_offset lo i) ∧
  (o ≤ i → ∃ e, Entries.epoch_for_offset es i = Some e ∧ r < e).
Proof.
  intros Hh Hr. destruct (ascending_split epoch es r (proj1 Hh)) as (lo & hi & -> & Hlo & Hhi).
  exists lo, hi. split_and!; [done..|]. intros i Hi. rewrite answer_split by done. simpl.
  destruct hi as [|n hi].
  - rewrite app_nil_r. split; [done|lia].
  - split; intros Hn.
    + apply owner_app_l; [done|]. apply history_app in Hh as [_ [_ Hs]].
      apply StronglySorted_inv in Hs as [_ Hs]. constructor; [done|].
      eapply Forall_impl; [done|]. simpl. lia.
    + destruct (owner_app_r lo n hi i Hh Hn) as (x & Hx & ->). exists (epoch x). split; [done|].
      rewrite Forall_forall in Hhi. by apply Hhi.
Qed.

(** ** The file *)
Definition entry_ok (e : EpochEntry) : Prop := in_s 32 (epoch e) ∧ in_s 64 (start_offset e).

Lemma in_s_32_64 z : in_s 32 z → in_s 64 z.
Proof. unfold in_s. lia. Qed.

Lemma parse_row_show e :
  entry_ok e → Checkpoint.parse_row (show (epoch e) ++ space :: show (start_offset e)) = Ok e.
Proof.
  intros [He Ho]. unfold Checkpoint.parse_row.
  rewrite split_two by (apply show_word; auto using in_s_32_64). cbn [head lookup list_lookup mbind option_bind].
  rewrite !parse_show by (done || lia). by destruct e.
Qed.

Lemma row_line e : entry_ok e → line (show (epoch e) ++ space :: show (start_offset e)).
Proof.
  intros [He Ho]. apply Forall_app. split; [|constructor; [done|]];
    apply not_space_line, show_word; auto using in_s_32_64.
Qed.

Lemma parse_rows_text es :
  Forall entry_ok es → Checkpoint.parse_rows (take (length es) (lines (es ≫= Checkpoint.row))) = Ok es.
Proof.
  induction 1 as [|e es He _ IH]; [done|]. rewrite bind_cons. unfold Checkpoint.row at 1.
  rewrite <- app_assoc. cbn [app]. rewrite lines_line by by apply row_line. cbn [length take Checkpoint.parse_rows].
  rewrite parse_row_show by done. cbn [mbind result_bind]. by rewrite IH.
Qed.

Lemma parse_text es :
  Forall entry_ok es → Z.of_nat (length es) < 2 ^ 64 → Checkpoint.parse (Checkpoint.text es) = Ok es.
Proof.
  intros He Hl. assert (in_u 64 (Z.of_nat (length es))) as Hn by (unfold in_u; lia).
  unfold Checkpoint.parse, Checkpoint.text.
  change ((digit 0 :: [newline]) ++ ?l) with ([digit 0] ++ newline :: l). rewrite (lines_line [digit 0]); [|by repeat constructor].
  rewrite <- app_assoc. cbn [app].
  rewrite lines_line by by apply not_space_line, unsigned_word.
  cbn [tail head mbind option_bind]. rewrite trim_word by by apply unsigned_word.
  rewrite parse_u_unsigned by done.
  cbn [from_option id]. rewrite Nat2Z.id. by apply parse_rows_text.
Qed.

Lemma parse_s_range w l n : parse_s w l = Some n → in_s w n.
Proof. unfold parse_s. intros (m & _ & H)%bind_Some. by case_bool_decide; simplify_eq. Qed.

Lemma parse_rows_ok ls es : Checkpoint.parse_rows ls = Ok es → Forall entry_ok es.
Proof.
  revert es. induction ls as [|l ls IH]; intros es H; simpl in H; inv_ok; [constructor|].
  constructor; [|by apply IH]. unfold Checkpoint.parse_row in *.
  destruct (head _ ≫= _) as [e|] eqn:He; [|done].
  destruct (_ !! _ ≫= _) as [o|] eqn:Ho; [|done]. inv_ok.
  apply bind_Some in He as (? & _ & ?), Ho as (? & _ & ?).
  split; simpl; by eapply parse_s_range.
Qed.

Definition op_ok (op : Checkpoint.Op) : Prop :=
  match op with Checkpoint.OpAppend e start => in_s 32 e ∧ in_s 64 start | _ => True end.

(** The file reads back as the entries. *)
Definition persisted (c : Checkpoint.t) : Prop :=
  Forall entry_ok (Checkpoint.entries c) ∧ Checkpoint.open (Checkpoint.file c) = Ok c.

Lemma flush_persisted c :
  Forall entry_ok (Checkpoint.entries c) → Z.of_nat (length (Checkpoint.entries c)) < 2 ^ 64 →
  persisted (Checkpoint.flush c).
Proof. intros He Hl. split; [done|]. unfold Checkpoint.flush. simpl. by rewrite parse_text. Qed.

Lemma run_persisted c op :
  persisted c → op_ok op → Z.of_nat (length (Checkpoint.entries c)) + 1 < 2 ^ 64 →
  persisted (Checkpoint.run c op) ∧
  (length (Checkpoint.entries (Checkpoint.run c op)) ≤ length (Checkpoint.entries c) + 1)%nat.
Proof.
  intros [He Hf] Hop Hl. destruct op as [e start|o|]; simpl.
  - unfold Checkpoint.append, Entries.append_to. destruct (existsb _ _).
    + split; [by destruct c|simpl; lia].
    + split; [|simpl; rewrite length_app; simpl; lia].
      apply flush_persisted; simpl; [|rewrite length_app; simpl; lia].
      apply Forall_app. split; [done|]. apply Forall_singleton, Hop.
  - unfold Checkpoint.truncate_from_end, Entries.truncate_to.
    pose proof (length_filter (fun x => start_offset x < o) (Checkpoint.entries c)).
    case_bool_decide as Hne; (split; [|simpl; lia]).
    + apply flush_persisted; simpl; [by apply Forall_filter|lia].
    + apply filter_length_id in Hne as ->. by destruct c.
  - unfold Checkpoint.clear. destruct (Checkpoint.entries c) eqn:E.
    { rewrite E. split; [|lia]. by split; [rewrite E|]. }
    split; [|simpl; lia]. apply flush_persisted; [by constructor|done].
Qed.

(** The leader-epoch checkpoint survives a restart: from a checkpoint that
    was opened from any file, or from none, after any sequence of appends,
    truncations and clears the file reads back as exactly the entries in
    memory.  The row count must fit the [usize] it is parsed as. *)
Theorem checkpoint_reopens f c0 ops :
  Checkpoint.open f = Ok c0 → Forall op_ok ops →
  Z.of_nat (length (Checkpoint.entries c0) + length ops) < 2 ^ 64 →
  let c := foldl Checkpoint.run c0 ops in Checkpoint.open (Checkpoint.file c) = Ok c.
Proof.
  intros Hopen Hops Hlen.
  assert (persisted c0) as H0.
  { unfold Checkpoint.open in Hopen. destruct f as [s|]; inv_ok; [|by split].
    split; [by eapply parse_rows_ok|]. simpl.
    match goal with H : Checkpoint.parse _ = _ |- _ => by rewrite H end. }
  clear Hopen f. simpl. revert c0 H0 Hlen. induction Hops as [|op ops Hop _ IH]; intros c0 H0 Hlen.
  - apply H0.
  - simpl in *. destruct (run_persisted c0 op H0 Hop ltac:(lia)) as [Hp Hl]. apply IH; [done|lia].
Qed.

Lemma checkpoint_reopens_witness :
  let c := foldl Checkpoint.run (Checkpoint.mk [] None)
             [Checkpoint.OpAppend 0 0; Checkpoint.OpAppend 3 17; Checkpoint.OpAppend 4 20;
              Checkpoint.OpTruncate 18; Checkpoint.OpAppend (-7) (-2)] in
  Checkpoint.entries c = [mkEntry 0 0; mkEntry 3 17; mkEntry (-7) (-2)] ∧
  Checkpoint.open (Checkpoint.file c) = Ok c.
Proof.
  split; [by vm_compute|]. apply (checkpoint_reopens None); [done| |done].
  repeat constructor; done.
Defined.
