(* ===== verification/ProducerSnapshot.v ===== *)
(** * Producer-state snapshots

    Models [crates/log/src/producer_snapshot.rs]: the binary [.snapshot] files
    that keep what a log knows of its idempotent and transactional producers at
    a segment boundary, and [increment_sequence] of
    [crates/protocol/src/records/mod.rs].  The snapshot files of a log are a map
    from offsets to contents.  The checksum crate is a parameter. *)

From S2P Require Import Prelude Wire Records Batches BatchStore LogIndex Segment.
Import Fixed.

(** [wrapping_add] then the mask of the sign bit. *)
Definition increment_sequence (sequence increment : Z) : Z :=
  Z.land (wrap_s 32 (sequence + increment)) (2 ^ 31 - 1).
Definition decrement_sequence (sequence decrement : Z) : Z :=
  Z.land (wrap_s 32 (sequence - decrement)) (2 ^ 31 - 1).

Record ProducerSnapshotEntry : Type := mkProducer {
  producer_id : Z;
  producer_epoch : Z;
  last_sequence : Z;
  p_last_offset : Z;
  offset_delta : Z;
  timestamp : Z;
  coordinator_epoch : Z;
  current_txn_first_offset : option Z;
}.
Definition empty_entry (pid epoch : Z) : ProducerSnapshotEntry :=
  mkProducer pid epoch (-1) (-1) 0 (-1) (-1) None.
Abbreviation SnapshotState := (gmap Z ProducerSnapshotEntry).

Definition VERSION : Z := 1.
Definition HEADER_LEN : nat := 6.
Definition ENTRY_LEN : nat := 46.

(** ** The codec *)
Definition pid_le (a b : ProducerSnapshotEntry) : Prop := producer_id a ≤ producer_id b.
#[global] Instance pid_le_dec a b : Decision (pid_le a b).
Proof. unfold pid_le. apply _. Defined.
Definition sorted_entries (m : SnapshotState) : list ProducerSnapshotEntry :=
  merge_sort pid_le (map_to_list m).*2.
Definition put_entry (e : ProducerSnapshotEntry) : list byte :=
  put_i64 (producer_id e) ++ put_i16 (producer_epoch e) ++ put_i32 (last_sequence e) ++
  put_i64 (p_last_offset e) ++ put_i32 (offset_delta e) ++ put_i64 (timestamp e) ++
  put_i32 (coordinator_epoch e) ++ put_i64 (default (-1) (current_txn_first_offset e)).

Section Codec.
Context (crc32c : list byte → Z).

Definition encode (m : SnapshotState) : result LogError (list byte) :=
  if bool_decide (2 ^ 31 ≤ Z.of_nat (size m)) then Err (InvalidArgument "too many producer snapshot entries")
  else
    let body := put_i32 (Z.of_nat (size m)) ++ (sorted_entries m ≫= put_entry) in
    Ok (put_i16 VERSION ++ put_u32 (crc32c body) ++ body).

Definition entry_at (l : list byte) : ProducerSnapshotEntry :=
  let txn := Header.signed_at 38 8 l in
  mkProducer (Header.signed_at 0 8 l) (Header.signed_at 8 2 l) (Header.signed_at 10 4 l)
    (Header.signed_at 14 8 l) (Header.signed_at 22 4 l) (Header.signed_at 26 8 l)
    (Header.signed_at 34 4 l) (if 0 <=? txn then Some txn else None).
Definition invalid (l : list byte) : bool :=
  let e := entry_at l in
  (producer_id e <? 0) || (producer_epoch e <? 0) || (offset_delta e <? 0) ||
  (Header.signed_at 38 8 l <? -1) ||
  ((p_last_offset e <? 0) && (0 <=? last_sequence e)) ||
  ((0 <=? p_last_offset e) && ((last_sequence e <? 0) || (p_last_offset e <? offset_delta e))).
Fixpoint read_entries (count : nat) (l : list byte) (m : SnapshotState) : result LogError SnapshotState :=
  match count with
  | O => Ok m
  | S count =>
      let e := entry_at l in
      if invalid l then Err (Corrupt "entry contains an invalid producer state") else
      match m !! producer_id e with
      | Some _ => Err (Corrupt "duplicate producer id")
      | None => read_entries count (drop ENTRY_LEN l) (<[producer_id e := e]> m)
      end
  end.
Definition read (bytes : list byte) : result LogError SnapshotState :=
  if bool_decide (length bytes < HEADER_LEN + 4)%nat
  then Err (Corrupt "file is shorter than the snapshot header") else
  if negb (Header.signed_at 0 2 bytes =? VERSION) then Err (Corrupt "unsupported version") else
  if negb (be_value (Header.slice 2 4 bytes) =? crc32c (drop HEADER_LEN bytes))
  then Err (Corrupt "CRC32C mismatch") else
  let count := Header.signed_at 6 4 bytes in
  if count <? 0 then Err (Corrupt "negative entry count") else
  if negb (bool_decide (length bytes = HEADER_LEN + 4 + Z.to_nat count * ENTRY_LEN)%nat)
  then Err (Corrupt "entry count does not match file length") else
  read_entries (Z.to_nat count) (drop (HEADER_LEN + 4) bytes) ∅.

(** ** The files *)
Abbreviation Snapshots := (gmap Z (list byte)).

(** Newest first: snapshots past [end_] and corrupt ones are removed. *)
Fixpoint latest_from (offsets : list Z) (dir : Snapshots) (end_ : Z) :
    Snapshots * option (Z * SnapshotState) :=
  match offsets with
  | [] => (dir, None)
  | o :: os =>
      if end_ <? o then latest_from os (delete o dir) end_ else
      match dir !! o with
      | None => latest_from os dir end_
      | Some bytes =>
          match read bytes with
          | Ok m => (dir, Some (o, m))
          | Err _ => latest_from os (delete o dir) end_
          end
      end
  end.
Definition latest_at_or_before (dir : Snapshots) (end_ : Z) : Snapshots * option (Z * SnapshotState) :=
  latest_from (reverse (entries dir).*1) dir end_.
Definition remove_after (dir : Snapshots) (offset : Z) : Snapshots := filter (fun p => p.1 ≤ offset) dir.
(** A snapshot that exists is kept as it is. *)
Definition write (dir : Snapshots) (offset : Z) (m : SnapshotState) : result LogError Snapshots :=
  match dir !! offset with
  | Some _ => Ok dir
  | None => bytes ← encode m; Ok (<[offset := bytes]> dir)
  end.
End Codec.

(** ** Round trip *)
Record entry_ok (e : ProducerSnapshotEntry) : Prop := {
  ok_pid : 0 ≤ producer_id e < 2 ^ 63;
  ok_epoch : 0 ≤ producer_epoch e < 2 ^ 15;
  ok_delta : 0 ≤ offset_delta e < 2 ^ 31;
  ok_timestamp : in_s 64 (timestamp e);
  ok_coordinator : in_s 32 (coordinator_epoch e);
  ok_txn o : current_txn_first_offset e = Some o → 0 ≤ o < 2 ^ 63;
  ok_last : (p_last_offset e = -1 ∧ last_sequence e = -1) ∨
            (offset_delta e ≤ p_last_offset e < 2 ^ 63 ∧ 0 ≤ last_sequence e < 2 ^ 31);
}.
(** Every producer under its own id. *)
Definition state_ok (m : SnapshotState) : Prop :=
  map_Forall (fun pid e => producer_id e = pid ∧ entry_ok e) m.

Lemma length_put_entry e : length (put_entry e) = ENTRY_LEN.
Proof. unfold put_entry. by autorewrite with wire. Qed.

Ltac read_field :=
  repeat rewrite signed_at_skip by (autorewrite with wire; lia); autorewrite with wire;
  apply signed_at_here; [lia|].

Lemma put_entry_fields e rest :
  entry_ok e → let l := put_entry e ++ rest in
  Header.signed_at 0 8 l = producer_id e ∧ Header.signed_at 8 2 l = producer_epoch e ∧
  Header.signed_at 10 4 l = last_sequence e ∧ Header.signed_at 14 8 l = p_last_offset e ∧
  Header.signed_at 22 4 l = offset_delta e ∧ Header.signed_at 26 8 l = timestamp e ∧
  Header.signed_at 34 4 l = coordinator_epoch e ∧
  Header.signed_at 38 8 l = default (-1) (current_txn_first_offset e).
Proof.
  intros H. assert (in_s 64 (default (-1) (current_txn_first_offset e))) as Htx.
  { destruct (current_txn_first_offset e) as [o|] eqn:E; simpl; [pose proof (ok_txn e H o E)|]; unfold in_s; lia. }
  destruct H as [H1 H2 H3 H4 H5 _ H7].
  assert (in_s 64 (producer_id e) ∧ in_s 16 (producer_epoch e) ∧ in_s 32 (last_sequence e) ∧
          in_s 64 (p_last_offset e) ∧ in_s 32 (offset_delta e)) as (?&?&?&?&?) by (unfold in_s; lia).
  clear H1 H2 H3 H7. unfold put_entry. rewrite <- !app_assoc. split_and!; by read_field.
Qed.

Lemma entry_at_put e rest : entry_ok e → entry_at (put_entry e ++ rest) = e ∧ invalid (put_entry e ++ rest) = false.
Proof.
  intros H. destruct (put_entry_fields e rest H) as (F1 & F2 & F3 & F4 & F5 & F6 & F7 & F8).
  destruct H as [H1 H2 H3 H4 H5 H6 H7].
  assert (-1 ≤ default (-1) (current_txn_first_offset e)).
  { destruct (current_txn_first_offset e) as [o|] eqn:E; simpl; [pose proof (H6 o eq_refl)|]; lia. }
  assert (entry_at (put_entry e ++ rest) = e) as He.
  { unfold entry_at. rewrite F1, F2, F3, F4, F5, F6, F7, F8. clear F1 F2 F3 F4 F5 F6 F7 F8.
    destruct e as [pid ep seq off d ts ce [o|]]; [|reflexivity].
    pose proof (H6 o eq_refl). cbn -[Z.leb]. by rewrite (proj2 (Z.leb_le 0 o)) by lia. }
  split; [exact He|]. unfold invalid. rewrite He, F8. clear He F1 F2 F3 F4 F5 F6 F7 F8.
  rewrite !orb_false_iff, !andb_false_iff, !orb_false_iff, !Z.ltb_ge, !Z.leb_gt. lia.
Qed.

Abbreviation load := (foldl (fun (m : SnapshotState) e => <[producer_id e := e]> m)).

Lemma load_lookup l m k e :
  NoDup (producer_id <$> l) → (∀ x, x ∈ l → m !! producer_id x = None) →
  load m l !! k = Some e ↔ (e ∈ l ∧ producer_id e = k) ∨ m !! k = Some e.
Proof.
  revert m. induction l as [|x l IH]; intros m Hn Hm; [set_solver|].
  apply NoDup_cons in Hn as [Hx Hn]. cbn [foldl]. rewrite IH.
  - rewrite lookup_insert_Some. specialize (Hm x ltac:(by left)). set_solver.
  - done.
  - intros y Hy. rewrite lookup_insert_ne; [apply Hm; by right|]. intros Heq. apply Hx. rewrite Heq. set_solver.
Qed.

Lemma read_entries_put l m :
  Forall entry_ok l → NoDup (producer_id <$> l) → (∀ x, x ∈ l → m !! producer_id x = None) →
  read_entries (length l) (l ≫= put_entry) m = Ok (load m l).
Proof.
  intros Hl. revert m. induction Hl as [|x l Hx _ IH]; intros m Hn Hm; [done|].
  apply NoDup_cons in Hn as [Hx' Hn]. rewrite bind_cons. cbn [length read_entries foldl].
  destruct (entry_at_put x (l ≫= put_entry) Hx) as [-> ->].
  rewrite (Hm x) by by left. rewrite drop_app_length' by by rewrite length_put_entry.
  apply IH; [done|]. intros y Hy. rewrite lookup_insert_ne; [apply Hm; by right|].
  intros Heq. apply Hx'. rewrite Heq. set_solver.
Qed.

Section State.
Context (m : SnapshotState) (Hm : state_ok m).

Lemma sorted_perm : sorted_entries m ≡ₚ (map_to_list m).*2.
Proof. apply merge_sort_Permutation. Qed.

Lemma sorted_elem e : e ∈ sorted_entries m ↔ m !! producer_id e = Some e.
Proof.
  rewrite sorted_perm, list_elem_of_fmap. split.
  - intros ([k x] & -> & Hk%elem_of_map_to_list). simpl. destruct (Hm k x Hk) as [Hp _]. by rewrite Hp.
  - intros He. exists (producer_id e, e). by rewrite elem_of_map_to_list.
Qed.

Lemma sorted_nodup : NoDup (producer_id <$> sorted_entries m).
Proof.
  rewrite sorted_perm, <- list_fmap_compose.
  rewrite (list_fmap_ext _ fst); [apply NoDup_fst_map_to_list|].
  intros i [k e] Hi%list_elem_of_lookup_2%elem_of_map_to_list. apply (Hm k e Hi).
Qed.

Lemma load_sorted : load ∅ (sorted_entries m) = m.
Proof.
  apply map_eq. intros k. apply option_eq. intros e.
  rewrite load_lookup; [|apply sorted_nodup|intros; apply lookup_empty].
  rewrite sorted_elem, lookup_empty. split; [intros [[? <-]|?]; done|].
  intros He. destruct (Hm k e He) as [<- _]. by left.
Qed.

Lemma sorted_length : length (sorted_entries m) = size m.
Proof. rewrite sorted_perm, length_fmap. apply length_map_to_list. Qed.

Lemma sorted_ok : Forall entry_ok (sorted_entries m).
Proof. apply Forall_forall. intros e He%sorted_elem. by destruct (Hm _ _ He). Qed.
End State.

(** Producer state survives a snapshot: what [encode] writes for any valid
    state of fewer than 2^31 producers is read back as that state, with any
    checksum of 32 bits. *)
Theorem snapshot_roundtrip crc32c m bytes :
  (∀ l, in_u 32 (crc32c l)) → state_ok m → encode crc32c m = Ok bytes → read crc32c bytes = Ok m.
Proof.
  intros Hcrc Hm He. unfold encode in He. case_bool_decide as Hs; [done|]. inv_ok.
  set (body := put_i32 (Z.of_nat (size m)) ++ (sorted_entries m ≫= put_entry)).
  assert (length (sorted_entries m ≫= put_entry) = size m * ENTRY_LEN)%nat as Hlen.
  { rewrite <- sorted_length by done. induction (sorted_entries m) as [|e l IH]; [done|].
    rewrite bind_cons, length_app, IH, length_put_entry. simpl. lia. }
  assert (length body = 4 + size m * ENTRY_LEN)%nat as Hb
    by (unfold body; rewrite length_app, length_put_i32; lia).
  assert (Header.signed_at 0 2 (put_i16 VERSION ++ put_u32 (crc32c body) ++ body) = VERSION) as Hv
    by (apply signed_at_here; [lia|done]).
  assert (Header.slice 2 4 (put_i16 VERSION ++ put_u32 (crc32c body) ++ body) = put_u32 (crc32c body)) as Hc.
  { rewrite slice_skip by by rewrite length_put_i16. rewrite length_put_i16. by apply slice_here. }
  assert (drop 6 (put_i16 VERSION ++ put_u32 (crc32c body) ++ body) = body) as Hd.
  { rewrite app_assoc. apply drop_app_length'. rewrite length_app. done. }
  assert (Header.signed_at 6 4 (put_i16 VERSION ++ put_u32 (crc32c body) ++ body) = Z.of_nat (size m)) as Hn.
  { rewrite !signed_at_skip by (autorewrite with wire; lia). autorewrite with wire. unfold body.
    apply signed_at_here; [lia|]. unfold in_s. simpl. lia. }
  unfold read, HEADER_LEN. rewrite Hv, Hc, Hd, Hn, Z.eqb_refl, Nat2Z.id.
  replace (length (put_i16 VERSION ++ put_u32 (crc32c body) ++ body)) with (6 + length body)%nat
    by (rewrite !length_app; autorewrite with wire; lia).
  unfold put_u32. rewrite be_value_bytes, (wrap_u_id 32) by apply Hcrc. rewrite Z.eqb_refl.
  rewrite bool_decide_eq_false_2 by lia. rewrite bool_decide_eq_true_2 by lia.
  rewrite (proj2 (Z.ltb_ge _ _)) by lia. cbn [negb].
  rewrite <- drop_drop. change (be_bytes 4 (crc32c body)) with (put_u32 (crc32c body)). rewrite Hd. unfold body. rewrite drop_app_length' by by rewrite length_put_i32.
  rewrite <- (sorted_length m), read_entries_put; [|by apply sorted_ok|by apply sorted_nodup|intros; apply lookup_empty].
  by rewrite load_sorted.
Qed.

Definition sample_state : SnapshotState :=
  {[5 := mkProducer 5 0 9 12 3 1000 (-1) None; 2 := mkProducer 2 1 (-1) (-1) 0 77 4 (Some 0)]}.

Lemma snapshot_roundtrip_witness :
  match encode toy_crc sample_state with
  | Ok bytes => read toy_crc bytes = Ok sample_state
  | Err _ => False
  end.
Proof.
  destruct (encode toy_crc sample_state) as [bytes|e] eqn:E; [|by vm_compute in E].
  apply (snapshot_roundtrip toy_crc sample_state bytes); [|intros k x Hk|exact E].
  - intros l. apply wrap_u_range. lia.
  - unfold sample_state in Hk. apply lookup_insert_Some in Hk as [[<- <-]|[_ [<- <-]%lookup_singleton_Some]];
      (split; [done|]; split; simpl; try (unfold in_s; lia); intros; simplify_eq; lia).
Defined.
