(* ===== verification/StampIndex.v ===== *)
(** * The stamp index

    Models [crates/log/src/stamp_index.rs]: the [.stampindex] sidecar of a
    segment, which maps offset ranges to internal stamps, and the interface
    through which a log draws stamps, [crates/log/src/stamp_source.rs]. *)

From S2P Require Import Prelude Wire BatchStore LogIndex Segment.
Import Fixed.

(** ** Stamp sources: a shared object with interior state *)
Class StampSource : Type := {
  source_state : Type;
  next_stamp : source_state → Z * source_state;
  observe : source_state → Z → source_state;
}.

Module StampIndex.
Definition ENTRY_BYTES : nat := 24.
Record StampEntry : Type := mkStamp {
  base_offset : Z;
  last_offset : Z;
  stamp : Z;
}.
#[global] Instance StampEntry_eq_dec : EqDecision StampEntry.
Proof. solve_decision. Defined.
Record t : Type := mk { file : option (list byte); entries : list StampEntry }.

Definition raw (e : StampEntry) : list byte :=
  put_i64 (base_offset e) ++ put_i64 (last_offset e) ++ be_bytes 8 (stamp e).
Definition of_raw (l : list byte) : StampEntry :=
  mkStamp (wrap_s 64 (be_value (take 8 l))) (wrap_s 64 (be_value (take 8 (drop 8 l))))
    (be_value (take 8 (drop 16 l))).

Definition open (f : option (list byte)) : result LogError t :=
  match f with
  | None => Ok (mk None [])
  | Some bytes =>
      if negb (length bytes mod ENTRY_BYTES =? 0)%nat then Err (Corrupt "stampindex")
      else Ok (mk f (parse_rows ENTRY_BYTES of_raw bytes))
  end.
Definition rewrite (es : list StampEntry) : t := mk (Some (concat (raw <$> es))) es.

Definition overlaps (a b : StampEntry) : Prop :=
  base_offset a ≤ last_offset b ∧ base_offset b ≤ last_offset a.
#[global] Instance overlaps_dec a b : Decision (overlaps a b).
Proof. unfold overlaps. apply _. Defined.
Definition same_range (a b : StampEntry) : Prop :=
  base_offset a = base_offset b ∧ last_offset a = last_offset b.
#[global] Instance same_range_dec a b : Decision (same_range a b).
Proof. unfold same_range. apply _. Defined.

Definition append (ix : t) (e : StampEntry) : result LogError t :=
  if last_offset e <? base_offset e then Err (InvalidArgument "stamp range is inverted") else
  match list_find (fun x => overlaps x e) (entries ix) with
  | Some (_, x) => if bool_decide (x = e) then Ok ix else Err (Corrupt "stamp range overlaps")
  | None => Ok (mk (Some (default [] (file ix) ++ raw e)) (entries ix ++ [e]))
  end.
Definition upsert (ix : t) (e : StampEntry) : result LogError t :=
  match list_find (fun x => same_range x e) (entries ix) with
  | Some (i, x) => if bool_decide (x = e) then Ok ix else Ok (rewrite (<[i := e]> (entries ix)))
  | None => append ix e
  end.
(** Keep some entries, rewriting the file only when one went. *)
Definition retain (P : StampEntry → Prop) `{∀ x, Decision (P x)} (ix : t) : t :=
  let es := filter P (entries ix) in
  if bool_decide (length es = length (entries ix)) then ix else rewrite es.
Definition truncate_from (ix : t) (offset : Z) : t := retain (fun e => last_offset e < offset) ix.
Definition remove_ranges (ix : t) (ranges : list (Z * Z)) : t :=
  retain (fun e => (base_offset e, last_offset e) ∉ ranges) ix.
Definition stamp_for_offset (ix : t) (offset : Z) : option Z :=
  (fun p => stamp p.2) <$> list_find (fun e => base_offset e ≤ offset ≤ last_offset e) (entries ix).

Inductive Op : Type :=
| OpAppend (e : StampEntry)
| OpUpsert (e : StampEntry)
| OpTruncate (offset : Z)
| OpRemove (ranges : list (Z * Z)).
Definition run (ix : t) (op : Op) : t :=
  match op with
  | OpAppend e => match append ix e with Ok ix' => ix' | Err _ => ix end
  | OpUpsert e => match upsert ix e with Ok ix' => ix' | Err _ => ix end
  | OpTruncate o => truncate_from ix o
  | OpRemove rs => remove_ranges ix rs
  end.
End StampIndex.
Import StampIndex.

(** ** Facts *)
Definition entry_ok (e : StampEntry) : Prop :=
  in_s 64 (base_offset e) ∧ in_s 64 (last_offset e) ∧ in_u 64 (stamp e) ∧ base_offset e ≤ last_offset e.

Lemma length_raw e : length (raw e) = ENTRY_BYTES.
Proof. unfold raw. rewrite !length_app, length_be_bytes. by autorewrite with wire. Qed.

Lemma of_raw_raw e : entry_ok e → of_raw (raw e) = e.
Proof.
  intros (H1 & H2 & H3 & _). unfold of_raw, raw.
  rewrite take_app_length' by by autorewrite with wire.
  rewrite drop_app_length' by by autorewrite with wire.
  rewrite take_app_length' by by autorewrite with wire.
  rewrite app_assoc, drop_app_length' by by autorewrite with wire.
  rewrite take_ge by by rewrite length_be_bytes.
  unfold put_i64. rewrite !be_value_bytes. destruct e. simpl in *. f_equal;
    [by apply wrap_s_wrap_u|by apply wrap_s_wrap_u|by apply wrap_u_id].
Qed.

(** Ranges are in range and apart, and the file reads back as the entries. *)
Definition range (e : StampEntry) : Z * Z := (base_offset e, last_offset e).
Definition apart (es : list StampEntry) : Prop :=
  StronglySorted (fun a b : Z * Z => a.2 < b.1 ∨ b.2 < a.1) (range <$> es).
Record coherent (ix : t) : Prop := {
  co_entries : Forall entry_ok (entries ix);
  co_apart : apart (entries ix);
  co_file : default [] (file ix) = concat (raw <$> entries ix);
}.

Lemma coherent_open ix : coherent ix → ∃ ix', open (file ix) = Ok ix' ∧ entries ix' = entries ix.
Proof.
  intros [He _ Hf]. unfold open. destruct (file ix) as [bytes|]; simpl in Hf.
  - subst bytes. unfold ENTRY_BYTES.
    rewrite (length_rows 24 raw ltac:(lia) length_raw), Nat.Div0.mod_mul. cbn [Nat.eqb negb].
    eexists. split; [done|]. simpl. rewrite <- (app_nil_r (concat _)).
    apply (parse_rows_concat 24 of_raw raw); [lia|apply length_raw| |simpl; lia].
    eapply Forall_impl; [done|]. apply of_raw_raw.
  - exists (mk None []). split; [done|]. simpl. destruct (entries ix) as [|e l]; [done|].
    exfalso. apply (f_equal length) in Hf. rewrite fmap_cons in Hf. cbn [concat] in Hf.
    rewrite length_app, length_raw in Hf. done.
Qed.

Lemma apart_filter (P : StampEntry → Prop) `{∀ x, Decision (P x)} es : apart es → apart (filter P es).
Proof.
  unfold apart. induction es as [|e es IH]; [done|]. rewrite fmap_cons.
  intros [Hs He]%StronglySorted_inv. rewrite filter_cons. destruct (decide (P e)); [|by apply IH].
  rewrite fmap_cons. constructor; [by apply IH|]. rewrite Forall_fmap in *. by apply Forall_filter.
Qed.

Lemma coherent_retain (P : StampEntry → Prop) `{∀ x, Decision (P x)} ix :
  coherent ix → coherent (retain P ix).
Proof.
  intros Hc. unfold retain. case_bool_decide; [done|]. destruct Hc as [He Ha _].
  split; [by apply Forall_filter|by apply apart_filter|done].
Qed.

Lemma coherent_append ix e ix' :
  coherent ix → entry_ok e → append ix e = Ok ix' → coherent ix'.
Proof.
  intros Hc He Ha. unfold append in Ha. case_match eqn:Hi; [done|].
  destruct (list_find _ _) as [[i x]|] eqn:Hf.
  { case_bool_decide; [by inv_ok|done]. }
  inv_ok. apply list_find_None in Hf. destruct Hc as [H1 H2 H3]. split; simpl.
  - apply Forall_app. split; [done|]. by apply Forall_singleton.
  - unfold apart. rewrite fmap_app. apply StronglySorted_app_2; [|done|repeat constructor].
    intros r1 r2 (x & -> & Hx)%list_elem_of_fmap (y & -> & ->%list_elem_of_singleton)%list_elem_of_fmap.
    rewrite Forall_forall in Hf. specialize (Hf x Hx). unfold overlaps in Hf. simpl.
    destruct (decide (last_offset x < base_offset e)); [by left|]. right. lia.
  - by rewrite fmap_app, concat_app, H3.
Qed.

Lemma range_insert (es : list StampEntry) i x e : es !! i = Some x → same_range x e → range <$> <[i := e]> es = range <$> es.
Proof.
  intros Hx [Hb Hl]. rewrite list_fmap_insert. apply list_insert_id.
  rewrite list_lookup_fmap, Hx. simpl. unfold range. by rewrite Hb, Hl.
Qed.

Lemma coherent_upsert ix e ix' :
  coherent ix → entry_ok e → upsert ix e = Ok ix' → coherent ix'.
Proof.
  intros Hc He Hu. unfold upsert in Hu. destruct (list_find _ _) as [[i x]|] eqn:Hf.
  - apply list_find_Some in Hf as (Hi & Hr & _). case_bool_decide; [by inv_ok|]. inv_ok.
    destruct Hc as [H1 H2 _]. split; [by apply Forall_insert|simpl|done].
    unfold apart. by rewrite (range_insert _ _ x).
  - by eapply coherent_append.
Qed.

Definition op_ok (op : Op) : Prop :=
  match op with OpAppend e | OpUpsert e => entry_ok e | _ => True end.

Lemma coherent_run ix op : coherent ix → op_ok op → coherent (run ix op).
Proof.
  intros Hc Ho. destruct op as [e|e|o|rs]; simpl; [| |by apply coherent_retain..].
  - destruct (append ix e) eqn:E; [|done]. by eapply coherent_append.
  - destruct (upsert ix e) eqn:E; [|done]. by eapply coherent_upsert.
Qed.

(** An offset has at most one range. *)
Lemma stamp_unique ix e o :
  coherent ix → e ∈ entries ix → base_offset e ≤ o ≤ last_offset e → stamp_for_offset ix o = Some (stamp e).
Proof.
  intros [_ Ha _] He Ho. unfold stamp_for_offset.
  destruct (list_find _ (entries ix)) as [[i x]|] eqn:Hf.
  2: { apply list_find_None in Hf. rewrite Forall_forall in Hf. by specialize (Hf e He Ho). }
  apply list_find_Some in Hf as (Hi & Hx & _). simpl. do 2 f_equal.
  apply list_elem_of_lookup_1 in He as [j Hj]. destruct (decide (i = j)) as [->|Hne]; [congruence|].
  exfalso. destruct (decide (i < j)%nat) as [Hlt|Hge].
  - pose proof (sorted_lookup _ _ i j (range x) (range e) Ha) as H.
    rewrite !list_lookup_fmap, Hi, Hj in H. specialize (H eq_refl eq_refl Hlt). unfold range in H. simpl in H. lia.
  - pose proof (sorted_lookup _ _ j i (range e) (range x) Ha) as H.
    rewrite !list_lookup_fmap, Hi, Hj in H. specialize (H eq_refl eq_refl ltac:(lia)). unfold range in H. simpl in H. lia.
Qed.

(** A stamp index stays unambiguous and durable: after any sequence of
    appends, upserts, truncations and removals, refused ones included, every
    entry is what a lookup of any of its offsets finds, and reopening the file
    gives back the same entries. *)
Theorem stamps_durable ops e o :
  Forall op_ok ops →
  let ix := foldl run (mk None []) ops in
  (e ∈ entries ix → base_offset e ≤ o ≤ last_offset e → stamp_for_offset ix o = Some (stamp e)) ∧
  ∃ ix', open (file ix) = Ok ix' ∧ entries ix' = entries ix.
Proof.
  intros Ho. assert (coherent (foldl run (mk None []) ops)) as Hc.
  { assert (coherent (mk None [])) as H0 by (split; [constructor..|done]).
    revert H0. generalize (mk None []). induction Ho as [|op ops Hop _ IH]; intros ix H0; [done|].
    apply IH. by apply coherent_run. }
  split; [by apply stamp_unique|by apply coherent_open].
Qed.

Lemma stamps_durable_witness :
  let ix := foldl run (mk None []) [OpAppend (mkStamp 0 4 7); OpUpsert (mkStamp 5 9 8); OpUpsert (mkStamp 0 4 9)] in
  stamp_for_offset ix 2 = Some 9 ∧ ∃ ix', open (file ix) = Ok ix' ∧ entries ix' = entries ix.
Proof.
  split; [done|].
  apply (stamps_durable [OpAppend (mkStamp 0 4 7); OpUpsert (mkStamp 5 9 8); OpUpsert (mkStamp 0 4 9)]
    (mkStamp 0 4 9) 2).
  repeat constructor; unfold in_s, in_u; simpl; lia.
Defined.
