(* ===== verification/Compaction.v ===== *)
(** * Log compaction

    Models the verified decision kernel [crates/verified/src/compaction.rs] and
    the compaction passes of [crates/log/src/compact.rs]: the newest offset of
    each key, the producers whose data survives, and the rewrite of the sealed
    segments into one.  The file operations that put the result in place are in
    [Swap.v]. *)

From S2P Require Import Prelude Wire Records Batches BatchStore LogIndex Segment.

(** ** The kernel *)
Module Kernel.
Record RecordMeta : Type := mkRecordMeta { has_key : bool; has_value : bool }.
Record BatchMeta : Type := mkBatchMeta {
  is_control : bool;
  meta_producer_id : Z;
  existing_horizon : option Z;
}.
Inductive TxnDataState : Type := NotTransactional | DataSurvives | DataFullyGone.
Inductive RetainDecision : Type := Keep | SetHorizon (h : Z) | Delete.
#[global] Instance RetainDecision_eq_dec : EqDecision RetainDecision.
Proof. solve_decision. Defined.

Definition compute_horizon (now_ms delete_retention_ms : Z) : Z := sat_s 64 (now_ms + delete_retention_ms).
Definition retain_decision (rec : RecordMeta) (batch : BatchMeta) (is_newest_for_key : bool)
    (txn : TxnDataState) (now_ms delete_retention_ms : Z) : RetainDecision :=
  let age_out :=
    match existing_horizon batch with
    | Some h => if h <=? now_ms then Delete else Keep
    | None => SetHorizon (compute_horizon now_ms delete_retention_ms)
    end in
  if is_control batch then
    match txn with
    | DataSurvives | NotTransactional => Keep
    | DataFullyGone => age_out
    end
  else if negb (has_key rec) then Delete
  else if negb is_newest_for_key then Delete
  else if has_value rec then Keep
  else age_out.
End Kernel.

(** ** The passes *)
Definition is_control (b : Batch.RecordBatch) : bool := Attributes.is_control_batch (Batch.attributes b).
(** [Offset(batch.base_offset + i64::from(record.offset_delta))] *)
Definition absolute (b : Batch.RecordBatch) (r : Record) : Z :=
  wrap_s 64 (Batch.base_offset b + offset_delta r).
Definition should_index_key (k : option (list byte)) (is_control_batch : bool) : bool :=
  negb is_control_batch && bool_decide (is_Some k).

(** [key → newest offset] *)
Abbreviation OffsetMap := (gmap (list byte) Z).
Definition index_record (b : Batch.RecordBatch) (m : OffsetMap) (r : Record) : OffsetMap :=
  if should_index_key (key r) false then
    match key r with Some k => <[k := absolute b r]> m | None => m end
  else m.
Definition index_batch (m : OffsetMap) (b : Batch.RecordBatch) : OffsetMap :=
  if is_control b then m else foldl (index_record b) m (Batch.records b).
Definition offset_map_of (bs : list Batch.RecordBatch) : OffsetMap := foldl index_batch ∅ bs.

Definition is_newest (m : OffsetMap) (b : Batch.RecordBatch) (r : Record) : bool :=
  match key r with
  | Some k => bool_decide (m !! k = Some (absolute b r))
  | None => false
  end.

Record CleanedTransactionMetadata : Type := mkCleaned {
  survivors : gset Z;
  aborted : list TxnIndex.AbortedTxn;
}.
Definition add_survivor (m : OffsetMap) (s : gset Z) (b : Batch.RecordBatch) : gset Z :=
  if is_control b then s else
  if Batch.producer_id b <? 0 then s else
  if existsb (is_newest m b) (Batch.records b) then {[Batch.producer_id b]} ∪ s else s.
Definition survivors_of (m : OffsetMap) (bs : list Batch.RecordBatch) : gset Z :=
  foldl (add_survivor m) ∅ bs.
Definition txn_state (c : CleanedTransactionMetadata) (pid : Z) : Kernel.TxnDataState :=
  if pid <? 0 then Kernel.NotTransactional else
  if bool_decide (pid ∈ survivors c) then Kernel.DataSurvives else Kernel.DataFullyGone.
Definition retained_aborted (c : CleanedTransactionMetadata) : list TxnIndex.AbortedTxn :=
  filter (fun e => TxnIndex.producer_id e ∈ survivors c) (aborted c).

Section Rewrite.
Context (m : OffsetMap) (meta : CleanedTransactionMetadata) (now_ms delete_retention_ms : Z).
Context (active_producers : gset Z).

Definition decision (b : Batch.RecordBatch) (r : Record) : Kernel.RetainDecision :=
  Kernel.retain_decision
    (Kernel.mkRecordMeta (bool_decide (is_Some (key r))) (bool_decide (is_Some (value r))))
    (Kernel.mkBatchMeta (is_control b) (Batch.producer_id b) (Batch.delete_horizon_ms b))
    (is_newest m b r) (txn_state meta (Batch.producer_id b)) now_ms delete_retention_ms.

(** The kept records and the last horizon asked for. *)
Definition keep_record (b : Batch.RecordBatch) (st : list Record * option Z) (r : Record) :
    list Record * option Z :=
  match decision b r with
  | Kernel.Keep => (st.1 ++ [r], st.2)
  | Kernel.SetHorizon h => (st.1 ++ [r], Some h)
  | Kernel.Delete => st
  end.
Definition keep_records (b : Batch.RecordBatch) : list Record * option Z :=
  foldl (keep_record b) ([], None) (Batch.records b).

(** The batch with other records. *)
Definition with_records (b : Batch.RecordBatch) (last_delta : Z) (rs : list Record) : Batch.RecordBatch :=
  Batch.mkBatch (Batch.base_offset b) (Batch.partition_leader_epoch b) (Batch.attributes b) last_delta
    (Batch.base_timestamp b) (Batch.max_timestamp b) (Batch.producer_id b) (Batch.producer_epoch b)
    (Batch.base_sequence b) rs.
(** [kept.iter().map(|r| r.offset_delta).max()] *)
Definition last_delta (r : Record) (rs : list Record) : Z :=
  foldl Z.max (offset_delta r) (offset_delta <$> rs).

Definition rewrite_batch (must_stay : bool) (b : Batch.RecordBatch) : option Batch.RecordBatch :=
  let '(kept, stamp_horizon) := keep_records b in
  match kept with
  | [] => if must_stay then Some (with_records b (Batch.last_offset_delta b) []) else None
  | r :: rs =>
      let out := with_records b (last_delta r rs) kept in
      Some (match stamp_horizon with
            | Some h => Batch.with_delete_horizon out h
            | None => out
            end)
  end.

(** The batch at [i] is the last of all, or of its active producer. *)
Definition stays (all : list Batch.RecordBatch) (i : nat) (b : Batch.RecordBatch) : bool :=
  (bool_decide (Batch.producer_id b ∈ active_producers) &&
   negb (existsb (fun b' => Batch.producer_id b' =? Batch.producer_id b) (drop (S i) all))) ||
  bool_decide (S i = length all).
Fixpoint rewrite_from (all : list Batch.RecordBatch) (i : nat) (bs : list Batch.RecordBatch) :
    list Batch.RecordBatch :=
  match bs with
  | [] => []
  | b :: bs => option_list (rewrite_batch (stays all i b) b) ++ rewrite_from all (S i) bs
  end.
Definition rewrite_batches (all : list Batch.RecordBatch) : list Batch.RecordBatch :=
  rewrite_from all 0 all.
End Rewrite.

Section Files.
Context {store : BatchStore}.

Definition read_all_batches (s : Segment) : list Batch.RecordBatch :=
  scan_batches (fun out b _ => (out ++ [b], true)) [] (log_file s).
Definition build_offset_map (segs : list Segment) : OffsetMap :=
  offset_map_of (segs ≫= read_all_batches).

(** Segments with their transaction index files. *)
Fixpoint open_txn_indexes (files : list (option (list byte))) :
    result LogError (list TxnIndex.AbortedTxn) :=
  match files with
  | [] => Ok []
  | f :: fs =>
      match TxnIndex.open f with
      | Err _ => Err (Corrupt "txnindex")
      | Ok ix => rest ← open_txn_indexes fs; Ok (TxnIndex.entries ix ++ rest)
      end
  end.
Definition build (segs : list (Segment * option (list byte))) (m : OffsetMap) :
    result LogError CleanedTransactionMetadata :=
  aborted ← open_txn_indexes segs.*2;
  Ok (mkCleaned (survivors_of m (segs.*1 ≫= read_all_batches)) aborted).

Fixpoint encode_all (bs : list Batch.RecordBatch) : result LogError (list byte) :=
  match bs with
  | [] => Ok []
  | b :: bs => bytes ← map_err RecordsFailed (batch_encode b); rest ← encode_all bs; Ok (bytes ++ rest)
  end.

(** The contents of the [.swap] files; both index files are empty. *)
Record RewriteOutput : Type := mkRewrite {
  log_swap : list byte;
  new_base_offset : Z;
  txnindex_swap : option (list byte);
}.
Definition rewrite_segments (segs : list Segment) (m : OffsetMap) (meta : CleanedTransactionMetadata)
    (now_ms delete_retention_ms : Z) (active_producers : gset Z) : result LogError RewriteOutput :=
  match segs with
  | [] => Err Io
  | first :: _ =>
      log ← encode_all (rewrite_batches m meta now_ms delete_retention_ms active_producers
                          (segs ≫= read_all_batches));
      let retained := retained_aborted meta in
      Ok (mkRewrite log (base_offset first)
            match retained with
            | [] => None
            | _ => Some (TxnIndex.file (foldl TxnIndex.append (TxnIndex.mkTxnIndex [] []) retained))
            end)
  end.
End Files.

(** ** What a reader sees *)

(** The data records, each with its batch, and those of one key. *)
Abbreviation Row := (Batch.RecordBatch * Record)%type.
Definition data (bs : list Batch.RecordBatch) : list Row :=
  bs ≫= fun b => if is_control b then [] else pair b <$> Batch.records b.
Definition candidates (k : list byte) (bs : list Batch.RecordBatch) : list Row :=
  filter (fun x => key x.2 = Some k) (data bs).
Definition offset_of (x : Row) : Z := absolute x.1 x.2.
Definition is_transactional (b : Batch.RecordBatch) : bool :=
  Attributes.is_transactional (Batch.attributes b).
Definition timestamp_of (x : Row) : Z := Batch.base_timestamp x.1 + timestamp_delta x.2.
(** Offset, timestamp, content, and what tells whether the record was committed. *)
Definition seen (x : Row) : Z * Z * option (list byte) * list RecordHeader * (Z * Z * bool) :=
  (offset_of x, timestamp_of x, value x.2, headers x.2,
   (Batch.base_offset x.1, Batch.producer_id x.1, is_transactional x.1)).
(** A timestamp and its distance from the horizon of a pass are 64-bit integers. *)
Definition datable (h : Z) (x : Row) : Prop := in_s 64 (timestamp_of x) ∧ in_s 64 (timestamp_of x - h).

(** A tombstone whose delete horizon has passed. *)
Definition expired (now_ms : Z) (x : Row) : bool :=
  match value x.2, Batch.delete_horizon_ms x.1 with
  | None, Some h => h <=? now_ms
  | _, _ => false
  end.

Lemma data_app bs bs' : data (bs ++ bs') = data bs ++ data bs'.
Proof. apply bind_app. Qed.

Lemma elem_of_data_one b x : x ∈ data [b] ↔ is_control b = false ∧ x.1 = b ∧ x.2 ∈ Batch.records b.
Proof.
  unfold data. cbn [mbind list_bind]. rewrite app_nil_r. destruct (is_control b).
  - split; [by intros ?%not_elem_of_nil|by intros []].
  - rewrite list_elem_of_fmap. destruct x as [b' r]. simpl. split; [by intros (r' & [= -> ->] & ?)|].
    intros (_ & -> & ?). by exists r.
Qed.

Lemma index_batch_data m b :
  index_batch m b =
  foldl (fun m x => match key x.2 with Some k => <[k := offset_of x]> m | None => m end) m (data [b]).
Proof.
  unfold index_batch, data. simpl. rewrite app_nil_r. destruct (is_control b); [done|].
  revert m. induction (Batch.records b) as [|r rs IH]; intros m; simpl; [done|].
  rewrite IH. f_equal. unfold index_record, should_index_key, offset_of. simpl. by destruct (key r).
Qed.

(** The offset map holds the offset of the last record of each key. *)
Lemma offset_map_lookup bs k :
  offset_map_of bs !! k = offset_of <$> last (candidates k bs).
Proof.
  assert (offset_map_of bs =
    foldl (fun m x => match key x.2 with Some k => <[k := offset_of x]> m | None => m end) ∅ (data bs)) as ->.
  { unfold offset_map_of. generalize (∅ : OffsetMap).
    induction bs as [|b bs IH]; intros m; [done|]. cbn [foldl]. rewrite IH, index_batch_data.
    change (b :: bs) with ([b] ++ bs). by rewrite data_app, foldl_app. }
  unfold candidates. induction (data bs) as [|x l IH] using rev_ind; [done|].
  rewrite foldl_app, filter_app. cbn [foldl]. destruct (key x.2) as [k'|] eqn:Hk.
  - destruct (decide (k' = k)) as [->|Hne].
    + by rewrite filter_cons_True, filter_nil, last_snoc, lookup_insert_eq.
    + rewrite filter_cons_False by congruence. by rewrite filter_nil, app_nil_r, lookup_insert_ne.
  - rewrite filter_cons_False by congruence. by rewrite filter_nil, app_nil_r.
Qed.

Section Kept.
Context (m : OffsetMap) (meta : CleanedTransactionMetadata) (now_ms delete_retention_ms : Z).
Context (active_producers : gset Z).
Abbreviation kept b r := (decision m meta now_ms delete_retention_ms b r ≠ Kernel.Delete).

Lemma keep_records_filter b :
  (keep_records m meta now_ms delete_retention_ms b).1 = filter (fun r => kept b r) (Batch.records b).
Proof.
  unfold keep_records. induction (Batch.records b) as [|r rs IH] using rev_ind; [done|].
  rewrite foldl_app, filter_app. cbn [foldl]. unfold keep_record at 1.
  destruct (decision m meta now_ms delete_retention_ms b r) eqn:Hd.
  - rewrite filter_cons_True by congruence. by rewrite <- IH.
  - rewrite filter_cons_True by congruence. by rewrite <- IH.
  - rewrite filter_cons_False by naive_solver. by rewrite filter_nil, app_nil_r.
Qed.

Lemma flags_horizon b h :
  is_control (Batch.with_delete_horizon b h) = is_control b ∧
  is_transactional (Batch.with_delete_horizon b h) = is_transactional b.
Proof.
  pose proof (view_set_bit (Batch.attributes b) 6 true ltac:(lia)) as Hview.
  unfold Records.view in Hview. rewrite !pair_equal_spec in Hview.
  destruct Hview as (((_ & Ht) & Hc) & _). unfold is_control, is_transactional, Batch.with_delete_horizon.
  cbn [Batch.attributes]. split; [etransitivity; [exact Hc|]|etransitivity; [exact Ht|]]; symmetry;
    by apply Attributes.has_bit_testbit.
Qed.

Lemma keep_records_horizon b h :
  (keep_records m meta now_ms delete_retention_ms b).2 = Some h → h = Kernel.compute_horizon now_ms delete_retention_ms.
Proof.
  unfold keep_records. induction (Batch.records b) as [|r rs IH] using rev_ind; [done|].
  rewrite foldl_app. cbn [foldl]. unfold keep_record at 1.
  destruct (decision m meta now_ms delete_retention_ms b r) as [|h'|] eqn:Hd; [done| |done]. simpl. intros [= <-].
  unfold decision, Kernel.retain_decision in Hd. simpl in Hd. repeat case_match; congruence.
Qed.

(** A record keeps its offset, timestamp and content when its batch is stamped. *)
Lemma seen_with_records k b d rs :
  seen <$> candidates k [with_records b d rs] =
  if is_control b then [] else seen <$> filter (fun x => key x.2 = Some k) (pair b <$> rs).
Proof.
  unfold candidates, data. simpl. rewrite app_nil_r.
  change (is_control (with_records b d rs)) with (is_control b). destruct (is_control b); [done|].
  rewrite !filter_fmap, <- !list_fmap_compose. done.
Qed.

Lemma seen_horizon k b h :
  Forall (datable h) (data [b]) →
  seen <$> candidates k [Batch.with_delete_horizon b h] = seen <$> candidates k [b].
Proof.
  unfold candidates, data. simpl. destruct (flags_horizon b h) as [-> Ht]. rewrite !app_nil_r.
  destruct (is_control b); [done|]. simpl. rewrite Forall_fmap. intros Hd.
  rewrite <- list_fmap_compose, !filter_fmap, <- !list_fmap_compose.
  apply list_fmap_ext. intros i r Hr. apply list_elem_of_lookup_2, list_elem_of_filter in Hr as [_ Hr].
  rewrite Forall_forall in Hd. destruct (Hd r Hr) as [H1 H2]. unfold seen, timestamp_of in *. simpl in *.
  rewrite Ht, (sat_s_id 64 (_ + timestamp_delta r)), sat_s_id by done.
  change (offset_of (Batch.with_delete_horizon b h, _)) with (offset_of (b, r)). do 3 f_equal. f_equal. lia.
Qed.

(** What a rewritten batch shows of a key. *)
Lemma rewrite_batch_seen k stay b :
  Forall (datable (Kernel.compute_horizon now_ms delete_retention_ms)) (data [b]) →
  seen <$> candidates k (option_list (rewrite_batch m meta now_ms delete_retention_ms stay b)) =
  seen <$> filter (fun x => kept x.1 x.2) (candidates k [b]).
Proof.
  intros Hd. pose proof (keep_records_filter b) as Hk. pose proof (keep_records_horizon b) as Hh. unfold rewrite_batch.
  destruct (keep_records _ _ _ _ b) as [rs hz]. simpl in Hk, Hh.
  assert (seen <$> filter (fun x => kept x.1 x.2) (candidates k [b]) =
          if is_control b then [] else seen <$> filter (fun x => key x.2 = Some k) (pair b <$> rs)) as ->.
  { subst rs. unfold candidates, data. simpl. rewrite app_nil_r. destruct (is_control b); [done|].
    rewrite !filter_fmap, list_filter_filter, list_filter_filter. f_equal. f_equal. apply list_filter_iff. intros r. simpl. tauto. }
  destruct rs as [|r rs].
  - destruct stay; simpl; [rewrite seen_with_records|]; by destruct (is_control b).
  - destruct hz as [h|]; simpl; [rewrite seen_horizon|]; [by rewrite seen_with_records| |by rewrite seen_with_records].
    rewrite (Hh h eq_refl). rewrite Forall_forall in Hd |- *. intros [b' r'] (Hc & Hb & Hr)%elem_of_data_one.
    simpl in Hb, Hr. subst b'. apply (Hd (b, r')), elem_of_data_one. split_and!; [done..|]. simpl. rewrite Hk in Hr. by apply list_elem_of_filter in Hr as [_ ?].
Qed.

Lemma rewrite_from_seen k all i bs :
  Forall (datable (Kernel.compute_horizon now_ms delete_retention_ms)) (data bs) →
  seen <$> candidates k (rewrite_from m meta now_ms delete_retention_ms active_producers all i bs) =
  seen <$> filter (fun x => kept x.1 x.2) (candidates k bs).
Proof.
  revert i. induction bs as [|b bs IH]; intros i; [done|]. cbn [rewrite_from].
  change (b :: bs) with ([b] ++ bs). unfold candidates at 1 2. rewrite !data_app, !filter_app, !fmap_app.
  intros [Hb Hbs]%Forall_app. f_equal; [by apply rewrite_batch_seen|by apply IH].
Qed.

(** Which data record is kept: the newest of its key, unless it has expired. *)
Lemma kept_data x k :
  is_control x.1 = false → key x.2 = Some k →
  kept x.1 x.2 ↔ m !! k = Some (offset_of x) ∧ expired now_ms x = false.
Proof.
  intros Hc Hk. unfold decision, Kernel.retain_decision, is_newest, expired, offset_of. simpl.
  rewrite Hc, Hk. simpl. case_bool_decide as Hn; simpl; [|naive_solver].
  destruct (value x.2); simpl; [naive_solver|].
  destruct (Batch.delete_horizon_ms x.1) as [h|]; [|naive_solver]. destruct (h <=? now_ms); naive_solver.
Qed.
End Kept.

Lemma candidates_data k bs x :
  x ∈ candidates k bs → is_control x.1 = false ∧ key x.2 = Some k.
Proof.
  unfold candidates, data. intros [Hk Hx]%list_elem_of_filter. split; [|done].
  apply list_elem_of_bind in Hx as (b & Hx & _). destruct (is_control b) eqn:Hc; [by apply elem_of_nil in Hx|].
  by apply list_elem_of_fmap in Hx as (r & -> & _).
Qed.

(** Only the last of an ascending list has the last key. *)
Lemma filter_last {A} (f : A → Z) (p : A → bool) l y :
  ascending f l → last l = Some y →
  filter (fun x => f x = f y ∧ p x = false) l = if p y then [] else [y].
Proof.
  intros Hs. destruct l as [|z l _] using rev_ind; [done|]. rewrite last_snoc. intros [= ->].
  rewrite filter_app, filter_none; simpl.
  - destruct (p y) eqn:Hp.
    + by rewrite filter_cons_False, filter_nil by (intros [_ ?]; congruence).
    + by rewrite filter_cons_True, filter_nil.
  - apply Forall_forall. intros x Hx [He _].
    pose proof (StronglySorted_app_1_elem_of _ _ _ x y Hs Hx ltac:(by apply list_elem_of_singleton)).
    simpl in *. lia.
Qed.

Lemma compacted_candidates bs meta now_ms delete_retention_ms active k :
  ascending offset_of (data bs) → Forall (datable (Kernel.compute_horizon now_ms delete_retention_ms)) (data bs) →
  seen <$> candidates k
    (rewrite_batches (offset_map_of bs) meta now_ms delete_retention_ms active bs) =
  match last (candidates k bs) with
  | Some x => if expired now_ms x then [] else [seen x]
  | None => []
  end.
Proof.
  intros Hs Hd. unfold rewrite_batches. rewrite rewrite_from_seen by done.
  destruct (last (candidates k bs)) as [y|] eqn:Hy; [|by apply last_None in Hy as ->].
  pose proof (filter_last offset_of (expired now_ms) (candidates k bs) y) as Hf.
  rewrite (filter_iff_elem _ (fun x => offset_of x = offset_of y ∧ expired now_ms x = false)).
  - rewrite Hf; [by destruct (expired now_ms y)| |done]. by apply ascending_filter.
  - intros x Hx%candidates_data. rewrite (kept_data _ _ _ _ x k) by apply Hx.
    rewrite offset_map_lookup, Hy. simpl. split; intros [? ?]; split; congruence.
Qed.

(** A record of a transaction that the index lists as aborted, and what a
    [read_committed] consumer sees of a key. *)
Definition is_aborted (txns : list TxnIndex.AbortedTxn) (x : Row) : bool :=
  is_transactional x.1 &&
  existsb (fun e => (TxnIndex.producer_id e =? Batch.producer_id x.1) &&
                    (TxnIndex.start_offset e <=? Batch.base_offset x.1) &&
                    (Batch.base_offset x.1 <=? TxnIndex.last_offset e)) txns.
Definition committed (txns : list TxnIndex.AbortedTxn) (k : list byte) (bs : list Batch.RecordBatch) :
    list Row := filter (fun x => is_aborted txns x = false) (candidates k bs).

Lemma is_aborted_seen txns x y : seen x = seen y → is_aborted txns x = is_aborted txns y.
Proof. unfold seen, is_aborted. intros [= _ _ _ _ -> -> ->]. done. Qed.

(** C24. Compaction keeps the state of every key.  Provided that the offsets of the data
    records ascend, and that neither their timestamps nor the distances of those from
    the delete horizon of the pass leave 64 bits, the rewritten batches show for each
    key exactly the newest record it had, with its offset, timestamp, value and
    headers, whatever producers and transactions are involved; nothing is shown for a
    key whose newest record is a tombstone that has passed its delete horizon, nor for
    one that had no record.  The newest record counts even if its transaction was
    aborted: see [compaction_drops_committed]. *)
Theorem compaction_keeps_latest bs meta now_ms delete_retention_ms active k :
  ascending offset_of (data bs) → Forall (datable (Kernel.compute_horizon now_ms delete_retention_ms)) (data bs) →
  seen <$> candidates k
    (rewrite_batches (offset_map_of bs) meta now_ms delete_retention_ms active bs) =
  match last (candidates k bs) with
  | Some x => if expired now_ms x then [] else [seen x]
  | None => []
  end.
Proof. apply compacted_candidates. Qed.

(** The newest record of a key counts even when its transaction was aborted:
    compaction then removes every committed value of the key, and a
    [read_committed] consumer no longer sees the key at all. *)
Theorem compaction_drops_committed bs meta now_ms delete_retention_ms active txns k x :
  ascending offset_of (data bs) → Forall (datable (Kernel.compute_horizon now_ms delete_retention_ms)) (data bs) →
  last (candidates k bs) = Some x → is_aborted txns x = true →
  committed txns k (rewrite_batches (offset_map_of bs) meta now_ms delete_retention_ms active bs) = [].
Proof.
  intros Hs Hd Hx Ha. pose proof (compacted_candidates bs meta now_ms delete_retention_ms active k Hs Hd) as Hc.
  rewrite Hx in Hc. unfold committed. destruct (expired now_ms x).
  - by apply fmap_nil_inv in Hc as ->.
  - destruct (candidates k (rewrite_batches _ _ _ _ _ _)) as [|y l]; [done|].
    pose proof (f_equal head Hc) as Hy%Some_inj. apply (f_equal length) in Hc.
    destruct l; [|by rewrite fmap_cons in Hc]. rewrite filter_cons_False; [done|].
    by rewrite (is_aborted_seen txns y x Hy), Ha.
Qed.

(** ** At work: a committed value, an aborted one, and the abort marker *)
Definition plain_record (k v : list byte) : Record := mkRecord 0 0 0 (Some k) (Some v) [].
Definition txn_sample : list Batch.RecordBatch :=
  [Batch.mkBatch 0 0 0 0 10 10 (-1) (-1) (-1) [plain_record [x01] [x0a]];
   Batch.mkBatch 1 0 16 0 11 11 7 0 0 [plain_record [x01] [x0b]];
   Batch.mkBatch 2 0 48 0 12 12 7 0 (-1) [plain_record [x00; x00; x00; x00] []]].
Definition txn_sample_index : list TxnIndex.AbortedTxn := [TxnIndex.mkAborted 1 2 7].
Definition cleaned (bs : list Batch.RecordBatch) : list Batch.RecordBatch :=
  let m := offset_map_of bs in
  rewrite_batches m (mkCleaned (survivors_of m bs) txn_sample_index) 1000 50 ∅ bs.

Lemma txn_sample_ascending : ascending offset_of (data txn_sample).
Proof. repeat constructor; vm_compute; done. Qed.

Lemma txn_sample_datable : Forall (datable (Kernel.compute_horizon 1000 50)) (data txn_sample).
Proof. repeat constructor; vm_compute; done. Qed.

(** A tombstone gets its horizon, and keeps its timestamp. *)
Definition tombstone_sample : list Batch.RecordBatch :=
  txn_sample ++ [Batch.mkBatch 3 0 0 0 20 25 (-1) (-1) (-1) [mkRecord 0 5 0 (Some [x01]) None []]].
Lemma tombstone_sample_ok :
  ascending offset_of (data tombstone_sample) ∧ Forall (datable (Kernel.compute_horizon 1000 50)) (data tombstone_sample).
Proof. split; repeat constructor; vm_compute; done. Qed.

Lemma compaction_keeps_latest_witness :
  seen <$> candidates [x01] (cleaned tombstone_sample) = [(3, 25, None, [], (3, -1, false))] ∧
  Batch.base_timestamp <$> (candidates [x01] (cleaned tombstone_sample)).*1 = [1050].
Proof.
  split; [|done]. etransitivity.
  - apply (compaction_keeps_latest tombstone_sample _ 1000 50 ∅ [x01]); apply tombstone_sample_ok.
  - done.
Defined.

Lemma compaction_drops_committed_witness :
  seen <$> committed txn_sample_index [x01] txn_sample = [(0, 10, Some [x0a], [], (0, -1, false))] ∧
  committed txn_sample_index [x01] (cleaned txn_sample) = [].
Proof.
  split; [done|].
  by apply (compaction_drops_committed txn_sample _ 1000 50 ∅ txn_sample_index [x01]
    (Batch.mkBatch 1 0 16 0 11 11 7 0 0 [plain_record [x01] [x0b]], plain_record [x01] [x0b])
    txn_sample_ascending txn_sample_datable).
Defined.
