(* ===== verification/Swap.v ===== *)
(** * Putting a compacted segment in place

    Models [atomic_swap] of [crates/log/src/compact.rs] as the sequence of its
    file operations, any prefix of which a crash may leave behind, and the
    recovery that runs when the log is opened, [swap_orphan_recover] of
    [crates/log/src/recovery.rs].  A directory maps file names to contents; a
    name is a kind, whether it ends in [.swap], and the base offset, which
    [Decimal.v] shows the file name determines.  [fsync] orders the operations,
    so a crash loses a suffix of them. *)

From S2P Require Import Prelude BatchStore LogIndex Segment Compaction.

Inductive FileKind : Type := LogFile | IndexFile | TimeIndexFile | TxnIndexFile | StampIndexFile.
#[global] Instance FileKind_eq_dec : EqDecision FileKind.
Proof. solve_decision. Defined.
#[global] Instance FileKind_countable : Countable FileKind.
Proof.
  refine (inj_countable'
    (fun k => match k with LogFile => 0 | IndexFile => 1 | TimeIndexFile => 2 | TxnIndexFile => 3 | StampIndexFile => 4 end)%nat
    (fun n => match n with 0 => LogFile | 1 => IndexFile | 2 => TimeIndexFile | 3 => TxnIndexFile | _ => StampIndexFile end)%nat _).
  by intros [].
Defined.

Abbreviation FileName := (FileKind * bool * Z)%type.
Definition final (k : FileKind) (base : Z) : FileName := (k, false, base).
Definition swap (k : FileKind) (base : Z) : FileName := (k, true, base).
Abbreviation Directory := (gmap FileName (list byte)).

(** ** The operations *)
Inductive FsOp : Type :=
| Remove (f : FileName)
| Rename (f g : FileName).
(** Removing a missing file is an error the caller ignores; renaming one is not
    reached on the paths below. *)
Definition run_op (d : Directory) (op : FsOp) : Directory :=
  match op with
  | Remove f => delete f d
  | Rename f g => match d !! f with Some c => <[g := c]> (delete f d) | None => d end
  end.
Definition run_ops (d : Directory) (ops : list FsOp) : Directory := foldl run_op d ops.

Definition remove_segment (base : Z) : list FsOp :=
  [Remove (final LogFile base); Remove (final IndexFile base); Remove (final TimeIndexFile base);
   Remove (final TxnIndexFile base)].
Definition promote (k : FileKind) (base : Z) : FsOp := Rename (swap k base) (final k base).
Definition swap_ops (consumed : list Z) (out : RewriteOutput) : list FsOp :=
  let base := new_base_offset out in
  (consumed ≫= remove_segment) ++
  [promote LogFile base; promote IndexFile base; promote TimeIndexFile base] ++
  match txnindex_swap out with Some _ => [promote TxnIndexFile base] | None => [] end.

(** The [.swap] files [rewrite_segments] leaves for [atomic_swap]. *)
Definition stage (d : Directory) (out : RewriteOutput) : Directory :=
  let base := new_base_offset out in
  let d := <[swap TimeIndexFile base := []]> (<[swap IndexFile base := []]> (<[swap LogFile base := log_swap out]> d)) in
  match txnindex_swap out with Some t => <[swap TxnIndexFile base := t]> d | None => d end.
Definition atomic_swap (d : Directory) (consumed : list Z) (out : RewriteOutput) : Directory :=
  run_ops d (swap_ops consumed out).

(** ** Recovery *)
Definition swap_base (f : FileName) : option Z :=
  match f with (LogFile, true, b) => Some b | _ => None end.
Definition log_swaps (d : Directory) : gset Z := set_omap swap_base (dom d).
Definition remove_swaps (d : Directory) (base : Z) : Directory :=
  run_ops d [Remove (swap LogFile base); Remove (swap IndexFile base); Remove (swap TimeIndexFile base);
             Remove (swap TxnIndexFile base)].
(** Rename the [.swap] file, or create an empty one. *)
Definition promote_or_create (d : Directory) (k : FileKind) (base : Z) : Directory :=
  match d !! swap k base with
  | Some _ => run_op d (promote k base)
  | None => <[final k base := []]> d
  end.
Definition finish_swap (d : Directory) (base : Z) : Directory :=
  let d := run_op d (promote LogFile base) in
  let d := promote_or_create d IndexFile base in
  let d := promote_or_create d TimeIndexFile base in
  match d !! swap TxnIndexFile base with
  | Some _ => run_op d (promote TxnIndexFile base)
  | None => delete (final TxnIndexFile base) d
  end.
Definition recover_base (existing : Directory) (d : Directory) (base : Z) : Directory :=
  match existing !! final LogFile base with
  | Some _ => remove_swaps d base
  | None => finish_swap d base
  end.
Definition swap_orphan_recover (d : Directory) : Directory := foldl (recover_base d) d (elements (log_swaps d)).

(** [delete_segment_files] of [retention.rs]: a missing transaction or stamp index is
    fine; the first missing required file stops it. *)
Definition remove_required (d : Directory) (f : FileName) : result LogError Directory :=
  match d !! f with Some _ => Ok (delete f d) | None => Err Io end.
Definition delete_segment_files (d : Directory) (base : Z) : result LogError Directory :=
  d ← remove_required d (final LogFile base);
  d ← remove_required d (final IndexFile base);
  d ← remove_required d (final TimeIndexFile base);
  Ok (delete (final StampIndexFile base) (delete (final TxnIndexFile base) d)).

(** ** What a log sees of a segment: a missing index is created empty *)
Definition content (d : Directory) (b : Z) :
    option (list byte) * list byte * list byte * option (list byte) * option (list byte) :=
  (d !! final LogFile b, default [] (d !! final IndexFile b), default [] (d !! final TimeIndexFile b),
   d !! final TxnIndexFile b, d !! final StampIndexFile b).
(** The stamp index is not rewritten. *)
Definition new_content (out : RewriteOutput) (stamps : option (list byte)) :
    option (list byte) * list byte * list byte * option (list byte) * option (list byte) :=
  (Some (log_swap out), [], [], txnindex_swap out, stamps).

(** Look a file up after insertions and deletions of named files. *)
Ltac files :=
  repeat first [rewrite lookup_insert_eq|rewrite lookup_insert_ne by congruence
               |rewrite lookup_delete_eq|rewrite lookup_delete_ne by congruence].

Lemma elem_of_log_swaps d b : b ∈ log_swaps d ↔ is_Some (d !! swap LogFile b).
Proof.
  unfold log_swaps. rewrite elem_of_set_omap. setoid_rewrite elem_of_dom. split.
  - intros ([[k s] b'] & Hd & Hs). by destruct k, s; simplify_eq/=.
  - intros Hd. by exists (swap LogFile b).
Qed.

(** ** Removing and renaming *)
Definition segment_files (b : Z) : list FileName :=
  [final LogFile b; final IndexFile b; final TimeIndexFile b; final TxnIndexFile b].

Lemma run_removes fs d f : run_ops d (Remove <$> fs) !! f = if bool_decide (f ∈ fs) then None else d !! f.
Proof.
  revert d. induction fs as [|g fs IH]; intros d; [done|]. cbn [fmap list_fmap run_ops foldl].
  unfold run_ops in IH. rewrite IH. simpl. destruct (decide (f = g)) as [->|Hne].
  - rewrite lookup_delete_eq, bool_decide_eq_true_2 with (P := g ∈ g :: fs) by by left.
    by destruct (bool_decide _).
  - rewrite lookup_delete_ne by done. do 2 case_bool_decide; set_solver.
Qed.

Lemma removes_fmap bs : bs ≫= remove_segment = Remove <$> (bs ≫= segment_files).
Proof. induction bs as [|b bs IH]; [done|]. rewrite !bind_cons, fmap_app, IH. done. Qed.

Lemma segment_files_length bs : length (bs ≫= segment_files) = (4 * length bs)%nat.
Proof. induction bs as [|b bs IH]; [done|]. rewrite bind_cons, length_app, IH. simpl. lia. Qed.

Lemma log_removed b bs n :
  b ∈ bs → (4 * length bs ≤ n + 3)%nat → final LogFile b ∈ take n (bs ≫= segment_files).
Proof.
  revert n. induction bs as [|c bs IH]; intros n Hb Hn; [by apply elem_of_nil in Hb|].
  rewrite bind_cons. simpl in Hn. destruct n as [|n]; [lia|].
  apply elem_of_cons in Hb as [->|Hb]; [by left|]. right. cbn [app segment_files].
  assert (bs ≠ []) as Hne by (intros ->; by apply elem_of_nil in Hb).
  assert (1 ≤ length bs)%nat by (destruct bs; simpl; [done|lia]).
  destruct n as [|[|[|n]]]; [lia..|]. do 3 right. apply IH; [done|lia].
Qed.

Lemma elem_of_segment_files f n bs :
  f ∈ take n (bs ≫= segment_files) → ∃ k b, f = final k b ∧ b ∈ bs ∧ k ≠ StampIndexFile.
Proof.
  intros (i & Hi%list_elem_of_lookup_2 & _)%elem_of_take.
  apply list_elem_of_bind in Hi as (b & Hf & Hb). unfold segment_files in Hf.
  repeat (apply elem_of_cons in Hf as [->|Hf]; [eauto|]). by apply elem_of_nil in Hf.
Qed.

Lemma run_promotes ks d b :
  NoDup ks → (∀ k, k ∈ ks → is_Some (d !! swap k b)) →
  let d' := run_ops d ((fun k => promote k b) <$> ks) in
  (∀ k, d' !! final k b = if bool_decide (k ∈ ks) then d !! swap k b else d !! final k b) ∧
  (∀ k, d' !! swap k b = if bool_decide (k ∈ ks) then None else d !! swap k b) ∧
  (∀ k s c, c ≠ b → d' !! (k, s, c) = d !! (k, s, c)).
Proof.
  revert d. induction ks as [|k ks IH]; intros d Hn Hs; [done|]. apply NoDup_cons in Hn as [Hk Hn].
  destruct (Hs k) as [c Hc]; [by left|].
  assert (run_ops d ((fun k => promote k b) <$> k :: ks) =
          run_ops (<[final k b := c]> (delete (swap k b) d)) ((fun k => promote k b) <$> ks)) as ->.
  { cbn [fmap list_fmap run_ops foldl run_op promote]. by rewrite Hc. }
  destruct (IH (<[final k b := c]> (delete (swap k b) d))) as (H1 & H2 & H3); [done| |].
  { intros k' Hk'. unfold swap, final. files. apply Hs. by right. }
  unfold swap, final in *. split_and!.
  - intros k'. rewrite H1. destruct (decide (k' = k)) as [->|Hne].
    + rewrite bool_decide_eq_false_2, bool_decide_eq_true_2 by (done || by left). by files.
    + files. repeat case_bool_decide; set_solver.
  - intros k'. rewrite H2. destruct (decide (k' = k)) as [->|Hne].
    + rewrite bool_decide_eq_false_2, bool_decide_eq_true_2 by (done || by left). by files.
    + files. repeat case_bool_decide; set_solver.
  - intros k' s c' Hc'. rewrite H3 by done. by files.
Qed.

Lemma recover_settled d : (∀ b, d !! swap LogFile b = None) → swap_orphan_recover d = d.
Proof.
  intros Hd. unfold swap_orphan_recover. assert (log_swaps d = ∅) as ->; [|by rewrite elements_empty].
  apply set_eq. intros b. rewrite elem_of_log_swaps, Hd, is_Some_alt. set_solver.
Qed.

(** ** Crashes *)
Section Crash.
Context (d0 : Directory) (out : RewriteOutput) (rest : list Z).
Local Abbreviation base := (new_base_offset out).
Local Abbreviation consumed := (base :: rest).
Context (no_swaps : ∀ k b, d0 !! swap k b = None).

(** The directory once the last [.log] file is gone and before the first rename. *)
Record cleared (d : Directory) : Prop := {
  cleared_logs b : b ∈ consumed → d !! final LogFile b = None;
  cleared_swaps k b : d !! swap k b = stage d0 out !! swap k b;
  cleared_rest k b : b ∉ consumed → d !! final k b = d0 !! final k b;
  cleared_stamps b : d !! final StampIndexFile b = d0 !! final StampIndexFile b;
}.

Lemma stage_lookup k b :
  stage d0 out !! swap k b =
  if bool_decide (b = base) then
    match k with
    | LogFile => Some (log_swap out) | IndexFile => Some [] | TimeIndexFile => Some [] | TxnIndexFile => txnindex_swap out
    | StampIndexFile => None
    end
  else None.
Proof.
  unfold stage, swap. pose proof (no_swaps k b) as Hn. unfold swap in Hn.
  case_bool_decide as Hb; [subst b|]; destruct k, (txnindex_swap out); by files.
Qed.

Lemma stage_final k b : stage d0 out !! final k b = d0 !! final k b.
Proof. unfold stage, swap, final. destruct (txnindex_swap out); by files. Qed.

Lemma cleared_log_swaps d : cleared d → elements (log_swaps d) = [base].
Proof.
  intros Hd. assert (log_swaps d = {[base]}) as ->; [|apply elements_singleton].
  apply set_eq. intros b. rewrite elem_of_log_swaps, elem_of_singleton, (cleared_swaps d Hd), stage_lookup.
  case_bool_decide; [|rewrite is_Some_alt]; naive_solver.
Qed.

Lemma removes_cleared n :
  (4 * length consumed ≤ n + 3)%nat →
  cleared (run_ops (stage d0 out) (Remove <$> take n (consumed ≫= segment_files))).
Proof.
  intros Hn. split.
  - intros b Hb. rewrite run_removes, bool_decide_eq_true_2; [done|]. by apply log_removed.
  - intros k b. rewrite run_removes, bool_decide_eq_false_2; [done|].
    intros (k' & b' & H & _)%elem_of_segment_files. done.
  - intros k b Hb. rewrite run_removes, bool_decide_eq_false_2; [apply stage_final|].
    intros (k' & b' & [= -> ->] & Hb' & _)%elem_of_segment_files. done.
  - intros b. rewrite run_removes, bool_decide_eq_false_2; [apply stage_final|].
    by intros (k' & b' & [= <- ->] & _ & ?)%elem_of_segment_files.
Qed.

(** *** Recovering *)
Definition replaced (d : Directory) : Prop :=
  content d base = new_content out (d0 !! final StampIndexFile base) ∧
  (∀ b, b ∈ rest → b ≠ base → d !! final LogFile b = None ∧ d !! final StampIndexFile b = d0 !! final StampIndexFile b) ∧
  (∀ b, b ∉ consumed → content d b = content d0 b).

Lemma finish_lookup d k b :
  cleared d →
  finish_swap d base !! final k b =
  if bool_decide (b = base) then
    match k with
    | LogFile => Some (log_swap out) | IndexFile => Some [] | TimeIndexFile => Some [] | TxnIndexFile => txnindex_swap out
    | StampIndexFile => d !! final StampIndexFile b
    end
  else d !! final k b.
Proof.
  intros Hd.
  assert (∀ k, d !! swap k base = _) as Hs by (intros; rewrite (cleared_swaps d Hd); apply stage_lookup).
  rewrite bool_decide_eq_true_2 in Hs by done.
  pose proof (Hs LogFile) as Hl. pose proof (Hs IndexFile) as Hi. pose proof (Hs TimeIndexFile) as Ht.
  pose proof (Hs TxnIndexFile) as Hx. unfold finish_swap, promote_or_create, promote, run_op, swap, final in *.
  rewrite Hl. files. rewrite Hi. files. rewrite Ht. files.
  rewrite Hx. destruct (txnindex_swap out) as [t|];
    case_bool_decide; [subst b; destruct k| |subst b; destruct k|]; by files.
Qed.

Lemma recover_cleared d : cleared d → replaced (swap_orphan_recover d).
Proof.
  intros Hd. unfold swap_orphan_recover. rewrite cleared_log_swaps by done. cbn [foldl].
  unfold recover_base. rewrite (cleared_logs d Hd base) by by left.
  unfold replaced, content, new_content. split_and!.
  - rewrite !finish_lookup by done. by rewrite bool_decide_eq_true_2, (cleared_stamps d Hd).
  - intros b Hb Hne. rewrite !finish_lookup, bool_decide_eq_false_2 by done.
    split; [apply (cleared_logs d Hd); by right|apply (cleared_stamps d Hd)].
  - intros b Hb. rewrite !finish_lookup, !bool_decide_eq_false_2 by (done || set_solver).
    by rewrite !(cleared_rest d Hd).
Qed.

(** *** Crashing between the renames *)
Definition kinds : list FileKind :=
  [LogFile; IndexFile; TimeIndexFile] ++ match txnindex_swap out with Some _ => [TxnIndexFile] | None => [] end.

Lemma recover_renamed d j :
  cleared d → (∀ k, k ≠ StampIndexFile → d !! final k base = None) → (0 < j)%nat →
  txnindex_swap out = None ∨ (4 ≤ j)%nat →
  replaced (swap_orphan_recover (run_ops d (take j ((fun k => promote k base) <$> kinds)))).
Proof.
  intros Hd Hk Hj Htxn.
  assert (∀ k b, d !! swap k b = _) as Hs by (intros; rewrite (cleared_swaps d Hd); apply stage_lookup).
  rewrite <- fmap_take. destruct (run_promotes (take j kinds) d base) as (H1 & H2 & H3).
  { assert (NoDup kinds) as Hn by (unfold kinds; destruct (txnindex_swap out); repeat constructor; set_solver).
    rewrite <- (take_drop j kinds) in Hn. by apply NoDup_app in Hn as [? _]. }
  { intros k (i & Hi%list_elem_of_lookup_2 & _)%elem_of_take. rewrite Hs, bool_decide_eq_true_2 by done.
    unfold kinds in Hi. destruct (txnindex_swap out), k; set_solver. }
  set (d' := run_ops d _) in *.
  assert (LogFile ∈ take j kinds) as Hlog by (destruct j; [lia|]; by left).
  assert (StampIndexFile ∉ take j kinds) as Hst.
  { intros (i & Hi%list_elem_of_lookup_2 & _)%elem_of_take. unfold kinds in Hi. destruct (txnindex_swap out); set_solver. }
  rewrite recover_settled.
  - unfold replaced, content, new_content. split_and!.
    + rewrite !H1, !Hs, (bool_decide_eq_true_2 (base = base)) by done.
      rewrite (bool_decide_eq_true_2 (LogFile ∈ _)) by done. rewrite !Hk, (cleared_stamps d Hd) by done.
      rewrite (bool_decide_eq_false_2 (StampIndexFile ∈ _)) by done.
      destruct Htxn as [-> |Hj4]; [by repeat case_bool_decide|].
      destruct (txnindex_swap out) as [t|] eqn:Et; [|by repeat case_bool_decide].
      rewrite (bool_decide_eq_true_2 (TxnIndexFile ∈ _)); [by repeat case_bool_decide|].
      unfold kinds. rewrite Et. destruct j as [|[|[|[|j]]]]; try lia. set_solver.
    + intros b Hb Hne. unfold final. rewrite !H3 by done. split; [apply (cleared_logs d Hd); by right|apply (cleared_stamps d Hd)].
    + intros b Hb. unfold final. rewrite !H3 by set_solver.
      by rewrite !(cleared_rest d Hd : ∀ k b, b ∉ consumed → d !! (k, false, b) = d0 !! (k, false, b)).
  - intros b. destruct (decide (b = base)) as [->|Hne].
    + by rewrite H2, bool_decide_eq_true_2.
    + unfold swap. rewrite H3 by done. change (d !! swap LogFile b = None). by rewrite Hs, bool_decide_eq_false_2.
Qed.
End Crash.

Lemma swap_ops_split consumed out :
  swap_ops consumed out =
  (Remove <$> (consumed ≫= segment_files)) ++ ((fun k => promote k (new_base_offset out)) <$> kinds out).
Proof. unfold swap_ops, kinds. rewrite removes_fmap. f_equal. by destruct (txnindex_swap out). Qed.

(** The directory after a crash that let [n] operations through, and recovery. *)
Definition after_crash (d : Directory) (consumed : list Z) (out : RewriteOutput) (n : nat) : Directory :=
  swap_orphan_recover (run_ops (stage d out) (take n (swap_ops consumed out))).

Lemma crash_cleared d out rest n :
  (∀ k b, d !! swap k b = None) → (4 * length rest < n)%nat →
  txnindex_swap out = None ∨ (n ≤ 4 * S (length rest))%nat ∨ (4 * S (length rest) + 4 ≤ n)%nat →
  replaced d out rest (after_crash d (new_base_offset out :: rest) out n).
Proof.
  intros Hno Hn Htxn. unfold after_crash. rewrite swap_ops_split.
  pose proof (segment_files_length (new_base_offset out :: rest)) as Hlen. cbn [length] in Hlen.
  destruct (decide (n ≤ 4 * S (length rest)))%nat as [Hle|Hgt].
  - rewrite take_app_le by (rewrite length_fmap; lia). rewrite <- fmap_take.
    apply recover_cleared; [done|]. apply removes_cleared. simpl. lia.
  - rewrite take_app_ge by (rewrite length_fmap; lia). rewrite length_fmap, Hlen. unfold run_ops.
    rewrite foldl_app. fold (run_ops (stage d out) (Remove <$> ((new_base_offset out :: rest) ≫= segment_files))).
    apply recover_renamed; [done| | |lia|destruct Htxn as [?|[?|?]]; [by left|lia|right; lia]].
    + rewrite <- (take_ge ((new_base_offset out :: rest) ≫= segment_files) (4 * S (length rest))) by lia.
      apply removes_cleared. simpl. lia.
    + intros k Hk. rewrite run_removes, bool_decide_eq_true_2; [done|].
      apply list_elem_of_bind. exists (new_base_offset out). split; [|by left].
      destruct k; try done; set_solver.
Qed.

(** C30. A crash during the swap of a compacted segment, and the recovery after it.
    Provided that no [.swap] files were left over and the first consumed segment has
    its log, a crash before the first removal leaves the old segments as they were.
    A crash after the last [.log] file of the consumed segments is gone leaves the
    new segment in place, with its transaction index; the other consumed segments
    have no log; all other segments are as before; and the stamp indexes of all of
    them are untouched, since the swap neither removes nor replaces them.  Two kinds
    of crash are excluded, because the claim fails for them: between the first and
    the last removal of a [.log] file ([swap_crash_leaves_stale]), and between the
    renames when a transaction index is carried over ([swap_crash_loses_txn_index]). *)
Theorem swap_crash_recovers d out rest n :
  (∀ k b, d !! swap k b = None) → is_Some (d !! final LogFile (new_base_offset out)) →
  n = 0%nat ∨ (4 * length rest < n)%nat →
  txnindex_swap out = None ∨ (n ≤ 4 * S (length rest))%nat ∨ (4 * S (length rest) + 4 ≤ n)%nat →
  let d' := after_crash d (new_base_offset out :: rest) out n in
  match n with
  | O => ∀ b, content d' b = content d b
  | S _ => replaced d out rest d'
  end.
Proof.
  intros Hno [log Hlog] [-> |Hn] Htxn d'; [|destruct n; [lia|]; by apply crash_cleared].
  intros b. unfold d', after_crash, swap_orphan_recover.
  change (run_ops (stage d out) (take 0 _)) with (stage d out).
  assert (log_swaps (stage d out) = {[new_base_offset out]}) as ->.
  { apply set_eq. intros c. rewrite elem_of_log_swaps, elem_of_singleton, stage_lookup by done.
    case_bool_decide; [|rewrite is_Some_alt]; naive_solver. }
  rewrite elements_singleton. cbn [foldl]. unfold recover_base. rewrite stage_final, Hlog.
  unfold content, remove_swaps, run_ops, final, swap. cbn [foldl run_op]. files.
  by rewrite !(stage_final d out : ∀ k b, stage d out !! (k, false, b) = d !! (k, false, b)).
Qed.

Definition two_segments : Directory :=
  {[final LogFile 0 := [x01]; final LogFile 5 := [x02]; final TxnIndexFile 5 := [x03]]}.
Definition merged (txn : option (list byte)) : RewriteOutput := mkRewrite [x0c] 0 txn.

Lemma swap_crash_recovers_witness :
  replaced two_segments (merged None) [5]
    (after_crash two_segments (new_base_offset (merged None) :: [5]) (merged None) 6).
Proof.
  apply (swap_crash_recovers two_segments (merged None) [5] 6).
  - intros k b. unfold two_segments, swap. by simplify_map_eq.
  - by eexists.
  - right. simpl. lia.
  - by left.
Defined.

(** A crash while the consumed segments are being removed leaves stale ones
    behind: the first [.log] file is gone, so recovery completes the swap, and the
    merged segment stands beside an old segment whose records it already holds. *)
Theorem swap_crash_leaves_stale :
  ∀ n, (1 ≤ n ≤ 4)%nat →
  let d := after_crash two_segments [0; 5] (merged None) n in
  d !! final LogFile 0 = Some [x0c] ∧ d !! final LogFile 5 = Some [x02].
Proof.
  intros n Hn. destruct n as [|[|[|[|[|n]]]]]; try lia; vm_compute; done.
Qed.

Lemma swap_crash_leaves_stale_witness :
  let d := after_crash two_segments [0; 5] (merged None) 1 in
  d !! final LogFile 0 = Some [x0c] ∧ d !! final LogFile 5 = Some [x02].
Proof. apply (swap_crash_leaves_stale 1). lia. Defined.

(** A crash between the renames loses the carried-over transaction index:
    recovery looks for [.log.swap] files only, so the index stays under its
    [.swap] name and the aborted transactions of the segment are forgotten. *)
Theorem swap_crash_loses_txn_index :
  ∀ n, (9 ≤ n ≤ 11)%nat →
  let d := after_crash two_segments [0; 5] (merged (Some [x03])) n in
  content d 0 = (Some [x0c], [], [], None, None) ∧ d !! swap TxnIndexFile 0 = Some [x03].
Proof.
  intros n Hn. do 9 (destruct n as [|n]; [lia|]).
  destruct n as [|[|[|n]]]; try lia; vm_compute; done.
Qed.

Lemma swap_crash_loses_txn_index_witness :
  let d := after_crash two_segments [0; 5] (merged (Some [x03])) 9 in
  content d 0 = (Some [x0c], [], [], None, None) ∧ d !! swap TxnIndexFile 0 = Some [x03].
Proof. apply (swap_crash_loses_txn_index 9). lia. Defined.
