(* ===== verification/Tracking.v ===== *)
(** * Producers and transactions of a log

    Models the part of [crates/log/src/log.rs] that follows the producers and
    the transactions of a partition: the state an append updates, and its
    reconstruction from the stored batches when the log is opened. *)

From S2P Require Import Prelude Wire Records Batches BatchStore LogIndex Segment Compaction ProducerSnapshot.

(** The fields of [Log] that do this. *)
Record Tracking : Type := mkTracking {
  lso : Z;
  pending : gmap Z Z;
  pending_stamp_ranges : gmap Z (list (Z * Z));
  coordinator_epochs : gmap Z Z;
  producer_state : SnapshotState;
}.
Definition set_lso (o : Z) (t : Tracking) : Tracking :=
  mkTracking o (pending t) (pending_stamp_ranges t) (coordinator_epochs t) (producer_state t).
Definition set_pending (p : gmap Z Z) (t : Tracking) : Tracking :=
  mkTracking (lso t) p (pending_stamp_ranges t) (coordinator_epochs t) (producer_state t).
Definition set_ranges (r : gmap Z (list (Z * Z))) (t : Tracking) : Tracking :=
  mkTracking (lso t) (pending t) r (coordinator_epochs t) (producer_state t).
Definition set_coordinators (c : gmap Z Z) (t : Tracking) : Tracking :=
  mkTracking (lso t) (pending t) (pending_stamp_ranges t) c (producer_state t).
Definition set_producers (p : SnapshotState) (t : Tracking) : Tracking :=
  mkTracking (lso t) (pending t) (pending_stamp_ranges t) (coordinator_epochs t) p.

(** ** Markers *)
Definition parse_control_marker_type (k : list byte) : option Z :=
  if bool_decide (length k < 4)%nat then None else Some (Header.signed_at 2 2 k).
Definition parse_control_marker_coordinator_epoch (v : list byte) : option Z :=
  if bool_decide (length v < 6)%nat then None else Some (Header.signed_at 2 4 v).
Definition marker_type (b : Batch.RecordBatch) : option Z :=
  r ← head (Batch.records b); k ← key r; parse_control_marker_type k.
Definition marker_coordinator_epoch (b : Batch.RecordBatch) : option Z :=
  r ← head (Batch.records b); v ← value r; parse_control_marker_coordinator_epoch v.

(** ** Producer entries *)
Definition data_producer_tail (pid base_sequence last_offset_delta base : Z) :
    result LogError (option (Z * Z)) :=
  if (pid <? 0) || (base_sequence <? 0) then Ok None else
  if last_offset_delta <? 0 then Err (InvalidArgument "negative producer offset delta") else
  let last := base + last_offset_delta in
  if bool_decide (in_s 64 last) then Ok (Some (increment_sequence base_sequence last_offset_delta, last))
  else Err (InvalidArgument "producer offset overflow").

Definition entry_or_empty (m : SnapshotState) (pid epoch : Z) : ProducerSnapshotEntry :=
  default (empty_entry pid epoch) (m !! pid).
Definition update_data_producer_entry (m : SnapshotState)
    (pid epoch base_sequence last_offset_delta base ts : Z) (transactional : bool) :
    result LogError SnapshotState :=
  tail ← data_producer_tail pid base_sequence last_offset_delta base;
  match tail with
  | None => Ok m
  | Some (last_seq, last_off) =>
      let e := entry_or_empty m pid epoch in
      let txn := match current_txn_first_offset e with
                 | None => if transactional then Some base else None
                 | Some o => Some o
                 end in
      Ok (<[pid := mkProducer (producer_id e) epoch last_seq last_off last_offset_delta ts
                     (coordinator_epoch e) txn]> m)
  end.
Definition update_marker_entry (m : SnapshotState) (b : Batch.RecordBatch) : SnapshotState :=
  let pid := Batch.producer_id b in
  let e := entry_or_empty m pid (Batch.producer_epoch b) in
  let same := producer_epoch e =? Batch.producer_epoch b in
  <[pid := mkProducer (producer_id e) (Batch.producer_epoch b)
             (if same then last_sequence e else -1) (if same then p_last_offset e else -1)
             (if same then ProducerSnapshot.offset_delta e else 0) (Batch.max_timestamp b)
             (default (coordinator_epoch e) (marker_coordinator_epoch b)) None]> m.
Definition update_owned_producer_entry (m : SnapshotState) (b : Batch.RecordBatch) :
    result LogError SnapshotState :=
  if Batch.producer_id b <? 0 then Ok m else
  if is_control b then Ok (update_marker_entry m b) else
  update_data_producer_entry m (Batch.producer_id b) (Batch.producer_epoch b) (Batch.base_sequence b)
    (Batch.last_offset_delta b) (Batch.base_offset b) (Batch.max_timestamp b) (is_transactional b).

(** ** What an append does, step by step *)
Definition advance_lso (log_end : Z) (t : Tracking) : Tracking :=
  if bool_decide (pending t = ∅) then set_lso log_end t else t.
(** [entry(pid).or_insert(base)], and the range of the batch. *)
Definition open_transaction (pid base last_off : Z) (t : Tracking) : Tracking :=
  set_ranges (<[pid := default [] (pending_stamp_ranges t !! pid) ++ [(base, last_off)]]>
                (pending_stamp_ranges t))
    (set_pending (<[pid := default base (pending t !! pid)]> (pending t)) t).
Definition close_transaction (pid log_end : Z) (t : Tracking) : Tracking :=
  advance_lso log_end
    (set_ranges (delete pid (pending_stamp_ranges t)) (set_pending (delete pid (pending t)) t)).
Definition note_coordinator (b : Batch.RecordBatch) (t : Tracking) : Tracking :=
  match marker_coordinator_epoch b with
  | Some e => if 0 <=? Batch.producer_id b
              then set_coordinators (<[Batch.producer_id b := e]> (coordinator_epochs t)) t else t
  | None => t
  end.
Definition in_transaction (b : Batch.RecordBatch) : bool :=
  is_transactional b && (0 <=? Batch.producer_id b).
(** All of it for one batch, once [log_end] is the log end behind it. *)
Definition track (log_end : Z) (t : Tracking) (b : Batch.RecordBatch) : result LogError Tracking :=
  let pid := Batch.producer_id b in
  let t :=
    if is_control b then close_transaction pid log_end (note_coordinator b t)
    else if in_transaction b then open_transaction pid (Batch.base_offset b) (batch_last b) t
    else advance_lso log_end t in
  m ← update_owned_producer_entry (producer_state t) b;
  Ok (set_producers m t).

(** ** Recovery *)
Definition recovered_batch_offsets (current : Z) (b : Batch.RecordBatch) : result LogError (Z * Z) :=
  let last := Batch.base_offset b + Batch.last_offset_delta b in
  if negb (bool_decide (in_s 64 last)) then Err (Corrupt "log recovery offset overflow") else
  if negb (bool_decide (in_s 64 (last + 1))) then Err (Corrupt "log recovery offset overflow") else
  if last + 1 <=? current then Err (Corrupt "log recovery did not advance") else
  Ok (last, last + 1).
Definition apply_recovered_batch_state (t : Tracking) (b : Batch.RecordBatch) : result LogError Tracking :=
  let pid := Batch.producer_id b in
  if pid <? 0 then Ok t else
  m ← update_owned_producer_entry (producer_state t) b;
  let t := set_producers m t in
  Ok (if is_control b then
        let t := set_pending (delete pid (pending t)) t in
        match marker_coordinator_epoch b with
        | Some e => set_coordinators (<[pid := e]> (coordinator_epochs t)) t
        | None => t
        end
      else if is_transactional b
      then set_pending (<[pid := default (Batch.base_offset b) (pending t !! pid)]> (pending t)) t
      else t).
Definition rebuild_range (r : gmap Z (list (Z * Z))) (b : Batch.RecordBatch) : gmap Z (list (Z * Z)) :=
  let pid := Batch.producer_id b in
  if is_control b then delete pid r
  else if in_transaction b then <[pid := default [] (r !! pid) ++ [(Batch.base_offset b, batch_last b)]]> r
  else r.
(** The first unstable offset: [pending.values().min()], or the log end. *)
Definition recovered_lso (p : gmap Z Z) (log_end : Z) : Z :=
  match values p with [] => log_end | o :: os => foldl Z.min o os end.

(** ** Runs *)

(** A batch with the log end behind it. *)
Abbreviation Appended := (Batch.RecordBatch * Z)%type.
Fixpoint track_all (t : Tracking) (l : list Appended) : result LogError Tracking :=
  match l with
  | [] => Ok t
  | (b, log_end) :: l => t ← track log_end t b; track_all t l
  end.
Fixpoint replay_all (t : Tracking) (bs : list Batch.RecordBatch) : result LogError Tracking :=
  match bs with
  | [] => Ok t
  | b :: bs => t ← apply_recovered_batch_state t b; replay_all t bs
  end.
Definition fresh (start : Z) : Tracking := mkTracking start ∅ ∅ ∅ ∅.

(** Offsets ascend from [lo]: each batch lies before the log end behind it. *)
Fixpoint appended_from (lo : Z) (l : list Appended) : Prop :=
  match l with
  | [] => True
  | (b, log_end) :: l => lo ≤ Batch.base_offset b < log_end ∧ appended_from log_end l
  end.
Definition end_of (lo : Z) (l : list Appended) : Z := foldl (fun _ x => x.2) lo l.

Lemma track_all_snoc t l b e :
  track_all t (l ++ [(b, e)]) = t' ← track_all t l; track e t' b.
Proof.
  revert t. induction l as [|[c f] l IH]; intros t; simpl.
  - destruct (track e t b); done.
  - destruct (track f t c); simpl; [apply IH|done].
Qed.

Lemma replay_all_snoc t bs b :
  replay_all t (bs ++ [b]) = t' ← replay_all t bs; apply_recovered_batch_state t' b.
Proof.
  revert t. induction bs as [|c bs IH]; intros t; simpl.
  - destruct (apply_recovered_batch_state t b); done.
  - destruct (apply_recovered_batch_state t c); simpl; [apply IH|done].
Qed.

Lemma appended_from_snoc lo l b e :
  appended_from lo (l ++ [(b, e)]) ↔ appended_from lo l ∧ end_of lo l ≤ Batch.base_offset b < e.
Proof.
  revert lo. induction l as [|[c f] l IH]; intros lo; simpl; [tauto|]. rewrite IH. tauto.
Qed.

(** The effect of [track] on the transactions, whatever the producers do. *)
Lemma track_inv e t b t' :
  track e t b = Ok t' → ∃ m, update_owned_producer_entry (producer_state t) b = Ok m ∧
  t' = set_producers m
    (if is_control b then close_transaction (Batch.producer_id b) e (note_coordinator b t)
     else if in_transaction b then open_transaction (Batch.producer_id b) (Batch.base_offset b) (batch_last b) t
     else advance_lso e t).
Proof.
  unfold track. intros H. inv_ok. eexists. split; [|done].
  match goal with H : update_owned_producer_entry ?m b = _ |- _ =>
    replace (producer_state t) with m; [exact H|] end.
  unfold close_transaction, advance_lso, note_coordinator. by repeat case_match.
Qed.

Lemma advance_lso_pending e t : pending (advance_lso e t) = pending t.
Proof. unfold advance_lso. by case_bool_decide. Qed.

Lemma track_pending e t b t' :
  track e t b = Ok t' →
  pending t' = if is_control b then delete (Batch.producer_id b) (pending t)
               else if in_transaction b
               then <[Batch.producer_id b := default (Batch.base_offset b) (pending t !! Batch.producer_id b)]> (pending t)
               else pending t.
Proof.
  intros (m & _ & ->)%track_inv. destruct (is_control b); [|destruct (in_transaction b)]; simpl.
  - unfold close_transaction. rewrite advance_lso_pending. simpl.
    unfold note_coordinator. by repeat case_match.
  - done.
  - apply advance_lso_pending.
Qed.

Lemma track_lso e t b t' :
  track e t b = Ok t' → lso t' = lso t ∨ (lso t' = e ∧ pending t' = ∅).
Proof.
  intros H. pose proof (track_pending e t b t' H) as Hp.
  apply track_inv in H as (m & _ & ->). simpl in *.
  destruct (is_control b); [|destruct (in_transaction b); [by left|]].
  - unfold close_transaction, advance_lso. simpl.
    assert (pending (note_coordinator b t) = pending t ∧ lso (note_coordinator b t) = lso t) as [Hn Hl]
      by (unfold note_coordinator; by repeat case_match).
    case_bool_decide as Hc; simpl; [right|by left]. split; [done|]. by rewrite Hn in *.
  - unfold advance_lso in *. case_bool_decide; simpl; [by right|by left].
Qed.

(** What every run keeps: transactions lie between the stable offset and the log
    end, and a transactional batch without a marker behind it is pending. *)
Record tracked (lo : Z) (l : list Appended) (t : Tracking) : Prop := {
  tr_lso : lso t ≤ end_of lo l;
  tr_pending pid o : pending t !! pid = Some o → 0 ≤ pid ∧ lso t ≤ o < end_of lo l;
  tr_open l1 b e l2 :
    l = l1 ++ (b, e) :: l2 → is_control b = false → in_transaction b = true →
    Forall (fun x => is_control x.1 = true → Batch.producer_id x.1 ≠ Batch.producer_id b) l2 →
    ∃ o, pending t !! Batch.producer_id b = Some o ∧ o ≤ Batch.base_offset b;
}.

Lemma tracked_fresh lo : tracked lo [] (fresh lo).
Proof.
  split; simpl; [done|intros pid o H; by rewrite lookup_empty in H|].
  intros l1 b e l2 H. by destruct l1.
Qed.

Lemma end_of_snoc lo l x : end_of lo (l ++ [x]) = x.2.
Proof. unfold end_of. by rewrite foldl_app. Qed.

Lemma tracked_step lo l t b e t' :
  tracked lo l t → end_of lo l ≤ Batch.base_offset b < e → track e t b = Ok t' →
  tracked lo (l ++ [(b, e)]) t'.
Proof.
  intros [H1 H2 H3] Hb Ht. pose proof (track_pending _ _ _ _ Ht) as Hp.
  pose proof (track_lso _ _ _ _ Ht) as Hl. split; rewrite ?end_of_snoc; simpl.
  - destruct Hl as [-> |[-> _]]; lia.
  - intros pid o Ho. destruct Hl as [Hl |[_ He]]; [|rewrite He, lookup_empty in Ho; done].
    rewrite Hl. assert (pending t !! pid = Some o ∨ (0 ≤ pid ∧ o = Batch.base_offset b)) as [Hold|[? ->]].
    { rewrite Hp in Ho. destruct (is_control b); [apply lookup_delete_Some in Ho as [_ Ho]; by left|].
      destruct (in_transaction b) eqn:Hin; [|by left].
      apply lookup_insert_Some in Ho as [[<- Ho]|[_ Ho]]; [|by left].
      destruct (pending t !! Batch.producer_id b) as [o'|] eqn:E; simpl in Ho; [left; congruence|].
      right. split; [|done]. unfold in_transaction in Hin. zify_bools. done. }
    + destruct (H2 pid o Hold). lia.
    + lia.
  - intros l1 c f l2 Heq Hc Hin Hno. destruct l2 as [|x l2 _] using rev_ind.
    + apply app_inj_tail in Heq as [-> [= <- <-]]. rewrite Hp, Hc, Hin, lookup_insert_eq.
      eexists. split; [done|]. destruct (pending t !! _) as [o|] eqn:E; simpl; [|lia].
      destruct (H2 _ _ E). lia.
    + rewrite app_comm_cons, app_assoc in Heq. apply app_inj_tail in Heq as [-> <-].
      apply Forall_app in Hno as [Hno Hb2]. apply Forall_cons in Hb2 as [Hb2 _].
      destruct (H3 l1 c f l2 eq_refl Hc Hin Hno) as (o & Ho & Hle). exists o. split; [|done].
      rewrite Hp. simpl in Hb2. destruct (is_control b); [rewrite lookup_delete_ne; auto|].
      destruct (in_transaction b); [|done].
      destruct (decide (Batch.producer_id b = Batch.producer_id c)) as [->|Hne].
      * by rewrite Ho, lookup_insert_eq.
      * by rewrite lookup_insert_ne.
Qed.

Lemma tracked_run lo l t : appended_from lo l → track_all (fresh lo) l = Ok t → tracked lo l t.
Proof.
  revert t. induction l as [|[b e] l IH] using rev_ind; intros t Ha Ht.
  - simpl in Ht. inv_ok. apply tracked_fresh.
  - rewrite track_all_snoc in Ht. apply appended_from_snoc in Ha as [Ha Hb]. inv_ok.
    eapply tracked_step; [by apply IH|done|done].
Qed.

Lemma track_ranges e t b t' :
  track e t b = Ok t' → pending_stamp_ranges t' = rebuild_range (pending_stamp_ranges t) b.
Proof.
  intros (m & _ & ->)%track_inv. unfold rebuild_range. simpl.
  destruct (is_control b); [|destruct (in_transaction b); [done|]].
  - unfold close_transaction, advance_lso, note_coordinator. by repeat case_match.
  - unfold advance_lso. by case_match.
Qed.

Lemma track_coordinators e t b t' :
  track e t b = Ok t' →
  coordinator_epochs t' =
  if is_control b then coordinator_epochs (note_coordinator b t) else coordinator_epochs t.
Proof.
  intros (m & _ & ->)%track_inv. simpl.
  destruct (is_control b); [|destruct (in_transaction b); [done|]].
  - unfold close_transaction, advance_lso. by case_match.
  - unfold advance_lso. by case_match.
Qed.

(** Two states that agree on what recovery restores. *)
Record agree (t u : Tracking) : Prop := {
  ag_pending : pending u = pending t;
  ag_coordinators : coordinator_epochs u = coordinator_epochs t;
  ag_producers : producer_state u = producer_state t;
}.

Lemma replay_step e t u b t' :
  agree t u → (∀ pid, pid < 0 → pending t !! pid = None) → track e t b = Ok t' →
  ∃ u', apply_recovered_batch_state u b = Ok u' ∧ agree t' u'.
Proof.
  intros [A1 A2 A3] Hneg Ht. pose proof (track_pending _ _ _ _ Ht) as Hp.
  pose proof (track_coordinators _ _ _ _ Ht) as Hc. apply track_inv in Ht as (m & Hm & ->).
  unfold apply_recovered_batch_state. rewrite A3. destruct (Batch.producer_id b <? 0) eqn:Hpid; zify_bools.
  - exists u. split; [done|]. unfold update_owned_producer_entry in Hm.
    rewrite (proj2 (Z.ltb_lt _ _)) in Hm by done. inv_ok. split.
    + rewrite Hp, A1. unfold in_transaction. rewrite (proj2 (Z.leb_gt _ _)), andb_false_r by done.
      destruct (is_control b); [|done]. rewrite delete_id; [done|]. by apply Hneg.
    + rewrite Hc, A2. unfold note_coordinator. rewrite (proj2 (Z.leb_gt _ _)) by done. by repeat case_match.
    + done.
  - rewrite Hm. cbn [mbind result_bind]. eexists. split; [done|].
    unfold note_coordinator, in_transaction in *. rewrite (proj2 (Z.leb_le _ _)), andb_true_r in * by done.
    split; rewrite ?Hp, ?Hc; clear Hp Hc Hm; destruct (is_control b), (is_transactional b);
      try destruct (marker_coordinator_epoch b); simpl; rewrite ?A1, ?A2; done.
Qed.

Lemma replay_run lo l t :
  appended_from lo l → track_all (fresh lo) l = Ok t →
  ∃ u, replay_all (fresh lo) l.*1 = Ok u ∧ agree t u ∧ foldl rebuild_range ∅ l.*1 = pending_stamp_ranges t.
Proof.
  revert t. induction l as [|[b e] l IH] using rev_ind; intros t Ha Ht.
  - simpl in Ht. inv_ok. by exists (fresh lo).
  - rewrite track_all_snoc in Ht. apply appended_from_snoc in Ha as [Ha Hb]. inv_ok.
    match goal with H : track_all _ _ = Ok ?x |- _ => rename x into t0; rename H into Ht0 end.
    destruct (IH t0 Ha Ht0) as (u & Hu & Hag & Hr). pose proof (tracked_run lo l t0 Ha Ht0) as Htr.
    destruct (replay_step e t0 u b t Hag) as (u' & Hu' & Hag'); [|done|].
    { intros pid Hpid. destruct (pending t0 !! pid) as [o|] eqn:E; [|done].
      destruct (tr_pending _ _ _ Htr pid o E). lia. }
    exists u'. rewrite fmap_app. cbn [fmap list_fmap fst]. rewrite replay_all_snoc, Hu, foldl_app. simpl.
    split_and!; [done|done|]. rewrite Hr. symmetry. by eapply track_ranges.
Qed.

Lemma recovered_lso_le p log_end k :
  k ≤ log_end → (∀ pid o, p !! pid = Some o → k ≤ o) → k ≤ recovered_lso p log_end.
Proof.
  intros Hk Hp. unfold recovered_lso.
  assert (Forall (fun o => k ≤ o) (values p)) as Hv.
  { apply Forall_forall. intros o [pid Ho]%elem_of_values. by eapply Hp. }
  destruct (values p) as [|o os]; [done|]. apply Forall_cons in Hv as [Ho Hos].
  revert o Ho. induction Hos as [|o' os Ho' _ IH]; intros o Ho; simpl; [done|]. apply IH. lia.
Qed.

(** ** Properties *)

(** C32. The last stable offset guards read-committed consumers: after any
    sequence of appends that succeeded, every record of a transaction without a
    commit or abort marker behind it lies at or above the last stable offset. *)
Theorem lso_guards_open lo l t l1 b e l2 :
  appended_from lo l → track_all (fresh lo) l = Ok t → l = l1 ++ (b, e) :: l2 →
  is_control b = false → in_transaction b = true →
  Forall (fun x => is_control x.1 = true → Batch.producer_id x.1 ≠ Batch.producer_id b) l2 →
  lso t ≤ Batch.base_offset b.
Proof.
  intros Ha Ht Hl Hc Hin Hno. destruct (tracked_run lo l t Ha Ht) as [_ H2 H3].
  destruct (H3 l1 b e l2 Hl Hc Hin Hno) as (o & Ho & Hle). destruct (H2 _ _ Ho). lia.
Qed.

(** C31. Recovery restores what the live log knew: replaying the stored batches
    gives the producer entries, open transactions, coordinator epochs and pending
    stamp ranges that the appends had built up, and a last stable offset that is
    no lower. *)
Theorem replay_matches_live lo l t :
  appended_from lo l → track_all (fresh lo) l = Ok t →
  ∃ u, replay_all (fresh lo) l.*1 = Ok u ∧
    producer_state u = producer_state t ∧ pending u = pending t ∧
    coordinator_epochs u = coordinator_epochs t ∧
    foldl rebuild_range ∅ l.*1 = pending_stamp_ranges t ∧
    lso t ≤ recovered_lso (pending u) (end_of lo l).
Proof.
  intros Ha Ht. destruct (replay_run lo l t Ha Ht) as (u & Hu & [A1 A2 A3] & Hr).
  exists u. split_and!; try done. rewrite A1. destruct (tracked_run lo l t Ha Ht) as [T1 T2 _].
  apply recovered_lso_le; [done|]. intros pid o Ho. destruct (T2 pid o Ho). lia.
Qed.

(** Two transactions; the first one commits. *)
Definition txn_batch (pid base : Z) : Batch.RecordBatch :=
  Batch.mkBatch base 0 16 0 10 10 pid 0 0 [mkRecord 0 0 0 None None []].
Definition commit_marker (pid base : Z) : Batch.RecordBatch :=
  Batch.mkBatch base 0 48 0 10 10 pid 0 (-1)
    [mkRecord 0 0 0 (Some [x00; x00; x00; x01]) (Some [x00; x00; x00; x00; x00; x03]) []].
Definition two_transactions : list Appended :=
  [(txn_batch 7 0, 1); (txn_batch 8 1, 2); (commit_marker 7 2, 3)].
Definition tracked_two : Tracking :=
  match track_all (fresh 0) two_transactions with Ok t => t | Err _ => fresh 0 end.

Lemma two_ok : appended_from 0 two_transactions ∧ track_all (fresh 0) two_transactions = Ok tracked_two.
Proof. split; [|done]. simpl. lia. Qed.

Lemma lso_guards_open_witness : lso tracked_two ≤ 1.
Proof.
  destruct two_ok as [H1 H2].
  apply (lso_guards_open 0 two_transactions tracked_two [(txn_batch 7 0, 1)] (txn_batch 8 1) 2
           [(commit_marker 7 2, 3)] H1 H2); [done..|]. by repeat constructor.
Defined.

Lemma replay_matches_live_witness :
  ∃ u, replay_all (fresh 0) two_transactions.*1 = Ok u ∧
    producer_state u = producer_state tracked_two ∧ pending u = pending tracked_two ∧
    coordinator_epochs u = coordinator_epochs tracked_two ∧
    foldl rebuild_range ∅ two_transactions.*1 = pending_stamp_ranges tracked_two ∧
    lso tracked_two ≤ recovered_lso (pending u) 3.
Proof. apply (replay_matches_live 0 two_transactions tracked_two); apply two_ok. Defined.

(** The last stable offset lags behind the first open transaction: when one
    of two transactions commits, the live log keeps the offset where that one
    began, 0, although the oldest open transaction begins at 1 and a restart
    would report 1. *)
Theorem lso_lags :
  pending tracked_two = {[8 := 1]} ∧ lso tracked_two = 0 ∧ recovered_lso (pending tracked_two) 3 = 1.
Proof. by vm_compute. Qed.
