(* ===== verification/Retention.v ===== *)
(** * Retention

    Models [crates/log/src/retention.rs]: which sealed segments a periodic pass
    evicts.  Sizes are byte counts and times are milliseconds; the clock is an
    argument. *)

From S2P Require Import Prelude BatchStore LogIndex Segment.

Section Retention.
Context (retention : option Z) (retention_size : option Z).

Definition time_based_evict (segs : list Segment) (now_ms : Z) : list Z :=
  match retention with
  | None => []
  | Some r =>
      let cutoff := sat_s 64 (now_ms - r) in
      base_offset <$> take_while (fun s => max_timestamp s <? cutoff) segs
  end.
Definition bytes_of (s : Segment) : Z := Z.of_nat (log_size s).
Fixpoint evict_while (deletable : Z) (segs : list Segment) : list Z :=
  match segs with
  | [] => []
  | s :: segs => if deletable <=? 0 then [] else base_offset s :: evict_while (deletable - bytes_of s) segs
  end.
Definition total_bytes (segs : list Segment) : Z := foldr (fun s n => bytes_of s + n) 0 segs.
Definition size_based_evict (segs : list Segment) (active_size : Z) : list Z :=
  match retention_size with
  | None => []
  | Some budget =>
      let total := active_size + total_bytes segs in
      if total <=? budget then [] else evict_while (total - budget) segs
  end.
End Retention.
