(* ===== verification/Log.v ===== *)
(** * The log of a partition

    Models [crates/log/src/log.rs]: the sealed segments and the active one, with
    the producer and transaction state of [Tracking.v], the sidecar files, and
    every operation that changes them.  A mutating operation is a computation of
    the monad [M], which returns the state it leaves behind also when it fails or
    panics, as [&mut self] does.

    Sizes are byte counts and times are milliseconds.  I/O errors, flushing and
    tracing are not modelled; the configuration lock is its value. *)

From S2P Require Import Prelude Wire Records Batches BatchStore LogIndex Segment Retention.
From S2P Require Import LeaderEpoch ProducerSnapshot StampIndex Compaction Tracking.

Record LogConfig : Type := mkConfig {
  segment_size : Z;
  segment_roll_interval : Z;
  retention : option Z;
  retention_size : option Z;
  index_interval : Z;
  validate_on_open : bool;
  compacts : bool;
  remote_storage_enable : bool;
  delete_retention : Z;
  timestamp_scan_window : Z;
}.
Definition DEFAULT_TIMESTAMP_SCAN_WINDOW : Z := 64 * 1024.
Definition MEBIBYTE : Z := 1024 * 1024.

(** The sidecar files, by base offset. *)
Record Disk : Type := mkDisk {
  txn_files : gmap Z (list byte);
  stamp_files : gmap Z (list byte);
  snapshots : gmap Z (list byte);
}.

(** A producer batch that is appended as it came. *)
Record VerbatimBatch : Type := mkVerbatim {
  v_bytes : list byte;
  v_last_offset_delta : Z;
  v_max_timestamp : Z;
  v_leader_epoch : Z;
  v_producer_id : Z;
  v_producer_epoch : Z;
  v_base_sequence : Z;
  v_is_transactional : bool;
}.

Inductive Fault : Type :=
| Failed (e : LogError)
| Panicked
| OutOfFuel.

Section State.
Context {source : StampSource}.

Record Log : Type := mkLog {
  config : LogConfig;
  segments : list Segment;
  active : option Segment;
  start_offset_override : option Z;
  tracking : Tracking;
  active_txn_index : TxnIndex.t;
  stamp_source : option source_state;
  stamp_indexes : gmap Z StampIndex.t;
  epoch_checkpoint : Checkpoint.t;
  reconciled_frontier : Z;
  disk : Disk;
}.

(** *** Field updates *)
Definition set_segments (v : list Segment) (l : Log) : Log :=
  mkLog (config l) v (active l) (start_offset_override l) (tracking l) (active_txn_index l)
    (stamp_source l) (stamp_indexes l) (epoch_checkpoint l) (reconciled_frontier l) (disk l).
Definition set_active (v : option Segment) (l : Log) : Log :=
  mkLog (config l) (segments l) v (start_offset_override l) (tracking l) (active_txn_index l)
    (stamp_source l) (stamp_indexes l) (epoch_checkpoint l) (reconciled_frontier l) (disk l).
Definition set_override (v : option Z) (l : Log) : Log :=
  mkLog (config l) (segments l) (active l) v (tracking l) (active_txn_index l)
    (stamp_source l) (stamp_indexes l) (epoch_checkpoint l) (reconciled_frontier l) (disk l).
Definition set_tracking (v : Tracking) (l : Log) : Log :=
  mkLog (config l) (segments l) (active l) (start_offset_override l) v (active_txn_index l)
    (stamp_source l) (stamp_indexes l) (epoch_checkpoint l) (reconciled_frontier l) (disk l).
Definition set_txn_index (v : TxnIndex.t) (l : Log) : Log :=
  mkLog (config l) (segments l) (active l) (start_offset_override l) (tracking l) v
    (stamp_source l) (stamp_indexes l) (epoch_checkpoint l) (reconciled_frontier l) (disk l).
Definition set_source (v : option source_state) (l : Log) : Log :=
  mkLog (config l) (segments l) (active l) (start_offset_override l) (tracking l) (active_txn_index l)
    v (stamp_indexes l) (epoch_checkpoint l) (reconciled_frontier l) (disk l).
Definition set_stamp_indexes (v : gmap Z StampIndex.t) (l : Log) : Log :=
  mkLog (config l) (segments l) (active l) (start_offset_override l) (tracking l) (active_txn_index l)
    (stamp_source l) v (epoch_checkpoint l) (reconciled_frontier l) (disk l).
Definition set_checkpoint (v : Checkpoint.t) (l : Log) : Log :=
  mkLog (config l) (segments l) (active l) (start_offset_override l) (tracking l) (active_txn_index l)
    (stamp_source l) (stamp_indexes l) v (reconciled_frontier l) (disk l).
Definition set_frontier (v : Z) (l : Log) : Log :=
  mkLog (config l) (segments l) (active l) (start_offset_override l) (tracking l) (active_txn_index l)
    (stamp_source l) (stamp_indexes l) (epoch_checkpoint l) v (disk l).
Definition set_disk (v : Disk) (l : Log) : Log :=
  mkLog (config l) (segments l) (active l) (start_offset_override l) (tracking l) (active_txn_index l)
    (stamp_source l) (stamp_indexes l) (epoch_checkpoint l) (reconciled_frontier l) v.
Definition set_snapshots (v : gmap Z (list byte)) (l : Log) : Log :=
  set_disk (mkDisk (txn_files (disk l)) (stamp_files (disk l)) v) l.
Definition set_txn_files (v : gmap Z (list byte)) (l : Log) : Log :=
  set_disk (mkDisk v (stamp_files (disk l)) (snapshots (disk l))) l.
Definition set_stamp_files (v : gmap Z (list byte)) (l : Log) : Log :=
  set_disk (mkDisk (txn_files (disk l)) v (snapshots (disk l))) l.

(** *** The monad *)
Definition M (A : Type) : Type := Log → Log * result Fault A.
#[global] Instance M_ret : MRet M := fun A a l => (l, Ok a).
#[global] Instance M_bind : MBind M := fun A B f m l =>
  match m l with
  | (l, Ok a) => f a l
  | (l, Err e) => (l, Err e)
  end.
Definition get {A} (f : Log → A) : M A := fun l => (l, Ok (f l)).
Definition modify (f : Log → Log) : M unit := fun l => (f l, Ok tt).
Definition fail {A} (e : LogError) : M A := fun l => (l, Err (Failed e)).
Definition lift {A} (r : result LogError A) : M A := fun l => (l, map_err Failed r).
(** [self.active.as_mut().expect(...)], then a call on the segment. *)
Definition on_active {A} (f : Segment → Segment * result LogError A) : M A := fun l =>
  match active l with
  | None => (l, Err Panicked)
  | Some s => let '(s, r) := f s in (set_active (Some s) l, map_err Failed r)
  end.
Definition when (c : bool) (m : M unit) : M unit := if c then m else mret tt.
Fixpoint for_each {A} (f : A → M unit) (xs : list A) : M unit :=
  match xs with
  | [] => mret tt
  | x :: xs => _ ← f x; for_each f xs
  end.

(** ** Offsets *)
Definition log_start_offset (l : Log) : Z :=
  let derived := match segments l, active l with
                 | s :: _, _ => base_offset s
                 | [], Some a => base_offset a
                 | [], None => 0
                 end in
  match start_offset_override l with Some o => Z.max derived o | None => derived end.
Definition log_end_offset (l : Log) : Z :=
  match active l with Some a => last_offset a + 1 | None => 0 end.
Definition size (l : Log) : Z :=
  match active l with Some a => bytes_of a | None => 0 end + total_bytes (segments l).
Definition producer_transaction_state (l : Log) (pid : Z) : Z * option Z :=
  (default (-1) (coordinator_epochs (tracking l) !! pid), pending (tracking l) !! pid).
Definition set_log_start_offset (new_start : Z) : M unit :=
  if new_start <? 0 then fail (InvalidArgument "new_start must be >= 0")
  else modify (set_override (Some new_start)).
Definition aborted_in_range (l : Log) (start end_ : Z) : list TxnIndex.AbortedTxn :=
  TxnIndex.aborted_in_range (active_txn_index l) start end_.

(** ** Sidecars *)
(** [TxnIndex::open] of a segment's file, as the active index. *)
Definition open_txn_index (base : Z) : M unit :=
  files ← get (fun l => txn_files (disk l));
  match TxnIndex.open (files !! base) with
  | Ok ix => modify (set_txn_index ix)
  | Err _ => fail (Corrupt "txnindex")
  end.
Definition append_aborted (base : Z) (e : TxnIndex.AbortedTxn) : M unit :=
  modify (fun l =>
    let ix := TxnIndex.append (active_txn_index l) e in
    set_txn_index ix (set_txn_files (<[base := TxnIndex.file ix]> (txn_files (disk l))) l)).

Definition put_stamp_index (base : Z) (ix : StampIndex.t) (l : Log) : Log :=
  set_stamp_indexes (<[base := ix]> (stamp_indexes l))
    match StampIndex.file ix with
    | Some f => set_stamp_files (<[base := f]> (stamp_files (disk l))) l
    | None => l
    end.
(** [range_mut(..=base).next_back()] *)
Definition stamp_index_below (m : gmap Z StampIndex.t) (base : Z) : option (Z * StampIndex.t) :=
  last (filter (fun p => p.1 ≤ base) (entries m)).
Definition record_stamp_value (base last_off stamp : Z) : M unit := fun l =>
  match stamp_source l with
  | None => (l, Ok tt)
  | Some _ =>
      if last_off <? log_start_offset l then (l, Ok tt) else
      match stamp_index_below (stamp_indexes l) base with
      | None => (l, Err (Failed (Corrupt "no stamp index segment covers transactional range")))
      | Some (k, ix) =>
          match StampIndex.upsert ix (StampIndex.mkStamp base last_off stamp) with
          | Ok ix => (put_stamp_index k ix l, Ok tt)
          | Err e => (l, Err (Failed e))
          end
      end
  end.
(** [source.next_stamp()] *)
Definition draw_stamp : M (option Z) := fun l =>
  match stamp_source l with
  | None => (l, Ok None)
  | Some s => let '(v, s) := next_stamp s in (set_source (Some s) l, Ok (Some v))
  end.
Definition record_stamp (base last_off : Z) : M unit :=
  v ← draw_stamp;
  match v with Some v => record_stamp_value base last_off v | None => mret tt end.
Definition observe_stamp (stamp : Z) : M unit :=
  modify (fun l => match stamp_source l with
                   | Some s => set_source (Some (observe s stamp)) l
                   | None => l
                   end).
Definition reopen_active_stamp_index (base : Z) : M unit := fun l =>
  match stamp_source l with
  | None => (l, Ok tt)
  | Some _ =>
      match StampIndex.open (stamp_files (disk l) !! base) with
      | Ok ix => (set_stamp_indexes (<[base := ix]> (stamp_indexes l)) l, Ok tt)
      | Err e => (l, Err (Failed e))
      end
  end.
Definition stamp_for_offset (l : Log) (offset : Z) : option Z :=
  head (omap (fun ix => StampIndex.stamp_for_offset ix offset) (values (stamp_indexes l))).
Definition all_segments (l : Log) : list Segment := segments l ++ option_list (active l).
Fixpoint open_stamp_indexes (files : gmap Z (list byte)) (segs : list Segment) :
    result LogError (gmap Z StampIndex.t) :=
  match segs with
  | [] => Ok ∅
  | s :: segs =>
      ix ← StampIndex.open (files !! base_offset s);
      rest ← open_stamp_indexes files segs;
      Ok (<[base_offset s := ix]> rest)
  end.
Definition set_stamp_source (s : source_state) : M unit :=
  l ← get id;
  indexes ← lift (open_stamp_indexes (stamp_files (disk l)) (all_segments l));
  let ranges := concat (values (pending_stamp_ranges (tracking l))) in
  let indexes := (fun ix => StampIndex.remove_ranges ix ranges) <$> indexes in
  let stamps := values indexes ≫= fun ix => StampIndex.stamp <$> StampIndex.entries ix in
  let s := match stamps with [] => s | v :: vs => observe s (foldl Z.max v vs) end in
  modify (fun l => set_source (Some s)
    (foldl (fun l p => put_stamp_index p.1 p.2 l) (set_stamp_indexes ∅ l) (entries indexes))).

(** ** Rolling *)
Section Snapshots.
Context (crc32c : list byte → Z).

Definition write_snapshot (offset : Z) : M unit :=
  l ← get id;
  dir ← lift (ProducerSnapshot.write crc32c (snapshots (disk l)) offset (producer_state (tracking l)));
  modify (set_snapshots dir).
(** [self.active.take().expect(...)], sealed and pushed; then a fresh segment.  Creating
    its files ([Segment::create], with [create_new]) does not fail here. *)
Definition take_active : M unit := fun l =>
  match active l with
  | None => (l, Err Panicked)
  | Some s => (set_active None (set_segments (segments l ++ [seal s]) l), Ok tt)
  end.
Definition roll_active_segment : M unit :=
  new_base ← get log_end_offset;
  _ ← write_snapshot new_base;
  _ ← take_active;
  _ ← open_txn_index new_base;
  _ ← modify (set_active (Some (create new_base)));
  reopen_active_stamp_index new_base.

(** ** Appending *)
Section Append.
Context {store : BatchStore}.

Definition roll_if_full : M unit :=
  full ← get (fun l => match active l with
                       | Some s => segment_size (config l) <=? bytes_of s
                       | None => false
                       end);
  when full roll_active_segment.
Definition update_tracking (f : Tracking → Tracking) : M unit :=
  modify (fun l => set_tracking (f (tracking l)) l).
(** [pending.is_empty()], then the log end. *)
Definition advance : M unit := modify (fun l => set_tracking (advance_lso (log_end_offset l) (tracking l)) l).

(** The transaction work of a marker: the coordinator epoch, the aborted range,
    the stamps of a committed transaction, and only then the in-memory state. *)
Definition finish_transaction (b : Batch.RecordBatch) (transaction_stamp : option Z) : M unit :=
  let pid := Batch.producer_id b in
  _ ← update_tracking (note_coordinator b);
  l ← get id;
  _ ← match pending (tracking l) !! pid, active l with
      | Some start, Some a =>
          when (bool_decide (marker_type b = Some 0))
            (append_aborted (base_offset a) (TxnIndex.mkAborted start (batch_last b) pid))
      | _, _ => mret tt
      end;
  let ranges := default [] (pending_stamp_ranges (tracking l) !! pid) in
  _ ← when (bool_decide (marker_type b = Some 1 ∧ ranges ≠ []))
        (v ← match transaction_stamp with Some v => mret (Some v) | None => draw_stamp end;
         match v with
         | Some v => for_each (fun r => record_stamp_value r.1 r.2 v) ranges
         | None => mret tt
         end);
  modify (fun l => set_tracking (close_transaction pid (log_end_offset l) (tracking l)) l).
Definition update_producers (f : SnapshotState → result LogError SnapshotState) : M unit :=
  m ← get (fun l => producer_state (tracking l));
  m ← lift (f m);
  update_tracking (set_producers m).

Definition append_preserving_offset (b : Batch.RecordBatch) (transaction_stamp : option Z) : M unit :=
  let pid := Batch.producer_id b in
  _ ← lift (data_producer_tail pid (Batch.base_sequence b) (Batch.last_offset_delta b) (Batch.base_offset b));
  _ ← roll_if_full;
  interval ← get (fun l => index_interval (config l));
  _ ← on_active (fun s => Segment.append s b interval);
  _ ← when (negb (is_control b) && negb (in_transaction b))
        (record_stamp (Batch.base_offset b) (batch_last b));
  _ ← (if is_control b then finish_transaction b transaction_stamp
       else if in_transaction b
       then update_tracking (open_transaction pid (Batch.base_offset b) (batch_last b))
       else advance);
  update_producers (fun m => update_owned_producer_entry m b).

Definition append_verbatim_preserving_offset (v : VerbatimBatch) (base : Z) : M unit :=
  let pid := v_producer_id v in
  let last_off := wrap_s 64 (base + v_last_offset_delta v) in
  let transactional := v_is_transactional v && (0 <=? pid) in
  _ ← lift (data_producer_tail pid (v_base_sequence v) (v_last_offset_delta v) base);
  _ ← roll_if_full;
  interval ← get (fun l => index_interval (config l));
  _ ← on_active (fun s => Segment.append_verbatim s (v_bytes v) base (v_last_offset_delta v)
                            (v_max_timestamp v) (v_leader_epoch v) interval);
  _ ← when (negb transactional) (record_stamp base last_off);
  _ ← (if transactional then update_tracking (open_transaction pid base last_off) else advance);
  update_producers (fun m =>
    update_data_producer_entry m pid (v_producer_epoch v) (v_base_sequence v) (v_last_offset_delta v)
      base (v_max_timestamp v) transactional).

(** The epoch checkpoint follows a known epoch above the latest one. *)
Definition note_epoch (epoch offset : Z) : M unit :=
  modify (fun l =>
    let c := epoch_checkpoint l in
    let newer := match Entries.latest_epoch (Checkpoint.entries c) with
                 | Some e => e <? epoch | None => true end in
    if (0 <=? epoch) && newer then set_checkpoint (Checkpoint.append c epoch offset) l else l).
Definition at_offset (base : Z) (b : Batch.RecordBatch) : Batch.RecordBatch :=
  restamp b base (Batch.partition_leader_epoch b).

Definition append (b : Batch.RecordBatch) : M Z :=
  base ← get log_end_offset;
  _ ← append_preserving_offset (at_offset base b) None;
  _ ← note_epoch (Batch.partition_leader_epoch b) base;
  mret base.
Definition append_verbatim (v : VerbatimBatch) : M Z :=
  base ← get log_end_offset;
  _ ← append_verbatim_preserving_offset v base;
  _ ← note_epoch (v_leader_epoch v) base;
  mret base.

Definition append_at_expected_offset (l : Log) : Z := Z.max (log_end_offset l) (reconciled_frontier l).
Definition reconcile_next_offset (frontier : Z) : M unit :=
  modify (fun l => set_frontier (Z.max (reconciled_frontier l) frontier) l).
Definition expect_offset (offset : Z) : M unit :=
  expected ← get append_at_expected_offset;
  if negb (offset =? expected) then fail (OffsetMismatch expected offset) else mret tt.
Definition append_verbatim_at (v : VerbatimBatch) (base : Z) : M Z :=
  _ ← expect_offset base;
  _ ← append_verbatim_preserving_offset v base;
  _ ← note_epoch (v_leader_epoch v) base;
  mret base.
Definition append_at (b : Batch.RecordBatch) (offset : Z) : M unit :=
  _ ← expect_offset offset;
  _ ← append_preserving_offset (at_offset offset b) None;
  note_epoch (Batch.partition_leader_epoch b) offset.

Definition validate_commit_stamp_batch (b : Batch.RecordBatch) : M unit :=
  l ← get id;
  if negb (is_control b && bool_decide (marker_type b = Some 1))
  then fail (InvalidArgument "an explicit transaction stamp requires a COMMIT control batch")
  else match stamp_source l with
       | None => fail (InvalidArgument "an explicit transaction stamp requires an installed stamp source")
       | Some _ => mret tt
       end.
Definition append_with_commit_stamp (b : Batch.RecordBatch) (stamp : Z) : M Z :=
  _ ← validate_commit_stamp_batch b;
  base ← get log_end_offset;
  _ ← observe_stamp stamp;
  _ ← append_preserving_offset (at_offset base b) (Some stamp);
  mret base.
Definition append_at_with_commit_stamp (b : Batch.RecordBatch) (offset stamp : Z) : M unit :=
  _ ← expect_offset offset;
  _ ← validate_commit_stamp_batch b;
  _ ← observe_stamp stamp;
  append_preserving_offset (at_offset offset b) (Some stamp).
End Append.
End Snapshots.

(** ** Reading *)
Section Read.
Context {store : BatchStore} {search : BinarySearch}.

Record ReadOutput : Type := mkRead { read_start : Z; batches : list Batch.RecordBatch }.
(** Batches so far, the next offset, and the bytes that are left. *)
Fixpoint read_segments (segs : list Segment) (out : list Batch.RecordBatch) (current remaining : Z) :
    result LogError (list Batch.RecordBatch * Z * Z) :=
  match segs with
  | [] => Ok (out, current, remaining)
  | s :: segs =>
      if last_offset s <? current then read_segments segs out current remaining else
      bs ← Segment.read s current remaining;
      match last bs with
      | None => read_segments segs out current remaining
      | Some b =>
          let consumed := foldr (fun b n => Batch.encoded_len b + n) 0 bs in
          let remaining := Z.max (remaining - consumed) 0 in
          let current := wrap_s 64 (batch_last b + 1) in
          if remaining =? 0 then Ok (out ++ bs, current, remaining)
          else read_segments segs (out ++ bs) current remaining
      end
  end.
Definition read (l : Log) (offset max_size : Z) : result LogError ReadOutput :=
  let start := log_start_offset l in
  if offset <? start then Err (OffsetTooLow offset start) else
  if log_end_offset l <=? offset then Ok (mkRead (log_end_offset l) []) else
  '(out, current, remaining) ← read_segments (segments l) [] offset max_size;
  out ← match active l with
        | Some a =>
            if ((0 <? remaining) || bool_decide (out = [])) && (current <=? last_offset a)
            then bs ← Segment.read a current (Z.max remaining 1); Ok (out ++ bs)
            else Ok out
        | None => Ok out
        end;
  Ok (mkRead (match out with b :: _ => Batch.base_offset b | [] => offset end) out).

Record RawRead : Type := mkRawRead {
  raw_start : Z;
  raw_bytes : list byte;
  raw_last : option Z;
}.
Definition batch_header : Z := Z.of_nat Header.HEADER_LEN.
(** Chunks so far, the first offset once there is one, the last one, the next
    offset and the bytes that are left. *)
Fixpoint read_raw_segments (segs : list Segment) (limit : Z) (out : list byte) (start last_off : option Z)
    (current remaining : Z) : result LogError (list byte * option Z * option Z * Z * Z) :=
  match segs with
  | [] => Ok (out, start, last_off, current, remaining)
  | s :: segs =>
      if last_offset s <? current then read_raw_segments segs limit out start last_off current remaining else
      r ← Segment.read_raw s current limit (Z.max remaining batch_header);
      if raw_is_empty r then read_raw_segments segs limit out start last_off current remaining else
      let start := match start with None => Some (Segment.start_offset r) | Some o => Some o end in
      let remaining := Z.max (remaining - Z.of_nat (length (bytes r))) 0 in
      let current := wrap_s 64 (raw_last_offset r + 1) in
      let out := out ++ bytes r in
      if (remaining =? 0) || (limit <=? current)
      then Ok (out, start, Some (raw_last_offset r), current, remaining)
      else read_raw_segments segs limit out start (Some (raw_last_offset r)) current remaining
  end.
Definition read_raw (l : Log) (fetch_offset limit max_size : Z) : result LogError RawRead :=
  let log_start := log_start_offset l in
  if fetch_offset <? log_start then Err (OffsetTooLow fetch_offset log_start) else
  if limit <=? fetch_offset then Ok (mkRawRead fetch_offset [] None) else
  '(out, start, last_off, current, remaining) ←
    read_raw_segments (segments l) limit [] None None fetch_offset max_size;
  match active l with
  | Some a =>
      if ((0 <? remaining) || bool_decide (start = None)) && (current <? limit) && (current <=? last_offset a)
      then
        r ← Segment.read_raw a current limit (Z.max remaining batch_header);
        if raw_is_empty r then Ok (mkRawRead (default fetch_offset start) out last_off)
        else Ok (mkRawRead (default (Segment.start_offset r) start) (out ++ bytes r) (Some (raw_last_offset r)))
      else Ok (mkRawRead (default fetch_offset start) out last_off)
  | None => Ok (mkRawRead (default fetch_offset start) out last_off)
  end.

(** The descriptor form: a segment's base offset with the region of its file. *)
Abbreviation Region := (Z * (nat * nat))%type.
Record RawReadDesc : Type := mkRawDesc { desc_start : Z; regions : list Region }.
Definition desc_is_empty (d : RawSegmentDesc) : bool := bool_decide (region d = None).
Definition region_of (s : Segment) (d : RawSegmentDesc) : list Region :=
  match region d with Some r => [(base_offset s, r)] | None => [] end.
Fixpoint read_raw_desc_segments (segs : list Segment) (limit : Z) (out : list Region) (start : option Z)
    (current remaining : Z) : result LogError (list Region * option Z * Z * Z) :=
  match segs with
  | [] => Ok (out, start, current, remaining)
  | s :: segs =>
      if last_offset s <? current then read_raw_desc_segments segs limit out start current remaining else
      r ← Segment.read_raw_desc s current limit (Z.max remaining batch_header);
      if desc_is_empty r then read_raw_desc_segments segs limit out start current remaining else
      let start := match start with None => Some (desc_start_offset r) | Some o => Some o end in
      let remaining := Z.max (remaining - Z.of_nat (desc_len r)) 0 in
      let current := wrap_s 64 (desc_last_offset r + 1) in
      let out := out ++ region_of s r in
      if (remaining =? 0) || (limit <=? current) then Ok (out, start, current, remaining)
      else read_raw_desc_segments segs limit out start current remaining
  end.
Definition read_raw_desc (l : Log) (fetch_offset limit max_size : Z) : result LogError RawReadDesc :=
  let log_start := log_start_offset l in
  if fetch_offset <? log_start then Err (OffsetTooLow fetch_offset log_start) else
  if limit <=? fetch_offset then Ok (mkRawDesc fetch_offset []) else
  '(out, start, current, remaining) ←
    read_raw_desc_segments (segments l) limit [] None fetch_offset max_size;
  match active l with
  | Some a =>
      if ((0 <? remaining) || bool_decide (start = None)) && (current <? limit) && (current <=? last_offset a)
      then
        r ← Segment.read_raw_desc a current limit (Z.max remaining batch_header);
        if desc_is_empty r then Ok (mkRawDesc (default fetch_offset start) out)
        else Ok (mkRawDesc (default (desc_start_offset r) start) (out ++ region_of a r))
      else Ok (mkRawDesc (default fetch_offset start) out)
  | None => Ok (mkRawDesc (default fetch_offset start) out)
  end.
End Read.

(** ** Opening *)
Section Open.
Context {store : BatchStore} {search : BinarySearch} (crc32c : list byte → Z).

(** Write the snapshots of the boundaries that are covered now. *)
Definition cover (advanced_to : Z) (boundaries : list Z) : M (list Z) :=
  _ ← for_each (write_snapshot crc32c) (filter (fun b => b ≤ advanced_to) boundaries);
  mret (filter (fun b => advanced_to < b) boundaries).
Fixpoint replay_batches (bs : list Batch.RecordBatch) (advanced_to : Z) (boundaries : list Z) :
    M (Z * list Z) :=
  match bs with
  | [] => mret (advanced_to, boundaries)
  | b :: bs =>
      t ← get tracking;
      t ← lift (apply_recovered_batch_state t b);
      _ ← modify (set_tracking t);
      offsets ← lift (recovered_batch_offsets advanced_to b);
      boundaries ← cover offsets.2 boundaries;
      replay_batches bs offsets.2 boundaries
  end.
(** Every turn moves [next] up, so the distance to the end is enough fuel. *)
Fixpoint replay_log (fuel : nat) (next end_ : Z) (boundaries : list Z) : M unit :=
  if end_ <=? next then mret tt else
  match fuel with
  | O => fun l => (l, Err OutOfFuel)
  | S fuel =>
      l ← get id;
      r ← lift (read l next MEBIBYTE);
      match batches r with
      | [] => fail (Corrupt "producer-state recovery made no progress")
      | bs =>
          '(advanced_to, boundaries) ← replay_batches bs next boundaries;
          if advanced_to <=? next then fail (Corrupt "producer-state recovery did not advance")
          else replay_log fuel advanced_to end_ boundaries
      end
  end.
Fixpoint rebuild_ranges_of (bs : list Batch.RecordBatch) (next : Z) : M Z :=
  match bs with
  | [] => mret next
  | b :: bs =>
      offsets ← lift (recovered_batch_offsets next b);
      if offsets.2 <=? next then fail (Corrupt "transaction-stamp recovery did not advance") else
      _ ← update_tracking (fun t => set_ranges (rebuild_range (pending_stamp_ranges t) b) t);
      rebuild_ranges_of bs offsets.2
  end.
Fixpoint rebuild_ranges (fuel : nat) (next end_ : Z) : M unit :=
  if end_ <=? next then mret tt else
  match fuel with
  | O => fun l => (l, Err OutOfFuel)
  | S fuel =>
      l ← get id;
      r ← lift (read l next MEBIBYTE);
      match batches r with
      | [] => fail (Corrupt "transaction-stamp recovery made no progress")
      | bs => next ← rebuild_ranges_of bs next; rebuild_ranges fuel next end_
      end
  end.
Definition rebuild_pending_stamp_ranges : M unit :=
  _ ← update_tracking (set_ranges ∅);
  l ← get id;
  when (negb (bool_decide (pending (tracking l) = ∅)))
    (let next := log_start_offset l in
     rebuild_ranges (Z.to_nat (log_end_offset l - next)) next (log_end_offset l)).

(** The state a snapshot stands for. *)
Definition restored (lso : Z) (m : SnapshotState) : Tracking :=
  mkTracking lso (omap current_txn_first_offset m) ∅
    (omap (fun e => if 0 <=? coordinator_epoch e then Some (coordinator_epoch e) else None) m) m.
Definition boundaries_of (l : Log) (next : Z) : list Z :=
  filter (fun b => next < b)
    ((base_offset <$> drop 1 (segments l)) ++ option_list (base_offset <$> active l)).
Definition rebuild_producer_and_transaction_state : M unit :=
  _ ← update_tracking (fun t => mkTracking (lso t) ∅ ∅ ∅ ∅);
  l ← get id;
  let end_ := log_end_offset l in
  let '(dir, found) := latest_at_or_before crc32c (snapshots (disk l)) end_ in
  _ ← modify (set_snapshots dir);
  next ← match found with
         | Some (offset, m) =>
             _ ← update_tracking (fun t => restored (lso t) m);
             mret (Z.max offset (log_start_offset l))
         | None => mret (log_start_offset l)
         end;
  _ ← replay_log (Z.to_nat (end_ - next)) next end_ (boundaries_of l next);
  _ ← rebuild_pending_stamp_ranges;
  modify (fun l => set_tracking (set_lso (recovered_lso (pending (tracking l)) (log_end_offset l))
                                   (tracking l)) l).

(** The segment files by base offset: all but the last are sealed without a scan. *)
Abbreviation SegmentFiles := (Z * (list byte * list byte * list byte))%type.
Fixpoint open_segments (validate : bool) (files : list SegmentFiles) : list Segment * option Segment :=
  match files with
  | [] => ([], None)
  | (base, (log, index, timeindex)) :: rest =>
      match rest with
      | [] => ([], Some (open_active base log index timeindex validate))
      | (next, _) :: _ =>
          let '(segs, act) := open_segments validate rest in
          (seal_at (Segment.open base log index timeindex) (next - 1) :: segs, act)
      end
  end.
Definition open (cfg : LogConfig) (files : gmap Z (list byte * list byte * list byte)) (d : Disk)
    (epochs : option (list byte)) : result Fault Log :=
  let '(segs, act) := open_segments (validate_on_open cfg) (entries files) in
  let act := default (create 0) act in
  let lso := last_offset act + 1 in
  ix ← map_err (fun _ => Failed (Corrupt "txnindex")) (TxnIndex.open (txn_files d !! base_offset act));
  c ← map_err Failed (Checkpoint.open epochs);
  let c := Checkpoint.truncate_from_end c lso in
  let l := mkLog cfg segs (Some act) None (fresh lso) ix None ∅ c 0 d in
  match rebuild_producer_and_transaction_state l with
  | (l, Ok _) => Ok l
  | (_, Err e) => Err e
  end.

(** ** Truncating *)
Definition remove_sidecars (base : Z) (l : Log) : Log :=
  set_stamp_files (delete base (stamp_files (disk l))) (set_txn_files (delete base (txn_files (disk l))) l).
Definition drop_stamp_index (base : Z) (l : Log) : Log :=
  set_stamp_indexes (delete base (stamp_indexes l)) l.
(** Sealed segments at or past [offset], from the end. *)
Fixpoint drop_tail (fuel : nat) (offset : Z) (l : Log) : Log :=
  match fuel with
  | O => l
  | S fuel =>
      match last (segments l) with
      | Some s =>
          if offset <=? base_offset s then
            drop_tail fuel offset
              (drop_stamp_index (base_offset s) (remove_sidecars (base_offset s)
                 (set_segments (take (length (segments l) - 1) (segments l)) l)))
          else l
      | None => l
      end
  end.
Definition drop_active (offset : Z) (l : Log) : Log :=
  match active l with
  | Some a =>
      if offset <=? base_offset a
      then drop_stamp_index (base_offset a) (remove_sidecars (base_offset a) (set_active None l))
      else l
  | None => l
  end.
Definition truncate_stamps (base offset : Z) (l : Log) : Log :=
  match stamp_indexes l !! base with
  | Some ix => put_stamp_index base (StampIndex.truncate_from ix offset) l
  | None => l
  end.
(** Truncate [s] in place and make it the active segment. *)
Definition relative (offset base : Z) : result LogError Z :=
  let rel := wrap_s 64 (offset - base) in
  if (0 <=? rel) && (rel <? 2 ^ 32) then Ok rel else Err (BadSegmentName "offset overflow").
Definition truncate_active (offset : Z) : M unit :=
  l ← get id;
  match active l with
  | None => mret tt
  | Some a =>
      if offset <=? last_offset a then
        rel ← lift (relative offset (base_offset a));
        _ ← on_active (fun s => truncate_to_relative s rel);
        _ ← open_txn_index (base_offset a);
        _ ← reopen_active_stamp_index (base_offset a);
        modify (truncate_stamps (base_offset a) offset)
      else mret tt
  end.
Definition promote_sealed (offset : Z) : M unit :=
  l ← get id;
  match last (segments l) with
  | Some s =>
      _ ← modify (set_segments (take (length (segments l) - 1) (segments l)));
      rel ← lift (relative offset (base_offset s));
      let '(s, r) := truncate_to_relative s rel in
      _ ← lift r;
      _ ← open_txn_index (base_offset s);
      _ ← modify (fun l => set_stamp_indexes (filter (fun p => p.1 ≤ base_offset s) (stamp_indexes l))
                             (set_active (Some s) l));
      _ ← reopen_active_stamp_index (base_offset s);
      modify (truncate_stamps (base_offset s) offset)
  | None =>
      _ ← open_txn_index offset;
      _ ← modify (fun l => set_stamp_indexes ∅ (set_active (Some (create offset)) l));
      reopen_active_stamp_index offset
  end.
Definition truncate_to (offset : Z) : M unit :=
  l ← get id;
  if log_end_offset l <=? offset then mret tt else
  if offset <? log_start_offset l then fail (OffsetTooLow offset (log_start_offset l)) else
  _ ← when (negb (bool_decide (segments l = [])))
        (modify (fun l => set_snapshots (remove_after (snapshots (disk l)) offset) l));
  _ ← modify (fun l => drop_active offset (drop_tail (length (segments l)) offset l));
  l ← get id;
  _ ← match active l with None => promote_sealed offset | Some _ => truncate_active offset end;
  l ← get id;
  _ ← when (negb (bool_decide (producer_state (tracking l) = ∅))) rebuild_producer_and_transaction_state;
  modify (fun l =>
    let t := tracking l in
    set_checkpoint (Checkpoint.truncate_from_end (epoch_checkpoint l) (log_end_offset l))
      (set_tracking (set_lso (Z.min (lso t) (log_end_offset l)) t) l)).

Definition reset_to (new_base : Z) : M unit :=
  if new_base <? 0 then fail (OffsetMismatch 0 new_base) else
  _ ← modify (fun l =>
        set_override None (set_active None (set_segments [] (set_snapshots ∅
          (foldl (fun l s => remove_sidecars (base_offset s) l) l (all_segments l))))));
  _ ← open_txn_index new_base;
  _ ← modify (fun l => set_active (Some (create new_base)) (set_stamp_indexes ∅
        (set_tracking (fresh (last_offset (create new_base) + 1)) l)));
  _ ← reopen_active_stamp_index new_base;
  modify (fun l => set_checkpoint (Checkpoint.clear (epoch_checkpoint l)) l).
End Open.

(** ** Dropping old segments *)
(** The base of the segment behind each sealed one. *)
Definition next_bases (l : Log) : list Z :=
  (base_offset <$> drop 1 (segments l)) ++
  [match active l with Some a => base_offset a | None => log_end_offset l end].
(** Forget the segments with these bases, and their files. *)
Definition forget (bases : list Z) (l : Log) : Log :=
  foldl (fun l b => remove_sidecars b l)
    (set_stamp_indexes (filter (fun p => p.1 ∉ bases) (stamp_indexes l))
       (set_segments (filter (fun s => base_offset s ∉ bases) (segments l)) l)) bases.
Definition droppable (target : Z) (l : Log) : list Z :=
  (fun p => base_offset p.1) <$>
    take_while (fun p => p.2 <=? target) (zip (segments l) (next_bases l)).
Definition trim_to_offset (target : Z) : M Z :=
  if target <? 0 then fail (InvalidArgument "target must be >= 0") else
  l ← get id;
  let target := Z.min target (log_end_offset l) in
  if target <=? log_start_offset l then mret (log_start_offset l) else
  let active_base := match active l with Some a => base_offset a | None => log_end_offset l end in
  _ ← modify (forget (droppable target l));
  segs ← get segments;
  let new_start := match segs with s :: _ => base_offset s | [] => active_base end in
  _ ← when (new_start <? target) (set_log_start_offset target);
  get log_start_offset.
Definition delete_local_segments_through (target : Z) : M nat :=
  if target <? 0 then fail (InvalidArgument "target must be >= 0") else
  l ← get id;
  if target <=? log_start_offset l then mret 0%nat else
  let to_drop := (fun p => base_offset p.1) <$>
                   filter (fun p => p.2 - 1 < target) (zip (segments l) (next_bases l)) in
  _ ← modify (fun l => set_override (Some target) (forget to_drop l));
  mret (length to_drop).

(** What a periodic pass evicts: time first, then size, never all segments. *)
Definition to_evict (l : Log) (now_ms : Z) : list Z :=
  let active_size := match active l with Some a => bytes_of a | None => 0 end in
  let by_time := time_based_evict (retention (config l)) (segments l) now_ms in
  let by_size := size_based_evict (retention_size (config l)) (segments l) active_size in
  let all := by_time ++ filter (fun b => b ∉ by_time) by_size in
  let total := (length (segments l) + length (option_list (active l)))%nat in
  if bool_decide (total ≤ length all)%nat then take (total - 1) all else all.

Section Maintenance.
Context {store : BatchStore} {search : BinarySearch} (crc32c : list byte → Z).

Definition tick (fuel : nat) (now_ms : Z) : M unit :=
  l ← get id;
  let cutoff := sat_s 64 (now_ms - segment_roll_interval (config l)) in
  old ← match active l with
        | None => mret false
        | Some a => fun l =>
            match Segment.offset_for_timestamp fuel a I64_MIN DEFAULT_TIMESTAMP_SCAN_WINDOW with
            | None => (l, Err OutOfFuel)
            | Some None => (l, Ok false)
            | Some (Some (_, first_ts)) => (l, Ok (first_ts <? cutoff))
            end
        end;
  _ ← when old (roll_active_segment crc32c);
  l ← get id;
  when (negb (remote_storage_enable (config l))) (modify (forget (to_evict l now_ms))).

(** ** Timestamps: [None] when the fuel runs out *)
Fixpoint first_hit (fuel : nat) (target window : Z) (segs : list Segment) : option (option (Z * Z)) :=
  match segs with
  | [] => Some None
  | s :: segs =>
      if (max_timestamp s =? I64_MIN) || (target <=? max_timestamp s) then
        match Segment.offset_for_timestamp fuel s target window with
        | None => None
        | Some (Some hit) => Some (Some hit)
        | Some None => first_hit fuel target window segs
        end
      else first_hit fuel target window segs
  end.
Definition offset_for_timestamp (fuel : nat) (l : Log) (target : Z) : option (option (Z * Z)) :=
  let window := timestamp_scan_window (config l) in
  match first_hit fuel target window (segments l) with
  | Some None =>
      match active l with
      | Some a => if target <=? max_timestamp a then Segment.offset_for_timestamp fuel a target window
                  else Some None
      | None => Some None
      end
  | r => r
  end.
Fixpoint best_of (fuel : nat) (window : Z) (segs : list Segment) (best : option (Z * Z)) :
    option (option (Z * Z)) :=
  match segs with
  | [] => Some best
  | s :: segs =>
      match Segment.offset_of_max_timestamp fuel s window with
      | None => None
      | Some None => best_of fuel window segs best
      | Some (Some r) => best_of fuel window segs (better best r)
      end
  end.
Definition max_timestamp_offset_and_ts (fuel : nat) (l : Log) : option (option (Z * Z)) :=
  best_of fuel (timestamp_scan_window (config l)) (all_segments l) None.
Definition offset_of_max_timestamp (fuel : nat) (l : Log) : option Z :=
  (fun r => match r with Some (offset, _) => offset | None => log_start_offset l end)
    <$> max_timestamp_offset_and_ts fuel l.

(** ** Compaction *)
Definition compact (now_ms : Z) (active_producers : gset Z) : M unit :=
  l ← get id;
  match segments l with
  | [] => mret tt
  | _ =>
      if negb (compacts (config l)) then mret tt else
      let m := build_offset_map (segments l) in
      meta ← lift (build ((fun s => (s, txn_files (disk l) !! base_offset s)) <$> segments l) m);
      out ← lift (rewrite_segments (segments l) m meta now_ms (delete_retention (config l)) active_producers);
      let consumed := base_offset <$> segments l in
      let files := foldl (fun f b => delete b f) (txn_files (disk l)) consumed in
      let files := match txnindex_swap out with
                   | Some t => <[new_base_offset out := t]> files | None => files end in
      modify (fun l =>
        set_segments [seal (open_active (new_base_offset out) (log_swap out) [] [] true)]
          (set_txn_files files l))
  end.
End Maintenance.

(** ** Tiered storage *)
Fixpoint epochs_for_range (sorted : list EpochEntry) (base last_off : Z) : list (Z * Z) :=
  match sorted with
  | [] => []
  | e :: rest =>
      let end_ := match rest with n :: _ => LeaderEpoch.start_offset n | [] => 2 ^ 63 - 1 end in
      (if (LeaderEpoch.start_offset e <=? last_off) && (base <? end_)
       then [(epoch e, Z.max (LeaderEpoch.start_offset e) base)] else []) ++
      epochs_for_range rest base last_off
  end.
Record SegmentExport : Type := mkExport {
  ex_base_offset : Z;
  ex_last_offset : Z;
  ex_max_timestamp : Z;
  ex_size : Z;
  ex_transaction_index : option (list byte);
  ex_snapshot_offset : Z;
  ex_leader_epochs : list (Z * Z);
}.
Definition start_le (a b : EpochEntry) : Prop := LeaderEpoch.start_offset a ≤ LeaderEpoch.start_offset b.
#[global] Instance start_le_dec a b : Decision (start_le a b).
Proof. unfold start_le. apply _. Defined.
Definition export (l : Log) (sorted : list EpochEntry) (p : Segment * Z) : SegmentExport :=
  let '(s, next_base) := p in
  mkExport (base_offset s) (next_base - 1)
    (if max_timestamp s =? I64_MIN then -1 else max_timestamp s) (bytes_of s)
    (txn_files (disk l) !! base_offset s) next_base
    (epochs_for_range sorted (base_offset s) (next_base - 1)).
Definition tierable_segments (l : Log) : list SegmentExport :=
  let sorted := merge_sort start_le (Checkpoint.entries (epoch_checkpoint l)) in
  export l sorted <$> zip (segments l) (next_bases l).
End State.
