(* ===== verification/LogInv.v ===== *)
(** * What a log holds

    The abstract content of a log is the sequence of its stored batches, split
    over the segments.  [contains] relates it to the segments of [Log.v];
    appending, truncating, trimming and retention are proved to keep it, each
    with its effect on the sequence. *)

From S2P Require Import Prelude Wire Records Batches BatchStore LogIndex Segment SegmentInv Retention.
From S2P Require Import LeaderEpoch ProducerSnapshot StampIndex Compaction Tracking Log.

Lemma run_bind {source : StampSource} {A B} (m : M A) (f : A → M B) l :
  (m ≫= f) l = match m l with (l, Ok a) => f a l | (l, Err e) => (l, Err e) end.
Proof. done. Qed.

Lemma run_ok {source : StampSource} {A B} (m : M A) (f : A → M B) l l' b :
  (m ≫= f) l = (l', Ok b) → ∃ l1 a, m l = (l1, Ok a) ∧ f a l1 = (l', Ok b).
Proof. rewrite run_bind. destruct (m l) as [l1 [a|e]]; [|done]. eauto. Qed.

(** ** What a computation leaves alone *)
Section Keeps.
Context {source : StampSource}.

Class Keeps {V A} (p : Log → V) (m : M A) : Prop := keeps l : p (m l).1 = p l.

Section Laws.
Context {V} (p : Log → V).
#[global] Instance keeps_ret {A} (a : A) : Keeps p (mret a).
Proof. done. Qed.
#[global] Instance keeps_bind {A B} (m : M A) (f : A → M B) :
  Keeps p m → (∀ a, Keeps p (f a)) → Keeps p (m ≫= f).
Proof.
  intros Hm Hf l. rewrite run_bind. pose proof (Hm l) as H. destruct (m l) as [l' [a|e]]; simpl in *; [|done].
  by rewrite (Hf a l').
Qed.
#[global] Instance keeps_get {A} (f : Log → A) : Keeps p (get f).
Proof. done. Qed.
#[global] Instance keeps_fail {A} e : Keeps p (fail (A := A) e).
Proof. done. Qed.
#[global] Instance keeps_lift {A} (r : result LogError A) : Keeps p (lift r).
Proof. done. Qed.
#[global] Instance keeps_when c m : Keeps p m → Keeps p (when c m).
Proof. intros Hm. by destruct c. Qed.
#[global] Instance keeps_for_each {A} (f : A → M unit) xs : (∀ x, Keeps p (f x)) → Keeps p (for_each f xs).
Proof. intros Hf. induction xs as [|x xs IH]; simpl; apply _. Qed.
Lemma keeps_run {A} (m : M A) `{!Keeps p m} l l' r : m l = (l', r) → p l' = p l.
Proof. intros Hm. pose proof (keeps (p := p) (m := m) l) as H. by rewrite Hm in H. Qed.
Lemma keeps_modify f : (∀ l, p (f l) = p l) → Keeps p (modify f).
Proof. done. Qed.
End Laws.
End Keeps.

(** Solve [Keeps] goals by the structure of the computation. *)
Ltac keeps_steps :=
  repeat first
    [ progress intros
    | apply keeps_bind
    | apply keeps_when
    | apply keeps_for_each
    | apply keeps_modify; intros; by repeat case_match
    | progress case_match
    | apply _ ].

(** The segments: everything that [contains] below depends on. *)
Section Quiet.
Context {source : StampSource}.

Definition body (l : Log) : list Segment * option Segment := (segments l, active l).
#[global] Instance body_open_txn_index base : Keeps body (open_txn_index base).
Proof. unfold open_txn_index. keeps_steps. Qed.
#[global] Instance body_append_aborted base e : Keeps body (append_aborted base e).
Proof. unfold append_aborted. keeps_steps. Qed.
#[global] Instance body_record_stamp_value b o v : Keeps body (record_stamp_value b o v).
Proof. intros l. unfold record_stamp_value, put_stamp_index. by repeat case_match. Qed.
#[global] Instance body_draw_stamp : Keeps body draw_stamp.
Proof. intros l. unfold draw_stamp. by repeat case_match. Qed.
#[global] Instance body_record_stamp b o : Keeps body (record_stamp b o).
Proof. unfold record_stamp. keeps_steps. Qed.
#[global] Instance body_observe_stamp v : Keeps body (observe_stamp v).
Proof. unfold observe_stamp. keeps_steps. Qed.
#[global] Instance body_reopen b : Keeps body (reopen_active_stamp_index b).
Proof. intros l. unfold reopen_active_stamp_index. by repeat case_match. Qed.
#[global] Instance body_write_snapshot crc o : Keeps body (write_snapshot crc o).
Proof. unfold write_snapshot. keeps_steps. Qed.
#[global] Instance body_update_tracking f : Keeps body (update_tracking f).
Proof. unfold update_tracking. keeps_steps. Qed.
#[global] Instance body_advance : Keeps body advance.
Proof. unfold advance. keeps_steps. Qed.
#[global] Instance body_update_producers f : Keeps body (update_producers f).
Proof. unfold update_producers. keeps_steps. Qed.
#[global] Instance body_finish b s : Keeps body (finish_transaction b s).
Proof. unfold finish_transaction. keeps_steps. Qed.
#[global] Instance body_note_epoch e o : Keeps body (note_epoch e o).
Proof. unfold note_epoch. keeps_steps. Qed.

(** The producer and transaction state, which the files do not touch. *)
#[global] Instance tracking_open_txn_index base : Keeps tracking (open_txn_index base).
Proof. unfold open_txn_index. keeps_steps. Qed.
#[global] Instance tracking_append_aborted base e : Keeps tracking (append_aborted base e).
Proof. unfold append_aborted. keeps_steps. Qed.
#[global] Instance tracking_record_stamp_value b o v : Keeps tracking (record_stamp_value b o v).
Proof. intros l. unfold record_stamp_value, put_stamp_index. by repeat case_match. Qed.
#[global] Instance tracking_draw_stamp : Keeps tracking draw_stamp.
Proof. intros l. unfold draw_stamp. by repeat case_match. Qed.
#[global] Instance tracking_record_stamp b o : Keeps tracking (record_stamp b o).
Proof. unfold record_stamp. keeps_steps. Qed.
#[global] Instance tracking_reopen b : Keeps tracking (reopen_active_stamp_index b).
Proof. intros l. unfold reopen_active_stamp_index. by repeat case_match. Qed.
#[global] Instance tracking_write_snapshot crc o : Keeps tracking (write_snapshot crc o).
Proof. unfold write_snapshot. keeps_steps. Qed.
#[global] Instance tracking_take_active : Keeps tracking take_active.
Proof. intros l. unfold take_active. by repeat case_match. Qed.
#[global] Instance tracking_roll crc : Keeps tracking (roll_active_segment crc).
Proof. unfold roll_active_segment. keeps_steps. Qed.
#[global] Instance tracking_roll_if_full crc : Keeps tracking (roll_if_full crc).
Proof. unfold roll_if_full. keeps_steps. Qed.
#[global] Instance tracking_on_active {A} (f : Segment → Segment * result LogError A) : Keeps tracking (on_active f).
Proof. intros l. unfold on_active. by repeat case_match. Qed.
#[global] Instance tracking_note_epoch e o : Keeps tracking (note_epoch e o).
Proof. unfold note_epoch. keeps_steps. Qed.
End Quiet.

(** Computations that succeed when no stamp source is installed. *)
Section Unstamped.
Context {source : StampSource}.

Class Total {A} (m : M A) : Prop :=
  total l : stamp_source l = None → ∃ l' a, m l = (l', Ok a) ∧ stamp_source l' = None.
#[global] Instance total_ret {A} (a : A) : Total (mret a).
Proof. intros l Hl. by exists l, a. Qed.
#[global] Instance total_get {A} (f : Log → A) : Total (get f).
Proof. intros l Hl. by exists l, (f l). Qed.
#[global] Instance total_bind {A B} (m : M A) (f : A → M B) : Total m → (∀ a, Total (f a)) → Total (m ≫= f).
Proof. intros Hm Hf l Hl. rewrite run_bind. destruct (Hm l Hl) as (l1 & a & -> & H1). by apply Hf. Qed.
#[global] Instance total_when c m : Total m → Total (when c m).
Proof. intros Hm. destruct c; [done|apply _]. Qed.
#[global] Instance total_for_each {A} (f : A → M unit) xs : (∀ x, Total (f x)) → Total (for_each f xs).
Proof. intros Hf. induction xs as [|x xs IH]; simpl; apply _. Qed.
Lemma total_then {A B} (m : M A) (f : A → M B) l :
  Total m → stamp_source l = None → (∀ l1 a, stamp_source l1 = None → ∃ l' b, f a l1 = (l', Ok b)) →
  ∃ l' b, (m ≫= f) l = (l', Ok b).
Proof. intros Hm Hl Hf. rewrite run_bind. destruct (Hm l Hl) as (l1 & a & -> & H1). by apply Hf. Qed.
Lemma total_modify f : (∀ l, stamp_source (f l) = stamp_source l) → Total (modify f).
Proof. intros Hf l Hl. exists (f l), tt. by rewrite Hf. Qed.
#[global] Instance total_draw_stamp : Total draw_stamp.
Proof. intros l Hl. exists l, None. unfold draw_stamp. by rewrite Hl. Qed.
#[global] Instance total_record_stamp_value b o v : Total (record_stamp_value b o v).
Proof. intros l Hl. exists l, tt. unfold record_stamp_value. by rewrite Hl. Qed.
#[global] Instance total_record_stamp b o : Total (record_stamp b o).
Proof. apply total_bind; [apply _|]. intros [v|]; apply _. Qed.
#[global] Instance total_update_tracking f : Total (update_tracking f).
Proof. by apply total_modify. Qed.
#[global] Instance total_finish b s : Total (finish_transaction b s).
Proof.
  repeat first [apply total_bind; intros | apply total_when | by apply total_modify | apply _ | progress case_match].
Qed.
End Unstamped.

(** ** The content of a log *)
Section Content.
Context {source : StampSource} {store : BatchStore} {search : BinarySearch}.

Definition first_base (segs : list Segment) (end_ : Z) : Z :=
  match segs with s :: _ => base_offset s | [] => end_ end.
(** Each segment ends where the next one starts, the last one at [end_]. *)
Inductive chain : list Segment → list (list Stored) → Z → Prop :=
| chain_nil end_ : chain [] [] end_
| chain_cons s c segs css end_ :
    holds s c → last_offset s + 1 = first_base segs end_ → chain segs css end_ →
    chain (s :: segs) (c :: css) end_.
Record split (segs : list Segment) (a : Segment) (css : list (list Stored)) (cs : list Stored) : Prop := {
  sp_sealed : chain segs css (base_offset a);
  sp_active : holds a cs;
  sp_open : sealed a = false;
}.
Definition contains (l : Log) (xs : list Stored) : Prop :=
  ∃ a css cs, active l = Some a ∧ split (segments l) a css cs ∧ xs = concat css ++ cs.

Lemma contains_body l l' xs : body l' = body l → contains l xs → contains l' xs.
Proof. intros [= H1 H2] (a & css & cs & ? & ? & ->). exists a, css, cs. by rewrite H1, H2. Qed.

Lemma contains_quiet {A} (m : M A) `{!Keeps body m} l xs : contains l xs → contains (m l).1 xs.
Proof. apply contains_body, keeps. Qed.

(** The content lies between the start of the first segment and the log end. *)
Lemma chain_ordered segs css end_ :
  chain segs css end_ →
  ordered (first_base segs end_) (concat css) ∧ next_offset (first_base segs end_) (concat css) = end_.
Proof.
  induction 1 as [|s c segs css end_ [Hs Hl] He _ [IH1 IH2]]; [done|]. simpl.
  rewrite ordered_app, next_offset_app. replace (next_offset (base_offset s) c) with (first_base segs end_) by lia.
  split_and!; [apply Hs|done..].
Qed.

Lemma chain_app segs1 segs2 css end_ :
  chain (segs1 ++ segs2) css end_ ↔
  ∃ css1 css2, css = css1 ++ css2 ∧ chain segs1 css1 (first_base segs2 end_) ∧ chain segs2 css2 end_.
Proof.
  revert css. induction segs1 as [|s segs1 IH]; intros css; simpl.
  - split; [intros; exists [], css; by repeat constructor|]. intros (css1 & css2 & -> & H & ?). by inversion H.
  - split.
    + inversion 1 as [|? c ? css' ? Hs Hb Hc]; subst. apply IH in Hc as (css1 & css2 & -> & H1 & H2).
      exists (c :: css1), css2. split_and!; [done| |done]. constructor; [done| |done]. by destruct segs1.
    + intros (css1 & css2 & -> & H1 & H2). inversion H1 as [|? c ? css' ? Hs Hb Hc]; subst. simpl.
      constructor; [done|by destruct segs1|]. apply IH. by exists css', css2.
Qed.

Definition base_of (l : Log) : Z :=
  first_base (segments l) match active l with Some a => base_offset a | None => 0 end.

Lemma split_ordered segs a css cs :
  split segs a css cs →
  let lo := first_base segs (base_offset a) in
  ordered lo (concat css ++ cs) ∧ next_offset lo (concat css ++ cs) = last_offset a + 1.
Proof.
  intros [Hc [Ha Hl] _]. destruct (chain_ordered _ _ _ Hc) as [H1 H2]. simpl.
  rewrite ordered_app, next_offset_app, H2. split_and!; [done|apply Ha|lia].
Qed.

Lemma contains_ordered l xs :
  contains l xs → ordered (base_of l) xs ∧ log_end_offset l = next_offset (base_of l) xs.
Proof.
  intros (a & css & cs & Ha & Hsp & ->). destruct (split_ordered _ _ _ _ Hsp) as [H1 H2].
  unfold base_of, log_end_offset. by rewrite Ha.
Qed.

Lemma chain_base segs css end_ : chain segs css end_ → end_ < 2 ^ 63 → 0 ≤ end_ →
  0 ≤ first_base segs end_ ≤ end_.
Proof.
  intros Hc Hlt Hge. destruct (chain_ordered _ _ _ Hc) as [H%ordered_next Hn]. rewrite Hn in H.
  inversion Hc as [|s c ? ? ? [Hs _]]; subst; simpl in *; [lia|]. pose proof (h_base _ _ Hs). lia.
Qed.

Lemma holds_seal s c : holds s c → holds (seal s) c.
Proof. intros [[] ?]. by split; [split|]. Qed.

Lemma create_holds_nothing base : 0 ≤ base < 2 ^ 63 → holds (create base) [].
Proof. intros Hb. split; [split|]; try done; try (by constructor). by split; try constructor. Qed.

(** ** Rolling and appending *)
Section Append.
Context (crc32c : list byte → Z).

(** The transaction index of a segment about to be opened is readable. *)
Definition readable (l : Log) (base : Z) : Prop :=
  ∃ ix, TxnIndex.open (txn_files (disk l) !! base) = Ok ix.

Lemma write_snapshot_files o l : txn_files (disk (write_snapshot crc32c o l).1) = txn_files (disk l).
Proof. unfold write_snapshot, mbind, M_bind, get, lift, modify. simpl. by destruct (ProducerSnapshot.write _ _ _ _). Qed.

Lemma write_snapshot_config o l : config (write_snapshot crc32c o l).1 = config l.
Proof. unfold write_snapshot, mbind, M_bind, get, lift, modify. simpl. by destruct (ProducerSnapshot.write _ _ _ _). Qed.

(** A roll keeps the content and the log end, also when it fails. *)
Lemma roll_active_segment_contains l xs :
  contains l xs → readable l (log_end_offset l) → log_end_offset l < 2 ^ 63 →
  let l' := (roll_active_segment crc32c l).1 in
  contains l' xs ∧ log_end_offset l' = log_end_offset l.
Proof.
  intros Hc [ix Hix] Hlt. pose proof Hc as (a & css & cs & Ha & [Hch Hh Hop] & ->).
  assert (log_end_offset l = last_offset a + 1) as He by (unfold log_end_offset; by rewrite Ha).
  assert (0 ≤ log_end_offset l) as H0.
  { destruct Hh as [Hs Hl]. pose proof (h_base _ _ Hs). pose proof (ordered_next _ _ (h_ordered _ _ Hs)). lia. }
  unfold roll_active_segment. rewrite run_bind. cbn [get].
  pose proof (keeps (p := body) (m := write_snapshot crc32c (log_end_offset l)) l) as Hq.
  pose proof (write_snapshot_files (log_end_offset l) l) as Hf.
  rewrite run_bind. destruct (write_snapshot crc32c (log_end_offset l) l) as [l1 [[]|e]]; simpl in Hq, Hf.
  2: { split; [by eapply contains_body|]. unfold log_end_offset. cbn [fst]. by injection Hq as _ ->. }
  injection Hq as Hsegs Hact. rewrite run_bind. unfold take_active. rewrite Hact, Ha.
  rewrite run_bind. unfold open_txn_index. rewrite run_bind. cbn [get disk set_active set_segments].
  rewrite Hf, Hix. cbn [modify]. rewrite run_bind. cbn [modify].
  set (l2 := set_active _ _). pose proof (keeps (p := body) (m := reopen_active_stamp_index (log_end_offset l)) l2) as [= Hs2 Ha2].
  simpl in Hs2, Ha2. split.
  - exists (create (log_end_offset l)), (css ++ [cs]), []. split; [done|]. split.
    2: by rewrite concat_app, app_nil_r; simpl; rewrite app_nil_r.
    split; [|by apply create_holds_nothing|done]. rewrite Hs2, Hsegs. apply chain_app.
    exists css, [cs]. split_and!; [done..|]. constructor; [by apply holds_seal|simpl; lia|constructor].
  - unfold log_end_offset at 1. rewrite Ha2. simpl. lia.
Qed.

Definition is_err {E A} (r : result E A) : Prop := match r with Err _ => True | Ok _ => False end.

Lemma roll_if_full_contains l xs :
  contains l xs → readable l (log_end_offset l) → log_end_offset l < 2 ^ 63 →
  let l' := (roll_if_full crc32c l).1 in contains l' xs ∧ log_end_offset l' = log_end_offset l.
Proof.
  intros Hc Hr Hlt. unfold roll_if_full. rewrite run_bind. unfold get, when. case_match; [|done].
  by apply roll_active_segment_contains.
Qed.

(** [f] stores [x] behind the segment's end, whatever it reports. *)
Definition adds (end_ : Z) (x : Stored) (f : Segment → Segment * result LogError nat) : Prop :=
  ∀ a cs, holds a cs → sealed a = false → last_offset a + 1 = end_ →
    let s := (f a).1 in holds s (cs ++ [x]) ∧ sealed s = false ∧ base_offset s = base_offset a ∧
    (end_ - base_offset a < 2 ^ 32 → bytes_of a < 2 ^ 32 → ∃ p, (f a).2 = Ok p).

Lemma on_active_adds l xs x f :
  contains l xs → adds (log_end_offset l) x f → contains (on_active f l).1 (xs ++ [x]).
Proof.
  intros (a & css & cs & Ha & [Hch Hh Hop] & ->) Hf. unfold on_active. rewrite Ha.
  destruct (Hf a cs Hh Hop) as (H1 & H2 & H3 & _); [unfold log_end_offset; by rewrite Ha|].
  destruct (f a) as [s r]. simpl in *. exists s, css, (cs ++ [x]). split_and!; [done| |by rewrite (assoc_L (++))].
  split; [|done..]. simpl. by rewrite H3.
Qed.

Lemma adds_fits l xs x f a :
  contains l xs → adds (log_end_offset l) x f → active l = Some a →
  log_end_offset l - base_offset a < 2 ^ 32 → bytes_of a < 2 ^ 32 → ∃ p, (f a).2 = Ok p.
Proof.
  intros (a' & css & cs & Ha & [_ Hh Hop] & _) Hf Ha' H1 H2. replace a' with a in * by congruence.
  apply (Hf a cs Hh Hop); [|done..]. unfold log_end_offset. by rewrite Ha.
Qed.

(** The common course of both appends. *)
Lemma append_contains {A} l xs x (tail : result LogError A) f (rest : M unit) `{!Keeps body rest} :
  contains l xs → readable l (log_end_offset l) → log_end_offset l < 2 ^ 63 →
  (∀ iv, adds (log_end_offset l) x (f iv)) →
  let '(l', r) := (_ ← lift tail; _ ← roll_if_full crc32c; iv ← get (fun l => index_interval (config l));
                   _ ← on_active (f iv); rest) l in
  contains l' (xs ++ [x]) ∨ contains l' xs ∧ is_err r.
Proof.
  intros Hc Hr Hlt Hf. rewrite run_bind. unfold lift. destruct tail as [t|e]; simpl; [|by right].
  rewrite run_bind. destruct (roll_if_full_contains l xs Hc Hr Hlt) as [H1 H2].
  destruct (roll_if_full crc32c l) as [l1 [[]|e]]; simpl in *; [|by right].
  rewrite run_bind. unfold get. rewrite run_bind.
  pose proof (on_active_adds l1 xs x (f (index_interval (config l1))) H1) as H3. rewrite H2 in H3.
  specialize (H3 (Hf _)). destruct (on_active _ l1) as [l2 [p|e]]; simpl in H3; [|by left].
  pose proof (contains_quiet rest l2 _ H3). destruct (rest l2). by left.
Qed.

(** *** Producers and transactions *)
Lemma body_end l l' : body l' = body l → log_end_offset l' = log_end_offset l.
Proof. intros [= _ H]. unfold log_end_offset. by rewrite H. Qed.

Lemma finish_transaction_tracks b stamp l l' :
  finish_transaction b stamp l = (l', Ok tt) →
  tracking l' = close_transaction (Batch.producer_id b) (log_end_offset l) (note_coordinator b (tracking l)).
Proof.
  intros (l1 & [] & [= <-] & H)%run_ok. apply run_ok in H as (? & ? & [= <- <-] & H).
  apply run_ok in H as (l2 & [] & H2 & H). apply run_ok in H as (l3 & [] & H3 & [= <-]).
  cbn [tracking set_tracking id] in *. set (l1 := set_tracking _ l) in *.
  assert (tracking l2 = tracking l1 ∧ log_end_offset l2 = log_end_offset l1) as [Ht2 He2].
  { split; [|apply body_end]; revert H2; apply keeps_run; keeps_steps. }
  assert (tracking l3 = tracking l2 ∧ log_end_offset l3 = log_end_offset l2) as [Ht3 He3].
  { split; [|apply body_end]; revert H3; apply keeps_run; keeps_steps. }
  by rewrite Ht3, Ht2, He3, He2.
Qed.

Lemma update_producers_tracks f l l' :
  update_producers f l = (l', Ok tt) →
  ∃ m, f (producer_state (tracking l)) = Ok m ∧ tracking l' = set_producers m (tracking l).
Proof.
  intros (? & ? & [= <- <-] & H)%run_ok. apply run_ok in H as (? & m & H & [= <-]).
  unfold lift in H. destruct (f _) as [m'|] eqn:Hf; [|done]. injection H as <- <-. by exists m'.
Qed.

(** Everything an append does to them is [track], at the log end behind the batch. *)
Lemma append_preserving_offset_tracks b stamp l l' :
  append_preserving_offset crc32c b stamp l = (l', Ok tt) →
  track (log_end_offset l') (tracking l) b = Ok (tracking l').
Proof.
  intros (l1 & ? & H1 & H)%run_ok. apply run_ok in H as (l2 & ? & H2 & H).
  apply run_ok in H as (? & iv & [= <- _] & H). apply run_ok in H as (l3 & ? & H3 & H).
  apply run_ok in H as (l4 & ? & H4 & H). apply run_ok in H as (l5 & [] & H5 & H6).
  apply (keeps_run tracking) in H1, H2, H3, H4; [|keeps_steps..].
  pose proof (keeps_run body _ _ _ _ H6) as Hb6%body_end.
  assert (log_end_offset l5 = log_end_offset l4) as Hb5.
  { apply body_end. revert H5. apply keeps_run. keeps_steps. }
  apply update_producers_tracks in H6 as (m & Hm & Ht). unfold track.
  assert (tracking l5 = if is_control b
    then close_transaction (Batch.producer_id b) (log_end_offset l') (note_coordinator b (tracking l))
    else if in_transaction b
    then open_transaction (Batch.producer_id b) (Batch.base_offset b) (batch_last b) (tracking l)
    else advance_lso (log_end_offset l') (tracking l)) as Ht5.
  { rewrite Hb6, Hb5. rewrite <- H1, <- H2, <- H3, <- H4.
    destruct (is_control b); [by apply finish_transaction_tracks in H5|].
    destruct (in_transaction b); by injection H5 as <-. }
  by rewrite <- Ht5, Hm, Ht.
Qed.

(** The producer fields can be recorded and the active segment has room. *)
Definition accepts (l : Log) (b : Batch.RecordBatch) : Prop :=
  ∃ a t, active l = Some a ∧ bytes_of a < segment_size (config l) ∧ bytes_of a < 2 ^ 32 ∧
    Batch.base_offset b - base_offset a < 2 ^ 32 ∧
    data_producer_tail (Batch.producer_id b) (Batch.base_sequence b) (Batch.last_offset_delta b)
      (Batch.base_offset b) = Ok t.

Lemma append_succeeds {A} l a (t : A) (f : Z → Segment → Segment * result LogError nat) p (rest : M unit) :
  active l = Some a → bytes_of a < segment_size (config l) →
  (f (index_interval (config l)) a).2 = Ok p → stamp_source l = None →
  (∀ l1, stamp_source l1 = None → ∃ l' u, rest l1 = (l', Ok u)) →
  ∃ l' u, (_ ← lift (Ok t); _ ← roll_if_full crc32c; iv ← get (fun l => index_interval (config l));
           _ ← on_active (f iv); rest) l = (l', Ok u).
Proof.
  intros Ha Hfull Hf Hs Hrest. rewrite run_bind. unfold lift at 1. simpl. rewrite run_bind. unfold roll_if_full.
  rewrite run_bind. unfold get at 1. rewrite Ha, (proj2 (Z.leb_gt _ _)) by lia.
  cbn [when]. unfold mret at 1, M_ret at 1. rewrite run_bind. unfold get at 1. rewrite run_bind.
  unfold on_active. rewrite Ha. destruct (f _ a) as [s' r]. simpl in Hf. subst r. by apply Hrest.
Qed.

Lemma append_accepted l b stamp :
  stamp_source l = None → accepts l b →
  (∀ a, active l = Some a → ∃ p, (Segment.append a b (index_interval (config l))).2 = Ok p) →
  ∃ l' u, append_preserving_offset crc32c b stamp l = (l', Ok u).
Proof.
  intros Hs (a & t & Ha & Hfull & _ & _ & Ht) Happ. unfold append_preserving_offset. rewrite Ht.
  destruct (Happ a Ha) as [p Hp].
  apply (append_succeeds l a t (fun iv s => Segment.append s b iv) p); [done..|].
  intros l1 H1. apply total_then; [apply _|done|]. intros l2 _ H2. apply total_then; [|done|].
  { destruct (is_control b); [apply _|]. destruct (in_transaction b); [apply _|]. by apply total_modify. }
  intros l3 _ _. unfold update_producers. rewrite run_bind. unfold get. rewrite run_bind.
  assert (∃ m, update_owned_producer_entry (producer_state (tracking l3)) b = Ok m) as [m ->].
  { unfold update_owned_producer_entry, update_data_producer_entry. rewrite Ht.
    destruct (_ <? 0); [by eexists|]. destruct (is_control b); [by eexists|]. simpl. destruct t as [[]|]; by eexists. }
  by do 2 eexists.
Qed.

Lemma append_adds b bs iv end_ :
  batch_encode b = Ok bs → stored (b, bs) → Batch.base_offset b = end_ → end_ ≤ batch_last b →
  in_s 64 (Batch.base_offset b + Batch.last_offset_delta b) →
  adds end_ (b, bs) (fun s => Segment.append s b iv).
Proof.
  intros He Hst Hb Hl Hd a cs Ha Hs Hend. pose proof Ha as [Hst' Hlast].
  pose proof (append_adds_batch a cs b bs iv Ha Hs He Hst ltac:(lia) Hd) as Hadd.
  destruct (Segment.append a b iv) as [s r]. simpl. destruct Hadd as (? & ? & ? & _ & Hok). split_and!; [done..|].
  unfold bytes_of, log_size. rewrite (h_file _ _ Hst'). intros. eexists. apply Hok; lia.
Qed.

Lemma append_preserving_offset_contains l xs b bs stamp :
  contains l xs → readable l (log_end_offset l) → batch_encode b = Ok bs → stored (b, bs) →
  Batch.base_offset b = log_end_offset l → log_end_offset l ≤ batch_last b →
  in_s 64 (Batch.base_offset b + Batch.last_offset_delta b) →
  let '(l', r) := append_preserving_offset crc32c b stamp l in
  contains l' (xs ++ [(b, bs)]) ∨ contains l' xs ∧ is_err r.
Proof.
  intros Hc Hr He Hst Hb Hl Hd. unfold append_preserving_offset. apply append_contains; [keeps_steps|done..| |].
  - pose proof (wrap_s_range 64 (Batch.base_offset b + Batch.last_offset_delta b)).
    unfold batch_last, in_s in *. lia.
  - intros iv. by apply append_adds.
Qed.

Lemma note_epoch_ok e o l :
  ∃ l', note_epoch e o l = (l', Ok tt) ∧ body l' = body l ∧ tracking l' = tracking l.
Proof. eexists. split; [done|]. simpl. by case_match. Qed.

Lemma contains_end l xs x : contains l (xs ++ [x]) → log_end_offset l = batch_last x.1 + 1.
Proof. intros [_ ->]%contains_ordered. by rewrite next_offset_app. Qed.

(** C3. An append to a well-formed log puts the batch, stamped with the log end
    as its offset, behind everything the log contains, rolling to a new segment
    when the active one is full.  On success the offset is returned and the
    producer and transaction state is that of [track]; on an error the log is
    well formed with the batch either absent or present.  It succeeds when the
    segment has room, the producer fields are in range and no stamp source is
    installed. *)
Theorem append_extends l xs b bs :
  let end_ := log_end_offset l in
  let x := at_offset end_ b in
  contains l xs → readable l end_ → batch_encode x = Ok bs → stored (x, bs) →
  end_ ≤ batch_last x → in_s 64 (end_ + Batch.last_offset_delta b) →
  let '(l', r) := append crc32c b l in
  match r with
  | Ok o => o = end_ ∧ contains l' (xs ++ [(x, bs)]) ∧ log_end_offset l' = batch_last x + 1 ∧
            track (log_end_offset l') (tracking l) x = Ok (tracking l')
  | Err _ => contains l' xs ∨ contains l' (xs ++ [(x, bs)])
  end ∧
  (stamp_source l = None → accepts l x → ∃ o, r = Ok o).
Proof.
  intros end_ x Hc Hr He Hst Hl Hd.
  pose proof (append_preserving_offset_contains l xs x bs None Hc Hr He Hst eq_refl Hl Hd) as Hadd.
  unfold append. rewrite run_bind. unfold get. fold end_ x. rewrite run_bind.
  destruct (append_preserving_offset crc32c x None l) as [l1 [[]|e]] eqn:Happ.
  - destruct Hadd as [Hadd|[_ []]]. rewrite run_bind.
    destruct (note_epoch_ok (Batch.partition_leader_epoch b) end_ l1) as (l2 & -> & Hb & Ht).
    split; [|by eexists]. pose proof (contains_body _ _ _ Hb Hadd) as Hc2.
    split_and!; [done..|by apply contains_end in Hc2|].
    rewrite (body_end _ _ Hb), Ht. by apply append_preserving_offset_tracks in Happ.
  - split; [tauto|]. intros Hs Hacc. pose proof Hacc as (a & t & Ha & _ & H1 & H2 & _).
    destruct (append_accepted l x None Hs Hacc) as (? & ? & ?); [|congruence].
    intros a' Ha'. replace a' with a by congruence.
    apply (adds_fits l xs (x, bs) (fun s => Segment.append s x (index_interval (config l)))); [done| |done..].
    by apply append_adds.
Qed.

(** *** The produce path *)
(** The header fields that come with a data batch are its own. *)
Record describes (v : VerbatimBatch) (b : Batch.RecordBatch) : Prop := {
  d_bytes : stored (b, v_bytes v);
  d_delta : v_last_offset_delta v = Batch.last_offset_delta b;
  d_ts : v_max_timestamp v = Batch.max_timestamp b;
  d_pid : v_producer_id v = Batch.producer_id b;
  d_pepoch : v_producer_epoch v = Batch.producer_epoch b;
  d_sequence : v_base_sequence v = Batch.base_sequence b;
  d_txn : v_is_transactional v = is_transactional b;
  d_data : is_control b = false;
  d_epoch : in_s 32 (v_leader_epoch v);
}.

Lemma verbatim_tracks v b base l l' :
  describes v b → append_verbatim_preserving_offset crc32c v base l = (l', Ok tt) →
  track (log_end_offset l') (tracking l) (restamp b base (v_leader_epoch v)) = Ok (tracking l').
Proof.
  intros [_ Hd Hts Hpid Hpe Hseq Htx Hc _]. unfold append_verbatim_preserving_offset. rewrite Hd, Hts, Hpid, Hpe, Hseq, Htx.
  intros (l1 & ? & H1 & H)%run_ok. apply run_ok in H as (l2 & ? & H2 & H).
  apply run_ok in H as (? & iv & [= <- _] & H). apply run_ok in H as (l3 & ? & H3 & H).
  apply run_ok in H as (l4 & ? & H4 & H). apply run_ok in H as (l5 & [] & H5 & H6).
  apply (keeps_run tracking) in H1, H2, H3, H4; [|keeps_steps..].
  pose proof (keeps_run body _ _ _ _ H6) as Hb6%body_end.
  assert (log_end_offset l5 = log_end_offset l4) as Hb5.
  { apply body_end. revert H5. apply keeps_run. keeps_steps. }
  apply update_producers_tracks in H6 as (m & Hm & Ht). unfold track. set (r := restamp b base _).
  replace (is_control r) with false by done. replace (in_transaction r) with (in_transaction b) by done.
  assert (tracking l5 = if in_transaction b
    then open_transaction (Batch.producer_id r) (Batch.base_offset r) (batch_last r) (tracking l)
    else advance_lso (log_end_offset l') (tracking l)) as Ht5.
  { rewrite Hb6, Hb5, <- H1, <- H2, <- H3, <- H4. unfold in_transaction in *.
    destruct (_ && _); by injection H5 as <-. }
  rewrite <- Ht5. unfold update_owned_producer_entry, update_data_producer_entry in *.
  replace (is_control r) with false by done. cbn [r restamp Batch.producer_id] in *.
  destruct (Batch.producer_id b <? 0) eqn:Hneg.
  - unfold data_producer_tail in Hm. rewrite Hneg in Hm. injection Hm as <-. by rewrite Ht.
  - rewrite (proj2 (Z.leb_le 0 _)), andb_true_r in Hm by (apply Z.ltb_ge in Hneg; done).
    replace (is_transactional r) with (is_transactional b) by done. cbn. rewrite Hm. by rewrite Ht.
Qed.

(** The stored form of a verbatim batch: its header patched, its body as it came. *)
Definition patched (v : VerbatimBatch) (base : Z) : list byte :=
  default [] (Header.patch_base_offset_and_leader_epoch (take Header.HEADER_LEN (v_bytes v)) base (v_leader_epoch v))
  ++ drop Header.HEADER_LEN (v_bytes v).

Lemma verbatim_adds v b iv base :
  describes v b → in_s 64 base → in_s 64 (base + Batch.last_offset_delta b) → 0 ≤ Batch.last_offset_delta b →
  adds base (restamp b base (v_leader_epoch v), patched v base)
    (fun s => Segment.append_verbatim s (v_bytes v) base (v_last_offset_delta v) (v_max_timestamp v)
                (v_leader_epoch v) iv).
Proof.
  intros [Hst Hd Hts _ _ _ _ _ He] Hb Hsum Hpos a cs Ha Hs Hend. rewrite Hd, Hts. pose proof Ha as [_ Hlast].
  pose proof (stored_length _ Hst) as Hlen. simpl in Hlen. unfold patched.
  destruct (Header.patch_base_offset_and_leader_epoch _ _ _) as [h|] eqn:Hp.
  2: { unfold Header.patch_base_offset_and_leader_epoch, Header.HEADER_LEN in Hp.
       rewrite length_take in Hp. by rewrite bool_decide_eq_false_2 in Hp by lia. }
  pose proof (append_verbatim_restamps a cs b (v_bytes v) base (v_leader_epoch v) iv h Ha Hs Hst Hb He) as Hadd.
  destruct (Segment.append_verbatim _ _ _ _ _ _ _) as [s' r]. simpl.
  destruct Hadd as (H1 & H2 & H3 & Hok); [unfold batch_last; simpl; rewrite wrap_s_id by done; lia|done..|].
  split_and!; [done..|]. unfold bytes_of, log_size. destruct Ha as [Hst' _]. rewrite (h_file _ _ Hst').
  intros. eexists. by apply Hok.
Qed.

Lemma verbatim_accepted l v b base :
  describes v b → stamp_source l = None → accepts l (restamp b base (v_leader_epoch v)) →
  (∀ a, active l = Some a →
     ∃ p, (Segment.append_verbatim a (v_bytes v) base (v_last_offset_delta v) (v_max_timestamp v)
             (v_leader_epoch v) (index_interval (config l))).2 = Ok p) →
  ∃ l' u, append_verbatim_preserving_offset crc32c v base l = (l', Ok u).
Proof.
  intros [_ Hd _ Hpid _ Hseq _ _ _] Hs (a & t & Ha & Hfull & _ & _ & Ht) Happ.
  unfold append_verbatim_preserving_offset. destruct (Happ a Ha) as [p Hp]. simpl in Ht.
  assert (data_producer_tail (v_producer_id v) (v_base_sequence v) (v_last_offset_delta v) base = Ok t) as Ht'
    by (by rewrite Hd, Hpid, Hseq). rewrite Ht'.
  apply (append_succeeds l a t (fun iv s => Segment.append_verbatim s (v_bytes v) base (v_last_offset_delta v)
    (v_max_timestamp v) (v_leader_epoch v) iv) p); [done..|].
  intros l1 H1. apply total_then; [apply _|done|]. intros l2 _ H2. apply total_then; [|done|].
  { destruct (_ && _); [apply _|]. by apply total_modify. }
  intros l3 _ _. unfold update_producers, update_data_producer_entry. rewrite run_bind. unfold get. rewrite Ht'.
  destruct t as [[]|]; by do 2 eexists.
Qed.

(** C14. The produce path, which never decodes a batch, appends it like [append]:
    the log contains the producer's batch restamped with the log end and the
    leader epoch, its bytes those that came except for the patched header fields,
    and the producer and transaction state is that of [track] on it.  Errors and
    success are as for [append]. *)
Theorem append_verbatim_extends l xs v b :
  let end_ := log_end_offset l in
  let x := restamp b end_ (v_leader_epoch v) in
  contains l xs → readable l end_ → describes v b → in_s 64 end_ →
  in_s 64 (end_ + Batch.last_offset_delta b) → 0 ≤ Batch.last_offset_delta b →
  let '(l', r) := append_verbatim crc32c v l in
  match r with
  | Ok o => o = end_ ∧ contains l' (xs ++ [(x, patched v end_)]) ∧ log_end_offset l' = batch_last x + 1 ∧
            track (log_end_offset l') (tracking l) x = Ok (tracking l')
  | Err _ => contains l' xs ∨ contains l' (xs ++ [(x, patched v end_)])
  end ∧
  (stamp_source l = None → accepts l x → ∃ o, r = Ok o).
Proof.
  intros end_ x Hc Hr Hv He Hd Hpos. unfold append_verbatim. rewrite run_bind. unfold get. fold end_. rewrite run_bind.
  assert (let '(l', r) := append_verbatim_preserving_offset crc32c v end_ l in
    contains l' (xs ++ [(x, patched v end_)]) ∨ contains l' xs ∧ is_err r) as Hadd.
  { unfold append_verbatim_preserving_offset. apply append_contains; [keeps_steps|done..| |].
    - unfold in_s in He. lia.
    - intros iv. by apply verbatim_adds. }
  destruct (append_verbatim_preserving_offset crc32c v end_ l) as [l1 [[]|e]] eqn:Happ.
  - destruct Hadd as [Hadd|[_ []]]. rewrite run_bind.
    destruct (note_epoch_ok (v_leader_epoch v) end_ l1) as (l2 & -> & Hb & Ht). split; [|by eexists].
    pose proof (contains_body _ _ _ Hb Hadd) as Hc2. split_and!; [done..|by apply contains_end in Hc2|].
    rewrite (body_end _ _ Hb), Ht. by eapply verbatim_tracks.
  - split; [tauto|]. intros Hs Hacc.
    destruct (verbatim_accepted l v b end_ Hv Hs Hacc) as (? & ? & ?); [|congruence].
    intros a Ha. destruct Hacc as (a' & t & Ha' & _ & H1 & H2 & _). replace a' with a in * by congruence.
    apply (adds_fits l xs (x, patched v end_) (fun s => Segment.append_verbatim s (v_bytes v) end_
      (v_last_offset_delta v) (v_max_timestamp v) (v_leader_epoch v) (index_interval (config l)))); [done| |done..].
    by apply verbatim_adds.
Qed.
End Append.
End Content.
