(* ===== verification/LogCut.v ===== *)
(** * Cutting a log

    What [truncate_to], [trim_to_offset] and the retention pass of [tick] leave
    of a log's content: a prefix for the first, a suffix for the others. *)

From S2P Require Import Prelude Wire Records Batches BatchStore LogIndex Segment SegmentInv Retention.
From S2P Require Import LeaderEpoch ProducerSnapshot StampIndex Compaction Tracking Log LogInv.

(** ** Recovering the producer state leaves the segments alone *)
Section Rebuild.
Context {source : StampSource} {store : BatchStore} {search : BinarySearch} (crc32c : list byte → Z).

#[global] Instance body_cover o bs : Keeps body (cover crc32c o bs).
Proof. unfold cover. keeps_steps. Qed.
#[global] Instance body_replay_batches bs o bds : Keeps body (replay_batches crc32c bs o bds).
Proof. revert o bds. induction bs as [|b bs IH]; intros; simpl; keeps_steps. Qed.
#[global] Instance body_replay_log fuel next end_ bds : Keeps body (replay_log crc32c fuel next end_ bds).
Proof. revert next bds. induction fuel as [|fuel IH]; intros; simpl; keeps_steps; done. Qed.
#[global] Instance body_rebuild_ranges_of bs o : Keeps body (rebuild_ranges_of bs o).
Proof. revert o. induction bs as [|b bs IH]; intros; simpl; keeps_steps. Qed.
#[global] Instance body_rebuild_ranges fuel next end_ : Keeps body (rebuild_ranges fuel next end_).
Proof. revert next. induction fuel as [|fuel IH]; intros; simpl; keeps_steps; done. Qed.
#[global] Instance body_rebuild_pending : Keeps body rebuild_pending_stamp_ranges.
Proof. unfold rebuild_pending_stamp_ranges. keeps_steps. Qed.
#[global] Instance body_rebuild : Keeps body (rebuild_producer_and_transaction_state crc32c).
Proof. unfold rebuild_producer_and_transaction_state. keeps_steps. Qed.
End Rebuild.

(** ** Parts of an ordered sequence *)
Section Parts.
Lemma ordered_all_below lo xs o :
  ordered lo xs → next_offset lo xs ≤ o → filter (fun x => batch_last x.1 < o) xs = xs.
Proof.
  intros Ho Hn. apply filter_all. eapply Forall_impl; [by apply ordered_below|]. simpl. lia.
Qed.

Lemma ordered_all_above lo xs o :
  ordered lo xs → o ≤ lo → filter (fun x => batch_last x.1 < o) xs = [].
Proof.
  intros Ho Hn. apply filter_none. eapply Forall_impl; [by apply ordered_below|]. simpl. lia.
Qed.
End Parts.

Section Cut.
Context {source : StampSource} {store : BatchStore} {search : BinarySearch} (crc32c : list byte → Z).

(** Every transaction index on disk is readable, and no segment spans more
    offsets or bytes than an index entry can say. *)
Definition readable_all (l : Log) : Prop := ∀ base, readable l base.
Definition narrow (s : Segment) : Prop :=
  bytes_of s < 2 ^ 32 ∧ last_offset s + 1 - base_offset s < 2 ^ 32.

Lemma readable_delete l l' base :
  txn_files (disk l') = delete base (txn_files (disk l)) → readable_all l → readable_all l'.
Proof.
  intros Hd Hr b. unfold readable. rewrite Hd. destruct (decide (b = base)) as [->|Hne].
  - rewrite lookup_delete_eq. by eexists.
  - rewrite lookup_delete_ne by done. apply Hr.
Qed.

(** *** Truncating *)
Lemma drop_tail_spec fuel offset l :
  (length (segments l) ≤ fuel)%nat →
  let l' := drop_tail fuel offset l in
  ∃ dropped, segments l = segments l' ++ dropped ∧ Forall (fun s => offset ≤ base_offset s) dropped ∧
    (∀ s, last (segments l') = Some s → base_offset s < offset) ∧ active l' = active l ∧
    stamp_source l' = stamp_source l ∧ (readable_all l → readable_all l').
Proof.
  revert l. induction fuel as [|fuel IH]; intros l Hlen; simpl.
  { exists []. assert (segments l = []) as Hs by (by destruct (segments l); simpl in *; [|lia]).
    rewrite Hs. by split_and!. }
  destruct (last (segments l)) as [s|] eqn:Hl; [|exists []; rewrite app_nil_r; split_and!; by try congruence].
  destruct (Z.leb_spec offset (base_offset s)).
  2: { exists []. rewrite app_nil_r. split_and!; try done. intros s' [= <-]%(eq_trans (eq_sym Hl)). done. }
  apply last_Some in Hl as [segs Hsegs]. rewrite Hsegs in Hlen |- *. rewrite length_app in Hlen |- *. simpl in Hlen |- *.
  replace (length segs + 1 - 1)%nat with (length segs) by lia. rewrite take_app_length.
  match goal with |- context [drop_tail fuel offset ?l] => set (l1 := l) end.
  destruct (IH l1) as (dropped & H1 & H2 & H3 & H4 & H5 & H6); [simpl; lia|]. simpl in H1.
  exists (dropped ++ [s]). split_and!; [by rewrite (assoc_L (++)), <- H1| |done..|].
  - apply Forall_app. split; [done|]. by apply Forall_singleton.
  - intros Hr. apply H6. by apply (readable_delete l _ (base_offset s)).
Qed.

Lemma holds_last s c : holds s c → base_offset s - 1 ≤ last_offset s < 2 ^ 63.
Proof.
  intros [H ->]. pose proof (h_base _ _ H). pose proof (ordered_next _ _ (h_ordered _ _ H)). split; [lia|].
  destruct c as [|x c _] using rev_ind; [unfold next_offset; simpl; lia|]. rewrite next_offset_app.
  unfold next_offset at 1. simpl. pose proof (wrap_s_range 64 (Batch.base_offset x.1 + Batch.last_offset_delta x.1)).
  unfold batch_last, in_s in *. lia.
Qed.

Lemma truncate_segment s c offset :
  holds s c → narrow s → base_offset s ≤ offset ≤ last_offset s + 1 →
  ∃ rel s', relative offset (base_offset s) = Ok rel ∧ truncate_to_relative s rel = (s', Ok ()) ∧
    holds s' (filter (fun x => batch_last x.1 < offset) c) ∧ sealed s' = false ∧ base_offset s' = base_offset s.
Proof.
  intros H [Hb Ho] Hoff. pose proof (holds_last _ _ H). pose proof H as [Hst _]. pose proof (h_base _ _ Hst).
  pose proof (truncate_keeps_below s c (offset - base_offset s) H ltac:(lia) Hb) as Ht.
  destruct (truncate_to_relative s _) as [s' r] eqn:Hs'. destruct Ht as (-> & Hh & _ & Hs & Hbase).
  exists (offset - base_offset s), s'. split_and!; [|done| |done..].
  - unfold relative. rewrite wrap_s_id by (unfold in_s; lia).
    by rewrite (proj2 (Z.leb_le _ _)), (proj2 (Z.ltb_lt _ _)) by lia.
  - by replace (base_offset s + (offset - base_offset s)) with offset in Hh by lia.
Qed.

(** Opening the sidecars of the new active segment. *)
Lemma open_txn_index_ok l base :
  readable l base → ∃ l', open_txn_index base l = (l', Ok tt) ∧ body l' = body l ∧
    stamp_source l' = stamp_source l.
Proof.
  intros [ix Hix]. unfold open_txn_index. rewrite run_bind. unfold get. rewrite Hix. by eexists.
Qed.

#[local] Instance body_truncate_stamps base offset : Keeps body (modify (truncate_stamps base offset)).
Proof. apply keeps_modify. intros l. unfold truncate_stamps, put_stamp_index. by repeat case_match. Qed.
#[local] Instance total_truncate_stamps base offset : Total (modify (truncate_stamps base offset)).
Proof. apply total_modify. intros l. unfold truncate_stamps, put_stamp_index. by repeat case_match. Qed.
#[local] Instance total_reopen base : Total (reopen_active_stamp_index base).
Proof. intros l Hl. exists l, tt. unfold reopen_active_stamp_index. by rewrite Hl. Qed.

(** What a step of the truncation is to leave. *)
Definition leaves (l : Log) (out : Log * result Fault unit) (xs : list Stored) : Prop :=
  contains out.1 xs ∧ (stamp_source l = None → out.2 = Ok tt ∧ stamp_source out.1 = None).

Lemma leaves_quiet l l1 xs (m : M unit) `{!Keeps body m, !Total m} :
  contains l1 xs → stamp_source l1 = stamp_source l → leaves l (m l1) xs.
Proof.
  intros Hc Hs. split; [by apply contains_quiet|]. rewrite <- Hs. intros Hn.
  destruct (total (m := m) l1 Hn) as (l' & [] & Hm & ?). by rewrite Hm.
Qed.

Lemma truncate_active_leaves l a css cs offset :
  active l = Some a → split (segments l) a css cs → narrow a → readable l (base_offset a) →
  base_offset a ≤ offset ≤ last_offset a →
  leaves l (truncate_active offset l) (concat css ++ filter (fun x => batch_last x.1 < offset) cs).
Proof.
  intros Ha [Hch Hh Hop] Hn Hr Ho. destruct (truncate_segment a cs offset Hh Hn ltac:(lia)) as (rel & s & H1 & H2 & H3 & H4 & H5).
  unfold truncate_active. rewrite run_bind. unfold get, id. rewrite Ha, (proj2 (Z.leb_le _ _)), run_bind by lia.
  rewrite H1. simpl. rewrite run_bind. unfold on_active. rewrite Ha, H2. cbn [map_err]. rewrite run_bind.
  destruct (open_txn_index_ok (set_active (Some s) l) (base_offset a) Hr) as (l1 & -> & Hb & Hs).
  apply leaves_quiet; [apply _..| |done]. apply (contains_body _ _ _ Hb).
  exists s, css, (filter (fun x => batch_last x.1 < offset) cs). split_and!; [done| |done]. split; simpl; by rewrite ?H5.
Qed.

Lemma promote_sealed_leaves l segs s css c end_ offset :
  segments l = segs ++ [s] → chain (segs ++ [s]) (css ++ [c]) end_ → narrow s → readable l (base_offset s) →
  base_offset s ≤ offset ≤ end_ →
  leaves l (promote_sealed offset l) (concat css ++ filter (fun x => batch_last x.1 < offset) c).
Proof.
  intros Hl Hc Hn Hr Ho. apply chain_app in Hc as (css1 & css2 & Hcss & Hc1 & Hc2).
  inversion Hc2 as [|? c' ? ? ? Hh He Hnil]; subst. inversion Hnil; subst. apply app_inj_tail in Hcss as [-> ->].
  simpl in He. destruct (truncate_segment s c' offset Hh Hn ltac:(lia)) as (rel & s' & H1 & H2 & H3 & H4 & H5).
  unfold promote_sealed. rewrite run_bind. unfold get, id. rewrite Hl, last_snoc, run_bind. cbn [modify].
  rewrite run_bind, H1. cbn [lift map_err]. rewrite H2, run_bind. cbn [lift map_err]. rewrite run_bind. set (l0 := set_segments _ l).
  destruct (open_txn_index_ok l0 (base_offset s') ltac:(by rewrite H5)) as (l1 & -> & Hb & Hs).
  rewrite run_bind. cbn [modify].
  apply leaves_quiet; [apply _..| |done]. injection Hb as Hseg Hact.
  exists s', css1, (filter (fun x => batch_last x.1 < offset) c'). split_and!; [done| |done].
  split; [|done..]. simpl. rewrite Hseg, H5. simpl. rewrite length_app. simpl.
  replace (length segs + 1 - 1)%nat with (length segs) by lia. by rewrite take_app_length.
Qed.

Lemma promote_nothing l offset :
  segments l = [] → readable l offset → 0 ≤ offset < 2 ^ 63 → leaves l (promote_sealed offset l) [].
Proof.
  intros Hl Hr Ho. unfold promote_sealed. rewrite run_bind. unfold get, id. rewrite Hl. cbn [last]. rewrite run_bind.
  destruct (open_txn_index_ok l offset Hr) as (l1 & -> & [= Hb _] & Hs). rewrite run_bind. cbn [modify].
  apply leaves_quiet; [apply _..| |done]. exists (create offset), [], []. split_and!; [done| |done].
  split; [|by apply create_holds_nothing|done]. simpl. rewrite Hb, Hl. constructor.
Qed.

Lemma leaves_source l l' out xs : stamp_source l' = stamp_source l → leaves l' out xs → leaves l out xs.
Proof. intros Hs [H1 H2]. split; [done|]. by rewrite <- Hs. Qed.

(** With the active segment gone, the last sealed one is cut. *)
Lemma promote_leaves l l2 segs dropped a css cs offset :
  segments l = segs ++ dropped → split (segments l) a css cs → Forall narrow (segments l) →
  Forall (fun s => offset ≤ base_offset s) dropped → (∀ s, last segs = Some s → base_offset s < offset) →
  offset ≤ base_offset a → first_base (segments l) (base_offset a) ≤ offset →
  segments l2 = segs → stamp_source l2 = stamp_source l → readable_all l2 →
  leaves l (promote_sealed offset l2) (filter (fun x => batch_last x.1 < offset) (concat css ++ cs)).
Proof.
  intros Hs [Hch Hh Hop] Hn Hd Hl Hoff Hlo H2 Hss Hr. rewrite Hs in Hch, Hn. pose proof (holds_last _ _ Hh) as Hla.
  pose proof Hh as [Hst _]. pose proof (h_base _ _ Hst) as Hb.
  apply chain_app in Hch as (css1 & css2 & -> & Hc1 & Hc2).
  destruct (split_ordered dropped a css2 cs ltac:(by split)) as [Hord _].
  assert (offset ≤ first_base dropped (base_offset a)) as Hfb by (destruct dropped; [done|by apply Forall_cons in Hd as [? _]]).
  rewrite concat_app, <- (assoc_L (++)), filter_app, (ordered_all_above _ _ _ Hord Hfb), app_nil_r.
  apply (leaves_source _ l2); [done|]. destruct segs as [|s segs _] using rev_ind.
  { inversion Hc1; subst. apply promote_nothing; [done|apply Hr|]. rewrite Hs in Hlo. simpl in Hlo.
    pose proof (chain_base _ _ _ Hc2). lia. }
  specialize (Hl s (last_snoc _ _)). pose proof Hc1 as (css' & [|c [|]] & -> & Hc1' & Hc2')%chain_app;
    [by inversion Hc2'| |inversion Hc2' as [|? ? ? ? ? ? ? Hx]; inversion Hx].
  destruct (chain_ordered _ _ _ Hc1') as [Ho1 Hn1]. simpl in Ho1, Hn1.
  rewrite concat_app. simpl. rewrite app_nil_r, filter_app, (ordered_all_below _ _ _ Ho1) by lia.
  apply (promote_sealed_leaves _ segs s _ _ (first_base dropped (base_offset a))); [done..| |apply Hr|lia].
  rewrite !Forall_app, Forall_singleton in Hn. tauto.
Qed.

(** The middle of [truncate_to]: drop whole segments, then cut the last one. *)
Lemma cut_leaves l xs offset :
  contains l xs → readable_all l → Forall narrow (all_segments l) → base_of l ≤ offset < log_end_offset l →
  let l1 := drop_active offset (drop_tail (length (segments l)) offset l) in
  leaves l (match active l1 with None => promote_sealed offset l1 | Some _ => truncate_active offset l1 end)
    (filter (fun x => batch_last x.1 < offset) xs).
Proof.
  intros (a & css & cs & Ha & Hsp & ->) Hr Hn Ho. pose proof Hsp as [Hch Hh Hop]. cbv zeta.
  destruct (split_ordered _ _ _ _ Hsp) as [Hord _]. unfold base_of, log_end_offset in Ho. rewrite Ha in Ho.
  destruct (drop_tail_spec (length (segments l)) offset l ltac:(lia)) as (dropped & Hs & Hd & Hl & Ha1 & Hss & Hr1).
  set (l1 := drop_tail _ _ _) in *. clearbody l1. specialize (Hr1 Hr). pose proof (holds_last _ _ Hh) as Hla.
  destruct Hh as [Hh Hlast]. pose proof (h_base _ _ Hh) as Hbase.
  unfold drop_active. rewrite Ha1, Ha. destruct (Z.leb_spec offset (base_offset a)) as [Hoff|Hoff].
  - eapply (promote_leaves l _ (segments l1)); try done.
    + unfold all_segments in Hn. by apply Forall_app in Hn as [? _].
    + lia.
    + by apply (readable_delete l1 _ (base_offset a)).
  - rewrite Ha1, Ha. destruct (chain_ordered _ _ _ Hch) as [Ho1 Hn1].
    assert (dropped = []) as ->.
    { destruct dropped as [|s dropped]; [done|]. apply Forall_cons in Hd as [Hd _]. rewrite Hs in Hch.
      apply chain_app in Hch as (? & ? & _ & _ & Hc2). apply chain_base in Hc2; simpl in *; lia. }
    rewrite app_nil_r in Hs. rewrite filter_app, (ordered_all_below _ _ _ Ho1) by lia.
    apply (leaves_source _ l1); [done|]. apply (truncate_active_leaves _ a); [by rewrite Ha1| | |apply Hr1|lia].
    + by rewrite <- Hs.
    + unfold all_segments in Hn. rewrite Ha in Hn. by apply Forall_app in Hn as [_ [? _]%Forall_cons].
Qed.

Lemma tracking_drop_tail fuel offset l : tracking (drop_tail fuel offset l) = tracking l.
Proof. revert l. induction fuel as [|fuel IH]; intros l; simpl; [done|]. repeat case_match; [|done..]. by rewrite IH. Qed.

#[local] Instance tracking_truncate_stamps base offset : Keeps tracking (modify (truncate_stamps base offset)).
Proof. apply keeps_modify. intros l. unfold truncate_stamps, put_stamp_index. by repeat case_match. Qed.
#[local] Instance tracking_truncate_active offset : Keeps tracking (truncate_active offset).
Proof. unfold truncate_active. keeps_steps. Qed.
#[local] Instance tracking_promote_sealed offset : Keeps tracking (promote_sealed offset).
Proof. unfold promote_sealed. keeps_steps. Qed.

(** Its end: rebuild the producer state, then bound the last stable offset. *)
Lemma truncate_finish l xs f :
  contains l xs → (∀ l, body (f l) = body l ∧ lso (tracking (f l)) ≤ log_end_offset l) →
  let '(l', r) := (l ← get id;
    _ ← when (negb (bool_decide (producer_state (tracking l) = ∅))) (rebuild_producer_and_transaction_state crc32c);
    modify f) l in
  contains l' xs ∧ (r = Ok tt → lso (tracking l') ≤ log_end_offset l') ∧
  (producer_state (tracking l) = ∅ → r = Ok tt).
Proof.
  intros Hc Hf. rewrite run_bind. unfold get, id. rewrite run_bind.
  pose proof (keeps (p := body) (m := when (negb (bool_decide (producer_state (tracking l) = ∅)))
    (rebuild_producer_and_transaction_state crc32c)) l) as Hb.
  destruct (when _ _ l) as [l1 [[]|e]] eqn:Hw; simpl in Hb.
  - cbn [modify]. destruct (Hf l1) as [Hb1 Hl]. rewrite (body_end _ _ Hb1).
    split_and!; [apply (contains_body l); [by rewrite Hb1|done]|done..].
  - split_and!; [by apply (contains_body l)|done|]. intros He. by rewrite bool_decide_eq_true_2 in Hw.
Qed.

(** Its start only touches the snapshots. *)
Lemma drop_snapshots_ok c offset l :
  ∃ l0, when c (modify (fun l => set_snapshots (remove_after (snapshots (disk l)) offset) l)) l = (l0, Ok tt) ∧
    body l0 = body l ∧ txn_files (disk l0) = txn_files (disk l) ∧ stamp_source l0 = stamp_source l ∧
    tracking l0 = tracking l.
Proof. unfold when. case_match; by eexists. Qed.

(** The content it leaves. *)
Lemma truncate_to_content l xs offset :
  contains l xs → readable_all l → Forall narrow (all_segments l) →
  let '(l', r) := truncate_to crc32c offset l in
  if (offset <? log_end_offset l) && (offset <? log_start_offset l)
  then r = Err (Failed (OffsetTooLow offset (log_start_offset l))) ∧ l' = l
  else contains l' (filter (fun x => batch_last x.1 < offset) xs) ∧
       (offset < log_end_offset l → r = Ok tt → lso (tracking l') ≤ log_end_offset l') ∧
       (stamp_source l = None → producer_state (tracking l) = ∅ → r = Ok tt).
Proof.
  intros Hc Hr Hn. unfold truncate_to. rewrite run_bind. unfold get at 1. cbn [id].
  pose proof (contains_ordered _ _ Hc) as [Hord Hend].
  destruct (Z.leb_spec (log_end_offset l) offset) as [Hge|Hlt].
  { rewrite (proj2 (Z.ltb_ge _ _)) by lia. simpl. split_and!; [|lia|done].
    by rewrite (ordered_all_below _ _ _ Hord) by lia. }
  rewrite (proj2 (Z.ltb_lt offset (log_end_offset l))) by lia. cbn [andb].
  destruct (Z.ltb_spec offset (log_start_offset l)) as [Hlow|Hlow]; [done|]. rewrite run_bind.
  destruct (drop_snapshots_ok (negb (bool_decide (segments l = []))) offset l) as (l0 & -> & Hb & Hf & Hs & Ht).
  rewrite run_bind. cbn [modify]. rewrite run_bind. unfold get at 1. cbn [id]. rewrite run_bind.
  pose proof Hb as [= Hb1 Hb2]. destruct (cut_leaves l0 xs offset) as [Hc2 Hok].
  { by apply (contains_body l). }
  { intros base. unfold readable. rewrite Hf. apply Hr. }
  { unfold all_segments in *. by rewrite Hb1, Hb2. }
  { rewrite (body_end _ _ Hb). unfold log_start_offset, base_of, first_base in *. rewrite Hb1, Hb2.
    destruct (segments l), (active l), (start_offset_override l); lia. }
  assert (tracking (drop_active offset (drop_tail (length (segments l0)) offset l0)) = tracking l) as Ht1.
  { unfold drop_active. repeat case_match; simpl; by rewrite tracking_drop_tail. }
  set (l1 := drop_active offset _) in *. clearbody l1. rewrite Hs in Hok.
  assert (∀ l1, tracking (match active l1 with Some _ => truncate_active offset l1 | None => promote_sealed offset l1 end).1
    = tracking l1) as Hkeep by (intros l2; destruct (active l2); apply keeps; apply _).
  specialize (Hkeep l1). rewrite Ht1 in Hkeep.
  replace ((match active l1 with Some _ => truncate_active offset | None => promote_sealed offset end) l1)
    with (match active l1 with Some _ => truncate_active offset l1 | None => promote_sealed offset l1 end) by (by case_match).
  destruct (match active l1 with Some _ => _ | None => _ end) as [l2 [[]|e]]; simpl in Hc2, Hok, Hkeep.
  - rewrite <- Hkeep. match goal with |- context [modify ?f] => pose proof (truncate_finish l2 _ f Hc2) as Hfin end.
    match type of Hfin with (?A → _) => assert A as HA by (intros l3; split; [done|]; simpl; lia) end.
    specialize (Hfin HA). clear HA.
    match type of Hfin with (match ?out with _ => _ end) => destruct out as [l' r] end. tauto.
  - split_and!; [done..|]. intros Hnone. by destruct (Hok Hnone).
Qed.

(** C4. [truncate_to] keeps exactly the batches that end below the offset, over
    all segments: later segments go, the one the offset falls into is cut and
    becomes the active one.  The content is right also when rebuilding the
    producer state fails afterwards; without producers and stamps the call
    succeeds, and the last stable offset is within the log.  An offset below the
    log start is refused and one at the log end or past it leaves the content. *)
Theorem truncate_to_keeps_below l xs offset :
  contains l xs → readable_all l → Forall narrow (all_segments l) →
  let '(l', r) := truncate_to crc32c offset l in
  if (offset <? log_end_offset l) && (offset <? log_start_offset l)
  then r = Err (Failed (OffsetTooLow offset (log_start_offset l))) ∧ l' = l
  else contains l' (filter (fun x => batch_last x.1 < offset) xs) ∧
       (offset < log_end_offset l → r = Ok tt → lso (tracking l') ≤ log_end_offset l') ∧
       (stamp_source l = None → producer_state (tracking l) = ∅ → r = Ok tt).
Proof. apply truncate_to_content. Qed.
End Cut.

(** ** Dropping old segments *)
Section Drop.
Context {source : StampSource} {store : BatchStore} {search : BinarySearch}.

Lemma filter_not_in_prefix (segs : list Segment) k :
  NoDup (base_offset <$> segs) →
  filter (fun s => base_offset s ∉ base_offset <$> take k segs) segs = drop k segs.
Proof.
  revert k. induction segs as [|s segs IH]; intros k Hn; [by destruct k|]. apply NoDup_cons in Hn as [Hs Hn].
  destruct k as [|k].
  - rewrite take_0, drop_0. apply filter_all, Forall_true. intros. apply not_elem_of_nil.
  - cbn [take drop fmap list_fmap]. rewrite filter_cons_False by set_solver. rewrite <- (IH k Hn).
    apply filter_iff_elem. intros s' Hin.
    rewrite not_elem_of_cons. split; [by intros [_ ?]|]. intros ?. split; [|done]. intros He. apply Hs. rewrite <- He.
    by apply list_elem_of_fmap_2.
Qed.

Lemma body_forget bases l :
  body (forget bases l) = (filter (fun s => base_offset s ∉ bases) (segments l), active l).
Proof.
  unfold forget. match goal with |- body (foldl _ ?l0 _) = _ => change (filter _ (segments l), active l) with (body l0);
    generalize l0 end.
  induction bases as [|b bases IH]; intros l1; simpl; [done|]. by rewrite IH.
Qed.

Lemma chain_length segs css end_ : chain segs css end_ → length segs = length css.
Proof. induction 1; simpl; congruence. Qed.

Lemma first_base_app segs1 segs2 end_ :
  first_base (segs1 ++ segs2) end_ = first_base segs1 (first_base segs2 end_).
Proof. by destruct segs1. Qed.

Lemma forget_contains l a css cs k :
  active l = Some a → split (segments l) a css cs → NoDup (base_offset <$> segments l) →
  let l' := forget (base_offset <$> take k (segments l)) l in
  body l' = (drop k (segments l), Some a) ∧ contains l' (concat (drop k css) ++ cs) ∧
  ordered (first_base (segments l) (base_offset a)) (concat (take k css)) ∧
  next_offset (first_base (segments l) (base_offset a)) (concat (take k css)) =
    first_base (drop k (segments l)) (base_offset a).
Proof.
  intros Ha [Hch Hh Hop] Hn l'. assert (body l' = (drop k (segments l), Some a)) as Hb.
  { unfold l'. by rewrite body_forget, filter_not_in_prefix, Ha. }
  split; [done|]. pose proof (chain_length _ _ _ Hch) as Hlen.
  rewrite <- (take_drop k (segments l)), <- (take_drop k css) in Hch.
  apply chain_app in Hch as (css1 & css2 & Hcss & Hc1 & Hc2). pose proof (chain_length _ _ _ Hc1) as Hl1.
  rewrite length_take, Hlen, <- length_take in Hl1. destruct (app_inj_1 _ _ _ _ Hl1 Hcss) as [-> ->].
  injection Hb as Hb1 Hb2. split.
  - exists a, css2, cs. rewrite Hb1, Hb2. by split_and!.
  - rewrite <- (take_drop k (segments l)), first_base_app at 1 2. by apply chain_ordered in Hc1.
Qed.

(** The segments behind which the target lies are the first ones. *)
Lemma droppable_prefix l a target :
  active l = Some a → ∃ k, droppable target l = base_offset <$> take k (segments l) ∧
    (k = 0%nat ∨ first_base (drop k (segments l)) (base_offset a) ≤ target).
Proof.
  intros Ha. unfold droppable, next_bases. rewrite Ha. induction (segments l) as [|s segs IH]; [by exists 0%nat; auto|].
  assert (zip (s :: segs) ((base_offset <$> drop 1 (s :: segs)) ++ [base_offset a]) =
    (s, first_base segs (base_offset a)) :: zip segs ((base_offset <$> drop 1 segs) ++ [base_offset a])) as ->.
  { by destruct segs. }
  cbn [take_while snd]. destruct (Z.leb_spec (first_base segs (base_offset a)) target) as [Hle|Hgt].
  - destruct IH as (k & Hz & Hk). exists (S k). split; [cbn [fmap list_fmap take fst]; by f_equal|]. right. simpl. by destruct Hk as [->|?].
  - exists 0%nat. auto.
Qed.

Lemma forget_override bases l : start_offset_override (forget bases l) = start_offset_override l.
Proof.
  unfold forget. match goal with |- _ (foldl _ ?l0 _) = _ =>
    change (start_offset_override l) with (start_offset_override l0); generalize l0 end.
  induction bases as [|b bases IH]; intros l1; simpl; [done|]. by rewrite IH.
Qed.

Lemma log_start_eq l a :
  active l = Some a →
  log_start_offset l = let s := first_base (segments l) (base_offset a) in
    match start_offset_override l with Some o => Z.max s o | None => s end.
Proof. intros Ha. unfold log_start_offset, first_base. rewrite Ha. by destruct (segments l). Qed.

(** [trim_to_offset] drops a prefix of the content, only batches that end
    below the target, and moves the log start to exactly the target (at most the
    log end, never backwards), which it returns; a negative target is refused. *)
Theorem trim_to_offset_drops_prefix l xs target :
  contains l xs → NoDup (base_offset <$> segments l) → 0 ≤ target →
  let '(l', r) := trim_to_offset target l in
  ∃ dropped kept, xs = dropped ++ kept ∧ contains l' kept ∧
    Forall (fun x => batch_last x.1 < target) dropped ∧ log_end_offset l' = log_end_offset l ∧
    log_start_offset l' = Z.max (log_start_offset l) (Z.min target (log_end_offset l)) ∧
    r = Ok (log_start_offset l').
Proof.
  intros Hc Hn Ht. unfold trim_to_offset. rewrite (proj2 (Z.ltb_ge _ _)) by lia. rewrite run_bind. unfold get at 1.
  cbn [id]. set (goal := Z.min target (log_end_offset l)).
  destruct (Z.leb_spec goal (log_start_offset l)) as [Hle|Hlt].
  { exists [], xs. split_and!; try done. lia. }
  destruct Hc as (a & css & cs & Ha & Hsp & ->).
  destruct (droppable_prefix l a goal Ha) as (k & Hk & Hgoal). rewrite run_bind. cbn [modify]. rewrite Hk.
  destruct (forget_contains l a css cs k Ha Hsp Hn) as (Hb & Hc' & Hord & Hnext).
  pose proof (forget_override (base_offset <$> take k (segments l)) l) as Hov.
  set (l1 := forget _ _) in *. clearbody l1. injection Hb as Hb1 Hb2. rewrite run_bind. cbn [get]. rewrite Hb1, Ha.
  fold (first_base (drop k (segments l)) (base_offset a)). set (s := first_base (drop k _) _) in *.
  rewrite (log_start_eq l a Ha) in *. set (s0 := first_base (segments l) _) in *.
  assert (s0 ≤ s ≤ goal) as Hs.
  { pose proof (ordered_next _ _ Hord) as Hle. destruct Hgoal as [->|?]; [|lia]. unfold s. rewrite drop_0. fold s0.
    revert Hlt; cbv zeta; destruct (start_offset_override l); lia. }
  assert (0 ≤ s0) as H0.
  { destruct Hsp as [Hch [Hst _] _]. pose proof (h_base _ _ Hst). pose proof (chain_base _ _ _ Hch). lia. }
  assert (∀ l', body l' = body l1 →
    ∃ dropped kept, concat css ++ cs = dropped ++ kept ∧ contains l' kept ∧
      Forall (fun x => batch_last x.1 < target) dropped ∧ log_end_offset l' = log_end_offset l) as Hparts.
  { intros l' Hb'. exists (concat (take k css)), (concat (drop k css) ++ cs). split_and!.
    - by rewrite (assoc_L (++)), <- concat_app, take_drop.
    - by apply (contains_body l1).
    - eapply Forall_impl; [by apply ordered_below|]. simpl. lia.
    - rewrite (body_end _ _ Hb'). unfold log_end_offset. by rewrite Hb2, Ha. }
  rewrite run_bind. destruct (Z.ltb_spec s goal) as [Hsg|Hsg]; cbn [when].
  - unfold set_log_start_offset. rewrite (proj2 (Z.ltb_ge _ _)) by lia. cbn [modify get].
    destruct (Hparts (set_override (Some goal) l1) eq_refl) as (d & kept & ? & ? & ? & ?). exists d, kept.
    split_and!; try done. rewrite (log_start_eq (set_override (Some goal) l1) a Hb2). simpl. rewrite Hb1. fold s.
    revert Hlt; cbv zeta; destruct (start_offset_override l); lia.
  - unfold mret, M_ret, get. destruct (Hparts l1 eq_refl) as (d & kept & ? & ? & ? & ?). exists d, kept.
    split_and!; try done. rewrite (log_start_eq _ a Hb2). rewrite Hb1, Hov. fold s.
    revert Hlt; cbv zeta; destruct (start_offset_override l); lia.
Qed.

(** *** Retention *)
Lemma take_while_is_take {A} (p : A → bool) l :
  ∃ k, take_while p l = take k l ∧ Forall (fun x => p x = true) (take k l).
Proof.
  destruct (take_while_prefix p l) as (rest & Hl & Hp & _). exists (length (take_while p l)).
  assert (take (length (take_while p l)) l = take_while p l) as -> by (rewrite Hl at 2; apply take_app_length). done.
Qed.

Lemma time_based_prefix r segs now :
  ∃ k, time_based_evict r segs now = base_offset <$> take k segs ∧
    match r with
    | None => k = 0%nat
    | Some r => Forall (fun s => max_timestamp s < sat_s 64 (now - r)) (take k segs)
    end.
Proof.
  unfold time_based_evict. destruct r as [r|]; [|by exists 0%nat].
  destruct (take_while_is_take (fun s => max_timestamp s <? sat_s 64 (now - r)) segs) as (k & Hk & Hp).
  exists k. cbv zeta. rewrite Hk. split; [done|]. eapply Forall_impl; [exact Hp|]. simpl. lia.
Qed.

Lemma evict_while_prefix segs d : ∃ k, evict_while d segs = base_offset <$> take k segs.
Proof.
  revert d. induction segs as [|s segs IH]; intros d; [by exists 0%nat|]. simpl.
  destruct (d <=? 0); [by exists 0%nat|]. destruct (IH (d - bytes_of s)) as [k Hk]. exists (S k). simpl. by f_equal.
Qed.

Lemma size_based_prefix b segs act :
  ∃ k, size_based_evict b segs act = base_offset <$> take k segs ∧ (b = None → k = 0%nat).
Proof.
  unfold size_based_evict. destruct b as [b|]; [|by exists 0%nat]. cbv zeta. destruct (_ <=? b); [by exists 0%nat|].
  destruct (evict_while_prefix segs (act + total_bytes segs - b)) as [k Hk]. by exists k.
Qed.

(** Two prefixes without repetition are the longer one. *)
Lemma prefix_union (xs : list Z) i j :
  NoDup xs → take i xs ++ filter (fun x => x ∉ take i xs) (take j xs) = take (i `max` j) xs.
Proof.
  revert i j. induction xs as [|x xs IH]; intros [|i] [|j] Hn; try done.
  - simpl. rewrite filter_cons_True by set_solver. f_equal. by apply filter_all, Forall_true; intros; apply not_elem_of_nil.
  - simpl. by rewrite app_nil_r.
  - apply NoDup_cons in Hn as [Hx Hn]. simpl. f_equal. rewrite filter_cons_False by set_solver. rewrite <- (IH i j Hn).
    f_equal. apply filter_iff_elem. intros y Hy. rewrite not_elem_of_cons. split; [by intros [_ ?]|]. intros ?.
    split; [|done]. intros ->. apply Hx. eapply elem_of_take in Hy as (n & Hy & _). by apply list_elem_of_lookup_2 in Hy.
Qed.

(** A pass evicts the first segments, and never the active one. *)
Lemma to_evict_prefix l a now :
  active l = Some a → NoDup (base_offset <$> segments l) →
  ∃ k, to_evict l now = base_offset <$> take k (segments l) ∧
    (retention (config l) = None → retention_size (config l) = None → k = 0%nat) ∧
    (∀ r, retention (config l) = Some r → retention_size (config l) = None →
     Forall (fun s => max_timestamp s < sat_s 64 (now - r)) (take k (segments l))).
Proof.
  intros Ha Hn. unfold to_evict. rewrite Ha.
  destruct (time_based_prefix (retention (config l)) (segments l) now) as (k1 & -> & H1).
  destruct (size_based_prefix (retention_size (config l)) (segments l) (bytes_of a)) as (k2 & -> & H2).
  rewrite !fmap_take, prefix_union by done. rewrite bool_decide_eq_false_2.
  2: { rewrite length_take, length_fmap. simpl. lia. }
  exists (k1 `max` k2)%nat. rewrite <- fmap_take. split; [done|]. split.
  - intros Hr Hs. rewrite Hr in H1. rewrite (H2 Hs). lia.
  - intros r Hr Hs. rewrite Hr in H1. rewrite (H2 Hs). by rewrite Nat.max_0_r.
Qed.

(** What a pass drops, in terms of the content. *)
Lemma evict_contains l a css cs now :
  active l = Some a → split (segments l) a css cs → NoDup (base_offset <$> segments l) →
  ∃ k, body (forget (to_evict l now) l) = (drop k (segments l), Some a) ∧
    contains (forget (to_evict l now) l) (concat (drop k css) ++ cs) ∧
    (retention (config l) = None → retention_size (config l) = None → k = 0%nat) ∧
    (∀ r, retention (config l) = Some r → retention_size (config l) = None →
     Forall (fun s => max_timestamp s < sat_s 64 (now - r)) (take k (segments l))).
Proof.
  intros Ha Hsp Hn. destruct (to_evict_prefix l a now Ha Hn) as (k & -> & H1 & H2). exists k.
  by destruct (forget_contains l a css cs k Ha Hsp Hn) as (? & ? & _).
Qed.

(** The maximum timestamp of a segment is that of its batches. *)
Definition dated (s : Segment) (c : list Stored) : Prop := max_timestamp s = max_ts c.

Lemma max_ts_bound c x : x ∈ c → Batch.max_timestamp x.1 ≤ max_ts c.
Proof.
  induction c as [|y c IH] using rev_ind; [by intros ?%not_elem_of_nil|].
  rewrite max_ts_snoc, elem_of_app, list_elem_of_singleton. intros [?%IH| ->]; lia.
Qed.

Lemma dated_below segs css t :
  Forall2 dated segs css → Forall (fun s => max_timestamp s < t) segs →
  Forall (fun x => Batch.max_timestamp x.1 < t) (concat css).
Proof.
  induction 1 as [|s c segs css Hd _ IH]; intros Ht; [constructor|]. apply Forall_cons in Ht as [Hs Ht].
  apply Forall_app. split; [|by apply IH]. apply Forall_forall. intros x Hx%max_ts_bound. unfold dated in Hd. lia.
Qed.

(** Retention by time drops only expired batches: when the segments know
    their maximum timestamps, every batch that a pass removes is older than the
    retention time, and what stays is a suffix with the active segment. *)
Theorem retention_drops_expired l a css cs now r :
  active l = Some a → split (segments l) a css cs → NoDup (base_offset <$> segments l) →
  Forall2 dated (segments l) css → retention (config l) = Some r → retention_size (config l) = None →
  ∃ dropped kept, concat css ++ cs = dropped ++ kept ∧ contains (forget (to_evict l now) l) kept ∧
    active (forget (to_evict l now) l) = Some a ∧
    Forall (fun x => Batch.max_timestamp x.1 < sat_s 64 (now - r)) dropped.
Proof.
  intros Ha Hsp Hn Hd Hr Hs. destruct (evict_contains l a css cs now Ha Hsp Hn) as (k & [= _ Hb] & Hc & _ & Hk).
  exists (concat (take k css)), (concat (drop k css) ++ cs). split_and!; [|done..|].
  - by rewrite (assoc_L (++)), <- concat_app, take_drop.
  - eapply dated_below; [by apply Forall2_take|by apply Hk].
Qed.
End Drop.

(** ** The periodic pass *)
Section Tick.
Context {source : StampSource} {store : BatchStore} {search : BinarySearch} (crc32c : list byte → Z).

Lemma roll_active_segment_bases l xs :
  contains l xs → readable l (log_end_offset l) → log_end_offset l < 2 ^ 63 →
  let '(l', r) := roll_active_segment crc32c l in
  r = Ok tt → base_offset <$> segments l' = base_offset <$> all_segments l.
Proof.
  intros (a & css & cs & Ha & _ & _) [ix Hix] Hlt. destruct (roll_active_segment crc32c l) as [l' r] eqn:Hroll.
  intros ->. apply run_ok in Hroll as (? & e & [= <- <-] & Hroll). apply run_ok in Hroll as (l1 & [] & H1 & Hroll).
  apply run_ok in Hroll as (l2 & [] & H2 & Hroll). apply run_ok in Hroll as (l3 & [] & H3 & Hroll).
  apply run_ok in Hroll as (l4 & [] & [= <-] & H5).
  apply (keeps_run body) in H1, H3, H5; [|apply _..]. injection H1 as Hs1 Ha1. injection H3 as Hs3 _. injection H5 as Hs5 _.
  unfold take_active in H2. rewrite Ha1, Ha in H2. injection H2 as <-. simpl in *.
  unfold all_segments. rewrite Hs5, Hs3, Hs1, Ha. by rewrite !fmap_app.
Qed.

#[local] Instance config_roll : Keeps config (roll_active_segment crc32c).
Proof.
  unfold roll_active_segment, write_snapshot, open_txn_index. keeps_steps; intros l;
    unfold take_active, reopen_active_stamp_index; by repeat case_match.
Qed.

Lemma roll_when_contains c l xs :
  contains l xs → NoDup (base_offset <$> all_segments l) → readable l (log_end_offset l) →
  log_end_offset l < 2 ^ 63 →
  let '(l', r) := when c (roll_active_segment crc32c) l in
  contains l' xs ∧ log_end_offset l' = log_end_offset l ∧ config l' = config l ∧
  (r = Ok tt → NoDup (base_offset <$> segments l')).
Proof.
  intros Hc Hn Hr Hlt. destruct c; cbn [when].
  - pose proof (roll_active_segment_contains crc32c l xs Hc Hr Hlt) as [H1 H2].
    pose proof (roll_active_segment_bases l xs Hc Hr Hlt) as H3.
    pose proof (keeps (p := config) (m := roll_active_segment crc32c) l) as H4.
    destruct (roll_active_segment crc32c l) as [l' r]. split_and!; [done..|]. intros Hok. by rewrite H3.
  - split_and!; [done..|]. intros _. unfold all_segments in Hn. rewrite fmap_app in Hn. by apply NoDup_app in Hn as [? _].
Qed.

(** A periodic pass ([tick]) leaves the log well formed with a suffix of its
    content, the log end where it was and the active segment in place, whether or
    not it rolls, and also when it fails; nothing is dropped when it fails, when
    no retention is configured, or when the log is tiered. *)
Theorem tick_keeps_suffix l xs fuel now :
  contains l xs → NoDup (base_offset <$> all_segments l) → readable l (log_end_offset l) →
  log_end_offset l < 2 ^ 63 →
  let '(l', r) := tick crc32c fuel now l in
  ∃ dropped kept, xs = dropped ++ kept ∧ contains l' kept ∧ log_end_offset l' = log_end_offset l ∧
    (is_err r ∨ retention (config l) = None ∧ retention_size (config l) = None ∨
     remote_storage_enable (config l) = true → dropped = []).
Proof.
  intros Hc Hn Hr Hlt. unfold tick. rewrite run_bind. unfold get at 1. cbn [id]. rewrite run_bind.
  match goal with |- context [match ?m l with _ => _ end] => assert (∃ r, m l = (l, r)) as [r ->] end.
  { destruct Hc as (a & _ & _ & -> & _). destruct (Segment.offset_for_timestamp _ _ _ _) as [[[]|]|]; by eexists. }
  destruct r as [old|e]; [|exists [], xs; by split_and!]. rewrite run_bind.
  pose proof (roll_when_contains old l xs Hc Hn Hr Hlt) as Hroll.
  destruct (when old (roll_active_segment crc32c) l) as [l1 [[]|e]]; simpl in Hroll.
  2: { exists [], xs. split_and!; try done; tauto. }
  destruct Hroll as (Hc1 & He1 & Hcf & Hn1). rewrite run_bind. cbn [get id]. rewrite Hcf, <- He1. specialize (Hn1 eq_refl).
  destruct (remote_storage_enable (config l)) eqn:Hrem; cbn [negb when]; [exists [], xs; by split_and!|]. cbn [modify].
  destruct Hc1 as (a & css & cs & Ha & Hsp & ->).
  destruct (evict_contains l1 a css cs now Ha Hsp Hn1) as (k & Hb & Hc2 & Hk & _). rewrite Hcf in Hk.
  exists (concat (take k css)), (concat (drop k css) ++ cs). split_and!; [|done|..].
  - by rewrite (assoc_L (++)), <- concat_app, take_drop.
  - injection Hb as _ Hb. unfold log_end_offset. by rewrite Hb, Ha.
  - intros [[]|[[H1 H2]|?]]; [|done]. by rewrite (Hk H1 H2).
Qed.
End Tick.
