(* ===== verification/LogRead.v ===== *)
(** * Fetching from a log

    The zero-copy fetch of a whole log stands for the copying one, and a fetch
    whose window covers the log returns every batch from the offset up to the
    limit. *)

From S2P Require Import Prelude Wire Records Batches BatchStore LogIndex Segment SegmentInv SegmentRead.
From S2P Require Import Retention LeaderEpoch ProducerSnapshot StampIndex Compaction Tracking Log LogInv LogCut.

Section Desc.
Context {source : StampSource} {store : BatchStore} {search : BinarySearch}.

Abbreviation Region := (Z * (nat * nat))%type.
(** The bytes a region describes, in the file of the segment it names. *)
Definition region_data (segs : list Segment) (r : Region) : list byte :=
  match head (filter (fun s => base_offset s = r.1) segs) with
  | Some s => take r.2.2 (drop r.2.1 (log_file s))
  | None => []
  end.
Definition regions_data (segs : list Segment) (rs : list Region) : list byte := rs ≫= region_data segs.

Lemma region_data_of (segs : list Segment) s r d :
  NoDup (base_offset <$> segs) → s ∈ segs → stands_for s d r → regions_data segs (region_of s d) = bytes r.
Proof.
  intros Hn Hs Hd. rewrite <- (sf_bytes _ _ _ Hd). unfold region_of, region_bytes, regions_data.
  destruct (region d) as [[pos len]|]; [|done]. simpl. rewrite app_nil_r. unfold region_data. simpl.
  assert (head (filter (fun s' => base_offset s' = base_offset s) segs) = Some s) as ->; [|done].
  clear Hd. induction segs as [|s' segs IH]; [by apply not_elem_of_nil in Hs|]. apply NoDup_cons in Hn as [Hn1 Hn2].
  apply elem_of_cons in Hs as [<-|Hs]; [by rewrite filter_cons_True|].
  rewrite filter_cons_False; [by apply IH|]. intros He. apply Hn1. rewrite He. by apply list_elem_of_fmap_2.
Qed.

Lemma is_empty_same s d r : stands_for s d r → desc_is_empty d = raw_is_empty r.
Proof. intros Hd. unfold desc_is_empty, raw_is_empty. apply bool_decide_ext, (sf_none _ _ _ Hd). Qed.

(** Both loops take the same turns. *)
Lemma desc_segments_equal all segs lim out regs start last cur rem :
  NoDup (base_offset <$> all) → (∀ s, s ∈ segs → s ∈ all) → regions_data all regs = out →
  match read_raw_segments segs lim out start last cur rem,
        read_raw_desc_segments segs lim regs start cur rem with
  | Ok (o, st, _, c, r), Ok (o', st', c', r') => regions_data all o' = o ∧ st' = st ∧ c' = c ∧ r' = r
  | Err _, Err _ => True
  | _, _ => False
  end.
Proof.
  intros Hn. revert out regs start last cur rem. induction segs as [|s segs IH]; intros out regs start last cur rem Hin Hd.
  { by simpl. }
  assert (∀ s, s ∈ segs → s ∈ all) as Hin' by (intros ? ?; apply Hin; by right).
  cbn [read_raw_segments read_raw_desc_segments]. destruct (last_offset s <? cur); [by apply IH|].
  pose proof (desc_equals_raw s cur lim (rem `max` batch_header)) as Hseg.
  destruct (Segment.read_raw s _ _ _) as [r|], (Segment.read_raw_desc s _ _ _) as [d|]; try done. simpl.
  rewrite (is_empty_same _ _ _ Hseg). destruct (raw_is_empty r); [by apply IH|].
  destruct Hseg as [H1 H2 H3 H4 H5]. rewrite H1, H2, H4.
  assert (regions_data all (regs ++ region_of s d) = out ++ bytes r) as Hd'.
  { unfold regions_data. rewrite bind_app. fold (regions_data all regs). rewrite Hd. f_equal.
    apply region_data_of; [done|apply Hin; by left|by split]. }
  destruct (_ || _); [done|]. by apply IH.
Qed.

(** The zero-copy fetch of a log sends exactly what the copying fetch
    returns: both fail together, and otherwise the regions of the segment files
    that [read_raw_desc] names hold the bytes of [read_raw], with the same start
    offset, whatever state the segments are in. *)
Theorem log_desc_equals_raw l f lim max :
  NoDup (base_offset <$> all_segments l) →
  match read_raw l f lim max, read_raw_desc l f lim max with
  | Ok r, Ok d => desc_start d = raw_start r ∧ regions_data (all_segments l) (regions d) = raw_bytes r
  | Err e, Err e' => True
  | _, _ => False
  end.
Proof.
  intros Hn. unfold read_raw, read_raw_desc. destruct (f <? _); [done|]. destruct (lim <=? f); [done|].
  pose proof (desc_segments_equal (all_segments l) (segments l) lim [] [] None None f max Hn) as Hs.
  specialize (Hs ltac:(intros; unfold all_segments; apply elem_of_app; by left) eq_refl).
  destruct (read_raw_segments _ _ _ _ _ _ _) as [[[[[o st] la] c] rm]|],
    (read_raw_desc_segments _ _ _ _ _ _) as [[[[o' st'] c'] r']|]; try done. simpl.
  destruct Hs as (Hd & -> & -> & ->). destruct (active l) as [a|] eqn:Ha; [|done].
  destruct (_ && _); [|done]. pose proof (desc_equals_raw a c lim (rm `max` batch_header)) as Hseg.
  destruct (Segment.read_raw a _ _ _) as [r|], (Segment.read_raw_desc a _ _ _) as [d|]; try done. simpl.
  rewrite (is_empty_same _ _ _ Hseg). destruct (raw_is_empty r); [done|]. simpl. rewrite (sf_start _ _ _ Hseg).
  split; [done|]. unfold regions_data. rewrite bind_app. fold (regions_data (all_segments l) o'). rewrite Hd. f_equal.
  apply region_data_of; [done| |done]. unfold all_segments. rewrite Ha. apply elem_of_app. right. by left.
Qed.
End Desc.

(** ** A window that covers the log *)
Section Complete.
Context {source : StampSource} {store : BatchStore} {search : BinarySearch}.

(** The batches a fetch from [f] up to [lim] is about. *)
Definition wanted (f lim : Z) (x : Stored) : Prop := f ≤ batch_last x.1 ∧ Batch.base_offset x.1 < lim.
#[global] Instance wanted_dec f lim x : Decision (wanted f lim x).
Proof. unfold wanted. apply _. Defined.

(** Offsets below the limit are a prefix. *)
Lemma take_while_below lo lim xs :
  ordered lo xs → take_while (below_limit lim) xs = filter (fun x => Batch.base_offset x.1 < lim) xs.
Proof.
  revert lo. induction xs as [|x xs IH]; intros lo; [done|]. simpl. intros (H1 & _ & H2). unfold below_limit at 1.
  destruct (Z.ltb_spec (Batch.base_offset x.1) lim).
  - rewrite filter_cons_True by done. f_equal. by eapply IH.
  - rewrite filter_cons_False by lia. symmetry. apply filter_none. eapply Forall_impl; [by apply ordered_below|].
    simpl. lia.
Qed.

Lemma wanted_split f lim l1 l2 :
  Forall (fun y => batch_last y.1 < f) l1 → Forall (fun y => f ≤ batch_last y.1) l2 →
  filter (wanted f lim) (l1 ++ l2) = filter (fun x => Batch.base_offset x.1 < lim) l2.
Proof.
  intros H1 H2. rewrite filter_app, (filter_none _ l1); [|eapply Forall_impl; [exact H1|]; unfold wanted; simpl; lia].
  apply filter_iff_elem. rewrite Forall_forall in H2. intros x Hx%H2. unfold wanted. tauto.
Qed.

Lemma read_raw_nothing s f lim max :
  holds s [] → 0 ≤ f ≤ last_offset s → f < lim → Segment.read_raw s f lim max = Ok raw_empty.
Proof.
  intros [H Hl] Hf Hlim. pose proof (h_base _ _ H). unfold next_offset in Hl. simpl in Hl.
  unfold Segment.read_raw. rewrite (proj2 (Z.ltb_ge _ _)), (proj2 (Z.leb_gt _ _)) by lia. cbn [orb].
  rewrite target_rel_ok by (unfold in_s in *; lia). unfold read_log_range. rewrite (h_file _ _ H).
  assert (∀ n k, take n (drop k (flat [])) = []) as -> by (intros; change (flat []) with (@nil byte); by rewrite drop_nil, take_nil). done.
Qed.

(** One segment, when the window covers it. *)
Lemma read_raw_all s c f lim max :
  holds s c → 0 ≤ f ≤ last_offset s → f < lim → f - base_offset s < 2 ^ 32 → in_s 64 (last_offset s) →
  Z.of_nat (length (flat c)) ≤ max →
  ∃ r, Segment.read_raw s f lim max = Ok r ∧ bytes r = flat (filter (wanted f lim) c) ∧
    (bytes r ≠ [] → f ≤ raw_last_offset r ≤ last_offset s).
Proof.
  intros H Hf Hlim Hlt Hr Hmax. destruct (decide (c = [])) as [->|Hne].
  { exists raw_empty. by rewrite read_raw_nothing. }
  destruct (read_raw_run s c f lim max H Hne Hf Hr Hlim Hlt) as (l0 & skip & x & rest & -> & _ & Hb & Hx & ->).
  eexists. split; [done|]. destruct H as [Hs Hlast]. pose proof (h_ordered _ _ Hs) as Ho.
  rewrite (assoc_L (++)) in Ho, Hlast, Hmax, Hs |- *. pose proof Ho as [_ Ho2]%ordered_app.
  assert (Forall (fun y => f ≤ batch_last y.1) (x :: rest)) as Hge.
  { constructor; [done|]. destruct Ho2 as (? & _ & Ho2). eapply Forall_impl; [by apply ordered_below|]. simpl. lia. }
  rewrite (wanted_split f lim _ _ Hb Hge), <- (take_while_below _ _ _ Ho2). unfold raw_run.
  rewrite flat_app, !length_app in Hmax. pose proof (h_stored _ _ Hs) as [_ [Hx61%stored_length _]%Forall_cons]%Forall_app.
  rewrite flat_app, length_app, flat_cons, length_app in Hmax.
  rewrite bool_decide_eq_true_2 by (unfold Header.HEADER_LEN; lia). rewrite fits_all by (rewrite flat_cons, length_app; lia).
  cbn [andb take_while]. fold (below_limit lim x). destruct (below_limit lim x); [|done]. cbn [bytes raw_last_offset].
  split; [done|]. intros _. rewrite last_cons.
  destruct (take_while_prefix (below_limit lim) rest) as (rest' & Hrest & _).
  pose proof (ordered_below _ _ Ho) as Hall. rewrite Hlast. apply Forall_app in Hall as [_ [Hxb Hall]%Forall_cons].
  destruct (last (take_while _ rest)) as [y|] eqn:Hy; [|simpl; lia].
  apply last_Some_elem_of in Hy. apply Forall_cons in Hge as [_ Hge].
  assert (y ∈ rest) as Hin by (rewrite Hrest; apply elem_of_app; by left).
  rewrite Forall_forall in Hge, Hall. specialize (Hge y Hin). specialize (Hall y Hin). simpl. lia.
Qed.

Lemma flat_filter (P : Stored → Prop) `{∀ x, Decision (P x)} xs : flat xs = [] → flat (filter P xs) = [].
Proof.
  induction xs as [|x xs IH]; [done|]. rewrite flat_cons. intros [Hx Hxs]%app_eq_nil. rewrite filter_cons.
  destruct (decide (P x)); [|by apply IH]. rewrite flat_cons, Hx. by apply IH.
Qed.

Lemma flat_filter_length (P : Stored → Prop) `{∀ x, Decision (P x)} xs :
  (length (flat (filter P xs)) ≤ length (flat xs))%nat.
Proof.
  induction xs as [|x xs IH]; [done|]. rewrite filter_cons, flat_cons, length_app.
  destruct (decide (P x)); rewrite ?flat_cons, ?length_app; lia.
Qed.

(** Behind an offset at or below its start, a part is wanted as a whole. *)
Lemma wanted_later lo xs f f' lim :
  ordered lo xs → f ≤ f' ≤ lo → filter (wanted f' lim) xs = filter (wanted f lim) xs.
Proof.
  intros Ho Hf. apply filter_iff_elem. pose proof (ordered_below _ _ Ho) as Hb. rewrite Forall_forall in Hb.
  intros x Hx%Hb. unfold wanted. simpl in Hx. lia.
Qed.

Lemma wanted_none lo xs f lim : ordered lo xs → lim ≤ lo → filter (wanted f lim) xs = [].
Proof.
  intros Ho Hf. apply filter_none. eapply Forall_impl; [by apply ordered_below|]. unfold wanted. simpl. lia.
Qed.

Lemma wanted_past s c f lim : holds s c → last_offset s < f → filter (wanted f lim) c = [].
Proof.
  intros [H Hl] Hf. apply filter_none. eapply Forall_impl; [apply ordered_below, H|]. unfold wanted. simpl. lia.
Qed.

Lemma read_raw_segments_all segs css end_ ys lim out st la cur rem :
  chain segs css end_ → 0 ≤ cur < lim → end_ < 2 ^ 63 → Forall narrow segs →
  Z.of_nat (length (flat (concat css ++ ys))) ≤ rem →
  ∃ st' la' cur' rem',
    read_raw_segments segs lim out st la cur rem =
      Ok (out ++ flat (filter (wanted cur lim) (concat css)), st', la', cur', rem') ∧
    Z.of_nat (length (flat ys)) ≤ rem' ∧ (cur' = cur ∨ cur ≤ cur' ≤ end_).
Proof.
  intros Hch Hcur Hend. revert out st la cur rem Hcur. induction Hch as [end_|s c segs css end_ Hs Hb Hch IH];
    intros out st la cur rem Hcur Hn Hrem.
  { exists st, la, cur, rem. simpl. rewrite app_nil_r. by split_and!; [|simpl in *|left]. }
  apply Forall_cons in Hn as [[_ Hn1] Hn]. cbn [read_raw_segments concat]. simpl in Hrem.
  rewrite <- (assoc_L (++)), flat_app, length_app in Hrem. rewrite filter_app, flat_app.
  destruct (chain_ordered _ _ _ Hch) as [Hord Hnext]. pose proof (ordered_next _ _ Hord) as Hle.
  pose proof (holds_last _ _ Hs) as Hl. pose proof Hs as [Hst _]. pose proof (h_base _ _ Hst) as Hbase.
  destruct (Z.ltb_spec (last_offset s) cur) as [Hskip|Hin].
  { rewrite (wanted_past _ _ _ _ Hs Hskip). simpl. apply IH; [lia|done..|lia]. }
  destruct (read_raw_all s c cur lim (rem `max` batch_header) Hs) as (r & -> & Hr & Hlast); [lia..|unfold in_s; lia|lia|].
  cbn [mbind result_bind]. unfold raw_is_empty. case_bool_decide as Hemp.
  { rewrite Hr in Hemp. rewrite Hemp. simpl. apply IH; [lia|done..|lia]. }
  specialize (Hlast Hemp). rewrite wrap_s_id by (unfold in_s; lia). rewrite <- Hr, (assoc_L (++) out).
  assert (length (bytes r) ≤ length (flat c))%nat as Hlen.
  { rewrite Hr. apply flat_filter_length. }
  set (rem1 := Z.max _ 0). assert (Z.of_nat (length (flat (concat css ++ ys))) ≤ rem1) as Hrem1 by lia.
  destruct (_ || _) eqn:Hstop.
  - do 4 eexists. assert (flat (filter (wanted cur lim) (concat css)) = []) as ->.
    { apply orb_true_iff in Hstop as [Hz|Hz].
      - apply flat_filter. rewrite flat_app, length_app in Hrem1. apply length_zero_iff_nil. lia.
      - by rewrite (wanted_none _ _ _ _ Hord) by lia. }
    rewrite app_nil_r. split; [done|]. rewrite flat_app, length_app in Hrem1. split; [lia|right; lia].
  - apply orb_false_iff in Hstop as [_ Hlim]. rewrite <- (wanted_later _ _ cur (raw_last_offset r + 1) lim Hord) by lia.
    destruct (IH Hend (out ++ bytes r) (match st with Some o => Some o | None => Some (Segment.start_offset r) end)
      (Some (raw_last_offset r)) (raw_last_offset r + 1) rem1) as (st' & la' & cur' & rem' & -> & H1 & H2); [lia|done..|].
    exists st', la', cur', rem'. split; [done|]. split; [done|]. right. lia.
Qed.

(** C16. A fetch with room for the whole log misses nothing: it returns, over all
    segments and byte for byte, every batch that does not end before the offset
    and starts below the limit. *)
Theorem read_raw_complete l xs f lim max :
  contains l xs → log_start_offset l ≤ f < lim → log_end_offset l < 2 ^ 63 → Forall narrow (all_segments l) →
  Z.of_nat (length (flat xs)) ≤ max →
  ∃ r, read_raw l f lim max = Ok r ∧ raw_bytes r = flat (filter (wanted f lim) xs).
Proof.
  intros (a & css & cs & Ha & [Hch Hh Hop] & ->) Hf Hend Hn Hmax. unfold all_segments in Hn. rewrite Ha in Hn.
  apply Forall_app in Hn as [Hn [[_ Hna] _]%Forall_cons]. pose proof (holds_last _ _ Hh) as Hla.
  pose proof Hh as [Hst _]. pose proof (h_base _ _ Hst) as Hb. unfold log_end_offset in Hend. rewrite Ha in Hend.
  pose proof (chain_base _ _ _ Hch ltac:(lia) ltac:(lia)) as Hfb.
  assert (0 ≤ f) as H0 by (revert Hf; rewrite (log_start_eq l a Ha); cbv zeta; destruct (start_offset_override l); lia).
  unfold read_raw. rewrite (proj2 (Z.ltb_ge _ _)), (proj2 (Z.leb_gt _ _)) by lia.
  destruct (read_raw_segments_all (segments l) css (base_offset a) cs lim [] None None f max) as
    (st & la & cur & rem & -> & Hrem & Hcur); [done|lia..|done|done|].
  cbn [mbind result_bind]. rewrite Ha, filter_app, flat_app. simpl app.
  assert (filter (wanted f lim) cs = filter (wanted cur lim) cs) as ->.
  { destruct Hcur as [->|Hcur]; [done|]. symmetry. apply (wanted_later (base_offset a)); [apply Hst|lia]. }
  destruct (_ && (cur <=? last_offset a)) eqn:Hgo.
  - apply andb_true_iff in Hgo as [[_ Hlim]%andb_true_iff Hle]. destruct (read_raw_all a cs cur lim (rem `max` batch_header) Hh)
      as (r & -> & Hr & _); [|lia..|unfold in_s; lia|lia|].
    + lia.
    + cbn [mbind result_bind]. unfold raw_is_empty. case_bool_decide as He; eexists; (split; [done|]); simpl.
      * by rewrite <- Hr, He, app_nil_r.
      * by rewrite <- Hr.
  - eexists. split; [done|]. simpl. assert (flat (filter (wanted cur lim) cs) = []) as ->; [|by rewrite app_nil_r].
    rewrite !andb_false_iff in Hgo. destruct Hgo as [[Hz|Hlim]|Hle].
    + apply orb_false_iff in Hz as [Hz _]. apply flat_filter, length_zero_iff_nil. lia.
    + destruct Hcur as [->|Hcur]; [lia|]. rewrite (wanted_none (base_offset a)); [done|apply Hst|lia].
    + by rewrite (wanted_past _ _ _ _ Hh) by lia.
Qed.
End Complete.
