(* ===== verification/LogOpen.v ===== *)
(** * Reopening a log

    The segments that [Log::open] builds from the files of a log hold what the
    log held. *)

From S2P Require Import Prelude Wire Records Batches BatchStore LogIndex Segment SegmentInv Retention.
From S2P Require Import LeaderEpoch ProducerSnapshot StampIndex Compaction Tracking Log LogInv.

Section Open.
Context {source : StampSource} {store : BatchStore} {search : BinarySearch}.

(** The files of a segment, with [torn] bytes behind the log file. *)
Definition files_of (s : Segment) (torn : list byte) : Z * (list byte * list byte * list byte) :=
  (base_offset s, (log_file s ++ torn, OffsetIndex.file (offset_index s), TimeIndex.file (time_index s))).

Lemma reopen_sealed s c next :
  holds s c → last_offset s + 1 = next →
  holds (seal_at (Segment.open (base_offset s) (log_file s) (OffsetIndex.file (offset_index s))
                    (TimeIndex.file (time_index s))) (next - 1)) c.
Proof.
  intros [H Hl] Hn. unfold Segment.open. rewrite open_index_faithful by apply H.
  destruct H. split; [split|]; simpl; try done. lia.
Qed.

Definition recovered (a : Segment) (torn : list byte) : Segment :=
  open_active (base_offset a) (log_file a ++ torn) (OffsetIndex.file (offset_index a))
    (TimeIndex.file (time_index a)) true.

Lemma open_segments_chain segs css a torn :
  chain segs css (base_offset a) →
  ∃ segs', open_segments true (((fun s => files_of s []) <$> segs) ++ [files_of a torn]) =
             (segs', Some (recovered a torn)) ∧
    chain segs' css (base_offset a) ∧
    first_base segs' (base_offset a) = first_base segs (base_offset a).
Proof.
  remember (base_offset a) as e eqn:He. induction 1 as [|s c segs css end_ Hs Hb Hc IH]; subst end_.
  { exists []. split_and!; [done|constructor|done]. }
  destruct IH as (segs' & Ho & Hc' & Hf); [done|].
  exists (seal_at (Segment.open (base_offset s) (log_file s) (OffsetIndex.file (offset_index s))
            (TimeIndex.file (time_index s))) (first_base segs (base_offset a) - 1) :: segs').
  split_and!; [|constructor; [by apply reopen_sealed|simpl; lia|done]|done].
  rewrite fmap_cons. cbn [app]. unfold files_of at 1. rewrite app_nil_r.
  destruct segs as [|s2 segs]; cbn [fmap list_fmap app open_segments] in *; unfold files_of in Ho |- *.
  - by injection Ho as <-.
  - by rewrite Ho.
Qed.

Lemma recovered_same a torn : sealed (recovered a torn) = false ∧ base_offset (recovered a torn) = base_offset a.
Proof. unfold recovered, open_active, recover_active_tail. by repeat case_match. Qed.

(** C15. Opening a log restores its content: from the files of the segments in
    base order, with whatever undecodable bytes a crash left at the end of the
    last one, the sealed segments and the recovered active one hold the same
    batches, and the log end is the same. *)
Theorem open_restores l xs a torn l' :
  contains l xs → active l = Some a → undecodable torn →
  body l' = open_segments true (((fun s => files_of s []) <$> segments l) ++ [files_of a torn]) →
  contains l' xs ∧ log_end_offset l' = log_end_offset l.
Proof.
  intros (a' & css & cs & Ha' & [Hch Hh Hop] & ->) Ha Ht Hb. replace a' with a in * by congruence.
  destruct (recovery_restores a cs torn (TimeIndex.file (time_index a)) (proj1 Hh) Ht) as [Hr _]. fold (recovered a torn) in Hr.
  destruct (open_segments_chain _ _ a torn Hch) as (segs' & Ho & Hc & _). rewrite Ho in Hb. injection Hb as Hs Ha2.
  destruct (recovered_same a torn) as [H1 H2]. split.
  - exists (recovered a torn), css, cs. rewrite Hs. split_and!; [done| |done]. by split; rewrite ?H2.
  - unfold log_end_offset. rewrite Ha, Ha2. destruct Hr as [_ ->], Hh as [_ ->]. by rewrite H2.
Qed.
End Open.
