(* ===== verification/LogCases.v ===== *)
(** * A log at work

    A log of two segments, with the batch codec of [Batches.v]: the theorems on
    logs at concrete inputs, and the behaviours of the code that fall short of
    its comments. *)

From S2P Require Import Prelude Wire Compression Records Batches BatchStore LogIndex Segment SegmentInv.
From S2P Require Import SegmentRead SegmentTime SegmentCases Retention LeaderEpoch ProducerSnapshot StampIndex.
From S2P Require Import Compaction Tracking Log LogInv LogCut LogRead LogOpen.

#[local] Instance counter : StampSource := {| source_state := Z; next_stamp s := (s, s + 1); observe := Z.max |}.

(** Segments of up to 200 bytes, an hour of retention. *)
Definition sample_config : LogConfig :=
  mkConfig 200 1000000 (Some 3600000) None 100 true false false 1000 65536.
Definition no_files : Disk := mkDisk ∅ ∅ ∅.
Definition tail : Segment := put (create 3) (one 3 50).
Definition sample_log : Log :=
  mkLog sample_config [seal sample] (Some tail) None (fresh 4) (TxnIndex.mkTxnIndex [] []) None ∅
    (Checkpoint.mk [] None) 0 no_files.
Definition quartet : list Stored := trio ++ [(one 3 50, wire (one 3 50))].

Lemma sample_log_split : split (segments sample_log) tail [trio] [(one 3 50, wire (one 3 50))].
Proof.
  destruct sample_ok as (H & _ & _). destruct (create_holds 3 ltac:(lia)) as [H0 T0].
  destruct (one_ok 3 50 ltac:(auto) ltac:(auto)) as (E & S & L).
  destruct (put_holds _ _ (one 3 50) H0 T0 eq_refl E S) as (H1 & _ & Hs1 & B1); [rewrite L; by split|by split|].
  split; [|exact H1|exact Hs1]. constructor; [by apply holds_seal|by vm_compute|constructor].
Qed.
Lemma sample_log_contains : contains sample_log quartet.
Proof. exists tail, [trio], [(one 3 50, wire (one 3 50))]. split; [reflexivity|]. split; [exact sample_log_split|reflexivity]. Qed.
Lemma sample_log_facts :
  NoDup (base_offset <$> all_segments sample_log) ∧ log_end_offset sample_log = 4 ∧
  log_start_offset sample_log = 0 ∧ Forall narrow (all_segments sample_log).
Proof.
  split_and!; [|by vm_compute..|].
  - apply (bool_decide_unpack _). by vm_compute.
  - repeat constructor; by vm_compute.
Qed.
Lemma sample_log_readable : readable_all sample_log.
Proof. intros base. exists (TxnIndex.mkTxnIndex [] []). simpl. by rewrite lookup_empty. Qed.

(** ** The theorems at this log *)
Lemma append_extends_witness :
  let '(l', r) := append toy_crc (one 0 60) sample_log in
  (∃ o, r = Ok o) ∧ (r = Ok 4 → contains l' (quartet ++ [(one 4 60, wire (one 4 60))])).
Proof.
  pose proof (append_extends toy_crc sample_log quartet (one 0 60) (wire (one 4 60)) sample_log_contains
    (sample_log_readable _)) as H.
  destruct (append toy_crc (one 0 60) sample_log) as [l' r]. destruct H as [H1 H2].
  - vm_compute. reflexivity.
  - vm_compute. reflexivity.
  - vm_compute. discriminate.
  - vm_compute. split; (reflexivity || discriminate).
  - split.
    + apply H2; [reflexivity|]. exists tail, None. vm_compute. repeat split.
    + intros ->. apply H1.
Defined.

Definition produced : VerbatimBatch := mkVerbatim (wire (one 0 10)) 0 10 5 (-1) (-1) (-1) false.
Lemma append_verbatim_extends_witness :
  let '(l', r) := append_verbatim toy_crc produced sample_log in
  (∃ o, r = Ok o) ∧ (r = Ok 4 → contains l' (quartet ++ [(restamp (one 0 10) 4 5, patched produced 4)])).
Proof.
  pose proof (append_verbatim_extends toy_crc sample_log quartet produced (one 0 10) sample_log_contains
    (sample_log_readable _)) as H.
  destruct (append_verbatim toy_crc produced sample_log) as [l' r]. destruct H as [H1 H2].
  - split; vm_compute; first [reflexivity | split; (reflexivity || discriminate)].
  - vm_compute. split; (reflexivity || discriminate).
  - vm_compute. split; (reflexivity || discriminate).
  - vm_compute. discriminate.
  - split.
    + apply H2; [reflexivity|]. exists tail, None. vm_compute. repeat split.
    + intros ->. apply H1.
Defined.

Lemma truncate_to_keeps_below_witness :
  let '(l', r) := truncate_to toy_crc 2 sample_log in
  contains l' (filter (fun x => batch_last x.1 < 2) quartet) ∧ r = Ok tt.
Proof.
  destruct sample_log_facts as (_ & He & Hs & Hn).
  pose proof (truncate_to_keeps_below toy_crc sample_log quartet 2 sample_log_contains sample_log_readable Hn) as H.
  rewrite He, Hs in H. destruct (truncate_to toy_crc 2 sample_log) as [l' r]. destruct H as (H1 & _ & H3).
  split; [exact H1|]. by apply H3.
Defined.

Lemma trim_to_offset_drops_prefix_witness :
  let '(l', r) := trim_to_offset 3 sample_log in
  ∃ dropped kept, quartet = dropped ++ kept ∧ contains l' kept ∧
    Forall (fun x => batch_last x.1 < 3) dropped ∧ log_start_offset l' = 3.
Proof.
  destruct sample_log_facts as (_ & He & Hs & _).
  pose proof (trim_to_offset_drops_prefix sample_log quartet 3 sample_log_contains) as H.
  destruct (trim_to_offset 3 sample_log) as [l' r]. rewrite He, Hs in H.
  destruct H as (d & k & H1 & H2 & H3 & _ & H5 & _); [by apply (bool_decide_unpack _); vm_compute|lia|].
  exists d, k. split_and!; [exact H1|exact H2|exact H3|exact H5].
Defined.

Lemma retention_drops_expired_witness :
  ∃ dropped kept, quartet = dropped ++ kept ∧ contains (forget (to_evict sample_log 3600101) sample_log) kept ∧
    active (forget (to_evict sample_log 3600101) sample_log) = Some tail ∧
    Forall (fun x => Batch.max_timestamp x.1 < 101) dropped.
Proof.
  apply (retention_drops_expired sample_log tail [trio] [(one 3 50, wire (one 3 50))] 3600101 3600000
    eq_refl sample_log_split); [by apply (bool_decide_unpack _); vm_compute| |reflexivity..].
  repeat constructor.
Defined.

Lemma tick_keeps_suffix_witness :
  let '(l', r) := tick toy_crc 300 3600101 sample_log in
  ∃ dropped kept, quartet = dropped ++ kept ∧ contains l' kept ∧ log_end_offset l' = 4.
Proof.
  destruct sample_log_facts as (Hn & He & _ & _).
  pose proof (tick_keeps_suffix toy_crc sample_log quartet 300 3600101 sample_log_contains Hn
    (sample_log_readable _)) as H. rewrite He in H.
  destruct (tick toy_crc 300 3600101 sample_log) as [l' r]. destruct H as (d & k & H1 & H2 & H3 & _); [lia|].
  exists d, k. split_and!; [exact H1|exact H2|exact H3].
Defined.

Lemma log_desc_equals_raw_witness :
  match read_raw sample_log 0 4 1000, read_raw_desc sample_log 0 4 1000 with
  | Ok r, Ok d => desc_start d = raw_start r ∧ regions_data (all_segments sample_log) (regions d) = raw_bytes r
  | Err e, Err e' => True
  | _, _ => False
  end.
Proof. apply (log_desc_equals_raw sample_log 0 4 1000). apply sample_log_facts. Defined.

Lemma read_raw_complete_witness :
  ∃ r, read_raw sample_log 1 4 1000 = Ok r ∧ raw_bytes r = flat (filter (wanted 1 4) quartet).
Proof.
  destruct sample_log_facts as (_ & He & Hs & Hn).
  apply (read_raw_complete sample_log quartet 1 4 1000 sample_log_contains); [rewrite Hs; lia|rewrite He; lia|exact Hn|].
  vm_compute. discriminate.
Defined.

Lemma open_restores_witness :
  ∃ l', body l' = open_segments true [files_of (seal sample) []; files_of tail [x00; x01]] ∧ contains l' quartet.
Proof.
  exists (set_segments (open_segments true [files_of (seal sample) []; files_of tail [x00; x01]]).1
    (set_active (open_segments true [files_of (seal sample) []; files_of tail [x00; x01]]).2 sample_log)).
  split; [by destruct (open_segments _ _)|].
  apply (open_restores sample_log quartet tail [x00; x01] _ sample_log_contains eq_refl).
  - right. eexists. vm_compute. reflexivity.
  - simpl app. by destruct (open_segments _ _).
Defined.

(** ** Where the code falls short *)

(** A fetch can skip batches.  When the window ends inside a segment with
    bytes to spare, the loop goes on to the next segment although the rest of
    this one is unread: a fetch of 150 bytes from offset 0 returns the batches at
    0, 1 and 3, and reports 3 as its last offset, so the batch at 2, which the
    log contains, is never delivered.  A window of 136 bytes stops in time. *)
Theorem read_raw_skips_batch :
  contains sample_log quartet ∧
  read_raw sample_log 0 4 150 =
    Ok (mkRawRead 0 (wire (one 0 10) ++ wire (one 1 100) ++ wire (one 3 50)) (Some 3)) ∧
  read_raw sample_log 0 4 136 = Ok (mkRawRead 0 (wire (one 0 10) ++ wire (one 1 100)) (Some 1)).
Proof. split; [exact sample_log_contains|]. split; vm_compute; reflexivity. Qed.

Definition reopened : option Log :=
  match open toy_crc sample_config {[0 := (files_of sample []).2; 3 := (files_of tail []).2]} no_files None with
  | Ok l => Some l
  | Err _ => None
  end.

(** A restart defeats retention by time.  Sealed segments are reopened
    without a scan and with no maximum timestamp, which counts as older than any
    cutoff: at time 150, with an hour of retention, the running log evicts
    nothing, but after a restart the first pass deletes the sealed segment and
    its unexpired batches. *)
Theorem restart_evicts_unexpired :
  to_evict sample_log 150 = [] ∧
  ((fun l => to_evict l 150) <$> reopened) = Some [0] ∧
  Forall (fun x => 150 - 3600000 ≤ Batch.max_timestamp x.1) trio.
Proof. split; [by vm_compute|]. split; [by vm_compute|]. repeat constructor; by vm_compute. Qed.

Definition abort_marker (pid : Z) : Batch.RecordBatch :=
  Batch.mkBatch 0 0 48 0 10 10 pid 0 (-1)
    [mkRecord 0 0 0 (Some [x00; x00; x00; x00]) (Some [x00; x00; x00; x00; x00; x03]) []].
Definition empty_log : Log :=
  mkLog (mkConfig 130 1000000 None None 100 true false false 1000 65536) [] (Some (create 0)) None (fresh 0)
    (TxnIndex.mkTxnIndex [] []) None ∅ (Checkpoint.mk [] None) 0 no_files.
Definition aborted_log : Log := (append toy_crc (abort_marker 7) (append toy_crc (txn_batch 7 0) empty_log).1).1.
Definition rolled_log : Log := (append toy_crc (one 0 10) aborted_log).1.

(** Aborted transactions are forgotten when the log rolls.  Only the active
    segment's index is consulted, on the ground that a fetch never reaches behind
    it: here the transaction of producer 7 at offsets 0 and 1 is aborted and
    reported as such, but after the next append, which rolls, the same range has
    no aborted transaction although its index is on disk, so a read-committed
    consumer is handed the aborted record as if it had been committed. *)
Theorem roll_forgets_aborted :
  aborted_in_range aborted_log 0 3 = [TxnIndex.mkAborted 0 1 7] ∧
  length (segments rolled_log) = 1%nat ∧ lso (tracking rolled_log) = 3 ∧
  aborted_in_range rolled_log 0 3 = [] ∧
  txn_files (disk rolled_log) !! 0 = Some (TxnIndex.raw (TxnIndex.mkAborted 0 1 7)).
Proof. by vm_compute. Qed.
