(* ===== verification/ProducerState.v ===== *)
(** * Idempotent producers at the broker

    Models [crates/broker/src/producer_state.rs], the tracker that recognizes
    retries of a producer, and the part of
    [crates/broker/src/handlers/produce.rs] around it: the decision before an
    append ([handle_duplicate]), the append, and the commit after it
    ([finalize_ack]).  Each request runs the three in this order while others
    run theirs, so the partition is a step relation over requests in flight.
    The map handles of the tracker are shared by reference in the code; a lock
    guards each step, so a step is a function on the maps. *)

From S2P Require Import Prelude Wire Records Batches BatchStore LogIndex Segment Compaction ProducerSnapshot Tracking.

(** ** The tracker *)
Module Dedup.
Record ProducerEntry : Type := mkEntry {
  epoch : Z;
  last_sequence : Z;
  last_offset : Z;
  base_offset : Z;
  last_timestamp : Z;
  last_activity_ms : Z;
}.
Abbreviation PartitionProducerState := (gmap Z ProducerEntry).
(** [by_topic]: topics, partitions, producers. *)
Abbreviation ProducerState := (gmap string (gmap Z PartitionProducerState)).

Inductive Decision : Type :=
| Append
| Duplicate (base_offset : Z)
| OutOfOrder
| Fenced.

Definition matches_last_batch (e : ProducerEntry) (base_sequence last_offset_delta : Z) : bool :=
  let committed_delta := last_offset e - base_offset e in
  if negb (bool_decide (in_s 64 committed_delta)) then false else
  if negb (bool_decide (in_s 32 committed_delta)) then false else
  (base_sequence =? decrement_sequence (last_sequence e) committed_delta) &&
  (increment_sequence base_sequence last_offset_delta =? last_sequence e).

Definition check_pure (entry : option ProducerEntry) (producer_epoch base_sequence last_offset_delta : Z) :
    Decision :=
  match entry with
  | None => Append
  | Some e =>
      if producer_epoch <? epoch e then Fenced else
      if epoch e <? producer_epoch then Append else
      if base_sequence =? increment_sequence (last_sequence e) 1 then Append else
      if matches_last_batch e base_sequence last_offset_delta then Duplicate (base_offset e) else
      OutOfOrder
  end.

(** The slot of a partition, empty when [handle] has to create it. *)
Definition slot (s : ProducerState) (topic : string) (partition : Z) : PartitionProducerState :=
  default ∅ (s !! topic ≫= lookup partition).
Definition put_slot (s : ProducerState) (topic : string) (partition : Z) (m : PartitionProducerState) :
    ProducerState :=
  <[topic := <[partition := m]> (default ∅ (s !! topic))]> s.
Definition handle (s : ProducerState) (topic : string) (partition : Z) :
    ProducerState * PartitionProducerState :=
  let m := slot s topic partition in (put_slot s topic partition m, m).

Definition check (s : ProducerState) (topic : string) (partition producer_id producer_epoch base_sequence
    last_offset_delta : Z) : ProducerState * Decision :=
  let '(s, m) := handle s topic partition in
  (s, check_pure (m !! producer_id) producer_epoch base_sequence last_offset_delta).

(** The entry a commit writes. *)
Definition committed (now producer_epoch base_sequence last_offset_delta base ts : Z) : ProducerEntry :=
  mkEntry producer_epoch (increment_sequence base_sequence last_offset_delta)
    (wrap_s 64 (base + last_offset_delta)) base ts now.
Definition commit (now : Z) (s : ProducerState) (topic : string) (partition producer_id producer_epoch
    base_sequence last_offset_delta base ts : Z) : ProducerState :=
  let '(s, m) := handle s topic partition in
  put_slot s topic partition
    (<[producer_id := committed now producer_epoch base_sequence last_offset_delta base ts]> m).

(** No slot is created for a partition without one. *)
Definition truncate (s : ProducerState) (topic : string) (partition offset : Z) : ProducerState :=
  match s !! topic ≫= lookup partition with
  | None => s
  | Some m => put_slot s topic partition (filter (fun p => last_offset p.2 < offset) m)
  end.

Definition entry_of (recovered_at : Z) (e : ProducerSnapshotEntry) : ProducerEntry :=
  mkEntry (ProducerSnapshot.producer_epoch e) (ProducerSnapshot.last_sequence e) (p_last_offset e)
    (if 0 <=? p_last_offset e then p_last_offset e - offset_delta e else -1)
    (timestamp e) recovered_at.
(** Collected into a [HashMap]: the last entry of a producer wins. *)
Definition entries_from_snapshot (recovered_at : Z) (snapshot : list ProducerSnapshotEntry) :
    PartitionProducerState :=
  list_to_map ((fun e => (ProducerSnapshot.producer_id e, entry_of recovered_at e)) <$> reverse snapshot).
Definition rebuild_from_snapshot (now : Z) (s : ProducerState) (topic : string) (partition : Z)
    (snapshot : list ProducerSnapshotEntry) : ProducerState :=
  put_slot s topic partition (entries_from_snapshot now snapshot).

Definition snapshot (s : ProducerState) (topic : string) (partition : Z) : list (Z * ProducerEntry) :=
  map_to_list (slot s topic partition).
Definition active_snapshot (s : ProducerState) (topic : string) (partition now_ms expiration_ms : Z) :
    gmap Z Z :=
  base_offset <$> filter (fun p => sat_s 64 (now_ms - last_activity_ms p.2) ≤ expiration_ms)
                    (slot s topic partition).

(** Idle producers go, then empty partitions, then empty topics. *)
Definition retain (now_ms ttl_ms : Z) (m : PartitionProducerState) : PartitionProducerState :=
  filter (fun p => sat_s 64 (now_ms - last_activity_ms p.2) < ttl_ms) m.
Definition tracked (s : ProducerState) : nat :=
  sum_list ((fun parts => sum_list (size <$> (map_to_list parts).*2)) <$> (map_to_list s).*2).
Definition expire_partitions (now_ms ttl_ms : Z) (parts : gmap Z PartitionProducerState) :
    gmap Z PartitionProducerState :=
  filter (fun p => p.2 ≠ (∅ : PartitionProducerState)) (retain now_ms ttl_ms <$> parts).
Definition expire_older_than (s : ProducerState) (now_ms ttl_ms : Z) : ProducerState * nat :=
  let kept : ProducerState := expire_partitions now_ms ttl_ms <$> s in
  (filter (fun p => p.2 ≠ (∅ : gmap Z PartitionProducerState)) kept, (tracked s - tracked kept)%nat).
End Dedup.
#[global] Arguments Dedup.slot : simpl never.

(** ** The produce path of one partition *)
Module Produce.
Import Dedup.
Record PreparedBatch : Type := mkPrepared {
  producer_id : Z;
  producer_epoch : Z;
  base_sequence : Z;
  last_offset_delta : Z;
  max_timestamp : Z;
}.
#[global] Instance PreparedBatch_eq_dec : EqDecision PreparedBatch.
Proof. solve_decision. Defined.

Definition NONE : Z := 0.
Definition REQUEST_TIMED_OUT : Z := 7.
Definition NOT_ENOUGH_REPLICAS_AFTER_APPEND : Z := 20.
Definition OUT_OF_ORDER_SEQUENCE_NUMBER : Z := 45.
Definition INVALID_PRODUCER_EPOCH : Z := 47.

(** What a request answers: an error code and a base offset. *)
Record Response : Type := mkResponse { error_code : Z; response_base : Z }.

(** A request between its decision and its answer: handed to the writer,
    handed to the writer by a handler that has timed out since, or appended. *)
Inductive Flight : Type :=
| Queued (b : PreparedBatch)
| Orphaned (b : PreparedBatch)
| Appended (b : PreparedBatch) (base : Z).

(** The partition: the tracker, the stored batches with their base offsets, the
    log end, the requests in flight and the answers so far. *)
Record Partition : Type := mkPartition {
  tracker : ProducerState;
  written : list (Z * PreparedBatch);
  leo : Z;
  flights : list Flight;
  answers : list Response;
}.

Section Handler.
Context (topic : string) (partition : Z).

(** [acks_all] is [acks == -1]; [reached] says whether the high watermark gets
    to the target before the deadline. *)
Definition handle_duplicate (acks_all reached : bool) (b : PreparedBatch) (s : ProducerState) :
    ProducerState * option Response :=
  if producer_id b <? 0 then (s, None) else
  let '(s, d) := check s topic partition (producer_id b) (producer_epoch b) (base_sequence b)
                   (last_offset_delta b) in
  (s, match d with
      | Duplicate base =>
          Some (mkResponse (if acks_all && negb reached then NOT_ENOUGH_REPLICAS_AFTER_APPEND else NONE) base)
      | OutOfOrder => Some (mkResponse OUT_OF_ORDER_SEQUENCE_NUMBER (-1))
      | Fenced => Some (mkResponse INVALID_PRODUCER_EPOCH (-1))
      | Append => None
      end).

(** The writer gives the batch the log end as its base offset. *)
Definition write (b : PreparedBatch) (p : Partition) : Partition :=
  mkPartition (tracker p) (written p ++ [(leo p, b)]) (leo p + last_offset_delta b + 1) (flights p) (answers p).

Definition finalize_ack (now : Z) (acks_all reached : bool) (b : PreparedBatch) (base : Z) (p : Partition) :
    Partition :=
  let target := base + last_offset_delta b + 1 in
  let r := mkResponse (if acks_all && negb reached then NOT_ENOUGH_REPLICAS_AFTER_APPEND else NONE) base in
  let s := if (0 <=? producer_id b) && (target <=? leo p)
           then commit now (tracker p) topic partition (producer_id b) (producer_epoch b) (base_sequence b)
                  (last_offset_delta b) base (max_timestamp b)
           else tracker p in
  mkPartition s (written p) (leo p) (flights p) (answers p ++ [r]).

Definition set_tracker (s : ProducerState) (p : Partition) : Partition :=
  mkPartition s (written p) (leo p) (flights p) (answers p).
Definition set_flights (fs : list Flight) (p : Partition) : Partition :=
  mkPartition (tracker p) (written p) (leo p) fs (answers p).
Definition answer (r : Response) (p : Partition) : Partition :=
  mkPartition (tracker p) (written p) (leo p) (flights p) (answers p ++ [r]).

(** What can happen next.  A number names the request in flight it happens to.
    [Replicate] is a batch a follower copies from its leader: it reaches the log
    and not the tracker. *)
Inductive Event : Type :=
| Arrive (acks_all reached : bool) (b : PreparedBatch)
| Write (i : nat)
| TimeOut (i : nat)
| Finish (i : nat) (now : Z) (acks_all reached : bool)
| Replicate (base : Z) (b : PreparedBatch)
| Truncate (offset : Z).

Definition step (p : Partition) (ev : Event) : option Partition :=
  match ev with
  | Arrive acks_all reached b =>
      let '(s, r) := handle_duplicate acks_all reached b (tracker p) in
      let p := set_tracker s p in
      Some (match r with
            | Some r => answer r p
            | None => set_flights (flights p ++ [Queued b]) p
            end)
  | Write i =>
      match flights p !! i with
      | Some (Queued b) => Some (write b (set_flights (<[i := Appended b (leo p)]> (flights p)) p))
      | Some (Orphaned b) => Some (write b (set_flights (delete i (flights p)) p))
      | _ => None
      end
  | TimeOut i =>
      match flights p !! i with
      | Some (Queued b) =>
          Some (answer (mkResponse REQUEST_TIMED_OUT 0) (set_flights (<[i := Orphaned b]> (flights p)) p))
      | _ => None
      end
  | Finish i now acks_all reached =>
      match flights p !! i with
      | Some (Appended b base) =>
          Some (finalize_ack now acks_all reached b base (set_flights (delete i (flights p)) p))
      | _ => None
      end
  | Replicate base b => if base =? leo p then Some (write b p) else None
  | Truncate offset =>
      if leo p <=? offset then Some (set_tracker (truncate (tracker p) topic partition offset) p) else
      let kept := filter (fun x => x.1 + last_offset_delta x.2 < offset) (written p) in
      Some (mkPartition (truncate (tracker p) topic partition offset) kept
              (match last kept, head (written p) with
               | Some x, _ => x.1 + last_offset_delta x.2 + 1
               | None, Some x => x.1
               | None, None => leo p
               end)
              (flights p) (answers p))
  end.
Fixpoint steps (p : Partition) (evs : list Event) : option Partition :=
  match evs with
  | [] => Some p
  | ev :: evs => p ← step p ev; steps p evs
  end.

(** One request served from its arrival to its answer, with none in between. *)
Definition serve (p : Partition) (b : PreparedBatch) : Partition :=
  let '(s, r) := handle_duplicate false true b (tracker p) in
  let p := set_tracker s p in
  match r with
  | Some r => answer r p
  | None => finalize_ack 0 false true b (leo p) (write b p)
  end.
End Handler.

Definition fresh : Partition := mkPartition ∅ [] 0 [] [].
End Produce.

(** ** Sequence numbers *)
Definition SEQUENCES : Z := 2 ^ 31.
Lemma sequence_mask z : Z.land (wrap_s 32 z) (2 ^ 31 - 1) = z mod SEQUENCES.
Proof.
  replace (2 ^ 31 - 1) with (Z.ones 31) by reflexivity. rewrite Z.land_ones by lia.
  unfold wrap_s, SEQUENCES. change (2 ^ (32 - 1)) with (2 ^ 31).
  rewrite Zminus_mod, (Z.mod_mod_divide _ (2 ^ 32) (2 ^ 31)) by (by exists 2).
  rewrite <- Zminus_mod. f_equal. lia.
Qed.

Lemma increment_mod s d : increment_sequence s d = (s + d) mod SEQUENCES.
Proof. apply sequence_mask. Qed.

Lemma decrement_mod s d : decrement_sequence s d = (s - d) mod SEQUENCES.
Proof. apply sequence_mask. Qed.

Lemma decrement_increment s d :
  0 ≤ s < SEQUENCES → decrement_sequence (increment_sequence s d) d = s.
Proof.
  intros Hs. rewrite decrement_mod, increment_mod, Zminus_mod_idemp_l.
  replace (s + d - d) with s by lia. by apply Z.mod_small.
Qed.

Module Sequencing.
Import Dedup Produce.

(** What the protocol layer has checked of a header. *)
Definition header_ok (b : PreparedBatch) : Prop :=
  0 ≤ base_sequence b < SEQUENCES ∧ 0 ≤ last_offset_delta b < SEQUENCES.

(** The batches of a producer, oldest first, and the numbers of their records. *)
Definition of_producer (pid : Z) (w : list (Z * PreparedBatch)) : list (Z * PreparedBatch) :=
  filter (fun x => producer_id x.2 = pid) w.
Definition numbers (b : PreparedBatch) : list Z :=
  (fun i => (base_sequence b + i) mod SEQUENCES) <$> seqZ 0 (last_offset_delta b + 1).
Definition records_of (pid ep : Z) (w : list (Z * PreparedBatch)) : list Z :=
  filter (fun x => producer_epoch x.2 = ep) (of_producer pid w) ≫= fun x => numbers x.2.

(** The tracker has the last stored batch of each producer. *)
Definition describes (e : ProducerEntry) (x : Z * PreparedBatch) : Prop :=
  epoch e = producer_epoch x.2 ∧
  last_sequence e = increment_sequence (base_sequence x.2) (last_offset_delta x.2) ∧
  base_offset e = x.1 ∧ last_offset e = wrap_s 64 (x.1 + last_offset_delta x.2).
Definition current (topic : string) (partition : Z) (p : Partition) : Prop :=
  ∀ pid, 0 ≤ pid →
  match last (of_producer pid (written p)) with
  | None => slot (tracker p) topic partition !! pid = None
  | Some x => ∃ e, slot (tracker p) topic partition !! pid = Some e ∧ describes e x
  end.

(** [b] continues [a]: in a later epoch, or in its epoch at the next number. *)
Definition follows (a b : Z * PreparedBatch) : Prop :=
  producer_epoch a.2 < producer_epoch b.2 ∨
  producer_epoch a.2 = producer_epoch b.2 ∧
  base_sequence b.2 = increment_sequence (base_sequence a.2) (last_offset_delta a.2 + 1).
Definition in_order (p : Partition) : Prop :=
  ∀ pid, 0 ≤ pid → Sorted follows (of_producer pid (written p)).

Section Sequential.
Context (topic : string) (partition : Z).
Abbreviation entry s pid := (slot s topic partition !! pid).

Lemma slot_put s m : slot (put_slot s topic partition m) topic partition = m.
Proof. unfold slot, put_slot. by rewrite lookup_insert_eq; simpl; rewrite lookup_insert_eq. Qed.

Lemma check_slot s pid ep seq d :
  slot (check s topic partition pid ep seq d).1 topic partition = slot s topic partition.
Proof. apply slot_put. Qed.

Lemma commit_slot now s pid ep seq d base ts :
  slot (commit now s topic partition pid ep seq d base ts) topic partition =
  <[pid := committed now ep seq d base ts]> (slot s topic partition).
Proof. unfold commit. simpl. by rewrite slot_put. Qed.

Lemma handle_duplicate_slot acks reached b s :
  slot (handle_duplicate topic partition acks reached b s).1 topic partition = slot s topic partition.
Proof.
  unfold handle_duplicate. destruct (_ <? 0); [done|].
  destruct (check _ _ _ _ _ _ _) as [s' d] eqn:H. simpl.
  by rewrite <- (check_slot s (producer_id b) (producer_epoch b) (base_sequence b) (last_offset_delta b)), H.
Qed.

(** An admitted batch continues the last one of its producer. *)
Lemma handle_duplicate_admits acks reached b s x e :
  0 ≤ producer_id b → (handle_duplicate topic partition acks reached b s).2 = None →
  entry s (producer_id b) = Some e → describes e x → follows x (0, b).
Proof.
  intros Hp Ha He (H1 & H2 & _). unfold handle_duplicate in Ha.
  rewrite (proj2 (Z.ltb_ge _ _)) in Ha by lia. unfold check in Ha. simpl in Ha. rewrite He in Ha.
  unfold check_pure in Ha. unfold follows; simpl. rewrite <- H1.
  destruct (Z.ltb_spec (producer_epoch b) (epoch e)); [done|].
  destruct (Z.ltb_spec (epoch e) (producer_epoch b)); [by left|]. right. split; [lia|].
  destruct (Z.eqb_spec (base_sequence b) (increment_sequence (last_sequence e) 1)) as [->|].
  - rewrite H2, !increment_mod, Zplus_mod_idemp_l. f_equal. lia.
  - by destruct (matches_last_batch _ _ _).
Qed.

Lemma of_producer_snoc pid w x :
  of_producer pid (w ++ [x]) = of_producer pid w ++ (if decide (producer_id x.2 = pid) then [x] else []).
Proof. unfold of_producer. by rewrite filter_app. Qed.

(** ** One request at a time *)
Lemma serve_keeps p b :
  current topic partition p → in_order p →
  current topic partition (serve topic partition p b) ∧ in_order (serve topic partition p b).
Proof.
  intros Hc Ho. unfold serve.
  pose proof (handle_duplicate_slot false true b (tracker p)) as Hs.
  pose proof (handle_duplicate_admits false true b (tracker p)) as Ha.
  destruct (handle_duplicate _ _ _ _ _ _) as [s [r|]]; simpl in Hs, Ha.
  { split; [|done]. intros pid Hp. simpl. rewrite Hs. by apply Hc. }
  unfold finalize_ack. simpl. rewrite (Z.leb_refl (leo p + _ + 1)), andb_true_r.
  split; intros pid Hp; simpl; rewrite of_producer_snoc; simpl.
  - destruct (decide (producer_id b = pid)) as [<-|Hne].
    + rewrite last_snoc, (proj2 (Z.leb_le _ _)) by lia. rewrite commit_slot, lookup_insert_eq.
      eexists. split; [done|]. by split_and!.
    + rewrite app_nil_r. specialize (Hc pid Hp).
      assert (slot (if 0 <=? producer_id b then _ else s) topic partition !! pid = entry (tracker p) pid) as ->; [|done].
      destruct (0 <=? producer_id b); [|by rewrite Hs]. by rewrite commit_slot, lookup_insert_ne, Hs.
  - destruct (decide (producer_id b = pid)) as [<-|]; [|rewrite app_nil_r; by apply Ho].
    specialize (Hc _ Hp). apply Sorted_snoc; [by apply Ho|].
    destruct (of_producer (producer_id b) (written p)) as [|x w _] using rev_ind; [constructor|].
    rewrite last_snoc in Hc. destruct Hc as (e & He & Hd). constructor. exact (Ha x e Hp eq_refl He Hd).
Qed.

Lemma served_subset bs p b :
  Forall (fun x => header_ok x.2) (written p) → Forall header_ok bs → b ∈ written (foldl (serve topic partition) p bs) →
  header_ok b.2.
Proof.
  intros Hw Hb. revert b. rewrite <- Forall_forall. revert p Hw.
  induction Hb as [|b bs Hb _ IH]; intros p Hw; [done|]. apply IH. unfold serve.
  destruct (handle_duplicate _ _ _ _ _ _) as [s [r|]]; [done|]. simpl. rewrite Forall_app.
  split; [done|by apply Forall_singleton].
Qed.

Lemma served_keeps bs p :
  current topic partition p → in_order p →
  let q := foldl (serve topic partition) p bs in current topic partition q ∧ in_order q.
Proof.
  revert p. induction bs as [|b bs IH]; intros p Hc Ho; [done|].
  destruct (serve_keeps p b Hc Ho). by apply IH.
Qed.
End Sequential.

Lemma fresh_current topic partition : current topic partition fresh.
Proof. by intros pid _. Qed.

Lemma fresh_in_order : in_order fresh.
Proof. intros pid _. constructor. Qed.

(** ** The numbers of the stored records *)
Definition progression (s0 n : Z) : list Z := (fun k => (s0 + k) mod SEQUENCES) <$> seqZ 0 n.

Lemma progression_app s0 n m :
  0 ≤ n → 0 ≤ m → progression s0 (n + m) = progression s0 n ++ progression (s0 + n) m.
Proof.
  intros. unfold progression. rewrite seqZ_app, fmap_app by done. f_equal.
  replace (0 + n) with (n + 0) by lia. rewrite <- (fmap_add_seqZ n 0 m), <- list_fmap_compose. apply list_fmap_ext.
  intros ? k _. simpl. f_equal. lia.
Qed.

Lemma progression_mod s0 s1 n : s0 mod SEQUENCES = s1 mod SEQUENCES → progression s0 n = progression s1 n.
Proof.
  intros H. apply list_fmap_ext. intros ? k _. by rewrite <- Zplus_mod_idemp_l, H, Zplus_mod_idemp_l.
Qed.

Lemma follows_epochs x l : Sorted follows (x :: l) → Forall (fun y => producer_epoch x.2 ≤ producer_epoch y.2) l.
Proof.
  revert x. induction l as [|y l IH]; intros x Hs; [constructor|].
  apply Sorted_inv in Hs as [Hs Hh]. inversion_clear Hh as [|? ? Hf].
  assert (producer_epoch x.2 ≤ producer_epoch y.2) by (destruct Hf as [|[]]; lia).
  constructor; [done|]. eapply Forall_impl; [by apply IH|]. simpl. lia.
Qed.

Lemma numbers_run l ep s0 :
  Sorted follows l → Forall (fun x => header_ok x.2) l →
  (∀ y, head (filter (fun x => producer_epoch x.2 = ep) l) = Some y →
        base_sequence y.2 mod SEQUENCES = s0 mod SEQUENCES) →
  let r := filter (fun x => producer_epoch x.2 = ep) l ≫= fun x => numbers x.2 in
  r = progression s0 (Z.of_nat (length r)).
Proof.
  revert s0. induction l as [|x l IH]; intros s0 Hs Hok H0; [done|].
  apply Forall_cons in Hok as [[Hb Hd] Hok]. pose proof (follows_epochs x l Hs) as He.
  pose proof Hs as [Hs' Hh]%Sorted_inv. rewrite filter_cons in *.
  destruct (decide (producer_epoch x.2 = ep)) as [Hep|Hep]; [|by apply IH]. simpl.
  rewrite length_app, Nat2Z.inj_add, progression_app by lia. f_equal.
  - unfold numbers. rewrite length_fmap, length_seqZ, Z2Nat.id by lia. symmetry.
    apply progression_mod. symmetry. by apply H0.
  - apply IH; [done..|]. intros y Hy. unfold numbers. rewrite length_fmap, length_seqZ, Z2Nat.id by lia.
    destruct l as [|z l]; [done|]. apply Forall_cons in He as [Hz _]. inversion_clear Hh as [|? ? Hf].
    rewrite filter_cons in Hy. destruct (decide (producer_epoch z.2 = ep)) as [Hz'|Hz'].
    + injection Hy as ->. destruct Hf as [Hlt|[_ ->]]; [lia|].
      rewrite increment_mod, Z.mod_mod by done. rewrite <- Zplus_mod_idemp_l, (H0 x eq_refl). apply Zplus_mod_idemp_l.
    + exfalso. apply (f_equal (fun o => default z o)) in Hy as Hy'. pose proof (follows_epochs z l Hs') as Hgt.
      rewrite (filter_none _ l) in Hy; [done|]. eapply Forall_impl; [done|]. simpl. lia.
Qed.

(** C9. However the requests of idempotent producers repeat and interleave, when
    each is answered before the next arrives, the records a producer has stored
    in one of its epochs carry consecutive sequence numbers (modulo [2^31]):
    none is stored twice, none is missing and none is out of order. *)
Theorem stored_in_sequence topic partition bs pid ep :
  0 ≤ pid → Forall header_ok bs →
  let p := foldl (serve topic partition) fresh bs in
  let r := records_of pid ep (written p) in
  ∃ s0, r = progression s0 (Z.of_nat (length r)).
Proof.
  intros Hp Hb p r.
  destruct (served_keeps topic partition bs fresh (fresh_current _ _) fresh_in_order) as [_ Ho].
  set (l := filter (fun x => producer_epoch x.2 = ep) (of_producer pid (written p))).
  exists (default 0 (base_sequence ∘ snd <$> head l)). apply numbers_run; [by apply Ho| |].
  - apply Forall_filter, Forall_forall. intros x Hx.
    by eapply (served_subset topic partition bs fresh); [constructor| |].
  - intros y Hy. fold l. change (head l = Some y) in Hy. by rewrite Hy.
Qed.

(** ** Retries *)
Lemma duplicate_found e x :
  describes e x → header_ok x.2 → last_offset_delta x.2 + 1 < SEQUENCES →
  in_s 64 x.1 → in_s 64 (x.1 + last_offset_delta x.2) →
  check_pure (Some e) (producer_epoch x.2) (base_sequence x.2) (last_offset_delta x.2) = Duplicate x.1.
Proof.
  intros (He & Hs & Hb & Hl) [Hq Hd] Hd' H1 H2. unfold check_pure. rewrite He, Z.ltb_irrefl.
  rewrite wrap_s_id in Hl by done. unfold matches_last_batch. rewrite Hl, Hb, Hs.
  replace (x.1 + last_offset_delta x.2 - x.1) with (last_offset_delta x.2) by lia.
  rewrite decrement_increment, !Z.eqb_refl by done.
  rewrite !bool_decide_eq_true_2 by (unfold in_s, SEQUENCES in *; lia). simpl.
  destruct (Z.eqb_spec (base_sequence x.2) (increment_sequence (increment_sequence (base_sequence x.2) (last_offset_delta x.2)) 1))
    as [H|]; [|done]. exfalso. rewrite !increment_mod, Zplus_mod_idemp_l in H.
  unfold SEQUENCES in *. Z.to_euclidean_division_equations. lia.
Qed.

(** C20. A producer that sends its last stored batch again is answered with the
    offset the batch has, and nothing is stored. *)
Theorem retry_stored_once topic partition bs pid base b :
  Forall header_ok bs → 0 ≤ pid →
  let p := foldl (serve topic partition) fresh bs in
  last (of_producer pid (written p)) = Some (base, b) →
  last_offset_delta b + 1 < SEQUENCES → in_s 64 base → in_s 64 (base + last_offset_delta b) →
  let q := serve topic partition p b in
  written q = written p ∧ leo q = leo p ∧ answers q = answers p ++ [mkResponse NONE base].
Proof.
  intros Hb Hp p Hl Hd H1 H2 q.
  destruct (served_keeps topic partition bs fresh (fresh_current _ _) fresh_in_order) as [Hc _].
  specialize (Hc pid Hp). fold p in Hc. rewrite Hl in Hc. destruct Hc as (e & He & Hde).
  apply last_Some_elem_of, list_elem_of_filter in Hl as [<- Hin].
  pose proof (served_subset topic partition bs fresh (base, b) ltac:(constructor) Hb Hin) as Hok.
  subst q. unfold serve, handle_duplicate. simpl in *. rewrite (proj2 (Z.ltb_ge _ _)) by lia.
  unfold check, handle. rewrite He.
  pose proof (duplicate_found e (base, b) Hde Hok Hd H1 H2) as Hdup. cbn [fst snd] in Hdup. by rewrite Hdup.
Qed.

(** ** Restart

    What the log itself keeps of the producers ([Log::producer_state_snapshot])
    is enough to decide as before. *)
Definition log_producers (w : list (Z * PreparedBatch)) : result LogError SnapshotState :=
  foldl (fun acc x => m ← acc;
           update_data_producer_entry m (producer_id x.2) (producer_epoch x.2) (base_sequence x.2)
             (last_offset_delta x.2) x.1 (max_timestamp x.2) false) (Ok ∅) w.
Definition snapshot_of (m : SnapshotState) : list ProducerSnapshotEntry := (map_to_list m).*2.
Definition keyed (m : SnapshotState) : Prop := ∀ pid e, m !! pid = Some e → ProducerSnapshot.producer_id e = pid.

Lemma entries_of_snapshot now m pid :
  keyed m → entries_from_snapshot now (snapshot_of m) !! pid = entry_of now <$> m !! pid.
Proof.
  intros Hk.
  assert ((fun e => (ProducerSnapshot.producer_id e, entry_of now e)) <$> snapshot_of m =
          prod_map id (entry_of now) <$> map_to_list m) as Heq.
  { unfold snapshot_of. rewrite <- list_fmap_compose. apply list_fmap_ext. intros i [k e] He. simpl.
    f_equal. apply Hk, elem_of_map_to_list. by eapply list_elem_of_lookup_2. }
  unfold entries_from_snapshot. rewrite fmap_reverse, Heq.
  rewrite <- (list_to_map_proper (prod_map id (entry_of now) <$> map_to_list m)).
  - by rewrite list_to_map_fmap, list_to_map_to_list, lookup_fmap.
  - rewrite <- list_fmap_compose, (list_fmap_ext _ fst) by done. apply NoDup_fst_map_to_list.
  - symmetry. apply reverse_Permutation.
Qed.

(** A batch the log can hold. *)
Definition stored_ok (x : Z * PreparedBatch) : Prop :=
  header_ok x.2 ∧ 0 ≤ x.1 ∧ in_s 64 (x.1 + last_offset_delta x.2).

Lemma log_producers_snoc w x m :
  log_producers w = Ok m → stored_ok x →
  log_producers (w ++ [x]) = Ok (if 0 <=? producer_id x.2
    then let e := entry_or_empty m (producer_id x.2) (producer_epoch x.2) in
         <[producer_id x.2 := mkProducer (ProducerSnapshot.producer_id e) (producer_epoch x.2)
            (increment_sequence (base_sequence x.2) (last_offset_delta x.2)) (x.1 + last_offset_delta x.2)
            (last_offset_delta x.2) (max_timestamp x.2) (coordinator_epoch e) (current_txn_first_offset e)]> m
    else m).
Proof.
  intros Hm ([Hs Hd] & Hb & Hl). unfold log_producers in *. rewrite foldl_app. cbn [foldl]. rewrite Hm.
  cbn [mbind result_bind]. unfold update_data_producer_entry, data_producer_tail.
  rewrite (proj2 (Z.ltb_ge (base_sequence _) 0)), (proj2 (Z.ltb_ge (last_offset_delta _) 0)) by lia.
  rewrite bool_decide_eq_true_2, orb_false_r by done.
  destruct (Z.ltb_spec (producer_id x.2) 0), (Z.leb_spec 0 (producer_id x.2)); try lia; [done|].
  cbn [mbind result_bind]. cbv zeta. by destruct (current_txn_first_offset _).
Qed.

(** The snapshot has the last batch of each producer too. *)
Lemma log_producers_current w :
  Forall stored_ok w → ∃ m, log_producers w = Ok m ∧ keyed m ∧ ∀ pid, 0 ≤ pid →
  match last (of_producer pid w) with
  | None => m !! pid = None
  | Some x => ∃ e, m !! pid = Some e ∧ ∀ now, describes (entry_of now e) x
  end.
Proof.
  induction w as [|x w IH] using rev_ind; [by exists ∅|].
  intros [Hw [Hx _]%Forall_cons]%Forall_app. destruct (IH Hw) as (m & Hm & Hk & Hc).
  eexists. split; [by apply log_producers_snoc|]. destruct Hx as ([Hs Hd] & Hb & Hl). split.
  - case_match; [|done]. intros pid e [[<- <-]|[_ He]]%lookup_insert_Some; [|by apply Hk].
    unfold entry_or_empty. simpl. destruct (m !! producer_id x.2) eqn:E; [|done]. by apply Hk in E.
  - intros pid Hp. rewrite of_producer_snoc. destruct (decide _) as [<-|Hne].
    + rewrite last_snoc, (proj2 (Z.leb_le _ _)), lookup_insert_eq by lia. eexists. split; [done|].
      intros now. unfold describes, entry_of. simpl. rewrite (proj2 (Z.leb_le _ _)), wrap_s_id by (done || lia).
      split_and!; [done..|lia|done].
    + rewrite app_nil_r. specialize (Hc pid Hp). destruct (0 <=? _); [|done]. by rewrite lookup_insert_ne.
Qed.

Lemma decisions_same e e' x ep seq d :
  describes e x → describes e' x → check_pure (Some e) ep seq d = check_pure (Some e') ep seq d.
Proof.
  intros (H1 & H2 & H3 & H4) (H1' & H2' & H3' & H4'). unfold check_pure, matches_last_batch.
  by rewrite H1, H2, H3, H4, H1', H2', H3', H4'.
Qed.

Lemma served_offsets topic partition bs p :
  Forall header_ok bs → 0 ≤ leo p → Forall (fun x => header_ok x.2 ∧ 0 ≤ x.1 ∧ x.1 + last_offset_delta x.2 < leo p) (written p) →
  let q := foldl (serve topic partition) p bs in
  0 ≤ leo q ∧ Forall (fun x => header_ok x.2 ∧ 0 ≤ x.1 ∧ x.1 + last_offset_delta x.2 < leo q) (written q).
Proof.
  intros Hb. revert p. induction Hb as [|b bs Hb _ IH]; intros p H0 Hw; [done|]. apply IH; unfold serve.
  - destruct (handle_duplicate _ _ _ _ _ _) as [s [r|]]; simpl; [done|]. destruct Hb. lia.
  - destruct (handle_duplicate _ _ _ _ _ _) as [s [r|]]; simpl; [done|]. destruct Hb as [? Hd].
    rewrite Forall_app, Forall_singleton. split; [|simpl; split_and!; [done|done|lia..]].
    eapply Forall_impl; [done|]. simpl. intros x (? & ? & ?). split_and!; [done..|lia].
Qed.

(** C26. A broker that restarts decides about every batch as it would have done
    without the restart: the producer state the log recovers, projected into whatever
    tracker there is, answers each request like the state kept up by the commits.  This
    is for a partition that has served, one after the other and from an empty log on,
    requests with batches that are not transactional: with the marker of a transaction
    in the log the two can differ. *)
Theorem restart_keeps_decisions topic partition bs now s0 :
  Forall header_ok bs →
  let p := foldl (serve topic partition) fresh bs in
  leo p ≤ 2 ^ 63 →
  ∃ m, log_producers (written p) = Ok m ∧
  let s := rebuild_from_snapshot now s0 topic partition (snapshot_of m) in
  ∀ pid ep seq d, 0 ≤ pid →
  (check s topic partition pid ep seq d).2 = (check (tracker p) topic partition pid ep seq d).2.
Proof.
  intros Hb p Hleo.
  destruct (served_keeps topic partition bs fresh (fresh_current _ _) fresh_in_order) as [Hc _]. fold p in Hc.
  destruct (served_offsets topic partition bs fresh Hb) as [H0 Hw]; [done|constructor|]. fold p in H0, Hw.
  destruct (log_producers_current (written p)) as (m & Hm & Hk & Hd).
  { eapply Forall_impl; [done|]. simpl. intros x (H1 & H2 & H3). split_and!; [done..|].
    unfold in_s. destruct H1. lia. }
  exists m. split; [done|]. intros s pid ep seq d Hp. unfold check, handle. cbn [snd].
  subst s. unfold rebuild_from_snapshot. rewrite slot_put, entries_of_snapshot by done.
  specialize (Hd pid Hp). specialize (Hc pid Hp). destruct (last (of_producer pid (written p))) as [x|].
  - destruct Hd as (e & -> & He), Hc as (e' & -> & He'). by eapply decisions_same.
  - by rewrite Hd, Hc.
Qed.

(** ** Requests that overlap *)

Section Overlap.
Context (topic : string) (partition : Z).

Lemma steps_app p evs evs' : steps topic partition p (evs ++ evs') = steps topic partition p evs ≫= fun q => steps topic partition q evs'.
Proof.
  revert p. induction evs as [|ev evs IH]; intros p; [done|]. simpl. destruct (step _ _ p ev); simpl; [apply IH|done].
Qed.

Lemma admits_slot b s s' :
  slot s topic partition = slot s' topic partition →
  (handle_duplicate topic partition false true b s).2 = (handle_duplicate topic partition false true b s').2.
Proof.
  intros Hs. unfold handle_duplicate. destruct (_ <? 0); [done|]. unfold check, handle. cbn [snd]. by rewrite Hs.
Qed.

(** A request that is admitted, served to its end. *)
Lemma admitted_stored p b now :
  flights p = [] → (handle_duplicate topic partition false true b (tracker p)).2 = None →
  ∃ q, steps topic partition p [Arrive false true b; Write 0; Finish 0 now false true] = Some q ∧
       written q = written p ++ [(leo p, b)] ∧ answers q = answers p ++ [mkResponse NONE (leo p)].
Proof.
  intros Hf Ha. cbn [steps step mbind option_bind].
  destruct (handle_duplicate topic partition false true b (tracker p)) as [s r]. cbn in Ha. subst r. cbn. rewrite Hf. cbn.
  eexists. by split_and!.
Qed.

(** A batch whose handler gives up waiting for the writer is stored without
    a commit: the retry that the timed-out answer asks for is admitted like a new
    batch, so both copies are in the log. *)
Theorem timed_out_retry_stored_twice p b now :
  flights p = [] → (handle_duplicate topic partition false true b (tracker p)).2 = None →
  ∃ q, steps topic partition p ([Arrive false true b; TimeOut 0; Write 0] ++
         [Arrive false true b; Write 0; Finish 0 now false true]) = Some q ∧
       written q = written p ++ [(leo p, b); (leo p + last_offset_delta b + 1, b)] ∧
       answers q = answers p ++ [mkResponse REQUEST_TIMED_OUT 0; mkResponse NONE (leo p + last_offset_delta b + 1)].
Proof.
  intros Hf Ha. pose proof (handle_duplicate_slot topic partition false true b (tracker p)) as Hs.
  rewrite steps_app. remember [Arrive false true b; Write 0; Finish 0 now false true] as retry eqn:Hretry.
  cbn [steps step mbind option_bind]. destruct (handle_duplicate topic partition false true b (tracker p)) as [s r] eqn:Heq.
  cbn [fst snd] in Ha, Hs. subst r. cbn. rewrite Hf. cbn -[steps].
  subst retry. match goal with |- context [steps _ _ ?p1 _] => destruct (admitted_stored p1 b now) as (q & -> & Hw & Hr) end.
  - done.
  - etrans; [apply (admits_slot b _ (tracker p)), Hs|]. by rewrite Heq.
  - exists q. rewrite Hw, Hr. cbn. by rewrite <- !app_assoc.
Qed.

(** A follower copies the batches of its leader without telling its tracker,
    and the promotion of a follower does not rebuild the tracker from the log:
    a retry that arrives after a failover is admitted, although the new leader
    has the batch. *)
Theorem failover_stores_twice p b now :
  flights p = [] → (handle_duplicate topic partition false true b (tracker p)).2 = None →
  ∃ q, steps topic partition p ([Replicate (leo p) b] ++
         [Arrive false true b; Write 0; Finish 0 now false true]) = Some q ∧
       written q = written p ++ [(leo p, b); (leo p + last_offset_delta b + 1, b)].
Proof.
  intros Hf Ha. rewrite steps_app.
  remember [Arrive false true b; Write 0; Finish 0 now false true] as retry eqn:Hretry.
  cbn [steps step mbind option_bind]. rewrite Z.eqb_refl. cbn -[steps]. subst retry.
  destruct (admitted_stored (write b p) b now) as (q & -> & Hw & _); [done..|].
  exists q. rewrite Hw. cbn. by rewrite <- app_assoc.
Qed.
End Overlap.

Definition sample_batch (seq : Z) : PreparedBatch := mkPrepared 7 0 seq 0 100.

Lemma timed_out_retry_stored_twice_witness :
  ∃ q, steps "t" 0 fresh ([Arrive false true (sample_batch 0); TimeOut 0; Write 0] ++
         [Arrive false true (sample_batch 0); Write 0; Finish 0 5 false true]) = Some q ∧
       written q = written fresh ++ [(0, sample_batch 0); (1, sample_batch 0)] ∧
       answers q = answers fresh ++ [mkResponse REQUEST_TIMED_OUT 0; mkResponse NONE 1].
Proof. apply (timed_out_retry_stored_twice "t" 0 fresh (sample_batch 0) 5); reflexivity. Defined.

Lemma failover_stores_twice_witness :
  ∃ q, steps "t" 0 fresh ([Replicate 0 (sample_batch 0)] ++
         [Arrive false true (sample_batch 0); Write 0; Finish 0 5 false true]) = Some q ∧
       written q = written fresh ++ [(0, sample_batch 0); (1, sample_batch 0)].
Proof. apply (failover_stores_twice "t" 0 fresh (sample_batch 0) 5); reflexivity. Defined.

(** Truncation drops the whole entry of a producer whose last batch went,
    instead of going back to the batch before it: a retry of that batch, which
    is still in the log, is admitted, although the state reloaded from the log
    recognizes it. *)
Theorem truncation_forgets_producer :
  let p := foldl (serve "t" 0) fresh [sample_batch 0; sample_batch 1] in
  let q := default p (step "t" 0 p (Truncate 1)) in
  written q = [(0, sample_batch 0)] ∧ (check (tracker q) "t" 0 7 0 0 0).2 = Append ∧
  written (serve "t" 0 q (sample_batch 0)) = [(0, sample_batch 0); (1, sample_batch 0)] ∧
  match log_producers (written q) with
  | Ok m => (check (rebuild_from_snapshot 0 (tracker q) "t" 0 (snapshot_of m)) "t" 0 7 0 0 0).2 = Duplicate 0
  | Err _ => False
  end.
Proof. split_and!; vm_compute; reflexivity. Qed.

(** ** Instances *)
Definition sample_requests : list PreparedBatch :=
  [sample_batch (2 ^ 31 - 1); sample_batch 0; sample_batch 0; sample_batch 5].

Lemma sample_requests_ok : Forall header_ok sample_requests.
Proof. repeat (constructor; [split; split; vm_compute; (reflexivity || discriminate)|]). constructor. Defined.

Lemma stored_in_sequence_witness :
  let p := foldl (serve "t" 0) fresh sample_requests in
  let r := records_of 7 0 (written p) in
  ∃ s0, r = progression s0 (Z.of_nat (length r)).
Proof. apply (stored_in_sequence "t" 0 sample_requests 7 0); [apply Z.leb_le; reflexivity|apply sample_requests_ok]. Defined.

Lemma retry_stored_once_witness :
  let p := foldl (serve "t" 0) fresh sample_requests in
  let q := serve "t" 0 p (sample_batch 0) in
  written q = written p ∧ leo q = leo p ∧ answers q = answers p ++ [mkResponse NONE 1].
Proof.
  apply (retry_stored_once "t" 0 sample_requests 7 1 (sample_batch 0));
    [apply sample_requests_ok|apply Z.leb_le; reflexivity|vm_compute; reflexivity|
     apply Z.ltb_lt; reflexivity|split; vm_compute; (reflexivity || discriminate)..].
Defined.

Lemma restart_keeps_decisions_witness :
  let p := foldl (serve "t" 0) fresh sample_requests in
  ∃ m, log_producers (written p) = Ok m ∧
  let s := rebuild_from_snapshot 9 ∅ "t" 0 (snapshot_of m) in
  ∀ pid ep seq d, 0 ≤ pid →
  (check s "t" 0 pid ep seq d).2 = (check (tracker p) "t" 0 pid ep seq d).2.
Proof. apply (restart_keeps_decisions "t" 0 sample_requests 9 ∅); [apply sample_requests_ok|vm_compute; discriminate]. Defined.
End Sequencing.
