(* ===== verification/ReplicaState.v ===== *)
(** * In-sync replicas and the high watermark

    Models [crates/broker/src/replica_state.rs], what the leader of a partition
    knows of its followers; the proposals of
    [crates/broker/src/isr_maintenance.rs]; and the operations of
    [crates/broker/src/partition.rs], [partition_writer.rs] and
    [handlers/fetch.rs] that change them.  The log of a partition appears as its
    log end offset.  Instants are numbers, [Instant::duration_since] saturates
    at zero. *)

From S2P Require Import Prelude.

(** ** The followers of a leader *)
Module Replicas.
Record FollowerStats : Type := mkStats {
  f_leo : Z;
  last_fetch : Z;
  last_caught_up : Z;
}.
Record ReplicaState : Type := mkReplicas {
  isr : gset Z;
  per_follower : gmap Z FollowerStats;
  hw : Z;
  current_leader_epoch : Z;
}.
Definition new : ReplicaState := mkReplicas ∅ ∅ 0 0.
Definition set_hw (v : Z) (s : ReplicaState) : ReplicaState :=
  mkReplicas (isr s) (per_follower s) v (current_leader_epoch s).
Definition set_followers (m : gmap Z FollowerStats) (s : ReplicaState) : ReplicaState :=
  mkReplicas (isr s) m (hw s) (current_leader_epoch s).

(** [entry(r).or_insert(...)] with no progress. *)
Definition seed (now : Z) (m : gmap Z FollowerStats) (r : Z) : gmap Z FollowerStats :=
  <[r := default (mkStats 0 now now) (m !! r)]> m.
Definition install_isr (members replicas : list Z) (leader now : Z) (s : ReplicaState) : ReplicaState :=
  let seeded := foldl (fun m r => if r =? leader then m else seed now m r) (per_follower s) members in
  mkReplicas (list_to_set members) (filter (fun p => p.1 ∈ replicas) seeded) (hw s) (current_leader_epoch s).

(** The smallest log end of the in-sync followers the leader knows of. *)
Definition compute_hw (leader_leo : Z) (s : ReplicaState) : Z :=
  if bool_decide (isr s = ∅) then leader_leo else
  foldl (fun m f => match per_follower s !! f with
                    | Some st => if f_leo st <? m then f_leo st else m
                    | None => m
                    end) leader_leo (elements (isr s)).
Definition recompute_hw_for_leader_append (leader_leo : Z) (s : ReplicaState) : ReplicaState :=
  set_hw (compute_hw leader_leo s) s.
Definition recompute_hw_for_wal_durable (durable_leo : Z) (s : ReplicaState) : ReplicaState :=
  set_hw (Z.max (hw s) durable_leo) s.

(** Both branches of the source, for members and for other followers, end in
    the same state. *)
Definition update_follower_leo (follower follower_leo leader_leo now : Z) (s : ReplicaState) : ReplicaState :=
  let clamped := Z.min follower_leo leader_leo in
  let st := default (mkStats 0 now now) (per_follower s !! follower) in
  let st := mkStats clamped now (if leader_leo <=? clamped then now else last_caught_up st) in
  recompute_hw_for_leader_append leader_leo (set_followers (<[follower := st]> (per_follower s)) s).

(** ** Changes of the in-sync set *)
Definition duration_since (now earlier : Z) : Z := Z.max 0 (now - earlier).
Record Proposal : Type := mkProposal {
  prev_isr : list Z;
  new_isr : list Z;
  leader_epoch : Z;
}.
Definition lagging (s : ReplicaState) (now lag_max n : Z) : bool :=
  match per_follower s !! n with
  | Some st => lag_max <? duration_since now (last_fetch st)
  | None => false
  end.
Definition caught_up (s : ReplicaState) (now lag_max : Z) (p : Z * FollowerStats) : bool :=
  bool_decide (p.1 ∉ isr s) && (duration_since now (last_caught_up p.2) <=? lag_max).
Definition compute_proposal (s : ReplicaState) (now lag_max : Z) : option Proposal :=
  let prev := merge_sort Z.le (elements (isr s)) in
  let kept := filter (fun n => lagging s now lag_max n = false) prev in
  let joined := (filter (fun p => caught_up s now lag_max p = true) (map_to_list (per_follower s))).*1 in
  let next := merge_sort Z.le (kept ++ joined) in
  if bool_decide (next = prev) then None else Some (mkProposal prev next (current_leader_epoch s)).
End Replicas.

(** ** The partition of a broker *)
Module Partition.
Import Replicas.
Record ReplicationTarget : Type := mkTarget {
  topic_id : option Z;
  leader_node_id : Z;
  t_leader_epoch : Z;
}.
#[global] Instance ReplicationTarget_eq_dec : EqDecision ReplicationTarget.
Proof. solve_decision. Defined.
Record Partition : Type := mkPartition {
  log_end : Z;
  diskless : bool;
  current_leader : Z;
  leader_epoch : Z;
  target : ReplicationTarget;
  replicas : ReplicaState;
}.
Definition set_replicas (f : ReplicaState → ReplicaState) (p : Partition) : Partition :=
  mkPartition (log_end p) (diskless p) (current_leader p) (leader_epoch p) (target p) (f (replicas p)).
Definition set_log_end (v : Z) (p : Partition) : Partition :=
  mkPartition v (diskless p) (current_leader p) (leader_epoch p) (target p) (replicas p).

Definition high_watermark (p : Partition) : Z := hw (replicas p).
(** What [await_hw_at_least] waits for. *)
Definition hw_at_least (target_offset : Z) (p : Partition) : bool := target_offset <=? high_watermark p.

(** The writer has appended up to [leo]; a diskless partition has made the
    records durable up to [durable]. *)
Definition handle_produce (leo durable : Z) (p : Partition) : Partition :=
  let p := set_log_end leo p in
  set_replicas (if diskless p then recompute_hw_for_wal_durable durable
                else recompute_hw_for_leader_append leo) p.
Definition handle_replicate (leo : Z) (p : Partition) : Partition := set_log_end leo p.
(** The log has been truncated or reset, and ends at [leo]. *)
Definition handle_truncate (leo : Z) (p : Partition) : Partition :=
  set_replicas (recompute_hw_for_leader_append leo) (set_log_end leo p).
Definition update_follower_progress (follower_id fetch_offset now : Z) (p : Partition) : Partition :=
  set_replicas (update_follower_leo (if follower_id <? 0 then 0 else follower_id) fetch_offset (log_end p) now) p.
Definition set_follower_hw (reported : Z) (p : Partition) : Partition :=
  let new_hw := Z.min reported (log_end p) in
  if high_watermark p <? new_hw then set_replicas (set_hw new_hw) p else p.
(** [leader_leo] is the log end that was read before the replica state was locked. *)
Definition install_isr (members all : list Z) (leader now leader_leo : Z) (p : Partition) : Partition :=
  let p' := set_replicas (Replicas.install_isr members all leader now) p in
  if diskless p then p' else set_replicas (recompute_hw_for_leader_append leader_leo) p'.

(** A new target is published under the lock of the target and then, once that one
    is released, under the lock of the replica state. *)
Definition swap_target (topic : option Z) (new_leader new_epoch : Z) (p : Partition) : Partition * bool :=
  let changed := negb (current_leader p =? new_leader) || negb (leader_epoch p =? new_epoch) in
  let id := match topic with Some _ => topic | None => topic_id (target p) end in
  (mkPartition (log_end p) (diskless p) new_leader new_epoch (mkTarget id new_leader new_epoch) (replicas p), changed).
Definition forget_followers (changed : bool) (new_epoch : Z) (r : ReplicaState) : ReplicaState :=
  mkReplicas (isr r) (if changed then ∅ else per_follower r) (hw r) new_epoch.
Definition publish_replication_target (topic : option Z) (new_leader new_epoch : Z) (p : Partition) : Partition :=
  let '(p, changed) := swap_target topic new_leader new_epoch p in set_replicas (forget_followers changed new_epoch) p.
Definition target_matches (topic : option Z) (new_leader new_epoch : Z) (t : ReplicationTarget) : bool :=
  (match topic with Some _ => bool_decide (topic_id t = topic) | None => true end) &&
  (leader_node_id t =? new_leader) && (t_leader_epoch t =? new_epoch).
Definition install_replication_target (topic : option Z) (new_leader new_epoch : Z) (p : Partition) : Partition :=
  if target_matches topic new_leader new_epoch (target p) then p else publish_replication_target topic new_leader new_epoch p.
(** A mutation from a stale replication task is refused. *)
Definition lock_replication_target (expected : ReplicationTarget) (p : Partition) : bool :=
  bool_decide (target p = expected).

(** The metadata of a partition, as far as the gates of a Produce read it. *)
Record PartitionRecord : Type := mkRecord {
  r_leader : Z;
  r_leader_epoch : Z;
  r_isr : list Z;
  r_replicas : list Z;
}.
Definition replica_state_matches_image (s : ReplicaState) (r : PartitionRecord) : bool :=
  (current_leader_epoch s =? r_leader_epoch r) && bool_decide (size (isr s) = length (r_isr r)) &&
  forallb (fun n => bool_decide (n ∈ isr s)) (r_isr r).
Definition replication_target_matches_image (t : ReplicationTarget) (topic : option Z) (r : PartitionRecord) : bool :=
  bool_decide (topic_id t = topic) && (leader_node_id t =? r_leader r) && (t_leader_epoch t =? r_leader_epoch r).
(** A Produce to a partition that is not diskless passes both. *)
Definition admits (topic : option Z) (r : PartitionRecord) (p : Partition) : bool :=
  replication_target_matches_image (target p) topic r && replica_state_matches_image (replicas p) r.

(** *** The supervisor at work
    When the metadata names this broker leader, the supervisor installs the target and
    then the in-sync set.  Neither is one critical section: [task] is how far it is. *)
Inductive Task : Type :=
| Waiting
| Publishing (r : PartitionRecord) (changed : bool)
| Published (r : PartitionRecord)
| Installing (r : PartitionRecord) (leader_leo : Z).
(** [seen] is the fetch positions that followers have reported, and [installed]
    whether the supervisor has finished once: no operation reads them. *)
Record Leading : Type := mkLeading {
  part : Partition;
  task : Task;
  seen : list (Z * Z);
  installed : bool;
}.
Definition set_part (p : Partition) (s : Leading) : Leading := mkLeading p (task s) (seen s) (installed s).
Definition start_reconcile (topic : option Z) (r : PartitionRecord) (s : Leading) : Leading :=
  if target_matches topic (r_leader r) (r_leader_epoch r) (target (part s))
  then mkLeading (part s) (Published r) (seen s) (installed s)
  else let '(p, changed) := swap_target topic (r_leader r) (r_leader_epoch r) (part s) in
       mkLeading p (Publishing r changed) (seen s) (installed s).

(** Appends, the recomputations that follow them, and fetches run side by side with
    the supervisor: each lock is a step, and a log end read before a lock was taken
    may be behind the log by then. *)
Inductive step (topic : option Z) (ok : PartitionRecord → Prop) (s : Leading) : Leading → Prop :=
| step_append n : 0 ≤ n → step topic ok s (set_part (set_log_end (log_end (part s) + n) (part s)) s)
| step_recompute leo :
    leo ≤ log_end (part s) →
    step topic ok s (set_part (set_replicas (recompute_hw_for_leader_append leo) (part s)) s)
| step_fetch follower_id fetch_offset leo now :
    leo ≤ log_end (part s) →
    let f := if follower_id <? 0 then 0 else follower_id in
    step topic ok s (mkLeading (set_replicas (update_follower_leo f fetch_offset leo now) (part s)) (task s)
                       ((f, fetch_offset) :: seen s) (installed s))
| step_start r : task s = Waiting → ok r → step topic ok s (start_reconcile topic r s)
| step_forget r changed :
    task s = Publishing r changed →
    step topic ok s (mkLeading (set_replicas (forget_followers changed (r_leader_epoch r)) (part s)) (Published r)
                       (seen s) (installed s))
| step_read r :
    task s = Published r → step topic ok s (mkLeading (part s) (Installing r (log_end (part s))) (seen s) (installed s))
| step_install r leo now :
    task s = Installing r leo →
    step topic ok s (mkLeading (install_isr (r_isr r) (r_replicas r) (r_leader r) now leo (part s)) Waiting (seen s) true).
End Partition.

(** ** The high watermark is a lower bound of the in-sync log ends *)
Import Replicas Partition.

Lemma fold_min_iff {A} (m : A → option Z) (xs : list A) start t :
  t ≤ foldl (fun b x => match m x with Some v => if v <? b then v else b | None => b end) start xs ↔
  t ≤ start ∧ ∀ x v, x ∈ xs → m x = Some v → t ≤ v.
Proof.
  revert start. induction xs as [|x xs IH]; intros start; simpl.
  { split; [|tauto]. intros; split; [done|]. by intros ? ? ?%not_elem_of_nil. }
  rewrite IH. setoid_rewrite elem_of_cons. destruct (m x) as [v|] eqn:Hx.
  - destruct (Z.ltb_spec v start); naive_solver lia.
  - naive_solver.
Qed.

Lemma compute_hw_iff leo s t :
  t ≤ compute_hw leo s ↔ t ≤ leo ∧ ∀ f st, f ∈ isr s → per_follower s !! f = Some st → t ≤ f_leo st.
Proof.
  unfold compute_hw. case_bool_decide as He; [rewrite He; set_solver|].
  pose proof (fold_min_iff (fun f => f_leo <$> per_follower s !! f) (elements (isr s)) leo t) as H.
  setoid_rewrite elem_of_elements in H. setoid_rewrite fmap_Some in H.
  replace (foldl _ leo (elements (isr s))) with
    (foldl (fun b x => match f_leo <$> per_follower s !! x with Some v => if v <? b then v else b | None => b end)
       leo (elements (isr s))).
  { rewrite H. naive_solver. }
  clear. generalize (elements (isr s)) leo. induction l as [|f l IH]; intros b; [done|]. simpl.
  destruct (per_follower s !! f); simpl; apply IH.
Qed.

(** ** A term of leadership *)
Section Term.
Context (topic : option Z) (leader epoch : Z).

Definition of_term (r : PartitionRecord) : Prop :=
  r_leader r = leader ∧ r_leader_epoch r = epoch ∧ r_isr r ⊆ r_replicas r.

Definition reported (xs : list (Z * Z)) (m : gmap Z FollowerStats) : Prop :=
  ∀ f st, m !! f = Some st → 0 < f_leo st → ∃ o, (f, o) ∈ xs ∧ f_leo st ≤ o.
(** The target is the one of the term. *)
Definition on_target (p : Partition) : Prop :=
  target p = mkTarget (topic_id (target p)) leader epoch ∧
  match topic with Some _ => topic_id (target p) = topic | None => True end.
Definition tracks (s : Leading) : Prop := on_target (part s) ∧ reported (seen s) (per_follower (replicas (part s))).
Definition task_ok (s : Leading) : Prop :=
  match task s with
  | Waiting => if installed s then tracks s else
      target (part s) = mkTarget (topic_id (target (part s))) (current_leader (part s)) (leader_epoch (part s)) ∧
      (current_leader (part s) ≠ leader ∨ leader_epoch (part s) ≠ epoch)
  | Publishing r changed => of_term r ∧ on_target (part s) ∧ changed = true ∧ installed s = false
  | Published r => of_term r ∧ tracks s
  | Installing r leo => of_term r ∧ tracks s ∧ leo ≤ log_end (part s)
  end.
(** Every in-sync follower is tracked, and the high watermark is not above what the
    leader knows of them. *)
Record led (p : Partition) : Prop := {
  led_known f : f ∈ isr (replicas p) → f ≠ leader → is_Some (per_follower (replicas p) !! f);
  led_hw : hw (replicas p) ≤ compute_hw (log_end p) (replicas p);
}.
Record term_ok (s : Leading) : Prop := {
  to_disk : diskless (part s) = false;
  to_task : task_ok s;
  to_led : installed s = true → led (part s);
}.

Lemma compute_hw_mono leo leo' s : leo ≤ leo' → compute_hw leo s ≤ compute_hw leo' s.
Proof.
  intros Hle. destruct (proj1 (compute_hw_iff leo s _) (Z.le_refl _)) as [H1 H2]. apply compute_hw_iff. split; [lia|done].
Qed.
(** The high watermark after a recomputation, against a log that has grown since. *)
Lemma recomputed_hw leo leo' s :
  leo ≤ leo' → hw (recompute_hw_for_leader_append leo s) ≤ compute_hw leo' (recompute_hw_for_leader_append leo s).
Proof. apply (compute_hw_mono leo leo' s). Qed.

Lemma seeded_lookup now ldr members m f st :
  foldl (fun m r => if r =? ldr then m else seed now m r) m members !! f = Some st →
  m !! f = Some st ∨ st = mkStats 0 now now.
Proof.
  revert m. induction members as [|r rs IH]; intros m; simpl; [tauto|]. intros [H|H]%IH; [|tauto].
  destruct (r =? ldr); [tauto|]. unfold seed in H. apply lookup_insert_Some in H as [[<- <-]|[_ H]]; [|tauto].
  destruct (m !! r); simpl; tauto.
Qed.

Lemma seeded_some now ldr members m f :
  f ∈ members ∧ f ≠ ldr ∨ is_Some (m !! f) →
  is_Some (foldl (fun m r => if r =? ldr then m else seed now m r) m members !! f).
Proof.
  revert m. induction members as [|r rs IH]; intros m H; simpl.
  { destruct H as [[?%not_elem_of_nil _]|]; done. }
  apply IH. destruct (decide (is_Some (m !! f))) as [Hs|Hs].
  - right. destruct (r =? ldr); [done|]. apply lookup_insert_is_Some. destruct (decide (r = f)); tauto.
  - destruct H as [[[->|H]%elem_of_cons Hne]|]; [right|by left|done].
    rewrite (proj2 (Z.eqb_neq _ _) Hne). unfold seed. by rewrite lookup_insert_eq.
Qed.

(** Installing the in-sync set of the term starts the tracking of its members. *)
Lemma install_isr_led r now leo p :
  of_term r → diskless p = false → leo ≤ log_end p →
  led (Partition.install_isr (r_isr r) (r_replicas r) (r_leader r) now leo p).
Proof.
  intros (Hl & He & Hsub) Hd Hleo. unfold Partition.install_isr. rewrite Hd. split; simpl.
  - intros f Hf Hne. apply elem_of_list_to_set in Hf.
    destruct (seeded_some now (r_leader r) (r_isr r) (per_follower (replicas p)) f) as [st Hst].
    { left. split; [done|congruence]. }
    exists st. apply map_lookup_filter_Some. split; [done|by apply Hsub].
  - by apply recomputed_hw.
Qed.
Lemma install_isr_reported xs r now leo p :
  diskless p = false → reported xs (per_follower (replicas p)) →
  reported xs (per_follower (replicas (Partition.install_isr (r_isr r) (r_replicas r) (r_leader r) now leo p))).
Proof.
  intros Hd Hrep. unfold Partition.install_isr. rewrite Hd. simpl.
  intros f st [H _]%map_lookup_filter_Some. apply seeded_lookup in H as [H| ->]; [by apply Hrep|]. simpl. lia.
Qed.

Lemma on_target_matches p : on_target p → target_matches topic leader epoch (target p) = true.
Proof.
  intros [Ht Htop]. unfold target_matches. rewrite Ht. simpl. rewrite !Z.eqb_refl, !andb_true_r.
  destruct topic; [by rewrite bool_decide_eq_true_2|done].
Qed.
Lemma tracks_start s r : tracks s → of_term r → start_reconcile topic r s = mkLeading (part s) (Published r) (seen s) (installed s).
Proof.
  intros [Ht _] (Hl & He & _). unfold start_reconcile. by rewrite Hl, He, on_target_matches.
Qed.
(** A promotion is noticed as a change. *)
Lemma promotion_start s r :
  of_term r → target (part s) = mkTarget (topic_id (target (part s))) (current_leader (part s)) (leader_epoch (part s)) →
  current_leader (part s) ≠ leader ∨ leader_epoch (part s) ≠ epoch →
  ∃ p, start_reconcile topic r s = mkLeading p (Publishing r true) (seen s) (installed s) ∧ on_target p ∧
    diskless p = diskless (part s).
Proof.
  intros (Hl & He & _) Ht Hch. assert ((current_leader (part s) =? leader) && (leader_epoch (part s) =? epoch) = false) as Hne.
  { apply andb_false_iff. by rewrite !Z.eqb_neq. }
  unfold start_reconcile, target_matches, swap_target. rewrite Ht, Hl, He. simpl. rewrite <- andb_assoc, Hne, andb_false_r, <- negb_andb, Hne.
  eexists. split; [done|]. split; [|done]. split; simpl; [done|]. by destruct topic.
Qed.

(** A step that leaves the target and the task alone. *)
Lemma task_ok_same s p' xs :
  task_ok s → target p' = target (part s) → current_leader p' = current_leader (part s) →
  leader_epoch p' = leader_epoch (part s) → log_end (part s) ≤ log_end p' →
  (reported (seen s) (per_follower (replicas (part s))) → reported xs (per_follower (replicas p'))) →
  task_ok (mkLeading p' (task s) xs (installed s)).
Proof.
  intros Hok Et Ec Ee Hle Hrep. unfold task_ok, tracks, on_target in *. simpl.
  rewrite Et, Ec, Ee. destruct (task s) as [|r ch|r|r leo]; [destruct (installed s)|..]; try tauto.
  intuition lia.
Qed.
Lemma fetched_reported f o leo now s xs :
  reported xs (per_follower s) → reported ((f, o) :: xs) (per_follower (update_follower_leo f o leo now s)).
Proof.
  intros Hr g st. simpl. intros [[<- <-]|[_ H]]%lookup_insert_Some Hpos.
  - exists o. split; [by left|simpl; lia].
  - destruct (Hr g st H Hpos) as (o' & Ho' & ?). exists o'. split; [by right|done].
Qed.
Lemma fetched_led f o leo now p :
  leo ≤ log_end p → led p → led (set_replicas (update_follower_leo f o leo now) p).
Proof.
  intros Hle [Hk _]. split; simpl; [|by apply recomputed_hw].
  intros g Hg Hne. apply lookup_insert_is_Some. destruct (decide (f = g)); [by left|right; split; [done|by apply Hk]].
Qed.

Lemma step_term_ok s s' : term_ok s → step topic of_term s s' → term_ok s'.
Proof.
  intros [Hd Ht Hl] Hs. destruct Hs as [n Hn|leo Hle|fid o leo now Hle f|r Hw Hr|r ch Hw|r Hw|r leo now Hw].
  - split; simpl; [done|apply task_ok_same; simpl; auto; lia|]. intros [Hk Hh]%Hl. split; simpl; [done|].
    etrans; [exact Hh|]. apply compute_hw_mono. lia.
  - split; simpl; [done|by apply task_ok_same|]. intros [Hk Hh]%Hl. split; simpl; [done|]. by apply recomputed_hw.
  - split; simpl; [done|apply task_ok_same; simpl; try done; apply fetched_reported|]. intros H%Hl. by apply fetched_led.
  - unfold task_ok in Ht. rewrite Hw in Ht. destruct (installed s) eqn:Hi.
    + rewrite tracks_start by done. split; simpl; [done|by split|intros _; by apply Hl].
    + destruct Ht as [Hta Hch]. destruct (promotion_start s r Hr Hta Hch) as (p & -> & Hon & Hdp). rewrite Hi.
      split; simpl; [congruence|by split_and!|done].
  - unfold task_ok in Ht. rewrite Hw in Ht. destruct Ht as (Hr & Hon & -> & Hi). rewrite Hi. split; simpl; [done| |done].
    split; [done|]. split; [done|]. simpl. intros g st Hg. by rewrite lookup_empty in Hg.
  - unfold task_ok in Ht. rewrite Hw in Ht. destruct Ht as [Hr Htr]. split; simpl; [done|by split_and!|done].
  - unfold task_ok in Ht. rewrite Hw in Ht. destruct Ht as (Hr & [Hon Hrep] & Hle).
    pose proof (install_isr_led r now leo (part s) Hr Hd Hle) as Hled. pose proof (install_isr_reported _ r now leo _ Hd Hrep) as Hrep'.
    assert (∀ q, q = Partition.install_isr (r_isr r) (r_replicas r) (r_leader r) now leo (part s) →
      diskless q = false ∧ target q = target (part s)) as Hsame by (intros q ->; unfold Partition.install_isr; by rewrite Hd).
    destruct (Hsame _ eq_refl) as [Hd' Ht']. split; simpl; [done| |done]. split; [|done]. unfold on_target. simpl. by rewrite Ht'.
Qed.

(** C12. What an [acks=all] produce waits for.  A broker is made leader of a partition
    that is not diskless, for one term; appends, fetches and reconciliations of the
    term run side by side with the promotion, one lock at a time.  Once the promotion
    has installed the in-sync set, the high watermark is at or above an offset only if
    the log reaches it and every other in-sync replica has since asked for records
    from that offset on, so it holds all the records below.  Before that the claim
    fails: see [promotion_window_acks_unreplicated]. *)
Theorem acked_is_fetched p s t f :
  diskless p = false →
  target p = mkTarget (topic_id (target p)) (current_leader p) (leader_epoch p) →
  current_leader p ≠ leader ∨ leader_epoch p ≠ epoch →
  rtc (step topic of_term) (mkLeading p Waiting [] false) s → installed s = true →
  0 < t → hw_at_least t (part s) = true →
  t ≤ log_end (part s) ∧ (f ∈ isr (replicas (part s)) → f ≠ leader → ∃ o, (f, o) ∈ seen s ∧ t ≤ o).
Proof.
  intros Hd Ht Hch Hs Hi Hpos Hq. assert (term_ok s) as [_ Htask Hled].
  { assert (term_ok (mkLeading p Waiting [] false)) as H0 by (split; [done|by split|done]). clear -Hs H0.
    induction Hs as [|s0 s1 s Hs _ IH]; [done|]. by eapply IH, step_term_ok. }
  destruct (Hled Hi) as [Hk Hh]. unfold hw_at_least, high_watermark in Hq. apply Z.leb_le in Hq.
  assert (t ≤ compute_hw (log_end (part s)) (replicas (part s))) as [Hend Hall]%compute_hw_iff by lia.
  split; [done|]. intros Hf Hne. destruct (Hk f Hf Hne) as [st Hst]. specialize (Hall f st Hf Hst).
  assert (reported (seen s) (per_follower (replicas (part s)))) as Hrep.
  { unfold task_ok, tracks in Htask. rewrite Hi in Htask. destruct (task s); [tauto| |tauto|tauto].
    by destruct Htask as (_ & _ & _ & ?). }
  destruct (Hrep f st Hst ltac:(lia)) as (o & Ho & ?). exists o. split; [done|lia].
Qed.
End Term.

(** ** Where the tracking falls short *)
Lemma compute_hw_untracked leo s : per_follower s = ∅ → compute_hw leo s = leo.
Proof.
  intros He. apply Z.le_antisymm; [by apply (compute_hw_iff leo s)|].
  apply compute_hw_iff. split; [done|]. intros f st _. by rewrite He, lookup_empty.
Qed.

(** Between the two steps of a promotion the in-sync set is still in force
    while the progress of its members is forgotten: a Produce passes the gates,
    and its append moves the high watermark to the log end, so it is acknowledged
    although no replica has fetched it. *)
Theorem promotion_window_acks_unreplicated id r p leo :
  diskless p = false →
  target p = mkTarget (Some id) (current_leader p) (leader_epoch p) →
  current_leader p ≠ r_leader r ∨ leader_epoch p ≠ r_leader_epoch r →
  NoDup (r_isr r) → isr (replicas p) = list_to_set (r_isr r) →
  let q := install_replication_target (Some id) (r_leader r) (r_leader_epoch r) p in
  admits (Some id) r q = true ∧ hw_at_least leo (handle_produce leo 0 q) = true ∧ log_end q = log_end p.
Proof.
  intros Hd Ht Hch Hnd Hisr q.
  assert ((current_leader p =? r_leader r) && (leader_epoch p =? r_leader_epoch r) = false) as Hne
    by (apply andb_false_iff; by rewrite !Z.eqb_neq).
  assert (q = publish_replication_target (Some id) (r_leader r) (r_leader_epoch r) p) as ->.
  { subst q. unfold install_replication_target, target_matches. rewrite Ht. simpl. by rewrite <- andb_assoc, Hne, andb_false_r. }
  split_and!; [| |done].
  - unfold admits, replication_target_matches_image, replica_state_matches_image. simpl.
    rewrite !Z.eqb_refl, !bool_decide_eq_true_2; [|by rewrite Hisr, size_list_to_set|done]. simpl.
    apply forallb_forall. intros n Hn. rewrite bool_decide_eq_true_2; [done|]. rewrite Hisr.
    by apply elem_of_list_to_set, list_elem_of_In.
  - unfold hw_at_least, high_watermark, handle_produce. simpl. rewrite Hd. simpl.
    rewrite compute_hw_untracked; [apply Z.leb_refl|]. simpl. by rewrite <- negb_andb, Hne.
Qed.

(** A follower that truncates its log takes its new log end for the high
    watermark, however little the leader has reported as committed, and later
    reports do not lower it: consumers that read from the follower see records
    that are not committed. *)
Theorem follower_truncation_exposes_uncommitted p leo reported :
  per_follower (replicas p) = ∅ → reported < leo →
  high_watermark (set_follower_hw reported (handle_truncate leo p)) = leo.
Proof.
  intros He Hlt. unfold set_follower_hw, high_watermark. simpl. rewrite compute_hw_untracked by done.
  rewrite (proj2 (Z.ltb_ge _ _)) by lia. simpl. by apply compute_hw_untracked.
Qed.

Lemma merge_sort_elem (l : list Z) x : x ∈ merge_sort Z.le l ↔ x ∈ l.
Proof. by rewrite (merge_sort_Permutation Z.le l). Qed.

(** The first fetch of a replica outside the in-sync set counts as caught up,
    whatever its position: the leader proposes to admit a replica that is behind
    by any number of records. *)
Theorem lagging_follower_admitted p f offset now lag_max :
  0 ≤ f → 0 ≤ lag_max → f ∉ isr (replicas p) → per_follower (replicas p) !! f = None →
  ∃ pr, compute_proposal (replicas (update_follower_progress f offset now p)) now lag_max = Some pr ∧
        f ∈ new_isr pr.
Proof.
  intros Hf Hlag Hout Hnew. unfold update_follower_progress. rewrite (proj2 (Z.ltb_ge _ _)) by lia. simpl.
  set (s := update_follower_leo f offset (log_end p) now (replicas p)).
  assert (isr s = isr (replicas p)) as Hi by done.
  assert (per_follower s !! f = Some (mkStats (Z.min offset (log_end p)) now now)) as Hs.
  { subst s. simpl. rewrite lookup_insert_eq, Hnew. simpl. by destruct (_ <=? _). }
  clearbody s. unfold compute_proposal. set (joined := (filter _ (map_to_list _)).*1).
  assert (f ∈ joined) as Hj.
  { subst joined. apply list_elem_of_fmap. exists (f, mkStats (Z.min offset (log_end p)) now now).
    split; [done|]. apply list_elem_of_filter. split; [|by apply elem_of_map_to_list].
    unfold caught_up, duration_since. simpl. rewrite bool_decide_eq_true_2 by by rewrite Hi.
    simpl. apply Z.leb_le. lia. }
  match goal with |- context [bool_decide (?a = ?b)] => assert (f ∈ a ∧ f ∉ b) as [Ha Hb] end.
  { rewrite !merge_sort_elem, elem_of_app, elem_of_elements, Hi. split; [by right|done]. }
  rewrite bool_decide_eq_false_2 by congruence. eexists. split; [done|]. done.
Qed.

(** A promotion sets the high watermark back to zero until the other in-sync
    replicas have fetched again. *)
Theorem promotion_resets_hw topic r now leo p f :
  diskless p = false → target p = mkTarget (topic_id (target p)) (current_leader p) (leader_epoch p) →
  current_leader p ≠ r_leader r ∨ leader_epoch p ≠ r_leader_epoch r →
  f ∈ r_isr r → f ∈ r_replicas r → f ≠ r_leader r →
  high_watermark (Partition.install_isr (r_isr r) (r_replicas r) (r_leader r) now leo
    (install_replication_target topic (r_leader r) (r_leader_epoch r) p)) ≤ 0.
Proof.
  intros Hd Ht Hch Hf Hrep Hne. unfold install_replication_target, target_matches. rewrite Ht. simpl.
  assert ((current_leader p =? r_leader r) && (leader_epoch p =? r_leader_epoch r) = false) as Hb
    by (apply andb_false_iff; by rewrite !Z.eqb_neq).
  rewrite <- andb_assoc, Hb, andb_false_r. unfold Partition.install_isr. simpl. rewrite Hd.
  unfold high_watermark. simpl. rewrite <- negb_andb, Hb. simpl.
  match goal with |- compute_hw ?l ?s ≤ 0 => pose proof (proj1 (compute_hw_iff l s _) (Z.le_refl _)) as [_ Hall] end.
  destruct (seeded_some now (r_leader r) (r_isr r) ∅ f) as [st Hst]; [by left|].
  pose proof Hst as [Hl| ->]%seeded_lookup; [by rewrite lookup_empty in Hl|].
  apply (Hall f (mkStats 0 now now)); simpl; [by apply elem_of_list_to_set|].
  by apply map_lookup_filter_Some.
Qed.

(** The members of a proposal. *)
Lemma proposal_members s now lag_max pr n :
  compute_proposal s now lag_max = Some pr →
  n ∈ new_isr pr ↔ n ∈ isr s ∧ lagging s now lag_max n = false ∨
                   ∃ st, per_follower s !! n = Some st ∧ caught_up s now lag_max (n, st) = true.
Proof.
  unfold compute_proposal. case_bool_decide; [done|]. intros [= <-]. simpl.
  rewrite merge_sort_elem, elem_of_app, list_elem_of_filter, merge_sort_elem, elem_of_elements, list_elem_of_fmap.
  setoid_rewrite list_elem_of_filter. split; (intros [[]|Hn]; [tauto|right]).
  - destruct Hn as ([k st] & -> & Hc & Hk%elem_of_map_to_list). by exists st.
  - destruct Hn as (st & Hst & Hc). exists (n, st). split_and!; [done..|by apply elem_of_map_to_list].
Qed.

(** ** Instances *)
Definition sample_record : PartitionRecord := mkRecord 1 5 [1; 2; 3] [1; 2; 3].
Definition sample_partition : Partition :=
  mkPartition 2 false 2 4 (mkTarget (Some 9) 2 4) (mkReplicas {[1; 2; 3]} ∅ 2 4).
Lemma sample_record_ok : of_term 1 5 sample_record.
Proof. split_and!; [reflexivity..|]. unfold sample_record. simpl. by intros x. Defined.

(** A promotion with a fetch in its window, then appends and fetches. *)
Definition promoted : Leading :=
  let s := start_reconcile (Some 9) sample_record (mkLeading sample_partition Waiting [] false) in
  let s := mkLeading (set_replicas (forget_followers true 5) (part s)) (Published sample_record) (seen s) (installed s) in
  let s := mkLeading (part s) (Installing sample_record 2) (seen s) (installed s) in
  let s := set_part (set_log_end 5 (part s)) s in
  mkLeading (Partition.install_isr [1; 2; 3] [1; 2; 3] 1 0 2 (part s)) Waiting (seen s) true.
Definition fetched (f o leo now : Z) (s : Leading) : Leading :=
  mkLeading (set_replicas (update_follower_leo f o leo now) (part s)) (task s) ((f, o) :: seen s) (installed s).
Definition acked : Leading := fetched 3 4 5 11 (fetched 2 5 5 10 promoted).

Lemma acked_reachable : rtc (step (Some 9) (of_term 1 5)) (mkLeading sample_partition Waiting [] false) acked.
Proof.
  eapply rtc_l; [apply (step_start _ _ _ sample_record); [done|apply sample_record_ok]|].
  eapply rtc_l; [by apply (step_forget _ _ _ sample_record true)|]. eapply rtc_l; [by apply (step_read _ _ _ sample_record)|].
  eapply rtc_l; [by apply (step_append _ _ _ 3)|]. eapply rtc_l; [by apply (step_install _ _ _ sample_record 2 0)|].
  eapply rtc_l; [by apply (step_fetch _ _ _ 2 5 5 10)|]. by apply rtc_once, (step_fetch _ _ _ 3 4 5 11).
Qed.
Lemma acked_is_fetched_witness :
  hw_at_least 4 (part acked) = true ∧
  4 ≤ log_end (part acked) ∧ (3 ∈ isr (replicas (part acked)) → 3 ≠ 1 → ∃ o, (3, o) ∈ seen acked ∧ 4 ≤ o).
Proof.
  split; [by vm_compute|]. apply (acked_is_fetched (Some 9) 1 5 sample_partition acked 4 3).
  - reflexivity.
  - reflexivity.
  - left. discriminate.
  - exact acked_reachable.
  - reflexivity.
  - reflexivity.
  - vm_compute. reflexivity.
Defined.

Lemma promotion_window_acks_unreplicated_witness :
  let q := install_replication_target (Some 9) 1 5 sample_partition in
  admits (Some 9) sample_record q = true ∧ hw_at_least 7 (handle_produce 7 0 q) = true ∧ log_end q = 2.
Proof.
  apply (promotion_window_acks_unreplicated 9 sample_record sample_partition 7).
  - reflexivity.
  - reflexivity.
  - left. discriminate.
  - apply (bool_decide_unpack _). vm_compute. exact I.
  - apply (bool_decide_unpack _). vm_compute. exact I.
Defined.

Lemma follower_truncation_exposes_uncommitted_witness :
  high_watermark (set_follower_hw 3 (handle_truncate 8 sample_partition)) = 8.
Proof. apply (follower_truncation_exposes_uncommitted sample_partition 8 3); reflexivity. Defined.

Lemma lagging_follower_admitted_witness :
  ∃ pr, compute_proposal (replicas (update_follower_progress 4 0 100 sample_partition)) 100 30 = Some pr ∧
        4 ∈ new_isr pr.
Proof.
  apply (lagging_follower_admitted sample_partition 4 0 100 30).
  - vm_compute. discriminate.
  - vm_compute. discriminate.
  - apply (bool_decide_unpack _). vm_compute. exact I.
  - reflexivity.
Defined.

Lemma promotion_resets_hw_witness :
  high_watermark (Partition.install_isr [1; 2; 3] [1; 2; 3] 1 0 2 (install_replication_target (Some 9) 1 5 sample_partition)) ≤ 0.
Proof.
  apply (promotion_resets_hw (Some 9) sample_record 0 2 sample_partition 3).
  - reflexivity.
  - reflexivity.
  - left. discriminate.
  - apply (bool_decide_unpack _). vm_compute. exact I.
  - apply (bool_decide_unpack _). vm_compute. exact I.
  - discriminate.
Defined.
