(* ===== verification/Divergence.v ===== *)
(** * Where two replicas diverge

    Models [apply_epoch_checks] of [crates/broker/src/handlers/fetch.rs], with
    which a leader finds out that the log of a follower is not a prefix of its
    own (KIP-320), and relates its answer to the batches of the two logs.  A log
    is the list of its batches here; [Replication.v] runs the exchange on the
    logs of [Log.v]. *)

From S2P Require Import Prelude Wire Records Batches BatchStore LogIndex Segment LeaderEpoch.

(** ** The check of the leader *)
Record FetchPartition : Type := mkFetch {
  fetch_offset : Z;
  current_leader_epoch : Z;
  last_fetched_epoch : Z;
}.
Definition FENCED_LEADER_EPOCH : Z := 74.
Definition UNKNOWN_LEADER_EPOCH : Z := 75.

(** Serve the fetch, refuse it, or tell where to truncate. *)
Inductive Verdict : Type :=
| Proceed
| Refused (error_code : Z)
| Diverging (epoch end_offset : Z).
Definition apply_epoch_checks (current_epoch : Z) (es : list EpochEntry) (leo : Z) (req : FetchPartition) :
    Verdict :=
  if (0 <=? current_leader_epoch req) && negb (current_leader_epoch req =? current_epoch) then
    Refused (if current_leader_epoch req <? current_epoch then FENCED_LEADER_EPOCH else UNKNOWN_LEADER_EPOCH)
  else if last_fetched_epoch req <? 0 then Proceed
  else
    let '(found_epoch, end_offset) := Entries.epoch_and_offset_for_entries es (last_fetched_epoch req) leo in
    if (last_fetched_epoch req <=? found_epoch) && (fetch_offset req <=? end_offset) then Proceed
    else Diverging found_epoch end_offset.

(** ** The epoch history of a log *)
Definition term (b : Batch.RecordBatch) : Z := Batch.partition_leader_epoch b.
(** What an append records ([Log.note_epoch]). *)
Definition note (es : list EpochEntry) (b : Batch.RecordBatch) : list EpochEntry :=
  let newer := match Entries.latest_epoch es with Some e => e <? term b | None => true end in
  if (0 <=? term b) && newer then (Entries.append_to es (term b) (Batch.base_offset b)).1 else es.
Definition epochs_of (bs : list Batch.RecordBatch) : list EpochEntry := foldl note [] bs.

(** Batches one after the other from [lo] on, and where they end. *)
Fixpoint gapless (lo : Z) (bs : list Batch.RecordBatch) : Prop :=
  match bs with
  | [] => True
  | b :: bs => Batch.base_offset b = lo ∧ lo ≤ batch_last b ∧ gapless (batch_last b + 1) bs
  end.
Definition end_of (lo : Z) (bs : list Batch.RecordBatch) : Z := foldl (fun _ b => batch_last b + 1) lo bs.
(** The batches of a replica that has copied leaders of growing epochs. *)
Record replica (lo : Z) (bs : list Batch.RecordBatch) : Prop := {
  rep_gapless : gapless lo bs;
  rep_terms : Forall (fun b => 0 ≤ term b) bs;
  rep_sorted : StronglySorted (fun a b => term a ≤ term b) bs;
}.

Lemma gapless_app lo bs1 bs2 : gapless lo (bs1 ++ bs2) ↔ gapless lo bs1 ∧ gapless (end_of lo bs1) bs2.
Proof. revert lo. induction bs1 as [|b bs1 IH]; intros lo; simpl; [tauto|]. rewrite IH. tauto. Qed.

Lemma end_of_app lo bs1 bs2 : end_of lo (bs1 ++ bs2) = end_of (end_of lo bs1) bs2.
Proof. apply foldl_app. Qed.

Lemma end_of_ge lo bs : gapless lo bs → lo ≤ end_of lo bs ∧ (bs ≠ [] → lo < end_of lo bs).
Proof.
  revert lo. induction bs as [|b bs IH]; intros lo; simpl; [intros; split; [lia|done]|].
  intros (_ & Hl & Hg). destruct (IH _ Hg) as [H _]. unfold end_of in *. simpl. split; [lia|]. intros _. lia.
Qed.

Lemma replica_app lo bs1 bs2 : replica lo (bs1 ++ bs2) → replica lo bs1.
Proof.
  intros [Hg Ht Hs]. apply gapless_app in Hg as [Hg _]. apply Forall_app in Ht as [Ht _].
  split; [done..|]. by eapply StronglySorted_app_1_l.
Qed.

Lemma replica_prefix lo bs bs' : bs' `prefix_of` bs → replica lo bs → replica lo bs'.
Proof. intros [k ->]. apply replica_app. Qed.

Lemma terms_last bs b : StronglySorted (fun a b => term a ≤ term b) bs → last bs = Some b → Forall (fun a => term a ≤ term b) bs.
Proof.
  intros Hs (bs' & ->)%last_Some. apply Forall_app. split; [|by constructor].
  apply Forall_forall. intros a Ha.
  exact (StronglySorted_app_1_elem_of _ _ _ a b Hs Ha ltac:(by apply list_elem_of_singleton)).
Qed.

Lemma snoc_sorted bs b : StronglySorted (fun a b => term a ≤ term b) (bs ++ [b]) → Forall (fun a => term a ≤ term b) bs.
Proof. intros Hs. apply (terms_last _ b), Forall_app in Hs as [? _]; [done|]. apply last_snoc. Qed.

Definition entry_of (b : Batch.RecordBatch) : EpochEntry := mkEntry (term b) (Batch.base_offset b).

Lemma note_history es b :
  history es → 0 ≤ term b →
  note es b = if match last es with Some e => epoch e <? term b | None => true end
              then es ++ [entry_of b] else es.
Proof.
  intros Hh Ht. unfold note, Entries.append_to. rewrite latest_last, (proj2 (Z.leb_le _ _)), andb_true_l by done.
  destruct (last es) as [e|] eqn:He; simpl; [|by apply last_None in He as ->].
  destruct (Z.ltb_spec (epoch e) (term b)) as [Hlt|]; [|done].
  replace (existsb _ es) with false; [done|]. symmetry. apply not_true_is_false.
  intros (x & Hx & Hxe)%existsb_exists. apply list_elem_of_In in Hx.
  apply last_Some in He as (es' & ->). destruct Hh as [Hh _].
  apply elem_of_app in Hx as [Hx|Hx%list_elem_of_singleton].
  - pose proof (StronglySorted_app_1_elem_of _ _ _ x e Hh Hx ltac:(by apply list_elem_of_singleton)).
    simpl in *. lia.
  - subst. lia.
Qed.

(** The history has an entry per epoch, the last one for the last batch. *)
Lemma epochs_of_history lo bs :
  replica lo bs →
  history (epochs_of bs) ∧ Forall (fun e => lo ≤ start_offset e < end_of lo bs) (epochs_of bs) ∧
  epoch <$> last (epochs_of bs) = term <$> last bs.
Proof.
  induction bs as [|b bs IH] using rev_ind; [by split; [split; constructor|]|].
  intros Hr. destruct (IH (replica_app _ _ _ Hr)) as (Hh & Ho & Hl). clear IH.
  destruct Hr as [Hg Ht Hs]. apply gapless_app in Hg as [Hg (Hb & Hlast & _)]. apply snoc_sorted in Hs.
  apply Forall_app in Ht as [_ [Ht _]%Forall_cons]. pose proof (end_of_ge _ _ Hg) as [Hge _].
  unfold epochs_of in *. rewrite foldl_app, last_snoc, end_of_app. simpl. set (es := foldl note [] bs) in *.
  change (end_of (end_of lo bs) [b]) with (batch_last b + 1). rewrite note_history by done.
  assert (Forall (fun e => lo ≤ start_offset e < batch_last b + 1) es) as Ho'
    by (eapply Forall_impl; [done|]; simpl; lia).
  assert (∀ e, last es = Some e → epoch e < term b →
    history (es ++ [entry_of b]) ∧ Forall (fun e => lo ≤ start_offset e < batch_last b + 1) (es ++ [entry_of b]))
    as Hadd.
  { intros e He Hlt. destruct Hh as [Hh1 Hh2]. apply last_Some_elem_of in He as Hin.
    rewrite Forall_forall in Ho. specialize (Ho e Hin). split.
    - split; (apply ascending_snoc; [done|]); rewrite He; intros ? [= <-]; simpl in *; lia.
    - apply Forall_app. split; [done|]. constructor; [simpl; lia|done]. }
  destruct (last es) as [e|] eqn:He.
  - symmetry in Hl. apply fmap_Some in Hl as (a & Ha & Hea).
    assert (term a ≤ term b) by (rewrite Forall_forall in Hs; by apply Hs, last_Some_elem_of).
    destruct (Z.ltb_spec (epoch e) (term b)) as [Hlt|Hge'].
    + destruct (Hadd e eq_refl Hlt). rewrite last_snoc. by split_and!.
    + rewrite He. split_and!; [done..|]. simpl. f_equal. lia.
  - apply last_None in He as ->. simpl. split_and!; [split; repeat constructor| |done].
    constructor; [simpl; lia|constructor].
Qed.

(** Batches of later epochs add entries from their first one on. *)
Lemma epochs_of_split lo bs1 bs2 r :
  replica lo (bs1 ++ bs2) → Forall (fun b => term b ≤ r) bs1 → Forall (fun b => r < term b) bs2 →
  ∃ hi, epochs_of (bs1 ++ bs2) = epochs_of bs1 ++ hi ∧ Forall (fun e => r < epoch e) hi ∧
        head hi = entry_of <$> head bs2.
Proof.
  induction bs2 as [|b bs2 IH] using rev_ind; intros Hr H1 H2.
  { exists []. by rewrite !app_nil_r. }
  apply Forall_app in H2 as [H2 [Hb _]%Forall_cons]. rewrite app_assoc in Hr |- *.
  pose proof (replica_app _ _ _ Hr) as Hr'. destruct (IH Hr' H1 H2) as (hi & He & Hhi & Hfirst).
  destruct (epochs_of_history _ _ Hr') as (Hh & _ & Hl).
  pose proof (rep_terms _ _ Hr) as [_ [Ht _]%Forall_cons]%Forall_app.
  unfold epochs_of in *. rewrite foldl_app. cbn [foldl]. rewrite note_history, He by (done || by rewrite He).
  destruct bs2 as [|c bs2].
  - destruct hi; [|done]. rewrite !app_nil_r in *. exists [entry_of b]. split_and!; [|by repeat constructor|done].
    destruct (last (foldl note [] bs1)) as [e|] eqn:Hlast; [|done].
    symmetry in Hl. apply fmap_Some in Hl as (a & Ha%last_Some_elem_of & Hea).
    rewrite Forall_forall in H1. specialize (H1 a Ha). by rewrite (proj2 (Z.ltb_lt _ _)) by lia.
  - destruct hi as [|h hi]; [done|].
    destruct (match last (foldl note [] bs1 ++ h :: hi) with Some e => epoch e <? term b | None => true end).
    + exists (h :: hi ++ [entry_of b]). split_and!; [by rewrite <- app_assoc| |done].
      rewrite app_comm_cons. apply Forall_app. split; [done|by repeat constructor].
    + by exists (h :: hi).
Qed.

(** The answer to a follower whose last epoch is [r], in terms of the leader's
    batches up to that epoch and above it. *)
Lemma answer_content lo bs1 bs2 r :
  replica lo (bs1 ++ bs2) → 0 ≤ r → Forall (fun b => term b ≤ r) bs1 → Forall (fun b => r < term b) bs2 →
  Entries.epoch_and_offset_for_entries (epochs_of (bs1 ++ bs2)) r (end_of lo (bs1 ++ bs2)) =
  (match bs2, last bs1 with
   | [], Some b => if term b =? r then r else UNDEFINED_EPOCH
   | [], None => UNDEFINED_EPOCH
   | _, Some b => term b
   | _, None => r
   end, end_of lo bs1).
Proof.
  intros Hr H0 H1 H2. destruct (epochs_of_split _ _ _ _ Hr H1 H2) as (hi & He & Hhi & Hfirst).
  destruct (epochs_of_history _ _ Hr) as (Hh & _ & _). rewrite He in *.
  destruct (epochs_of_history _ _ (replica_app _ _ _ Hr)) as (_ & _ & Hl).
  assert (Forall (fun e => epoch e ≤ r) (epochs_of bs1)) as Hlo.
  { destruct (last (epochs_of bs1)) as [e|] eqn:Hlast; [|apply last_None in Hlast as ->; constructor].
    symmetry in Hl. apply fmap_Some in Hl as (a & Ha%last_Some_elem_of & Hea). rewrite Forall_forall in H1.
    specialize (H1 a Ha). apply last_Some in Hlast as (es & Hes). rewrite Hes in *. apply history_app in Hh as [[Hs _] _].
    apply Forall_app. split; [|constructor; [lia|done]]. apply Forall_forall. intros x Hx.
    pose proof (StronglySorted_app_1_elem_of _ _ _ x e Hs Hx ltac:(by apply list_elem_of_singleton)). simpl in *. lia. }
  rewrite answer_split by done. f_equal.
  - destruct bs2 as [|b bs2], hi as [|h hi]; try done;
      destruct (last (epochs_of bs1)), (last bs1); simplify_eq/=; by try rewrite <- Hl.
  - destruct bs2 as [|b bs2], hi as [|h hi]; try done.
    + by rewrite app_nil_r.
    + injection Hfirst as ->. simpl. apply rep_gapless, gapless_app in Hr as [_ [? _]]. done.
Qed.

(** ** Batches and cuts *)
Lemma term_split bs r :
  StronglySorted (fun a b => term a ≤ term b) bs →
  ∃ bs1 bs2, bs = bs1 ++ bs2 ∧ Forall (fun b => term b ≤ r) bs1 ∧ Forall (fun b => r < term b) bs2.
Proof.
  induction 1 as [|b bs _ (bs1 & bs2 & -> & H1 & H2) Hb]; [by exists [], []|]. destruct (decide (term b ≤ r)).
  - exists (b :: bs1), bs2. split_and!; [done|by constructor|done].
  - exists [], (b :: bs1 ++ bs2). split_and!; [done..|]. constructor; [lia|].
    eapply Forall_impl; [done|]. simpl. lia.
Qed.

(** The batches that a truncation to [offset] keeps. *)
Definition cut (offset : Z) (bs : list Batch.RecordBatch) : list Batch.RecordBatch :=
  filter (fun b => batch_last b < offset) bs.

Lemma gapless_below lo bs : gapless lo bs → Forall (fun b => batch_last b < end_of lo bs) bs.
Proof.
  revert lo. induction bs as [|b bs IH]; intros lo; [constructor|]. intros (_ & _ & Hg).
  destruct (end_of_ge _ _ Hg) as [Hge _]. constructor; [unfold end_of in *; simpl; lia|]. by apply IH.
Qed.
Lemma gapless_above lo bs : gapless lo bs → Forall (fun b => lo ≤ batch_last b) bs.
Proof.
  revert lo. induction bs as [|b bs IH]; intros lo; [constructor|]. intros (_ & Hl & Hg).
  constructor; [done|]. eapply Forall_impl; [by apply IH|]. simpl. lia.
Qed.

Lemma cut_at_end lo bs1 bs2 : gapless lo (bs1 ++ bs2) → cut (end_of lo bs1) (bs1 ++ bs2) = bs1.
Proof.
  intros [H1 H2]%gapless_app. unfold cut. rewrite filter_app, filter_all by by apply gapless_below.
  rewrite filter_none, app_nil_r; [done|]. eapply Forall_impl; [by apply gapless_above|]. simpl. lia.
Qed.
Lemma cut_past_end lo bs1 bs2 offset :
  gapless lo (bs1 ++ bs2) → end_of lo bs1 ≤ offset → bs1 `prefix_of` cut offset (bs1 ++ bs2).
Proof.
  intros [H1 H2]%gapless_app Ho. unfold cut. rewrite filter_app, filter_all; [by eexists|].
  eapply Forall_impl; [by apply gapless_below|]. simpl. lia.
Qed.

Lemma prefix_end lo bs1 bs2 : gapless lo bs2 → bs1 `prefix_of` bs2 → end_of lo bs1 ≤ end_of lo bs2.
Proof. intros Hg [k ->]. apply gapless_app in Hg as [_ Hg]. rewrite end_of_app. by apply end_of_ge. Qed.
Lemma prefix_same_end lo bs1 bs2 :
  gapless lo bs2 → bs1 `prefix_of` bs2 → end_of lo bs2 ≤ end_of lo bs1 → bs1 = bs2.
Proof.
  intros Hg [k ->] He. apply gapless_app in Hg as [_ Hg]. rewrite end_of_app in He.
  destruct k; [by rewrite app_nil_r|]. apply end_of_ge in Hg as [_ Hg]. specialize (Hg ltac:(done)). lia.
Qed.

(** ** The verdict on a follower *)
Section Verdict.
Context (lo current : Z).

Definition request (ys : list Batch.RecordBatch) : FetchPartition :=
  mkFetch (end_of lo ys) current (default (-1) (Entries.latest_epoch (epochs_of ys))).
Definition verdict (xs ys : list Batch.RecordBatch) : Verdict :=
  apply_epoch_checks current (epochs_of xs) (end_of lo xs) (request ys).

Lemma verdict_empty xs : verdict xs [] = Proceed.
Proof. unfold verdict, apply_epoch_checks. simpl. by rewrite Z.eqb_refl, andb_false_r. Qed.

(** With [r] the last epoch of the follower, and the leader's batches split there. *)
Lemma verdict_split xs1 xs2 ys b :
  replica lo (xs1 ++ xs2) → replica lo ys → last ys = Some b →
  Forall (fun x => term x ≤ term b) xs1 → Forall (fun x => term b < term x) xs2 →
  let found := match xs2, last xs1 with
               | [], Some x => if term x =? term b then term b else UNDEFINED_EPOCH
               | [], None => UNDEFINED_EPOCH
               | _, Some x => term x
               | _, None => term b
               end in
  verdict (xs1 ++ xs2) ys =
  if (term b <=? found) && (end_of lo ys <=? end_of lo xs1) then Proceed else Diverging found (end_of lo xs1).
Proof.
  intros Hx Hy Hb H1 H2 found. destruct (epochs_of_history _ _ Hy) as (Hh & _ & Hl).
  pose proof (rep_terms _ _ Hy) as Ht. rewrite Forall_forall in Ht. specialize (Ht b ltac:(by apply last_Some_elem_of)).
  unfold verdict, apply_epoch_checks, request. simpl.
  rewrite Z.eqb_refl, andb_false_r, latest_last, Hl, Hb by done. simpl.
  rewrite (proj2 (Z.ltb_ge _ _)) by lia. by rewrite answer_content.
Qed.

(** ** Logs copied from leaders

    [log_of e] is the log of the leader of epoch [e] at the end of its term: a
    batch of epoch [e] in any replica has been copied from it, with everything
    before it. *)
Context (log_of : Z → list Batch.RecordBatch).

Definition from_leaders (bs : list Batch.RecordBatch) : Prop :=
  ∀ p b q, bs = p ++ b :: q → (p ++ [b]) `prefix_of` log_of (term b).

Lemma from_leaders_last bs b : from_leaders bs → last bs = Some b → bs `prefix_of` log_of (term b).
Proof. intros Hf (bs' & ->)%last_Some. by apply (Hf bs' b []). Qed.
Lemma from_leaders_prefix bs bs' : bs' `prefix_of` bs → from_leaders bs → from_leaders bs'.
Proof. intros [k ->] Hf p b q ->. apply (Hf p b (q ++ k)). by rewrite <- app_assoc. Qed.

Lemma same_epoch_comparable xs ys x y :
  from_leaders xs → from_leaders ys → last xs = Some x → last ys = Some y → term x = term y →
  xs `prefix_of` ys ∨ ys `prefix_of` xs.
Proof.
  intros Hx Hy Hlx Hly He. pose proof (from_leaders_last _ _ Hx Hlx). pose proof (from_leaders_last _ _ Hy Hly).
  rewrite He in *. by eapply prefix_weak_total.
Qed.

(** A fetch that is served comes from a prefix of the leader's log. *)
Lemma proceed_prefix xs ys :
  replica lo xs → replica lo ys → from_leaders xs → from_leaders ys →
  verdict xs ys = Proceed → ys `prefix_of` xs.
Proof.
  intros Hx Hy Fx Fy Hv. destruct (last ys) as [b|] eqn:Hb; [|apply last_None in Hb as ->; apply prefix_nil].
  destruct (term_split xs (term b) (rep_sorted _ _ Hx)) as (xs1 & xs2 & -> & H1 & H2).
  rewrite (verdict_split _ _ _ b) in Hv by done.
  pose proof (rep_terms _ _ Hy) as Ht. rewrite Forall_forall in Ht. specialize (Ht b ltac:(by apply last_Some_elem_of)).
  match type of Hv with (if ?c then _ else _) = _ => destruct c eqn:Hc; [|done] end.
  apply andb_true_iff in Hc as [Hf Hend]. apply Z.leb_le in Hf, Hend.
  destruct (last xs1) as [x|] eqn:Hlx.
  - rewrite Forall_forall in H1. specialize (H1 x ltac:(by apply last_Some_elem_of)).
    assert (term x = term b) as He.
    { destruct xs2; [|lia]. destruct (Z.eqb_spec (term x) (term b)); [done|unfold UNDEFINED_EPOCH in *; lia]. }
    destruct (same_epoch_comparable xs1 ys x b) as [Hp|Hp]; [|done..| |].
    + by eapply from_leaders_prefix; [|exact Fx]; eexists.
    + rewrite (prefix_same_end lo xs1 ys); [by eexists|apply Hy|done..].
    + etrans; [exact Hp|by eexists].
  - apply last_None in Hlx as ->. destruct xs2; [unfold UNDEFINED_EPOCH in *; lia|].
    destruct (end_of_ge lo ys (rep_gapless _ _ Hy)) as [_ Hne]. unfold end_of in Hend at 2. simpl in Hend.
    destruct ys; [done|]. specialize (Hne ltac:(done)). lia.
Qed.

(** Told to truncate, a follower whose last epoch the leader knows is left with
    exactly the leader's batches up to that epoch. *)
Lemma diverging_exact xs ys b e offset :
  replica lo xs → replica lo ys → from_leaders xs → from_leaders ys → last ys = Some b →
  (∃ x, x ∈ xs ∧ term x = term b) → verdict xs ys = Diverging e offset →
  ∃ cs k, ys = cs ++ k ∧ cs ≠ [] ∧ k ≠ [] ∧ cut offset ys = cs ∧ offset = end_of lo cs ∧
          cs `prefix_of` xs ∧ verdict xs cs = Proceed.
Proof.
  intros Hx Hy Fx Fy Hb (x & Hin & Hxe) Hv.
  destruct (term_split xs (term b) (rep_sorted _ _ Hx)) as (xs1 & xs2 & -> & H1 & H2).
  assert (x ∈ xs1) as Hin1.
  { apply elem_of_app in Hin as [?|Hin]; [done|]. rewrite Forall_forall in H2. specialize (H2 x Hin). lia. }
  destruct (last xs1) as [z|] eqn:Hz; [|apply last_None in Hz as ->; by apply elem_of_nil in Hin1].
  pose proof (rep_sorted _ _ (replica_app _ _ _ Hx)) as Hs1.
  assert (term z = term b) as Hzb.
  { pose proof (terms_last _ _ Hs1 Hz) as Hall. rewrite Forall_forall in Hall, H1. specialize (Hall x Hin1).
    specialize (H1 z ltac:(by apply last_Some_elem_of)). lia. }
  rewrite (verdict_split _ _ _ b) in Hv by done.
  assert (match xs2, last xs1 with
          | [], Some x => if term x =? term b then term b else UNDEFINED_EPOCH
          | [], None => UNDEFINED_EPOCH | _, Some x => term x | _, None => term b end = term b) as Hfound.
  { rewrite Hz. destruct xs2; [by rewrite Hzb, Z.eqb_refl|done]. }
  rewrite Hfound, Z.leb_refl, andb_true_l in Hv. destruct (Z.leb_spec (end_of lo ys) (end_of lo xs1)) as [|Hlt]; [done|].
  injection Hv as _ <-.
  destruct (same_epoch_comparable xs1 ys z b) as [[k Hk]|Hp]; [by eapply from_leaders_prefix; [|exact Fx]; eexists|done..| |].
  2:{ apply (prefix_end lo) in Hp; [lia|]. apply rep_gapless in Hx. by apply gapless_app in Hx as [? _]. }
  assert (cut (end_of lo xs1) ys = xs1) as ->.
  { rewrite Hk. apply cut_at_end. rewrite <- Hk. apply Hy. }
  exists xs1, k. split_and!; [done|by intros ->| |done|done|by eexists|].
  { intros ->. rewrite app_nil_r in Hk. subst. lia. }
  rewrite (verdict_split _ _ _ z) by (done || (by eapply replica_app) || by rewrite Hzb). rewrite Hz.
  rewrite Hzb in *. by destruct xs2; rewrite ?Z.eqb_refl, !Z.leb_refl.
Qed.

(** Truncation never takes a batch that the two logs share. *)
Lemma diverging_keeps_common xs ys cs e offset :
  replica lo xs → replica lo ys → cs `prefix_of` xs → cs `prefix_of` ys →
  verdict xs ys = Diverging e offset → cs `prefix_of` cut offset ys.
Proof.
  intros Hx Hy Cx Cy Hv. destruct (last ys) as [b|] eqn:Hb.
  2:{ apply last_None in Hb as ->. by rewrite verdict_empty in Hv. }
  destruct (term_split xs (term b) (rep_sorted _ _ Hx)) as (xs1 & xs2 & -> & H1 & H2).
  rewrite (verdict_split _ _ _ b) in Hv by done.
  assert (cs `prefix_of` xs1) as Hc.
  { assert (Forall (fun c => term c ≤ term b) cs) as Hle.
    { destruct Cy as [k ->]. pose proof (terms_last _ _ (rep_sorted _ _ Hy) Hb) as Hall.
      by apply Forall_app in Hall as [? _]. }
    destruct (prefix_weak_total cs xs1 (xs1 ++ xs2)) as [?|[k ->]]; [done|by eexists|done|].
    destruct k as [|c k]; [by rewrite app_nil_r|]. apply prefix_app_inv in Cx as [k' ->].
    apply Forall_app in Hle as [_ [Hle _]%Forall_cons]. apply Forall_cons in H2 as [H2 _]. lia. }
  assert (offset = end_of lo xs1) as ->.
  { match type of Hv with (if ?c then _ else _) = _ => destruct c end; [done|]. by injection Hv. }
  destruct Cy as [k ->]. apply (cut_past_end lo); [apply Hy|]. apply prefix_end; [|done].
  apply rep_gapless in Hx. by apply gapless_app in Hx as [? _].
Qed.

(** A follower whose last epoch the leader does not know is sent to the end of
    the leader's batches of earlier epochs; beyond its log end, that changes
    nothing. *)
Lemma diverging_stuck xs1 xs2 ys b :
  replica lo (xs1 ++ xs2) → replica lo ys → last ys = Some b → xs1 ≠ [] →
  Forall (fun x => term x < term b) xs1 → Forall (fun x => term b < term x) xs2 →
  end_of lo ys ≤ end_of lo xs1 →
  ∃ e offset, verdict (xs1 ++ xs2) ys = Diverging e offset ∧ end_of lo ys ≤ offset ∧
              cut offset ys = ys ∧ ¬ ys `prefix_of` xs1 ++ xs2.
Proof.
  intros Hx Hy Hb Hne H1 H2 Hend. exists (match xs2, last xs1 with
    | [], Some x => if term x =? term b then term b else UNDEFINED_EPOCH
    | [], None => UNDEFINED_EPOCH | _, Some x => term x | _, None => term b end), (end_of lo xs1).
  pose proof (rep_terms _ _ Hy) as Ht. rewrite Forall_forall in Ht. specialize (Ht b ltac:(by apply last_Some_elem_of)).
  split_and!; [|done| |].
  - rewrite (verdict_split _ _ _ b); [|done..| |done]; [|eapply Forall_impl; [done|]; simpl; lia].
    destruct (last xs1) as [x|] eqn:Hlx; [|by apply last_None in Hlx].
    rewrite Forall_forall in H1. specialize (H1 x ltac:(by apply last_Some_elem_of)).
    destruct xs2; [|by rewrite (proj2 (Z.leb_gt _ _)) by lia].
    rewrite (proj2 (Z.eqb_neq _ _)), (proj2 (Z.leb_gt _ _)) by (unfold UNDEFINED_EPOCH; lia). done.
  - apply filter_all. eapply Forall_impl; [apply (gapless_below lo), Hy|]. simpl. lia.
  - intros [k Hk]. apply last_Some_elem_of in Hb. assert (b ∈ xs1 ++ xs2) as Hin by (rewrite Hk; apply elem_of_app; by left).
    rewrite Forall_forall in H1, H2. apply elem_of_app in Hin as [Hin|Hin]; [specialize (H1 b Hin)|specialize (H2 b Hin)]; lia.
Qed.
End Verdict.

(** Truncating the history at a batch boundary is the history up to there. *)
Lemma epochs_of_cut lo bs1 bs2 :
  replica lo (bs1 ++ bs2) → Entries.truncate_to (epochs_of (bs1 ++ bs2)) (end_of lo bs1) = epochs_of bs1.
Proof.
  induction bs2 as [|b bs2 IH] using rev_ind; intros Hr.
  - rewrite app_nil_r in *. apply filter_all. destruct (epochs_of_history _ _ Hr) as (_ & Ho & _).
    eapply Forall_impl; [done|]. simpl. lia.
  - rewrite app_assoc in Hr |- *. pose proof (replica_app _ _ _ Hr) as Hr'. specialize (IH Hr').
    destruct (epochs_of_history _ _ Hr') as (Hh & _ & _).
    pose proof (rep_terms _ _ Hr) as [_ [Ht _]%Forall_cons]%Forall_app.
    pose proof (rep_gapless _ _ Hr) as [Hg [Hb _]]%gapless_app. apply gapless_app in Hg as [_ Hg2].
    rewrite end_of_app in Hb. pose proof (end_of_ge _ _ Hg2) as [Hge _].
    unfold epochs_of in *. rewrite foldl_app. cbn [foldl]. rewrite note_history by done. case_match; [|done].
    unfold Entries.truncate_to in *. rewrite filter_app, IH, filter_none, app_nil_r; [done|].
    constructor; [simpl; lia|constructor].
Qed.
