(* ===== verification/Replication.v ===== *)
(** * Replicating a partition

    Models the follower side of [crates/broker/src/replicator.rs]: the fetch
    request it builds, what it does with the answer of its leader, and the
    recovery from an epoch fence.  The logs are those of [Log.v], the leader's
    answer is that of [Divergence.v].  The connection, its errors and the delays
    between fetches are not modelled; the answers are arguments. *)

From S2P Require Import Prelude Wire Records Batches BatchStore LogIndex Segment SegmentInv Retention.
From S2P Require Import LeaderEpoch ProducerSnapshot StampIndex Compaction Tracking Log LogInv LogCut Divergence.

(** ** The exchange *)
Section Exchange.
Context {source : StampSource} {store : BatchStore} {search : BinarySearch} (crc32c : list byte → Z).

Definition NONE : Z := 0.
Definition OFFSET_OUT_OF_RANGE : Z := 1.
Definition NOT_LEADER_OR_FOLLOWER : Z := 6.

Record PartitionData : Type := mkData {
  error_code : Z;
  diverging_end : Z;
  records : list Batch.RecordBatch;
  leader_log_start : Z;
  leader_hw : Z;
}.
Inductive LoopAction : Type := Continue | StopNotLeader.

Definition build_fetch_request (leader_epoch : Z) (l : Log) : FetchPartition :=
  mkFetch (log_end_offset l) leader_epoch
    (default (-1) (Entries.latest_epoch (Checkpoint.entries (epoch_checkpoint l)))).

(** The answer of a leader that has [data] for the fetch and whose high watermark
    is [hw]. *)
Definition answer (leader_epoch hw : Z) (l : Log) (req : FetchPartition) (data : list Batch.RecordBatch) :
    PartitionData :=
  match apply_epoch_checks leader_epoch (Checkpoint.entries (epoch_checkpoint l)) (log_end_offset l) req with
  | Proceed => mkData NONE (-1) data (log_start_offset l) hw
  | Refused code => mkData code (-1) [] (log_start_offset l) hw
  | Diverging _ end_ => mkData NONE end_ [] (log_start_offset l) hw
  end.

(** What each look at the target finds: [true] when the metadata, or the target that
    the partition was given, is no longer the one of the task.  In the order of the
    code: when the response has come; before a truncation, a reset or an epoch
    lookup; after the epoch lookup; when the target is locked; before each batch;
    before the high watermark.  And whether the task is shut down while it backs off. *)
Record Looks : Type := mkLooks {
  at_arrival : bool;
  at_recovery : bool;
  after_lookup : bool;
  at_lock : bool;
  at_batch : nat → bool;
  at_hw : bool;
  at_backoff : bool;
}.
(** The target stays what it was. *)
Definition steady : Looks := mkLooks false false false false (fun _ => false) false false.

(** A failed mutation is logged and ignored. *)
Definition attempt (m : M unit) : M unit := fun l => ((m l).1, Ok tt).
(** The batches in order, up to the first one that fails. *)
Fixpoint replicate_batches (bs : list Batch.RecordBatch) : M unit :=
  match bs with
  | [] => mret tt
  | b :: bs => _ ← append_at crc32c b (Batch.base_offset b); replicate_batches bs
  end.
(** The loop over the batches; whether the target has changed before it was through. *)
Fixpoint replicate_loop (changed : nat → bool) (i : nat) (bs : list Batch.RecordBatch) (l : Log) : Log * bool :=
  match bs with
  | [] => (l, false)
  | b :: bs =>
      if changed i then (l, true) else
      match append_at crc32c b (Batch.base_offset b) l with
      | (l, Ok _) => replicate_loop changed (S i) bs l
      | (l, Err _) => (l, false)
      end
  end.
Definition handle_offset_out_of_range (looks : Looks) (resp : PartitionData) : M LoopAction :=
  if at_recovery looks || at_lock looks then mret StopNotLeader else
  _ ← attempt (reset_to (leader_log_start resp)); mret Continue.
(** [fence] is the end offset that the leader gives for our epoch, if it answers. *)
Definition handle_epoch_fence (looks : Looks) (fence : option Z) : M unit :=
  match fence with
  | None => mret tt
  | Some end_ =>
      if after_lookup looks || at_lock looks then mret tt else
      if 0 <=? end_ then attempt (truncate_to crc32c end_) else attempt (reset_to 0)
  end.
(** What the response does to the log; [Follower.v] has the whole handler. *)
Definition handle_response (looks : Looks) (fence : option Z) (resp : PartitionData) : M LoopAction :=
  if at_arrival looks then mret StopNotLeader else
  if error_code resp =? NONE then
    if 0 <=? diverging_end resp then
      if at_recovery looks || at_lock looks then mret StopNotLeader else
      _ ← attempt (truncate_to crc32c (diverging_end resp)); mret Continue
    else if at_lock looks then mret StopNotLeader else
      fun l => let '(l, changed) := replicate_loop (at_batch looks) 0 (records resp) l in
               (l, Ok (if changed || at_hw looks then StopNotLeader else Continue))
  else if error_code resp =? OFFSET_OUT_OF_RANGE then handle_offset_out_of_range looks resp
  else if error_code resp =? NOT_LEADER_OR_FOLLOWER then mret StopNotLeader
  else if (error_code resp =? FENCED_LEADER_EPOCH) || (error_code resp =? UNKNOWN_LEADER_EPOCH) then
    if at_recovery looks then mret StopNotLeader else
    _ ← (if error_code resp =? FENCED_LEADER_EPOCH then handle_epoch_fence looks fence else mret tt);
    mret (if at_backoff looks then StopNotLeader else Continue)
  else mret Continue.

(** One round: the follower asks, the leader answers, the follower acts. *)
Definition fetch_round (leader_epoch hw : Z) (leader : Log) (data : list Batch.RecordBatch) (follower : Log) : Log :=
  (handle_response steady None
     (answer leader_epoch hw leader (build_fetch_request leader_epoch follower) data) follower).1.
End Exchange.

(** ** What appends and truncations leave alone *)
Class Aside {source : StampSource} {V} (p : Log → V) : Prop := {
  as_segments v l : p (set_segments v l) = p l;
  as_active v l : p (set_active v l) = p l;
  as_tracking v l : p (set_tracking v l) = p l;
  as_txn_index v l : p (set_txn_index v l) = p l;
  as_source v l : p (set_source v l) = p l;
  as_stamp_indexes v l : p (set_stamp_indexes v l) = p l;
  as_snapshots v l : p (set_snapshots v l) = p l;
  as_stamp_files v l : p (set_stamp_files v l) = p l;
}.
#[global] Instance aside_checkpoint {source : StampSource} : Aside epoch_checkpoint.
Proof. by split. Qed.
#[global] Instance aside_frontier {source : StampSource} : Aside reconciled_frontier.
Proof. by split. Qed.
#[global] Instance aside_txn_files {source : StampSource} : Aside (fun l => txn_files (disk l)).
Proof. by split. Qed.

Create Rewrite HintDb aside.
#[export] Hint Rewrite @as_segments @as_active @as_tracking @as_txn_index @as_source @as_stamp_indexes
  @as_snapshots @as_stamp_files using (apply _) : aside.
Ltac aside := intros; repeat case_match; cbn [fst]; autorewrite with aside; done.
Ltac aside_steps :=
  repeat first
    [ progress intros
    | apply keeps_bind
    | apply keeps_when
    | apply keeps_for_each
    | apply keeps_modify; aside
    | progress case_match
    | apply _ ].

Section Aside.
Context {source : StampSource} {store : BatchStore} {search : BinarySearch} {V} (p : Log → V) `{!Aside p}.

#[global] Instance aside_open_txn_index base : Keeps p (open_txn_index base).
Proof. unfold open_txn_index. aside_steps. Qed.
#[global] Instance aside_record_stamp_value b o v : Keeps p (record_stamp_value b o v).
Proof. intros l. unfold record_stamp_value, put_stamp_index. aside. Qed.
#[global] Instance aside_draw_stamp : Keeps p draw_stamp.
Proof. intros l. unfold draw_stamp. aside. Qed.
#[global] Instance aside_record_stamp b o : Keeps p (record_stamp b o).
Proof. unfold record_stamp. aside_steps. Qed.
#[global] Instance aside_reopen b : Keeps p (reopen_active_stamp_index b).
Proof. intros l. unfold reopen_active_stamp_index. aside. Qed.
#[global] Instance aside_write_snapshot crc o : Keeps p (write_snapshot crc o).
Proof. unfold write_snapshot. aside_steps. Qed.
#[global] Instance aside_take_active : Keeps p take_active.
Proof. intros l. unfold take_active. aside. Qed.
#[global] Instance aside_roll crc : Keeps p (roll_active_segment crc).
Proof. unfold roll_active_segment. aside_steps. Qed.
#[global] Instance aside_roll_if_full crc : Keeps p (roll_if_full crc).
Proof. unfold roll_if_full. aside_steps. Qed.
#[global] Instance aside_on_active {A} (f : Segment → Segment * result LogError A) : Keeps p (on_active f).
Proof. intros l. unfold on_active. aside. Qed.
#[global] Instance aside_update_tracking f : Keeps p (update_tracking f).
Proof. unfold update_tracking. aside_steps. Qed.
#[global] Instance aside_advance : Keeps p advance.
Proof. unfold advance. aside_steps. Qed.
#[global] Instance aside_update_producers f : Keeps p (update_producers f).
Proof. unfold update_producers. aside_steps. Qed.
End Aside.

Section Records.
Context {source : StampSource} {store : BatchStore} {search : BinarySearch} (crc32c : list byte → Z).

Lemma data_append_aside {V} (p : Log → V) `{!Aside p} b stamp l l' r :
  is_control b = false → append_preserving_offset crc32c b stamp l = (l', r) → p l' = p l.
Proof. intros Hc. apply keeps_run. unfold append_preserving_offset. rewrite Hc. cbv zeta. aside_steps. Qed.

#[local] Instance checkpoint_cover o bs : Keeps epoch_checkpoint (cover crc32c o bs).
Proof. unfold cover. aside_steps. Qed.
#[local] Instance checkpoint_replay_batches bs o bds : Keeps epoch_checkpoint (replay_batches crc32c bs o bds).
Proof. revert o bds. induction bs as [|b bs IH]; intros; simpl; aside_steps. Qed.
#[local] Instance checkpoint_replay_log fuel next end_ bds : Keeps epoch_checkpoint (replay_log crc32c fuel next end_ bds).
Proof. revert next bds. induction fuel as [|fuel IH]; intros; simpl; aside_steps; done. Qed.
#[local] Instance checkpoint_rebuild_ranges_of bs o : Keeps epoch_checkpoint (rebuild_ranges_of bs o).
Proof. revert o. induction bs as [|b bs IH]; intros; simpl; aside_steps. Qed.
#[local] Instance checkpoint_rebuild_ranges fuel next end_ : Keeps epoch_checkpoint (rebuild_ranges fuel next end_).
Proof. revert next. induction fuel as [|fuel IH]; intros; simpl; aside_steps; done. Qed.
#[local] Instance checkpoint_rebuild : Keeps epoch_checkpoint (rebuild_producer_and_transaction_state crc32c).
Proof. unfold rebuild_producer_and_transaction_state, rebuild_pending_stamp_ranges. aside_steps. Qed.
#[local] Instance checkpoint_truncate_stamps base offset : Keeps epoch_checkpoint (modify (truncate_stamps base offset)).
Proof. apply keeps_modify. intros l. unfold truncate_stamps, put_stamp_index. by repeat case_match. Qed.
#[local] Instance checkpoint_truncate_active offset : Keeps epoch_checkpoint (truncate_active offset).
Proof. unfold truncate_active. aside_steps. Qed.
#[local] Instance checkpoint_promote_sealed offset : Keeps epoch_checkpoint (promote_sealed offset).
Proof. unfold promote_sealed. aside_steps. Qed.

Lemma checkpoint_drop fuel offset l : epoch_checkpoint (drop_active offset (drop_tail fuel offset l)) = epoch_checkpoint l.
Proof.
  trans (epoch_checkpoint (drop_tail fuel offset l)); [unfold drop_active; by repeat case_match|].
  revert l. induction fuel as [|fuel IH]; intros l; simpl; [done|]. repeat case_match; [|done..]. by rewrite IH.
Qed.

Lemma truncate_to_checkpoint l l' offset :
  offset < log_end_offset l → truncate_to crc32c offset l = (l', Ok tt) →
  epoch_checkpoint l' = Checkpoint.truncate_from_end (epoch_checkpoint l) (log_end_offset l').
Proof.
  intros Hlt H. unfold truncate_to in H. apply run_ok in H as (l1 & ? & [= <- <-] & H). cbn [id] in H.
  rewrite (proj2 (Z.leb_gt _ _)) in H by lia. destruct (offset <? log_start_offset l); [done|].
  apply run_ok in H as (l2 & ? & H2 & H). apply (keeps_run epoch_checkpoint) in H2; [|aside_steps].
  apply run_ok in H as (l3 & ? & [= <- <-] & H). apply run_ok in H as (l4 & ? & [= <- <-] & H). cbn [id] in H.
  apply run_ok in H as (l5 & [] & H5 & H).
  apply (keeps_run epoch_checkpoint) in H5; [|case_match; apply _]. rewrite checkpoint_drop in H5.
  apply run_ok in H as (l6 & ? & [= <- <-] & H). cbn [id] in H.
  apply run_ok in H as (l7 & ? & H7 & H). apply (keeps_run epoch_checkpoint) in H7; [|apply _].
  injection H as <-. simpl. unfold log_end_offset. simpl. by rewrite H7, H5, H2.
Qed.

(** ** Logs that hold a list of batches *)
Record holding (lo : Z) (l : Log) (bs : list Batch.RecordBatch) : Prop := {
  hd_content : ∃ xs, contains l xs ∧ xs.*1 = bs;
  hd_epochs : Checkpoint.entries (epoch_checkpoint l) = epochs_of bs;
  hd_end : log_end_offset l = end_of lo bs;
}.
(** The conditions of [Log.v] on the files of a log. *)
Record sound (l : Log) : Prop := {
  so_readable : readable_all l;
  so_narrow : Forall narrow (all_segments l);
  so_frontier : reconciled_frontier l ≤ log_end_offset l;
}.

Lemma note_epoch_entries b offset l :
  Batch.base_offset b = offset →
  Checkpoint.entries (epoch_checkpoint (note_epoch (term b) offset l).1) =
  note (Checkpoint.entries (epoch_checkpoint l)) b.
Proof.
  intros <-. unfold note_epoch, note, term. cbn [modify fst].
  destruct ((0 <=? Batch.partition_leader_epoch b) && _); [|done]. cbn [epoch_checkpoint set_checkpoint].
  unfold Checkpoint.append. by destruct (Entries.append_to _ _ _) as [es []].
Qed.

(** A batch that the store can write and read back. *)
Definition storable (b : Batch.RecordBatch) : Prop :=
  is_control b = false ∧ in_s 64 (Batch.base_offset b + Batch.last_offset_delta b) ∧
  ∃ bs, batch_encode b = Ok bs ∧ stored (b, bs).

(** The loop appends some of the batches, and tries all when the target does not change. *)
Lemma replicate_loop_steady i bs l : (replicate_loop crc32c (at_batch steady) i bs l).1 = (replicate_batches crc32c bs l).1.
Proof.
  revert i l. induction bs as [|b bs IH]; intros i l; [done|]. cbn [replicate_loop replicate_batches]. rewrite run_bind.
  destruct (append_at crc32c b (Batch.base_offset b) l) as [l' [a|e]]; [apply IH|done].
Qed.
Lemma replicate_loop_takes changed i bs l :
  ∃ n, (replicate_loop crc32c changed i bs l).1 = (replicate_batches crc32c (take n bs) l).1.
Proof.
  revert i l. induction bs as [|b bs IH]; intros i l; [by exists 0%nat|]. cbn [replicate_loop].
  destruct (changed i); [by exists 0%nat|]. destruct (append_at crc32c b (Batch.base_offset b) l) as [l' [a|e]] eqn:Hb.
  - destruct (IH (S i) l') as [n Hn]. exists (S n). cbn [take replicate_batches]. by rewrite run_bind, Hb.
  - exists 1%nat. cbn [take replicate_batches]. by rewrite run_bind, Hb.
Qed.

(** A follower at the log end of its leader takes the next batches in order,
    all of them or the first few. *)
Lemma replicate_batches_prefix data l xs :
  contains l xs → readable_all l → reconciled_frontier l ≤ log_end_offset l →
  gapless (log_end_offset l) data → Forall storable data →
  let '(l', r) := replicate_batches crc32c data l in
  ∃ k ys, contains l' (xs ++ ys) ∧ ys.*1 = take k data ∧
  (r = Ok tt → k = length data ∧
     Checkpoint.entries (epoch_checkpoint l') = foldl note (Checkpoint.entries (epoch_checkpoint l)) data).
Proof.
  revert l xs. induction data as [|b data IH]; intros l xs Hc Hr Hf Hg Hs.
  { exists 0%nat, []. by rewrite app_nil_r. }
  destruct Hg as (Hb & Hl & Hg). apply Forall_cons in Hs as [(Hctl & Hd & bs & He & Hst) Hs].
  cbn [replicate_batches]. rewrite run_bind. unfold append_at. rewrite run_bind.
  unfold expect_offset. rewrite run_bind. cbn [get]. unfold append_at_expected_offset.
  rewrite Z.max_l, Hb, Z.eqb_refl by lia. cbn [negb mret M_ret]. rewrite run_bind.
  assert (at_offset (log_end_offset l) b = b) as -> by (unfold at_offset, restamp; rewrite <- Hb; by destruct b).
  pose proof (append_preserving_offset_contains crc32c l xs b bs None Hc (Hr _) He Hst Hb Hl Hd) as Hadd.
  destruct (append_preserving_offset crc32c b None l) as [l1 [[]|e]] eqn:Happ.
  2:{ destruct Hadd as [Hadd|[Hadd _]]; [exists 1%nat, [(b, bs)]|exists 0%nat, []; rewrite app_nil_r]; by split_and!. }
  destruct Hadd as [Hadd|[_ []]].
  pose proof (data_append_aside epoch_checkpoint _ _ _ _ _ Hctl Happ) as Hck.
  pose proof (data_append_aside reconciled_frontier _ _ _ _ _ Hctl Happ) as Hfr.
  pose proof (data_append_aside (fun l => txn_files (disk l)) _ _ _ _ _ Hctl Happ) as Htx.
  pose proof (note_epoch_entries b (log_end_offset l) l1 Hb) as Hn. unfold term in Hn.
  destruct (note_epoch_ok (Batch.partition_leader_epoch b) (log_end_offset l) l1) as (l2 & Hl2 & Hb2 & _).
  assert (reconciled_frontier l2 = reconciled_frontier l1 ∧ txn_files (disk l2) = txn_files (disk l1)) as [Hfr2 Htx2].
  { injection Hl2 as <-. by case_match. }
  rewrite Hl2 in Hn |- *. cbn [fst] in Hn. pose proof (contains_body _ _ _ Hb2 Hadd) as Hc2.
  pose proof (contains_end _ _ _ Hc2) as Hend. cbn [fst] in Hend.
  specialize (IH l2 (xs ++ [(b, bs)]) Hc2).
  destruct (replicate_batches crc32c data l2) as [l' r]. destruct IH as (k & ys & Hc' & Hy & Hok).
  - intros base. destruct (Hr base) as [ix Hix]. exists ix. by rewrite Htx2, Htx.
  - rewrite Hfr2, Hfr, Hend. lia.
  - by rewrite Hend.
  - done.
  - exists (S k), ((b, bs) :: ys). rewrite <- app_assoc in Hc'. split_and!; [done|by rewrite fmap_cons, Hy|].
    intros Hrok. destruct (Hok Hrok) as [-> Hes]. split; [done|]. by rewrite Hes, Hn, Hck.
Qed.

Lemma contains_end_of l zs lo : contains l zs → zs ≠ [] → log_end_offset l = end_of lo zs.*1.
Proof.
  intros [_ ->]%contains_ordered Hne. destruct zs as [|z zs _] using rev_ind; [done|].
  by rewrite next_offset_app, fmap_app, end_of_app.
Qed.

(** ** What a round does *)
Section Round.
Context (lo current hw : Z) (leader follower : Log) (xs ys : list Batch.RecordBatch).
Hypothesis leader_holds : holding lo leader xs.
Hypothesis follower_holds : holding lo follower ys.
Hypothesis follower_sound : sound follower.
Hypothesis follower_start : 0 ≤ lo ∧ log_start_offset follower ≤ lo.
Hypothesis leader_replica : replica lo xs.
Hypothesis follower_replica : replica lo ys.

Lemma build_fetch_request_is : build_fetch_request current follower = request lo current ys.
Proof. destruct follower_holds as [_ He Hend]. unfold build_fetch_request, request. by rewrite He, Hend. Qed.

Lemma answer_is data :
  answer current hw leader (build_fetch_request current follower) data =
  match verdict lo current xs ys with
  | Proceed => mkData NONE (-1) data (log_start_offset leader) hw
  | Refused code => mkData code (-1) [] (log_start_offset leader) hw
  | Diverging _ end_ => mkData NONE end_ [] (log_start_offset leader) hw
  end.
Proof.
  destruct leader_holds as [_ He Hend]. unfold answer, verdict. by rewrite build_fetch_request_is, He, Hend.
Qed.

Lemma round_proceeds data :
  verdict lo current xs ys = Proceed →
  fetch_round crc32c current hw leader data follower = (replicate_batches crc32c data follower).1.
Proof.
  intros Hv. unfold fetch_round. rewrite answer_is, Hv, <- (replicate_loop_steady 0). unfold handle_response. simpl.
  by destruct (replicate_loop _ _ _ _ _).
Qed.

Lemma round_truncates data e offset :
  verdict lo current xs ys = Diverging e offset → 0 ≤ offset →
  fetch_round crc32c current hw leader data follower = (truncate_to crc32c offset follower).1.
Proof.
  intros Hv Ho. unfold fetch_round. rewrite answer_is, Hv. unfold handle_response. cbn [error_code diverging_end].
  rewrite Z.eqb_refl, (proj2 (Z.leb_le 0 offset)) by done. done.
Qed.

(** The offset of a divergence is within the follower's bounds. *)
Lemma diverging_offset e offset : verdict lo current xs ys = Diverging e offset → lo ≤ offset.
Proof.
  intros Hv. destruct (last ys) as [b|] eqn:Hb.
  2:{ apply last_None in Hb as ->. by rewrite verdict_empty in Hv. }
  destruct (term_split xs (term b) (rep_sorted _ _ leader_replica)) as (xs1 & xs2 & Hxs & H1 & H2).
  rewrite Hxs in *. rewrite (verdict_split _ _ _ _ _ b) in Hv by done.
  match type of Hv with (if ?c then _ else _) = _ => destruct c; [done|] end. injection Hv as _ <-.
  pose proof (rep_gapless _ _ leader_replica) as [Hg _]%gapless_app. by apply end_of_ge in Hg as [? _].
Qed.

Lemma round_cuts data e offset :
  verdict lo current xs ys = Diverging e offset →
  ∃ zs, contains (fetch_round crc32c current hw leader data follower) zs ∧ zs.*1 = cut offset ys.
Proof.
  intros Hv. pose proof (diverging_offset _ _ Hv) as Ho. destruct follower_start as [H0 Hs].
  rewrite (round_truncates data e offset Hv) by lia.
  destruct follower_holds as [(zs & Hc & <-) _ _], follower_sound as [Hr Hn _].
  pose proof (truncate_to_content crc32c follower zs offset Hc Hr Hn) as Ht.
  destruct (truncate_to crc32c offset follower) as [l' r].
  rewrite (proj2 (Z.ltb_ge offset (log_start_offset follower))), andb_false_r in Ht by lia. destruct Ht as [Ht _].
  eexists. split; [exact Ht|]. unfold cut. by rewrite filter_fmap.
Qed.

Lemma round_truncation_succeeds e offset :
  verdict lo current xs ys = Diverging e offset → stamp_source follower = None → producer_state (tracking follower) = ∅ →
  (truncate_to crc32c offset follower).2 = Ok tt.
Proof.
  intros Hv Hs Hp. pose proof (diverging_offset _ _ Hv) as Ho. destruct follower_start as [H0 Hl].
  destruct follower_holds as [(zs & Hc & _) _ _], follower_sound as [Hr Hn _].
  pose proof (truncate_to_content crc32c follower zs offset Hc Hr Hn) as Ht.
  destruct (truncate_to crc32c offset follower) as [l' r].
  rewrite (proj2 (Z.ltb_ge offset (log_start_offset follower))), andb_false_r in Ht by lia. by apply Ht.
Qed.

Context (log_of : Z → list Batch.RecordBatch).
Hypothesis leader_lineage : from_leaders log_of xs.
Hypothesis follower_lineage : from_leaders log_of ys.

(** C7. A leader serves a follower only when the follower's log is a prefix of its
    own, and the follower then takes the next batches of the leader: after the
    round its log extends what it was and is still a prefix of the leader's, and it
    has taken all of them unless an append failed.  This is for two logs whose
    batches follow each other without gaps, in epochs that never decrease and are
    those of the checkpoints, and agree with the logs of the leaders of those epochs
    ([from_leaders]); for a follower whose files can be read; for a leader that
    answers with batches of its log from the follower's log end on; and for batches
    that can be stored and are not control batches. *)
Theorem fetch_extends_prefix data :
  apply_epoch_checks current (Checkpoint.entries (epoch_checkpoint leader)) (log_end_offset leader)
    (build_fetch_request current follower) = Proceed →
  data `prefix_of` drop (length ys) xs → Forall storable data →
  ∃ zs, contains (fetch_round crc32c current hw leader data follower) zs ∧
        ys `prefix_of` zs.*1 ∧ zs.*1 `prefix_of` xs ∧
        ((replicate_batches crc32c data follower).2 = Ok tt → zs.*1 = ys ++ data).
Proof.
  intros Hv [rest Hrest] Hs. rewrite build_fetch_request_is, (hd_epochs _ _ _ leader_holds), (hd_end _ _ _ leader_holds) in Hv.
  change (verdict lo current xs ys = Proceed) in Hv.
  destruct (proceed_prefix lo current log_of xs ys) as [k Hk]; [done..|].
  rewrite Hk, drop_app_length in Hrest. subst k. rewrite round_proceeds by done.
  destruct follower_holds as [(us & Hc & Hus) _ Hend], follower_sound as [Hr _ Hf].
  pose proof (replicate_batches_prefix data follower us Hc Hr Hf) as Hrep.
  destruct (replicate_batches crc32c data follower) as [l' r]. destruct Hrep as (n & vs & Hc' & Hvs & Hall); [|done|].
  - rewrite Hend. pose proof (rep_gapless _ _ leader_replica) as Hg. rewrite Hk in Hg.
    by apply gapless_app in Hg as [_ [Hg _]%gapless_app].
  - exists (us ++ vs). rewrite fmap_app, Hus, Hvs. split_and!; [done|by eexists| |].
    + rewrite Hk. apply prefix_app, prefix_app_r. exists (drop n data). by rewrite take_drop.
    + intros Hok. destruct (Hall Hok) as [-> _]. by rewrite firstn_all.
Qed.

(** C8. A follower whose log has diverged from its leader's, in an epoch the leader
    knows, is left with a proper prefix of its log that is a prefix of the leader's
    log, and the leader serves its next fetch once the truncation has succeeded, as it
    does on a log without a stamp source and without producers: otherwise the
    rebuilding at its end can fail, on a stamp or a producer snapshot.  The two logs
    are as in the previous theorem. *)
Theorem divergence_truncated_exactly b e offset :
  last ys = Some b → (∃ x, x ∈ xs ∧ term x = term b) →
  apply_epoch_checks current (Checkpoint.entries (epoch_checkpoint leader)) (log_end_offset leader)
    (build_fetch_request current follower) = Diverging e offset →
  let follower' := fetch_round crc32c current hw leader [] follower in
  ∃ zs, contains follower' zs ∧ zs.*1 `prefix_of` xs ∧ zs.*1 `prefix_of` ys ∧ zs.*1 ≠ ys ∧
  ((truncate_to crc32c offset follower).2 = Ok tt →
   apply_epoch_checks current (Checkpoint.entries (epoch_checkpoint leader)) (log_end_offset leader)
     (build_fetch_request current follower') = Proceed) ∧
  (stamp_source follower = None → producer_state (tracking follower) = ∅ →
   (truncate_to crc32c offset follower).2 = Ok tt).
Proof.
  intros Hb Hknown Hv follower'. rewrite build_fetch_request_is, (hd_epochs _ _ _ leader_holds), (hd_end _ _ _ leader_holds) in Hv.
  change (verdict lo current xs ys = Diverging e offset) in Hv.
  destruct (diverging_exact lo current log_of xs ys b e offset) as (cs & k & Hys & Hne & Hk & Hcut & Hoff & Hp & Hnext);
    [done..|].
  destruct (round_cuts [] e offset Hv) as (zs & Hc & Hz). exists zs. rewrite Hcut in Hz. fold follower' in Hc.
  split_and!; [done|by rewrite Hz|rewrite Hz, Hys; by eexists| | |by eapply round_truncation_succeeds].
  { rewrite Hz, Hys. intros Heq. apply (f_equal length) in Heq. rewrite length_app in Heq. destruct k; [done|simpl in *; lia]. }
  intros Hok. assert (log_end_offset follower' = end_of lo cs) as Hend.
  { rewrite (contains_end_of _ zs lo), Hz; [done..|]. by intros ->. }
  assert (offset < log_end_offset follower) as Hlt.
  { rewrite (hd_end _ _ _ follower_holds), Hoff, Hys, end_of_app. pose proof (rep_gapless _ _ follower_replica) as Hg.
    rewrite Hys in Hg. apply gapless_app in Hg as [_ Hg]. by apply end_of_ge in Hg as [_ Hg]; apply Hg. }
  pose proof (diverging_offset _ _ Hv) as Hlo. destruct follower_start as [H0 _].
  pose proof (round_truncates [] e offset Hv ltac:(lia)) as Hf. fold follower' in Hf.
  destruct (truncate_to crc32c offset follower) as [l' r] eqn:Ht. simpl in Hok, Hf. subst r. rewrite Hf in *.
  apply truncate_to_checkpoint in Ht; [|done].
  assert (build_fetch_request current l' = request lo current cs) as ->.
  { unfold build_fetch_request, request. rewrite Hend, Ht. unfold Checkpoint.truncate_from_end.
    assert (Entries.truncate_to (Checkpoint.entries (epoch_checkpoint follower)) (log_end_offset l') = epochs_of cs) as He.
    { rewrite Hend, (hd_epochs _ _ _ follower_holds), Hys. apply epochs_of_cut. by rewrite <- Hys. }
    rewrite He. by case_bool_decide. }
  rewrite (hd_epochs _ _ _ leader_holds), (hd_end _ _ _ leader_holds). exact Hnext.
Qed.

(** C25. However far its log has diverged, a follower that is told to truncate keeps
    every batch that it shares with its leader: what a prefix of both logs contains
    is there after the round.  The logs are gapless, with epochs that never decrease
    and are those of the checkpoints; no common lineage is assumed. *)
Theorem divergence_keeps_common cs e offset :
  cs `prefix_of` xs → cs `prefix_of` ys →
  apply_epoch_checks current (Checkpoint.entries (epoch_checkpoint leader)) (log_end_offset leader)
    (build_fetch_request current follower) = Diverging e offset →
  ∃ zs, contains (fetch_round crc32c current hw leader [] follower) zs ∧ cs `prefix_of` zs.*1.
Proof.
  intros Hcx Hcy Hv. rewrite build_fetch_request_is, (hd_epochs _ _ _ leader_holds), (hd_end _ _ _ leader_holds) in Hv.
  destruct (round_cuts [] e offset Hv) as (zs & Hc & Hz). exists zs. split; [done|]. rewrite Hz.
  by eapply (diverging_keeps_common lo current xs ys).
Qed.

(** C40. A follower whose last epoch the leader does not know is told to truncate to
    the end of the leader's earlier epochs.  When that is at or past its own log
    end the round changes nothing, so the next one is the same: the follower never
    gets back in sync. *)
Theorem divergence_livelock xs1 xs2 b data :
  xs = xs1 ++ xs2 → last ys = Some b → xs1 ≠ [] →
  Forall (fun x => term x < term b) xs1 → Forall (fun x => term b < term x) xs2 →
  end_of lo ys ≤ end_of lo xs1 →
  ¬ ys `prefix_of` xs ∧ ∀ n, Nat.iter n (fetch_round crc32c current hw leader data) follower = follower.
Proof.
  intros Hxs Hb Hne H1 H2 Hend. pose proof leader_replica as Hr. rewrite Hxs in Hr.
  destruct (diverging_stuck lo current xs1 xs2 ys b) as (e & offset & Hv & Hoff & _ & Hnp); [done..|].
  rewrite <- Hxs in Hv, Hnp. split; [done|]. intros n. induction n as [|n IH]; [done|]. simpl. rewrite IH.
  pose proof (diverging_offset _ _ Hv) as Hlo. destruct follower_start as [H0 _].
  rewrite (round_truncates data e offset Hv) by lia. unfold truncate_to. rewrite run_bind. cbn [get].
  rewrite (proj2 (Z.leb_le _ _)); [done|]. change (log_end_offset follower ≤ offset). by rewrite (hd_end _ _ _ follower_holds).
Qed.
End Round.
End Records.
