(* ===== verification/ReplicationCases.v ===== *)
(** * Replication at work

    Leaders and followers that have copied a few batches of several epochs, and
    the theorems of [Replication.v] at these logs. *)

From S2P Require Import Prelude Wire Compression Records Batches BatchStore LogIndex Segment SegmentInv.
From S2P Require Import SegmentRead SegmentTime SegmentCases Retention LeaderEpoch ProducerSnapshot StampIndex.
From S2P Require Import Compaction Tracking Log LogInv LogCut Divergence Replication.

#[local] Instance ticks : StampSource := {| source_state := Z; next_stamp s := (s, s + 1); observe := Z.max |}.

Definition empty_log : Log :=
  mkLog (mkConfig 1000 1000000 None None 100 true false false 1000 65536) [] (Some (create 0)) None (fresh 0)
    (TxnIndex.mkTxnIndex [] []) None ∅ (Checkpoint.mk [] None) 0 (mkDisk ∅ ∅ ∅).
(** A batch of epoch [e] at offset [base]. *)
Definition at_epoch (base e : Z) : Batch.RecordBatch := restamp (one base 10) base e.
(** The log of a replica that has copied [bs]. *)
Definition copy (bs : list Batch.RecordBatch) : Log := (replicate_batches toy_crc bs empty_log).1.

Lemma empty_log_contains : contains empty_log [].
Proof.
  exists (create 0), [], []. split_and!; [done| |done]. split; [constructor| |done]. by apply create_holds_nothing.
Qed.
Lemma empty_log_readable : readable_all empty_log.
Proof. intros base. exists (TxnIndex.mkTxnIndex [] []). simpl. by rewrite lookup_empty. Qed.

Lemma copy_holds bs :
  gapless 0 bs → Forall storable bs → (replicate_batches toy_crc bs empty_log).2 = Ok tt → bs ≠ [] →
  holding 0 (copy bs) bs.
Proof.
  intros Hg Hs Hok Hne.
  pose proof (replicate_batches_prefix toy_crc bs empty_log [] empty_log_contains empty_log_readable) as H.
  unfold copy. destruct (replicate_batches toy_crc bs empty_log) as [l r]. simpl in Hok |- *.
  destruct H as (k & ys & Hc & Hy & Hr); [by vm_compute|done|done|]. destruct (Hr Hok) as [-> He].
  rewrite take_ge in Hy by done. simpl in Hc. split; [by exists ys|exact He|].
  rewrite <- Hy. apply contains_end_of; [done|]. intros ->. by subst.
Qed.

Lemma at_epoch_storable p :
  p ∈ [(0, 1); (1, 1); (1, 2); (1, 3); (2, 3)] → storable (at_epoch p.1 p.2).
Proof.
  intros Hp. split_and!; [done| |exists (wire (at_epoch p.1 p.2))]; revert p Hp; apply Forall_forall.
  - repeat constructor; vm_compute; (reflexivity || discriminate).
  - repeat (constructor; [split; vm_compute; reflexivity|]). constructor.
Qed.
Ltac sample_storable :=
  repeat (constructor; [match goal with |- storable (at_epoch ?b ?e) => apply (at_epoch_storable (b, e)) end; set_solver|]);
  constructor.

(** Epoch 1 wrote three batches.  The replica that led epoch 3 had copied one of
    them and wrote its own second batch; another one led epoch 3 with two. *)
Definition first_term : list Batch.RecordBatch := [at_epoch 0 1; at_epoch 1 1].
Definition new_leader : list Batch.RecordBatch := [at_epoch 0 1; at_epoch 1 3].
Definition late_leader : list Batch.RecordBatch := [at_epoch 0 1; at_epoch 1 1; at_epoch 2 3].
Definition lost_term : list Batch.RecordBatch := [at_epoch 0 1; at_epoch 1 2].
Definition logs (e : Z) : list Batch.RecordBatch := if e =? 1 then first_term else if e =? 3 then new_leader else lost_term.

Lemma samples_storable :
  Forall storable first_term ∧ Forall storable new_leader ∧ Forall storable late_leader ∧ Forall storable lost_term.
Proof. split_and!; sample_storable. Qed.

Ltac sample_replica :=
  split; [repeat (split; [vm_compute; reflexivity|]; split; [vm_compute; discriminate|]); exact I
         |repeat (constructor; [vm_compute; discriminate|]); constructor
         |repeat constructor; vm_compute; discriminate].
Lemma samples_replica :
  replica 0 first_term ∧ replica 0 new_leader ∧ replica 0 late_leader ∧ replica 0 lost_term.
Proof. split_and!; sample_replica. Qed.

Ltac sample_held :=
  apply copy_holds; [apply samples_replica|apply samples_storable|vm_compute; reflexivity|done].
Lemma samples_held :
  holding 0 (copy first_term) first_term ∧ holding 0 (copy new_leader) new_leader ∧
  holding 0 (copy late_leader) late_leader ∧ holding 0 (copy lost_term) lost_term.
Proof. split_and!; sample_held. Qed.

Lemma copy_sound bs :
  txn_files (disk (copy bs)) = ∅ → Forall narrow (all_segments (copy bs)) →
  reconciled_frontier (copy bs) ≤ log_end_offset (copy bs) → sound (copy bs).
Proof.
  intros H1 H2 H3. split; [|done..]. intros base. exists (TxnIndex.mkTxnIndex [] []). by rewrite H1, lookup_empty.
Qed.
Lemma samples_sound : sound (copy first_term) ∧ sound (copy lost_term).
Proof.
  split; (apply copy_sound; [vm_compute; reflexivity|repeat constructor; by vm_compute|vm_compute; discriminate]).
Qed.

Lemma from_leaders_two a b :
  [a] `prefix_of` logs (term a) → [a; b] `prefix_of` logs (term b) → from_leaders logs [a; b].
Proof.
  intros Ha Hb p c q Heq. destruct p as [|x [|y p]]; simplify_eq/=; [done|done|]. by destruct p.
Qed.
Lemma samples_lineage : from_leaders logs first_term ∧ from_leaders logs new_leader ∧ from_leaders logs [at_epoch 0 1].
Proof.
  split_and!; [apply from_leaders_two; vm_compute; by eexists..|].
  intros p c q Heq. destruct p as [|x p]; simplify_eq/=; [by eexists|]. by destruct p.
Qed.

Definition short_log : list Batch.RecordBatch := [at_epoch 0 1].
Lemma short_log_ok : holding 0 (copy short_log) short_log ∧ sound (copy short_log) ∧ replica 0 short_log.
Proof.
  assert (replica 0 short_log) as Hr by sample_replica. split_and!; [|apply copy_sound|exact Hr].
  - apply copy_holds; [apply Hr|sample_storable|vm_compute; reflexivity|done].
  - vm_compute. reflexivity.
  - repeat constructor; by vm_compute.
  - vm_compute. discriminate.
Qed.

(** ** The theorems at these logs *)
Lemma fetch_extends_prefix_witness :
  ∃ zs, contains (fetch_round toy_crc 1 0 (copy first_term) [at_epoch 1 1] (copy short_log)) zs ∧
        short_log `prefix_of` zs.*1 ∧ zs.*1 `prefix_of` first_term ∧
        ((replicate_batches toy_crc [at_epoch 1 1] (copy short_log)).2 = Ok tt → zs.*1 = short_log ++ [at_epoch 1 1]).
Proof.
  apply (fetch_extends_prefix toy_crc 0 1 0 (copy first_term) (copy short_log) first_term short_log) with (log_of := logs).
  - apply samples_held.
  - apply short_log_ok.
  - apply short_log_ok.
  - apply samples_replica.
  - apply short_log_ok.
  - apply samples_lineage.
  - apply samples_lineage.
  - vm_compute. reflexivity.
  - exists []. reflexivity.
  - sample_storable.
Defined.

Lemma divergence_truncated_exactly_witness :
  let follower' := fetch_round toy_crc 3 0 (copy new_leader) [] (copy first_term) in
  ∃ zs, contains follower' zs ∧ zs.*1 `prefix_of` new_leader ∧ zs.*1 `prefix_of` first_term ∧ zs.*1 ≠ first_term ∧
  ((truncate_to toy_crc 1 (copy first_term)).2 = Ok tt →
   apply_epoch_checks 3 (Checkpoint.entries (epoch_checkpoint (copy new_leader))) (log_end_offset (copy new_leader))
     (build_fetch_request 3 follower') = Proceed) ∧
  (stamp_source (copy first_term) = None → producer_state (tracking (copy first_term)) = ∅ →
   (truncate_to toy_crc 1 (copy first_term)).2 = Ok tt).
Proof.
  apply (divergence_truncated_exactly toy_crc 0 3 0 (copy new_leader) (copy first_term) new_leader first_term)
    with (log_of := logs) (b := at_epoch 1 1) (e := 1).
  - apply samples_held.
  - apply samples_held.
  - apply samples_sound.
  - split; vm_compute; discriminate.
  - apply samples_replica.
  - apply samples_replica.
  - apply samples_lineage.
  - apply samples_lineage.
  - reflexivity.
  - exists (at_epoch 0 1). split; [left|reflexivity].
  - vm_compute. reflexivity.
Defined.

Lemma divergence_keeps_common_witness :
  ∃ zs, contains (fetch_round toy_crc 3 0 (copy new_leader) [] (copy first_term)) zs ∧ short_log `prefix_of` zs.*1.
Proof.
  apply (divergence_keeps_common toy_crc 0 3 0 (copy new_leader) (copy first_term) new_leader first_term)
    with (e := 1) (offset := 1).
  - apply samples_held.
  - apply samples_held.
  - apply samples_sound.
  - split; vm_compute; discriminate.
  - apply samples_replica.
  - apply samples_replica.
  - exists [at_epoch 1 3]. reflexivity.
  - exists [at_epoch 1 1]. reflexivity.
  - vm_compute. reflexivity.
Defined.

Lemma divergence_livelock_witness :
  ¬ lost_term `prefix_of` late_leader ∧
  ∀ n, Nat.iter n (fetch_round toy_crc 3 0 (copy late_leader) []) (copy lost_term) = copy lost_term.
Proof.
  apply (divergence_livelock toy_crc 0 3 0 (copy late_leader) (copy lost_term) late_leader lost_term)
    with (xs1 := first_term) (xs2 := [at_epoch 2 3]) (b := at_epoch 1 2).
  - apply samples_held.
  - apply samples_held.
  - split; vm_compute; discriminate.
  - apply samples_replica.
  - apply samples_replica.
  - reflexivity.
  - reflexivity.
  - discriminate.
  - repeat constructor.
  - repeat constructor.
  - vm_compute. discriminate.
Defined.
