(* ===== verification/Follower.v ===== *)
(** * A follower as a whole

    Composes what [crates/broker/src/replicator.rs] does with the answer of a
    leader: to the log ([Replication.v]), through the writer of the partition to the
    replica state ([ReplicaState.v]), and to the producers of the partition
    ([ProducerState.v]).  Whatever each look at the replication target finds is an
    argument.  The partition is there all the time; delays are not modelled. *)

From S2P Require Import Prelude Wire Records Batches BatchStore LogIndex Segment SegmentInv Retention.
From S2P Require Import LeaderEpoch ProducerSnapshot StampIndex Compaction Tracking Log LogInv LogCut Divergence.
From S2P Require Import SegmentCases ProducerState ReplicaState Replication ReplicationCases.

Section Handlers.
Context {source : StampSource} {store : BatchStore} {search : BinarySearch} (crc32c : list byte → Z).
Context (topic : string) (partition : Z).

Record Follower : Type := mkFollower {
  f_log : Log;
  f_part : Partition.Partition;
  f_producers : Dedup.ProducerState;
}.

(** The log changes whether or not the mutation succeeds. *)
Definition mutate (m : M unit) (succeeded : Follower → Follower) (f : Follower) : Follower :=
  let '(l, r) := m (f_log f) in
  let f := mkFollower l (Partition.set_log_end (log_end_offset l) (f_part f)) (f_producers f) in
  match r with Ok _ => succeeded f | Err _ => f end.
(** The writer recomputes the high watermark, the replicator drops the producers
    whose last batch is gone. *)
Definition rewound (offset : Z) (f : Follower) : Follower :=
  mkFollower (f_log f) (Partition.handle_truncate (log_end_offset (f_log f)) (f_part f))
    (Dedup.truncate (f_producers f) topic partition offset).
Definition truncate_to (offset : Z) : Follower → Follower := mutate (Log.truncate_to crc32c offset) (rewound offset).
Definition reset_to (offset : Z) : Follower → Follower := mutate (Log.reset_to offset) (rewound offset).

Definition handle_offset_out_of_range (looks : Looks) (resp : PartitionData) (f : Follower) : Follower * LoopAction :=
  if at_recovery looks || at_lock looks then (f, StopNotLeader) else (reset_to (leader_log_start resp) f, Continue).
Definition handle_epoch_fence (looks : Looks) (fence : option Z) (f : Follower) : Follower :=
  match fence with
  | None => f
  | Some end_ =>
      if after_lookup looks || at_lock looks then f else
      if 0 <=? end_ then truncate_to end_ f else reset_to 0 f
  end.
(** The batches of a response, and the high watermark when the target is still the same. *)
Definition replicate_records (looks : Looks) (resp : PartitionData) (f : Follower) : Follower * LoopAction :=
  let '(l, changed) := replicate_loop crc32c (at_batch looks) 0 (records resp) (f_log f) in
  let part := Partition.set_log_end (log_end_offset l) (f_part f) in
  if changed || at_hw looks then (mkFollower l part (f_producers f), StopNotLeader)
  else (mkFollower l (Partition.set_follower_hw (leader_hw resp) part) (f_producers f), Continue).
Definition handle_response (looks : Looks) (fence : option Z) (resp : PartitionData) (f : Follower) :
    Follower * LoopAction :=
  if at_arrival looks then (f, StopNotLeader) else
  if error_code resp =? NONE then
    if 0 <=? diverging_end resp then
      if at_recovery looks || at_lock looks then (f, StopNotLeader) else (truncate_to (diverging_end resp) f, Continue)
    else if at_lock looks then (f, StopNotLeader) else replicate_records looks resp f
  else if error_code resp =? OFFSET_OUT_OF_RANGE then handle_offset_out_of_range looks resp f
  else if error_code resp =? NOT_LEADER_OR_FOLLOWER then (f, StopNotLeader)
  else if (error_code resp =? FENCED_LEADER_EPOCH) || (error_code resp =? UNKNOWN_LEADER_EPOCH) then
    if at_recovery looks then (f, StopNotLeader) else
    (if error_code resp =? FENCED_LEADER_EPOCH then handle_epoch_fence looks fence f else f,
     if at_backoff looks then StopNotLeader else Continue)
  else (f, Continue).

Lemma mutate_log m succeeded f : (∀ f, f_log (succeeded f) = f_log f) → f_log (mutate m succeeded f) = (attempt m (f_log f)).1.
Proof. intros Hs. unfold mutate, attempt. destruct (m (f_log f)) as [l []]; [apply Hs|done]. Qed.

(** To the log it does what [Replication.v] says. *)
Lemma handle_response_log looks fence resp f :
  let '(f', action) := handle_response looks fence resp f in
  Replication.handle_response crc32c looks fence resp (f_log f) = (f_log f', Ok action).
Proof.
  unfold handle_response, Replication.handle_response, Replication.handle_offset_out_of_range, handle_offset_out_of_range.
  unfold replicate_records, truncate_to, reset_to. destruct (at_arrival looks); [done|]. destruct (error_code resp =? NONE).
  { destruct (0 <=? diverging_end resp).
    - destruct (at_recovery looks || at_lock looks); [done|]. rewrite run_bind. unfold attempt at 1. by rewrite mutate_log.
    - destruct (at_lock looks); [done|]. destruct (replicate_loop _ _ _ _ _) as [l changed]. by destruct (changed || at_hw looks). }
  destruct (error_code resp =? OFFSET_OUT_OF_RANGE).
  { destruct (at_recovery looks || at_lock looks); [done|]. rewrite run_bind. unfold attempt at 1. by rewrite mutate_log. }
  destruct (error_code resp =? NOT_LEADER_OR_FOLLOWER); [done|].
  destruct ((error_code resp =? FENCED_LEADER_EPOCH) || (error_code resp =? UNKNOWN_LEADER_EPOCH)); [|done].
  destruct (at_recovery looks); [done|]. destruct (error_code resp =? FENCED_LEADER_EPOCH); [|done]. rewrite run_bind.
  destruct fence as [end_|]; [|done]. simpl. destruct (after_lookup looks || at_lock looks); [done|].
  unfold truncate_to, reset_to. by destruct (0 <=? end_); rewrite mutate_log.
Qed.

(** The producers of the partition whose last batch is at or above [lo], the
    offset from which the log has been replicated, stand for a batch in the log. *)
Record consistent (lo : Z) (f : Follower) : Prop := {
  c_end : Partition.log_end (f_part f) = log_end_offset (f_log f);
  c_hw : Partition.high_watermark (f_part f) ≤ log_end_offset (f_log f);
  c_producers : ∃ zs, contains (f_log f) zs ∧
    ∀ pid e, Dedup.slot (f_producers f) topic partition !! pid = Some e → lo ≤ Dedup.last_offset e →
      ∃ z, z ∈ zs ∧ batch_last z.1 = Dedup.last_offset e;
}.
(** A mutation that fails has changed nothing. *)
Definition atomic (m : M unit) (l : Log) : Prop := (m l).2 = Ok tt ∨ (m l).1 = l.

Lemma consistent_above lo lo' f : consistent lo f → lo ≤ lo' → consistent lo' f.
Proof.
  intros [He Hh (zs & Hc & Hp)] Hle. split; [done..|]. exists zs. split; [done|].
  intros pid e Hs Hge. apply (Hp pid); [done|lia].
Qed.

Lemma truncated_slot s offset pid e :
  Dedup.slot (Dedup.truncate s topic partition offset) topic partition !! pid = Some e ↔
  Dedup.slot s topic partition !! pid = Some e ∧ Dedup.last_offset e < offset.
Proof.
  unfold Dedup.truncate, Dedup.slot, Dedup.put_slot. destruct (s !! topic) as [parts|] eqn:Hs; simpl.
  2:{ rewrite Hs. simpl. rewrite lookup_empty. naive_solver. }
  destruct (parts !! partition) as [m|] eqn:Hm; simpl.
  2:{ rewrite Hs. simpl. rewrite Hm. simpl. rewrite lookup_empty. naive_solver. }
  rewrite lookup_insert_eq. simpl. rewrite lookup_insert_eq. simpl. by rewrite map_lookup_filter_Some.
Qed.

Lemma rewound_hw offset f :
  Partition.high_watermark (f_part (rewound offset f)) ≤ log_end_offset (f_log f) ∧
  Partition.log_end (f_part (rewound offset f)) = log_end_offset (f_log f).
Proof.
  split; [|done]. unfold rewound, Partition.high_watermark. simpl.
  match goal with |- Replicas.compute_hw ?leo ?s ≤ _ => by apply (compute_hw_iff leo s) end.
Qed.

(** The log that a mutation leaves, when it succeeds and the producers are rewound. *)
Lemma mutate_consistent lo lo' m offset f :
  consistent lo f → atomic m (f_log f) → lo ≤ lo' →
  (∀ l zs, m (f_log f) = (l, Ok tt) → contains (f_log f) zs →
     ∃ zs', contains l zs' ∧ ∀ o, lo' ≤ o < offset → (∃ z, z ∈ zs ∧ batch_last z.1 = o) → ∃ z, z ∈ zs' ∧ batch_last z.1 = o) →
  consistent lo' (mutate m (rewound offset) f).
Proof.
  intros [He Hh (zs & Hc & Hp)] Hm Hlo Hcut. unfold mutate, atomic in *. destruct (m (f_log f)) as [l r]. simpl in Hm.
  destruct r as [[]|e].
  - set (f' := mkFollower l _ _). destruct (rewound_hw offset f') as [H1 H2].
    destruct (Hcut l zs eq_refl Hc) as (zs' & Hc' & Hz). split; [done|done|]. exists zs'. split; [done|].
    intros pid e [Hs Hlt]%truncated_slot Hge. apply Hz; [done|]. apply (Hp pid); [done|lia].
  - destruct Hm as [?| ->]; [done|]. split; [done|done|]. exists zs. split; [done|].
    intros pid e' Hs Hge. apply (Hp pid); [done|lia].
Qed.

Lemma truncate_consistent lo offset f :
  consistent lo f → readable_all (f_log f) → Forall narrow (all_segments (f_log f)) →
  atomic (Log.truncate_to crc32c offset) (f_log f) → consistent lo (truncate_to offset f).
Proof.
  intros Hf Hr Hn Ha. eapply mutate_consistent; [done|done|lia|]. intros l zs Hl Hc.
  pose proof (truncate_to_content crc32c (f_log f) zs offset Hc Hr Hn) as Ht. rewrite Hl in Ht.
  match type of Ht with if ?c then _ else _ => destruct c; [by destruct Ht as [? _]|] end. destruct Ht as [Ht _].
  eexists. split; [exact Ht|]. intros o [_ Ho] (z & Hz & Hb). exists z. split; [|done].
  apply list_elem_of_filter. split; [lia|done].
Qed.

Lemma reset_contains l l' offset : offset < 2 ^ 63 → Log.reset_to offset l = (l', Ok tt) → contains l' [].
Proof.
  intros Ho. unfold Log.reset_to. destruct (Z.ltb_spec offset 0); [done|]. intros (l1 & [] & H1 & H')%run_ok.
  apply run_ok in H' as (l2 & [] & H2 & H'). apply run_ok in H' as (l3 & [] & H3 & H').
  apply run_ok in H' as (l4 & [] & H4 & H'). injection H' as <-.
  apply (keeps_run body) in H2, H4; [|apply _..]. injection H1 as <-. injection H3 as <-.
  injection H2 as H2 _. injection H4 as H4 H5. simpl in *.
  exists (create offset), [], []. simpl. split_and!; [done| |done]. rewrite H4, H2.
  split; [constructor|by apply create_holds_nothing|done].
Qed.

Lemma reset_consistent lo offset f :
  consistent lo f → offset < 2 ^ 63 → atomic (Log.reset_to offset) (f_log f) →
  consistent (Z.max lo offset) (reset_to offset f).
Proof.
  intros Hf Ho Ha. eapply mutate_consistent; [done|done|lia|]. intros l zs Hl _.
  exists []. split; [by eapply reset_contains|]. intros o [? ?]. lia.
Qed.

Lemma end_grows l l' xs ys :
  contains l xs → contains l' (xs ++ ys) → xs ≠ [] ∨ ys ≠ [] → gapless (log_end_offset l) ys.*1 →
  log_end_offset l ≤ log_end_offset l'.
Proof.
  intros Hc Hc' Hne Hg. destruct (end_of_ge _ _ Hg) as [Hge _]. destruct (decide (xs = [])) as [->|Hxs].
  - destruct Hne as [?|Hys]; [done|]. by rewrite (contains_end_of _ _ (log_end_offset l) Hc').
  - rewrite (contains_end_of _ _ 0 Hc') by (by destruct xs). rewrite fmap_app, end_of_app.
    by rewrite <- (contains_end_of _ _ 0 Hc).
Qed.

Lemma gapless_take lo bs n : gapless lo bs → gapless lo (take n bs).
Proof. intros Hg. rewrite <- (take_drop n bs) in Hg. by apply gapless_app in Hg as [? _]. Qed.

(** Batches that are replicated, all or some, keep the log end from falling. *)
Lemma replicated_grows data l zs :
  contains l zs → readable_all l → reconciled_frontier l ≤ log_end_offset l →
  gapless (log_end_offset l) data → Forall storable data → atomic (replicate_batches crc32c data) l ∨ ¬ contains l [] →
  let l' := (replicate_batches crc32c data l).1 in
  log_end_offset l ≤ log_end_offset l' ∧ ∃ ys, contains l' (zs ++ ys).
Proof.
  intros Hc Hr Hfr Hg Hs Ha. pose proof (replicate_batches_prefix crc32c data l zs Hc Hr Hfr Hg Hs) as Hrep.
  unfold atomic in *. destruct (replicate_batches crc32c data l) as [l' r] eqn:Hl. destruct Hrep as (k & ys & Hc' & Hy & Hok).
  simpl in *. split; [|by exists ys]. destruct (decide (zs = [] ∧ ys = [])) as [[-> ->]|Hne].
  - destruct Ha as [[Hr'|Hr']|?]; [|by rewrite Hr'|done]. subst r.
    destruct (Hok eq_refl) as [-> _]. rewrite firstn_all in Hy. simpl in Hy. subst data. by injection Hl as <-.
  - apply (end_grows l l' zs ys); [done|done| |rewrite Hy; by apply gapless_take].
    destruct zs; [right; intros ->; by apply Hne|by left].
Qed.

(** A response that carries records appends them and moves the high watermark. *)
Lemma records_consistent lo looks resp f :
  consistent lo f → readable_all (f_log f) → reconciled_frontier (f_log f) ≤ log_end_offset (f_log f) →
  gapless (log_end_offset (f_log f)) (records resp) → Forall storable (records resp) →
  (∀ n, atomic (replicate_batches crc32c (take n (records resp))) (f_log f)) ∨ ¬ contains (f_log f) [] →
  consistent lo (replicate_records looks resp f).1.
Proof.
  intros [He Hh (zs & Hc & Hp)] Hr Hfr Hg Hs Ha. unfold replicate_records.
  destruct (replicate_loop_takes crc32c (at_batch looks) 0 (records resp) (f_log f)) as [n Hn].
  destruct (replicated_grows (take n (records resp)) (f_log f) zs) as [Hle (ys & Hc')];
    [done|done|done|by apply gapless_take|by apply Forall_take|destruct Ha; [by left|by right]|].
  destruct (replicate_loop _ _ _ _ _) as [l changed]. simpl in Hn. rewrite <- Hn in Hle, Hc'.
  assert (∀ pid e, Dedup.slot (f_producers f) topic partition !! pid = Some e → lo ≤ Dedup.last_offset e →
    ∃ z, z ∈ zs ++ ys ∧ batch_last z.1 = Dedup.last_offset e) as Hp'.
  { intros pid e Hpe Hge. destruct (Hp pid e Hpe Hge) as (z & Hz & Hb). exists z. split; [apply elem_of_app; by left|done]. }
  unfold Partition.high_watermark in *.
  destruct (changed || at_hw looks); split; simpl; unfold Partition.set_follower_hw, Partition.high_watermark; simpl;
    repeat case_match; simpl; try lia; by exists (zs ++ ys).
Qed.

Lemma consistent_end lo f pid e :
  consistent lo f → Dedup.slot (f_producers f) topic partition !! pid = Some e → lo ≤ Dedup.last_offset e →
  Dedup.last_offset e < log_end_offset (f_log f).
Proof.
  intros [_ _ (zs & Hc & Hp)] He Hge. destruct (Hp pid e He Hge) as (z & Hz & <-).
  apply contains_ordered in Hc as [Ho ->]. pose proof (ordered_below _ _ Ho) as Hall. rewrite Forall_forall in Hall.
  by apply Hall.
Qed.

(** C19. A follower that has led the partition keeps the producers it remembers in step
    with its log through every response, wherever in it the target changes: after
    appending, truncating or resetting, the last batch of each of them that is at or
    above [lo] is still in the log, so that a retry that is answered as a duplicate
    names an offset below the log end; and the high watermark is within the log.
    (Replication itself does not add producers.)  The records of the response follow
    the log without a gap, can be stored and are no control batches; and a truncation,
    a reset, or an append to an empty log, that fails has changed nothing.  To the log
    the whole handler does what the handler of [Replication.v] does. *)
Theorem follower_stays_consistent lo looks fence resp f :
  0 ≤ lo → consistent lo f → sound (f_log f) → leader_log_start resp < 2 ^ 63 →
  gapless (log_end_offset (f_log f)) (records resp) → Forall storable (records resp) →
  (∀ n, atomic (replicate_batches crc32c (take n (records resp))) (f_log f)) ∨ ¬ contains (f_log f) [] →
  atomic (Log.truncate_to crc32c (diverging_end resp)) (f_log f) →
  atomic (Log.reset_to (leader_log_start resp)) (f_log f) →
  (∀ o, fence = Some o → atomic (Log.truncate_to crc32c o) (f_log f) ∧ atomic (Log.reset_to 0) (f_log f)) →
  let '(f', action) := handle_response looks fence resp f in
  let lo' := if error_code resp =? OFFSET_OUT_OF_RANGE then Z.max lo (leader_log_start resp) else lo in
  consistent lo' f' ∧
  (∀ pid e, Dedup.slot (f_producers f') topic partition !! pid = Some e → lo' ≤ Dedup.last_offset e →
     Dedup.last_offset e < log_end_offset (f_log f')) ∧
  Replication.handle_response crc32c looks fence resp (f_log f) = (f_log f', Ok action).
Proof.
  intros Hlo Hf [Hr Hn Hfr] Hls Hg Hs Ha1 Ha2 Ha3 Ha4. pose proof (handle_response_log looks fence resp f) as Hlog.
  destruct (handle_response looks fence resp f) as [f' action] eqn:Hh. intros lo'.
  assert (consistent lo' f') as Hc; [|split_and!; [done| |done]; intros pid e; by apply consistent_end].
  apply (f_equal fst) in Hh. simpl in Hh. subst f' lo'. clear Hlog. unfold handle_response.
  assert (lo ≤ (if error_code resp =? OFFSET_OUT_OF_RANGE then Z.max lo (leader_log_start resp) else lo)) as Hle
    by (case_match; lia).
  destruct (at_arrival looks); [by eapply consistent_above|].
  destruct (Z.eqb_spec (error_code resp) NONE) as [Hz|_].
  { rewrite Hz. destruct (0 <=? diverging_end resp), (at_recovery looks), (at_lock looks); simpl; try done;
      [by apply truncate_consistent|by apply records_consistent..]. }
  destruct (error_code resp =? OFFSET_OUT_OF_RANGE).
  { unfold handle_offset_out_of_range. destruct (at_recovery looks || at_lock looks); [by eapply consistent_above|by apply reset_consistent]. }
  destruct (error_code resp =? NOT_LEADER_OR_FOLLOWER); [done|]. destruct (_ || _); [|done].
  destruct (at_recovery looks); [done|]. simpl. destruct (error_code resp =? FENCED_LEADER_EPOCH); [|done].
  destruct fence as [o|]; [|done]. destruct (Ha4 o eq_refl) as [Ht H0]. simpl.
  destruct (after_lookup looks || at_lock looks); [done|].
  destruct (0 <=? o); [by apply truncate_consistent|]. replace lo with (Z.max lo 0) by lia. by apply reset_consistent.
Qed.
End Handlers.

(** ** A former leader that has diverged *)

(** Its log holds the batches 0 and 1 of epoch 1; producer 7 wrote the first of
    them, producer 8 the second. *)
Definition deposed : Follower :=
  mkFollower (copy first_term)
    (Partition.mkPartition 2 false 2 3 (Partition.mkTarget None 2 3) (Replicas.mkReplicas ∅ ∅ 1 3))
    {[ "events" := {[ 0 := {[ 7 := Dedup.mkEntry 0 0 0 0 10 10; 8 := Dedup.mkEntry 0 0 1 1 10 10 ]} ]} ]}.
(** The new leader has overwritten offset 1. *)
Definition overwritten : PartitionData := mkData NONE 1 [] 0 1.

Lemma deposed_consistent : consistent "events" 0 0 deposed.
Proof.
  destruct samples_held as [[(zs & Hc & Hz) _ _] _]. split; [by vm_compute|by vm_compute|]. exists zs. split; [exact Hc|].
  intros pid e He _. assert (∃ b, b ∈ zs.*1 ∧ batch_last b = Dedup.last_offset e) as (b & Hb & Hl).
  { rewrite Hz. change (({[7 := Dedup.mkEntry 0 0 0 0 10 10; 8 := Dedup.mkEntry 0 0 1 1 10 10]} : gmap Z _) !! pid = Some e) in He.
    apply lookup_insert_Some in He as [[_ <-]|[_ [_ <-]%lookup_singleton_Some]];
      [exists (at_epoch 0 1)|exists (at_epoch 1 1)]; (split; [set_solver|by vm_compute]). }
  apply list_elem_of_fmap in Hb as (z & -> & Hz'). by exists z.
Qed.

Lemma follower_stays_consistent_witness :
  let f' := (handle_response toy_crc "events" 0 steady None overwritten deposed).1 in
  Dedup.slot (f_producers f') "events" 0 = {[ 7 := Dedup.mkEntry 0 0 0 0 10 10 ]} ∧ consistent "events" 0 0 f'.
Proof.
  pose proof (follower_stays_consistent toy_crc "events" 0 0 steady None overwritten deposed) as H.
  assert (log_end_offset (f_log deposed) = 2) as Hend by by vm_compute. split; [by vm_compute|].
  destruct (handle_response toy_crc "events" 0 steady None overwritten deposed) as [f' action].
  apply H.
  - done.
  - exact deposed_consistent.
  - exact (proj1 samples_sound).
  - done.
  - exact I.
  - constructor.
  - right. intros [_ Hc]%contains_ordered. rewrite Hend in Hc. vm_compute in Hc. discriminate.
  - left. vm_compute. reflexivity.
  - left. vm_compute. reflexivity.
  - discriminate.
Defined.
