(* ===== verification/Mvcc.v ===== *)
(** * Versions and snapshots

    Models [crates/pgmvcc/src]: the commit log ([clog.rs]), the tuple versions
    ([version.rs]), what a snapshot sees ([visibility.rs]) and when a version can
    be removed ([gc.rs]).  The encoding of rows ([crates/pgkv/src/rowenc.rs]) is
    an interface without laws: a tuple gives back what decoding its row gives. *)

From S2P Require Import Prelude Wire LogIndex.

Inductive KvError : Type :=
| CorruptRow (what : string)
| KvIo (what : string).

Definition INVALID_XID : Z := 0.
Definition FROZEN_XID : Z := 1.
Definition FIRST_NORMAL_XID : Z := 3.
Definition first_allocatable_xid_at_or_after (xid : Z) : Z :=
  if xid <? FIRST_NORMAL_XID then FIRST_NORMAL_XID else xid.

(** ** The commit log *)
Module Clog.
Inductive XidStatus : Type :=
| InProgress
| Committed
| Aborted
| Prepared (global : Z).
#[global] Instance XidStatus_eq_dec : EqDecision XidStatus.
Proof. solve_decision. Defined.

Definition decode (value : list byte) : result KvError XidStatus :=
  match value with
  | [] | x00 :: _ => Ok InProgress
  | x01 :: _ => Ok Committed
  | x02 :: _ => Ok Aborted
  | x03 :: g =>
      if bool_decide (length g < 8)%nat then Err (CorruptRow "prepared clog missing global xid")
      else Ok (Prepared (be_value (take 8 g)))
  | _ => Err (CorruptRow "bad clog status byte")
  end.
(** The value that [put_op] writes. *)
Definition put_value (status : XidStatus) : list byte :=
  match status with
  | InProgress => [x00]
  | Committed => [x01]
  | Aborted => [x02]
  | Prepared g => x03 :: be_bytes 8 g
  end.
(** [get] of a store whose entries are [kv]. *)
Definition get (kv : gmap Z (list byte)) (xid : Z) : result KvError XidStatus := decode (default [] (kv !! xid)).
Definition is_terminal (value : list byte) : bool :=
  match value with x01 :: _ | x02 :: _ => true | _ => false end.

Lemma decode_put status :
  match status with Prepared g => in_u 64 g | _ => True end → decode (put_value status) = Ok status.
Proof.
  destruct status as [| | |g]; [done..|]. intros Hg. unfold put_value, decode.
  rewrite bool_decide_eq_false_2 by (rewrite length_be_bytes; lia).
  rewrite take_ge by (by rewrite length_be_bytes). by rewrite be_value_bytes, wrap_u_id.
Qed.
End Clog.
Import Clog.

(** ** Snapshots *)
Section Visibility.
Context {search : BinarySearch}.

Record Snapshot : Type := mkSnapshot { s_xmin : Z; s_xmax : Z; xip : list Z }.
Definition is_running (s : Snapshot) (xid : Z) : bool :=
  (s_xmax s <=? xid) || (match binary_search (xip s) xid with Ok _ => true | Err _ => false end).
Definition committed_visible (xid : Z) (s : Snapshot) (own : option Z) (status : Z → result KvError XidStatus) :
    result KvError bool :=
  if xid =? FROZEN_XID then Ok true else
  if bool_decide (own = Some xid) then Ok true else
  if is_running s xid then Ok false else
  st ← status xid;
  Ok (bool_decide (st = Committed)).
Definition satisfies_mvcc (xmin xmax : Z) (s : Snapshot) (own : option Z) (status : Z → result KvError XidStatus) :
    result KvError bool :=
  created ← committed_visible xmin s own status;
  if negb created then Ok false else
  if xmax =? INVALID_XID then Ok true else
  deleted ← committed_visible xmax s own status;
  Ok (negb deleted).
End Visibility.

(** ** Versions stamped with timestamps *)
Inductive TsVersionState : Type :=
| Intent
| TsCommitted (commit_ts : Z)
| TsAborted
| TsDeleted (commit_ts : Z).
Definition code (s : TsVersionState) : Z :=
  match s with Intent => 1 | TsCommitted _ => 2 | TsAborted => 3 | TsDeleted _ => 4 end.
Definition satisfies_ts (read_ts : Z) (s : TsVersionState) : bool :=
  match s with TsCommitted c => c <=? read_ts | _ => false end.
Inductive ReadVerdict : Type := Visible | Invisible | Uncertain.
Definition read_verdict (read_ts : Z) (s : TsVersionState) (uncertainty : Z) : ReadVerdict :=
  match s with
  | TsCommitted c =>
      if c <=? read_ts then Visible
      else if c <=? sat_u 64 (read_ts + uncertainty) then Uncertain else Invisible
  | _ => Invisible
  end.

(** ** Removing versions *)
Definition version_is_dead (xmin xmax horizon : Z) (status : Z → result KvError XidStatus) : result KvError bool :=
  st ← status xmin;
  if bool_decide (st = Aborted) then Ok true else
  if bool_decide (st = InProgress) && (xmin <? horizon) && negb (xmin =? FROZEN_XID) then Ok true else
  if negb (xmax =? INVALID_XID) && (xmax <? horizon)
  then st ← status xmax; Ok (bool_decide (st = Committed))
  else Ok false.

(** Of a committed version or a delete marker. *)
Definition stamp (s : TsVersionState) : option Z :=
  match s with TsCommitted c | TsDeleted c => Some c | _ => None end.
Definition newest_covered (versions : list TsVersionState) (floor : Z) : option Z :=
  match filter (fun c => c ≤ floor) (omap stamp versions) with
  | [] => None
  | c :: cs => Some (foldl Z.max c cs)
  end.
Definition stamp_le (p q : Z * nat) : Prop := p.1 < q.1 ∨ p.1 = q.1 ∧ (p.2 ≤ q.2)%nat.
#[global] Instance stamp_le_dec p q : Decision (stamp_le p q).
Proof. unfold stamp_le. apply _. Defined.
Definition stamped_below (newest : Z) (p : nat * TsVersionState) : option (Z * nat) :=
  match stamp p.2 with
  | Some c => if c <? newest then Some (c, p.1) else None
  | None => None
  end.
Definition ts_dead_version_indices (versions : list TsVersionState) (floor : Z) (cap : nat) : list nat :=
  match newest_covered versions floor with
  | None => []
  | Some newest =>
      (take cap (merge_sort stamp_le (omap (stamped_below newest) (imap pair versions)))).*2
  end.

(** ** Snapshot pins *)
Record GcHorizon : Type := mkHorizon {
  pins : gmap Z nat;
  decided_floor : Z;
  reclaim_floor : Z;
}.
Definition add_pin (v : Z) (h : GcHorizon) : GcHorizon :=
  mkHorizon (<[v := S (default O (pins h !! v))]> (pins h)) (decided_floor h) (reclaim_floor h).
Definition min_pinned (h : GcHorizon) : option Z := head (entries (pins h)).*1.
Definition pin (v : Z) (h : GcHorizon) : GcHorizon := add_pin v h.
(** The error carries the floor and the requested value. *)
Definition pin_above (v : Z) (h : GcHorizon) : result (Z * Z) GcHorizon :=
  if v <? reclaim_floor h then Err (reclaim_floor h, v) else Ok (add_pin v h).
Definition unpin (v : Z) (h : GcHorizon) : GcHorizon :=
  match pins h !! v with
  | Some (S (S n)) => mkHorizon (<[v := S n]> (pins h)) (decided_floor h) (reclaim_floor h)
  | Some _ => mkHorizon (delete v (pins h)) (decided_floor h) (reclaim_floor h)
  | None => h
  end.
Definition raise_reclaim_floor (candidate : Z) (h : GcHorizon) : GcHorizon :=
  let bounded := match min_pinned h with Some m => Z.min candidate m | None => candidate end in
  mkHorizon (pins h) (decided_floor h) (Z.max (reclaim_floor h) bounded).
Definition observe_reclaim_floor (floor : Z) (h : GcHorizon) : GcHorizon :=
  mkHorizon (pins h) (decided_floor h) (Z.max (reclaim_floor h) floor).
Definition advance_decided_floor (floor : Z) (h : GcHorizon) : GcHorizon :=
  mkHorizon (pins h) (Z.max (decided_floor h) floor) (reclaim_floor h).

(** *** The timestamp collector of one engine
    [durable_reclaim_floor] is the floor stored under [TS_GC_FLOOR_KEY]; [in_flight]
    holds the floors of the batches that are built and not applied yet. *)
Record TsVersionGc : Type := mkTsGc {
  floor : GcHorizon;
  durable_reclaim_floor : Z;
  prune_row_version_cap : nat;
  in_flight : list Z;
}.
Definition set_floor (h : GcHorizon) (g : TsVersionGc) : TsVersionGc :=
  mkTsGc h (durable_reclaim_floor g) (prune_row_version_cap g) (in_flight g).
Definition observed_floor (g : TsVersionGc) : TsVersionGc :=
  set_floor (observe_reclaim_floor (durable_reclaim_floor g) (floor g)) g.
Definition pin_read (read_ts : Z) (g : TsVersionGc) : TsVersionGc * result (Z * Z) unit :=
  let g := observed_floor g in
  match pin_above read_ts (floor g) with
  | Ok h => (set_floor h g, Ok tt)
  | Err e => (g, Err e)
  end.
(** The version indices each written row loses, and the floor the batch publishes:
    none when nothing is deleted. [closed] is the lagged closed timestamp. *)
Definition prune_batch_ops (closed : Z) (rows : list (list TsVersionState)) (g : TsVersionGc)
    : TsVersionGc * (list (list nat) * option Z) :=
  let g := observed_floor g in
  let h := raise_reclaim_floor closed (floor g) in
  let deletes := (fun versions => ts_dead_version_indices versions (reclaim_floor h) (prune_row_version_cap g)) <$> rows in
  if forallb (fun dead => length dead =? 0)%nat deletes then (set_floor h g, (deletes, None))
  else (mkTsGc h (durable_reclaim_floor g) (prune_row_version_cap g) (reclaim_floor h :: in_flight g),
        (deletes, Some (reclaim_floor h))).

(** ** Tuples on disk *)
Class RowCodec : Type := {
  Row : Type;
  encode_row : Row → list byte;
  decode_row : list byte → result KvError Row;
}.

Section Tuples.
Context {codec : RowCodec}.

Definition TUPLE_HEADER : nat := 17.
Definition TS_TUPLE_HEADER : nat := 18.
Definition field (i : nat) (bytes : list byte) : Z := be_value (take 8 (drop i bytes)).

Definition encode_tuple (xmin xmax : Z) (row : Row) : list byte :=
  x01 :: be_bytes 8 xmin ++ be_bytes 8 xmax ++ encode_row row.
(** The checks that the functions on stored tuples share. *)
Definition tuple_header (bytes : list byte) : result KvError unit :=
  if bool_decide (length bytes < TUPLE_HEADER)%nat then Err (CorruptRow "bad tuple header") else
  if negb (bool_decide (head bytes = Some x01)) then Err (CorruptRow "bad tuple header") else Ok tt.
Definition decode_tuple (bytes : list byte) : result KvError (Z * Z * Row) :=
  _ ← tuple_header bytes;
  row ← decode_row (drop TUPLE_HEADER bytes);
  Ok (field 1 bytes, field 9 bytes, row).
Definition rewrite_tuple_xmin (bytes : list byte) (xmin : Z) : result KvError (list byte) :=
  _ ← tuple_header bytes;
  Ok (take 1 bytes ++ be_bytes 8 xmin ++ drop 9 bytes).
Definition freeze_tuple_xmin (bytes : list byte) : result KvError (list byte) :=
  rewrite_tuple_xmin bytes FROZEN_XID.
Definition clear_tuple_xmax (bytes : list byte) : result KvError (list byte) :=
  _ ← tuple_header bytes;
  Ok (take 9 bytes ++ be_bytes 8 INVALID_XID ++ drop 17 bytes).

Record TsTupleVersion : Type := mkTsTuple { start_ts : Z; state : TsVersionState; row : Row }.
Definition encode_ts_tuple (start : Z) (s : TsVersionState) (r : Row) : list byte :=
  x02 :: byte_of_Z (code s) :: be_bytes 8 start ++ be_bytes 8 (default 0 (stamp s)) ++ encode_row r.
Definition decode_ts_state (st start commit : Z) : option TsVersionState :=
  if (st =? 1) && (commit =? 0) then Some Intent else
  if (st =? 2) && (start <? commit) then Some (TsCommitted commit) else
  if (st =? 3) && (commit =? 0) then Some TsAborted else
  if (st =? 4) && (start <? commit) then Some (TsDeleted commit) else None.
Definition decode_ts_tuple (bytes : list byte) : result KvError TsTupleVersion :=
  if bool_decide (length bytes < TS_TUPLE_HEADER)%nat then Err (CorruptRow "bad timestamp tuple header") else
  if negb (bool_decide (head bytes = Some x02)) then Err (CorruptRow "bad timestamp tuple header") else
  match decode_ts_state (be_value (take 1 (drop 1 bytes))) (field 2 bytes) (field 10 bytes) with
  | None => Err (CorruptRow "invalid timestamp tuple state")
  | Some s => r ← decode_row (drop TS_TUPLE_HEADER bytes); Ok (mkTsTuple (field 2 bytes) s r)
  end.

(** The version of a row under its key, [prefix] being the key of the row. *)
Definition version_key (prefix : list byte) (xid : Z) : list byte := prefix ++ be_bytes 8 xid.
Definition row_prefix_of (key : list byte) : result KvError (list byte) :=
  if bool_decide (length key < 8)%nat then Err (CorruptRow "version key too short")
  else Ok (take (length key - 8) key).
Definition xid_of_key (key : list byte) : result KvError Z :=
  if bool_decide (length key < 8)%nat then Err (CorruptRow "version key too short")
  else Ok (be_value (drop (length key - 8) key)).

(** *** Round trips *)
Lemma field_at i l v r : length l = i → in_u 64 v → field i (l ++ be_bytes 8 v ++ r) = v.
Proof.
  intros <- Hv. unfold field. rewrite drop_app_length, take_app_length' by by rewrite length_be_bytes.
  by rewrite be_value_bytes, wrap_u_id.
Qed.

Lemma decode_tuple_parts a b r :
  in_u 64 a → in_u 64 b → decode_tuple (x01 :: be_bytes 8 a ++ be_bytes 8 b ++ r) = row ← decode_row r; Ok (a, b, row).
Proof.
  intros Ha Hb. unfold decode_tuple, tuple_header, TUPLE_HEADER.
  rewrite bool_decide_eq_false_2 by (cbn [length]; rewrite !length_app, !length_be_bytes; lia).
  rewrite bool_decide_eq_true_2 by done. cbn [negb mbind result_bind].
  assert (drop 17 (x01 :: be_bytes 8 a ++ be_bytes 8 b ++ r) = r) as ->.
  { change (x01 :: be_bytes 8 a ++ be_bytes 8 b ++ r) with ([x01] ++ be_bytes 8 a ++ be_bytes 8 b ++ r).
    rewrite !app_assoc. apply drop_app_length'. rewrite !length_app, !length_be_bytes. done. }
  change (x01 :: be_bytes 8 a ++ be_bytes 8 b ++ r) with ([x01] ++ be_bytes 8 a ++ be_bytes 8 b ++ r).
  rewrite (field_at 1) by done. rewrite app_assoc, (field_at 9) by (rewrite ?length_app, ?length_be_bytes; done). done.
Qed.

Lemma tuple_rewrites a b c r :
  rewrite_tuple_xmin (x01 :: be_bytes 8 a ++ be_bytes 8 b ++ r) c = Ok (x01 :: be_bytes 8 c ++ be_bytes 8 b ++ r) ∧
  clear_tuple_xmax (x01 :: be_bytes 8 a ++ be_bytes 8 b ++ r) = Ok (x01 :: be_bytes 8 a ++ be_bytes 8 INVALID_XID ++ r).
Proof.
  assert (tuple_header (x01 :: be_bytes 8 a ++ be_bytes 8 b ++ r) = Ok tt) as Hh.
  { unfold tuple_header, TUPLE_HEADER.
    rewrite bool_decide_eq_false_2 by (cbn [length]; rewrite !length_app, !length_be_bytes; lia). done. }
  unfold rewrite_tuple_xmin, clear_tuple_xmax. rewrite Hh. by split.
Qed.

Lemma version_key_parts prefix xid :
  in_u 64 xid →
  xid_of_key (version_key prefix xid) = Ok xid ∧ row_prefix_of (version_key prefix xid) = Ok prefix.
Proof.
  intros Hx. unfold xid_of_key, row_prefix_of, version_key. rewrite length_app, length_be_bytes.
  rewrite bool_decide_eq_false_2 by lia. replace (length prefix + 8 - 8)%nat with (length prefix) by lia.
  rewrite drop_app_length, take_app_length. by rewrite be_value_bytes, wrap_u_id.
Qed.

Definition ts_state_ok (start : Z) (s : TsVersionState) : Prop :=
  match stamp s with Some c => start < c ∧ in_u 64 c | None => True end.

Lemma decode_ts_state_of start s : ts_state_ok start s → decode_ts_state (code s) start (default 0 (stamp s)) = Some s.
Proof.
  unfold ts_state_ok, decode_ts_state. destruct s as [|c| |c]; simpl; [done| |done|];
    intros [Hc _]; by rewrite (proj2 (Z.ltb_lt _ _)).
Qed.

Lemma decode_ts_parts start s bs :
  in_u 64 start → ts_state_ok start s →
  decode_ts_tuple (x02 :: byte_of_Z (code s) :: be_bytes 8 start ++ be_bytes 8 (default 0 (stamp s)) ++ bs) =
  (r ← decode_row bs; Ok (mkTsTuple start s r)).
Proof.
  intros Hs Hst. unfold decode_ts_tuple, TS_TUPLE_HEADER.
  rewrite bool_decide_eq_false_2 by (cbn [length]; rewrite !length_app, !length_be_bytes; lia).
  rewrite bool_decide_eq_true_2 by done. cbn [negb].
  change (x02 :: byte_of_Z (code s) :: be_bytes 8 start ++ be_bytes 8 (default 0 (stamp s)) ++ bs)
    with ([x02; byte_of_Z (code s)] ++ be_bytes 8 start ++ be_bytes 8 (default 0 (stamp s)) ++ bs).
  rewrite (field_at 2) by done.
  assert (in_u 64 (default 0 (stamp s))) as Hc.
  { unfold ts_state_ok in Hst. destruct (stamp s); [by destruct Hst|split; by vm_compute]. }
  rewrite app_assoc, (field_at 10) by (rewrite ?length_app, ?length_be_bytes; done).
  rewrite (app_assoc _ (be_bytes 8 (default 0 (stamp s)))).
  assert (be_value (take 1 (drop 1 ((([x02; byte_of_Z (code s)] ++ be_bytes 8 start) ++ be_bytes 8 (default 0 (stamp s))) ++ bs)))
    = code s) as -> by (destruct s; by vm_compute).
  rewrite drop_app_length' by (rewrite !length_app, !length_be_bytes; done).
  by rewrite decode_ts_state_of.
Qed.

(** What is written is read back.  A stored tuple gives its header, and the row
    that decoding the row's bytes gives, errors included; freezing it replaces the
    creator and clearing it the deleter, and nothing else; a version stamped with
    timestamps gives its state; the key of a version gives the row and the
    transaction it belongs to. *)
Theorem tuples_roundtrip xmin xmax start s r prefix :
  in_u 64 xmin → in_u 64 xmax → in_u 64 start → ts_state_ok start s →
  let read A (f : Row → A) : result KvError A := r' ← decode_row (encode_row r); Ok (f r') in
  decode_tuple (encode_tuple xmin xmax r) = read _ (fun r' => (xmin, xmax, r')) ∧
  (freeze_tuple_xmin (encode_tuple xmin xmax r) ≫= decode_tuple) = read _ (fun r' => (FROZEN_XID, xmax, r')) ∧
  (clear_tuple_xmax (encode_tuple xmin xmax r) ≫= decode_tuple) = read _ (fun r' => (xmin, INVALID_XID, r')) ∧
  decode_ts_tuple (encode_ts_tuple start s r) = read _ (fun r' => mkTsTuple start s r') ∧
  xid_of_key (version_key prefix xmin) = Ok xmin ∧ row_prefix_of (version_key prefix xmin) = Ok prefix.
Proof.
  intros Ha Hb Hs Hst. unfold encode_tuple, freeze_tuple_xmin.
  destruct (tuple_rewrites xmin xmax FROZEN_XID (encode_row r)) as [-> ->]. cbn [mbind result_bind].
  rewrite !decode_tuple_parts by (done || split; by vm_compute).
  destruct (version_key_parts prefix xmin Ha) as [-> ->]. split_and!; try done. by apply decode_ts_parts.
Qed.
End Tuples.

(** A codec of rows of a single byte string. *)
Definition bytes_codec : RowCodec :=
  {| Row := list byte; encode_row r := x01 :: r;
     decode_row bs := match bs with x01 :: r => Ok r | _ => Err (CorruptRow "unknown row version") end |}.
Lemma tuples_roundtrip_witness :
  @decode_tuple bytes_codec (@encode_tuple bytes_codec 7 9 [x61]) = Ok (7, 9, [x61]) ∧
  ts_state_ok 5 (TsDeleted 8) ∧
  @decode_ts_tuple bytes_codec (@encode_ts_tuple bytes_codec 5 (TsDeleted 8) [x61]) =
    Ok (@mkTsTuple bytes_codec 5 (TsDeleted 8) [x61]).
Proof.
  assert (ts_state_ok 5 (TsDeleted 8)) as Hst by (split; [done|split; by vm_compute]).
  assert (∀ z, bool_decide (in_u 64 z) = true → in_u 64 z) as Hu by (intros z; apply bool_decide_eq_true_1).
  destruct (@tuples_roundtrip bytes_codec 7 9 5 (TsDeleted 8) [x61] []) as (H1 & _ & _ & H4 & _);
    [by apply Hu; vm_compute..|done|]. split; [exact H1|]. split; [exact Hst|exact H4].
Defined.

(** ** Reads at a timestamp survive the removal of old versions *)
(** [s] is a newest version among those stamped at or below [ts]. *)
Definition resolves (versions : list TsVersionState) (ts : Z) (s : TsVersionState) : Prop :=
  ∃ c, s ∈ versions ∧ stamp s = Some c ∧ c ≤ ts ∧
       ∀ s' c', s' ∈ versions → stamp s' = Some c' → c' ≤ ts → c' ≤ c.
Definition survivors (dead : list nat) (versions : list TsVersionState) : list TsVersionState :=
  (filter (fun p => p.1 ∉ dead) (imap pair versions)).*2.

Lemma elem_of_survivors dead versions s :
  s ∈ survivors dead versions ↔ ∃ i, versions !! i = Some s ∧ i ∉ dead.
Proof.
  unfold survivors. rewrite list_elem_of_fmap. setoid_rewrite list_elem_of_filter.
  setoid_rewrite elem_of_lookup_imap. split.
  - intros ([j t] & -> & Hd & i & t' & [= -> ->] & Hi). by exists i.
  - intros (i & Hi & Hd). exists (i, s). split_and!; [done..|]. by exists i, s.
Qed.

Lemma fold_max_spec c cs : foldl Z.max c cs ∈ c :: cs ∧ Forall (fun x => x ≤ foldl Z.max c cs) (c :: cs).
Proof.
  revert c. induction cs as [|d cs IH]; intros c; simpl; [split; [by left|by repeat constructor]|].
  destruct (IH (Z.max c d)) as [Hin Hall]. apply Forall_cons in Hall as [Hm Hall]. split.
  - apply elem_of_cons in Hin as [->|?]; [|by do 2 right]. destruct (Z.max_spec c d) as [[_ ->]|[_ ->]]; [right; left|left].
  - repeat (constructor; [lia|]). done.
Qed.

Lemma newest_covered_spec versions floor newest :
  newest_covered versions floor = Some newest → newest ≤ floor ∧ ∃ s, s ∈ versions ∧ stamp s = Some newest.
Proof.
  unfold newest_covered. destruct (filter _ (omap stamp versions)) as [|c cs] eqn:Hf; [done|]. intros [= <-].
  destruct (fold_max_spec c cs) as [Hin _]. rewrite <- Hf, list_elem_of_filter, list_elem_of_omap in Hin.
  destruct Hin as [? (s & ? & ?)]. split; [done|]. by exists s.
Qed.

(** What is dead has a newer version at or below the floor. *)
Lemma dead_index versions floor cap i :
  i ∈ ts_dead_version_indices versions floor cap →
  ∃ s c newest, versions !! i = Some s ∧ stamp s = Some c ∧ c < newest ∧ newest_covered versions floor = Some newest.
Proof.
  unfold ts_dead_version_indices. destruct (newest_covered versions floor) as [newest|] eqn:Hn; [|by intros ?%not_elem_of_nil].
  rewrite list_elem_of_fmap. intros ([c j] & -> & Hin%elem_of_take). destruct Hin as (k & Hk & _).
  apply list_elem_of_lookup_2 in Hk. rewrite (merge_sort_Permutation stamp_le), list_elem_of_omap in Hk.
  destruct Hk as ([j' s] & (k' & s' & [= -> ->] & Hs)%elem_of_lookup_imap & Hb). unfold stamped_below in Hb. simpl in Hb.
  destruct (stamp s') as [c'|] eqn:Hc; [|done]. destruct (Z.ltb_spec c' newest); [|done]. injection Hb as -> ->.
  by exists s', c, newest.
Qed.

Lemma survivors_resolve versions floor cap ts s :
  floor ≤ ts →
  resolves (survivors (ts_dead_version_indices versions floor cap) versions) ts s ↔ resolves versions ts s.
Proof.
  intros Hts. set (dead := ts_dead_version_indices versions floor cap).
  assert (∀ t c, t ∈ versions → stamp t = Some c →
    t ∈ survivors dead versions ∨ ∃ n t', t' ∈ survivors dead versions ∧ stamp t' = Some n ∧ c < n ∧ n ≤ ts) as Hsplit.
  { intros t c [i Hi]%list_elem_of_lookup_1 Hc. destruct (decide (i ∈ dead)) as [Hd|Hd].
    2:{ left. apply elem_of_survivors. by exists i. }
    right. apply dead_index in Hd as (t0 & c0 & n & Hi' & Hc' & Hlt & Hn). simplify_eq.
    destruct (newest_covered_spec _ _ _ Hn) as (Hf & t' & [j Hj]%list_elem_of_lookup_1 & Ht').
    exists n, t'. split_and!; [|done|done|lia]. apply elem_of_survivors. exists j. split; [done|].
    intros Hd. apply dead_index in Hd as (t1 & c1 & n1 & Hj' & Hc1 & Hlt1 & Hn1). simplify_eq. lia. }
  assert (∀ t, t ∈ survivors dead versions → t ∈ versions) as Hsub.
  { intros t (i & Hi & _)%elem_of_survivors. by eapply list_elem_of_lookup_2. }
  split; intros (c & Hs & Hc & Hle & Hmax).
  - exists c. split_and!; [by apply Hsub|done|done|]. intros t c' Ht Hc' Hle'.
    destruct (Hsplit t c' Ht Hc') as [?|(n & t' & Ht' & Hn & ? & ?)]; [by eapply Hmax|].
    specialize (Hmax t' n Ht' Hn ltac:(lia)). lia.
  - exists c. split_and!; [|done|done|intros t c' Ht; by apply Hmax, Hsub].
    destruct (Hsplit s c Hs Hc) as [?|(n & t' & Ht' & Hn & ? & ?)]; [done|].
    specialize (Hmax t' n (Hsub _ Ht') Hn ltac:(lia)). lia.
Qed.

(** *** Pins *)
Definition no_pins : GcHorizon := mkHorizon ∅ 0 0.
Definition open_gc (durable : Z) (cap : nat) : TsVersionGc := mkTsGc no_pins durable cap [].
(** What happens to the collector of one engine. [Applied n] is the engine's own
    [n]th batch in flight reaching the store, in any order; [Replicated f] is a batch
    another leader built reaching it; [Reopened] is a restart. *)
Inductive GcOp : Type :=
| PinRead (read_ts : Z)
| Unpin (read_ts : Z)
| Prune (closed : Z) (rows : list (list TsVersionState))
| Applied (n : nat)
| Replicated (f : Z)
| Reopened.
Definition apply_gc_op (g : TsVersionGc) (op : GcOp) : TsVersionGc :=
  match op with
  | PinRead v => (pin_read v g).1
  | Unpin v => set_floor (unpin v (floor g)) g
  | Prune c rows => (prune_batch_ops c rows g).1
  | Applied n =>
      match in_flight g !! n with
      | Some f => mkTsGc (floor g) f (prune_row_version_cap g) (in_flight g)
      | None => g
      end
  | Replicated f => mkTsGc (floor g) f (prune_row_version_cap g) (in_flight g)
  | Reopened => open_gc (durable_reclaim_floor g) (prune_row_version_cap g)
  end.
(** No batch of another leader carries a floor above [v]. *)
Definition replicated_below (v : Z) (ops : list GcOp) : Prop := ∀ f, Replicated f ∈ ops → f ≤ v.
Definition held_at (v : Z) (g : TsVersionGc) : Prop :=
  Forall (fun f => f ≤ reclaim_floor (floor g)) (in_flight g) ∧
  (is_Some (pins (floor g) !! v) → reclaim_floor (floor g) ≤ v ∧ durable_reclaim_floor g ≤ v).

Lemma min_pinned_spec h :
  match min_pinned h with
  | Some m => is_Some (pins h !! m) ∧ ∀ v, is_Some (pins h !! v) → m ≤ v
  | None => pins h = ∅
  end.
Proof.
  unfold min_pinned. pose proof (entries_perm (pins h)) as Hp.
  assert (StronglySorted key_le (entries (pins h))) as Hs.
  { apply StronglySorted_merge_sort; [intros p q r; unfold key_le; lia|intros p q; unfold key_le; lia]. }
  destruct (entries (pins h)) as [|[m n] es]; simpl.
  - apply map_to_list_empty_iff. by apply Permutation_nil.
  - apply StronglySorted_inv in Hs as [_ Hm]. assert (∀ v k, pins h !! v = Some k → (v, k) ∈ (m, n) :: es) as Hin.
    { intros v k Hv. rewrite Hp. by apply elem_of_map_to_list. }
    split.
    + exists n. apply elem_of_map_to_list. rewrite <- Hp. by left.
    + intros v [k Hk%Hin]. apply elem_of_cons in Hk as [[= -> ->]|Hk]; [done|]. rewrite Forall_forall in Hm.
      apply (Hm _ Hk).
Qed.

Lemma pins_unpin v h w : is_Some (pins (unpin v h) !! w) → is_Some (pins h !! w).
Proof.
  unfold unpin. destruct (pins h !! v) as [[|[|n]]|] eqn:Hv; simpl; [| | |done].
  1,2: intros [k [_ Hk]%lookup_delete_Some]; by exists k.
  rewrite lookup_insert_is_Some. intros [<-|[_ Hw]]; [by eexists|done].
Qed.

Lemma raise_le_pin c h v :
  is_Some (pins h !! v) → reclaim_floor h ≤ v → reclaim_floor (raise_reclaim_floor c h) ≤ v.
Proof.
  intros Hw Hle. simpl. pose proof (min_pinned_spec h) as Hm.
  destruct (min_pinned h) as [m|]; [destruct Hm as [_ Hm]; specialize (Hm v Hw); lia|].
  rewrite Hm, lookup_empty in Hw. by destruct Hw.
Qed.

Lemma in_flight_mono (fs : list Z) a b : Forall (fun f => f ≤ a) fs → a ≤ b → Forall (fun f => f ≤ b) fs.
Proof. intros Hf Hab. eapply Forall_impl; [exact Hf|]. simpl. lia. Qed.

Lemma observed_held v g : held_at v g → held_at v (observed_floor g).
Proof.
  intros [Hf Hp]. split; [eapply in_flight_mono; [exact Hf|simpl; lia]|].
  simpl. intros Hv. specialize (Hp Hv). lia.
Qed.

Lemma prune_held v c rows g : held_at v g → held_at v (prune_batch_ops c rows g).1.
Proof.
  intros [Hf Hp]%observed_held. unfold prune_batch_ops. set (o := observed_floor g) in *.
  set (h := raise_reclaim_floor c (floor o)).
  assert (reclaim_floor (floor o) ≤ reclaim_floor h) as Hup by (simpl; lia).
  assert (is_Some (pins h !! v) → reclaim_floor h ≤ v ∧ durable_reclaim_floor o ≤ v) as Hh.
  { intros Hv. destruct (Hp Hv). split; [by apply raise_le_pin|done]. }
  pose proof (in_flight_mono _ _ _ Hf Hup) as Hf'.
  destruct (forallb _ _); (split; [|exact Hh]); [exact Hf'|]. by constructor; [simpl; lia|].
Qed.

Lemma gc_op_held v g op : replicated_below v [op] → held_at v g → held_at v (apply_gc_op g op).
Proof.
  intros Hr Hh. destruct op as [w|w|c rows|n|f|]; simpl.
  - unfold pin_read. destruct (observed_held _ _ Hh) as [Hf Hp]. unfold pin_above.
    destruct (Z.ltb_spec w (reclaim_floor (floor (observed_floor g)))) as [|Hw]; [by split|].
    split; [done|]. simpl. rewrite lookup_insert_is_Some. intros [<-|[_ Hv]]; [simpl in Hw; lia|by apply Hp].
  - destruct Hh as [Hf Hp]. assert (reclaim_floor (unpin w (floor g)) = reclaim_floor (floor g)) as Hu.
    { unfold unpin. by repeat case_match. }
    split; simpl; rewrite Hu; [done|]. intros Hv%pins_unpin. by apply Hp.
  - by apply prune_held.
  - destruct (in_flight g !! n) as [f|] eqn:Hn; [|done]. destruct Hh as [Hf Hp]. split; [done|]. simpl. intros Hv.
    pose proof (Forall_lookup_1 _ _ _ _ Hf Hn) as Hl. simpl in Hl. destruct (Hp Hv). lia.
  - destruct Hh as [Hf Hp]. split; [done|]. simpl. intros Hv. destruct (Hp Hv). split; [done|]. apply Hr. by left.
  - split; [by constructor|]. simpl. rewrite lookup_empty. by intros [? ?].
Qed.

Lemma gc_ops_held v ops g : replicated_below v ops → held_at v g → held_at v (foldl apply_gc_op g ops).
Proof.
  revert g. induction ops as [|op ops IH]; intros g Hr Hg; [done|]. apply IH; [intros f Hf; apply Hr; by right|].
  apply gc_op_held; [|done]. intros f Hf%list_elem_of_singleton. apply Hr. rewrite Hf. by left.
Qed.

(** C29. Take an engine opened on any durable reclaim floor and any sequence of read
    pins, unpins, prunes, batches applied in any order, batches of another leader and
    restarts, in which no batch of another leader carries a floor above [v]. If a
    read at [v] is pinned at the end, then deleting what is dead below the current
    floor, or below the floor of any batch still in flight, leaves it resolving every
    version chain to the same version. The condition on other leaders' batches is
    needed: [observe_reclaim_floor] folds a durable floor in without looking at the pins. *)
Theorem pinned_reads_survive durable ops versions cap v f s :
  let g := foldl apply_gc_op (open_gc durable cap) ops in
  replicated_below v ops → is_Some (pins (floor g) !! v) → f ∈ reclaim_floor (floor g) :: in_flight g →
  resolves (survivors (ts_dead_version_indices versions f cap) versions) v s ↔ resolves versions v s.
Proof.
  intros g Hr Hv Hf. apply survivors_resolve. assert (held_at v g) as [Hin Hp].
  { apply gc_ops_held; [done|]. split; [by constructor|]. simpl. rewrite lookup_empty. by intros [? ?]. }
  destruct (Hp Hv) as [Hle _]. apply elem_of_cons in Hf as [->|Hf]; [done|].
  rewrite Forall_forall in Hin. specialize (Hin f Hf). simpl in Hin. lia.
Qed.

Lemma pinned_reads_survive_witness :
  ∃ ops versions, let g := foldl apply_gc_op (open_gc 2 10) ops in
  is_Some (pins (floor g) !! 7) ∧ in_flight g = [7] ∧ durable_reclaim_floor g = 7 ∧
  ts_dead_version_indices versions 7 10 = [0%nat] ∧
  (resolves (survivors (ts_dead_version_indices versions 7 10) versions) 7 (TsCommitted 6) ↔
   resolves versions 7 (TsCommitted 6)).
Proof.
  exists [Replicated 5; PinRead 3; PinRead 9; PinRead 7; Prune 20 [[TsCommitted 3; TsCommitted 6]]; Applied 0; PinRead 8],
    [TsCommitted 3; TsCommitted 6; TsCommitted 8].
  split; [by exists 1%nat|]. split; [by vm_compute|]. split; [by vm_compute|]. split; [by vm_compute|].
  apply (pinned_reads_survive 2
    [Replicated 5; PinRead 3; PinRead 9; PinRead 7; Prune 20 [[TsCommitted 3; TsCommitted 6]]; Applied 0; PinRead 8]).
  - intros f Hf. repeat (apply elem_of_cons in Hf as [Hf|Hf]; [try discriminate Hf; injection Hf as ->; lia|]).
    by apply not_elem_of_nil in Hf.
  - by exists 1%nat.
  - by left.
Defined.
