(* ===== verification/MvccEngine.v ===== *)
(** * Transactions, snapshots and vacuum at work

    Models [crates/pgexec/src/procarray.rs], the registry of running transactions;
    the garbage horizon, the vacuum cycle and the truncation of the commit log of
    [crates/pgexec/src/lib.rs]; the stamping of row versions by writers
    ([eval_plan_qual] and [apply_locked_row_update] of [crates/pgexec/src/exec.rs]);
    and how sessions, writers and vacuum use them and the parts of [Mvcc.v] side by
    side.  The registry is locked for each call and nothing else is, so every read
    and every write of shared state is a step of its own; what a writer or vacuum
    does to one row under the row's lock is one step.  The engine is the local one,
    [PersistMode::Durable], the only one that vacuums.  The undo of a rollback to a
    savepoint is not a step. *)

From S2P Require Import Prelude Wire LogIndex Mvcc.
Import Clog.

(** ** The registry of running transactions *)
Module ProcArray.
Inductive PersistMode : Type := Durable | Replicated.
(** [persisted] is the counter on disk. *)
Record ProcArray : Type := mkProcs {
  next_xid : Z;
  durable_end : Z;
  running : gset Z;
  persisted : option Z;
}.
Definition seed (persisted : option Z) : Z := first_allocatable_xid_at_or_after (default FIRST_NORMAL_XID persisted).
Definition open (persisted : option Z) : ProcArray := mkProcs (seed persisted) (seed persisted) ∅ persisted.
(** [None] when the counter leaves a [u64]. *)
Definition begin_write (mode : PersistMode) (block : Z) (p : ProcArray) : option (ProcArray * Z) :=
  let xid := first_allocatable_xid_at_or_after (next_xid p) in
  let new_next := xid + 1 in
  if negb (bool_decide (in_u 64 new_next)) then None else
  match mode with
  | Durable =>
      if durable_end p <? new_next then
        let new_end := new_next + block in
        if negb (bool_decide (in_u 64 new_end)) then None
        else Some (mkProcs new_next new_end ({[xid]} ∪ running p) (Some new_end), xid)
      else Some (mkProcs new_next (durable_end p) ({[xid]} ∪ running p) (persisted p), xid)
  | Replicated => Some (mkProcs new_next new_next ({[xid]} ∪ running p) (persisted p), xid)
  end.
Definition reseed_from_applied (p : ProcArray) : ProcArray :=
  let durable := seed (persisted p) in
  mkProcs (Z.max (first_allocatable_xid_at_or_after (next_xid p)) durable) (Z.max (durable_end p) durable)
    (running p) (persisted p).
Definition snapshot (p : ProcArray) : Snapshot :=
  let xip := merge_sort Z.le (elements (running p)) in
  mkSnapshot (default (next_xid p) (head xip)) (next_xid p) xip.
Definition finish (xid : Z) (p : ProcArray) : ProcArray :=
  mkProcs (next_xid p) (durable_end p) (running p ∖ {[xid]}) (persisted p).
End ProcArray.
Import ProcArray.

(** ** The garbage horizon *)
Definition horizon_cap (active_xmin : Z) (g : GcHorizon) : Z :=
  match min_pinned g with Some m => Z.min m active_xmin | None => active_xmin end.
(** The first transaction without an outcome, in the order of the keys. *)
Fixpoint first_undecided (es : list (Z * list byte)) : result KvError (option Z) :=
  match es with
  | [] => Ok None
  | (xid, value) :: es =>
      st ← decode value;
      match st with
      | InProgress | Prepared _ => Ok (Some xid)
      | Committed | Aborted => first_undecided es
      end
  end.
Definition horizon_scan (cap scan_lo : Z) (kv : gmap Z (list byte)) (g : GcHorizon) : result KvError (Z * GcHorizon) :=
  let lo := Z.min (Z.max (Z.max scan_lo FIRST_NORMAL_XID) (decided_floor g)) cap in
  found ← first_undecided (filter (fun e => lo ≤ e.1 < cap) (entries kv));
  let h := match found with Some xid => Z.min xid cap | None => cap end in
  Ok (h, advance_decided_floor h g).
(** [scan_lo] is the durable watermark of the recovery scan. *)
Definition checkpoint_garbage_horizon (p : ProcArray) (scan_lo : Z) (kv : gmap Z (list byte)) (g : GcHorizon) :
    result KvError (Z * GcHorizon) :=
  horizon_scan (horizon_cap (s_xmin (snapshot p)) g) scan_lo kv g.
Definition vacuum_stamp_is_clearable (xmax horizon : Z) (status : Z → result KvError XidStatus) : result KvError bool :=
  if xmax =? INVALID_XID then Ok false else
  st ← status xmax;
  Ok (match st with
      | Aborted => true
      | InProgress => xmax <? horizon
      | Committed | Prepared _ => false
      end).

Definition freezable (horizon xmin : Z) (status : Z → result KvError XidStatus) : result KvError bool :=
  if (xmin =? FROZEN_XID) || (horizon <=? xmin) then Ok false else
  st ← status xmin;
  Ok (bool_decide (st = Committed)).
(** The lock-free look at one version: [None] when there is nothing to do, and
    whether its stamp is to be cleared otherwise. *)
Definition sweep_candidate (horizon : Z) (status : Z → result KvError XidStatus) (v : Z * Z) :
    result KvError (option bool) :=
  dead ← version_is_dead v.1 v.2 horizon status;
  if dead : bool then Ok (Some false) else
  frozen ← freezable horizon v.1 status;
  clearable ← vacuum_stamp_is_clearable v.2 horizon status;
  Ok (if frozen || clearable then Some clearable else None).
(** What the locked sweep makes of one version: [None] removes it. *)
Definition sweep_version (horizon : Z) (clear : bool) (status : Z → result KvError XidStatus) (v : Z * Z) :
    result KvError (option (Z * Z)) :=
  dead ← version_is_dead v.1 v.2 horizon status;
  if dead : bool then Ok None else
  frozen ← freezable horizon v.1 status;
  cleared ← (if clear then vacuum_stamp_is_clearable v.2 horizon status else Ok false);
  Ok (Some (if frozen : bool then FROZEN_XID else v.1, if cleared : bool then INVALID_XID else v.2)).
(** The batches of deletes: 4096 keys each, the rest in a last one. *)
Fixpoint clog_batches (batch keys : list Z) : list (list Z) :=
  match keys with
  | [] => if (length batch =? 0)%nat then [] else [batch]
  | key :: keys =>
      let batch := batch ++ [key] in
      if (length batch =? 4096)%nat then batch :: clog_batches [] keys else clog_batches batch keys
  end.
Definition truncate_clog_below (horizon : Z) (kv : gmap Z (list byte)) : list (list Z) :=
  clog_batches [] (filter (fun x => 0 ≤ x < horizon) (entries kv).*1).
Definition advance_clog_scan_lo (lo scan_lo : Z) : Z := if lo <=? scan_lo then scan_lo else lo.

(** ** Writing *)
Definition snapshot_can_see (s : Snapshot) (xid : Z) : bool :=
  (xid <? s_xmax s) && negb (bool_decide (xid ∈ xip s)).
(** The deleter of a version committed, and the statement's snapshot does not see it. *)
Definition changed_since_snapshot (s : Snapshot) (xid : Z) (status : Z → result KvError XidStatus) (v : Z * Z) : bool :=
  negb (v.2 =? INVALID_XID) && negb (v.2 =? xid)
  && (match status v.2 with Ok Committed => true | _ => false end) && negb (snapshot_can_see s v.2).

(** ** Sessions, writers and collectors side by side *)

(** A session reads the oldest running transaction, pins it, and takes its
    snapshots under the pin. *)
Inductive Session : Type :=
| Preparing (v : Z)
| PinnedAt (v : Z)
| Reading (v : Z) (s : Snapshot).
(** A collector computes a horizon in three steps and then removes versions. *)
Inductive Collector : Type :=
| ActiveAt (xmin : Z)
| CappedAt (cap : Z)
| Collecting (h : Z).
(** The vacuum cycle: its floor, the horizon of the step at work, the versions that
    it has not dealt with, and the candidates with whether they need a clear. *)
Inductive Sweep : Type :=
| Idle
| Sweeping (cycle_floor horizon : Z) (todo : gset nat) (candidates : gmap nat bool)
| Truncating (cycle_floor : Z) (batches : list (list Z)).
(** [rows] is the versions in the store, by number; [history] records every outcome
    and loses none: no operation reads it. *)
Record Engine : Type := mkEngine {
  procs : ProcArray;
  clog : gmap Z (list byte);
  gc : GcHorizon;
  sessions : gmap nat Session;
  collectors : gmap nat Collector;
  pruned : list (nat * (Z * Z));
  handed : list Z;
  rows : gmap nat (Z * Z);
  next_row : nat;
  scan_lo : Z;
  sweep : Sweep;
  history : gmap Z (list byte);
}.
Definition set_procs (v : ProcArray) (σ : Engine) : Engine :=
  mkEngine v (clog σ) (gc σ) (sessions σ) (collectors σ) (pruned σ) (handed σ) (rows σ) (next_row σ) (scan_lo σ) (sweep σ) (history σ).
Definition set_clog (v : gmap Z (list byte)) (σ : Engine) : Engine :=
  mkEngine (procs σ) v (gc σ) (sessions σ) (collectors σ) (pruned σ) (handed σ) (rows σ) (next_row σ) (scan_lo σ) (sweep σ) (history σ).
Definition set_gc (v : GcHorizon) (σ : Engine) : Engine :=
  mkEngine (procs σ) (clog σ) v (sessions σ) (collectors σ) (pruned σ) (handed σ) (rows σ) (next_row σ) (scan_lo σ) (sweep σ) (history σ).
Definition set_sessions (v : gmap nat Session) (σ : Engine) : Engine :=
  mkEngine (procs σ) (clog σ) (gc σ) v (collectors σ) (pruned σ) (handed σ) (rows σ) (next_row σ) (scan_lo σ) (sweep σ) (history σ).
Definition set_collectors (v : gmap nat Collector) (σ : Engine) : Engine :=
  mkEngine (procs σ) (clog σ) (gc σ) (sessions σ) v (pruned σ) (handed σ) (rows σ) (next_row σ) (scan_lo σ) (sweep σ) (history σ).
Definition add_handed (v : Z) (σ : Engine) : Engine :=
  mkEngine (procs σ) (clog σ) (gc σ) (sessions σ) (collectors σ) (pruned σ) (v :: handed σ) (rows σ) (next_row σ) (scan_lo σ) (sweep σ) (history σ).
Definition set_rows (v : gmap nat (Z * Z)) (σ : Engine) : Engine :=
  mkEngine (procs σ) (clog σ) (gc σ) (sessions σ) (collectors σ) (pruned σ) (handed σ) v (next_row σ) (scan_lo σ) (sweep σ) (history σ).
Definition set_sweep (v : Sweep) (σ : Engine) : Engine :=
  mkEngine (procs σ) (clog σ) (gc σ) (sessions σ) (collectors σ) (pruned σ) (handed σ) (rows σ) (next_row σ) (scan_lo σ) v (history σ).
Definition set_scan_lo (v : Z) (σ : Engine) : Engine :=
  mkEngine (procs σ) (clog σ) (gc σ) (sessions σ) (collectors σ) (pruned σ) (handed σ) (rows σ) (next_row σ) v (sweep σ) (history σ).
(** The outcome of [xid] is written, once. *)
Definition decided (xid : Z) (st : XidStatus) (σ : Engine) : Engine :=
  mkEngine (procs σ) (<[xid := put_value st]> (clog σ)) (gc σ) (sessions σ) (collectors σ) (pruned σ) (handed σ)
    (rows σ) (next_row σ) (scan_lo σ) (sweep σ) (<[xid := put_value st]> (history σ)).
Definition add_row (v : Z * Z) (σ : Engine) : Engine :=
  mkEngine (procs σ) (clog σ) (gc σ) (sessions σ) (collectors σ) (pruned σ) (handed σ)
    (<[next_row σ := v]> (rows σ)) (S (next_row σ)) (scan_lo σ) (sweep σ) (history σ).
Definition prune_row (rid : nat) (v : Z * Z) (σ : Engine) : Engine :=
  mkEngine (procs σ) (clog σ) (gc σ) (sessions σ) (collectors σ) ((rid, v) :: pruned σ) (handed σ)
    (delete rid (rows σ)) (next_row σ) (scan_lo σ) (sweep σ) (history σ).
Definition put_swept (rid : nat) (v : Z * Z) (v' : option (Z * Z)) (σ : Engine) : Engine :=
  match v' with Some w => set_rows (<[rid := w]> (rows σ)) σ | None => prune_row rid v σ end.

Definition xmin_of (σ : Engine) : Z := s_xmin (snapshot (procs σ)).
Definition pin_of (s : Session) : option Z :=
  match s with Preparing _ => None | PinnedAt v | Reading v _ => Some v end.
(** A vacuum step joins the cycle under way or starts one. *)
Definition vacuum_step (h : Z) (σ : Engine) : Engine :=
  match sweep σ with
  | Idle => set_sweep (Sweeping h h (dom (rows σ)) ∅) σ
  | Sweeping f _ todo _ => set_sweep (Sweeping (Z.min f h) h todo ∅) σ
  | Truncating _ _ => σ
  end.
(** [s] is the snapshot a write resolves its row with: the statement's own, unless a
    deleter it does not see has committed, or else a fresh one. *)
Definition stampable (σ : Engine) (xid : Z) (s : Snapshot) (v : Z * Z) : Prop :=
  s = snapshot (procs σ) ∨ changed_since_snapshot s xid (get (clog σ)) v = false.

Section Steps.
Context {search : BinarySearch} (block : Z).

Inductive step (σ : Engine) : Engine → Prop :=
| step_begin p xid :
    begin_write Durable block (procs σ) = Some (p, xid) → step σ (add_handed xid (set_procs p σ))
| step_decide xid st :
    xid ∈ running (procs σ) → clog σ !! xid = None → st = Committed ∨ st = Aborted → step σ (decided xid st σ)
| step_finish xid : step σ (set_procs (finish xid (procs σ)) σ)
| step_insert xid :
    xid ∈ running (procs σ) → clog σ !! xid = None → step σ (add_row (xid, INVALID_XID) σ)
| step_stamp xid rid v s :
    xid ∈ running (procs σ) → clog σ !! xid = None → rows σ !! rid = Some v →
    StronglySorted Z.le (xip s) → stampable σ xid s v → (v.2 ∈ running (procs σ) → v.2 = xid) →
    satisfies_mvcc v.1 v.2 s (Some xid) (get (clog σ)) = Ok true →
    step σ (set_rows (<[rid := (v.1, xid)]> (rows σ)) σ)
| step_prepare i :
    sessions σ !! i = None → step σ (set_sessions (<[i := Preparing (xmin_of σ)]> (sessions σ)) σ)
| step_pin i v :
    sessions σ !! i = Some (Preparing v) →
    step σ (set_gc (pin v (gc σ)) (set_sessions (<[i := PinnedAt v]> (sessions σ)) σ))
| step_snapshot i v s :
    sessions σ !! i = Some s → pin_of s = Some v →
    step σ (set_sessions (<[i := Reading v (snapshot (procs σ))]> (sessions σ)) σ)
| step_release i v s :
    sessions σ !! i = Some s → pin_of s = Some v →
    step σ (set_gc (unpin v (gc σ)) (set_sessions (delete i (sessions σ)) σ))
| step_active k :
    collectors σ !! k = None → step σ (set_collectors (<[k := ActiveAt (xmin_of σ)]> (collectors σ)) σ)
| step_cap k a :
    collectors σ !! k = Some (ActiveAt a) →
    step σ (set_collectors (<[k := CappedAt (horizon_cap a (gc σ))]> (collectors σ)) σ)
| step_horizon k cap h g :
    collectors σ !! k = Some (CappedAt cap) → horizon_scan cap (scan_lo σ) (clog σ) (gc σ) = Ok (h, g) →
    step σ (set_gc g (set_collectors (<[k := Collecting h]> (collectors σ)) σ))
| step_prune k h rid v :
    collectors σ !! k = Some (Collecting h) → rows σ !! rid = Some v →
    version_is_dead v.1 v.2 h (get (clog σ)) = Ok true → step σ (prune_row rid v σ)
| step_vacuum k h : collectors σ !! k = Some (Collecting h) → step σ (vacuum_step h σ)
| step_scan f h todo cand rid v c :
    sweep σ = Sweeping f h todo cand → rows σ !! rid = Some v → sweep_candidate h (get (clog σ)) v = Ok c →
    step σ (set_sweep (match c with
                       | None => Sweeping f h (todo ∖ {[rid]}) cand
                       | Some needs_clear => Sweeping f h todo (<[rid := needs_clear]> cand)
                       end) σ)
| step_skip f h todo cand rid :
    sweep σ = Sweeping f h todo cand → rows σ !! rid = Some (FROZEN_XID, INVALID_XID) →
    step σ (set_sweep (Sweeping f h (todo ∖ {[rid]}) cand) σ)
| step_sweep f h todo cand rid v v' needs_clear clear :
    sweep σ = Sweeping f h todo cand → rows σ !! rid = Some v → cand !! rid = Some needs_clear →
    (needs_clear = true → clear = true) → sweep_version h clear (get (clog σ)) v = Ok v' →
    step σ (set_sweep (Sweeping f h (todo ∖ {[rid]}) cand) (put_swept rid v v' σ))
| step_swept f h todo cand :
    sweep σ = Sweeping f h todo cand → todo ## dom (rows σ) →
    step σ (set_sweep (Truncating f (truncate_clog_below f (clog σ))) σ)
| step_truncate f batch batches :
    sweep σ = Truncating f (batch :: batches) →
    step σ (set_sweep (Truncating f batches) (set_clog (foldr delete (clog σ) batch) σ))
| step_truncated f :
    sweep σ = Truncating f [] → step σ (set_sweep Idle (set_scan_lo (advance_clog_scan_lo f (scan_lo σ)) σ))
| step_abandon : step σ (set_sweep Idle σ)
| step_reseed : step σ (set_procs (reseed_from_applied (procs σ)) σ)
| step_stop k : step σ (set_collectors (delete k (collectors σ)) σ)
| step_restart :
    step σ (mkEngine (open (persisted (procs σ))) (clog σ) no_pins ∅ ∅ (pruned σ) (handed σ)
              (rows σ) (next_row σ) (scan_lo σ) Idle (history σ)).

Definition initial : Engine := mkEngine (open None) ∅ no_pins ∅ ∅ [] [] ∅ 0 0 Idle ∅.
Definition reachable (σ : Engine) : Prop := rtc step initial σ.

(** What a snapshot sees of a version in the store. *)
Definition sees (σ : Engine) (s : Snapshot) (own : option Z) (rid : nat) : result KvError bool :=
  match rows σ !! rid with
  | Some v => satisfies_mvcc v.1 v.2 s own (get (clog σ))
  | None => Ok false
  end.
(** In the step from [σ] to [σ'], [xid] creates version [rid] or becomes its deleter. *)
Definition writes (xid : Z) (rid : nat) (σ σ' : Engine) : Prop :=
  ∃ v, rows σ' !! rid = Some v ∧
    (v.1 = xid ∧ rows σ !! rid = None ∨ v.2 = xid ∧ ∀ w, rows σ !! rid = Some w → w.2 ≠ xid).
Definition undecided (σ : Engine) (own : option Z) : Prop :=
  ∀ x, own = Some x → x ∈ running (procs σ) ∧ clog σ !! x = None.
(** A step through which session [i] keeps its snapshot, its transaction stays open
    and does not itself write version [rid]. *)
Record quiet (i : nat) (v : Z) (s : Snapshot) (own : option Z) (rid : nat) (σ σ' : Engine) : Prop := {
  quiet_step : step σ σ';
  quiet_reading : sessions σ' !! i = Some (Reading v s);
  quiet_own : undecided σ' own;
  quiet_write x : own = Some x → ¬ writes x rid σ σ';
}.
End Steps.

#[local] Create HintDb mvcc.

(** ** Snapshots of the registry *)
Lemma xip_running p x : x ∈ xip (snapshot p) ↔ x ∈ running p.
Proof. simpl. by rewrite (merge_sort_Permutation Z.le), elem_of_elements. Qed.

Lemma xip_sorted p : StronglySorted Z.le (xip (snapshot p)).
Proof. apply (StronglySorted_merge_sort Z.le). Qed.

Lemma xmin_lower p x : x ∈ running p → s_xmin (snapshot p) ≤ x.
Proof.
  rewrite <- xip_running. pose proof (xip_sorted p) as Hs. unfold snapshot in *. simpl in *.
  destruct (merge_sort Z.le (elements (running p))) as [|y ys]; [by intros ?%not_elem_of_nil|]. simpl.
  apply StronglySorted_inv in Hs as [_ Hy]. intros [->|Hx]%elem_of_cons; [done|]. rewrite Forall_forall in Hy. by apply Hy.
Qed.

Lemma xmin_is p : s_xmin (snapshot p) = next_xid p ∨ s_xmin (snapshot p) ∈ running p.
Proof.
  rewrite <- (xip_running p (s_xmin (snapshot p))). unfold snapshot. simpl.
  destruct (merge_sort Z.le (elements (running p))) as [|y ys]; [by left|right; by left].
Qed.

Definition procs_ok (p : ProcArray) : Prop :=
  FIRST_NORMAL_XID ≤ next_xid p ≤ durable_end p ∧ seed (persisted p) = durable_end p ∧
  ∀ x, x ∈ running p → FIRST_NORMAL_XID ≤ x < next_xid p.

Lemma xmin_bounds p : procs_ok p → FIRST_NORMAL_XID ≤ s_xmin (snapshot p) ≤ next_xid p.
Proof. intros (H1 & _ & H2). destruct (xmin_is p) as [->|Hx]; [lia|]. specialize (H2 _ Hx). lia. Qed.

(** The registry moves on: no transaction starts below the counter. *)
Definition moves_on (p p' : ProcArray) : Prop :=
  procs_ok p' ∧ next_xid p ≤ next_xid p' ∧ ∀ x, x ∈ running p' → x ∈ running p ∨ next_xid p ≤ x.

Lemma moves_on_refl p : procs_ok p → moves_on p p.
Proof. intros Hp. split; [done|]. split; [done|]. tauto. Qed.

Lemma moves_on_xmin p p' : procs_ok p → moves_on p p' → s_xmin (snapshot p) ≤ s_xmin (snapshot p').
Proof.
  intros Hp (_ & Hn & Hr). pose proof (xmin_bounds p Hp). destruct (xmin_is p') as [->|Hx]; [lia|].
  destruct (Hr _ Hx) as [Hx'|?]; [by apply xmin_lower|lia].
Qed.

Lemma begin_moves_on block p p' xid :
  0 ≤ block → procs_ok p → begin_write Durable block p = Some (p', xid) → moves_on p p' ∧ xid = next_xid p ∧ xid < next_xid p'.
Proof.
  intros Hb ((H1 & H2) & Hs & Hr) H. unfold begin_write in H.
  assert (first_allocatable_xid_at_or_after (next_xid p) = next_xid p) as Hx.
  { unfold first_allocatable_xid_at_or_after. by rewrite (proj2 (Z.ltb_ge _ _)). }
  rewrite Hx in H. destruct (negb (bool_decide (in_u 64 (next_xid p + 1)))); [done|].
  assert (∀ x, x ∈ {[next_xid p]} ∪ running p → FIRST_NORMAL_XID ≤ x < next_xid p + 1) as Hall.
  { intros x [->%elem_of_singleton|Hx']%elem_of_union; [lia|]. specialize (Hr x Hx'). lia. }
  assert (∀ x, x ∈ {[next_xid p]} ∪ running p → x ∈ running p ∨ next_xid p ≤ x) as Hnew.
  { intros x [->%elem_of_singleton|?]%elem_of_union; [right; lia|by left]. }
  destruct (Z.ltb_spec (durable_end p) (next_xid p + 1)) as [Hlt|Hge].
  - destruct (negb (bool_decide (in_u 64 (next_xid p + 1 + block)))); [done|]. injection H as <- <-.
    split; [|simpl; lia]. split_and!; simpl; [|lia|done]. split_and!; simpl; [lia|lia| |done].
    unfold seed, first_allocatable_xid_at_or_after. simpl. by rewrite (proj2 (Z.ltb_ge _ _)) by lia.
  - injection H as <- <-. split; [|simpl; lia]. split_and!; simpl; [|lia|done]. split_and!; simpl; [lia|lia|done|done].
Qed.

Lemma finish_moves_on p xid : procs_ok p → moves_on p (finish xid p).
Proof.
  intros (H1 & Hs & Hr). split_and!; simpl; [|lia|set_solver]. split_and!; simpl; [lia|lia|done|].
  intros x [Hx _]%elem_of_difference. by apply Hr.
Qed.

Lemma reseed_moves_on p : procs_ok p → moves_on p (reseed_from_applied p).
Proof.
  intros ((H1 & H2) & Hs & Hr). unfold reseed_from_applied, first_allocatable_xid_at_or_after.
  rewrite Hs, (proj2 (Z.ltb_ge _ _)) by done. split_and!; simpl; [|lia|tauto].
  split_and!; simpl; [lia|lia|lia|]. intros x Hx%Hr. lia.
Qed.

Lemma restart_moves_on p : procs_ok p → moves_on p (open (persisted p)).
Proof.
  intros ((H1 & H2) & Hs & Hr). split_and!; simpl; [|lia|set_solver].
  split_and!; simpl; [lia|lia|done|set_solver].
Qed.

(** ** What a snapshot sees does not change *)
Section Safety.
Context {search : BinarySearch} (block : Z).
Hypothesis block_ok : 0 ≤ block.

Lemma is_running_iff s x : StronglySorted Z.le (xip s) → is_running s x = true ↔ s_xmax s ≤ x ∨ x ∈ xip s.
Proof.
  intros Hs. unfold is_running. rewrite orb_true_iff, Z.leb_le. apply or_iff_compat_l.
  destruct (binary_search (xip s) x) as [i|i] eqn:Hb.
  - apply binary_search_found in Hb; [|done]. split; [|done]. intros _. by eapply list_elem_of_lookup_2.
  - apply binary_search_missing in Hb as [Hlo Hhi]; [|done]. split; [done|]. intros [j Hj]%list_elem_of_lookup_1.
    destruct (decide (j < i)%nat) as [Hlt|Hge]; [specialize (Hlo j x Hj Hlt)|specialize (Hhi j x Hj ltac:(lia))]; lia.
Qed.

(** [s] was taken of the registry [p] or of an earlier state of it. *)
Record snapshot_of (p : ProcArray) (s : Snapshot) : Prop := {
  so_sorted : StronglySorted Z.le (xip s);
  so_lower x : x ∈ xip s → s_xmin s ≤ x;
  so_bounds : FIRST_NORMAL_XID ≤ s_xmin s ≤ s_xmax s ∧ s_xmax s ≤ next_xid p;
  so_settled x : x < s_xmax s → x ∉ xip s → x ∉ running p;
}.

Lemma snapshot_of_now p : procs_ok p → snapshot_of p (snapshot p).
Proof.
  intros Hp. pose proof (xmin_bounds p Hp). split.
  - apply xip_sorted.
  - intros x Hx%xip_running. by apply xmin_lower.
  - simpl in *. lia.
  - intros x _ Hx. by rewrite <- xip_running.
Qed.

Lemma snapshot_of_later p p' s : moves_on p p' → snapshot_of p s → snapshot_of p' s.
Proof.
  intros (_ & Hn & Hr) [H1 H2 H3 H4]. split; [done|done|lia|]. intros x Hx Hnx Hrun.
  destruct (Hr x Hrun) as [?|?]; [by eapply H4|lia].
Qed.

Definition pin_ok (σ : Engine) (s : Session) : Prop :=
  match s with
  | Preparing v | PinnedAt v => v ≤ xmin_of σ
  | Reading v s => v ≤ s_xmin s ∧ snapshot_of (procs σ) s
  end.
(** A horizon below every snapshot in use and every snapshot to come. *)
Definition below (σ : Engine) (h : Z) : Prop :=
  h ≤ xmin_of σ ∧ ∀ i v s, sessions σ !! i = Some (Reading v s) → h ≤ s_xmin s.
Definition collector_ok (σ : Engine) (c : Collector) : Prop :=
  match c with ActiveAt a => a ≤ xmin_of σ | CappedAt h | Collecting h => below σ h end.
(** Why a version that has been removed is seen by nobody. *)
Definition gone (kv : gmap Z (list byte)) (h xmin xmax : Z) : Prop :=
  get kv xmin = Ok Aborted ∨
  get kv xmin = Ok InProgress ∧ xmin < h ∧ xmin ≠ FROZEN_XID ∨
  get kv xmax = Ok Committed ∧ xmax < h ∧ xmax ≠ INVALID_XID.

Definition pinned_by (v : Z) (p : nat * Session) : Prop := pin_of p.2 = Some v.
#[local] Instance pinned_by_dec v p : Decision (pinned_by v p).
Proof. unfold pinned_by. apply _. Defined.
Definition holders (v : Z) (ss : gmap nat Session) : nat := size (filter (pinned_by v) ss).

Definition clog_ok (kv : gmap Z (list byte)) : Prop :=
  ∀ x v, kv !! x = Some v → FIRST_NORMAL_XID ≤ x ∧ (v = put_value Committed ∨ v = put_value Aborted).

(** Nothing about a version depends on an outcome below [f]. *)
Definition clean (f : Z) (v : Z * Z) : Prop :=
  (v.1 = FROZEN_XID ∨ f ≤ v.1) ∧ (v.2 = INVALID_XID ∨ f ≤ v.2).
Definition normal (v : Z * Z) : Prop := clean FIRST_NORMAL_XID v.
(** Why a candidate without a clear needs none. *)
Definition clear_free (kv : gmap Z (list byte)) (h : Z) (v : Z * Z) : Prop :=
  v.2 = INVALID_XID ∨ h ≤ v.2 ∨ get kv v.2 = Ok Committed ∨ gone kv h v.1 v.2.
Definition sweep_ok (σ : Engine) (w : Sweep) : Prop :=
  match w with
  | Idle => True
  | Sweeping f h todo cand =>
      f ≤ h ∧ below σ h ∧ (∀ rid v, rows σ !! rid = Some v → rid ∉ todo → clean f v) ∧
      (∀ rid v, rows σ !! rid = Some v → cand !! rid = Some false → clear_free (history σ) h v)
  | Truncating f batches =>
      f ≤ xmin_of σ ∧ (∀ rid v, rows σ !! rid = Some v → clean f v) ∧ Forall (Forall (fun x => x < f)) batches
  end.
(** The entries that [history] has and the log has lost are below [f]. *)
Definition lost_below (σ : Engine) (f : Z) : Prop :=
  f ≤ xmin_of σ ∧ (∀ x, f ≤ x → clog σ !! x = history σ !! x) ∧ ∀ rid v, rows σ !! rid = Some v → clean f v.
Record stored (σ : Engine) : Prop := {
  st_history : clog_ok (history σ);
  st_clog x v : clog σ !! x = Some v → history σ !! x = Some v ∧ x < next_xid (procs σ);
  st_rows rid v : rows σ !! rid = Some v → (rid < next_row σ)%nat ∧ normal v;
  st_lost : ∃ f, lost_below σ f;
  st_sweep : sweep_ok σ (sweep σ);
}.
Record inv (σ : Engine) : Prop := {
  inv_procs : procs_ok (procs σ);
  inv_handed : NoDup (handed σ) ∧ Forall (fun x => x < next_xid (procs σ)) (handed σ);
  inv_pins v : pins (gc σ) !! v = (if decide (holders v (sessions σ) = O) then None else Some (holders v (sessions σ)));
  inv_sessions i s : sessions σ !! i = Some s → pin_ok σ s;
  inv_collectors k c : collectors σ !! k = Some c → collector_ok σ c;
  inv_stored : stored σ;
  inv_pruned rid v : (rid, v) ∈ pruned σ →
    rows σ !! rid = None ∧ (rid < next_row σ)%nat ∧ ∃ h, below σ h ∧ gone (history σ) h v.1 v.2;
}.

Lemma holders_fresh v i s ss :
  ss !! i = None → holders v (<[i := s]> ss) = ((if decide (pin_of s = Some v) then 1 else 0) + holders v ss)%nat.
Proof.
  intros Hi. unfold holders. rewrite map_filter_insert. unfold pinned_by at 1. simpl. destruct (decide (pin_of s = Some v)) as [H|H].
  - apply map_size_insert_None. by apply map_lookup_filter_None_2; left.
  - by rewrite delete_id.
Qed.
Lemma holders_at v i s ss :
  ss !! i = Some s → holders v ss = ((if decide (pin_of s = Some v) then 1 else 0) + holders v (delete i ss))%nat.
Proof.
  intros Hi. rewrite <- (insert_delete_id ss i s Hi) at 1. apply holders_fresh. apply lookup_delete_eq.
Qed.
Lemma holders_replace v i s s' ss :
  ss !! i = Some s → pin_of s' = pin_of s → holders v (<[i := s']> ss) = holders v ss.
Proof.
  intros Hi Hp. rewrite <- insert_delete_eq, holders_fresh by apply lookup_delete_eq. by rewrite (holders_at v i s ss), Hp.
Qed.
Lemma holders_pos v i s ss : ss !! i = Some s → pin_of s = Some v → holders v ss ≠ O.
Proof. intros Hi Hp. rewrite (holders_at v i s ss) by done. rewrite decide_True by done. lia. Qed.

(** ** Steps preserve the invariant *)

(** The registry moves on, and the readers of the new state are readers of the old
    one or have just started. *)
Definition later (σ σ' : Engine) : Prop :=
  procs_ok (procs σ) ∧ moves_on (procs σ) (procs σ') ∧
  ∀ i v s, sessions σ' !! i = Some (Reading v s) → sessions σ !! i = Some (Reading v s) ∨ s = snapshot (procs σ).

Lemma xmin_later σ σ' : later σ σ' → xmin_of σ ≤ xmin_of σ'.
Proof. intros (Hp & Hm & _). by apply moves_on_xmin. Qed.
Lemma pin_ok_later σ σ' s : later σ σ' → pin_ok σ s → pin_ok σ' s.
Proof.
  intros Hl. pose proof (xmin_later _ _ Hl) as Hx. destruct s as [v|v|v s]; simpl; [lia|lia|].
  intros [? ?]. split; [done|]. eapply snapshot_of_later; [apply Hl|done].
Qed.
Lemma below_later σ σ' h : later σ σ' → below σ h → below σ' h.
Proof.
  intros Hl [H1 H2]. pose proof (xmin_later _ _ Hl) as Hx. split; [lia|].
  intros i v s [Hi| ->]%Hl; [by eapply H2|]. unfold xmin_of in *. lia.
Qed.
Lemma collector_ok_later σ σ' c : later σ σ' → collector_ok σ c → collector_ok σ' c.
Proof.
  intros Hl. destruct c as [a|h|h]; simpl; [|by apply below_later..]. pose proof (xmin_later _ _ Hl). lia.
Qed.

(** The parts that a step leaves alone follow. *)
Lemma inv_step σ σ' :
  inv σ → moves_on (procs σ) (procs σ') →
  NoDup (handed σ') ∧ Forall (fun x => x < next_xid (procs σ')) (handed σ') →
  (∀ v, pins (gc σ') !! v = (if decide (holders v (sessions σ') = O) then None else Some (holders v (sessions σ')))) →
  (∀ i s, sessions σ' !! i = Some s → sessions σ !! i = Some s ∨ pin_ok σ s ∧ ∀ v r, s = Reading v r → r = snapshot (procs σ)) →
  (∀ k c, collectors σ' !! k = Some c → collectors σ !! k = Some c ∨ collector_ok σ c) →
  (later σ σ' → stored σ') →
  (∀ rid v, (rid, v) ∈ pruned σ' → (rid, v) ∈ pruned σ ∨
     rows σ' !! rid = None ∧ (rid < next_row σ')%nat ∧ ∃ h, below σ h ∧ gone (history σ) h v.1 v.2) →
  (next_row σ ≤ next_row σ')%nat →
  (∀ rid, (rid < next_row σ)%nat → rows σ !! rid = None → rows σ' !! rid = None) →
  (∀ h xmin xmax, below σ h → gone (history σ) h xmin xmax → gone (history σ') h xmin xmax) →
  inv σ'.
Proof.
  intros [I1 I2 I4 I5 I6 _ I7] Hm Hh Hp Hs Hk Hst Hpr Hn Hro Hg.
  assert (later σ σ') as Hl.
  { split_and!; [done..|]. intros i v s [?|[_ ?]]%Hs; [by left|right; by eapply H]. }
  split; [apply Hm|done|done| | |by apply Hst|].
  - intros i s Hi. apply (pin_ok_later σ); [done..|]. destruct (Hs i s Hi) as [?|[? _]]; [by eapply I5|done].
  - intros k c Hi. apply (collector_ok_later σ); [done..|]. destruct (Hk k c Hi) as [?|?]; [by eapply I6|done].
  - intros rid v Hin. destruct (Hpr _ _ Hin) as [(Hr & Hlt & h & Hb & Hgo)%I7|(Hr & Hlt & h & Hb & Hgo)].
    all: split_and!; [auto|lia|]; exists h; split; [by apply (below_later σ)|by apply Hg].
Qed.

Lemma get_cases kv x :
  clog_ok kv →
  get kv x = Ok InProgress ∧ kv !! x = None ∨
  get kv x = Ok Committed ∧ kv !! x = Some (put_value Committed) ∨ get kv x = Ok Aborted ∧ kv !! x = Some (put_value Aborted).
Proof.
  intros Hk. unfold get. destruct (kv !! x) as [v|] eqn:Hx; [|by left]. destruct (Hk x v Hx) as [_ [-> | ->]]; auto.
Qed.

Lemma get_insert_ne kv x y v : x ≠ y → get (<[x := v]> kv) y = get kv y.
Proof. intros Hne. unfold get. by rewrite lookup_insert_ne. Qed.

Lemma undecided_history σ x : stored σ → x ∈ running (procs σ) → clog σ !! x = None → history σ !! x = None.
Proof.
  intros Hst Hx Hn. destruct (st_lost _ Hst) as (f & Hf & Heq & _). apply xmin_lower in Hx. unfold xmin_of in Hf.
  rewrite <- Heq; [done|lia].
Qed.

(** An outcome is only recorded for a running transaction. *)
Lemma gone_decided kv xid st h xmin xmax :
  h ≤ xid → kv !! xid = None → gone kv h xmin xmax → gone (<[xid := put_value st]> kv) h xmin xmax.
Proof.
  intros Hx Hnone Hg. assert (get kv xid = Ok InProgress) as Hin by (unfold get; by rewrite Hnone).
  destruct Hg as [Hg|[(Hg & ? & ?)|(Hg & ? & ?)]]; [left|right; left|right; right].
  - rewrite get_insert_ne; [done|]. by intros ->; congruence.
  - rewrite get_insert_ne; [done|]. lia.
  - rewrite get_insert_ne; [done|]. by intros ->; congruence.
Qed.

Lemma clear_free_decided kv xid st h v :
  h ≤ xid → kv !! xid = None → clear_free kv h v → clear_free (<[xid := put_value st]> kv) h v.
Proof.
  intros Hx Hn [?|[?|[Hc|Hg]]]; [by left|by right; left| |].
  - do 2 right. left. rewrite get_insert_ne; [done|]. intros ->. unfold get in Hc. by rewrite Hn in Hc.
  - do 3 right. by apply gone_decided.
Qed.

Lemma clog_decided kv xid st :
  clog_ok kv → FIRST_NORMAL_XID ≤ xid → st = Committed ∨ st = Aborted → clog_ok (<[xid := put_value st]> kv).
Proof.
  intros Hk Hx Hst y v [[-> <-]|[_ Hy]]%lookup_insert_Some; [|by apply Hk].
  split; [done|]. destruct Hst as [-> | ->]; auto.
Qed.

Lemma clean_le f f' v : clean f v → f' ≤ f → clean f' v.
Proof. intros [[?|?] [?|?]] Hle; split; (by left) || (right; lia). Qed.

(** *** The store *)
Lemma stored_keep σ σ' :
  stored σ → later σ σ' → clog σ' = clog σ → history σ' = history σ → rows σ' = rows σ → next_row σ' = next_row σ →
  sweep σ' = sweep σ ∨ sweep σ' = Idle → stored σ'.
Proof.
  intros [S1 S2 S3 (f & Hf & S4 & S5) S6] Hl Ec Eh Er En Ew. pose proof (xmin_later _ _ Hl) as Hx.
  split; rewrite ?Ec, ?Eh, ?Er, ?En; [done|intros x v [? ?]%S2; split; [done|]|done| |].
  - destruct Hl as (_ & (_ & ? & _) & _). lia.
  - exists f. split_and!; rewrite ?Ec, ?Eh, ?Er; [lia|done|done].
  - destruct Ew as [->| ->]; [|done]. unfold sweep_ok in *. destruct (sweep σ) as [|c h todo cand|c bs]; [done| |]; rewrite ?Er, ?Eh.
    + destruct S6 as (? & ? & ? & ?). split_and!; [done|by apply (below_later σ)|done|done].
    + destruct S6 as (? & ? & ?). split_and!; [lia|done|done].
Qed.

(** A version that a step writes: as clean as the one it replaces. *)
Record row_ok (σ : Engine) (n rid : nat) (v : Z * Z) : Prop := {
  ro_id : (rid < n)%nat;
  ro_normal : normal v;
  ro_clean f : f ≤ xmin_of σ → (∀ w, rows σ !! rid = Some w → clean f w) → clean f v;
  ro_clear f h todo cand : sweep σ = Sweeping f h todo cand →
    (∀ w, rows σ !! rid = Some w → clear_free (history σ) h w) → clear_free (history σ) h v;
}.

Lemma stored_rows σ σ' :
  stored σ → procs σ' = procs σ → sessions σ' = sessions σ → clog σ' = clog σ → history σ' = history σ → sweep σ' = sweep σ →
  (next_row σ ≤ next_row σ')%nat →
  (∀ rid v, rows σ' !! rid = Some v → rows σ !! rid = Some v ∨ row_ok σ (next_row σ') rid v) → stored σ'.
Proof.
  intros [S1 S2 S3 (f & Hf & S4 & S5) S6] Ep Es Ec Eh Ew Hn Hr.
  assert (∀ g, g ≤ xmin_of σ → ∀ rid v, rows σ' !! rid = Some v → (∀ w, rows σ !! rid = Some w → clean g w) → clean g v) as Hcl.
  { intros g Hg rid v Hv Hw. destruct (Hr _ _ Hv) as [?|Ho]; [by apply Hw|by eapply ro_clean]. }
  assert (xmin_of σ' = xmin_of σ) as Ex by (unfold xmin_of; by rewrite Ep).
  split; rewrite ?Ec, ?Eh, ?Ep; [done..| | |].
  - intros rid v Hv. destruct (Hr _ _ Hv) as [[? ?]%S3|[? ? _ _]]; (split; [lia|done]).
  - exists f. split_and!; rewrite ?Ec, ?Eh, ?Ex; [done..|]. intros rid v Hv. eapply Hcl; [done..|]. by apply S5.
  - rewrite Ew. destruct (sweep σ) as [|c h todo cand|c bs] eqn:Esw; [done| |]; simpl in *; rewrite ?Eh, ?Ex.
    + destruct S6 as (Hle & Hb & Hc & Hcf). split_and!; [done|unfold below in *; by rewrite Ex, Es| |].
      * intros rid v Hv Hin. eapply (Hcl c); [destruct Hb; lia|done|]. intros w Hw. by eapply Hc.
      * intros rid v Hv Hin. destruct (Hr _ _ Hv) as [?|Ho]; [by eapply Hcf|]. eapply ro_clear; [done..|].
        intros w Hw. by eapply Hcf.
    + destruct S6 as (? & Hc & ?). split_and!; [done| |done]. intros rid v Hv. eapply (Hcl c); [done..|]. by apply Hc.
Qed.

Lemma stored_sweep σ w : stored σ → sweep_ok σ w → stored (set_sweep w σ).
Proof. intros [S1 S2 S3 S4 S5] Hw. by split. Qed.

Lemma stored_decided σ xid st :
  inv σ → xid ∈ running (procs σ) → clog σ !! xid = None → st = Committed ∨ st = Aborted → stored (decided xid st σ).
Proof.
  intros Hinv Hx Hn Hst. pose proof (inv_stored _ Hinv) as Hs. pose proof (undecided_history _ _ Hs Hx Hn) as Hh.
  pose proof (xmin_lower _ _ Hx) as Hmin. destruct Hs as [S1 S2 S3 (f & Hf & S4 & S5) S6].
  split; simpl; [|intros x v|done| |].
  - apply clog_decided; [done| |done]. by apply (inv_procs _ Hinv).
  - rewrite !lookup_insert_Some. intros [[<- <-]|[? [? ?]%S2]]; (split; [by auto|]); [|done].
    by apply (inv_procs _ Hinv).
  - exists f. split_and!; simpl; [done| |done]. intros x Hfx. destruct (decide (x = xid)) as [->|?];
      [by rewrite !lookup_insert_eq|]. rewrite !lookup_insert_ne by done. by apply S4.
  - destruct (sweep σ) as [|c h todo cand|c bs]; [done| |done]. destruct S6 as (Hle & Hb & Hc & Hcf).
    split_and!; [done..|]. intros rid v Hv Hin. simpl. apply clear_free_decided; [|done|by eapply Hcf].
    destruct Hb as [Hb _]. unfold xmin_of in Hb. lia.
Qed.

Lemma elem_of_batches batch keys b x : b ∈ clog_batches batch keys → x ∈ b → x ∈ batch ++ keys.
Proof.
  revert batch. induction keys as [|key keys IH]; intros batch; simpl.
  - destruct (length batch =? 0)%nat; [by intros ?%not_elem_of_nil|]. intros ->%list_elem_of_singleton. by rewrite app_nil_r.
  - replace (batch ++ key :: keys) with ((batch ++ [key]) ++ keys) by (by rewrite <- app_assoc).
    destruct (length (batch ++ [key]) =? 4096)%nat; [|apply IH].
    intros [->|Hb]%elem_of_cons Hx; [by apply elem_of_app; left|]. apply elem_of_app; right. by apply (IH []).
Qed.
Lemma truncated_below f kv : Forall (Forall (fun x => x < f)) (truncate_clog_below f kv).
Proof.
  apply Forall_forall. intros b Hb. apply Forall_forall. intros x Hx.
  apply (elem_of_batches _ _ _ _ Hb) in Hx. simpl in Hx. by apply list_elem_of_filter in Hx as [[_ ?] _].
Qed.
Lemma lookup_deleted (kv : gmap Z (list byte)) batch x :
  foldr delete kv batch !! x = if decide (x ∈ batch) then None else kv !! x.
Proof.
  induction batch as [|y batch IH]; [done|]. change (foldr delete kv (y :: batch)) with (delete y (foldr delete kv batch)).
  destruct (decide (x = y)) as [->|Hne]; [by rewrite lookup_delete_eq, decide_True by left|].
  rewrite lookup_delete_ne, IH by done. apply decide_ext. rewrite elem_of_cons. tauto.
Qed.

Lemma stored_truncate σ f batch batches :
  stored σ → sweep σ = Truncating f (batch :: batches) →
  stored (set_sweep (Truncating f batches) (set_clog (foldr delete (clog σ) batch) σ)).
Proof.
  intros [S1 S2 S3 (g & Hg & S4 & S5) S6] Ew. rewrite Ew in S6. destruct S6 as (Hf & Hc & [Hb Hbs]%Forall_cons).
  split; simpl; [done|intros x v|done| |].
  - rewrite lookup_deleted. case_decide; [done|apply S2].
  - exists (Z.max f g). split; [change (Z.max f g ≤ xmin_of σ); lia|]. simpl. split.
    + intros x Hx. rewrite lookup_deleted, decide_False; [apply S4; lia|]. rewrite Forall_forall in Hb. intros Hin%Hb. simpl in Hin. lia.
    + intros rid v Hv. destruct (Z.max_spec f g) as [[_ ->]|[_ ->]]; eauto.
  - split_and!; done.
Qed.

Lemma xmin_of_later p s : procs_ok p → snapshot_of p s → s_xmin s ≤ s_xmin (snapshot p).
Proof.
  intros Hp [_ Hlow Hb Hset]. destruct (xmin_is p) as [->|Hx]; [lia|].
  destruct (decide (s_xmin (snapshot p) ∈ xip s)) as [?|Hn]; [by apply Hlow|].
  destruct (decide (s_xmin (snapshot p) < s_xmax s)) as [Hlt|?]; [|lia]. by destruct (Hset _ Hlt Hn).
Qed.

Lemma pins_added σ i v :
  inv σ → sessions σ !! i = Some (Preparing v) →
  ∀ w, pins (pin v (gc σ)) !! w =
    (if decide (holders w (<[i := PinnedAt v]> (sessions σ)) = O) then None else Some (holders w (<[i := PinnedAt v]> (sessions σ)))).
Proof.
  intros Hinv Hi w. pose proof (inv_pins _ Hinv w) as Hw. pose proof (holders_at w i _ _ Hi) as Hh. simpl in Hh.
  rewrite <- insert_delete_eq, holders_fresh by apply lookup_delete_eq. rewrite <- Hh. simpl.
  destruct (decide (v = w)) as [->|Hne].
  - rewrite lookup_insert_eq, Hw. rewrite (decide_True (P := Some w = Some w)) by done.
    destruct (decide (holders w (sessions σ) = O)) as [-> |]; done.
  - rewrite lookup_insert_ne, Hw by done. by rewrite (decide_False (P := Some v = Some w)) by congruence.
Qed.

Lemma pins_removed σ i v s :
  inv σ → sessions σ !! i = Some s → pin_of s = Some v →
  ∀ w, pins (unpin v (gc σ)) !! w =
    (if decide (holders w (delete i (sessions σ)) = O) then None else Some (holders w (delete i (sessions σ)))).
Proof.
  intros Hinv Hi Hs w. pose proof (inv_pins _ Hinv w) as Hw. pose proof (inv_pins _ Hinv v) as Hv.
  pose proof (holders_at w i _ _ Hi) as Hh. pose proof (holders_at v i _ _ Hi) as Hhv. rewrite Hs in Hh, Hhv.
  rewrite (decide_True (P := Some v = Some v)) in Hhv by done. rewrite Hhv in Hv. simpl in Hv. unfold unpin. rewrite Hv.
  destruct (decide (v = w)) as [<-|Hne].
  - destruct (holders v (delete i (sessions σ))) as [|n]; simpl; [apply lookup_delete_eq|apply lookup_insert_eq].
  - rewrite (decide_False (P := Some v = Some w)) in Hh by congruence. simpl in Hh. rewrite <- Hh, <- Hw.
    destruct (holders v (delete i (sessions σ))) as [|n]; simpl; [by apply lookup_delete_ne|by apply lookup_insert_ne].
Qed.

(** The cap of a horizon respects the sessions that have pinned by now. *)
Lemma cap_below σ a : inv σ → a ≤ xmin_of σ → below σ (horizon_cap a (gc σ)).
Proof.
  intros Hinv Ha. pose proof (min_pinned_spec (gc σ)) as Hm. unfold horizon_cap.
  split; [destruct (min_pinned (gc σ)); lia|]. intros i v s Hi.
  destruct (inv_sessions _ Hinv i _ Hi) as [Hv _]. pose proof (inv_pins _ Hinv v) as Hp.
  rewrite decide_False in Hp by (by eapply holders_pos).
  destruct (min_pinned (gc σ)) as [m|]; [|by rewrite Hm, lookup_empty in Hp].
  destruct Hm as [_ Hm]. specialize (Hm v ltac:(by rewrite Hp)). lia.
Qed.

Lemma below_le σ h h' : below σ h → h' ≤ h → below σ h'.
Proof. intros [H1 H2] Hle. split; [lia|]. intros i v s Hi. specialize (H2 i v s Hi). lia. Qed.

Lemma horizon_scan_le cap lo kv g h g' : horizon_scan cap lo kv g = Ok (h, g') → h ≤ cap ∧ pins g' = pins g.
Proof.
  unfold horizon_scan. destruct (first_undecided _) as [found|]; [|done]. simpl. intros [= <- <-].
  split; [destruct found; lia|done].
Qed.

Lemma dead_is_gone kv xmin xmax h : version_is_dead xmin xmax h (get kv) = Ok true → gone kv h xmin xmax.
Proof.
  unfold version_is_dead, gone. destruct (get kv xmin) as [st|]; [|done]. simpl.
  case_bool_decide; [subst; by left|].
  destruct (bool_decide (st = InProgress) && (xmin <? h) && negb (xmin =? FROZEN_XID)) eqn:H1.
  { apply andb_prop in H1 as [[H1 H2]%andb_prop H3]. apply bool_decide_eq_true in H1 as ->.
    intros _. right; left. split; [done|]. split; [by apply Z.ltb_lt|]. intros ->. done. }
  destruct (negb (xmax =? INVALID_XID) && (xmax <? h)) eqn:H2; [|done].
  apply andb_prop in H2 as [H2 H3]. destruct (get kv xmax) as [sx|]; [|done]. simpl. intros [= Hc].
  apply bool_decide_eq_true in Hc as ->. right; right. split; [done|]. split; [by apply Z.ltb_lt|]. intros ->. done.
Qed.

Lemma gone_is_dead kv xmin xmax h : clog_ok kv → gone kv h xmin xmax → version_is_dead xmin xmax h (get kv) = Ok true.
Proof.
  intros Hk Hg. unfold version_is_dead. destruct Hg as [->|[(-> & Hlt & Hf)|(Hx & Hlt & Hne)]]; simpl; [done| |].
  - apply Z.ltb_lt in Hlt as ->. by rewrite (proj2 (Z.eqb_neq _ _)) by done.
  - apply Z.ltb_lt in Hlt as ->. rewrite (proj2 (Z.eqb_neq xmax _)), Hx by done.
    destruct (get_cases kv xmin Hk) as [[-> _]|[[-> _]|[-> _]]]; simpl; [|done|done]. by destruct (_ && _).
Qed.

(** The log has what the versions in the store need. *)
Lemma special_status σ x : stored σ → x < FIRST_NORMAL_XID → get (clog σ) x = get (history σ) x.
Proof.
  intros Hs Hx. unfold get. destruct (history σ !! x) as [v|] eqn:Hh; [by apply (st_history _ Hs) in Hh as [? _]; lia|].
  destruct (clog σ !! x) as [w|] eqn:Hc; [|done]. apply (st_clog _ Hs) in Hc as [? _]. congruence.
Qed.
Lemma row_status σ rid v :
  stored σ → rows σ !! rid = Some v → get (clog σ) v.1 = get (history σ) v.1 ∧ get (clog σ) v.2 = get (history σ) v.2.
Proof.
  intros Hs Hv. destruct (st_lost _ Hs) as (f & _ & Heq & Hc). destruct (Hc _ _ Hv) as [H1 H2]. split.
  - destruct H1 as [->|H1]; [by apply special_status|]. unfold get. by rewrite Heq.
  - destruct H2 as [->|H2]; [by apply special_status|]. unfold get. by rewrite Heq.
Qed.

(** What the sweep does depends on the statuses of the version only. *)
Section Status.
Context (st st' : Z → result KvError XidStatus) (v : Z * Z).
Hypothesis same : st v.1 = st' v.1 ∧ st v.2 = st' v.2.

Lemma dead_status h : version_is_dead v.1 v.2 h st = version_is_dead v.1 v.2 h st'.
Proof using same. unfold version_is_dead. by destruct same as [-> ->]. Qed.
Lemma freezable_status h : freezable h v.1 st = freezable h v.1 st'.
Proof using same. unfold freezable. by destruct same as [-> _]. Qed.
Lemma clearable_status h : vacuum_stamp_is_clearable v.2 h st = vacuum_stamp_is_clearable v.2 h st'.
Proof using same. unfold vacuum_stamp_is_clearable. by destruct same as [_ ->]. Qed.
Lemma sweep_status h clear : sweep_version h clear st v = sweep_version h clear st' v.
Proof using same. unfold sweep_version. by rewrite dead_status, freezable_status, clearable_status. Qed.
Lemma candidate_status h : sweep_candidate h st v = sweep_candidate h st' v.
Proof using same. unfold sweep_candidate. by rewrite dead_status, freezable_status, clearable_status. Qed.
Lemma mvcc_status s own : satisfies_mvcc v.1 v.2 s own st = satisfies_mvcc v.1 v.2 s own st'.
Proof using same. unfold satisfies_mvcc, committed_visible. by destruct same as [-> ->]. Qed.
End Status.

Lemma not_dead_cases kv h v :
  clog_ok kv → version_is_dead v.1 v.2 h (get kv) = Ok false →
  (v.1 = FROZEN_XID ∨ h ≤ v.1 ∨ get kv v.1 = Ok Committed) ∧ (get kv v.2 = Ok Committed → v.2 = INVALID_XID ∨ h ≤ v.2).
Proof.
  intros Hk Hd. assert (¬ gone kv h v.1 v.2) as Hng by (intros Hg%gone_is_dead; [congruence|done]). unfold gone in Hng. split.
  - destruct (decide (v.1 = FROZEN_XID)); [by left|]. destruct (decide (h ≤ v.1)); [by right; left|]. do 2 right.
    destruct (get_cases kv v.1 Hk) as [[Hg _]|[[Hg _]|[Hg _]]]; [|done|by destruct Hng; left].
    destruct Hng. right; left. split_and!; [done|lia|done].
  - intros Hc. destruct (decide (v.2 = INVALID_XID)); [by left|]. right. destruct (decide (h ≤ v.2)); [done|].
    destruct Hng. do 2 right. split_and!; [done|lia|done].
Qed.

Lemma not_clearable kv h x :
  clog_ok kv → vacuum_stamp_is_clearable x h (get kv) = Ok false → x = INVALID_XID ∨ h ≤ x ∨ get kv x = Ok Committed.
Proof.
  intros Hk. unfold vacuum_stamp_is_clearable. destruct (Z.eqb_spec x INVALID_XID); [by left|].
  destruct (get_cases kv x Hk) as [[-> _]|[[-> _]|[-> _]]]; simpl; [|by do 2 right|done].
  intros [= Hx%Z.ltb_ge]. by right; left.
Qed.

(** After the sweep a version that stays depends on nothing below the horizon. *)
Lemma sweep_clean kv h clear v v' :
  clog_ok kv → (clear = false → clear_free kv h v) → sweep_version h clear (get kv) v = Ok (Some v') →
  clean h v' ∧ (v'.1 = FROZEN_XID ∨ v'.1 = v.1) ∧ (v'.2 = INVALID_XID ∨ v'.2 = v.2) ∧ ¬ gone kv h v.1 v.2.
Proof.
  intros Hk Hcf. unfold sweep_version. destruct (version_is_dead v.1 v.2 h (get kv)) as [[]|] eqn:Hd; [done| |done]. simpl.
  destruct (freezable h v.1 (get kv)) as [fr|] eqn:Hf; [|done]. simpl.
  destruct (not_dead_cases _ _ _ Hk Hd) as [H1 H2].
  assert (¬ gone kv h v.1 v.2) as Hng by (intros Hg%gone_is_dead; [congruence|done]).
  assert ((if clear then vacuum_stamp_is_clearable v.2 h (get kv) else Ok false) = Ok false →
    v.2 = INVALID_XID ∨ h ≤ v.2) as Hcl.
  { destruct clear.
    - intros [?|[?|?]]%not_clearable; [by left|by right|by apply H2|done].
    - intros _. destruct (Hcf eq_refl) as [?|[?|[?|?]]]; [by left|by right|by apply H2|done]. }
  destruct (if clear then _ else _) as [cl|]; [|done]. simpl. intros [= <-]. simpl. split_and!; [|by destruct fr; auto|by destruct cl; auto|done].
  split; simpl; [|destruct cl; [by left|by apply Hcl]]. destruct fr; [by left|]. destruct H1 as [?|[?|Hc]]; [by left|by right|].
  unfold freezable in Hf. rewrite Hc in Hf. destruct (v.1 =? FROZEN_XID) eqn:E; [left; by apply Z.eqb_eq|].
  simpl in Hf. destruct (h <=? v.1) eqn:E'; [right; by apply Z.leb_le|]. done.
Qed.

Lemma candidate_cases kv h v c :
  clog_ok kv → sweep_candidate h (get kv) v = Ok c →
  (c = None → sweep_version h true (get kv) v = Ok (Some v)) ∧ (c = Some false → clear_free kv h v).
Proof.
  intros Hk. unfold sweep_candidate, sweep_version. destruct (version_is_dead v.1 v.2 h (get kv)) as [[]|] eqn:Hd; simpl.
  - intros [= <-]. split; [done|]. intros _. do 3 right. by apply dead_is_gone.
  - destruct (freezable h v.1 (get kv)) as [fr|]; [|done]. simpl.
    destruct (vacuum_stamp_is_clearable v.2 h (get kv)) as [cl|] eqn:Hc; [|done]. simpl. intros [= <-].
    split; [destruct fr, cl; try done; by destruct v|]. intros Hcl. assert (cl = false) as -> by (by destruct fr, cl).
    destruct (not_clearable _ _ _ Hk Hc) as [?|[?|?]]; [by left|by right; left|by do 2 right; left].
  - done.
Qed.

(** *** What the steps write *)
Lemma new_row_ok σ xid : inv σ → xid ∈ running (procs σ) → row_ok σ (S (next_row σ)) (next_row σ) (xid, INVALID_XID).
Proof.
  intros Hinv Hx. pose proof (xmin_lower _ _ Hx) as Hm. split; [lia| | |by left].
  - split; [right; by apply (inv_procs _ Hinv)|by left].
  - intros f Hf _. unfold xmin_of in Hf. split; [right; simpl; lia|by left].
Qed.
Lemma stamp_row_ok σ rid v xid :
  inv σ → xid ∈ running (procs σ) → rows σ !! rid = Some v → row_ok σ (next_row σ) rid (v.1, xid).
Proof.
  intros Hinv Hx Hv. pose proof (xmin_lower _ _ Hx) as Hm. destruct (st_rows _ (inv_stored _ Hinv) _ _ Hv) as [? Hnv].
  split; [done| | |].
  - split; [apply Hnv|right; by apply (inv_procs _ Hinv)].
  - intros f Hf Hc. unfold xmin_of in Hf. split; [by apply (Hc v)|right; simpl; lia].
  - intros f h todo cand Hw _. pose proof (st_sweep _ (inv_stored _ Hinv)) as Hs. rewrite Hw in Hs.
    destruct Hs as (_ & [Hb _] & _). unfold xmin_of in Hb. right; left. simpl. lia.
Qed.
Lemma clean_replaced f v w :
  clean f w → v.1 = FROZEN_XID ∨ v.1 = w.1 → v.2 = INVALID_XID ∨ v.2 = w.2 → clean f v.
Proof. unfold clean. intros [? ?] [-> | ->] [-> | ->]; auto. Qed.
Lemma swept_row_ok σ f h todo cand rid clear v v' :
  stored σ → sweep σ = Sweeping f h todo cand → rows σ !! rid = Some v →
  (clear = false → clear_free (history σ) h v) → sweep_version h clear (get (clog σ)) v = Ok (Some v') →
  row_ok σ (next_row σ) rid v' ∧ clean h v'.
Proof.
  intros Hs Hw Hv Hcf Hsw. rewrite (sweep_status _ (get (history σ))) in Hsw by (by eapply row_status).
  destruct (sweep_clean _ _ _ _ _ (st_history _ Hs) Hcf Hsw) as (Hc & H1 & H2 & Hng).
  destruct (st_rows _ Hs _ _ Hv) as [Hid Hn]. split; [|done]. split; [done| | |].
  - by eapply clean_replaced.
  - intros g _ Hg. eapply clean_replaced; [by apply Hg|done..].
  - intros g k td cd Hw' Hg. rewrite Hw in Hw'. injection Hw' as <- <- <- <-.
    destruct H2 as [H2|H2]; [by left|]. unfold clear_free. rewrite H2.
    destruct (Hg _ Hv) as [?|[?|[?|?]]]; auto. done.
Qed.
Lemma stored_put_row σ rid w : stored σ → row_ok σ (next_row σ) rid w → stored (set_rows (<[rid := w]> (rows σ)) σ).
Proof.
  intros Hs Hw. apply (stored_rows σ); simpl; [done..|].
  intros r v [[<- <-]|[_ ?]]%lookup_insert_Some; [by right|by left].
Qed.
Lemma stored_prune_row σ rid v : stored σ → stored (prune_row rid v σ).
Proof. intros Hs. apply (stored_rows σ); simpl; [done..|]. intros r w [_ ?]%lookup_delete_Some. by left. Qed.

Lemma stored_step_sweep σ f h todo cand rid v v' needs_clear clear :
  stored σ → sweep σ = Sweeping f h todo cand → rows σ !! rid = Some v → cand !! rid = Some needs_clear →
  (needs_clear = true → clear = true) → sweep_version h clear (get (clog σ)) v = Ok v' →
  stored (set_sweep (Sweeping f h (todo ∖ {[rid]}) cand) (put_swept rid v v' σ)).
Proof.
  intros Hs Hw Hv Hc Hn Hsw. pose proof (st_sweep _ Hs) as Hok. rewrite Hw in Hok. destruct Hok as (Hle & Hb & _ & Hcf).
  assert (∀ w, v' = Some w → row_ok σ (next_row σ) rid w ∧ clean h w) as Hro.
  { intros w ->. eapply swept_row_ok; [done..| |done]. intros ->. apply (Hcf _ _ Hv). destruct needs_clear; [by specialize (Hn eq_refl)|done]. }
  assert (stored (put_swept rid v v' σ)) as Hs'.
  { destruct v' as [w|]; [apply stored_put_row; [done|by apply Hro]|by apply stored_prune_row]. }
  apply stored_sweep; [done|]. pose proof (st_sweep _ Hs') as Hok.
  assert (sweep (put_swept rid v v' σ) = sweep σ) as Es by (by destruct v').
  rewrite Es, Hw in Hok. destruct Hok as (_ & Hb' & Hcl & Hcf').
  split_and!; [done..| |done]. intros r u Hu Hin. destruct (decide (r = rid)) as [->|Hne]; [|apply (Hcl r); [done|set_solver]].
  destruct v' as [w|]; simpl in Hu; [|by rewrite lookup_delete_eq in Hu]. rewrite lookup_insert_eq in Hu. injection Hu as <-.
  eapply clean_le; [by apply Hro|done].
Qed.

Lemma stored_scan σ f h todo cand rid v c :
  stored σ → sweep σ = Sweeping f h todo cand → rows σ !! rid = Some v → sweep_candidate h (get (clog σ)) v = Ok c →
  stored (set_sweep (match c with
                     | None => Sweeping f h (todo ∖ {[rid]}) cand
                     | Some needs_clear => Sweeping f h todo (<[rid := needs_clear]> cand)
                     end) σ).
Proof.
  intros Hs Hw Hv Hc. apply stored_sweep; [done|]. pose proof (st_sweep _ Hs) as Hok. rewrite Hw in Hok.
  destruct Hok as (Hle & Hb & Hcl & Hcf). rewrite (candidate_status _ (get (history σ))) in Hc by (by eapply row_status).
  destruct (candidate_cases _ _ _ _ (st_history _ Hs) Hc) as [H1 H2]. destruct c as [b|]; (split_and!; [done..| |]).
  - done.
  - intros r u Hu [[<- ->]|[_ ?]]%lookup_insert_Some; [|by eapply Hcf]. simplify_eq. by apply H2.
  - intros r u Hu Hin. destruct (decide (r = rid)) as [->|Hne]; [|apply (Hcl r); [done|set_solver]]. simplify_eq.
    apply (clean_le h); [|done]. eapply (sweep_clean _ _ true); [by apply (st_history _ Hs)|done|by apply H1].
  - done.
Qed.

Lemma stored_vacuum σ h : stored σ → below σ h → stored (vacuum_step h σ).
Proof.
  intros Hs Hb. pose proof (st_sweep _ Hs) as Hok. unfold vacuum_step. destruct (sweep σ) as [|f h' todo cand|f bs]; [| |done].
  - apply stored_sweep; [done|]. split_and!; [done|done| |done]. intros r v Hv []. by apply elem_of_dom_2 in Hv.
  - apply stored_sweep; [done|]. destruct Hok as (? & ? & Hcl & _). split_and!; [lia|done| |done].
    intros r v Hv Hin. apply (clean_le f); [by apply (Hcl r)|lia].
Qed.
Lemma stored_skip σ f h todo cand rid :
  stored σ → sweep σ = Sweeping f h todo cand → rows σ !! rid = Some (FROZEN_XID, INVALID_XID) →
  stored (set_sweep (Sweeping f h (todo ∖ {[rid]}) cand) σ).
Proof.
  intros Hs Hw Hv. apply stored_sweep; [done|]. pose proof (st_sweep _ Hs) as Hok. rewrite Hw in Hok.
  destruct Hok as (? & ? & Hcl & ?). split_and!; [done..| |done]. intros r u Hu Hin.
  destruct (decide (r = rid)) as [->|Hne]; [|apply (Hcl r); [done|set_solver]]. simplify_eq. split; by left.
Qed.
Lemma stored_swept σ f h todo cand :
  stored σ → sweep σ = Sweeping f h todo cand → todo ## dom (rows σ) →
  stored (set_sweep (Truncating f (truncate_clog_below f (clog σ))) σ).
Proof.
  intros Hs Hw Hd. apply stored_sweep; [done|]. pose proof (st_sweep _ Hs) as Hok. rewrite Hw in Hok.
  destruct Hok as (? & [? _] & Hcl & _). split_and!; [lia| |apply truncated_below].
  intros r v Hv. apply (Hcl r); [done|]. apply elem_of_dom_2 in Hv. set_solver.
Qed.

Lemma inv_initial : inv initial.
Proof.
  split; simpl.
  - split_and!; simpl; [done|done|done|set_solver].
  - split; [constructor|done].
  - intros v. rewrite lookup_empty. unfold holders. by rewrite map_filter_empty, map_size_empty.
  - intros i s. by rewrite lookup_empty.
  - intros k c. by rewrite lookup_empty.
  - split; simpl; [intros x v; by rewrite lookup_empty..| |done]. exists 0. split_and!; simpl; [done|done|].
    intros rid v. by rewrite lookup_empty.
  - intros rid v []%not_elem_of_nil.
Qed.

Lemma sessions_put σ i s :
  pin_ok σ s → (∀ v r, s = Reading v r → r = snapshot (procs σ)) →
  ∀ j t, <[i := s]> (sessions σ) !! j = Some t →
    sessions σ !! j = Some t ∨ pin_ok σ t ∧ ∀ v r, t = Reading v r → r = snapshot (procs σ).
Proof. intros Hok Hr j t [[-> <-]|[_ Hj]]%lookup_insert_Some; auto. Qed.
Lemma collectors_put σ k c :
  collector_ok σ c →
  ∀ j d, <[k := c]> (collectors σ) !! j = Some d → collectors σ !! j = Some d ∨ collector_ok σ d.
Proof. intros Hok j d [[-> <-]|[_ Hj]]%lookup_insert_Some; auto. Qed.
Lemma pin_ok_pin σ s v : inv σ → pin_ok σ s → pin_of s = Some v → v ≤ xmin_of σ.
Proof.
  intros Hinv. destruct s as [w|w|w s]; simpl; [done|by intros ? [= <-]|]. intros [? Hs] [= <-].
  apply xmin_of_later in Hs; [|apply Hinv]. unfold xmin_of. lia.
Qed.
#[local] Hint Resolve begin_moves_on finish_moves_on reseed_moves_on restart_moves_on pins_removed : mvcc.
#[local] Hint Resolve stored_decided stored_put_row stored_prune_row stamp_row_ok stored_step_sweep stored_scan stored_vacuum
  stored_skip stored_swept stored_truncate inv_stored : mvcc.

(** One step at a time: what a step leaves alone is closed by [kept]. *)
Ltac kept Hinv := first [exact (inv_handed _ Hinv)|exact (inv_pins _ Hinv)
  |by left|by apply moves_on_refl, (inv_procs _ Hinv)|intros Hl; apply (stored_keep _ _ (inv_stored _ Hinv) Hl); simpl; by auto
  |by auto|idtac].

Lemma collecting_below σ k h : inv σ → collectors σ !! k = Some (Collecting h) → below σ h.
Proof. intros Hinv Hk. apply (inv_collectors _ Hinv k _ Hk). Qed.
Lemma pruned_row σ rid v h :
  inv σ → rows σ !! rid = Some v → below σ h → version_is_dead v.1 v.2 h (get (clog σ)) = Ok true →
  (∃ h, below σ h ∧ gone (history σ) h v.1 v.2) ∧ (rid < next_row σ)%nat.
Proof.
  intros Hinv Hv Hb Hd. pose proof (inv_stored _ Hinv) as Hs. rewrite (dead_status _ (get (history σ))) in Hd by (by eapply row_status).
  split; [exists h; split; [done|by apply dead_is_gone]|]. by eapply st_rows.
Qed.
Lemma sweep_none h clear st v :
  sweep_version h clear st v = Ok None → version_is_dead v.1 v.2 h st = Ok true.
Proof.
  unfold sweep_version. destruct (version_is_dead v.1 v.2 h st) as [[]|]; [done| |done]. simpl.
  destruct (freezable h v.1 st); [|done]. simpl. by destruct (if clear then _ else _).
Qed.

(** The steps on rows and log leave the rest alone. *)
Lemma inv_local σ σ' :
  inv σ → procs σ' = procs σ → gc σ' = gc σ → sessions σ' = sessions σ → collectors σ' = collectors σ →
  handed σ' = handed σ → history σ' = history σ → stored σ' → (next_row σ ≤ next_row σ')%nat →
  (∀ rid, (rid < next_row σ)%nat → rows σ !! rid = None → rows σ' !! rid = None) →
  (pruned σ' = pruned σ ∨ ∃ rid v, pruned σ' = (rid, v) :: pruned σ ∧ rows σ' !! rid = None ∧ (rid < next_row σ)%nat ∧
     ∃ h, below σ h ∧ gone (history σ) h v.1 v.2) →
  inv σ'.
Proof.
  intros Hinv Ep Eg Es Ek Eh Ehi Hst Hn Hr Hpr.
  apply (inv_step σ); rewrite ?Ep, ?Eg, ?Es, ?Ek, ?Eh, ?Ehi; try done; [by apply moves_on_refl, Hinv|apply Hinv|apply Hinv|by left|by left|].
  intros rid v. destruct Hpr as [->|(r & w & -> & Hro & Hlt & Hg)]; [by left|].
  intros [[= -> ->]|?]%elem_of_cons; [right|by left]. split_and!; [done|lia|done].
Qed.

Lemma inv_tidy σ σ' :
  inv σ → procs σ' = procs σ → gc σ' = gc σ → sessions σ' = sessions σ → collectors σ' = collectors σ →
  handed σ' = handed σ → history σ' = history σ → rows σ' = rows σ → next_row σ' = next_row σ → pruned σ' = pruned σ →
  stored σ' → inv σ'.
Proof. intros Hinv ? ? ? ? ? ? Er En ? ?. apply (inv_local σ); rewrite ?Er, ?En; auto. Qed.

Lemma inv_insert σ xid : inv σ → xid ∈ running (procs σ) → inv (add_row (xid, INVALID_XID) σ).
Proof.
  intros Hinv Hx. apply (inv_local σ); simpl; [done..| |lia| |by left].
  - apply (stored_rows σ); simpl; [apply Hinv|done..|lia|]. intros r w [[<- <-]|[_ ?]]%lookup_insert_Some; [right|by left].
    by apply new_row_ok.
  - intros r Hlt Hr. rewrite lookup_insert_ne by lia. done.
Qed.
Lemma inv_put_row σ rid v w :
  inv σ → rows σ !! rid = Some v → row_ok σ (next_row σ) rid w → inv (set_rows (<[rid := w]> (rows σ)) σ).
Proof.
  intros Hinv Hv Hw. apply (inv_local σ); simpl; [done..| |done| |by left].
  - apply stored_put_row; [apply Hinv|done].
  - intros r _ Hr. rewrite lookup_insert_ne; [done|]. by intros ->; simplify_eq.
Qed.
Lemma inv_prune_row σ rid v h :
  inv σ → rows σ !! rid = Some v → below σ h → version_is_dead v.1 v.2 h (get (clog σ)) = Ok true → inv (prune_row rid v σ).
Proof.
  intros Hinv Hv Hb Hd. destruct (pruned_row σ rid v h) as [Hg Hlt]; [done..|].
  apply (inv_local σ); simpl; [done..|apply stored_prune_row, Hinv|done| |].
  - intros r _ Hr. rewrite lookup_delete_None. by right.
  - right. exists rid, v. split_and!; [done|apply lookup_delete_eq|done|done].
Qed.
Lemma inv_step_sweep σ f h todo cand rid v v' needs_clear clear :
  inv σ → sweep σ = Sweeping f h todo cand → rows σ !! rid = Some v → cand !! rid = Some needs_clear →
  (needs_clear = true → clear = true) → sweep_version h clear (get (clog σ)) v = Ok v' →
  inv (set_sweep (Sweeping f h (todo ∖ {[rid]}) cand) (put_swept rid v v' σ)).
Proof.
  intros Hinv Hw Hv Hc Hn Hsw. pose proof (inv_stored _ Hinv) as Hs. pose proof (st_sweep _ Hs) as Hok. rewrite Hw in Hok.
  destruct Hok as (_ & Hb & _ & Hcf). assert (inv (put_swept rid v v' σ)) as Hp.
  { destruct v' as [w|]; simpl; [eapply inv_put_row|eapply inv_prune_row]; [done|done| |done|done|done|by eapply sweep_none].
    eapply swept_row_ok; [done..| |done]. intros ->. apply (Hcf _ _ Hv). destruct needs_clear; [by specialize (Hn eq_refl)|done]. }
  apply (inv_tidy (put_swept rid v v' σ)); [done..|]. by eapply stored_step_sweep.
Qed.
Lemma inv_vacuum σ k h : inv σ → collectors σ !! k = Some (Collecting h) → inv (vacuum_step h σ).
Proof.
  intros Hinv Hk. assert (stored (vacuum_step h σ)) as Hs.
  { apply stored_vacuum; [apply Hinv|by eapply collecting_below]. }
  unfold vacuum_step in *. destruct (sweep σ); [by apply (inv_tidy σ)..|done].
Qed.
#[local] Hint Resolve inv_insert inv_put_row inv_prune_row inv_step_sweep inv_vacuum collecting_below : mvcc.

Lemma step_inv σ σ' : inv σ → step block σ σ' → inv σ'.
Proof.
  intros Hinv Hstep. pose proof (inv_procs _ Hinv) as Hp. pose proof (inv_handed _ Hinv) as [Hnd Hlt].
  pose proof (inv_stored _ Hinv) as Hst.
  destruct Hstep as [p xid Hb|xid st Hx Hn Hd|xid|xid Hx Hn|xid rid v s Hx Hn Hv Hso Hsp Hl Hsee|i Hi|i v Hi|i v s Hi Hs|i v s Hi Hs
    |k Hk|k a Hk|k cap h g Hk Hsc|k h rid v Hk Hv Hdead|k h Hk|f h todo cand rid v c Hw Hv Hc|f h todo cand rid Hw Hv
    |f h todo cand rid v v' nc clear Hw Hv Hc Hcl Hsw|f h todo cand Hw Hd|f b bs Hw|f Hw| | |k| ].
  all: try solve [eauto with mvcc|apply (inv_tidy σ); [done..|]; first [by apply stored_sweep|by eauto with mvcc]].
  all: apply (inv_step σ); simpl; try done; kept Hinv; eauto with mvcc.
  - by eapply begin_moves_on.
  - apply begin_moves_on in Hb as ((_ & Hle & _) & -> & Hx); [|done..]. split; [|].
    + constructor; [|done]. intros Hin. rewrite Forall_forall in Hlt. specialize (Hlt _ Hin). lia.
    + constructor; [done|]. eapply Forall_impl; [exact Hlt|]. simpl. intros x ?. lia.
  - intros h xmin xmax [Hb _]. apply gone_decided; [|by apply undecided_history].
    apply xmin_lower in Hx. unfold xmin_of in Hb. lia.
  - intros v. rewrite holders_fresh by done. apply (inv_pins _ Hinv).
  - apply sessions_put; [simpl; lia|done].
  - by apply pins_added.
  - apply sessions_put; [|done]. apply (inv_sessions _ Hinv i _ Hi).
  - intros w. rewrite (holders_replace w i s) by done. apply (inv_pins _ Hinv).
  - apply sessions_put; [|by intros ? ? [= _ ->]]. split; [|by apply snapshot_of_now].
    eapply pin_ok_pin; [done| |done]. by eapply inv_sessions.
  - intros j t [_ Hj]%lookup_delete_Some. by left.
  - apply collectors_put. simpl. lia.
  - apply collectors_put, cap_below; [done|]. apply (inv_collectors _ Hinv k _ Hk).
  - intros w. apply horizon_scan_le in Hsc as [_ ->]. apply (inv_pins _ Hinv).
  - apply collectors_put. eapply below_le; [apply (inv_collectors _ Hinv k _ Hk)|]. by eapply horizon_scan_le.
  - split; [done|]. eapply Forall_impl; [exact Hlt|]. intros x Hx. destruct (reseed_moves_on _ Hp) as (_ & ? & _).
    simpl in *. lia.
  - intros j d [_ Hj]%lookup_delete_Some. by left.
  - split; [done|]. eapply Forall_impl; [exact Hlt|]. simpl. intros x Hx. destruct Hp as (? & -> & _). lia.
Qed.

Lemma steps_inv σ σ' : inv σ → rtc (step block) σ σ' → inv σ'.
Proof. intros Hinv Hs. induction Hs as [|σ σ1 σ' Hs _ IH]; [done|]. by eapply IH, step_inv. Qed.
Lemma engine_inv σ : reachable block σ → inv σ.
Proof. apply steps_inv, inv_initial. Qed.

Lemma step_moves σ σ' : inv σ → step block σ σ' → moves_on (procs σ) (procs σ').
Proof.
  intros Hinv Hs. pose proof (inv_procs _ Hinv) as Hp.
  destruct Hs as [| | | | | | | | | | | | |k h Hk| | |f h todo cand rid v v'| | | | | | |]; simpl;
    eauto using moves_on_refl with mvcc.
  - by eapply begin_moves_on.
  - unfold vacuum_step. by destruct (sweep σ); apply moves_on_refl.
  - by destruct v'; apply moves_on_refl.
Qed.
(** The outcome of a transaction that the snapshot counts as over is settled. *)
Lemma step_settled σ σ' s x :
  snapshot_of (procs σ) s → step block σ σ' → is_running s x = false → history σ' !! x = history σ !! x.
Proof.
  intros Hso Hs Hx.
  destruct Hs as [|xid st Hr| | | | | | | | | | | |k h Hk| | |f h todo cand rid v v'| | | | | | |]; simpl; try done.
  - apply lookup_insert_ne. intros ->. apply not_true_iff_false in Hx. rewrite is_running_iff in Hx by apply Hso.
    apply Decidable.not_or in Hx as [H1 H2]. by apply (so_settled _ _ Hso x); [lia| |].
  - unfold vacuum_step. by destruct (sweep σ).
  - by destruct v'.
Qed.

Lemma over_below p s x : snapshot_of p s → x < s_xmin s → is_running s x = false.
Proof.
  intros [Hs Hl Hb _] Hx. apply not_true_iff_false. rewrite is_running_iff by done. intros [?|Hin]; [lia|].
  apply Hl in Hin. lia.
Qed.

Lemma committed_visible_ok kv s own x : clog_ok kv → ∃ b, committed_visible x s own (get kv) = Ok b.
Proof.
  intros Hk. unfold committed_visible. destruct (x =? FROZEN_XID); [eauto|].
  case_bool_decide; [eauto|]. destruct (is_running s x); [eauto|].
  destruct (get_cases kv x Hk) as [[-> _]|[[-> _]|[-> _]]]; simpl; eauto.
Qed.

Lemma creator_unseen kv s own x st :
  get kv x = Ok st → st ≠ Committed → x ≠ FROZEN_XID → own ≠ Some x → committed_visible x s own (get kv) = Ok false.
Proof.
  intros Hg Hst Hf Ho. unfold committed_visible. rewrite (proj2 (Z.eqb_neq _ _)) by done.
  rewrite bool_decide_eq_false_2 by done. destruct (is_running s x); [done|]. rewrite Hg. simpl.
  by rewrite bool_decide_eq_false_2.
Qed.
Lemma over_committed kv s own x :
  get kv x = Ok Committed → is_running s x = false → committed_visible x s own (get kv) = Ok true.
Proof.
  intros Hg Hr. unfold committed_visible. destruct (x =? FROZEN_XID); [done|].
  case_bool_decide; [done|]. by rewrite Hr, Hg.
Qed.

(** The reader's own transaction has no outcome and is not below the horizon. *)
Definition open_at (kv : gmap Z (list byte)) (h : Z) (own : option Z) : Prop :=
  ∀ x, own = Some x → h ≤ x ∧ kv !! x = None.
Lemma undecided_open σ h own :
  inv σ → below σ h → undecided σ own → open_at (clog σ) h own ∧ open_at (history σ) h own.
Proof.
  intros Hinv [Hb _] Ho. unfold xmin_of in Hb.
  split; intros x [Hr Hn]%Ho; pose proof (xmin_lower _ _ Hr); (split; [lia|]); [done|].
  apply undecided_history; [apply Hinv|done|done].
Qed.

Lemma gone_invisible kv p h s own xmin xmax :
  clog_ok kv → gone kv h xmin xmax → h ≤ s_xmin s → snapshot_of p s → open_at kv h own →
  satisfies_mvcc xmin xmax s own (get kv) = Ok false.
Proof.
  intros Hk Hg Hb Hso Hown. unfold satisfies_mvcc. destruct Hg as [Hg|[(Hg & Hlt & Hf)|(Hg & Hlt & Hne)]].
  - rewrite (creator_unseen _ _ _ xmin Aborted); [done|done|done| |].
    + intros ->. unfold get in Hg. destruct (kv !! FROZEN_XID) as [w|] eqn:Hw; [|done]. by destruct (Hk _ _ Hw) as [? _].
    + intros [_ Hn]%Hown. unfold get in Hg. by rewrite Hn in Hg.
  - rewrite (creator_unseen _ _ _ xmin InProgress); [done|done|done|done|]. intros [Hr _]%Hown. lia.
  - destruct (committed_visible_ok kv s own xmin Hk) as [[] ->]; [|done]. simpl.
    rewrite (proj2 (Z.eqb_neq _ _)) by done. rewrite (over_committed _ _ _ xmax); [done|done|].
    eapply over_below; [exact Hso|]. lia.
Qed.
Lemma freeze_keeps kv p h s own xmin xmax :
  get kv xmin = Ok Committed → xmin < h → h ≤ s_xmin s → snapshot_of p s →
  satisfies_mvcc FROZEN_XID xmax s own (get kv) = satisfies_mvcc xmin xmax s own (get kv).
Proof.
  intros Hg Hlt Hb Hso. unfold satisfies_mvcc. rewrite (over_committed _ _ _ xmin); [done|done|].
  eapply over_below; [exact Hso|]. lia.
Qed.
Lemma clear_keeps kv h s own xmin xmax :
  vacuum_stamp_is_clearable xmax h (get kv) = Ok true → xmax ≠ FROZEN_XID → open_at kv h own →
  satisfies_mvcc xmin INVALID_XID s own (get kv) = satisfies_mvcc xmin xmax s own (get kv).
Proof.
  unfold vacuum_stamp_is_clearable, satisfies_mvcc. destruct (Z.eqb_spec xmax INVALID_XID) as [->|Hne]; [done|].
  destruct (get kv xmax) as [st|] eqn:Hg; [|done]. simpl. intros [= Hst] Hf Hown.
  destruct (committed_visible xmin s own (get kv)) as [[]|]; simpl; [|done|done].
  rewrite (creator_unseen _ _ _ xmax st); [done|done|by intros ->|done|].
  intros [Hr Hn]%Hown. unfold get in Hg. rewrite Hn in Hg. injection Hg as <-. simpl in Hst. lia.
Qed.

(** C10. A row version that vacuum or a writer has removed does not come back, and
    by every outcome ever recorded it is invisible to every snapshot in use, and to
    the open transaction that reads through it: whatever transactions start, commit,
    abort and finish, sessions pin and release, writers insert and stamp, collectors
    run side by side, the commit log is truncated and restarts happen in between.
    The engine is a local one (durable transaction counter). *)
Theorem pruned_stays_invisible σ rid xmin xmax i v s own :
  reachable block σ → (rid, (xmin, xmax)) ∈ pruned σ → sessions σ !! i = Some (Reading v s) →
  (∀ x, own = Some x → x ∈ running (procs σ) ∧ clog σ !! x = None) →
  rows σ !! rid = None ∧ satisfies_mvcc xmin xmax s own (get (history σ)) = Ok false.
Proof.
  intros Hinv%engine_inv Hin Hi Hown. destruct (inv_pruned _ Hinv _ _ Hin) as (Hr & _ & h & Hb & Hg). split; [done|].
  destruct (inv_sessions _ Hinv i _ Hi) as [_ Hso]. eapply gone_invisible; [apply Hinv|exact Hg| |exact Hso|].
  - by eapply Hb.
  - by eapply undecided_open.
Qed.

(** *** Rewrites of rows *)
Lemma can_see_running s x : StronglySorted Z.le (xip s) → snapshot_can_see s x = negb (is_running s x).
Proof.
  intros Hs. apply eq_true_iff_eq. rewrite negb_true_iff. rewrite <- not_true_iff_false, is_running_iff by done.
  unfold snapshot_can_see. rewrite andb_true_iff, negb_true_iff, bool_decide_eq_false, Z.ltb_lt.
  split; [intros [? ?] [?|?]; [lia|done]|]. intros H. split; [|tauto]. destruct (decide (x < s_xmax s)); [done|]. destruct H. lia.
Qed.

(** A writer replaces a deleter only if that one did not commit. *)
Lemma stamp_replaces σ xid s v :
  stored σ → StronglySorted Z.le (xip s) → stampable σ xid s v → (v.2 ∈ running (procs σ) → v.2 = xid) →
  satisfies_mvcc v.1 v.2 s (Some xid) (get (clog σ)) = Ok true →
  v.2 = INVALID_XID ∨ v.2 ≠ xid ∧ v.2 ≠ FROZEN_XID ∧ ¬ (v.2 ∈ running (procs σ)) ∧ get (clog σ) v.2 ≠ Ok Committed.
Proof.
  intros Hst Hso Hs Hl Hsee. destruct (decide (v.2 = INVALID_XID)) as [|Hne]; [by left|right]. unfold satisfies_mvcc in Hsee.
  destruct (committed_visible v.1 s (Some xid) (get (clog σ))) as [[]|]; [|done|done]. simpl in Hsee.
  rewrite (proj2 (Z.eqb_neq _ _)) in Hsee by done. unfold committed_visible in Hsee.
  destruct (Z.eqb_spec v.2 FROZEN_XID) as [|Hf]; [done|]. case_bool_decide as Ho; [done|].
  assert (v.2 ≠ xid) as Hx by congruence. assert (v.2 ∉ running (procs σ)) as Hnr by (intros Hr; by apply Hx, Hl).
  split_and!; [done..|]. intros Hc. rewrite Hc in Hsee. destruct (is_running s v.2) eqn:Hr; [|done].
  destruct Hs as [->|Hs].
  - apply is_running_iff in Hr as [Hr|Hr]; [| by apply xip_running in Hr|done]. simpl in Hr.
    unfold get in Hc. destruct (clog σ !! v.2) as [w|] eqn:Hw; [|done]. apply (st_clog _ Hst) in Hw as [_ ?]. lia.
  - unfold changed_since_snapshot in Hs. rewrite can_see_running, Hr, Hc in Hs by done.
    by rewrite !(proj2 (Z.eqb_neq _ _)) in Hs by done.
Qed.

Lemma stamp_keeps σ rid v s own xid t :
  inv σ → rows σ !! rid = Some v → undecided σ own → own ≠ Some xid → xid ∈ running (procs σ) → clog σ !! xid = None →
  StronglySorted Z.le (xip t) → stampable σ xid t v → (v.2 ∈ running (procs σ) → v.2 = xid) →
  satisfies_mvcc v.1 v.2 t (Some xid) (get (clog σ)) = Ok true →
  satisfies_mvcc v.1 xid s own (get (clog σ)) = satisfies_mvcc v.1 v.2 s own (get (clog σ)).
Proof.
  intros Hinv Hv Hown Ho Hx Hn Ht Hs Hl Hsee. pose proof (inv_stored _ Hinv) as Hst. pose proof (stamp_replaces _ _ _ _ Hst Ht Hs Hl Hsee) as Hrep.
  destruct (inv_procs _ Hinv) as (_ & _ & Hrun). specialize (Hrun _ Hx).
  unfold satisfies_mvcc. destruct (committed_visible v.1 s own (get (clog σ))) as [[]|]; simpl; [|done|done].
  rewrite (proj2 (Z.eqb_neq xid _)) by (unfold FIRST_NORMAL_XID, INVALID_XID in *; lia).
  rewrite (creator_unseen _ _ _ xid InProgress); [|unfold get; by rewrite Hn|done|unfold FIRST_NORMAL_XID, FROZEN_XID in *; lia|done].
  simpl. destruct Hrep as [->|(_ & Hf & Hnr & Hc)]; [done|]. destruct (Z.eqb_spec v.2 INVALID_XID); [done|].
  assert (∃ st, get (clog σ) v.2 = Ok st) as [st Hg].
  { destruct (row_status _ _ _ Hst Hv) as [_ ->]. destruct (get_cases (history σ) v.2 (st_history _ Hst)) as [[-> _]|[[-> _]|[-> _]]]; eauto. }
  rewrite (creator_unseen _ _ _ v.2 st); [done|done|congruence|done|]. by intros [? _]%Hown.
Qed.

Lemma sweep_keeps σ rid v h clear s p own v' :
  inv σ → rows σ !! rid = Some v → h ≤ s_xmin s → snapshot_of p s → open_at (clog σ) h own →
  sweep_version h clear (get (clog σ)) v = Ok (Some v') →
  satisfies_mvcc v'.1 v'.2 s own (get (clog σ)) = satisfies_mvcc v.1 v.2 s own (get (clog σ)).
Proof.
  intros Hinv Hv Hb Hso Hown. destruct (st_rows _ (inv_stored _ Hinv) _ _ Hv) as [_ [_ Hn2]].
  unfold sweep_version. destruct (version_is_dead v.1 v.2 h (get (clog σ))) as [[]|]; [done| |done]. simpl.
  destruct (freezable h v.1 (get (clog σ))) as [fr|] eqn:Hf; [|done]. simpl.
  destruct (if clear then _ else _) as [cl|] eqn:Hc; [|done]. simpl. intros [= <-]. simpl.
  trans (satisfies_mvcc v.1 (if cl then INVALID_XID else v.2) s own (get (clog σ))).
  - destruct fr; [|done]. unfold freezable in Hf. destruct ((v.1 =? FROZEN_XID) || (h <=? v.1)) eqn:Ho; [done|].
    apply orb_false_iff in Ho as [_ Hlt%Z.leb_gt]. destruct (get (clog σ) v.1) as [st|] eqn:Hg; [|done]. simpl in Hf.
    injection Hf as Hf%bool_decide_eq_true. subst st. by eapply freeze_keeps.
  - destruct cl; [|done]. destruct clear; [|done]. eapply clear_keeps; [done| |done].
    unfold FIRST_NORMAL_XID, INVALID_XID, FROZEN_XID in *. lia.
Qed.

Lemma row_dead_unseen σ rid v h s p own :
  inv σ → rows σ !! rid = Some v → below σ h → h ≤ s_xmin s → snapshot_of p s → undecided σ own →
  version_is_dead v.1 v.2 h (get (clog σ)) = Ok true → satisfies_mvcc v.1 v.2 s own (get (clog σ)) = Ok false.
Proof.
  intros Hinv Hv Hb Hs Hso Ho Hd. pose proof (inv_stored _ Hinv) as Hst. pose proof (row_status _ _ _ Hst Hv) as Hsame.
  rewrite (dead_status _ (get (history σ))) in Hd by done. rewrite (mvcc_status _ (get (history σ))) by done.
  eapply gone_invisible; [apply Hst|by apply dead_is_gone|exact Hs|exact Hso|]. by apply undecided_open.
Qed.

(** A version that a step leaves alone looks the same after it. *)
Lemma sees_same σ σ' s own rid :
  inv σ → inv σ' → snapshot_of (procs σ) s → step block σ σ' → rows σ' !! rid = rows σ !! rid →
  sees σ' s own rid = sees σ s own rid.
Proof.
  intros Hi Hi' Hso Hs Hr. unfold sees. rewrite Hr. destruct (rows σ !! rid) as [v|] eqn:Hv; [|done].
  rewrite (mvcc_status _ (get (history σ'))) by (eapply row_status; [apply Hi'|exact Hr]).
  rewrite (mvcc_status (get (clog σ)) (get (history σ))) by (eapply row_status; [apply Hi|exact Hv]).
  assert (∀ x, committed_visible x s own (get (history σ')) = committed_visible x s own (get (history σ))) as Heq.
  { intros x. unfold committed_visible. destruct (is_running s x) eqn:Hx; [done|]. unfold get. by rewrite (step_settled σ σ' s x). }
  unfold satisfies_mvcc. by rewrite !Heq.
Qed.

Lemma running_normal σ x : inv σ → x ∈ running (procs σ) → FIRST_NORMAL_XID ≤ x.
Proof. intros Hinv Hx. by apply (inv_procs _ Hinv) in Hx as [? _]. Qed.
Lemma insert_unseen σ xid s own :
  inv σ → xid ∈ running (procs σ) → clog σ !! xid = None → own ≠ Some xid →
  satisfies_mvcc xid INVALID_XID s own (get (clog σ)) = Ok false.
Proof.
  intros Hinv Hx Hn Ho. unfold satisfies_mvcc.
  rewrite (creator_unseen _ _ _ xid InProgress); [done|unfold get; by rewrite Hn|done| |done].
  intros ->. by apply (running_normal σ) in Hx.
Qed.

(** The steps that write version [rid]. *)
Lemma sees_written σ rid v' s v i own h :
  inv σ → sessions σ !! i = Some (Reading v s) → undecided σ own → below σ h →
  ∀ w clear, rows σ !! rid = Some w → sweep_version h clear (get (clog σ)) w = Ok v' →
  match v' with Some u => satisfies_mvcc u.1 u.2 s own (get (clog σ)) | None => Ok false end =
  satisfies_mvcc w.1 w.2 s own (get (clog σ)).
Proof.
  intros Hinv Hi Ho Hb w clear Hw Hsw. destruct (inv_sessions _ Hinv i _ Hi) as [_ Hso].
  pose proof (proj2 Hb _ _ _ Hi) as Hs. destruct v' as [u|].
  - eapply sweep_keeps; [done|done|exact Hs|exact Hso| |done]. by apply undecided_open.
  - symmetry. apply sweep_none in Hsw. by eapply row_dead_unseen.
Qed.

Lemma quiet_sees σ σ' i v s own rid :
  inv σ → sessions σ !! i = Some (Reading v s) → undecided σ own → quiet block i v s own rid σ σ' →
  sees σ' s own rid = sees σ s own rid.
Proof.
  intros Hinv Hi Ho [Hstep _ _ Hw]. pose proof (step_inv _ _ Hinv Hstep) as Hinv'.
  destruct (inv_sessions _ Hinv i _ Hi) as [_ Hso].
  destruct (decide (rows σ' !! rid = rows σ !! rid)) as [Hr|Hr]; [by apply sees_same|]. unfold sees.
  destruct Hstep as [| | |xid Hx Hn|xid r w t Hx Hn Hv Ht Hsp Hl Hsee| | | | | | | |k h r w Hk Hv Hd|k h Hk| |
    |f h todo cand r w w' nc clear Hsw Hv Hc Hcl He| | | | | | |]; simpl in *; try done.
  - assert (rid = next_row σ) as -> by (destruct (decide (rid = next_row σ)); [done|by rewrite lookup_insert_ne in Hr]).
    rewrite lookup_insert_eq. destruct (rows σ !! next_row σ) eqn:Hnr; [apply (inv_stored _ Hinv) in Hnr as [? _]; lia|].
    apply insert_unseen; [done..|]. intros ->. apply (Hw xid eq_refl). eexists. split; [apply lookup_insert_eq|by left].
  - assert (rid = r) as -> by (destruct (decide (rid = r)); [done|by rewrite lookup_insert_ne in Hr]).
    rewrite lookup_insert_eq, Hv. simpl. eapply stamp_keeps; [done..| |done|done|done|done|done|done].
    intros ->. apply (Hw xid eq_refl). eexists. split; [apply lookup_insert_eq|right]. split; [done|]. intros u Hu.
    assert (u = w) as -> by congruence. destruct (stamp_replaces σ xid t w) as [->|[? _]]; [apply Hinv|done..| |done].
    intros <-. by apply (running_normal σ) in Hx.
  - assert (rid = r) as -> by (destruct (decide (rid = r)); [done|by rewrite lookup_delete_ne in Hr]).
    rewrite lookup_delete_eq, Hv. symmetry. pose proof (collecting_below _ _ _ Hinv Hk) as Hb.
    eapply row_dead_unseen; [done..|by eapply Hb|done|done|done].
  - unfold vacuum_step in Hr. by destruct (sweep σ).
  - pose proof (st_sweep _ (inv_stored _ Hinv)) as Hok. rewrite Hsw in Hok. destruct Hok as (_ & Hb & _).
    assert (rid = r) as ->.
    { destruct (decide (rid = r)); [done|]. destruct w'; simpl in Hr; [by rewrite lookup_insert_ne in Hr|by rewrite lookup_delete_ne in Hr]. }
    rewrite Hv, <- (sees_written σ r w' s v i own h Hinv Hi Ho Hb w clear Hv He). destruct w' as [u|]; simpl; [by rewrite lookup_insert_eq|by rewrite lookup_delete_eq].
Qed.

(** C11. Snapshots are repeatable. While a session keeps its snapshot, what the
    snapshot sees of a version in the store does not change: whatever other
    transactions start, insert, stamp, commit, abort and finish, versions are pruned,
    frozen and cleared, and the commit log is truncated meanwhile.  The session's own
    transaction, if it has one, stays open and does not itself write that version.
    The engine is a local one (durable transaction counter). *)
Theorem snapshot_stable σ σ' i v s own rid :
  reachable block σ → sessions σ !! i = Some (Reading v s) → undecided σ own →
  rtc (quiet block i v s own rid) σ σ' → sees σ' s own rid = sees σ s own rid.
Proof.
  intros Hinv%engine_inv Hi Ho Hs. induction Hs as [|σ σ1 σ' Hq _ IH]; [done|].
  rewrite IH; [by eapply quiet_sees|by eapply step_inv, Hq|apply Hq|apply Hq].
Qed.

(** C27. On a local engine, whose counter is reserved on disk in blocks before ids are
    handed out, a transaction id is handed out once, restarts included: a writing
    transaction never starts with an id that the engine handed out before. *)
Theorem xid_never_reused σ p xid :
  reachable block σ → begin_write Durable block (procs σ) = Some (p, xid) → NoDup (handed σ) ∧ xid ∉ handed σ.
Proof.
  intros Hinv%engine_inv Hb. destruct (inv_handed _ Hinv) as [Hnd Hlt]. split; [done|].
  apply begin_moves_on in Hb as (_ & -> & _); [|done|apply Hinv]. rewrite Forall_forall in Hlt. intros Hin%Hlt. lia.
Qed.

(** C28. The two rewrites of vacuum change nothing that a snapshot in use can see: a
    committed creator below the horizon is frozen, and the deleter that
    [vacuum_stamp_is_clearable] accepts is cleared. *)
Theorem vacuum_rewrites_keep_visibility σ k h i v s own xmin xmax :
  reachable block σ → collectors σ !! k = Some (Collecting h) → sessions σ !! i = Some (Reading v s) →
  (∀ x, own = Some x → x ∈ running (procs σ) ∧ clog σ !! x = None) →
  let see xmin xmax := satisfies_mvcc xmin xmax s own (get (clog σ)) in
  (get (clog σ) xmin = Ok Committed → xmin < h → see FROZEN_XID xmax = see xmin xmax) ∧
  (vacuum_stamp_is_clearable xmax h (get (clog σ)) = Ok true → xmax ≠ FROZEN_XID → see xmin INVALID_XID = see xmin xmax).
Proof.
  intros Hinv%engine_inv Hk Hi Hown see. pose proof (collecting_below _ _ _ Hinv Hk) as Hb.
  destruct (inv_sessions _ Hinv i _ Hi) as [_ Hso]. pose proof (proj2 Hb _ _ _ Hi) as Hs. split.
  - intros Hg Hlt. by eapply freeze_keeps.
  - intros Hc Hf. eapply clear_keeps; [done..|]. by apply undecided_open.
Qed.
End Safety.

(** ** A run of the engine *)
Section Run.
#[local] Existing Instance lower_bound_search.

Definition started (σ : Engine) : Engine :=
  match begin_write Durable 1024 (procs σ) with Some (p, xid) => add_handed xid (set_procs p σ) | None => σ end.
Definition scanned (k : nat) (cap : Z) (σ : Engine) : Engine :=
  match horizon_scan cap (scan_lo σ) (clog σ) (gc σ) with
  | Ok (h, g) => set_gc g (set_collectors (<[k := Collecting h]> (collectors σ)) σ)
  | Err _ => σ
  end.
Lemma started_step σ : rtc (step 1024) σ (started σ).
Proof.
  unfold started. destruct (begin_write Durable 1024 (procs σ)) as [[p xid]|] eqn:Hb; [|done].
  by apply rtc_once, step_begin.
Qed.
Lemma scanned_step k cap σ : collectors σ !! k = Some (CappedAt cap) → rtc (step 1024) σ (scanned k cap σ).
Proof.
  intros Hk. unfold scanned. destruct (horizon_scan cap (scan_lo σ) (clog σ) (gc σ)) as [[h g]|] eqn:Hs; [|done].
  apply rtc_once. by eapply step_horizon.
Qed.

(** Transaction 3 inserts version 0 and commits; 4 inserts version 1 and aborts; 5
    starts.  A session takes a snapshot of 5 at work; a collector computes the
    horizon 5; version 1 is removed, version 0 is frozen, and the log is truncated. *)
Definition inserted (xid : Z) (st : XidStatus) (σ : Engine) : Engine :=
  let σ := decided xid st (add_row (xid, INVALID_XID) (started σ)) in set_procs (finish xid (procs σ)) σ.
Definition busy : Engine := started (inserted 4 Aborted (inserted 3 Committed initial)).
Definition reading : Engine :=
  let σ := set_sessions (<[0%nat := Preparing (xmin_of busy)]> (sessions busy)) busy in
  let σ := set_gc (pin 5 (gc σ)) (set_sessions (<[0%nat := PinnedAt 5]> (sessions σ)) σ) in
  set_sessions (<[0%nat := Reading 5 (snapshot (procs σ))]> (sessions σ)) σ.
Definition vacuuming : Engine :=
  let σ := set_collectors (<[0%nat := ActiveAt (xmin_of reading)]> (collectors reading)) reading in
  let σ := set_collectors (<[0%nat := CappedAt (horizon_cap 5 (gc σ))]> (collectors σ)) σ in
  scanned 0 5 σ.
Definition swept : Engine := prune_row 1 (4, 0) vacuuming.
Definition cycle : Engine := vacuum_step 5 swept.
Definition scanned_row : Engine := set_sweep (Sweeping 5 5 {[0%nat]} {[0%nat := false]}) cycle.
Definition frozen_row : Engine :=
  set_sweep (Sweeping 5 5 ({[0%nat]} ∖ {[0%nat]}) {[0%nat := false]}) (put_swept 0 (3, 0) (Some (FROZEN_XID, 0)) scanned_row).
Definition truncating : Engine := set_sweep (Truncating 5 (truncate_clog_below 5 (clog frozen_row))) frozen_row.
Definition truncated : Engine :=
  set_sweep (Truncating 5 []) (set_clog (foldr delete (clog truncating) [3; 4]) truncating).

Ltac elem := apply (bool_decide_unpack _); vm_compute; exact I.
Lemma inserted_steps xid st σ :
  xid ∈ running (procs (started σ)) → clog (started σ) !! xid = None → st = Committed ∨ st = Aborted →
  rtc (step 1024) σ (inserted xid st σ).
Proof.
  intros Hx Hn Hst. etrans; [apply started_step|]. eapply rtc_l; [by apply (step_insert _ _ xid)|].
  eapply rtc_l; [by apply (step_decide _ _ xid st)|]. apply rtc_once, step_finish.
Qed.
Lemma busy_reachable : reachable 1024 busy.
Proof.
  unfold reachable. etrans; [apply (inserted_steps 3 Committed); [elem|by vm_compute|by left]|].
  etrans; [apply (inserted_steps 4 Aborted); [elem|by vm_compute|by right]|]. apply started_step.
Qed.
Lemma reading_reachable : reachable 1024 reading.
Proof.
  unfold reachable. etrans; [exact busy_reachable|]. eapply rtc_l; [by apply (step_prepare _ _ 0)|].
  eapply rtc_l; [apply (step_pin _ _ 0 5); by vm_compute|]. apply rtc_once.
  by apply (step_snapshot _ _ 0 5 (PinnedAt 5)).
Qed.
Lemma vacuuming_reachable : reachable 1024 vacuuming.
Proof.
  unfold reachable. etrans; [exact reading_reachable|]. eapply rtc_l; [by apply (step_active _ _ 0)|].
  eapply rtc_l; [apply (step_cap _ _ 0 5); by vm_compute|]. apply scanned_step. by vm_compute.
Qed.
(** The cycle, step by step: the session of the snapshot goes on reading. *)
Lemma cycle_steps :
  step 1024 vacuuming swept ∧ step 1024 swept cycle ∧ step 1024 cycle scanned_row ∧
  step 1024 scanned_row frozen_row ∧ step 1024 frozen_row truncating ∧ step 1024 truncating truncated.
Proof.
  split_and!.
  - by apply (step_prune _ _ 0 5); vm_compute.
  - by apply (step_vacuum _ _ 0 5); vm_compute.
  - by apply (step_scan _ cycle 5 5 {[0%nat]} ∅ 0 (3, 0) (Some false)); vm_compute.
  - by apply (step_sweep _ scanned_row 5 5 {[0%nat]} {[0%nat := false]} 0 (3, 0) (Some (FROZEN_XID, 0)) false false); vm_compute.
  - apply (step_swept _ frozen_row 5 5 ({[0%nat]} ∖ {[0%nat]}) {[0%nat := false]}); [by vm_compute|elem].
  - by apply (step_truncate _ truncating 5 [3; 4] []); vm_compute.
Qed.
Lemma truncated_reachable : reachable 1024 truncated.
Proof.
  unfold reachable. etrans; [exact vacuuming_reachable|]. destruct cycle_steps as (H1 & H2 & H3 & H4 & H5 & H6).
  exact (rtc_l _ _ _ _ H1 (rtc_l _ _ _ _ H2 (rtc_l _ _ _ _ H3 (rtc_l _ _ _ _ H4 (rtc_l _ _ _ _ H5 (rtc_once _ _ H6)))))).
Qed.
Lemma cycle_quiet : rtc (quiet 1024 0 5 (mkSnapshot 5 6 [5]) (Some 5) 0) vacuuming truncated.
Proof.
  assert (∀ σ σ', step 1024 σ σ' → sessions σ' !! 0%nat = Some (Reading 5 (mkSnapshot 5 6 [5])) →
    bool_decide (5 ∈ running (procs σ')) = true → clog σ' !! 5 = None →
    (match rows σ' !! 0%nat with Some v => negb (v.1 =? 5) && negb (v.2 =? 5) | None => false end) = true →
    quiet 1024 0 5 (mkSnapshot 5 6 [5]) (Some 5) 0 σ σ') as Hq.
  { intros σ σ' Hs Hr Hx%bool_decide_eq_true Hn Hv. split; [done..| |].
    - by intros x [= <-].
    - intros x [= <-] (w & Hw & Hor). rewrite Hw in Hv. lia. }
  destruct cycle_steps as (H1 & H2 & H3 & H4 & H5 & H6).
  apply (rtc_l _ _ swept); [by apply Hq; [exact H1|vm_compute..]|].
  apply (rtc_l _ _ cycle); [by apply Hq; [exact H2|vm_compute..]|].
  apply (rtc_l _ _ scanned_row); [by apply Hq; [exact H3|vm_compute..]|].
  apply (rtc_l _ _ frozen_row); [by apply Hq; [exact H4|vm_compute..]|].
  apply (rtc_l _ _ truncating); [by apply Hq; [exact H5|vm_compute..]|].
  apply rtc_once. by apply Hq; [exact H6|vm_compute..].
Qed.

Lemma pruned_stays_invisible_witness :
  reachable 1024 truncated ∧ (1%nat, (4, 0)) ∈ pruned truncated ∧ clog truncated = ∅ ∧
  rows truncated !! 1%nat = None ∧ satisfies_mvcc 4 0 (mkSnapshot 5 6 [5]) (Some 5) (get (history truncated)) = Ok false.
Proof.
  split; [exact truncated_reachable|]. split; [by left|]. split; [by vm_compute|].
  apply (pruned_stays_invisible 1024 ltac:(lia) truncated 1 4 0 0 5); [exact truncated_reachable|by left|by vm_compute|].
  intros x [= <-]. split; [elem|by vm_compute].
Defined.
Lemma snapshot_stable_witness :
  rows vacuuming !! 0%nat = Some (3, 0) ∧ rows truncated !! 0%nat = Some (FROZEN_XID, 0) ∧
  get (clog vacuuming) 3 = Ok Committed ∧ get (clog truncated) 3 = Ok InProgress ∧
  sees vacuuming (mkSnapshot 5 6 [5]) (Some 5) 0 = Ok true ∧
  sees truncated (mkSnapshot 5 6 [5]) (Some 5) 0 = sees vacuuming (mkSnapshot 5 6 [5]) (Some 5) 0.
Proof.
  do 5 (split; [by vm_compute|]).
  apply (snapshot_stable 1024 ltac:(lia) vacuuming truncated 0 5); [exact vacuuming_reachable|by vm_compute| |exact cycle_quiet].
  intros x [= <-]. split; [elem|by vm_compute].
Defined.
Lemma xid_never_reused_witness :
  let σ := mkEngine (open (persisted (procs busy))) (clog busy) no_pins ∅ ∅ [] (handed busy)
             (rows busy) (next_row busy) (scan_lo busy) Idle (history busy) in
  ∃ p, begin_write Durable 1024 (procs σ) = Some (p, 1028) ∧ NoDup (handed σ) ∧ 1028 ∉ handed σ.
Proof.
  eexists. split; [reflexivity|]. eapply (xid_never_reused 1024 ltac:(lia)); [|reflexivity].
  unfold reachable. etrans; [exact busy_reachable|]. apply rtc_once, step_restart.
Defined.
Lemma vacuum_rewrites_keep_visibility_witness :
  vacuum_stamp_is_clearable 4 5 (get (clog vacuuming)) = Ok true ∧
  satisfies_mvcc 3 0 (mkSnapshot 5 6 [5]) (Some 5) (get (clog vacuuming)) =
  satisfies_mvcc 3 4 (mkSnapshot 5 6 [5]) (Some 5) (get (clog vacuuming)).
Proof.
  split; [by vm_compute|].
  apply (vacuum_rewrites_keep_visibility 1024 ltac:(lia) vacuuming 0 5 0 5 (mkSnapshot 5 6 [5]) (Some 5) 3 4);
    [exact vacuuming_reachable|by vm_compute|by vm_compute| |by vm_compute|done].
  intros x [= <-]. split; [elem|by vm_compute].
Defined.
End Run.
