(* ===== verification/Authz.v ===== *)
(** * Access control

    Models [crates/authz/src]: the decision of [SimpleAclAuthorizer] and the sources
    of entries it consults; the entry types of [crates/metadata/src/acl.rs]; and the
    part of [crates/metadata/src/image.rs] that keeps the entries of the cluster.  A
    host is the text of its address. *)

From S2P Require Import Prelude.

(** ** Entries *)
Inductive ResourceType : Type := Topic | Group | Cluster | TransactionalId | DelegationToken.
Inductive PatternType : Type := Literal | Prefixed.
Inductive PermissionType : Type := Allow | Deny.
Inductive AclOperation : Type :=
| All
| Read
| Write_
| Create_
| Delete
| Alter
| Describe
| ClusterAction
| DescribeConfigs
| AlterConfigs
| IdempotentWrite
| TwoPhaseCommit.
#[global] Instance ResourceType_eq_dec : EqDecision ResourceType.
Proof. solve_decision. Defined.
#[global] Instance PatternType_eq_dec : EqDecision PatternType.
Proof. solve_decision. Defined.
#[global] Instance PermissionType_eq_dec : EqDecision PermissionType.
Proof. solve_decision. Defined.
#[global] Instance AclOperation_eq_dec : EqDecision AclOperation.
Proof. solve_decision. Defined.
#[global] Instance ResourceType_countable : Countable ResourceType.
Proof.
  refine (inj_countable' (fun rt => match rt with Topic => 0 | Group => 1 | Cluster => 2 | TransactionalId => 3 | DelegationToken => 4 end%nat)
    (fun n => match n with 0 => Topic | 1 => Group | 2 => Cluster | 3 => TransactionalId | _ => DelegationToken end%nat) _).
  by intros [].
Defined.

Record AclEntry : Type := mkAcl {
  resource_type : ResourceType;
  resource_name : string;
  pattern_type : PatternType;
  principal : string;
  host : string;
  operation : AclOperation;
  permission_type : PermissionType;
}.
#[global] Instance AclEntry_eq_dec : EqDecision AclEntry.
Proof. solve_decision. Defined.
(** [None] matches anything. *)
Record AclEntryFilter : Type := mkFilter {
  w_resource_type : option ResourceType;
  w_resource_name : option string;
  w_pattern_type : option PatternType;
  w_principal : option string;
  w_host : option string;
  w_operation : option AclOperation;
  w_permission_type : option PermissionType;
}.
Definition is_none_or {A} `{EqDecision A} (o : option A) (a : A) : bool :=
  match o with None => true | Some x => bool_decide (x = a) end.
Definition matches (w : AclEntryFilter) (e : AclEntry) : bool :=
  is_none_or (w_resource_type w) (resource_type e) && is_none_or (w_resource_name w) (resource_name e) &&
  is_none_or (w_pattern_type w) (pattern_type e) && is_none_or (w_principal w) (principal e) &&
  is_none_or (w_host w) (host e) && is_none_or (w_operation w) (operation e) &&
  is_none_or (w_permission_type w) (permission_type e).

Definition WILDCARD : string := "*".
(** The resources that the pattern of an entry covers. *)
Definition covers_resource (e : AclEntry) (rt : ResourceType) (name : string) : bool :=
  bool_decide (resource_type e = rt) &&
  match pattern_type e with
  | Literal => bool_decide (resource_name e = name) || bool_decide (resource_name e = WILDCARD)
  | Prefixed => String.prefix (resource_name e) name
  end.

(** ** Sources of entries *)

(** [matching_acls] returns the entries of the source that cover the resource. *)
Class AclSource (S : Type) : Type := {
  matching_acls : S → ResourceType → string → list AclEntry;
  source_ok : S → Prop;
  holds : S → AclEntry → Prop;
  matching_acls_spec s rt name e :
    source_ok s → e ∈ matching_acls s rt name ↔ holds s e ∧ covers_resource e rt name = true;
}.

(** The gateway's snapshot. *)
Module AclCache.
Definition t : Type := list AclEntry.
Definition matching_acls (entries : t) (rt : ResourceType) (name : string) : list AclEntry :=
  filter (fun e => covers_resource e rt name = true) entries.

#[global] Instance cache_source : AclSource t.
Proof.
  refine {| Authz.matching_acls := matching_acls; source_ok _ := True; holds s e := e ∈ s |}.
  intros s rt name e _. unfold matching_acls. rewrite list_elem_of_filter. tauto.
Defined.
End AclCache.

(** The broker's image of the metadata. *)
Module MetadataImage.
Record t : Type := mk {
  acls_literal : gmap (ResourceType * string) (list AclEntry);
  acls_prefixed : gmap ResourceType (list AclEntry);
}.
Definition new : t := mk ∅ ∅.
Inductive MetadataRecord : Type :=
| V1AccessControlEntry (e : AclEntry)
| V1DeleteAccessControlEntry (w : AclEntryFilter).

Definition put (e : AclEntry) (bucket : list AclEntry) : list AclEntry := filter (fun x => x ≠ e) bucket ++ [e].
(** Buckets that become empty go. *)
Definition retain {K} `{Countable K} (w : AclEntryFilter) (m : gmap K (list AclEntry)) : gmap K (list AclEntry) :=
  filter (fun p => p.2 ≠ []) (filter (fun e => matches w e = false) <$> m).
Definition apply (img : t) (r : MetadataRecord) : t :=
  match r with
  | V1AccessControlEntry e =>
      match pattern_type e with
      | Literal =>
          let k := (resource_type e, resource_name e) in
          mk (<[k := put e (default [] (acls_literal img !! k))]> (acls_literal img)) (acls_prefixed img)
      | Prefixed =>
          let k := resource_type e in
          mk (acls_literal img) (<[k := put e (default [] (acls_prefixed img !! k))]> (acls_prefixed img))
      end
  | V1DeleteAccessControlEntry w => mk (retain w (acls_literal img)) (retain w (acls_prefixed img))
  end.
Definition matching_acls (img : t) (rt : ResourceType) (name : string) : list AclEntry :=
  default [] (acls_literal img !! (rt, name)) ++
  (if bool_decide (name = WILDCARD) then [] else default [] (acls_literal img !! (rt, WILDCARD))) ++
  filter (fun e => String.prefix (resource_name e) name = true) (default [] (acls_prefixed img !! rt)).
Definition all_acls (img : t) : list AclEntry :=
  mjoin (map_to_list (acls_literal img)).*2 ++ mjoin (map_to_list (acls_prefixed img)).*2.
End MetadataImage.

(** ** The decision *)
Record AuthorizationRequest : Type := mkRequest {
  q_principal : string;
  q_host : string;
  q_resource_type : ResourceType;
  q_resource_name : string;
  q_operation : AclOperation;
}.
Inductive AuthorizationResult : Type := Allowed | Denied.

Definition matches_principal (e : AclEntry) (user_pattern : string) : bool :=
  bool_decide (principal e = "User:*") || bool_decide (principal e = user_pattern).
Definition matches_host (e : AclEntry) (h : string) : bool :=
  bool_decide (host e = "*") || bool_decide (host e = h).
Definition implies (stored requested : AclOperation) : bool :=
  match stored, requested with
  | (Read | Write_ | Delete | Alter), Describe | AlterConfigs, DescribeConfigs => true
  | _, _ => false
  end.
Definition matches_operation (stored requested : AclOperation) : bool :=
  if bool_decide (stored = requested) then true else
  match stored with All => true | _ => implies stored requested end.

(** The loop over the matching entries: the first matching [Deny] ends it. *)
Fixpoint decide_entries (req : AuthorizationRequest) (saw_allow : bool) (es : list AclEntry) : AuthorizationResult :=
  match es with
  | [] => if saw_allow then Allowed else Denied
  | e :: es =>
      if negb (matches_principal e ("User:" +:+ q_principal req)) || negb (matches_host e (q_host req)) ||
         negb (matches_operation (operation e) (q_operation req))
      then decide_entries req saw_allow es
      else match permission_type e with Deny => Denied | Allow => decide_entries req true es end
  end.
Definition authorize {S} `{!AclSource S} (super_users : gset string) (source : S) (req : AuthorizationRequest) :
    AuthorizationResult :=
  if bool_decide (q_principal req ∈ super_users) then Allowed
  else decide_entries req false (matching_acls source (q_resource_type req) (q_resource_name req)).
Definition authorize_topics {S} `{!AclSource S} (super_users : gset string) (source : S) (who from : string)
    (op : AclOperation) (names : list string) : gmap string AuthorizationResult :=
  foldl (fun m name => <[name := authorize super_users source (mkRequest who from Topic name op)]> m) ∅ names.

(** ** What the image holds *)
Module ImageSource.
Import MetadataImage.

Definition bucket (img : t) (e : AclEntry) : list AclEntry :=
  match pattern_type e with
  | Literal => default [] (acls_literal img !! (resource_type e, resource_name e))
  | Prefixed => default [] (acls_prefixed img !! resource_type e)
  end.
(** Entries are where [apply] puts them. *)
Record keyed (img : t) : Prop := {
  keyed_literal k es : acls_literal img !! k = Some es →
    Forall (fun e => pattern_type e = Literal ∧ (resource_type e, resource_name e) = k) es;
  keyed_prefixed k es : acls_prefixed img !! k = Some es →
    Forall (fun e => pattern_type e = Prefixed ∧ resource_type e = k) es;
}.

Lemma in_literal img k e :
  keyed img → e ∈ default [] (acls_literal img !! k) ↔
  e ∈ bucket img e ∧ pattern_type e = Literal ∧ (resource_type e, resource_name e) = k.
Proof.
  intros [Hl _]. unfold bucket. split.
  - destruct (acls_literal img !! k) as [es|] eqn:Hk; simpl; [|by intros ?%not_elem_of_nil].
    intros He. pose proof (Hl k es Hk) as Hall. rewrite Forall_forall in Hall. destruct (Hall e He) as [Hp <-].
    rewrite Hp, Hk. done.
  - intros (He & Hp & <-). by rewrite Hp in He.
Qed.
Lemma in_prefixed img k e :
  keyed img → e ∈ default [] (acls_prefixed img !! k) ↔
  e ∈ bucket img e ∧ pattern_type e = Prefixed ∧ resource_type e = k.
Proof.
  intros [_ Hr]. unfold bucket. split.
  - destruct (acls_prefixed img !! k) as [es|] eqn:Hk; simpl; [|by intros ?%not_elem_of_nil].
    intros He. pose proof (Hr k es Hk) as Hall. rewrite Forall_forall in Hall. destruct (Hall e He) as [Hp <-].
    rewrite Hp, Hk. done.
  - intros (He & Hp & <-). by rewrite Hp in He.
Qed.

#[global] Instance image_source : AclSource t.
Proof.
  refine {| Authz.matching_acls := matching_acls; source_ok := keyed; holds img e := e ∈ bucket img e |}.
  intros img rt name e Hk. unfold matching_acls, covers_resource.
  rewrite !elem_of_app, list_elem_of_filter, in_literal, in_prefixed by done.
  assert (e ∈ (if bool_decide (name = WILDCARD) then [] else default [] (acls_literal img !! (rt, WILDCARD))) ↔
    name ≠ WILDCARD ∧ e ∈ bucket img e ∧ pattern_type e = Literal ∧ (resource_type e, resource_name e) = (rt, WILDCARD)) as ->.
  { case_bool_decide; [set_solver|]. rewrite in_literal by done. tauto. }
  rewrite andb_true_iff, bool_decide_eq_true, !pair_eq. destruct (pattern_type e); simpl.
  - rewrite orb_true_iff, !bool_decide_eq_true. destruct (decide (name = WILDCARD)) as [->|]; intuition congruence.
  - intuition congruence.
Defined.

Lemma elem_of_values_list {K} `{Countable K} (m : gmap K (list AclEntry)) e :
  e ∈ mjoin (map_to_list m).*2 ↔ ∃ k, e ∈ default [] (m !! k).
Proof.
  rewrite list_elem_of_join. setoid_rewrite list_elem_of_fmap. split.
  - intros (es & He & [k es'] & -> & Hk%elem_of_map_to_list). exists k. by rewrite Hk.
  - intros [k He]. destruct (m !! k) as [es|] eqn:Hk; [|by apply not_elem_of_nil in He].
    exists es. split; [done|]. exists (k, es). split; [done|]. by apply elem_of_map_to_list.
Qed.
Lemma elem_of_all_acls img e : keyed img → e ∈ all_acls img ↔ e ∈ bucket img e.
Proof.
  intros Hk. unfold all_acls. rewrite elem_of_app, !elem_of_values_list. split.
  - intros [[k He]|[k He]]; [by apply in_literal in He as [? _]|by apply in_prefixed in He as [? _]].
  - intros He. destruct (pattern_type e) eqn:Hp; [left; exists (resource_type e, resource_name e)|right; exists (resource_type e)];
      [by apply in_literal|by apply in_prefixed].
Qed.
End ImageSource.
Import MetadataImage ImageSource.

(** An entry is in force when it was created and no filter has removed it since. *)
Definition in_force (rs : list MetadataRecord) (e : AclEntry) : bool :=
  foldl (fun b r => match r with
                    | V1AccessControlEntry e' => b || bool_decide (e = e')
                    | V1DeleteAccessControlEntry w => b && negb (matches w e)
                    end) false rs.

Lemma elem_of_put e x bucket : e ∈ put x bucket ↔ e ∈ bucket ∨ e = x.
Proof.
  unfold put. rewrite elem_of_app, list_elem_of_filter, list_elem_of_singleton.
  destruct (decide (e = x)); naive_solver.
Qed.
Lemma lookup_retain {K} `{Countable K} w (m : gmap K (list AclEntry)) k :
  default [] (retain w m !! k) = filter (fun e => matches w e = false) (default [] (m !! k)).
Proof.
  unfold retain. rewrite map_lookup_filter, lookup_fmap. destruct (m !! k) as [es|]; simpl; [|done].
  case_guard as Hg; simpl; [done|]. by destruct (filter _ es); [|destruct Hg].
Qed.
Lemma retain_Forall {K} `{Countable K} w (m : gmap K (list AclEntry)) k es (P : AclEntry → Prop) :
  (∀ es, m !! k = Some es → Forall P es) → retain w m !! k = Some es → Forall P es.
Proof.
  intros Hall. unfold retain. rewrite map_lookup_filter_Some, lookup_fmap_Some.
  intros [(es' & <- & Hes) _]. by apply Forall_filter, Hall.
Qed.

Lemma apply_keyed img r : keyed img → keyed (apply img r).
Proof.
  intros Hk. destruct r as [e|w]; simpl.
  - destruct (pattern_type e) eqn:Hp; (first [split; simpl; [|by apply Hk]|split; simpl; [by apply Hk|]]);
      intros k es [[<- <-]|[_ Hes]]%lookup_insert_Some; try (by apply Hk in Hes);
      apply Forall_forall; intros x [Hx| ->]%elem_of_put; try done.
    + by apply (in_literal img) in Hx as [_ ?].
    + by apply (in_prefixed img) in Hx as [_ ?].
  - split; simpl; intros k es; apply retain_Forall; intros es' He; by apply Hk in He.
Qed.

Lemma apply_holds img r e :
  keyed img →
  e ∈ bucket (apply img r) e ↔
  match r with
  | V1AccessControlEntry e' => e ∈ bucket img e ∨ e = e'
  | V1DeleteAccessControlEntry w => e ∈ bucket img e ∧ matches w e = false
  end.
Proof.
  intros Hk. unfold bucket. destruct r as [e'|w]; simpl.
  - destruct (pattern_type e') eqn:Hp', (pattern_type e) eqn:Hp; simpl.
    + destruct (decide ((resource_type e', resource_name e') = (resource_type e, resource_name e))) as [->|Hne].
      * rewrite lookup_insert_eq. simpl. by rewrite elem_of_put.
      * rewrite lookup_insert_ne by done. split; [by left|]. by intros [?| ->].
    + split; [by left|]. intros [?| ->]; [done|congruence].
    + split; [by left|]. intros [?| ->]; [done|congruence].
    + destruct (decide (resource_type e' = resource_type e)) as [->|Hne].
      * rewrite lookup_insert_eq. simpl. by rewrite elem_of_put.
      * rewrite lookup_insert_ne by done. split; [by left|]. by intros [?| ->].
  - destruct (pattern_type e); rewrite lookup_retain, list_elem_of_filter; tauto.
Qed.

Lemma history_holds rs :
  let img := foldl apply new rs in keyed img ∧ ∀ e, e ∈ bucket img e ↔ in_force rs e = true.
Proof.
  induction rs as [|r rs [IHk IH]] using rev_ind; simpl.
  - split; [split; intros k es; simpl; by rewrite lookup_empty|]. intros e. unfold bucket, in_force. simpl.
    split; [|done]. by destruct (pattern_type e); rewrite lookup_empty; intros ?%not_elem_of_nil.
  - rewrite foldl_app. simpl. split; [by apply apply_keyed|]. intros e. rewrite apply_holds by done.
    unfold in_force in *. rewrite foldl_app. simpl. destruct r as [e'|w]; rewrite IH.
    + by rewrite orb_true_iff, bool_decide_eq_true.
    + by rewrite andb_true_iff, negb_true_iff.
Qed.

(** ** The decision *)

(** The entry is about the request. *)
Definition concerns (e : AclEntry) (req : AuthorizationRequest) : bool :=
  matches_principal e ("User:" +:+ q_principal req) && matches_host e (q_host req) &&
  matches_operation (operation e) (q_operation req).

(** The table of operations that an entry stands for. *)
Inductive stands_for : AclOperation → AclOperation → Prop :=
| stands_same o : stands_for o o
| stands_all o : stands_for All o
| stands_describe o : o ∈ [Read; Write_; Delete; Alter] → stands_for o Describe
| stands_configs : stands_for AlterConfigs DescribeConfigs.

Lemma matches_operation_spec o o' : matches_operation o o' = true ↔ stands_for o o'.
Proof.
  split.
  - unfold matches_operation. case_bool_decide as Ho; [subst; constructor|].
    destruct o, o'; try done; intros _; constructor; set_solver.
  - intros [x|x|x Hx|]; [unfold matches_operation; by rewrite bool_decide_eq_true_2|by destruct x| |done].
    rewrite !elem_of_cons, elem_of_nil in Hx. by destruct Hx as [-> |[-> |[-> |[-> | []]]]].
Qed.

Lemma concerns_spec e req :
  concerns e req = true ↔
  (principal e = "User:*" ∨ principal e = "User:" +:+ q_principal req) ∧ (host e = "*" ∨ host e = q_host req) ∧
  stands_for (operation e) (q_operation req).
Proof.
  unfold concerns, matches_principal, matches_host.
  rewrite !andb_true_iff, !orb_true_iff, !bool_decide_eq_true, matches_operation_spec. tauto.
Qed.

Lemma decide_entries_spec req saw es :
  decide_entries req saw es = Allowed ↔
  (saw = true ∨ ∃ e, e ∈ es ∧ concerns e req = true) ∧
  ∀ e, e ∈ es → concerns e req = true → permission_type e = Allow.
Proof.
  revert saw. induction es as [|e es IH]; intros saw; simpl.
  - split; [|by intros [[-> |(e & ?%not_elem_of_nil & _)] _]].
    destruct saw; [|done]. intros _. split; [by left|]. by intros e ?%not_elem_of_nil.
  - rewrite <- !negb_andb. fold (concerns e req). setoid_rewrite elem_of_cons.
    destruct (concerns e req) eqn:He; simpl.
    + destruct (permission_type e) eqn:Hp.
      * rewrite IH. split; intros [_ Hall]; (split; [eauto|]).
        -- intros x [-> |Hx] Hc; [done|]. by apply Hall.
        -- intros x Hx Hc. apply Hall; [by right|done].
      * split; [done|]. intros [_ Hall]. by rewrite (Hall e (or_introl eq_refl) He) in Hp.
    + rewrite IH. split; intros [Hs Hall]; (split; [destruct Hs as [?|(x & Hx & Hc)]; [by left|right]|]).
      * exists x. by split; [right|].
      * intros y [-> |Hy] Hc; [congruence|by apply Hall].
      * destruct Hx as [-> |Hx]; [congruence|by exists x].
      * intros y Hy Hc. apply Hall; [by right|done].
Qed.

(** Whether a request is allowed depends on the entries of the source alone. *)
Lemma authorize_spec {S} `{!AclSource S} supers (s : S) req :
  source_ok s →
  let relevant e := holds s e ∧ covers_resource e (q_resource_type req) (q_resource_name req) = true ∧ concerns e req = true in
  authorize supers s req = Allowed ↔
  q_principal req ∈ supers ∨ (∃ e, relevant e) ∧ ∀ e, relevant e → permission_type e = Allow.
Proof.
  intros Hok relevant. unfold authorize. case_bool_decide as Hs; [tauto|]. rewrite decide_entries_spec.
  assert (∀ e, e ∈ Authz.matching_acls s (q_resource_type req) (q_resource_name req) ∧ concerns e req = true ↔ relevant e) as Hrel.
  { intros e. rewrite matching_acls_spec by done. unfold relevant. tauto. }
  split.
  - intros [[?|[e He%Hrel]] Hall]; [done|]. right. split; [by exists e|]. intros x [Hx Hc]%Hrel. by apply Hall.
  - intros [?|[[e He] Hall]]; [done|]. split; [right; exists e; by apply Hrel|].
    intros x Hx Hc. apply Hall, Hrel. by split.
Qed.

Lemma result_iff (a b : AuthorizationResult) : (a = Allowed ↔ b = Allowed) → a = b.
Proof. destruct a, b; naive_solver. Qed.

(** C23. Who may do what.  After any history of entries created and deleted, the broker
    allows a request exactly when its principal is a super user, or some entry in
    force is about it and every entry in force that is about it allows: the order of
    the entries does not matter, a single [Deny] wins, and without an entry the
    answer is no.  The gateway, which decides on a snapshot of all entries, agrees. *)
Theorem authorized_iff supers rs req :
  let img := foldl apply new rs in
  let about e :=
    covers_resource e (q_resource_type req) (q_resource_name req) = true ∧
    (principal e = "User:*" ∨ principal e = "User:" +:+ q_principal req) ∧ (host e = "*" ∨ host e = q_host req) ∧
    stands_for (operation e) (q_operation req) in
  (authorize supers img req = Allowed ↔
   q_principal req ∈ supers ∨
   (∃ e, in_force rs e = true ∧ about e) ∧ ∀ e, in_force rs e = true → about e → permission_type e = Allow) ∧
  authorize supers (all_acls img : AclCache.t) req = authorize supers img req.
Proof.
  intros img about. destruct (history_holds rs) as [Hk Hin]. fold img in Hk, Hin. split.
  - rewrite authorize_spec by exact Hk. simpl. setoid_rewrite Hin. setoid_rewrite concerns_spec. unfold about. naive_solver.
  - apply result_iff. rewrite !authorize_spec by done. simpl. by setoid_rewrite (elem_of_all_acls img _ Hk).
Qed.

(** The implication of operations holds for a [Deny] as well: denying [Read] on a
    topic hides the topic, whatever is allowed. *)
Theorem deny_is_implied supers rs req e :
  q_principal req ∉ supers → in_force rs e = true → permission_type e = Deny →
  covers_resource e (q_resource_type req) (q_resource_name req) = true →
  matches_principal e ("User:" +:+ q_principal req) = true → matches_host e (q_host req) = true →
  implies (operation e) (q_operation req) = true →
  authorize supers (foldl apply new rs) req = Denied.
Proof.
  intros Hs He Hd Hc Hp Hh Hi. destruct (history_holds rs) as [Hk Hin].
  destruct (authorize supers (foldl apply new rs) req) eqn:Ha; [|done]. exfalso.
  apply authorize_spec in Ha; [|exact Hk]. destruct Ha as [?|[_ Hall]]; [done|].
  assert (permission_type e = Allow) as He'; [|congruence]. apply Hall. simpl. rewrite Hin. split_and!; [done..|].
  unfold concerns, matches_operation. rewrite Hp, Hh, Hi. by destruct (bool_decide _), (operation e).
Qed.
