(* ===== verification/TxnState.v ===== *)
(** * Transactions: entries, versions and producer identities

    Models [crates/broker/src/txn]: the state machine and the entry of [state.rs], the
    timeouts of [two_pc.rs], [version.rs], the decisions of [decision.rs], and the
    producer identities that [handlers/end_txn.rs] hands from one transaction to the
    next; and [kafka_hash.rs] with [partitioner.rs], which place a transactional id.
    A string is the list of its bytes. *)

From S2P Require Import Prelude.

(** ** kafka_hash.rs *)
Module KafkaHash.
Definition SEED : Z := 0x9747b28c.
Definition M : Z := 0x5bd1e995.
Definition R : Z := 24.
Definition wrapping_mul (a b : Z) : Z := wrap_u 32 (a * b).

(** The loop over [chunks_exact(4)], with the remainder it leaves. *)
Fixpoint chunks (h : Z) (data : list byte) : Z * list byte :=
  match data with
  | a :: b :: c :: d :: rest =>
      let k := be_value [d; c; b; a] in
      let k := wrapping_mul k M in
      let k := Z.lxor k (Z.shiftr k R) in
      let k := wrapping_mul k M in
      let h := wrapping_mul h M in
      chunks (Z.lxor h k) rest
  | rem => (h, rem)
  end.
Definition remainder (h : Z) (rem : list byte) : Z :=
  match rem with
  | [a] => wrapping_mul (Z.lxor h (Z_of_byte a)) M
  | [a; b] => wrapping_mul (Z.lxor (Z.lxor h (Z.shiftl (Z_of_byte b) 8)) (Z_of_byte a)) M
  | [a; b; c] =>
      wrapping_mul (Z.lxor (Z.lxor (Z.lxor h (Z.shiftl (Z_of_byte c) 16)) (Z.shiftl (Z_of_byte b) 8)) (Z_of_byte a)) M
  | _ => h
  end.
Definition murmur2 (data : list byte) : Z :=
  let h := Z.lxor SEED (wrap_u 32 (Z.of_nat (length data))) in
  let '(h, rem) := chunks h data in
  let h := remainder h rem in
  let h := Z.lxor h (Z.shiftr h 13) in
  let h := wrapping_mul h M in
  Z.lxor h (Z.shiftr h 15).

(** [None] is the panic of [% 0]. *)
Definition murmur2_partition (data : list byte) (num_partitions : Z) : option Z :=
  let hash := wrap_s 32 (murmur2 data) in
  let positive := if hash =? - 2 ^ 31 then 0 else Z.abs hash in
  if num_partitions =? 0 then None else Some (Z.rem positive num_partitions).

(** The reference vectors of the unit tests. *)
Example murmur2_vectors :
  map murmur2 [[]; [x61]; [x61; x62]; [x61; x62; x63]; [x61; x62; x63; x64]; [x61; x62; x63; x64; x65]]
  = [0x106e08d9; 0xa2d0b27c; 0x12d8262a; 0x1c94221b; 0xb11ab5f4; 0x1b897edd].
Proof. reflexivity. Qed.
Example murmur2_partition_vector :
  murmur2_partition [x6d; x79; x2d; x74; x69; x64] 50 = Some 43.
Proof. reflexivity. Qed.

Lemma murmur2_partition_range data n : 0 < n → ∃ p, murmur2_partition data n = Some p ∧ 0 ≤ p < n.
Proof.
  intros Hn. unfold murmur2_partition. destruct (Z.eqb_spec n 0); [lia|].
  eexists. split; [done|]. apply Z.rem_bound_pos; [|done]. destruct (_ =? _); lia.
Qed.
End KafkaHash.

(** ** txn/partitioner.rs *)
Definition partition_for_tid (tid : list byte) (num_partitions : Z) : option Z :=
  KafkaHash.murmur2_partition tid num_partitions.

Definition ProducerId : Type := Z.
Definition I16_MAX : Z := 2 ^ 15 - 1.

(** ** txn/state.rs *)
Inductive TxnState : Type :=
| Empty
| Ongoing
| PrepareCommit
| PrepareAbort
| CompleteCommit
| CompleteAbort
| Dead.
#[global] Instance TxnState_eq_dec : EqDecision TxnState.
Proof. solve_decision. Defined.

Definition can_transition_to (self other : TxnState) : bool :=
  match self, other with
  | (Empty | CompleteCommit | CompleteAbort), Empty => true
  | (Empty | Ongoing | CompleteCommit | CompleteAbort), Ongoing => true
  | Ongoing, (PrepareCommit | PrepareAbort) => true
  | PrepareCommit, CompleteCommit => true
  | PrepareAbort, CompleteAbort => true
  | (CompleteCommit | CompleteAbort), Dead => true
  | _, _ => false
  end.

Definition to_kafka_status (s : TxnState) : Z :=
  match s with
  | Empty => 0
  | Ongoing => 1
  | PrepareCommit => 2
  | PrepareAbort => 3
  | CompleteCommit => 4
  | CompleteAbort => 5
  | Dead => 6
  end.
Definition from_kafka_status (id : Z) : option TxnState :=
  match id with
  | 0 => Some Empty
  | 1 => Some Ongoing
  | 2 => Some PrepareCommit
  | 3 => Some PrepareAbort
  | 4 => Some CompleteCommit
  | 5 => Some CompleteAbort
  | 6 => Some Dead
  | _ => None
  end.

Definition TopicPartition : Type := list byte * Z.

Record TxnEntry : Type := mkTxn {
  transactional_id : list byte;
  producer_id : ProducerId;
  producer_epoch : Z;
  state : TxnState;
  txn_timeout_ms : Z;
  partitions : gset TopicPartition;
  prev_producer_id : ProducerId;
  next_producer_id : ProducerId;
  next_producer_epoch : Z;
  last_update_ms : Z;
  start_ms : Z;
}.

Definition has_staged_producer_identity (e : TxnEntry) : bool := 0 <=? next_producer_epoch e.

Definition new_empty (tid : list byte) (pid : ProducerId) (epoch timeout now_ms : Z) : TxnEntry :=
  mkTxn tid pid epoch Empty timeout ∅ (-1) (-1) (-1) now_ms now_ms.

(** *** Field updates, [entry.field = value] *)
Definition with_state s (e : TxnEntry) : TxnEntry :=
  mkTxn (transactional_id e) (producer_id e) (producer_epoch e) s (txn_timeout_ms e) (partitions e)
    (prev_producer_id e) (next_producer_id e) (next_producer_epoch e) (last_update_ms e) (start_ms e).
Definition with_identity pid epoch (e : TxnEntry) : TxnEntry :=
  mkTxn (transactional_id e) pid epoch (state e) (txn_timeout_ms e) (partitions e)
    (prev_producer_id e) (next_producer_id e) (next_producer_epoch e) (last_update_ms e) (start_ms e).
Definition with_timeout t (e : TxnEntry) : TxnEntry :=
  mkTxn (transactional_id e) (producer_id e) (producer_epoch e) (state e) t (partitions e)
    (prev_producer_id e) (next_producer_id e) (next_producer_epoch e) (last_update_ms e) (start_ms e).
Definition with_partitions ps (e : TxnEntry) : TxnEntry :=
  mkTxn (transactional_id e) (producer_id e) (producer_epoch e) (state e) (txn_timeout_ms e) ps
    (prev_producer_id e) (next_producer_id e) (next_producer_epoch e) (last_update_ms e) (start_ms e).
Definition with_prev pid (e : TxnEntry) : TxnEntry :=
  mkTxn (transactional_id e) (producer_id e) (producer_epoch e) (state e) (txn_timeout_ms e) (partitions e)
    pid (next_producer_id e) (next_producer_epoch e) (last_update_ms e) (start_ms e).
Definition with_next pid epoch (e : TxnEntry) : TxnEntry :=
  mkTxn (transactional_id e) (producer_id e) (producer_epoch e) (state e) (txn_timeout_ms e) (partitions e)
    (prev_producer_id e) pid epoch (last_update_ms e) (start_ms e).
Definition with_last_update t (e : TxnEntry) : TxnEntry :=
  mkTxn (transactional_id e) (producer_id e) (producer_epoch e) (state e) (txn_timeout_ms e) (partitions e)
    (prev_producer_id e) (next_producer_id e) (next_producer_epoch e) t (start_ms e).
Definition with_start t (e : TxnEntry) : TxnEntry :=
  mkTxn (transactional_id e) (producer_id e) (producer_epoch e) (state e) (txn_timeout_ms e) (partitions e)
    (prev_producer_id e) (next_producer_id e) (next_producer_epoch e) (last_update_ms e) t.

(** ** txn/version.rs *)
Inductive TxnVersion : Type := Classic | Flexible | Verified | TwoPhase.
Definition flexible_records (v : TxnVersion) : bool :=
  match v with Flexible | Verified | TwoPhase => true | Classic => false end.
Definition verified (v : TxnVersion) : bool :=
  match v with Verified | TwoPhase => true | _ => false end.
Definition two_phase (v : TxnVersion) : bool :=
  match v with TwoPhase => true | _ => false end.
(** [finalized] is the finalized level of [transaction.version] in the image. *)
Definition resolve_txn_version (finalized : option Z) : TxnVersion :=
  match finalized with
  | Some 3 => TwoPhase
  | Some 2 => Verified
  | Some 1 => Flexible
  | _ => Classic
  end.

(** ** txn/two_pc.rs *)
Definition NO_TIMEOUT_MS : Z := 2 ^ 31 - 1.

(** [i32::clamp] asserts that the bounds are ordered. *)
Definition clamp (v lo hi : Z) : option Z :=
  if lo <=? hi then Some (if v <? lo then lo else if hi <? v then hi else v) else None.
Definition resolve_txn_timeout (enable_2pc : bool) (requested_ms min_timeout_ms max_timeout_ms : Z) : option Z :=
  if enable_2pc then Some NO_TIMEOUT_MS else clamp requested_ms min_timeout_ms max_timeout_ms.
Definition is_two_phase_commit (txn_timeout_ms : Z) : bool := txn_timeout_ms =? NO_TIMEOUT_MS.
Definition should_abort_idle_txn (state : TxnState) (txn_timeout_ms start_ms now_ms : Z) : bool :=
  if negb (bool_decide (state = Ongoing)) then false
  else if is_two_phase_commit txn_timeout_ms then false
  else txn_timeout_ms <=? sat_s 64 (now_ms - start_ms).

(** ** Producer identities: handlers/end_txn.rs *)
Definition Identity : Type := ProducerId * Z.

Definition next_producer_identity_with_fresh (txnv : TxnVersion) (pid : ProducerId) (epoch : Z)
    (fresh : option ProducerId) : option Identity :=
  if negb (verified txnv) then Some (pid, epoch)
  else if epoch <? I16_MAX - 1 then Some (pid, epoch + 1)
  else p ← fresh; Some (p, 0).

Definition next_recovery_producer_identity_with_fresh (pid : ProducerId) (epoch : Z)
    (fresh : option ProducerId) : option Identity :=
  if epoch <? I16_MAX then Some (pid, epoch + 1) else p ← fresh; Some (p, 0).

Definition client_producer_identity (e : TxnEntry) : Identity :=
  if has_staged_producer_identity e then (next_producer_id e, next_producer_epoch e)
  else (producer_id e, producer_epoch e).
Definition completion_producer_identity (e : TxnEntry) : Identity := client_producer_identity e.

Definition prepare_completion_identities_with_fresh (e : TxnEntry) (txnv : TxnVersion)
    (fresh : option ProducerId) : option TxnEntry :=
  if negb (verified txnv) then Some e else
  let had_recovery_identity := has_staged_producer_identity e in
  let '(client_pid, client_epoch) := client_producer_identity e in
  '(completion_pid, completion_epoch) ←
    (if had_recovery_identity
     then next_recovery_producer_identity_with_fresh client_pid client_epoch fresh
     else next_producer_identity_with_fresh txnv client_pid client_epoch fresh);
  let e := with_identity (producer_id e) (sat_s 16 (producer_epoch e + 1)) e in
  Some (if had_recovery_identity || negb (completion_pid =? producer_id e)
        then with_next completion_pid completion_epoch e
        else with_next (-1) (-1) e).

(** [i16::checked_add(1)] *)
Definition checked_succ (epoch : Z) : option Z := if epoch <? I16_MAX then Some (epoch + 1) else None.

Definition is_completed_end_txn_retry (e : TxnEntry) (request_pid : ProducerId) (request_epoch : Z) : bool :=
  ((producer_id e =? request_pid) && bool_decide (checked_succ request_epoch = Some (producer_epoch e)))
  || ((prev_producer_id e =? request_pid) && (request_epoch =? I16_MAX - 1) && (producer_epoch e =? 0)).

(** ** Decisions: handlers/end_txn.rs and decision.rs *)
Definition NONE : Z := 0.
Definition UNKNOWN_SERVER_ERROR : Z := -1.
Definition NOT_COORDINATOR : Z := 16.
Definition INVALID_REQUEST : Z := 42.
Definition UNSUPPORTED_VERSION : Z := 35.
Definition INVALID_PRODUCER_EPOCH : Z := 47.
Definition INVALID_TXN_STATE : Z := 48.
Definition INVALID_PRODUCER_ID_MAPPING : Z := 49.
Definition CONCURRENT_TRANSACTIONS : Z := 51.
Definition TRANSACTIONAL_ID_AUTHORIZATION_FAILED : Z := 53.

Inductive ReacquireDecision : Type := RProceed | RAlreadyComplete | RReject (code : Z).
Definition validate_complete_reacquire (e : TxnEntry) (expected_pid : ProducerId) (expected_epoch : Z)
    (prepare complete : TxnState) : ReacquireDecision :=
  if negb (producer_id e =? expected_pid) || negb (producer_epoch e =? expected_epoch)
  then RReject INVALID_PRODUCER_EPOCH
  else if bool_decide (state e = prepare) then RProceed
  else if bool_decide (state e = complete) then RAlreadyComplete
  else RReject INVALID_TXN_STATE.

(** The error code, or the entry with the states to write now and at the end. *)
Definition decide_phase1_transition (e : TxnEntry) (committed : bool) : result Z (TxnEntry * TxnState * TxnState) :=
  let prepare := if committed then PrepareCommit else PrepareAbort in
  let complete := if committed then CompleteCommit else CompleteAbort in
  if negb (can_transition_to (state e) prepare) then Err INVALID_TXN_STATE
  else Ok (with_state prepare e, prepare, complete).

Inductive CompletionDecision : Type :=
| Proceed (next_state : TxnState) (response_pid : ProducerId) (response_epoch : Z)
| AlreadyComplete (response_pid : ProducerId) (response_epoch : Z)
| Reject (code : Z).
Definition decide_end_txn_completion (e : TxnEntry) (expected_pid : ProducerId) (expected_epoch : Z)
    (expected_completion_pid : ProducerId) (expected_completion_epoch : Z) (prepare complete : TxnState) : CompletionDecision :=
  if bool_decide (state e = complete) && (producer_id e =? expected_completion_pid)
     && (producer_epoch e =? expected_completion_epoch)
  then AlreadyComplete (producer_id e) (producer_epoch e)
  else match validate_complete_reacquire e expected_pid expected_epoch prepare complete with
       | RProceed => Proceed complete expected_completion_pid expected_completion_epoch
       | RAlreadyComplete => AlreadyComplete (producer_id e) (producer_epoch e)
       | RReject code => Reject code
       end.

(** ** The reaper's pure steps: coordinator.rs *)
Definition apply_prepare_abort (now_ms : Z) (e : TxnEntry) : TxnEntry :=
  with_last_update now_ms (with_state PrepareAbort e).
Definition apply_complete_abort (new_pid : ProducerId) (new_epoch now_ms : Z) (e : TxnEntry) : TxnEntry :=
  let e := if negb (new_pid =? producer_id e) then with_prev (producer_id e) e else e in
  with_last_update now_ms
    (with_partitions ∅ (with_next (-1) (-1) (with_identity new_pid new_epoch (with_state CompleteAbort e)))).
Definition complete_abort_guard_ok (e prepared : TxnEntry) : bool :=
  (producer_id e =? producer_id prepared) && (producer_epoch e =? producer_epoch prepared)
  && bool_decide (state e = PrepareAbort).
