(* ===== verification/TxnLog.v ===== *)
(** * Transactions: the records of [__transaction_state]

    Models [crates/broker/src/txn/log_record.rs]: the key and the value, in both
    versions, under which the coordinator persists an entry.  An encoder returns
    [None] where the source panics (a name or a count too long for its prefix). *)

From S2P Require Import Prelude Wire Varint StringBytes TaggedFields TxnState.
Import Fixed Varint StringBytes Array.

Definition TAG_PREV_PRODUCER_ID : Z := 0.
Definition TAG_NEXT_PRODUCER_ID : Z := 1.
Definition TAG_CLIENT_TXN_VERSION : Z := 2.
Definition TAG_NEXT_PRODUCER_EPOCH : Z := 3.

(** The order of [str]: by bytes, a prefix first. *)
Fixpoint bytes_le (s t : list byte) : bool :=
  match s, t with
  | [], _ => true
  | _ :: _, [] => false
  | a :: s, b :: t =>
      (Z_of_byte a <? Z_of_byte b) || ((Z_of_byte a =? Z_of_byte b) && bytes_le s t)
  end.
Definition topic_le (g h : list byte * list Z) : Prop := bytes_le g.1 h.1.
#[global] Instance topic_le_dec g h : Decision (topic_le g h).
Proof. unfold topic_le. apply _. Defined.

(** The loop that fills [by_topic]. *)
Definition push (m : gmap (list byte) (list Z)) (tp : TopicPartition) : gmap (list byte) (list Z) :=
  <[tp.1 := default [] (m !! tp.1) ++ [tp.2]]> m.
Definition group_partitions (ps : gset TopicPartition) : list (list byte * list Z) :=
  let by_topic := foldl push ∅ (elements ps) in
  map (fun '(topic, ids) => (topic, merge_sort Z.le ids)) (merge_sort topic_le (map_to_list by_topic)).

Definition encode_group (flexible : bool) (g : list byte * list Z) : option (list byte) :=
  topic ← (if flexible then put_compact_string g.1 else put_string g.1);
  len ← put_array_len (length g.2) flexible;
  tags ← (if flexible then TaggedFields.write [] [] else Some []);
  Some (topic ++ len ++ concat (map put_i32 g.2) ++ tags).

Definition tagged (e : TxnEntry) : list (Z * list byte) :=
  (if negb (prev_producer_id e =? -1) then [(TAG_PREV_PRODUCER_ID, put_i64 (prev_producer_id e))] else []) ++
  (if negb (next_producer_id e =? -1) then [(TAG_NEXT_PRODUCER_ID, put_i64 (next_producer_id e))] else []) ++
  (if negb (next_producer_epoch e =? -1) then [(TAG_NEXT_PRODUCER_EPOCH, put_i16 (next_producer_epoch e))] else []).

Definition encode_value (e : TxnEntry) (flexible : bool) : option (list byte) :=
  let version := if flexible then 1 else 0 in
  let groups := group_partitions (partitions e) in
  ps ← (if bool_decide (groups = []) then put_nullable_array_len None flexible
        else len ← put_nullable_array_len (Some (length groups)) flexible;
             gs ← mapM (encode_group flexible) groups;
             Some (len ++ concat gs));
  tags ← (if flexible then TaggedFields.write (tagged e) [] else Some []);
  Some (put_i16 version ++ put_i64 (producer_id e) ++ put_i16 (producer_epoch e) ++
        put_i32 (txn_timeout_ms e) ++ put_i8 (to_kafka_status (state e)) ++ ps ++
        put_i64 (last_update_ms e) ++ put_i64 (start_ms e) ++ tags).

(** The [for _ in 0..id_count] loop. *)
Fixpoint get_ids (n : nat) (topic : list byte) (ps : gset TopicPartition) : decoder (gset TopicPartition) :=
  fun buf =>
  match n with
  | O => Ok (ps, buf)
  | S n => '(partition, buf) ← get_i32 buf; get_ids n topic ({[(topic, partition)]} ∪ ps) buf
  end.
(** The [for _ in 0..count] loop. *)
Fixpoint get_groups (n : nat) (flexible : bool) (ps : gset TopicPartition) : decoder (gset TopicPartition) :=
  fun buf =>
  match n with
  | O => Ok (ps, buf)
  | S n =>
      '(topic, buf) ← (if flexible then get_compact_string_owned buf else get_string_owned buf);
      '(id_count, buf) ← get_array_len flexible buf;
      '(ps, buf) ← get_ids id_count topic ps buf;
      buf ← (if flexible then
               '(_, _, buf) ← TaggedFields.read_tagged_fields (fun st _ p => Ok (false, p, st)) tt buf; Ok buf
             else Ok buf);
      get_groups n flexible ps buf
  end.

(** The closure over [prev_producer_id], [next_producer_id] and [next_producer_epoch]. *)
Definition known : TaggedFields.known_fn (Z * Z * Z) := fun '(prev, next, epoch) tag payload =>
  if tag =? TAG_PREV_PRODUCER_ID then '(v, payload) ← get_i64 payload; Ok (true, payload, (v, next, epoch))
  else if tag =? TAG_NEXT_PRODUCER_ID then '(v, payload) ← get_i64 payload; Ok (true, payload, (prev, v, epoch))
  else if tag =? TAG_CLIENT_TXN_VERSION then '(_, payload) ← get_i16 payload; Ok (true, payload, (prev, next, epoch))
  else if tag =? TAG_NEXT_PRODUCER_EPOCH then '(v, payload) ← get_i16 payload; Ok (true, payload, (prev, next, v))
  else Ok (false, payload, (prev, next, epoch)).

Definition decode_value (buf : list byte) (tid : list byte) : result ProtocolError TxnEntry :=
  '(version, buf) ← get_i16 buf;
  flexible ← (if version =? 0 then Ok false else if version =? 1 then Ok true
              else Err (InvalidValue "unsupported TransactionLogValue version"));
  '(pid, buf) ← get_i64 buf;
  '(epoch, buf) ← get_i16 buf;
  '(timeout, buf) ← get_i32 buf;
  '(status, buf) ← get_i8 buf;
  st ← (match from_kafka_status status with
        | Some st => Ok st
        | None => Err (InvalidValue "unknown TransactionStatus")
        end);
  '(count, buf) ← get_nullable_array_len flexible buf;
  '(ps, buf) ← (match count with Some n => get_groups n flexible ∅ buf | None => Ok (∅, buf) end);
  '(last_update, buf) ← get_i64 buf;
  '(start, buf) ← get_i64 buf;
  '(prev, next, next_epoch, buf) ←
    (if (flexible : bool) then
       '(_, ids, buf) ← TaggedFields.read_tagged_fields known (-1, -1, -1) buf;
       Ok (ids, buf)
     else Ok (-1, -1, -1, buf));
  if negb (bool_decide (buf = [])) then Err (InvalidValue "TransactionLogValue: trailing bytes after decode")
  else Ok (mkTxn tid pid epoch st timeout ps prev next next_epoch last_update start).

Definition encode_key (tid : list byte) : option (list byte) :=
  s ← put_string tid; Some (put_i16 0 ++ s).
Definition decode_key (buf : list byte) : result ProtocolError (list byte) :=
  '(version, buf) ← get_i16 buf;
  if negb (version =? 0) then Err (InvalidValue "unsupported TransactionLogKey version") else
  '(tid, buf) ← get_string_owned buf;
  if negb (bool_decide (buf = [])) then Err (InvalidValue "TransactionLogKey: trailing bytes after decode")
  else Ok tid.

(** The record captured from a running cluster that the unit tests pin. *)
Example sample_record :
  let ts := 0x19e7b4b367a in
  let e := mkTxn [x74] 0 0 Ongoing 60000 {[([x74; x78; x74; x65; x73; x74], 0)]} (-1) (-1) (-1) ts ts in
  encode_value e true = Some
    [x00; x01; x00; x00; x00; x00; x00; x00; x00; x00; x00; x00; x00; x00; xea; x60; x01; x02;
     x07; x74; x78; x74; x65; x73; x74; x02; x00; x00; x00; x00; x00;
     x00; x00; x01; x9e; x7b; x4b; x36; x7a; x00; x00; x01; x9e; x7b; x4b; x36; x7a; x00].
Proof. vm_compute. reflexivity. Qed.

(** ** Grouping loses nothing *)
Definition flatten (gs : list (list byte * list Z)) : list TopicPartition :=
  concat (map (fun g => pair g.1 <$> g.2) gs).

Lemma elem_of_flatten gs t p : (t, p) ∈ flatten gs ↔ ∃ ids, (t, ids) ∈ gs ∧ p ∈ ids.
Proof.
  unfold flatten. induction gs as [|[t' ids'] gs IH]; simpl.
  - split; [set_solver|]. intros (? & H & _). set_solver.
  - rewrite elem_of_app, IH, list_elem_of_fmap. split.
    + intros [(q & [= -> ->] & Hq)|(ids & Hin & Hp)]; [exists ids'; set_solver|].
      exists ids. set_solver.
    + intros (ids & Hin & Hp). apply elem_of_cons in Hin as [[= -> ->]|Hin]; [left|right]; eauto.
Qed.

Lemma lookup_push m tp t ids :
  push m tp !! t = Some ids ↔
  (t = tp.1 ∧ ids = default [] (m !! t) ++ [tp.2]) ∨ (t ≠ tp.1 ∧ m !! t = Some ids).
Proof.
  unfold push. destruct (decide (tp.1 = t)) as [<-|Hne].
  - rewrite lookup_insert_eq. naive_solver.
  - rewrite lookup_insert_ne by done. naive_solver.
Qed.

Lemma push_all l m t p :
  (∃ ids, foldl push m l !! t = Some ids ∧ p ∈ ids) ↔ (∃ ids, m !! t = Some ids ∧ p ∈ ids) ∨ (t, p) ∈ l.
Proof.
  revert m. induction l as [|[t' p'] l IH]; intros m; simpl; [set_solver|].
  rewrite IH, elem_of_cons. setoid_rewrite lookup_push. simpl. split.
  - intros [(ids & [[-> ->]|[? ?]] & Hp)|?]; [|eauto..].
    apply elem_of_app in Hp as [Hp|Hp%list_elem_of_singleton]; [|by subst; eauto].
    destruct (m !! t') eqn:Hm; [eauto|set_solver].
  - intros [(ids & Hm & Hp)|[[= -> ->]|?]]; [|left; eexists; split; [by left|set_solver]|by right].
    left. destruct (decide (t = t')) as [->|]; [|eauto].
    eexists. split; [by left|]. rewrite Hm. set_solver.
Qed.

Lemma group_partitions_flatten ps : list_to_set (flatten (group_partitions ps)) = ps.
Proof.
  apply set_eq. intros [t p]. rewrite elem_of_list_to_set, elem_of_flatten. unfold group_partitions.
  transitivity (∃ ids, foldl push ∅ (elements ps) !! t = Some ids ∧ p ∈ ids).
  - split.
    + intros (ids & ([t' ids'] & Heq & Hg)%list_elem_of_fmap & Hp).
      apply pair_equal_spec in Heq as [-> ->].
      rewrite merge_sort_Permutation in Hg. rewrite merge_sort_Permutation in Hp. apply elem_of_map_to_list in Hg. eauto.
    + intros (ids & Hm & Hp). exists (merge_sort Z.le ids). split; [|by rewrite merge_sort_Permutation].
      apply list_elem_of_fmap. exists (t, ids). split; [done|].
      rewrite merge_sort_Permutation. by apply elem_of_map_to_list.
  - rewrite push_all. rewrite elem_of_elements. split; [|by right].
    intros [(? & H & _)|?]; [|done]. by rewrite lookup_empty in H.
Qed.

(** ** Reading back what was written *)
Definition entry_valid (e : TxnEntry) : Prop :=
  in_s 64 (producer_id e) ∧ in_s 16 (producer_epoch e) ∧ in_s 32 (txn_timeout_ms e) ∧
  in_s 64 (prev_producer_id e) ∧ in_s 64 (next_producer_id e) ∧ in_s 16 (next_producer_epoch e) ∧
  in_s 64 (last_update_ms e) ∧ in_s 64 (start_ms e) ∧
  ∀ t p, (t, p) ∈ partitions e → Utf8.utf8_valid t = true ∧ in_s 32 p.

Lemma get_ids_put ids topic ps rest :
  Forall (in_s 32) ids →
  get_ids (length ids) topic ps (concat (map put_i32 ids) ++ rest) =
    Ok (ps ∪ list_to_set (pair topic <$> ids), rest).
Proof.
  intros Hids. revert ps. induction Hids as [|id ids Hid _ IH]; intros ps.
  - simpl. f_equal. f_equal. set_solver.
  - cbn [length map concat get_ids]. rewrite <- app_assoc, wire_roundtrip by done. cbn [mbind result_bind].
    rewrite IH. f_equal. f_equal. set_solver.
Qed.

Lemma length_concat_i32 ids : length (concat (map put_i32 ids)) = (4 * length ids)%nat.
Proof. induction ids; [done|]. cbn [length map concat]. rewrite length_app, length_put_i32, IHids. lia. Qed.

Lemma get_topic_put (flexible : bool) topic bs rest :
  Utf8.utf8_valid topic = true →
  (if flexible then put_compact_string topic else put_string topic) = Some bs →
  (if flexible then get_compact_string_owned (bs ++ rest) else get_string_owned (bs ++ rest)) = Ok (topic, rest).
Proof.
  intros Hv. destruct flexible; intros Hbs.
  - unfold get_compact_string_owned.
    destruct (compact_nullable_string_encodes (Some topic) bs Hbs Hv) as [H _]. by rewrite H.
  - unfold get_string_owned.
    destruct (nullable_string_encodes (Some topic) bs Hbs Hv) as [H _]. by rewrite H.
Qed.

Definition group_valid (g : list byte * list Z) : Prop :=
  Utf8.utf8_valid g.1 = true ∧ Forall (in_s 32) g.2.

Lemma get_array_len_put n flexible bs rest :
  put_array_len n flexible = Some bs → (n ≤ length rest)%nat → get_array_len flexible (bs ++ rest) = Ok (n, rest).
Proof. intros Hp Hn. apply get_array_len_spec, get_nullable_array_len_put; [by destruct flexible|done]. Qed.

(** A topic's group takes at least the byte of its prefix. *)
Lemma encode_group_nonempty flexible g bs : encode_group flexible g = Some bs → (0 < length bs)%nat.
Proof.
  unfold encode_group. intros H.
  destruct (if flexible then put_compact_string g.1 else put_string g.1) as [nbs|] eqn:Hn; [cbn [mbind option_bind] in H|done].
  destruct (put_array_len _ _) as [lbs|]; [cbn [mbind option_bind] in H|done].
  destruct flexible; cbn [mbind option_bind] in H.
  - change (TaggedFields.write [] []) with (Some [x00]) in H. cbn [mbind option_bind] in H.
    apply Some_inj in H as <-. rewrite !length_app. simpl. lia.
  - unfold put_string in Hn. destruct (try_s _ _); [|done]. cbn [mbind option_bind] in Hn.
    apply Some_inj in Hn as <-. apply Some_inj in H as <-. rewrite !length_app, length_put_i16. lia.
Qed.

Lemma get_groups_put gs flexible bss ps rest :
  Forall group_valid gs → mapM (encode_group flexible) gs = Some bss →
  get_groups (length gs) flexible ps (concat bss ++ rest) = Ok (ps ∪ list_to_set (flatten gs), rest).
Proof.
  intros Hv. revert bss ps. induction Hv as [|[topic ids] gs [Ht Hids] _ IH]; intros bss ps Hm.
  { injection Hm as <-. simpl. f_equal. f_equal. set_solver. }
  apply mapM_Some_1 in Hm. inversion Hm as [|? bs ? bss' Hg Hm']; subst. apply mapM_Some_2 in Hm'.
  unfold encode_group in Hg. cbn [fst snd] in *.
  destruct (if flexible then put_compact_string topic else put_string topic) as [nbs|] eqn:Hn; [|done].
  cbn [mbind option_bind] in Hg. destruct (put_array_len _ _) as [lbs|] eqn:Hl; [|done].
  cbn [length concat get_groups].
  destruct flexible; cbn [mbind option_bind] in Hg;
    [change (TaggedFields.write [] []) with (Some [x00]) in Hg; cbn [mbind option_bind] in Hg|];
    apply Some_inj in Hg as <-; rewrite <- !app_assoc.
  - rewrite (get_topic_put true topic) by done. cbn [mbind result_bind].
    rewrite (get_array_len_put (length ids)) by (done || rewrite !length_app, length_concat_i32; lia).
    cbn [mbind result_bind]. rewrite get_ids_put by done. cbn [mbind result_bind].
    change (TaggedFields.read_tagged_fields _ tt _) with (@Ok ProtocolError _ (@nil TaggedFields.UnknownTaggedField, tt, concat bss' ++ rest)).
    cbn [mbind result_bind]. rewrite IH by done. f_equal. f_equal. unfold flatten. simpl. set_solver.
  - rewrite (get_topic_put false topic) by done. cbn [mbind result_bind].
    rewrite (get_array_len_put (length ids)) by (done || rewrite !length_app, length_concat_i32; lia).
    cbn [mbind result_bind]. rewrite get_ids_put by done. cbn [mbind result_bind].
    rewrite app_nil_l, IH by done. f_equal. f_equal. unfold flatten. simpl. set_solver.
Qed.

Lemma known_prev st v :
  in_s 64 v → known st TAG_PREV_PRODUCER_ID (put_i64 v) = Ok (true, [], (v, st.1.2, st.2)).
Proof.
  intros Hv. destruct st as [[prev next] epoch]. pose proof (wire_roundtrip (put := put_i64) v [] Hv) as H.
  rewrite app_nil_r in H. unfold known. cbn -[put_i64 get_i64]. by rewrite H.
Qed.
Lemma known_next st v :
  in_s 64 v → known st TAG_NEXT_PRODUCER_ID (put_i64 v) = Ok (true, [], (st.1.1, v, st.2)).
Proof.
  intros Hv. destruct st as [[prev next] epoch]. pose proof (wire_roundtrip (put := put_i64) v [] Hv) as H.
  rewrite app_nil_r in H. unfold known. cbn -[put_i64 get_i64]. by rewrite H.
Qed.
Lemma known_next_epoch st v :
  in_s 16 v → known st TAG_NEXT_PRODUCER_EPOCH (put_i16 v) = Ok (true, [], (st.1, v)).
Proof.
  intros Hv. destruct st as [[prev next] epoch]. pose proof (wire_roundtrip (put := put_i16) v [] Hv) as H.
  rewrite app_nil_r in H. unfold known. cbn -[put_i16 get_i16]. by rewrite H.
Qed.

Lemma read_known (e : TxnEntry) bs rest :
  entry_valid e → TaggedFields.write (tagged e) [] = Some bs →
  TaggedFields.read_tagged_fields known (-1, -1, -1) (bs ++ rest) =
    Ok ([], (prev_producer_id e, next_producer_id e, next_producer_epoch e), rest).
Proof.
  intros (_ & _ & _ & Hp & Hn & He & _) Hw.
  apply (TaggedFields.read_write_fed known (tagged e)); [..|exact Hw]; unfold tagged;
    destruct (Z.eqb_spec (prev_producer_id e) (-1)) as [->|?],
    (Z.eqb_spec (next_producer_id e) (-1)) as [->|?],
    (Z.eqb_spec (next_producer_epoch e) (-1)) as [->|?]; cbn [negb app].
  all: try by repeat constructor.
  all: repeat (eapply TaggedFields.feeds_cons; [by first [apply known_prev|apply known_next|apply known_next_epoch]|]; cbn [fst snd]); apply TaggedFields.feeds_nil.
Qed.

(** No topic is listed without a partition. *)
Lemma push_nonempty l m t :
  (∀ t, m !! t ≠ Some []) → foldl push m l !! t ≠ Some [].
Proof.
  revert m. induction l as [|tp l IH]; intros m Hm; simpl; [done|]. apply IH.
  intros t'. rewrite lookup_push. intros [[_ H]|[_ H]]; [|by eapply Hm].
  by destruct (default [] (m !! t')).
Qed.

Lemma group_valid_all e : entry_valid e → Forall group_valid (group_partitions (partitions e)).
Proof.
  intros (_ & _ & _ & _ & _ & _ & _ & _ & Hps). apply Forall_forall. intros [t ids] Hg.
  assert (∀ p, p ∈ ids → Utf8.utf8_valid t = true ∧ in_s 32 p) as Hp.
  { intros p Hin. apply Hps. rewrite <- (group_partitions_flatten (partitions e)).
    apply elem_of_list_to_set, elem_of_flatten. eauto. }
  assert (∃ p, p ∈ ids) as [p Hin].
  { apply list_elem_of_fmap in Hg as ([t' ids'] & Heq & Hg). apply pair_equal_spec in Heq as [-> ->].
    rewrite merge_sort_Permutation in Hg. apply elem_of_map_to_list in Hg.
    destruct ids' as [|p ids']; [by apply push_nonempty in Hg|].
    exists p. rewrite merge_sort_Permutation. set_solver. }
  split; [by eapply Hp|]. apply Forall_forall. intros q Hq. by apply Hp.
Qed.

Lemma get_partitions_put e (flexible : bool) bs rest :
  entry_valid e →
  (let groups := group_partitions (partitions e) in
   if bool_decide (groups = []) then put_nullable_array_len None flexible
   else len ← put_nullable_array_len (Some (length groups)) flexible;
        gs ← mapM (encode_group flexible) groups;
        Some (len ++ concat gs)) = Some bs →
  ('(count, buf) ← get_nullable_array_len flexible (bs ++ rest);
   match count with Some n => get_groups n flexible ∅ buf | None => Ok (∅, buf) end) = Ok (partitions e, rest).
Proof.
  intros Hv Hbs. cbv zeta in Hbs. pose proof (group_valid_all e Hv) as Hgv.
  pose proof (group_partitions_flatten (partitions e)) as Hflat.
  case_bool_decide as Hnil.
  - rewrite (get_nullable_array_len_put None) by (done || simpl; lia). cbn [mbind result_bind].
    rewrite Hnil in Hflat. by rewrite <- Hflat.
  - destruct (put_nullable_array_len _ _) as [lbs|] eqn:Hl; [cbn [mbind option_bind] in Hbs|done].
    destruct (mapM _ _) as [gss|] eqn:Hm; [cbn [mbind option_bind] in Hbs|done].
    apply Some_inj in Hbs as <-. rewrite <- app_assoc.
    rewrite (get_nullable_array_len_put (Some (length (group_partitions (partitions e))))); [|done|].
    + cbn [mbind result_bind]. rewrite get_groups_put by done. by rewrite Hflat, (left_id_L ∅ (∪)).
    + cbn [default]. unfold id. rewrite length_app. apply mapM_Some_1 in Hm.
      assert (length (group_partitions (partitions e)) ≤ length (concat gss))%nat; [|lia].
      clear -Hm. induction Hm as [|g bs gs gss Hg _ IH]; simpl; [done|].
      apply encode_group_nonempty in Hg. rewrite length_app. lia.
Qed.

(** An entry survives the transaction log: what [encode_value] writes in either
    version decodes to the same entry, provided that the old version, which has no
    room for it, is not asked to keep a previous or staged identity. *)
Theorem txn_value_roundtrip e (flexible : bool) bs :
  entry_valid e →
  (flexible = false → prev_producer_id e = -1 ∧ next_producer_id e = -1 ∧ next_producer_epoch e = -1) →
  encode_value e flexible = Some bs →
  decode_value bs (transactional_id e) = Ok e.
Proof.
  intros Hv Hflex Henc. unfold encode_value in Henc. cbv zeta in Henc.
  destruct (if bool_decide _ then _ else _) as [ps|] eqn:Hps; [cbn [mbind option_bind] in Henc|done].
  destruct (if flexible then TaggedFields.write _ _ else _) as [tags|] eqn:Ht; [cbn [mbind option_bind] in Henc|done].
  apply Some_inj in Henc as <-. pose proof Hv as (Hpid & Hep & Hto & _ & _ & _ & Hlu & Hst & _).
  unfold decode_value. rewrite wire_roundtrip by (destruct flexible; done). cbn [mbind result_bind].
  replace (if (if flexible then 1 else 0) =? 0 then _ else _) with (@Ok ProtocolError bool flexible) by by destruct flexible.
  cbn [mbind result_bind]. do 3 (rewrite wire_roundtrip by done; cbn [mbind result_bind]).
  rewrite wire_roundtrip by (by destruct (state e)). cbn [mbind result_bind].
  replace (from_kafka_status _) with (Some (state e)) by by destruct (state e). cbn [mbind result_bind].
  eapply get_partitions_put in Hps; [|done]. apply bind_Ok in Hps as ([count buf] & -> & Hps).
  cbn [mbind result_bind]. rewrite Hps. cbn [mbind result_bind].
  do 2 (rewrite wire_roundtrip by done; cbn [mbind result_bind]).
  destruct flexible.
  - apply (read_known e tags []) in Ht; [|done]. rewrite app_nil_r in Ht. rewrite Ht. by destruct e.
  - injection Ht as <-. destruct Hflex as (H1 & H2 & H3); [done|]. cbn [mbind result_bind].
    destruct e; simpl in *; by subst.
Qed.

Definition sample : TxnEntry :=
  mkTxn [x74] 7 3 PrepareAbort 60000 {[([x61], 0); ([x61], 2); ([x62], 1)]} 5 9 4 100 90.

Lemma sample_valid : entry_valid sample.
Proof.
  unfold entry_valid, sample, in_s. cbn [producer_id producer_epoch txn_timeout_ms prev_producer_id
    next_producer_id next_producer_epoch last_update_ms start_ms partitions].
  split_and!; try lia. intros t p Hin.
  repeat (apply elem_of_union in Hin as [Hin|Hin]); apply elem_of_singleton in Hin;
    apply pair_equal_spec in Hin as [-> ->]; (split; [reflexivity|lia]).
Qed.

Lemma txn_value_roundtrip_witness :
  ∃ bs, encode_value sample true = Some bs ∧ decode_value bs [x74] = Ok sample.
Proof.
  destruct (encode_value sample true) as [bs|] eqn:Hbs; [|vm_compute in Hbs; discriminate].
  exists bs. split; [reflexivity|].
  apply (txn_value_roundtrip sample true bs); [exact sample_valid|intros [=]|exact Hbs].
Defined.

Lemma txn_key_roundtrip tid bs :
  Utf8.utf8_valid tid = true → encode_key tid = Some bs → decode_key bs = Ok tid.
Proof.
  intros Hv H. unfold encode_key in H. destruct (put_string tid) as [s|] eqn:Hs; [|done].
  apply Some_inj in H as <-. unfold decode_key. rewrite wire_roundtrip by done. cbn [mbind result_bind Z.eqb negb].
  pose proof (get_topic_put false tid s [] Hv Hs) as H. rewrite app_nil_r in H. simpl in H. by rewrite H.
Qed.
