(* ===== verification/TxnCoord.v ===== *)
(** * Transactions: the coordinator and its requests

    Models [crates/broker/src/txn/coordinator.rs] and the handlers that drive it:
    [handlers/init_producer_id.rs], [txn/handlers/add_partitions_to_txn.rs],
    [txn/handlers/add_offset_commits_to_txn.rs], [txn/handlers/end_txn.rs] and the
    check of a transactional batch in [handlers/produce.rs].

    An [Arc<Mutex<TxnEntry>>] is the index of a cell of [cells]; [put] allocates a new
    cell, so that two requests can hold different cells of one transactional id.  Each
    handler is cut where it releases the lock of a cell: the pieces are operations of
    their own, which [TxnCases.v] interleaves.  The clock is read once per request,
    [now]; [io] says which of the coming appends and allocations succeed and [misses]
    which partitions the coming marker fan-outs do not reach (both succeed when they
    run out); [gone] are the partitions deleted from the cluster. *)

From S2P Require Import Prelude Wire TxnState TxnLog.

Inductive MarkerType : Type := Commit | Abort.
Record Marker : Type := mkMarker {
  m_partition : TopicPartition;
  m_producer_id : ProducerId;
  m_producer_epoch : Z;
  m_type : MarkerType;
}.

Definition Tid : Type := list byte.
(** A record of [__transaction_state]: a key and, unless it is a tombstone, a value. *)
Definition LogRecord : Type := list byte * option (list byte).

Record Coordinator : Type := mkCoord {
  num_partitions : Z;
  leader_partitions : gset Z;
  logs : gmap Z (list LogRecord);
  cells : list TxnEntry;
  slots : gmap Tid nat;
  pid_to_tid : gmap ProducerId Tid;
  next_pid : ProducerId;
  markers : list Marker;
  gone : gset TopicPartition;
  io : list bool;
  misses : list (gset TopicPartition);
}.

Definition set_leaders ps (c : Coordinator) : Coordinator :=
  mkCoord (num_partitions c) ps (logs c) (cells c) (slots c) (pid_to_tid c) (next_pid c) (markers c) (gone c) (io c) (misses c).
Definition set_cells cs (c : Coordinator) : Coordinator :=
  mkCoord (num_partitions c) (leader_partitions c) (logs c) cs (slots c) (pid_to_tid c) (next_pid c) (markers c) (gone c) (io c) (misses c).
Definition set_next_pid n (c : Coordinator) : Coordinator :=
  mkCoord (num_partitions c) (leader_partitions c) (logs c) (cells c) (slots c) (pid_to_tid c) n (markers c) (gone c) (io c) (misses c).
Definition set_io bs (c : Coordinator) : Coordinator :=
  mkCoord (num_partitions c) (leader_partitions c) (logs c) (cells c) (slots c) (pid_to_tid c) (next_pid c) (markers c) (gone c) bs (misses c).
(** What [put] replaces once its append is through. *)
Definition install ls cs ss ps (c : Coordinator) : Coordinator :=
  mkCoord (num_partitions c) (leader_partitions c) ls cs ss ps (next_pid c) (markers c) (gone c) (io c) (misses c).
(** What a fan-out replaces. *)
Definition marked ms us (c : Coordinator) : Coordinator :=
  mkCoord (num_partitions c) (leader_partitions c) (logs c) (cells c) (slots c) (pid_to_tid c) (next_pid c) ms (gone c) (io c) us.

(** ** Requests as programs

    A request ends with a value, with a Kafka error code, or with a [BrokerError]. *)
Inductive Failure : Type := Code (code : Z) | BrokerError.
Definition M (A : Type) : Type := Coordinator → Coordinator * result Failure A.
#[global] Instance M_ret : MRet M := fun A a c => (c, Ok a).
#[global] Instance M_bind : MBind M := fun A B f m c =>
  let '(c, r) := m c in
  match r with Ok a => f a c | Err e => (c, Err e) end.
Definition fail {A} (e : Failure) : M A := fun c => (c, Err e).
Definition gets {A} (f : Coordinator → A) : M A := fun c => (c, Ok (f c)).
Definition modify (f : Coordinator → Coordinator) : M unit := fun c => (f c, Ok tt).
Definition guard_code (b : bool) (code : Z) : M unit := if b then mret tt else fail (Code code).
(** [match m { Ok(a) => .., Err(_) => .. }] *)
Definition catch {A} (m : M A) : M (option A) := fun c =>
  let '(c, r) := m c in (c, Ok (match r with Ok a => Some a | Err _ => None end)).
Definition or_code {A} (m : M A) (code : Z) : M A := fun c =>
  let '(c, r) := m c in (c, match r with Ok a => Ok a | Err _ => Err (Code code) end).

(** ** ProducerIdManager::allocate *)
Definition draw : M unit := fun c =>
  match io c with
  | [] => (c, Ok tt)
  | true :: bs => (set_io bs c, Ok tt)
  | false :: bs => (set_io bs c, Err BrokerError)
  end.
Definition allocate : M Identity :=
  _ ← draw;
  next ← gets next_pid;
  _ ← modify (set_next_pid (next + 1));
  mret (next, 0).

(** ** coordinator.rs *)
Definition partition_for (tid : Tid) (c : Coordinator) : option Z := partition_for_tid tid (num_partitions c).
(** [led] are the partitions of [__transaction_state] that the image assigns to this node. *)
Definition refresh_leader_partitions (led : gset Z) : M unit := modify (set_leaders led).
Definition is_coordinator_for (tid : Tid) (c : Coordinator) : bool :=
  match partition_for tid c with Some p => bool_decide (p ∈ leader_partitions c) | None => false end.
Definition get (tid : Tid) (c : Coordinator) : option nat := slots c !! tid.
Definition tid_for_pid (pid : ProducerId) (c : Coordinator) : option Tid := pid_to_tid c !! pid.

(** [handle.lock().await], and the entry that the guard leaves behind. *)
Definition lock (i : nat) : M TxnEntry := fun c =>
  match cells c !! i with Some e => (c, Ok e) | None => (c, Err BrokerError) end.
Definition store (i : nat) (e : TxnEntry) : M unit := modify (fun c => set_cells (<[i := e]> (cells c)) c).

Definition evict_superseded_pids (m : gmap ProducerId Tid) (e : TxnEntry) : gmap ProducerId Tid :=
  filter (fun kv => kv.2 ≠ transactional_id e ∨ kv.1 = producer_id e ∨ kv.1 = next_producer_id e) m.
(** The two insertions that [put] and [recover] share. *)
Definition index_pids (e : TxnEntry) (m : gmap ProducerId Tid) : gmap ProducerId Tid :=
  let m := <[producer_id e := transactional_id e]> m in
  if negb (next_producer_id e =? -1) then <[next_producer_id e := transactional_id e]> m else m.

(** The batch that [put] appends: where to, after what, and its record. *)
Definition prepare_append (e : TxnEntry) (txnv : TxnVersion) (c : Coordinator) :
    option (Z * list LogRecord * LogRecord) :=
  p ← partition_for (transactional_id e) c;
  l ← logs c !! p;
  k ← encode_key (transactional_id e);
  v ← encode_value e (flexible_records txnv);
  Some (p, l, (k, Some v)).
Definition put (e : TxnEntry) (txnv : TxnVersion) : M unit :=
  b ← gets (prepare_append e txnv);
  match b with
  | None => fail BrokerError
  | Some (p, l, r) =>
      _ ← draw;
      modify (fun c => install (<[p := l ++ [r]]> (logs c)) (cells c ++ [e])
                         (<[transactional_id e := length (cells c)]> (slots c))
                         (index_pids e (evict_superseded_pids (pid_to_tid c) e)) c)
  end.

(** The fan-out of [dispatch_markers]: one marker of the entry's identity for each
    registered partition that still exists, as far as the fan-out gets. *)
Definition dispatch_transaction_markers (e : TxnEntry) (ty : MarkerType) : M unit := fun c =>
  let targets := partitions e ∖ gone c in
  let missed := default ∅ (head (misses c)) in
  let ms := map (fun tp => mkMarker tp (producer_id e) (producer_epoch e) ty) (elements (targets ∖ missed)) in
  (marked (markers c ++ ms) (tail (misses c)) c,
   if bool_decide (targets ∩ missed = ∅) then Ok tt else Err BrokerError).

(** ** Completion identities: handlers/end_txn.rs *)
Definition fresh_when (b : bool) : M (option ProducerId) :=
  if b then '(p, _) ← allocate; mret (Some p) else mret None.
Definition expect {A} (o : option A) : M A := match o with Some a => mret a | None => fail BrokerError end.
Definition next_producer_identity (txnv : TxnVersion) (pid : ProducerId) (epoch : Z) : M Identity :=
  fresh ← fresh_when (verified txnv && (I16_MAX - 1 <=? epoch));
  expect (next_producer_identity_with_fresh txnv pid epoch fresh).
Definition next_recovery_producer_identity (pid : ProducerId) (epoch : Z) : M Identity :=
  fresh ← fresh_when (epoch =? I16_MAX);
  expect (next_recovery_producer_identity_with_fresh pid epoch fresh).
Definition prepare_completion_identities (e : TxnEntry) (txnv : TxnVersion) : M TxnEntry :=
  let '(_, client_epoch) := client_producer_identity e in
  let at_rotation_boundary :=
    if has_staged_producer_identity e then client_epoch =? I16_MAX else I16_MAX - 1 <=? client_epoch in
  fresh ← fresh_when (verified txnv && at_rotation_boundary);
  expect (prepare_completion_identities_with_fresh e txnv fresh).

(** ** Registering partitions *)

(** The section of [register_partitions] under the lock, and the snapshot it leaves. *)
Definition register_lock (tid : Tid) (pid : ProducerId) (epoch : Z) (ps : list TopicPartition) (now : Z) : M TxnEntry :=
  mine ← gets (is_coordinator_for tid);
  _ ← guard_code mine NOT_COORDINATOR;
  slot ← gets (get tid);
  match slot with
  | None => fail (Code INVALID_PRODUCER_ID_MAPPING)
  | Some i =>
      e ← lock i;
      _ ← guard_code (negb (has_staged_producer_identity e)) INVALID_TXN_STATE;
      _ ← guard_code ((producer_id e =? pid) && (producer_epoch e =? epoch)) INVALID_PRODUCER_EPOCH;
      _ ← guard_code (can_transition_to (state e) Ongoing) INVALID_TXN_STATE;
      let prior_state := state e in
      let e := if bool_decide (prior_state = CompleteCommit ∨ prior_state = CompleteAbort)
               then with_partitions ∅ e else e in
      let e := with_state Ongoing e in
      let e := if bool_decide (prior_state = Ongoing) then e else with_start now e in
      let e := with_last_update now (with_partitions (partitions e ∪ list_to_set ps) e) in
      _ ← store i e;
      mret e
  end.
Definition register_partitions (tid : Tid) (pid : ProducerId) (epoch : Z) (ps : list TopicPartition)
    (txnv : TxnVersion) (now : Z) : M unit :=
  snapshot ← register_lock tid pid epoch ps now;
  or_code (put snapshot txnv) UNKNOWN_SERVER_ERROR.

(** [AddPartitionsToTxn]: the rows of the response, a code for each partition of each
    topic; [denied] are the topics that the principal may not write. *)
Definition TOPIC_AUTHORIZATION_FAILED : Z := 29.
Definition TRANSACTION_ABORTABLE : Z := 120.
Definition TxnTopic : Type := list byte * list Z.
Definition TopicResult : Type := list byte * list (Z * Z).

Definition verify_partition_code (e : TxnEntry) (tp : TopicPartition) : Z :=
  if bool_decide (tp ∈ partitions e) then NONE else TRANSACTION_ABORTABLE.
Definition verify_partitions (e : TxnEntry) (topics : list TxnTopic) (denied : gset (list byte)) : list TopicResult :=
  map (fun t => (t.1, map (fun p => (p, if bool_decide (t.1 ∈ denied) then TOPIC_AUTHORIZATION_FAILED
                                        else verify_partition_code e (t.1, p))) t.2)) topics.
Definition per_topic_with_denied (topics : list TxnTopic) (denied : gset (list byte)) (code : Z) : list TopicResult :=
  map (fun t => (t.1, map (fun p => (p, if bool_decide (t.1 ∈ denied) then TOPIC_AUTHORIZATION_FAILED else code)) t.2)) topics.
Definition topic_error (topics : list TxnTopic) (code : Z) : list TopicResult :=
  map (fun t => (t.1, map (fun p => (p, code)) t.2)) topics.

(** [match]ing the code that a step returns, [NONE] included. *)
Definition code_of (m : M unit) : M Z := fun c =>
  let '(c, r) := m c in
  match r with
  | Ok _ => (c, Ok NONE)
  | Err (Code code) => (c, Ok code)
  | Err BrokerError => (c, Err BrokerError)
  end.
(** The verify-only path, under the lock. *)
Definition verify_only_rows (i : nat) (pid : ProducerId) (epoch : Z) (topics : list TxnTopic) (denied : gset (list byte)) :
    M (list TopicResult) :=
  e ← lock i;
  if has_staged_producer_identity e then mret (per_topic_with_denied topics denied INVALID_TXN_STATE)
  else if negb (producer_id e =? pid) || negb (producer_epoch e =? epoch)
  then mret (per_topic_with_denied topics denied INVALID_PRODUCER_EPOCH)
  else mret (verify_partitions e topics denied).
Definition process_one_txn (tid : Tid) (pid : ProducerId) (epoch : Z) (topics : list TxnTopic)
    (denied : gset (list byte)) (txnv : TxnVersion) (verify_only : bool) (now : Z) : M (list TopicResult) :=
  mine ← gets (is_coordinator_for tid);
  if negb mine then mret (per_topic_with_denied topics denied NOT_COORDINATOR) else
  slot ← gets (get tid);
  match slot with
  | None => mret (per_topic_with_denied topics denied INVALID_PRODUCER_ID_MAPPING)
  | Some i =>
      if verified txnv && verify_only then verify_only_rows i pid epoch topics denied else
      let ps := mjoin (map (fun t => pair t.1 <$> t.2) (filter (fun t => t.1 ∉ denied) topics)) in
      code ← code_of (register_partitions tid pid epoch ps txnv now);
      mret (per_topic_with_denied topics denied code)
  end.
(** The handler, for one transaction of the request; [allowed] and [denied] are the
    answers of the authorizer. *)
Definition add_partitions_to_txn (led : gset Z) (allowed : bool) (denied : gset (list byte)) (tid : Tid)
    (pid : ProducerId) (epoch : Z) (topics : list TxnTopic) (txnv : TxnVersion) (verify_only : bool) (now : Z) :
    M (list TopicResult) :=
  _ ← refresh_leader_partitions led;
  if negb allowed then mret (topic_error topics TRANSACTIONAL_ID_AUTHORIZATION_FAILED)
  else process_one_txn tid pid epoch topics denied txnv verify_only now.

(** [AddOffsetsToTxn]: [part] is the partition of [__consumer_offsets] of the group. *)
Definition add_offsets_to_txn (led : gset Z) (tid : Tid) (pid : ProducerId) (epoch : Z) (part : TopicPartition)
    (txnv : TxnVersion) (now : Z) : M unit :=
  _ ← refresh_leader_partitions led;
  mine ← gets (is_coordinator_for tid);
  _ ← guard_code mine NOT_COORDINATOR;
  slot ← gets (get tid);
  match slot with
  | None => fail (Code INVALID_PRODUCER_ID_MAPPING)
  | Some i =>
      e ← lock i;
      _ ← guard_code (negb (has_staged_producer_identity e)) INVALID_TXN_STATE;
      _ ← guard_code ((producer_id e =? pid) && (producer_epoch e =? epoch)) INVALID_PRODUCER_EPOCH;
      _ ← guard_code (can_transition_to (state e) Ongoing) INVALID_TXN_STATE;
      let e := with_last_update now (with_partitions (partitions e ∪ {[part]}) (with_state Ongoing e)) in
      _ ← store i e;
      or_code (put e txnv) UNKNOWN_SERVER_ERROR
  end.

(** The check of a transactional batch, which registers the partition it goes to. *)
Definition validate_transactional_produce (is_transactional : bool) (pid : ProducerId) (epoch : Z)
    (tp : TopicPartition) (txnv : TxnVersion) (now : Z) : M unit :=
  if negb is_transactional || (pid <? 0) then mret tt else
  slot ← gets (fun c => tid_for_pid pid c ≫= fun tid => get tid c);
  match slot with
  | None => mret tt
  | Some i =>
      e ← lock i;
      _ ← guard_code (negb (has_staged_producer_identity e)) INVALID_TXN_STATE;
      _ ← guard_code (producer_epoch e =? epoch) INVALID_PRODUCER_EPOCH;
      let completed := bool_decide (state e = CompleteCommit ∨ state e = CompleteAbort) in
      if bool_decide (tp ∈ partitions e) && negb completed then mret tt else
      _ ← guard_code (can_transition_to (state e) Ongoing) INVALID_TXN_STATE;
      let e := if completed then with_partitions ∅ e else e in
      let e := with_state Ongoing e in
      let e := with_last_update now (with_partitions (partitions e ∪ {[tp]}) e) in
      _ ← store i e;
      put e txnv
  end.

(** ** Ending a transaction: handlers/end_txn.rs *)
Record EndTxnRequest : Type := mkEnd {
  r_transactional_id : Tid;
  r_producer_id : ProducerId;
  r_producer_epoch : Z;
  r_committed : bool;
}.

(** [inl] is [Proceed] with the cell, [inr] is [AlreadyComplete]; [allowed] is the
    answer of the authorizer. *)
Definition validate_end_txn (allowed : bool) (r : EndTxnRequest) : M (nat + Identity) :=
  _ ← guard_code allowed TRANSACTIONAL_ID_AUTHORIZATION_FAILED;
  mine ← gets (is_coordinator_for (r_transactional_id r));
  _ ← guard_code mine NOT_COORDINATOR;
  slot ← gets (get (r_transactional_id r));
  match slot with
  | None => fail (Code INVALID_PRODUCER_ID_MAPPING)
  | Some i =>
      e ← lock i;
      _ ← guard_code (negb (bool_decide (state e = PrepareCommit ∨ state e = PrepareAbort))) CONCURRENT_TRANSACTIONS;
      if bool_decide (state e = CompleteCommit ∨ state e = CompleteAbort)
         && eqb (bool_decide (state e = CompleteCommit)) (r_committed r)
         && is_completed_end_txn_retry e (r_producer_id r) (r_producer_epoch r)
      then mret (inr (producer_id e, producer_epoch e))
      else
        _ ← guard_code (bool_decide (client_producer_identity e = (r_producer_id r, r_producer_epoch r)))
              INVALID_PRODUCER_EPOCH;
        mret (inl i)
  end.

Definition marker_of (committed : bool) : MarkerType := if committed then Commit else Abort.

(** Phase 1 under the lock. *)
Definition prepare_lock (i : nat) (committed : bool) (txnv : TxnVersion) (now : Z) :
    M (TxnState * TxnState * TxnEntry) :=
  e ← lock i;
  match decide_phase1_transition e committed with
  | Err code => fail (Code code)
  | Ok (e, prepare, complete) =>
      _ ← store i e;
      e ← or_code (prepare_completion_identities e txnv) UNKNOWN_SERVER_ERROR;
      let e := with_last_update now e in
      _ ← store i e;
      mret (prepare, complete, e)
  end.
Definition prepare_transaction (i : nat) (committed : bool) (txnv : TxnVersion) (now : Z) :
    M (TxnState * TxnState * TxnEntry) :=
  '(prepare, complete, snapshot) ← prepare_lock i committed txnv now;
  _ ← or_code (put snapshot txnv) UNKNOWN_SERVER_ERROR;
  mret (prepare, complete, snapshot).

(** Phase 3, under the lock of whatever cell is current by then. *)
Definition complete_end_txn (r : EndTxnRequest) (prepare complete : TxnState) (prepare_snap : TxnEntry)
    (txnv : TxnVersion) (now : Z) : M Identity :=
  slot ← gets (get (r_transactional_id r));
  match slot with
  | None => fail (Code INVALID_PRODUCER_ID_MAPPING)
  | Some i =>
      e ← lock i;
      let '(pid, epoch) := completion_producer_identity prepare_snap in
      match decide_end_txn_completion e (producer_id prepare_snap) (producer_epoch prepare_snap) pid epoch prepare complete with
      | AlreadyComplete pid epoch => mret (pid, epoch)
      | Reject code => fail (Code code)
      | Proceed next_state new_pid new_epoch =>
          let e := if negb (new_pid =? r_producer_id r) then with_prev (r_producer_id r) e else e in
          let e := with_last_update now (with_state next_state e) in
          let e := with_partitions ∅ (with_next (-1) (-1) (with_identity new_pid new_epoch e)) in
          _ ← store i e;
          _ ← or_code (put e txnv) UNKNOWN_SERVER_ERROR;
          mret (new_pid, new_epoch)
      end
  end.

Definition end_txn (led : gset Z) (allowed : bool) (r : EndTxnRequest) (txnv : TxnVersion) (now : Z) : M Identity :=
  _ ← refresh_leader_partitions led;
  v ← validate_end_txn allowed r;
  match v with
  | inr id => mret id
  | inl i =>
      '(prepare, complete, snap) ← prepare_transaction i (r_committed r) txnv now;
      _ ← or_code (dispatch_transaction_markers snap (marker_of (r_committed r))) UNKNOWN_SERVER_ERROR;
      complete_end_txn r prepare complete snap txnv now
  end.

(** ** Obtaining a producer identity: handlers/init_producer_id.rs *)
Record InitProducerIdResponse : Type := mkInit {
  i_producer_id : ProducerId;
  i_producer_epoch : Z;
  ongoing_txn_producer_id : ProducerId;
  ongoing_txn_producer_epoch : Z;
}.
(** A response without an ongoing transaction. *)
Definition granted (id : Identity) : InitProducerIdResponse := mkInit id.1 id.2 (-1) (-1).

Definition next_init_producer_identity (e : TxnEntry) (txnv : TxnVersion) : M Identity :=
  let '(pid, epoch) := client_producer_identity e in
  if verified txnv then next_producer_identity txnv pid epoch
  else match checked_succ epoch with
       | Some next_epoch => mret (pid, next_epoch)
       | None => allocate
       end.

Definition stage_recovery_identity (e : TxnEntry) : M (TxnEntry * Identity) :=
  let '(client_pid, client_epoch) := client_producer_identity e in
  '(pid, epoch) ← (if has_staged_producer_identity e
                   then next_recovery_producer_identity client_pid client_epoch
                   else next_producer_identity TwoPhase client_pid client_epoch);
  mret (with_next pid epoch e, (pid, epoch)).

(** The [keep_prepared_txn] branch: the response, or [None] to go on. *)
Definition keep_prepared (i : nat) (enable_2pc : bool) (txnv : TxnVersion) (now : Z) : M (option InitProducerIdResponse) :=
  e ← lock i;
  if bool_decide (state e = Ongoing) then
    let ongoing_pid := producer_id e in
    let ongoing_epoch := producer_epoch e in
    let e := if enable_2pc then with_timeout NO_TIMEOUT_MS e else e in
    _ ← store i e;
    '(e, (pid, epoch)) ← stage_recovery_identity e;
    let e := with_last_update now e in
    _ ← store i e;
    _ ← put e txnv;
    mret (Some (mkInit pid epoch ongoing_pid ongoing_epoch))
  else
    _ ← guard_code (negb (bool_decide (state e = PrepareCommit ∨ state e = PrepareAbort))) CONCURRENT_TRANSACTIONS;
    mret None.

(** The transaction that the previous holder left open is aborted; whether there was one. *)
Definition abort_ongoing (i : nat) (txnv : TxnVersion) (now : Z) : M bool :=
  e ← lock i;
  if bool_decide (state e = Ongoing) then
    let request_pid := (client_producer_identity e).1 in
    let e := with_state PrepareAbort e in
    _ ← store i e;
    e ← prepare_completion_identities e txnv;
    let e := with_last_update now e in
    _ ← store i e;
    _ ← put e txnv;
    _ ← dispatch_transaction_markers e Abort;
    e2 ← lock i;
    let e2 := with_last_update now (with_state CompleteAbort e2) in
    let '(completed_pid, completed_epoch) := completion_producer_identity e2 in
    let e2 := if negb (completed_pid =? request_pid) then with_prev request_pid e2 else e2 in
    let e2 := with_partitions ∅ (with_next (-1) (-1) (with_identity completed_pid completed_epoch e2)) in
    _ ← store i e2;
    _ ← put e2 txnv;
    mret true
  else mret false.

(** The last section: a new epoch over whatever entry is current. *)
Definition reinitialise (existing : nat) (aborted_ongoing : bool) (tid : Tid) (txnv : TxnVersion) (timeout now : Z) :
    M InitProducerIdResponse :=
  current ← gets (get tid);
  let current := default existing current in
  e3 ← lock current;
  id ← (if aborted_ongoing && verified txnv then mret (producer_id e3, producer_epoch e3)
        else next_init_producer_identity e3 txnv);
  let snap := new_empty tid id.1 id.2 timeout now in
  _ ← store current snap;
  _ ← put snap txnv;
  mret (granted (producer_id snap, producer_epoch snap)).

Definition handle_transactional (tid : Tid) (txnv : TxnVersion) (timeout : Z) (enable_2pc keep_prepared_txn : bool)
    (now : Z) : M InitProducerIdResponse :=
  slot ← gets (get tid);
  match slot with
  | None =>
      '(pid, epoch) ← allocate;
      _ ← put (new_empty tid pid epoch timeout now) txnv;
      mret (granted (pid, epoch))
  | Some existing =>
      answer ← (if keep_prepared_txn then keep_prepared existing enable_2pc txnv now else mret None);
      match answer with
      | Some resp => mret resp
      | None =>
          aborted_ongoing ← abort_ongoing existing txnv now;
          reinitialise existing aborted_ongoing tid txnv timeout now
      end
  end.

Record InitProducerIdRequest : Type := mkInitReq {
  q_transactional_id : option Tid;
  q_transaction_timeout_ms : Z;
  q_producer_id : ProducerId;
  q_producer_epoch : Z;
  q_enable2_pc : bool;
  q_keep_prepared_txn : bool;
}.
Definition CLUSTER_AUTHORIZATION_FAILED : Z := 31.
(** The configuration and the authorizer's answers that the request meets. *)
Record InitGates : Type := mkGates {
  may_write : bool;
  may_idempotent_write : bool;
  may_two_phase : bool;
  transaction_two_phase_commit_enable : bool;
  transaction_min_timeout : Z;
  transaction_max_timeout : Z;
}.

(** The partition of the transactional id is opened when it is not yet; it has no
    records then. *)
Definition materialize_partition (tid : Tid) : M unit :=
  open ← gets (fun c => p ← partition_for tid c; logs c !! p);
  match open with
  | Some _ => mret tt
  | None =>
      _ ← draw;
      modify (fun c => match partition_for tid c with
                       | Some p => install (<[p := []]> (logs c)) (cells c) (slots c) (pid_to_tid c) c
                       | None => c
                       end)
  end.
Definition init_producer_id (g : InitGates) (led : gset Z) (r : InitProducerIdRequest) (txnv : TxnVersion) (now : Z) :
    M InitProducerIdResponse :=
  match q_transactional_id r with
  | None | Some [] =>
      _ ← guard_code (may_idempotent_write g) CLUSTER_AUTHORIZATION_FAILED;
      id ← allocate;
      mret (granted id)
  | Some tid =>
      _ ← guard_code (may_write g) TRANSACTIONAL_ID_AUTHORIZATION_FAILED;
      let two_pc := q_enable2_pc r || q_keep_prepared_txn r in
      _ ← guard_code (negb two_pc || transaction_two_phase_commit_enable g) TRANSACTIONAL_ID_AUTHORIZATION_FAILED;
      _ ← guard_code (negb two_pc || may_two_phase g) TRANSACTIONAL_ID_AUTHORIZATION_FAILED;
      _ ← guard_code (negb (q_keep_prepared_txn r && (negb (q_producer_id r =? -1) || negb (q_producer_epoch r =? -1))))
            INVALID_REQUEST;
      _ ← guard_code (negb two_pc || two_phase txnv) UNSUPPORTED_VERSION;
      _ ← refresh_leader_partitions led;
      mine ← gets (is_coordinator_for tid);
      _ ← guard_code mine NOT_COORDINATOR;
      _ ← materialize_partition tid;
      timeout ← expect (resolve_txn_timeout (q_enable2_pc r) (q_transaction_timeout_ms r)
                          (transaction_min_timeout g) (transaction_max_timeout g));
      handle_transactional tid txnv timeout (q_enable2_pc r) (q_keep_prepared_txn r) now
  end.

(** ** The reaper: [ReaperBackend for TxnCoordinator] and the sweep *)
Definition prepare_abort (tid : Tid) (now : Z) (txnv : TxnVersion) : M TxnEntry :=
  slot ← gets (get tid);
  match slot with
  | None => fail BrokerError
  | Some i =>
      e ← lock i;
      if bool_decide (state e = PrepareAbort) then mret e else
      if negb (should_abort_idle_txn (state e) (txn_timeout_ms e) (start_ms e) now) then fail BrokerError else
      let e := apply_prepare_abort now e in
      _ ← store i e;
      e ← prepare_completion_identities e txnv;
      _ ← store i e;
      _ ← put e txnv;
      mret e
  end.

Definition complete_abort (prepared : TxnEntry) (now : Z) (txnv : TxnVersion) : M TxnEntry :=
  slot ← gets (get (transactional_id prepared));
  match slot with
  | None => fail BrokerError
  | Some i =>
      e ← lock i;
      if negb (complete_abort_guard_ok e prepared) then fail BrokerError else
      let '(new_pid, new_epoch) := completion_producer_identity e in
      let e := apply_complete_abort new_pid new_epoch now e in
      _ ← store i e;
      _ ← put e txnv;
      mret e
  end.

(** One round of the loop, which fails where the source [continue]s. *)
Definition reap (tid : Tid) (now : Z) (txnv : TxnVersion) : M unit :=
  mine ← gets (is_coordinator_for tid);
  _ ← (if (mine : bool) then mret tt else fail BrokerError);
  prepared ← prepare_abort tid now txnv;
  _ ← dispatch_transaction_markers prepared Abort;
  _ ← complete_abort prepared now txnv;
  mret tt.
Fixpoint sweep_with_backend (candidates : list Tid) (now : Z) (txnv : TxnVersion) : M (list Tid) :=
  match candidates with
  | [] => mret []
  | tid :: candidates =>
      done ← catch (reap tid now txnv);
      aborted ← sweep_with_backend candidates now txnv;
      mret (match done with Some _ => tid :: aborted | None => aborted end)
  end.
(** [expiration::sweep_once]; the candidates come in the order of the map. *)
Definition sweep_once (led : gset Z) (txnv : TxnVersion) (now : Z) : M (list Tid) :=
  _ ← refresh_leader_partitions led;
  candidates ← gets (fun c => (map_to_list (slots c)).*1);
  sweep_with_backend candidates now txnv.

(** ** Recovery *)
Definition replay (c : Coordinator) (r : LogRecord) : Coordinator :=
  match decode_key r.1 with
  | Err _ => c
  | Ok tid =>
      match r.2 with
      | None => install (logs c) (cells c) (delete tid (slots c)) (pid_to_tid c) c
      | Some v =>
          match decode_value v tid with
          | Err _ => c
          | Ok e => install (logs c) (cells c ++ [e]) (<[transactional_id e := length (cells c)]> (slots c))
                      (index_pids e (pid_to_tid c)) c
          end
      end
  end.
Definition recover (led : gset Z) (c : Coordinator) : Coordinator :=
  let c := set_leaders led c in
  foldl (fun c p => foldl replay c (default [] (logs c !! p))) c (elements (leader_partitions c)).
(** A coordinator that starts over the same partitions: [TxnCoordinator::new]. *)
Definition new (num : Z) (ls : gmap Z (list LogRecord)) (next : ProducerId) (ms : list Marker)
    (deleted : gset TopicPartition) : Coordinator :=
  mkCoord num ∅ ls [] ∅ ∅ next ms deleted [] [].
Definition restart (led : gset Z) (c : Coordinator) : Coordinator :=
  recover led (new (num_partitions c) (logs c) (next_pid c) (markers c) (gone c)).
