(* ===== verification/TxnCases.v ===== *)
(** * Transactions: runs that end badly

    What becomes of an entry that a failed fan-out leaves in [PrepareCommit], for every
    state of the coordinator of [TxnCoord.v]; and concrete runs, each evaluated to the
    end: what a failed append, an interleaving or a restart leads to. *)

From S2P Require Import Prelude TxnState TxnLog TxnCoord.

(** One partition of [__transaction_state], led here. *)
Definition start : Coordinator := set_leaders {[0]} (new 1 {[0 := []]} 7 [] ∅).
Definition t1 : Tid := [x74].
Definition A : TopicPartition := ([x61], 0).
Definition B : TopicPartition := ([x62], 0).
Definition gates : InitGates := mkGates true true true true 1000 900000.
Definition init (txnv : TxnVersion) (now : Z) : M InitProducerIdResponse :=
  init_producer_id gates {[0]} (mkInitReq (Some t1) 60000 (-1) (-1) false false) txnv now.
Definition end_ (txnv : TxnVersion) (id : Identity) (committed : bool) (now : Z) : M Identity :=
  end_txn {[0]} true (mkEnd t1 id.1 id.2 committed) txnv now.
Definition register (txnv : TxnVersion) (id : Identity) (ps : list TopicPartition) (now : Z) : M unit :=
  register_partitions t1 id.1 id.2 ps txnv now.
Definition with_faults (bs : list bool) (us : list (gset TopicPartition)) (c : Coordinator) : Coordinator :=
  marked (markers c) us (set_io bs c).
Definition then_ {X} (c : Coordinator) (m : M X) : Coordinator := (m c).1.
Definition answer {X} (c : Coordinator) (m : M X) : result Failure X := (m c).2.
Definition current (tid : Tid) (c : Coordinator) : option TxnEntry := get tid c ≫= fun i => cells c !! i.

(** ** A decided commit whose fan-out failed *)
Section Stuck.
Context (c : Coordinator) (tid : Tid) (i : nat) (e : TxnEntry).
Hypothesis slot : get tid c = Some i.
Hypothesis cell : cells c !! i = Some e.
Hypothesis decided : state e = PrepareCommit.

Lemma lock_stuck : lock i c = (c, Ok e).
Proof using cell. unfold lock. by rewrite cell. Qed.
Lemma lock_led led : lock i (set_leaders led c) = (set_leaders led c, Ok e).
Proof using cell. unfold lock. simpl. by rewrite cell. Qed.
Lemma get_led led : get tid (set_leaders led c) = Some i.
Proof using slot. done. Qed.

(** Runs a request up to its next test, and takes the branch that a refusal ends. *)
Ltac run :=
  repeat (unfold refresh_leader_partitions, mbind, M_bind, mret, M_ret, modify, guard_code, fail, gets; simpl;
          rewrite ?get_led, ?slot, ?lock_led, ?lock_stuck, ?decided; simpl).
Ltac refuse b := destruct b; [|by eexists]; run.

Lemma stuck_end_txn led allowed r txnv now :
  r_transactional_id r = tid → ∃ code, end_txn led allowed r txnv now c = (set_leaders led c, Err (Code code)).
Proof using slot cell decided.
  intros Hr. unfold end_txn, validate_end_txn. rewrite Hr. run.
  refuse allowed. refuse (is_coordinator_for tid (set_leaders led c)). by eexists.
Qed.
Lemma stuck_register pid epoch ps txnv now :
  ∃ code, register_partitions tid pid epoch ps txnv now c = (c, Err (Code code)).
Proof using slot cell decided.
  unfold register_partitions, register_lock. run. refuse (is_coordinator_for tid c).
  refuse (negb (has_staged_producer_identity e)). refuse ((producer_id e =? pid) && (producer_epoch e =? epoch)). by eexists.
Qed.
Lemma stuck_offsets led pid epoch part txnv now :
  ∃ code, add_offsets_to_txn led tid pid epoch part txnv now c = (set_leaders led c, Err (Code code)).
Proof using slot cell decided.
  unfold add_offsets_to_txn. run. refuse (is_coordinator_for tid (set_leaders led c)).
  refuse (negb (has_staged_producer_identity e)). refuse ((producer_id e =? pid) && (producer_epoch e =? epoch)). by eexists.
Qed.
Lemma stuck_produce is_txn pid epoch tp txnv now :
  tid_for_pid pid c = Some tid → (validate_transactional_produce is_txn pid epoch tp txnv now c).1 = c.
Proof using slot cell decided.
  intros Hp. unfold validate_transactional_produce. destruct (negb is_txn || (pid <? 0)); [done|]. run. rewrite Hp. simpl. run.
  destruct (negb (has_staged_producer_identity e)); [|done]. destruct (producer_epoch e =? epoch); [|done]. run.
  by destruct (bool_decide (tp ∈ partitions e)).
Qed.
Lemma stuck_reap now txnv : reap tid now txnv c = (c, Err BrokerError).
Proof using slot cell decided. unfold reap, prepare_abort. run. destruct (is_coordinator_for tid c); by run. Qed.
Lemma stuck_keep_prepared txnv timeout two_pc now :
  handle_transactional tid txnv timeout two_pc true now c = (c, Err (Code CONCURRENT_TRANSACTIONS)).
Proof using slot cell decided. unfold handle_transactional, keep_prepared. by run. Qed.

(** Drawing an identity, and what it leaves alone. *)
Lemma identity_keeps e' txnv c1 :
  let '(c2, _) := next_init_producer_identity e' txnv c1 in
  markers c2 = markers c1 ∧ cells c2 = cells c1 ∧ slots c2 = slots c1.
Proof.
  unfold next_init_producer_identity, next_producer_identity, fresh_when, allocate, draw, expect.
  destruct (client_producer_identity e') as [pid epoch].
  repeat (unfold mbind, M_bind, mret, M_ret, gets, modify, fail; simpl; case_match; simplify_eq/=); done.
Qed.
Lemma stuck_reinitialise txnv timeout two_pc now :
  let '(c', r) := handle_transactional tid txnv timeout two_pc false now c in
  markers c' = markers c ∧
  ∀ resp, r = Ok resp → ∃ pid epoch, current tid c' = Some (new_empty tid pid epoch timeout now).
Proof using slot cell decided.
  unfold handle_transactional, abort_ongoing, reinitialise. run.
  pose proof (identity_keeps e txnv c) as Hk. destruct (next_init_producer_identity e txnv c) as [c2 [id|err]]; [|by split; [apply Hk|]].
  destruct Hk as (Hm & _). unfold store, put. run. destruct (prepare_append _ _ _) as [[[p l] r]|]; [|by split].
  unfold draw. run. destruct (io c2) as [|[] bs]; run; [..|by split]; (split; [done|]); intros resp _; exists id.1, id.2.
  all: unfold current, get; simpl; rewrite lookup_insert_eq; simpl; by rewrite lookup_app_r, Nat.sub_diag by done.
Qed.
End Stuck.

Definition two_partitions : Coordinator :=
  then_ (then_ start (init Verified 0)) (register Verified (7, 0) [A; B] 10).
(** The fan-out of the commit reaches [A] and misses [B]. *)
Definition half_committed : Coordinator :=
  then_ (with_faults [] [{[B]}] two_partitions) (end_ Verified (7, 0) true 20).

(** C38. An entry in [PrepareCommit], which is how a failed fan-out of markers leaves a
    decided commit, is not completed by any request of its transactional id, nor by
    the reaper.  Every [EndTxn], registration and
    [AddOffsetsToTxn] of its transactional id fails and changes nothing but the
    partitions led; so does the reaper; a transactional Produce of a producer id that
    is indexed to it changes nothing; and [InitProducerId] either refuses, when asked
    to keep a prepared transaction, or writes no marker and, when it succeeds, leaves
    an empty entry without partitions in its place. *)
Theorem failed_commit_is_forgotten c tid i e :
  get tid c = Some i → cells c !! i = Some e → state e = PrepareCommit →
  (∀ led allowed r txnv now, r_transactional_id r = tid →
     ∃ code, end_txn led allowed r txnv now c = (set_leaders led c, Err (Code code))) ∧
  (∀ pid epoch ps txnv now, ∃ code, register_partitions tid pid epoch ps txnv now c = (c, Err (Code code))) ∧
  (∀ led pid epoch part txnv now,
     ∃ code, add_offsets_to_txn led tid pid epoch part txnv now c = (set_leaders led c, Err (Code code))) ∧
  (∀ is_txn pid epoch tp txnv now, tid_for_pid pid c = Some tid →
     (validate_transactional_produce is_txn pid epoch tp txnv now c).1 = c) ∧
  (∀ now txnv, reap tid now txnv c = (c, Err BrokerError)) ∧
  (∀ txnv timeout two_pc now,
     handle_transactional tid txnv timeout two_pc true now c = (c, Err (Code CONCURRENT_TRANSACTIONS))) ∧
  (∀ txnv timeout two_pc now, let '(c', r) := handle_transactional tid txnv timeout two_pc false now c in
     markers c' = markers c ∧
     ∀ resp, r = Ok resp → ∃ pid epoch, current tid c' = Some (new_empty tid pid epoch timeout now)).
Proof.
  intros Hs Hc Hd. split_and!; intros.
  - by eapply stuck_end_txn.
  - by eapply stuck_register.
  - by eapply stuck_offsets.
  - by eapply stuck_produce.
  - by eapply stuck_reap.
  - by eapply stuck_keep_prepared.
  - by eapply stuck_reinitialise.
Qed.

(** One partition has a commit marker; the other is ended by the next transaction of
    the same producer id, with an abort. *)
Lemma failed_commit_is_forgotten_witness :
  answer (with_faults [] [{[B]}] two_partitions) (end_ Verified (7, 0) true 20) = Err (Code UNKNOWN_SERVER_ERROR) ∧
  markers half_committed = [mkMarker A 7 1 Commit] ∧
  (∃ code, end_txn {[0]} true (mkEnd t1 7 0 true) Verified 21 half_committed = (set_leaders {[0]} half_committed, Err (Code code))) ∧
  (let c := then_ half_committed (init Verified 30) in
   markers (then_ (then_ c (register Verified (7, 2) [B] 40)) (end_ Verified (7, 2) false 50)) =
   [mkMarker A 7 1 Commit; mkMarker B 7 3 Abort]).
Proof.
  split; [by vm_compute|]. split; [by vm_compute|]. split; [|by vm_compute].
  assert (get t1 half_committed ≫= (fun i => state <$> cells half_committed !! i) = Some PrepareCommit) as H by by vm_compute.
  apply bind_Some in H as (i & Hg & He). apply fmap_Some in He as (e & Hc & Hd).
  exact (proj1 (failed_commit_is_forgotten half_committed t1 i e Hg Hc (eq_sym Hd)) {[0]} true (mkEnd t1 7 0 true) Verified 21 eq_refl).
Defined.

(** A registration that is interleaved with an [InitProducerId] undoes it: the
    snapshot taken under the lock is put after the new epoch, so that the fenced
    producer is the current one again, may commit, and the new one is fenced. *)
Theorem stale_registration_unfences :
  let c1 := then_ start (init Verified 0) in
  ∃ snapshot,
    answer c1 (register_lock t1 7 0 [A] 10) = Ok snapshot ∧
    let c2 := then_ (then_ c1 (register_lock t1 7 0 [A] 10)) (init Verified 20) in
    let c3 := then_ c2 (put snapshot Verified) in
    answer (then_ c1 (register_lock t1 7 0 [A] 10)) (init Verified 20) = Ok (granted (7, 1)) ∧
    answer c2 (register Verified (7, 0) [A] 30) = Err (Code INVALID_PRODUCER_EPOCH) ∧
    answer c3 (register Verified (7, 1) [A] 30) = Err (Code INVALID_PRODUCER_EPOCH) ∧
    answer c3 (end_ Verified (7, 0) true 30) = Ok (7, 1).
Proof. eexists. split; [vm_compute; reflexivity|]. vm_compute. split_and!; reflexivity. Qed.

(** Below version 2 a fenced producer is told that its transaction committed: the
    retry test takes its epoch for the one before an epoch bump, and answers for the
    transaction of the producer that replaced it, while its own was aborted. *)
Theorem zombie_told_committed :
  let c1 := then_ (then_ start (init Classic 0)) (register Classic (7, 0) [A] 10) in
  let c2 := then_ c1 (init Classic 20) in
  let c3 := then_ (then_ c2 (register Classic (7, 1) [B] 30)) (end_ Classic (7, 1) true 40) in
  answer c2 (end_ Classic (7, 0) true 25) = Err (Code INVALID_PRODUCER_EPOCH) ∧
  answer c3 (end_ Classic (7, 0) true 50) = Ok (7, 1) ∧
  markers c3 = [mkMarker A 7 0 Abort; mkMarker B 7 1 Commit].
Proof. vm_compute. split_and!; reflexivity. Qed.

(** An abort that was not persisted is marked all the same: the entry in memory is
    changed before the append that fails, the reaper takes it for prepared and writes
    its markers.  After a restart the transaction is open again and the producer
    commits it, behind the abort marker. *)
Theorem unpersisted_abort_is_marked :
  let c1 := then_ (then_ start (init Verified 0)) (register Verified (7, 0) [A] 10) in
  let c2 := then_ (with_faults [false; false] [] c1) (end_ Verified (7, 0) false 20) in
  let c3 := then_ c2 (sweep_once {[0]} Verified 30) in
  let c4 := restart {[0]} c3 in
  answer (with_faults [false; false] [] c1) (end_ Verified (7, 0) false 20) = Err (Code UNKNOWN_SERVER_ERROR) ∧
  logs c3 = logs c1 ∧ markers c3 = [mkMarker A 7 1 Abort] ∧
  state <$> current t1 c4 = Some Ongoing ∧
  answer c4 (end_ Verified (7, 0) true 40) = Ok (7, 1) ∧
  markers (then_ c4 (end_ Verified (7, 0) true 40)) = [mkMarker A 7 1 Abort; mkMarker A 7 1 Commit].
Proof. vm_compute. split_and!; reflexivity. Qed.

(** A transaction that [AddOffsetsToTxn] opens inherits the start of the entry, and
    the reaper aborts it at once when the entry is older than the timeout; one that
    [AddPartitionsToTxn] opens has the whole timeout. *)
Theorem offsets_first_is_reaped_at_once :
  let c1 := then_ start (init Verified 0) in
  let c2 := then_ c1 (add_offsets_to_txn {[0]} t1 7 0 A Verified 100000) in
  let c3 := then_ c1 (register Verified (7, 0) [A] 100000) in
  answer c1 (add_offsets_to_txn {[0]} t1 7 0 A Verified 100000) = Ok tt ∧
  answer c2 (sweep_once {[0]} Verified 100001) = Ok [t1] ∧
  answer c3 (sweep_once {[0]} Verified 100001) = Ok [].
Proof. vm_compute. split_and!; reflexivity. Qed.

(** When the epochs of a producer id run out, [put] forgets the old id, and with it
    the check of its batches: a batch of the fenced id passes unchecked, where an id
    that is still indexed is refused, as it is again after a restart. *)
Theorem evicted_pid_is_not_checked :
  let c1 := then_ (then_ start (put (new_empty t1 3 (I16_MAX - 1) 60000 0) Verified)) (init Verified 10) in
  let c2 := restart {[0]} c1 in
  let produce := validate_transactional_produce true 3 (I16_MAX - 1) A Verified 20 in
  answer c1 produce = Ok tt ∧ then_ c1 produce = c1 ∧
  answer c2 produce = Err (Code INVALID_PRODUCER_EPOCH) ∧
  answer c1 (validate_transactional_produce true 7 1 A Verified 20) = Err (Code INVALID_PRODUCER_EPOCH).
Proof. vm_compute. split_and!; reflexivity. Qed.
