(* ===== verification/TxnInv.v ===== *)
(** * Transactions: fencing

    A producer that [InitProducerId] has replaced can do no more harm.  The invariant
    of the coordinator bounds the identities of its entries by the ids handed out; the
    identity that a client of a transactional id must present only grows, whatever
    request is handled and whatever append, allocation or fan-out fails on the way. *)

From S2P Require Import Prelude TxnState TxnLog TxnCoord.

(** ** Programs, step by step *)
Definition triple {A} (P : Coordinator → Prop) (m : M A) (Q : A → Coordinator → Prop) (E : Coordinator → Prop) : Prop :=
  ∀ c, P c → match (m c).2 with Ok a => Q a (m c).1 | Err _ => E (m c).1 end.

Section rules.
Context {A B : Type} (P : Coordinator → Prop) (E : Coordinator → Prop).

Lemma triple_bind (m : M A) (k : A → M B) Q R :
  triple P m Q E → (∀ a, triple (Q a) (k a) R E) → triple P (m ≫= k) R E.
Proof.
  intros Hm Hk c Hc. specialize (Hm c Hc). unfold mbind, M_bind.
  destruct (m c) as [c' [a|e]]; simpl in *; [|done]. exact (Hk a c' Hm).
Qed.

Lemma triple_pure (m : M A) Q (phi : Prop) : (phi → triple P m Q E) → triple (fun c => phi ∧ P c) m Q E.
Proof. intros H c [Hphi Hc]. by apply H. Qed.

Lemma triple_weaken (m : M A) (P' : Coordinator → Prop) Q Q' :
  triple P m Q E → (∀ c, P' c → P c) → (∀ a c, Q a c → Q' a c) → triple P' m Q' E.
Proof.
  intros H HP HQ c Hc. specialize (H c (HP c Hc)). destruct ((m c).2); [|done]. by apply HQ.
Qed.

Lemma triple_conseq (m : M A) (P' E' : Coordinator → Prop) Q Q' :
  triple P m Q E → (∀ c, P' c → P c) → (∀ a c, Q a c → Q' a c) → (∀ c, E c → E' c) → triple P' m Q' E'.
Proof.
  intros H HP HQ HE c Hc. specialize (H c (HP c Hc)). destruct ((m c).2); [by apply HQ|by apply HE].
Qed.

Lemma triple_gets (f : Coordinator → A) : triple P (gets f) (fun _ => P) E.
Proof. intros c Hc. done. Qed.

Lemma triple_fail e Q : (∀ c, P c → E c) → triple P (fail (A := A) e) Q E.
Proof. intros H c Hc. by apply H. Qed.

Lemma triple_ret (a : A) (Q : A → Coordinator → Prop) : (∀ c, P c → Q a c) → triple P (mret a) Q E.
Proof. intros H c Hc. by apply H. Qed.

Lemma triple_or_code (m : M A) code Q : triple P m Q E → triple P (or_code m code) Q E.
Proof.
  intros H c Hc. specialize (H c Hc). unfold or_code. by destruct (m c) as [c' [a|e]].
Qed.
End rules.

Lemma run_gets {A B} (f : Coordinator → A) (k : A → M B) c : (gets f ≫= k) c = k (f c) c.
Proof. done. Qed.
Lemma run_lock {A} i e (k : TxnEntry → M A) c : cells c !! i = Some e → (lock i ≫= k) c = k e c.
Proof. intros H. unfold mbind, M_bind, lock. by rewrite H. Qed.

Lemma triple_guard P E b code :
  (∀ c, P c → E c) → triple P (guard_code b code) (fun _ c => b = true ∧ P c) E.
Proof. intros H c Hc. destruct b; simpl; auto. Qed.

(** ** Identities *)
Definition id_le (a b : Identity) : Prop := a.1 < b.1 ∨ (a.1 = b.1 ∧ a.2 ≤ b.2).
Definition id_lt (a b : Identity) : Prop := a.1 < b.1 ∨ (a.1 = b.1 ∧ a.2 < b.2).
#[global] Instance id_le_po : PreOrder id_le.
Proof. split; [intros [??]|intros [??] [??] [??]]; unfold id_le; simpl; lia. Qed.
Lemma id_lt_le a b c : id_lt a b → id_le b c → id_lt a c.
Proof. unfold id_lt, id_le. lia. Qed.
Lemma id_lt_ne a b : id_lt a b → a ≠ b.
Proof. intros H ->. unfold id_lt in H. lia. Qed.

(** What bounds an identity: epochs fit and the id was handed out. *)
Definition id_ok (n : ProducerId) (id : Identity) : Prop := id.1 < n ∧ 0 ≤ id.2 ≤ I16_MAX.
Definition entry_ok (n : ProducerId) (e : TxnEntry) : Prop :=
  id_ok n (producer_id e, producer_epoch e) ∧
  (has_staged_producer_identity e = true → id_ok n (next_producer_id e, next_producer_epoch e)).

Lemma entry_ok_mono n n' e : n ≤ n' → entry_ok n e → entry_ok n' e.
Proof. unfold entry_ok, id_ok. simpl. intuition lia. Qed.
Lemma client_ok n e : entry_ok n e → id_ok n (client_producer_identity e).
Proof. intros [H1 H2]. unfold client_producer_identity. destruct (has_staged_producer_identity e); auto. Qed.

(** ** The invariant and the order of states *)
Definition view (c : Coordinator) (tid : Tid) : option TxnEntry := slots c !! tid ≫= fun i => cells c !! i.

Definition wf (c : Coordinator) : Prop :=
  ∀ tid i, slots c !! tid = Some i →
    ∃ e, cells c !! i = Some e ∧ transactional_id e = tid ∧ entry_ok (next_pid c) e.

Record advance (c c' : Coordinator) : Prop := {
  adv_wf : wf c';
  adv_pid : next_pid c ≤ next_pid c';
  adv_view tid e : view c tid = Some e →
    ∃ e', view c' tid = Some e' ∧ id_le (client_producer_identity e) (client_producer_identity e');
}.

Lemma advance_refl c : wf c → advance c c.
Proof. intros H. split; [done|lia|]. intros. eexists. split; [done|reflexivity]. Qed.
Lemma advance_trans c1 c2 c3 : advance c1 c2 → advance c2 c3 → advance c1 c3.
Proof.
  intros [H1 H2 H3] [K1 K2 K3]. split; [done|lia|]. intros tid e He.
  destruct (H3 tid e He) as (e' & He' & Hle). destruct (K3 tid e' He') as (e'' & ? & ?).
  exists e''. split; [done|]. by transitivity (client_producer_identity e').
Qed.

(** A step that touches neither the map, nor the cells, nor the allocator. *)
Lemma advance_same c0 c c' :
  advance c0 c → slots c' = slots c → cells c' = cells c → next_pid c ≤ next_pid c' → advance c0 c'.
Proof.
  intros Ha Hs Hc Hn. apply (advance_trans _ c); [done|]. destruct Ha as [Hwf _ _]. split; [|done|].
  - intros tid i. rewrite Hs, Hc. intros (e & ? & ? & ?)%Hwf. eauto using entry_ok_mono.
  - intros tid e. unfold view. rewrite Hs, Hc. intros. eexists. split; [done|reflexivity].
Qed.

Lemma view_cell c tid i : wf c → slots c !! tid = Some i → ∃ e, view c tid = Some e ∧ cells c !! i = Some e
  ∧ transactional_id e = tid ∧ entry_ok (next_pid c) e.
Proof.
  intros Hwf Hs. destruct (Hwf tid i Hs) as (e & He & Ht & Hok). exists e. unfold view. by rewrite Hs.
Qed.

(** Changing a cell under its lock. *)
Lemma advance_store c0 c i e e' :
  advance c0 c → cells c !! i = Some e → transactional_id e' = transactional_id e →
  entry_ok (next_pid c) e' → id_le (client_producer_identity e) (client_producer_identity e') →
  advance c0 (set_cells (<[i := e']> (cells c)) c).
Proof.
  intros Ha Hi Ht Hok Hle. apply (advance_trans _ c); [done|]. destruct Ha as [Hwf _ _].
  assert (i < length (cells c))%nat as Hlt by (by eapply lookup_lt_Some). split; simpl; [|lia|].
  - intros tid j Hs. destruct (Hwf tid j Hs) as (f & Hf & Hft & Hfok). simpl.
    destruct (decide (i = j)) as [<-|]; [|rewrite list_lookup_insert_ne by done; eauto].
    exists e'. rewrite list_lookup_insert_eq by done. simplify_eq. by rewrite Ht.
  - intros tid f. unfold view. simpl. destruct (slots c !! tid) as [j|]; [simpl|done]. intros Hf.
    destruct (decide (i = j)) as [<-|]; [|rewrite list_lookup_insert_ne by done; eexists; by split].
    exists e'. rewrite list_lookup_insert_eq by done. by simplify_eq.
Qed.

(** Installing an entry in a new cell. *)
Lemma advance_install c0 c e ls ps :
  advance c0 c → entry_ok (next_pid c) e →
  (∀ f, view c (transactional_id e) = Some f → id_le (client_producer_identity f) (client_producer_identity e)) →
  advance c0 (install ls (cells c ++ [e]) (<[transactional_id e := length (cells c)]> (slots c)) ps c).
Proof.
  intros Ha Hok Hle. apply (advance_trans _ c); [done|]. destruct Ha as [Hwf _ _].
  assert ((cells c ++ [e]) !! length (cells c) = Some e) as Hnew by (by rewrite lookup_app_r, Nat.sub_diag by lia).
  split; simpl; [|lia|].
  - intros tid i. simpl. destruct (decide (transactional_id e = tid)) as [<-|].
    + rewrite lookup_insert_eq. intros [= <-]. eauto.
    + rewrite lookup_insert_ne by done. intros (f & Hf & ? & ?)%Hwf.
      exists f. split_and!; [|done..]. apply lookup_app_l_Some. done.
  - intros tid f Hf. destruct (decide (transactional_id e = tid)) as [<-|].
    + exists e. split; [|auto]. unfold view. simpl. rewrite lookup_insert_eq. done.
    + exists f. split; [|done]. unfold view in *. simpl. rewrite lookup_insert_ne by done.
      destruct (slots c !! tid) as [i|]; [simpl in *|done]. by apply lookup_app_l_Some.
Qed.

(** ** The next identity is a later one *)

(** [e'] may replace [e], given that ids below [n] have been handed out. *)
Record fits (n : ProducerId) (e e' : TxnEntry) : Prop := {
  fits_tid : transactional_id e' = transactional_id e;
  fits_ok : entry_ok n e';
  fits_le : id_le (client_producer_identity e) (client_producer_identity e');
}.

(** An id that was not handed out yet by [n], but is by [n']. *)
Definition fresh_between (n n' : ProducerId) (fresh : option ProducerId) : Prop :=
  n ≤ n' ∧ match fresh with Some p => n ≤ p < n' | None => True end.

Lemma next_identity_later txnv pid epoch n n' fresh id :
  id_ok n (pid, epoch) → fresh_between n n' fresh →
  next_producer_identity_with_fresh txnv pid epoch fresh = Some id →
  id_ok n' id ∧ id_le (pid, epoch) id ∧ (id.1 = pid → id.2 = if verified txnv then epoch + 1 else epoch).
Proof.
  unfold next_producer_identity_with_fresh, id_ok, id_le, fresh_between. simpl. intros [Hp He] [Hn Hf] H.
  destruct (verified txnv); simpl in H; [|simplify_eq/=; lia].
  destruct (Z.ltb_spec epoch (I16_MAX - 1)); [simplify_eq/=; lia|].
  destruct fresh as [p|]; [|done]. unfold I16_MAX in *. simplify_eq/=. lia.
Qed.

Lemma next_recovery_later pid epoch n n' fresh id :
  id_ok n (pid, epoch) → fresh_between n n' fresh →
  next_recovery_producer_identity_with_fresh pid epoch fresh = Some id →
  id_ok n' id ∧ id_le (pid, epoch) id.
Proof.
  unfold next_recovery_producer_identity_with_fresh, id_ok, id_le, fresh_between. simpl. intros [Hp He] [Hn Hf] H.
  destruct (Z.ltb_spec epoch I16_MAX); [simplify_eq/=; lia|].
  destruct fresh as [p|]; [|done]. unfold I16_MAX in *. simplify_eq/=. lia.
Qed.

Lemma client_unstaged e : has_staged_producer_identity e = false → client_producer_identity e = (producer_id e, producer_epoch e).
Proof. unfold client_producer_identity. by intros ->. Qed.
Lemma client_staged e pid epoch : 0 ≤ epoch → client_producer_identity (with_next pid epoch e) = (pid, epoch).
Proof.
  intros H. unfold client_producer_identity, has_staged_producer_identity. simpl.
  by rewrite (proj2 (Z.leb_le _ _) H).
Qed.

Lemma sat_epoch epoch : 0 ≤ epoch ≤ I16_MAX → 0 ≤ sat_s 16 (epoch + 1) ≤ I16_MAX.
Proof. unfold sat_s, I16_MAX. lia. Qed.

Lemma completion_fits e txnv n n' fresh e' :
  entry_ok n e → fresh_between n n' fresh →
  prepare_completion_identities_with_fresh e txnv fresh = Some e' →
  fits n' e e' ∧ state e' = state e ∧ partitions e' = partitions e ∧ prev_producer_id e' = prev_producer_id e.
Proof.
  intros Hok Hf H. pose proof (proj1 Hf) as Hn. unfold prepare_completion_identities_with_fresh in H.
  destruct (verified txnv) eqn:Hv; cbn [negb] in H.
  2: { simplify_eq. split; [|done]. split; [done| |reflexivity]. by eapply entry_ok_mono. }
  pose proof (client_ok n e Hok) as Hc. destruct (client_producer_identity e) as [cpid cep] eqn:Hce.
  destruct (if has_staged_producer_identity e then _ else _) as [[pid ep]|] eqn:Hnext; [cbn [mbind option_bind] in H|done].
  destruct Hok as [[Hpid Hep] Hst]. simpl in Hpid, Hep.
  assert (id_ok n' (pid, ep) ∧ id_le (cpid, cep) (pid, ep)) as [Hid Hle].
  { destruct (has_staged_producer_identity e).
    - by eapply next_recovery_later.
    - eapply next_identity_later in Hnext as (? & ? & ?); eauto. }
  pose proof (sat_epoch _ Hep).
  assert (id_ok n' (producer_id e, sat_s 16 (producer_epoch e + 1))) as Hown by (unfold id_ok; simpl; lia).
  destruct (has_staged_producer_identity e || negb (pid =? producer_id e)) eqn:Hb; simpl in H; rewrite Hb in H; simplify_eq.
  - split; [|done]. split; [done|split; [done|by intros _]|].
    rewrite Hce, client_staged by apply Hid. done.
  - apply orb_false_iff in Hb as [Hns Hpe%negb_false_iff%Z.eqb_eq]. simpl in Hpe.
    rewrite client_unstaged in Hce by done. simplify_eq/=. rewrite Hns in Hnext.
    eapply next_identity_later in Hnext as (_ & _ & He); [|exact Hc|exact Hf].
    split; [|done]. split; [done|split; [done|by intros [=]]|].
    rewrite client_unstaged, (client_unstaged (with_next _ _ _)) by done.
    unfold id_le, sat_s, id_ok in *. simpl in *. right. split; [done|].
    unfold I16_MAX in *. lia.
Qed.

(** ** What the operations keep *)
Section operations.
Context (c0 : Coordinator).

(** The request holds cell [i] with entry [e], which nobody is ahead of. *)
Record Owns (i : nat) (e : TxnEntry) (c : Coordinator) : Prop := {
  own_adv : advance c0 c;
  own_cell : cells c !! i = Some e;
  own_ok : entry_ok (next_pid c) e;
  own_le f : view c (transactional_id e) = Some f → id_le (client_producer_identity f) (client_producer_identity e);
}.

Lemma owns_current i tid e c :
  advance c0 c → slots c !! tid = Some i → cells c !! i = Some e → Owns i e c ∧ transactional_id e = tid.
Proof.
  intros Ha Hs He. destruct (view_cell c tid i (adv_wf _ _ Ha) Hs) as (e' & Hv & He' & <- & Hok). simplify_eq.
  split; [|done]. split; [done..|]. intros f Hf. by simplify_eq.
Qed.

Lemma triple_lock_current i tid :
  triple (fun c => advance c0 c ∧ slots c !! tid = Some i) (lock i)
    (fun e c => Owns i e c ∧ transactional_id e = tid ∧ slots c !! tid = Some i) (advance c0).
Proof.
  intros c [Ha Hs]. unfold lock. destruct (cells c !! i) as [e|] eqn:He; simpl; [|done].
  destruct (owns_current i tid e c Ha Hs He). done.
Qed.

Lemma triple_lock i e E : triple (Owns i e) (lock i) (fun e' c => e' = e ∧ Owns i e c) E.
Proof. intros c Ho. unfold lock. by rewrite (own_cell _ _ _ Ho). Qed.

(** [slots] and [cells] untouched, the allocator ahead. *)
Lemma owns_same i e c c' :
  Owns i e c → slots c' = slots c → cells c' = cells c → next_pid c ≤ next_pid c' → Owns i e c'.
Proof.
  intros [Ha Hi Hok Hle] Hs Hc Hn. split; [by eapply advance_same|by rewrite Hc|by eapply entry_ok_mono|].
  intros f. unfold view. rewrite Hs, Hc. apply Hle.
Qed.

Lemma triple_store i e e' :
  triple (fun c => Owns i e c ∧ fits (next_pid c) e e') (store i e')
    (fun _ c => Owns i e' c) (advance c0).
Proof.
  intros c [[Ha Hi Hok Hle] [Ht Hok' Hle']]. simpl. split; simpl.
  - by eapply advance_store.
  - apply list_lookup_insert_eq. by eapply lookup_lt_Some.
  - done.
  - rewrite Ht. intros f. unfold view in *. simpl. destruct (slots c !! _) as [j|]; [simpl in *|done].
    destruct (decide (i = j)) as [<-|].
    + rewrite list_lookup_insert_eq by (by eapply lookup_lt_Some). by intros [= <-].
    + rewrite list_lookup_insert_ne by done. intros Hf. etransitivity; [by apply Hle|done].
Qed.

(** A change that leaves the identities alone. *)
Lemma fits_same n e e' :
  entry_ok n e → transactional_id e' = transactional_id e →
  (producer_id e', producer_epoch e', next_producer_id e', next_producer_epoch e')
    = (producer_id e, producer_epoch e, next_producer_id e, next_producer_epoch e) →
  fits n e e'.
Proof.
  intros Hok Ht [= H1 H2 H3 H4]. split; [done| |].
  - unfold entry_ok, has_staged_producer_identity in *. by rewrite H1, H2, H3, H4.
  - unfold client_producer_identity, has_staged_producer_identity. by rewrite H1, H2, H3, H4.
Qed.

Lemma fits_trans_same n e e1 e2 :
  fits n e e1 → transactional_id e2 = transactional_id e1 →
  (producer_id e2, producer_epoch e2, next_producer_id e2, next_producer_epoch e2)
    = (producer_id e1, producer_epoch e1, next_producer_id e1, next_producer_epoch e1) →
  fits n e e2.
Proof.
  intros [Ht Hok Hle] Ht2 Hids. destruct (fits_same n e1 e2 Hok Ht2 Hids) as [_ Hok2 Hle2].
  split; [congruence|done|]. by transitivity (client_producer_identity e1).
Qed.

Lemma triple_store_same i e e' :
  transactional_id e' = transactional_id e →
  (producer_id e', producer_epoch e', next_producer_id e', next_producer_epoch e')
    = (producer_id e, producer_epoch e, next_producer_id e, next_producer_epoch e) →
  triple (Owns i e) (store i e') (fun _ c => Owns i e' c) (advance c0).
Proof.
  intros Ht Hids. eapply triple_weaken; [apply (triple_store i e e')| |done].
  intros c Ho. split; [done|]. apply fits_same; [apply Ho|done..].
Qed.

(** Storing the entry with its completion identities, stamped. *)
Lemma triple_store_prepared i e e1 e2 :
  transactional_id e2 = transactional_id e1 →
  (producer_id e2, producer_epoch e2, next_producer_id e2, next_producer_epoch e2)
    = (producer_id e1, producer_epoch e1, next_producer_id e1, next_producer_epoch e1) →
  triple (fun c => Owns i e c ∧ fits (next_pid c) e e1) (store i e2) (fun _ c => Owns i e2 c) (advance c0).
Proof.
  intros Ht Hids. eapply triple_weaken; [apply (triple_store i e e2)| |done].
  intros c [Ho Hf]. split; [done|]. by eapply fits_trans_same.
Qed.

Lemma triple_draw (P : Coordinator → Prop) :
  (∀ c bs, P c → P (set_io bs c)) → triple P draw (fun _ => P) P.
Proof. intros H c Hc. unfold draw. destruct (io c) as [|[] bs]; simpl; auto. Qed.

Lemma owns_io i e c bs : Owns i e c → Owns i e (set_io bs c).
Proof. intros H. by eapply owns_same; [exact H|..]. Qed.
Lemma advance_io c bs : advance c0 c → advance c0 (set_io bs c).
Proof. intros H. by eapply advance_same; [exact H|..]. Qed.

(** [e] may be put. *)
Definition Ready (e : TxnEntry) (c : Coordinator) : Prop :=
  advance c0 c ∧ entry_ok (next_pid c) e ∧
  ∀ f, view c (transactional_id e) = Some f → id_le (client_producer_identity f) (client_producer_identity e).
(** The current entry of [tid]. *)
Definition Current (tid : Tid) (e : TxnEntry) (c : Coordinator) : Prop :=
  advance c0 c ∧ transactional_id e = tid ∧ view c tid = Some e.

Lemma triple_put e txnv (R : Coordinator → Prop) :
  (∀ c bs, R c → R (set_io bs c)) → (∀ c ls ss ps, R c → R (install ls (cells c ++ [e]) ss ps c)) →
  triple (fun c => Ready e c ∧ R c) (put e txnv) (fun _ c => Current (transactional_id e) e c ∧ R c) (advance c0).
Proof.
  intros Hio HR c [Hr HRc]. unfold put, mbind, M_bind, gets. cbn.
  destruct (prepare_append e txnv c) as [[[p l] r]|]; [|apply Hr].
  assert (∀ c ls ps, Ready e c → Current (transactional_id e) e
    (install ls (cells c ++ [e]) (<[transactional_id e := length (cells c)]> (slots c)) ps c)) as Hinst.
  { intros c' ls ps (Ha & Hok & Hle). split; [by apply advance_install|]. split; [done|].
    unfold view. simpl. rewrite lookup_insert_eq. simpl. by rewrite lookup_app_r, Nat.sub_diag by lia. }
  assert (∀ bs, Ready e (set_io bs c)) as Hset.
  { intros bs. destruct Hr as (Ha & ? & ?). split; [by apply advance_io|done]. }
  unfold draw. destruct (io c) as [|[] bs]; cbn.
  - split; [by apply Hinst|by apply HR].
  - split; [apply (Hinst (set_io bs c)), Hset|by apply (HR (set_io bs c)), Hio].
  - apply Hset.
Qed.

Lemma owns_ready i e c : Owns i e c → Ready e c.
Proof. by intros []. Qed.

(** [put] of the entry that the request owns leaves it the cell it holds. *)
Lemma triple_put_owned i e txnv :
  triple (Owns i e) (put e txnv) (fun _ c => Owns i e c) (advance c0).
Proof.
  eapply triple_weaken; [apply (triple_put e txnv (fun c => cells c !! i = Some e ∧ entry_ok (next_pid c) e)); [done|]| |].
  - intros c ls ss ps [Hi Hok]. split; [by apply lookup_app_l_Some|done].
  - intros c Ho. split; [by eapply owns_ready|]. split; apply Ho.
  - intros _ c [(Ha & _ & Hv) [Hi Hok]]. split; [done..|]. rewrite Hv. by intros f [= <-].
Qed.

(** The fan-out changes markers only. *)
Lemma triple_dispatch i e e' ty :
  triple (Owns i e) (dispatch_transaction_markers e' ty) (fun _ c => Owns i e c) (advance c0).
Proof.
  intros c Ho. unfold dispatch_transaction_markers. cbv zeta. cbn [fst snd].
  assert (∀ ms us, Owns i e (marked ms us c)) as Hm by (intros; by eapply owns_same; [exact Ho|..]).
  case_bool_decide; apply Hm.
Qed.

(** Drawing a fresh id when one is needed. *)
Lemma triple_fresh_when i e b :
  triple (Owns i e) (fresh_when b)
    (fun fresh c => Owns i e c ∧ ∃ n, entry_ok n e ∧ fresh_between n (next_pid c) fresh) (advance c0).
Proof.
  intros c Ho. unfold fresh_when. destruct b; cbn.
  2: { split; [done|]. exists (next_pid c). split; [apply Ho|]. split; [lia|done]. }
  unfold allocate, draw, mbind, M_bind, gets, modify, mret, M_ret.
  destruct (io c) as [|[] bs]; cbn; [| |apply advance_io, Ho].
  all: split; [eapply owns_same; [exact Ho|..]; simpl; done || lia|].
  all: exists (next_pid c); split; [apply Ho|split; simpl; lia].
Qed.

Lemma triple_completion i e txnv :
  triple (Owns i e) (prepare_completion_identities e txnv)
    (fun e' c => (transactional_id e' = transactional_id e ∧ state e' = state e ∧ partitions e' = partitions e) ∧
       Owns i e c ∧ fits (next_pid c) e e') (advance c0).
Proof.
  unfold prepare_completion_identities. destruct (client_producer_identity e) as [cp ce].
  eapply triple_bind; [apply triple_fresh_when|]. intros fresh.
  intros c (Ho & n & Hok & Hf). destruct (prepare_completion_identities_with_fresh e txnv fresh) eqn:Heq; simpl.
  - eapply completion_fits in Heq as (Hfits & ? & ? & _); eauto. by split; [split; [apply Hfits|]|].
  - apply Ho.
Qed.
End operations.

(** ** The requests *)
Lemma triple_exists {A X} (P : X → Coordinator → Prop) (m : M A) Q E :
  (∀ x, triple (P x) m Q E) → triple (fun c => ∃ x, P x c) m Q E.
Proof. intros H c [x Hx]. by eapply H. Qed.

Section requests.
Context (c0 : Coordinator).

Lemma owns_advance i e c : Owns c0 i e c → advance c0 c.
Proof. apply own_adv. Qed.
Hint Resolve owns_advance : core.

Lemma triple_found {A} (f : Coordinator → option nat) (k : option nat → M A) Q :
  (∀ c i, f c = Some i → ∃ tid, slots c !! tid = Some i) →
  triple (advance c0) (k None) Q (advance c0) →
  (∀ i tid, triple (fun c => advance c0 c ∧ slots c !! tid = Some i) (k (Some i)) Q (advance c0)) →
  triple (advance c0) (slot ← gets f; k slot) Q (advance c0).
Proof.
  intros Hf HN HS c Hc. unfold mbind, M_bind, gets. simpl.
  destruct (f c) as [i|] eqn:Hs; [|by apply HN]. destruct (Hf c i Hs) as [tid Ht]. by apply (HS i tid).
Qed.

Lemma triple_slot {A} tid (k : option nat → M A) Q :
  triple (advance c0) (k None) Q (advance c0) →
  (∀ i, triple (fun c => advance c0 c ∧ slots c !! tid = Some i) (k (Some i)) Q (advance c0)) →
  triple (advance c0) (slot ← gets (get tid); k slot) Q (advance c0).
Proof.
  intros HN HS c Hc. unfold mbind, M_bind, gets, get. simpl.
  destruct (slots c !! tid) as [i|] eqn:Hs; [by apply HS|by apply HN].
Qed.

Lemma triple_leaders led : triple (advance c0) (refresh_leader_partitions led) (fun _ => advance c0) (advance c0).
Proof. intros c Hc. simpl. by eapply advance_same; [exact Hc|..]. Qed.

Lemma triple_allocate tid :
  triple (fun c => advance c0 c ∧ slots c !! tid = None) allocate
    (fun id c => advance c0 c ∧ slots c !! tid = None ∧ id_ok (next_pid c) id) (advance c0).
Proof.
  intros c [Hc Hs]. unfold allocate, draw, mbind, M_bind, gets, modify, mret, M_ret.
  destruct (io c) as [|[] bs]; cbn.
  1,2: split_and!; [eapply advance_same; [exact Hc|..]; simpl; done || lia|done|].
  1,2: unfold id_ok, I16_MAX; simpl; lia.
  by eapply advance_same; [exact Hc|..].
Qed.

Lemma triple_guard_owns i e b code :
  triple (Owns c0 i e) (guard_code b code) (fun _ c => b = true ∧ Owns c0 i e c) (advance c0).
Proof. apply triple_guard. eauto. Qed.

(** A guard, then the rest of the program. *)
Ltac tguard :=
  eapply triple_bind; [first [apply triple_guard_owns | apply triple_guard; solve [auto]]|];
  intros ?; cbv beta; apply triple_pure; intros ?.
(** The current cell of a transactional id, under its lock. *)
Ltac tlock i e :=
  apply triple_slot; [apply triple_fail; solve [auto]|]; intros i;
  eapply triple_bind; [apply triple_lock_current|]; intros e; cbv beta.
(** All that is kept of what is known is the ownership. *)
Ltac tforget i e :=
  eapply (triple_weaken (Owns c0 i e)); [|let c := fresh in let H := fresh in intros c H; apply H|
    let a := fresh in let c := fresh in let H := fresh in intros a c H; exact H].
Tactic Notation "tcode" uconstr(H) := eapply triple_bind; [apply triple_or_code, H|]; cbv beta.
Tactic Notation "tbind" uconstr(H) := eapply triple_bind; [apply H|]; cbv beta.

Lemma register_lock_advances tid pid epoch ps now :
  triple (advance c0) (register_lock tid pid epoch ps now) (fun e c => ∃ i, Owns c0 i e c) (advance c0).
Proof.
  unfold register_lock. tbind triple_gets. intros mine. tguard. tlock i e.
  tforget i e.
  do 3 tguard. cbv zeta. tbind triple_store_same; [by repeat case_bool_decide..|].
  intros _. apply triple_ret. eauto.
Qed.

Lemma put_current i e txnv :
  triple (Owns c0 i e) (put e txnv) (fun _ c => Current c0 (transactional_id e) e c) (advance c0).
Proof.
  eapply triple_weaken; [by apply (triple_put c0 e txnv (fun _ => True))| |by intros ? c [? _]].
  intros c Ho. split; [by eapply owns_ready|done].
Qed.
Lemma put_advances i e txnv : triple (Owns c0 i e) (put e txnv) (fun _ => advance c0) (advance c0).
Proof. eapply triple_weaken; [apply (put_current i)|auto|]. by intros _ c [? _]. Qed.

Lemma register_advances tid pid epoch ps txnv now :
  triple (advance c0) (register_partitions tid pid epoch ps txnv now) (fun _ => advance c0) (advance c0).
Proof. tbind register_lock_advances. intros e. apply triple_or_code, triple_exists. intros i. apply put_advances. Qed.

Lemma add_offsets_advances led tid pid epoch part txnv now :
  triple (advance c0) (add_offsets_to_txn led tid pid epoch part txnv now) (fun _ => advance c0) (advance c0).
Proof.
  unfold add_offsets_to_txn. tbind triple_leaders. intros _. tbind triple_gets. intros mine. tguard. tlock i e.
  tforget i e.
  do 3 tguard. cbv zeta. tbind triple_store_same; [done..|].
  intros _. apply triple_or_code. apply put_advances.
Qed.

Lemma produce_advances b pid epoch tp txnv now :
  triple (advance c0) (validate_transactional_produce b pid epoch tp txnv now) (fun _ => advance c0) (advance c0).
Proof.
  unfold validate_transactional_produce. destruct (negb b || (pid <? 0)); [by apply triple_ret|].
  apply triple_found.
  { intros c i. unfold get. destruct (tid_for_pid pid c) as [tid|]; [simpl; eauto|done]. }
  { by apply triple_ret. }
  intros i tid. tbind triple_lock_current. intros e.
  tforget i e.
  do 2 tguard. cbv zeta. destruct (_ && _); [apply triple_ret; eauto|]. tguard.
  tbind triple_store_same; [by repeat case_bool_decide..|].
  intros _. apply put_advances.
Qed.

Lemma validate_end_advances allowed r :
  triple (advance c0) (validate_end_txn allowed r)
    (fun v c => match v with
                | inl i => advance c0 c ∧ slots c !! r_transactional_id r = Some i
                | inr _ => advance c0 c
                end) (advance c0).
Proof.
  unfold validate_end_txn. tguard. tbind triple_gets. intros mine. tguard. tlock i e.
  eapply (triple_weaken (fun c => advance c0 c ∧ slots c !! r_transactional_id r = Some i));
    [|intros c (Ho & _ & Hs); eauto|intros ? ? H'; exact H'].
  eapply triple_bind; [apply triple_guard; tauto|]. intros ?. cbv beta. apply triple_pure. intros _.
  destruct (_ && _); [apply triple_ret; tauto|].
  eapply triple_bind; [apply triple_guard; tauto|]. intros ?. cbv beta. apply triple_pure. intros _.
  apply triple_ret. tauto.
Qed.

Lemma prepare_lock_advances tid i committed txnv now :
  triple (fun c => advance c0 c ∧ slots c !! tid = Some i) (prepare_lock i committed txnv now)
    (fun r c => transactional_id r.2 = tid ∧ Owns c0 i r.2 c) (advance c0).
Proof.
  unfold prepare_lock. tbind triple_lock_current. intros e.
  eapply (triple_weaken (fun c => transactional_id e = tid ∧ Owns c0 i e c)); [|tauto|intros ? ? H; exact H].
  apply triple_pure. intros <-.
  destruct (decide_phase1_transition e committed) as [[[e1 prepare] complete]|code] eqn:Hd.
  2: { apply triple_fail. eauto. }
  unfold decide_phase1_transition in Hd. destruct (negb _); [done|]. inv_ok.
  tbind triple_store_same; [done..|]. intros _.
  tcode triple_completion. intros e2.
  apply triple_pure. intros (Htid & _). cbv zeta. tbind triple_store_prepared; [done..|].
  intros _. by apply triple_ret.
Qed.

Lemma dispatch_current tid e e' ty :
  triple (Current c0 tid e) (dispatch_transaction_markers e' ty) (fun _ => Current c0 tid e) (advance c0).
Proof.
  intros c (Ha & Ht & Hv). unfold dispatch_transaction_markers. cbv zeta. cbn [fst snd].
  assert (∀ ms us, advance c0 (marked ms us c)) as Hm by (intros; by eapply advance_same; [exact Ha|..]).
  case_bool_decide; [by split|]. apply Hm.
Qed.

Lemma prepare_advances tid i committed txnv now :
  triple (fun c => advance c0 c ∧ slots c !! tid = Some i) (prepare_transaction i committed txnv now)
    (fun r c => Current c0 tid r.2 c) (advance c0).
Proof.
  unfold prepare_transaction. tbind prepare_lock_advances. intros [[prepare complete] e]. cbn [snd].
  apply triple_pure. intros <-. tcode put_current. intros _. by apply triple_ret.
Qed.

(** The current entry, under its lock. *)
Lemma triple_current {A} tid e (k : nat → TxnEntry → M A) none Q :
  (∀ i, triple (Owns c0 i e) (k i e) Q (advance c0)) →
  triple (Current c0 tid e)
    (slot ← gets (get tid); match slot with None => none | Some i => e ← lock i; k i e end) Q (advance c0).
Proof.
  intros Hk c (Ha & Ht & Hv). unfold mbind, M_bind, gets, get, lock, view in *. simpl.
  destruct (slots c !! tid) as [i|] eqn:Hs; [simpl in Hv|done]. simpl. rewrite Hv.
  apply Hk. by eapply owns_current.
Qed.

(** Adopting the identity that the client already presents. *)
Lemma fits_adopt n e e' :
  entry_ok n e → transactional_id e' = transactional_id e → next_producer_epoch e' = -1 →
  (producer_id e', producer_epoch e') = client_producer_identity e → fits n e e'.
Proof.
  intros Hok Ht Hn Hid. assert (has_staged_producer_identity e' = false) as Hs.
  { unfold has_staged_producer_identity. by rewrite Hn. }
  split; [done| |by rewrite (client_unstaged e' Hs), Hid].
  split; [|by rewrite Hs]. rewrite Hid. by apply client_ok.
Qed.

Lemma triple_store_adopt i e e' :
  transactional_id e' = transactional_id e → next_producer_epoch e' = -1 →
  (producer_id e', producer_epoch e') = client_producer_identity e →
  triple (Owns c0 i e) (store i e') (fun _ c => Owns c0 i e' c) (advance c0).
Proof.
  intros. eapply triple_weaken; [apply (triple_store c0 i e e')| |done].
  intros c Ho. split; [done|]. apply fits_adopt; [apply Ho|done..].
Qed.

Lemma complete_end_advances r prepare complete snap txnv now :
  triple (Current c0 (r_transactional_id r) snap) (complete_end_txn r prepare complete snap txnv now)
    (fun _ => advance c0) (advance c0).
Proof.
  unfold complete_end_txn. apply triple_current. intros i.
  unfold completion_producer_identity. destruct (client_producer_identity snap) as [pid epoch] eqn:Hid.
  destruct (decide_end_txn_completion _ _ _ _ _ _ _) as [st p ep|p ep|code] eqn:Hd.
  - assert (p = pid ∧ ep = epoch) as [-> ->].
    { unfold decide_end_txn_completion in Hd. destruct (_ && _); [done|]. case_match; by simplify_eq. }
    cbv zeta. tbind triple_store_adopt; [by destruct (negb _)..|done|]. intros _.
    tcode put_advances. intros _. by apply triple_ret.
  - apply triple_ret. eauto.
  - apply triple_fail. eauto.
Qed.

Lemma end_txn_advances led allowed r txnv now :
  triple (advance c0) (end_txn led allowed r txnv now) (fun _ => advance c0) (advance c0).
Proof.
  unfold end_txn. tbind triple_leaders. intros _. tbind validate_end_advances. intros [i|id].
  - tbind prepare_advances. intros [[prepare complete] snap]. cbn [snd].
    tcode dispatch_current. intros _. apply complete_end_advances.
  - by apply triple_ret.
Qed.

(** *** InitProducerId *)

(** [id] may be handed to the next holder of [e]. *)
Definition follows (e : TxnEntry) (id : Identity) (c : Coordinator) : Prop :=
  id_ok (next_pid c) id ∧ id_le (client_producer_identity e) id.

Lemma triple_next_identity i e txnv :
  triple (Owns c0 i e)
    (next_producer_identity txnv (client_producer_identity e).1 (client_producer_identity e).2)
    (fun id c => Owns c0 i e c ∧ follows e id c) (advance c0).
Proof.
  unfold next_producer_identity. tbind triple_fresh_when. intros fresh c (Ho & n & Hok & Hf).
  destruct (next_producer_identity_with_fresh _ _ _ _) as [id|] eqn:Hid; simpl; [|eauto].
  pose proof (client_ok n e Hok) as Hc. unfold follows. destruct (client_producer_identity e) as [pid ep].
  eapply next_identity_later in Hid as (? & ? & _); eauto.
Qed.

Lemma triple_next_recovery i e :
  triple (Owns c0 i e)
    (next_recovery_producer_identity (client_producer_identity e).1 (client_producer_identity e).2)
    (fun id c => Owns c0 i e c ∧ follows e id c) (advance c0).
Proof.
  unfold next_recovery_producer_identity. tbind triple_fresh_when. intros fresh c (Ho & n & Hok & Hf).
  destruct (next_recovery_producer_identity_with_fresh _ _ _) as [id|] eqn:Hid; simpl; [|eauto].
  pose proof (client_ok n e Hok) as Hc. unfold follows. destruct (client_producer_identity e) as [pid ep].
  eapply next_recovery_later in Hid; eauto.
Qed.

Lemma triple_stage i e :
  triple (Owns c0 i e) (stage_recovery_identity e)
    (fun r c => (transactional_id r.1 = transactional_id e ∧ client_producer_identity r.1 = r.2) ∧
       Owns c0 i e c ∧ fits (next_pid c) e r.1) (advance c0).
Proof.
  unfold stage_recovery_identity.
  rewrite (surjective_pairing (client_producer_identity e)).
  eapply triple_bind.
  { instantiate (1 := fun id c => Owns c0 i e c ∧ follows e id c).
    destruct (has_staged_producer_identity e); [apply triple_next_recovery|apply triple_next_identity]. }
  intros [pid epoch]. apply triple_ret. intros c (Ho & Hok & Hle). cbn [fst snd].
  assert (client_producer_identity (with_next pid epoch e) = (pid, epoch)) as Hc by apply client_staged, Hok.
  split; [done|]. split; [done|]. split; [done| |by rewrite Hc].
  split; [apply (own_ok _ _ _ _ Ho)|done].
Qed.

Lemma triple_next_init i e txnv :
  triple (Owns c0 i e) (next_init_producer_identity e txnv) (fun id c => Owns c0 i e c ∧ follows e id c) (advance c0).
Proof.
  unfold next_init_producer_identity. rewrite (surjective_pairing (client_producer_identity e)).
  destruct (verified txnv); [apply triple_next_identity|]. unfold checked_succ.
  destruct (Z.ltb_spec (client_producer_identity e).2 I16_MAX).
  - apply triple_ret. intros c Ho. pose proof (client_ok _ _ (own_ok _ _ _ _ Ho)) as [Hp Hep]. split; [done|].
    split; [split; simpl; lia|right; simpl; lia].
  - intros c Ho. pose proof (triple_fresh_when c0 i e true c Ho) as Hf. unfold fresh_when in Hf.
    unfold mbind, M_bind in Hf. destruct (allocate c) as [c' [[p ep]|err]] eqn:Ha; cbn in *; [|done].
    destruct Hf as (Ho' & n & Hok & Hn & Hp). split; [done|].
    assert (ep = 0) as ->.
    { unfold allocate, draw, mbind, M_bind, gets, modify, mret, M_ret in Ha.
      destruct (io c) as [|[] bs]; by simplify_eq/=. }
    pose proof (client_ok _ _ Hok) as [? _]. split; [split; simpl; unfold I16_MAX; lia|left; simpl; lia].
Qed.

(** What a grant leaves behind: the client must now present the identity granted. *)
Definition Granted (tid : Tid) (resp : InitProducerIdResponse) (c : Coordinator) : Prop :=
  advance c0 c ∧ ∃ e, view c tid = Some e ∧
    client_producer_identity e = (i_producer_id resp, i_producer_epoch resp).

Lemma keep_prepared_advances tid i b txnv now :
  triple (fun c => advance c0 c ∧ slots c !! tid = Some i) (keep_prepared i b txnv now)
    (fun r c => match r with Some resp => Granted tid resp c | None => advance c0 c ∧ slots c !! tid = Some i end)
    (advance c0).
Proof.
  unfold keep_prepared. tbind triple_lock_current. intros e.
  eapply (triple_weaken (fun c => transactional_id e = tid ∧ Owns c0 i e c ∧ slots c !! tid = Some i)); [|tauto|intros ? ? H; exact H].
  apply triple_pure. intros <-. case_bool_decide.
  - cbv zeta. eapply (triple_weaken (Owns c0 i e)); [|tauto|intros ? ? H'; exact H'].
    tbind triple_store_same; [by destruct b..|]. intros _. tbind triple_stage. intros [e1 [pid epoch]]. cbn [fst snd].
    apply triple_pure. intros [Ht Hc]. tbind triple_store_prepared; [done..|]. intros _.
    tbind put_current. intros _. apply triple_ret. intros c (Ha & _ & Hv). split; [done|].
    exists (with_last_update now e1). split; [|exact Hc]. simpl in Hv. rewrite Ht in Hv. by destruct b.
  - eapply triple_bind; [apply triple_guard; intros c [H' _]; eauto|]. intros ?. cbv beta. apply triple_pure. intros _.
    apply triple_ret. intros c [H' ?]. eauto.
Qed.

Lemma abort_ongoing_advances tid i txnv now :
  triple (fun c => advance c0 c ∧ slots c !! tid = Some i) (abort_ongoing i txnv now)
    (fun b c => if b then ∃ e, has_staged_producer_identity e = false ∧ Current c0 tid e c
                else advance c0 c ∧ slots c !! tid = Some i) (advance c0).
Proof.
  unfold abort_ongoing. tbind triple_lock_current. intros e.
  eapply (triple_weaken (fun c => transactional_id e = tid ∧ Owns c0 i e c ∧ slots c !! tid = Some i)); [|tauto|intros ? ? H; exact H].
  apply triple_pure. intros <-. case_bool_decide; [|apply triple_ret; intros c [H' ?]; eauto].
  cbv zeta. eapply (triple_weaken (Owns c0 i e)); [|tauto|intros ? ? H'; exact H'].
  tbind triple_store_same; [done..|]. intros _. tbind triple_completion. intros e1.
  apply triple_pure. intros (Ht & _). simpl in Ht. tbind triple_store_prepared; [done..|]. intros _.
  tbind triple_put_owned. intros _. tbind triple_dispatch. intros _. tbind triple_lock. intros e2.
  apply triple_pure. intros ->.
  destruct (completion_producer_identity _) as [pid epoch] eqn:Hid.
  tbind triple_store_adopt; [by destruct (negb _)..|destruct (negb _); exact (eq_sym Hid)|]. intros _.
  tbind put_current. intros _. apply triple_ret. intros c Hc. rewrite <- Ht.
  destruct (negb _); (eexists; split; [|exact Hc]; done).
Qed.

(** The entry that [InitProducerId] writes over [e]. *)
Lemma fits_new n e tid id timeout now :
  transactional_id e = tid → id_ok n id → id_le (client_producer_identity e) id →
  fits n e (new_empty tid id.1 id.2 timeout now).
Proof.
  intros <- Hok Hle. split; [done| |by destruct id]. split; [by destruct id|by intros [=]].
Qed.

Lemma reinitialise_advances existing b tid txnv timeout now :
  triple (fun c => if b : bool then ∃ e, has_staged_producer_identity e = false ∧ Current c0 tid e c
                   else advance c0 c ∧ slots c !! tid = Some existing)
    (reinitialise existing b tid txnv timeout now) (fun resp c => Granted tid resp c) (advance c0).
Proof.
  assert (∀ i e, transactional_id e = tid → (b = true → has_staged_producer_identity e = false) →
    triple (Owns c0 i e)
      (id ← (if b && verified txnv then mret (producer_id e, producer_epoch e) else next_init_producer_identity e txnv);
       let snap := new_empty tid id.1 id.2 timeout now in
       _ ← store i snap; _ ← put snap txnv; mret (granted (producer_id snap, producer_epoch snap)))
      (fun resp c => Granted tid resp c) (advance c0)) as Hrest.
  { intros i e Ht Hs. eapply triple_bind.
    { instantiate (1 := fun id c => Owns c0 i e c ∧ follows e id c).
      destruct (b && verified txnv) eqn:Hb; [|apply triple_next_init].
      apply andb_true_iff in Hb as [Hb _]. apply triple_ret. intros c Ho. split; [done|].
      rewrite <- (client_unstaged e) by auto. split; [apply client_ok, Ho|reflexivity]. }
    intros id. cbv zeta. eapply triple_bind.
    { eapply triple_weaken; [apply (triple_store c0 i e)| |intros ? ? H; exact H].
      intros c (Ho & Hok & Hle). split; [done|]. by apply fits_new. }
    intros ?. cbv beta. tbind put_current. intros _. apply triple_ret. intros c (Ha & _ & Hv). split; [done|]. eauto. }
  intros c Hc.
  assert (∃ i e, slots c !! tid = Some i ∧ cells c !! i = Some e ∧ Owns c0 i e c ∧ transactional_id e = tid
    ∧ (b = true → has_staged_producer_identity e = false)) as (i & e & Hs & He & Ho & Ht & Hst).
  { destruct b.
    - destruct Hc as (e & Hst & Ha & Ht & Hv). unfold view in Hv. destruct (slots c !! tid) as [i|] eqn:Hs; [|done].
      exists i, e. destruct (owns_current c0 i tid e c Ha Hs Hv). done.
    - destruct Hc as [Ha Hs]. destruct (view_cell c tid existing (adv_wf _ _ Ha) Hs) as (e & _ & He & _).
      exists existing, e. by destruct (owns_current c0 existing tid e c Ha Hs He). }
  unfold reinitialise. rewrite run_gets. unfold get. rewrite Hs. cbn [default]. cbv zeta. rewrite (run_lock i e) by done.
  by apply Hrest.
Qed.

Lemma handle_transactional_advances tid txnv timeout b k now :
  triple (advance c0) (handle_transactional tid txnv timeout b k now)
    (fun resp c => Granted tid resp c) (advance c0).
Proof.
  unfold handle_transactional. intros c Hc. rewrite run_gets. unfold get.
  destruct (slots c !! tid) as [i|] eqn:Hs; revert c Hc Hs.
  - enough (triple (fun c => advance c0 c ∧ slots c !! tid = Some i)
      (answer ← (if k then keep_prepared i b txnv now else mret None);
       match answer with
       | Some resp => mret resp
       | None => aborted_ongoing ← abort_ongoing i txnv now; reinitialise i aborted_ongoing tid txnv timeout now
       end) (fun resp c => Granted tid resp c) (advance c0)) as H by (intros c Hc Hs; by apply H).
    eapply triple_bind.
    { instantiate (1 := fun r c => match r with Some resp => Granted tid resp c | None => advance c0 c ∧ slots c !! tid = Some i end).
      destruct k; [apply keep_prepared_advances|by apply triple_ret]. }
    intros [resp|]; [by apply triple_ret|]. tbind abort_ongoing_advances. intros ab. apply reinitialise_advances.
  - enough (triple (fun c => advance c0 c ∧ slots c !! tid = None)
      ('(pid, epoch) ← allocate; _ ← put (new_empty tid pid epoch timeout now) txnv; mret (granted (pid, epoch)))
      (fun resp c => Granted tid resp c) (advance c0)) as H by (intros c Hc Hs; by apply H).
    tbind triple_allocate. intros [pid epoch]. eapply triple_bind.
    { eapply triple_weaken; [by apply (triple_put c0 _ txnv (fun _ => True))| |intros ? ? H; exact H].
      intros c (Ha & Hs & Hok). split; [|done]. split_and!; [done|split; [done|by intros [=]]|].
      intros f. unfold view. simpl. by rewrite Hs. }
    intros ?. apply triple_ret. intros c [(Ha & _ & Hv) _]. split; [done|]. eauto.
Qed.

Lemma materialize_advances tid :
  triple (advance c0) (materialize_partition tid) (fun _ => advance c0) (advance c0).
Proof.
  unfold materialize_partition. tbind triple_gets. intros [l|]; [by apply triple_ret|].
  intros c Hc. unfold draw, mbind, M_bind, modify.
  destruct (io c) as [|[] bs]; cbn; repeat case_match; simplify_eq/=; (eapply advance_same; [exact Hc|..]; simpl; done || lia).
Qed.

Lemma init_advances g led r txnv now :
  triple (advance c0) (init_producer_id g led r txnv now)
    (fun resp c => match q_transactional_id r with None | Some [] => advance c0 c | Some tid => Granted tid resp c end)
    (advance c0).
Proof.
  unfold init_producer_id. destruct (q_transactional_id r) as [[|b tid]|].
  2: { cbv zeta. do 5 tguard. tbind triple_leaders. intros _. tbind triple_gets. intros mine. tguard.
       tbind materialize_advances. intros ?.
       destruct (resolve_txn_timeout _ _ _ _) as [timeout|]; [|by apply triple_fail].
       apply handle_transactional_advances. }
  all: tguard; intros c Hc; unfold allocate, draw, mbind, M_bind, gets, modify, mret, M_ret.
  all: destruct (io c) as [|[] bs]; cbn; (eapply advance_same; [exact Hc|..]; simpl; done || lia).
Qed.

(** *** The reaper *)
Lemma prepare_abort_advances tid now txnv :
  triple (advance c0) (prepare_abort tid now txnv) (fun e c => Current c0 tid e c) (advance c0).
Proof.
  unfold prepare_abort. tlock i e.
  eapply (triple_weaken (fun c => transactional_id e = tid ∧ Owns c0 i e c ∧ slots c !! tid = Some i)); [|tauto|intros ? ? H; exact H].
  apply triple_pure. intros <-. case_bool_decide.
  { apply triple_ret. intros c [Ho Hs]. split_and!; [eauto|done|]. unfold view. rewrite Hs. apply Ho. }
  eapply (triple_weaken (Owns c0 i e)); [|tauto|intros ? ? H'; exact H'].
  destruct (negb _); [apply triple_fail; eauto|]. cbv zeta.
  tbind triple_store_same; [done..|]. intros _. tbind triple_completion. intros e1.
  apply triple_pure. intros (Ht & _). tbind triple_store_prepared; [done..|]. intros _.
  tbind put_current. intros _. apply triple_ret. intros c Hc. simpl in Ht. by rewrite <- Ht.
Qed.

Lemma complete_abort_advances tid e now txnv :
  triple (Current c0 tid e) (complete_abort e now txnv) (fun _ => advance c0) (advance c0).
Proof.
  enough (triple (Current c0 (transactional_id e) e) (complete_abort e now txnv) (fun _ => advance c0) (advance c0)) as H.
  { intros c Hc. pose proof Hc as (_ & <- & _). by apply H. }
  unfold complete_abort. apply triple_current. intros i. destruct (negb _); [apply triple_fail; eauto|].
  unfold completion_producer_identity. destruct (client_producer_identity e) as [pid epoch] eqn:Hid.
  unfold apply_complete_abort. cbv zeta.
  tbind triple_store_adopt; [by destruct (negb _)..|by rewrite Hid; destruct (negb _)|]. intros _.
  tbind put_advances. intros _. by apply triple_ret.
Qed.

Lemma reap_advances tid now txnv : triple (advance c0) (reap tid now txnv) (fun _ => advance c0) (advance c0).
Proof.
  unfold reap. tbind triple_gets. intros mine. destruct mine; [|by apply triple_fail].
  eapply (triple_bind _ _ _ _ (fun _ => advance c0)); [by apply triple_ret|]. intros _.
  tbind prepare_abort_advances. intros e. tbind dispatch_current. intros _.
  tbind complete_abort_advances. intros _. by apply triple_ret.
Qed.

Lemma sweep_advances candidates now txnv :
  triple (advance c0) (sweep_with_backend candidates now txnv) (fun _ => advance c0) (advance c0).
Proof.
  induction candidates as [|tid candidates IH]; simpl; [by apply triple_ret|].
  eapply (triple_bind _ _ _ _ (fun _ => advance c0)).
  - intros c Hc. pose proof (reap_advances tid now txnv c Hc) as H. unfold catch.
    by destruct (reap tid now txnv c) as [c' [[]|]].
  - intros done_. tbind IH. intros aborted. by apply triple_ret.
Qed.

Lemma add_partitions_advances led allowed denied tid pid epoch topics txnv v now :
  triple (advance c0) (add_partitions_to_txn led allowed denied tid pid epoch topics txnv v now)
    (fun _ => advance c0) (advance c0).
Proof.
  unfold add_partitions_to_txn. tbind triple_leaders. intros _. destruct (negb allowed); [by apply triple_ret|].
  unfold process_one_txn. tbind triple_gets. intros mine. destruct (negb mine); [by apply triple_ret|].
  apply triple_slot; [by apply triple_ret|]. intros i.
  eapply (triple_weaken (advance c0)); [|tauto|intros ? ? H; exact H].
  destruct (_ && _).
  - intros c Hc. unfold verify_only_rows, mbind, M_bind, lock.
    destruct (cells c !! i); [simpl|done]. by repeat case_match.
  - cbv zeta. eapply (triple_bind _ _ _ _ (fun _ => advance c0)); [|intros code; by apply triple_ret].
    intros c Hc. pose proof (register_advances tid pid epoch
      (mjoin (map (fun t => pair t.1 <$> t.2) (filter (fun t => t.1 ∉ denied) topics))) txnv now c Hc) as H.
    unfold code_of. by destruct (register_partitions _ _ _ _ _ _ c) as [c' [[]|[]]].
Qed.
End requests.

(** ** Sequences of requests *)
Inductive Request : Type :=
| Init (g : InitGates) (led : gset Z) (r : InitProducerIdRequest)
| AddPartitions (led : gset Z) (allowed : bool) (denied : gset (list byte)) (tid : Tid) (id : Identity)
    (topics : list TxnTopic) (verify_only : bool)
| AddOffsets (led : gset Z) (tid : Tid) (id : Identity) (part : TopicPartition)
| Produce (is_transactional : bool) (id : Identity) (tp : TopicPartition)
| EndTxn (led : gset Z) (allowed : bool) (r : EndTxnRequest)
| Sweep (led : gset Z).

(** A request handled alone, at a time and under a version of the feature. *)
Definition serve (r : Request) (txnv : TxnVersion) (now : Z) (c : Coordinator) : Coordinator :=
  match r with
  | Init g led r => (init_producer_id g led r txnv now c).1
  | AddPartitions led allowed denied tid id topics v =>
      (add_partitions_to_txn led allowed denied tid id.1 id.2 topics txnv v now c).1
  | AddOffsets led tid id part => (add_offsets_to_txn led tid id.1 id.2 part txnv now c).1
  | Produce b id tp => (validate_transactional_produce b id.1 id.2 tp txnv now c).1
  | EndTxn led allowed r => (end_txn led allowed r txnv now c).1
  | Sweep led => (sweep_once led txnv now c).1
  end.
Definition run (rs : list (Request * TxnVersion * Z)) (c : Coordinator) : Coordinator :=
  foldl (fun c '(r, txnv, now) => serve r txnv now c) c rs.

(** Both outcomes of a program advance. *)
Lemma triple_state {A} c0 c (m : M A) :
  triple (advance c0) m (fun _ => advance c0) (advance c0) → advance c0 c → advance c0 (m c).1.
Proof. intros H Hc. specialize (H c Hc). by destruct ((m c).2). Qed.

Lemma serve_advances c0 c r txnv now : advance c0 c → advance c0 (serve r txnv now c).
Proof.
  intros Hc. destruct r; simpl.
  - pose proof (init_advances c0 g led r txnv now c Hc) as H. destruct ((init_producer_id _ _ _ _ _ c).2); [|done].
    destruct (q_transactional_id r) as [[|b tid]|]; [done|apply H|done].
  - by apply triple_state; [apply add_partitions_advances|].
  - by apply triple_state; [apply add_offsets_advances|].
  - by apply triple_state; [apply produce_advances|].
  - by apply triple_state; [apply end_txn_advances|].
  - apply triple_state; [|done]. unfold sweep_once.
    eapply triple_bind; [apply triple_leaders|]. intros ?.
    eapply triple_bind; [apply triple_gets|]. intros cs. apply sweep_advances.
Qed.

Lemma run_advances rs c0 c : advance c0 c → advance c0 (run rs c).
Proof.
  revert c. induction rs as [|[[r txnv] now] rs IH]; simpl; [done|]. intros c Hc. by apply IH, serve_advances.
Qed.

(** ** Fencing *)

(** A guard that fails ends the request there. *)
Lemma run_guard {A} b code (k : unit → M A) c :
  (guard_code b code ≫= k) c = if b then k tt c else (c, Err (Code code)).
Proof. by destruct b. Qed.

Lemma stale_owner e old :
  id_lt old (client_producer_identity e) →
  has_staged_producer_identity e = true ∨ (producer_id e =? old.1) && (producer_epoch e =? old.2) = false.
Proof.
  intros Hlt. destruct (has_staged_producer_identity e) eqn:Hs; [by left|right].
  rewrite client_unstaged in Hlt by done. apply id_lt_ne in Hlt. destruct old as [p ep]. simpl.
  destruct (Z.eqb_spec (producer_id e) p), (Z.eqb_spec (producer_epoch e) ep); simpl; congruence.
Qed.

Section stale.
Context (c : Coordinator) (tid : Tid) (e : TxnEntry) (old : Identity).
Hypothesis Hview : view c tid = Some e.
Hypothesis Hold : id_lt old (client_producer_identity e).

(** Finding and locking the entry, whatever set of partitions is led. *)
Lemma run_slot : ∃ i, ∀ led A (k : nat → TxnEntry → M A) none,
  (slot ← gets (get tid); match slot with None => none | Some i => e ← lock i; k i e end) (set_leaders led c)
  = k i e (set_leaders led c).
Proof.
  unfold view in Hview. destruct (slots c !! tid) as [i|] eqn:Hs; [|done]. exists i. intros led A k none.
  rewrite run_gets. unfold get. simpl. rewrite Hs. by apply run_lock.
Qed.

Lemma stale_register led ps txnv now :
  ∃ code, register_partitions tid old.1 old.2 ps txnv now (set_leaders led c) = (set_leaders led c, Err (Code code)).
Proof.
  unfold register_partitions, mbind at 1, M_bind. unfold register_lock. rewrite run_gets, run_guard.
  destruct (is_coordinator_for _ _); [|by eexists].
  destruct run_slot as [i Hi]. rewrite Hi, run_guard.
  destruct (stale_owner e old Hold) as [Hs|Hs].
  - rewrite Hs. by eexists.
  - destruct (negb _); [|by eexists]. rewrite run_guard, Hs. by eexists.
Qed.

Lemma stale_offsets led part txnv now :
  ∃ code, add_offsets_to_txn led tid old.1 old.2 part txnv now c = (set_leaders led c, Err (Code code)).
Proof.
  unfold add_offsets_to_txn. change ((refresh_leader_partitions led ≫= ?k) c) with (k tt (set_leaders led c)).
  cbv beta. rewrite run_gets, run_guard. destruct (is_coordinator_for _ _); [|by eexists].
  destruct run_slot as [i Hi]. rewrite Hi, run_guard.
  destruct (stale_owner e old Hold) as [Hs|Hs].
  - rewrite Hs. by eexists.
  - destruct (negb _); [|by eexists]. rewrite run_guard, Hs. by eexists.
Qed.

Lemma stale_end led allowed committed txnv now :
  (end_txn led allowed (mkEnd tid old.1 old.2 committed) txnv now c).1 = set_leaders led c.
Proof.
  unfold end_txn. change ((refresh_leader_partitions led ≫= ?k) c) with (k tt (set_leaders led c)).
  cbv beta. unfold mbind at 1, M_bind. unfold validate_end_txn. rewrite run_guard. destruct allowed; [|done].
  rewrite run_gets, run_guard. cbn [r_transactional_id]. destruct (is_coordinator_for _ _); [|done].
  destruct run_slot as [i Hi]. rewrite Hi, run_guard. destruct (negb _); [|done].
  destruct (_ && _); [done|]. rewrite run_guard, bool_decide_eq_false_2; [done|].
  intros Heq. apply id_lt_ne in Hold. apply Hold. rewrite Heq. by destruct old.
Qed.

Lemma stale_produce tp txnv now :
  0 ≤ old.1 → producer_id e = old.1 → tid_for_pid old.1 c = Some tid →
  ∃ code, validate_transactional_produce true old.1 old.2 tp txnv now c = (c, Err (Code code)).
Proof.
  intros Hpos Hpid Hidx. unfold validate_transactional_produce. rewrite (proj2 (Z.ltb_ge _ _) Hpos).
  cbn [negb orb]. rewrite run_gets, Hidx. simpl. unfold view in Hview. unfold get.
  destruct (slots c !! tid) as [i|]; [|done]. simpl in Hview.
  rewrite (run_lock _ e) by done. rewrite run_guard. destruct (stale_owner e old Hold) as [Hs|Hs].
  - rewrite Hs. by eexists.
  - destruct (negb _); [|by eexists]. rewrite run_guard. rewrite Hpid, Z.eqb_refl in Hs. simpl in Hs. rewrite Hs. by eexists.
Qed.
End stale.

(** C6. A fenced producer is harmless.  Once [InitProducerId] has granted an identity
    for a transactional id, in a run from a coordinator without entries, then after any sequence of requests, whatever appends,
    allocations and fan-outs fail, an earlier identity cannot register a partition,
    join a group's offsets or end the transaction of its successor: these requests
    change nothing but the partitions led, which they refresh.  Nor can it produce, as long as its producer id is still the
    entry's and is indexed to it: a batch whose producer id is no longer indexed is
    not checked against any entry, and [InitProducerId] does not compare the identity
    that is presented to it with the entry. *)
Theorem fenced_producer_is_harmless rs0 rs c g led r txnv now b tid resp c1 old :
  slots c = ∅ →
  q_transactional_id r = Some (b :: tid) →
  init_producer_id g led r txnv now (run rs0 c) = (c1, Ok resp) →
  id_lt old (i_producer_id resp, i_producer_epoch resp) →
  let c2 := run rs c1 in
  (∀ led ps v t, ∃ code,
     register_partitions (b :: tid) old.1 old.2 ps v t (set_leaders led c2) = (set_leaders led c2, Err (Code code))) ∧
  (∀ led part v t, ∃ code,
     add_offsets_to_txn led (b :: tid) old.1 old.2 part v t c2 = (set_leaders led c2, Err (Code code))) ∧
  (∀ led allowed committed v t,
     (end_txn led allowed (mkEnd (b :: tid) old.1 old.2 committed) v t c2).1 = set_leaders led c2) ∧
  (∀ e tp v t, view c2 (b :: tid) = Some e → producer_id e = old.1 → tid_for_pid old.1 c2 = Some (b :: tid) → 0 ≤ old.1 →
     ∃ code, validate_transactional_produce true old.1 old.2 tp v t c2 = (c2, Err (Code code))).
Proof.
  intros Hc Hq Hinit Hold c2.
  assert (wf c) as Hwf by (intros t i; by rewrite Hc).
  pose proof (run_advances rs0 c c (advance_refl c Hwf)) as H0.
  pose proof (init_advances c g led r txnv now _ H0) as H1. rewrite Hinit, Hq in H1. destruct H1 as [Ha (e & Hv & Hid)].
  destruct (run_advances rs c1 c1 (advance_refl c1 (adv_wf _ _ Ha))) as [_ _ Hview].
  destruct (Hview _ _ Hv) as (e' & Hv' & Hle). rewrite Hid in Hle.
  assert (id_lt old (client_producer_identity e')) as Hlt by (by eapply id_lt_le).
  split_and!; [intros..|intros e0 tp v t Hv0 Hp Hi Hpos].
  - by eapply stale_register.
  - by eapply stale_offsets.
  - by eapply stale_end.
  - fold c2 in Hv'. assert (e0 = e') as -> by congruence. by eapply stale_produce.
Qed.

(** A first producer is given [(7, 0)] and its successor [(7, 1)]. *)
Definition sample_start : Coordinator := set_leaders {[0]} (new 1 {[0 := []]} 7 [] ∅).
Definition sample_gates : InitGates := mkGates true true true true 1000 900000.
Definition sample_init : InitProducerIdRequest := mkInitReq (Some [x74]) 60000 (-1) (-1) false false.
Definition sample_history : list (Request * TxnVersion * Z) := [(Init sample_gates {[0]} sample_init, Verified, 10)].

Lemma sample_granted :
  (init_producer_id sample_gates {[0]} sample_init Verified 20 (run sample_history sample_start)).2 = Ok (granted (7, 1)).
Proof. vm_compute. reflexivity. Qed.

Lemma fenced_producer_is_harmless_witness :
  ∃ c1, init_producer_id sample_gates {[0]} sample_init Verified 20 (run sample_history sample_start)
          = (c1, Ok (granted (7, 1))) ∧
  ∀ ps, ∃ code, register_partitions [x74] 7 0 ps Verified 30 (set_leaders {[0]} c1)
                = (set_leaders {[0]} c1, Err (Code code)).
Proof.
  pose proof sample_granted as Hg.
  destruct (init_producer_id sample_gates {[0]} sample_init Verified 20 (run sample_history sample_start)) as [c1 res] eqn:Hi.
  simpl in Hg. subst res. exists c1. split; [reflexivity|]. intros ps.
  destruct (fenced_producer_is_harmless sample_history [] sample_start sample_gates {[0]} sample_init Verified 20 x74 []
    (granted (7, 1)) c1 (7, 0)) as [H _].
  - reflexivity.
  - reflexivity.
  - exact Hi.
  - right. split; [reflexivity|simpl; lia].
  - exact (H {[0]} ps Verified 30).
Defined.
