(* ===== verification/TxnSpec.v ===== *)
(** * Transactions: atomic outcomes

    The abstract transaction service: which partitions each open transaction has, and
    the transactions that ended, each with one outcome.  The coordinator of
    [TxnCoord.v] refines it: as long as every request it handles leaves no transaction
    between its decision and its completion, the markers it has written are one for
    each partition of each ended transaction, with that transaction's outcome. *)

From S2P Require Import Prelude TxnState TxnLog TxnCoord TxnInv.

(** ** The specification *)
Record Service : Type := mkService {
  open_txns : gmap Tid (gset TopicPartition);
  ended : list (gset TopicPartition * MarkerType);
}.

Definition joined (tid : Tid) (ps : gset TopicPartition) (s : Service) : Service :=
  mkService (<[tid := default ∅ (open_txns s !! tid) ∪ ps]> (open_txns s)) (ended s).
Definition finished (tid : Tid) (ty : MarkerType) (s : Service) : Service :=
  match open_txns s !! tid with
  | Some ps => mkService (delete tid (open_txns s)) (ended s ++ [(ps, ty)])
  | None => s
  end.

Lemma finished_closed tid ty s : open_txns s !! tid = None → finished tid ty s = s.
Proof. unfold finished. by intros ->. Qed.

(** What a request does to the service, given whether it is answered without an
    error.  One that is refused does nothing, or, when it failed underway, what it was
    to do.  [AddPartitionsToTxn] reports errors in its rows, and a batch may be of a
    transaction that another node coordinates. *)
Inductive service_step : Request → bool → Service → Service → Prop :=
| step_refused r s : service_step r false s s
| step_init g led q tid ok s :
    q_transactional_id q = Some tid → service_step (Init g led q) ok s (finished tid Abort s)
| step_kept g led q ok s : q_keep_prepared_txn q = true → service_step (Init g led q) ok s s
| step_idempotent g led q ok s :
    (q_transactional_id q = None ∨ q_transactional_id q = Some []) → service_step (Init g led q) ok s s
| step_add led allowed denied tid id topics v ok s :
    service_step (AddPartitions led allowed denied tid id topics v) ok s
      (joined tid (list_to_set (mjoin (map (fun t => pair t.1 <$> t.2) (filter (fun t => t.1 ∉ denied) topics)))) s)
| step_rows led allowed denied tid id topics v ok s :
    service_step (AddPartitions led allowed denied tid id topics v) ok s s
| step_offsets led tid id part ok s :
    service_step (AddOffsets led tid id part) ok s (joined tid {[part]} s)
| step_produce b id tp tid ok s :
    service_step (Produce b id tp) ok s (joined tid {[tp]} s)
| step_elsewhere b id tp ok s : service_step (Produce b id tp) ok s s
| step_end led allowed q ok s :
    service_step (EndTxn led allowed q) ok s
      (finished (r_transactional_id q) (if r_committed q then Commit else Abort) s)
| step_sweep led tids ok s :
    service_step (Sweep led) ok s (foldl (fun s tid => finished tid Abort s) s tids).

Inductive service_run : list (Request * bool) → Service → Service → Prop :=
| run_nil s : service_run [] s s
| run_cons r ok rs s s1 s2 :
    service_step r ok s s1 → service_run rs s1 s2 → service_run ((r, ok) :: rs) s s2.

(** ** What the coordinator shows of it *)
Definition is_prepared (e : TxnEntry) : Prop := state e = PrepareCommit ∨ state e = PrepareAbort.
(** No transaction is between its decision and its completion. *)
Definition settled (c : Coordinator) : Prop := ∀ tid e, view c tid = Some e → ¬ is_prepared e.

Definition open_of (o : option TxnEntry) : option (gset TopicPartition) :=
  e ← o; if bool_decide (state e = Ongoing) then Some (partitions e) else None.
Definition outcomes (gone : gset TopicPartition) (es : list (gset TopicPartition * MarkerType)) :
    list (TopicPartition * MarkerType) :=
  concat (map (fun '(ps, ty) => (fun tp => (tp, ty)) <$> elements (ps ∖ gone)) es).
Definition shown (ms : list Marker) : list (TopicPartition * MarkerType) :=
  (fun m => (m_partition m, m_type m)) <$> ms.

(** The entries by transactional id. *)
Definition sees (v : gmap Tid TxnEntry) (c : Coordinator) : Prop :=
  (∀ tid i, slots c !! tid = Some i → ∃ e, cells c !! i = Some e ∧ transactional_id e = tid) ∧
  (∀ tid, view c tid = v !! tid).

Record simulates (G : gset TopicPartition) (s : Service) (v : gmap Tid TxnEntry) (ms : list Marker) : Prop := {
  sim_open tid : open_txns s !! tid = open_of (v !! tid);
  sim_idle tid e : v !! tid = Some e → state e ≠ Ongoing → partitions e = ∅;
  sim_settled tid e : v !! tid = Some e → ¬ is_prepared e;
  sim_markers : shown ms = outcomes G (ended s);
}.

(** ** The operations on the entries *)
Section operations.
Context (G : gset TopicPartition).

(** The coordinator holds entries [v] and has written markers [ms]. *)
Definition Holds (v : gmap Tid TxnEntry) (ms : list Marker) (c : Coordinator) : Prop :=
  sees v c ∧ markers c = ms ∧ gone c = G.
(** ... and the request holds the current cell of [tid]. *)
Definition Holding (v : gmap Tid TxnEntry) (ms : list Marker) (tid : Tid) (i : nat) (c : Coordinator) : Prop :=
  Holds v ms c ∧ slots c !! tid = Some i.

Lemma holds_same v ms c c' :
  slots c' = slots c → cells c' = cells c → markers c' = markers c → gone c' = gone c → Holds v ms c → Holds v ms c'.
Proof.
  intros Hs Hc Hm Hg [[Ht Hv] [Hms HG]]. split; [|by rewrite Hm, Hg]. split.
  - intros tid i. rewrite Hs, Hc. apply Ht.
  - intros tid. unfold view. rewrite Hs, Hc. apply Hv.
Qed.

Lemma holding_entry v ms (tid : Tid) i c :
  Holding v ms tid i c → ∃ e, v !! tid = Some e ∧ cells c !! i = Some e ∧ transactional_id e = tid.
Proof.
  intros [[[Ht Hv] _] Hs]. destruct (Ht tid i Hs) as (e & He & Hte). exists e. split; [|done].
  rewrite <- Hv. unfold view. by rewrite Hs.
Qed.

Lemma hold_lock v ms (tid : Tid) i E :
  triple (Holding v ms tid i) (lock i)
    (fun e c => (v !! tid = Some e ∧ transactional_id e = tid) ∧ Holding v ms tid i c) E.
Proof.
  intros c Hc. destruct (holding_entry _ _ _ _ _ Hc) as (e & Hv & He & Ht). unfold lock. by rewrite He.
Qed.

Lemma hold_store v ms (tid : Tid) i e E :
  transactional_id e = tid →
  triple (Holding v ms tid i) (store i e) (fun _ => Holding (<[tid := e]> v) ms tid i) E.
Proof.
  intros Hte c Hc. destruct (holding_entry _ _ _ _ _ Hc) as (e0 & Hv0 & He0 & Ht0).
  destruct Hc as [[[Ht Hv] Hm] Hs]. simpl. assert (i < length (cells c))%nat by (by eapply lookup_lt_Some).
  split; [|done]. split; [split|done]; simpl.
  - intros t j Hj. simpl. destruct (decide (i = j)) as [<-|]; [|rewrite list_lookup_insert_ne by done; by apply Ht].
    exists e. rewrite list_lookup_insert_eq by done. split; [done|]. destruct (Ht t i Hj) as (? & ? & ?). congruence.
  - intros t. unfold view. simpl. destruct (decide (tid = t)) as [<-|Hne].
    + rewrite Hs, lookup_insert_eq. simpl. by rewrite list_lookup_insert_eq.
    + rewrite lookup_insert_ne, <- Hv by done. unfold view. destruct (slots c !! t) as [j|] eqn:Hj; [simpl|done].
      destruct (decide (i = j)) as [<-|]; [|by rewrite list_lookup_insert_ne].
      destruct (Ht t i Hj) as (? & ? & ?). congruence.
Qed.

Lemma hold_draw v ms : triple (Holds v ms) draw (fun _ => Holds v ms) (Holds v ms).
Proof. apply triple_draw. intros c bs. by apply holds_same. Qed.

(** [put] installs the entry; when it fails, nothing has changed. *)
Lemma hold_put v ms e txnv :
  triple (Holds v ms) (put e txnv) (fun _ => Holds (<[transactional_id e := e]> v) ms) (Holds v ms).
Proof.
  intros c Hc. unfold put. rewrite run_gets. destruct (prepare_append e txnv c) as [[[p l] r]|]; [|done].
  refine (triple_bind (Holds v ms) _ draw _ (fun _ => Holds v ms) (fun _ => Holds _ ms) (hold_draw v ms) _ c Hc).
  clear c Hc. intros _ c [[Ht Hv] [Hm HG]]. simpl.
  assert ((cells c ++ [e]) !! length (cells c) = Some e) as Hnew by (by rewrite lookup_app_r, Nat.sub_diag by lia).
  split; [split|done]; simpl.
  - intros t j. simpl. destruct (decide (transactional_id e = t)) as [<-|].
    + rewrite lookup_insert_eq. intros [= <-]. eauto.
    + rewrite lookup_insert_ne by done. intros (f & ? & ?)%Ht. exists f. split; [by apply lookup_app_l_Some|done].
  - intros t. unfold view in *. simpl. destruct (decide (transactional_id e = t)) as [<-|].
    + by rewrite !lookup_insert_eq.
    + rewrite !lookup_insert_ne, <- Hv by done. destruct (slots c !! t) as [j|] eqn:Hj; [simpl|done].
      destruct (Ht t j Hj) as (f & Hf & _). rewrite Hf. by apply lookup_app_l_Some.
Qed.

(** The markers of a complete fan-out. *)
Definition markers_of (e : TxnEntry) (ty : MarkerType) : list Marker :=
  map (fun tp => mkMarker tp (producer_id e) (producer_epoch e) ty) (elements (partitions e ∖ G)).

Lemma hold_dispatch v ms e ty :
  triple (Holds v ms) (dispatch_transaction_markers e ty)
    (fun _ => Holds v (ms ++ markers_of e ty)) (fun c => ∃ ms', Holds v ms' c).
Proof.
  intros c Hc. pose proof Hc as (_ & Hm & HG). unfold dispatch_transaction_markers. cbv zeta. cbn [fst snd].
  case_bool_decide as Hmiss.
  - assert ((partitions e ∖ gone c) ∖ default ∅ (head (misses c)) = partitions e ∖ G) as Hall.
    { rewrite <- HG. apply set_eq. intros x. rewrite elem_of_difference. split; [tauto|]. intros Hx. split; [done|].
      intros Hx'. apply (not_elem_of_empty (C := gset TopicPartition) x). rewrite <- Hmiss. by apply elem_of_intersection. }
    rewrite Hall. destruct Hc as [Hs _]. split; [exact Hs|]. simpl. by rewrite Hm.
  - eexists. destruct Hc as [Hs _]. split; [exact Hs|]. split; [simpl; reflexivity|done].
Qed.

Lemma hold_put_same v ms e txnv :
  v !! transactional_id e = Some e → triple (Holds v ms) (put e txnv) (fun _ => Holds v ms) (Holds v ms).
Proof.
  intros Hv. eapply triple_weaken; [apply hold_put|done|]. intros ? c. by rewrite insert_id.
Qed.

(** Drawing identities leaves the entries alone. *)
Lemma hold_fresh v ms (tid : Tid) i b :
  triple (Holding v ms tid i) (fresh_when b) (fun _ => Holding v ms tid i) (Holding v ms tid i).
Proof.
  intros c [Hc Hs]. unfold fresh_when. destruct b; [|done].
  unfold allocate, draw, mbind, M_bind, gets, modify, mret, M_ret.
  destruct (io c) as [|[] bs]; cbn; (split; [by eapply holds_same; [..|exact Hc]|done]).
Qed.

Lemma hold_completion v ms (tid : Tid) i e txnv :
  triple (Holding v ms tid i) (prepare_completion_identities e txnv)
    (fun e' c => (transactional_id e' = transactional_id e ∧ state e' = state e ∧ partitions e' = partitions e)
                 ∧ Holding v ms tid i c) (Holding v ms tid i).
Proof.
  unfold prepare_completion_identities. destruct (client_producer_identity e) as [cp ce].
  eapply triple_bind; [apply hold_fresh|]. intros fresh c Hc.
  destruct (prepare_completion_identities_with_fresh e txnv fresh) as [e'|] eqn:He; simpl; [|done].
  split; [|done]. unfold prepare_completion_identities_with_fresh in He.
  destruct (negb _); [by simplify_eq|]. destruct (client_producer_identity e) as [p ep].
  destruct (if has_staged_producer_identity e then _ else _) as [[p' ep']|]; [simpl in He|done].
  destruct (_ || _); by simplify_eq.
Qed.

(** Finding and locking the current cell. *)
Lemma hold_slot {A} v ms (tid : Tid) (k : nat → TxnEntry → M A) none Q E :
  (v !! tid = None → triple (Holds v ms) none Q E) →
  (∀ i e, v !! tid = Some e → transactional_id e = tid → triple (Holding v ms tid i) (k i e) Q E) →
  triple (Holds v ms)
    (slot ← gets (get tid); match slot with None => none | Some i => e ← lock i; k i e end) Q E.
Proof.
  intros HN Hk c Hc. rewrite run_gets. unfold get. destruct (slots c !! tid) as [i|] eqn:Hs.
  - destruct (holding_entry v ms tid i c (conj Hc Hs)) as (e & Hv & He & Ht).
    cbv beta iota. rewrite (run_lock i e) by done. by apply Hk.
  - apply HN; [|done]. destruct Hc as [[_ Hv] _]. rewrite <- Hv. unfold view. by rewrite Hs.
Qed.
End operations.

(** A cell that [put] has replaced: the request still holds it, the map does not. *)
Section replaced.
Context (G : gset TopicPartition) (v : gmap Tid TxnEntry) (ms : list Marker) (tid : Tid) (i : nat).

Definition Replaced (ms : list Marker) (e : TxnEntry) (c : Coordinator) : Prop :=
  Holds G v ms c ∧ cells c !! i = Some e ∧ transactional_id e = tid ∧ slots c !! tid ≠ Some i.

Lemma put_replaces e txnv :
  v !! tid = Some e → transactional_id e = tid →
  triple (Holding G v ms tid i) (put e txnv) (fun _ => Replaced ms e) (Holds G v ms).
Proof.
  intros Hv Ht c Hc. pose proof (hold_put_same G v ms e txnv) as Hp. rewrite Ht in Hp.
  specialize (Hp Hv c (proj1 Hc)). destruct (holding_entry _ _ _ _ _ _ Hc) as (e' & Hv' & He & _). simplify_eq.
  assert (i < length (cells c))%nat as Hlt by (by eapply lookup_lt_Some).
  unfold put in *. rewrite run_gets in *. destruct (prepare_append e txnv c) as [[[p l] q]|]; [|exact Hp].
  unfold draw, modify, mbind, M_bind in *.
  destruct (io c) as [|[] bs]; cbn in *; [| |exact Hp]; (split_and!; [exact Hp|by apply lookup_app_l_Some|done|]).
  all: simpl; rewrite Ht, lookup_insert_eq; intros [= Heq]; lia.
Qed.

Lemma dispatch_replaced e e' ty :
  triple (Replaced ms e) (dispatch_transaction_markers e' ty)
    (fun _ => Replaced (ms ++ markers_of G e' ty) e) (fun c => ∃ ms', Holds G v ms' c).
Proof.
  intros c (Hc & Hrest). pose proof (hold_dispatch G v ms e' ty c Hc) as Hd. unfold dispatch_transaction_markers in *.
  cbv zeta in *. cbn [fst snd] in *. case_bool_decide; [|done]. by split.
Qed.

Lemma lock_replaced e E : triple (Replaced ms e) (lock i) (fun e' c => e' = e ∧ Replaced ms e c) E.
Proof. intros c Hc. pose proof Hc as (_ & He & _). unfold lock. by rewrite He. Qed.

(** Writing to it is not seen. *)
Lemma store_replaced e e' E :
  transactional_id e' = tid → triple (Replaced ms e) (store i e') (fun _ => Holds G v ms) E.
Proof.
  intros Ht' c ([[Ht Hv] Hm] & He & Hte & Hne). simpl.
  assert (∀ t, slots c !! t ≠ Some i) as Hfree.
  { intros t Hs. destruct (Ht t i Hs) as (f & Hf & Hft). apply Hne. by replace tid with t by congruence. }
  split; [split|done]; simpl.
  - intros t j Hs. rewrite list_lookup_insert_ne by (intros ->; by eapply Hfree). by apply Ht.
  - intros t. rewrite <- Hv. unfold view. simpl. destruct (slots c !! t) as [j|] eqn:Hs; [simpl|done].
    rewrite list_lookup_insert_ne; [done|]. intros ->. by eapply Hfree.
Qed.
End replaced.

(** ** The relation through the changes of an entry *)
Section simulation.
Context (G : gset TopicPartition) (s : Service) (v : gmap Tid TxnEntry) (ms : list Marker).
Hypothesis Hsim : simulates G s v ms.

(** The partitions of the entry are those of the open transaction, if there is one. *)
Lemma sim_partitions (tid : Tid) e : v !! tid = Some e → partitions e = default ∅ (open_txns s !! tid).
Proof.
  intros He. rewrite (sim_open _ _ _ _ Hsim), He. simpl. case_bool_decide; [done|]. by eapply sim_idle.
Qed.

Lemma insert_sim s' (tid : Tid) e ms' :
  (∀ t, t ≠ tid → open_txns s' !! t = open_txns s !! t) →
  open_txns s' !! tid = (if bool_decide (state e = Ongoing) then Some (partitions e) else None) →
  (state e ≠ Ongoing → partitions e = ∅) → ¬ is_prepared e → shown ms' = outcomes G (ended s') →
  simulates G s' (<[tid := e]> v) ms'.
Proof.
  intros Hother Htid Hidle Hset Hms. split; [| | |done].
  - intros t. destruct (decide (tid = t)) as [<-|]; [by rewrite lookup_insert_eq|].
    rewrite lookup_insert_ne, Hother by done. apply Hsim.
  - intros t f. destruct (decide (tid = t)) as [<-|]; [rewrite lookup_insert_eq; by intros [= <-]|].
    rewrite lookup_insert_ne by done. apply Hsim.
  - intros t f. destruct (decide (tid = t)) as [<-|]; [rewrite lookup_insert_eq; by intros [= <-]|].
    rewrite lookup_insert_ne by done. apply Hsim.
Qed.

Lemma sim_joined (tid : Tid) e ps :
  state e = Ongoing → partitions e = default ∅ (open_txns s !! tid) ∪ ps →
  simulates G (joined tid ps s) (<[tid := e]> v) ms.
Proof.
  intros Hst Hps. apply insert_sim; simpl.
  - intros t Ht. by rewrite lookup_insert_ne.
  - rewrite lookup_insert_eq, bool_decide_eq_true_2 by done. by rewrite Hps.
  - done.
  - unfold is_prepared. rewrite Hst. by intros [].
  - apply Hsim.
Qed.

Lemma sim_finished (tid : Tid) e e1 e2 ty :
  v !! tid = Some e → state e = Ongoing → partitions e1 = partitions e →
  state e2 ≠ Ongoing → ¬ is_prepared e2 → partitions e2 = ∅ →
  simulates G (finished tid ty s) (<[tid := e2]> v) (ms ++ markers_of G e1 ty).
Proof.
  intros He Hst Hps Hst2 Hp2 Hps2. pose proof (sim_open _ _ _ _ Hsim tid) as Ho.
  rewrite He in Ho. simpl in Ho. rewrite bool_decide_eq_true_2 in Ho by done. unfold finished. rewrite Ho.
  apply insert_sim; simpl; [..|done|done|].
  - intros t Ht. by rewrite lookup_delete_ne.
  - by rewrite lookup_delete_eq, bool_decide_eq_false_2.
  - unfold shown, outcomes in *. rewrite fmap_app, map_app, concat_app. f_equal; [apply Hsim|].
    simpl. rewrite app_nil_r. unfold markers_of. rewrite Hps, <- list_fmap_compose. done.
Qed.

Lemma sim_replaced (tid : Tid) e :
  open_txns s !! tid = None → state e ≠ Ongoing → ¬ is_prepared e → partitions e = ∅ →
  simulates G s (<[tid := e]> v) ms.
Proof.
  intros Ho Hst Hp Hps. apply insert_sim; [done| |done|done|apply Hsim].
  by rewrite Ho, bool_decide_eq_false_2.
Qed.

Lemma sim_same (tid : Tid) e e' :
  v !! tid = Some e → state e' = state e → partitions e' = partitions e → simulates G s (<[tid := e']> v) ms.
Proof.
  intros He Hst Hps. apply insert_sim; [done|..|apply Hsim].
  - rewrite (sim_open _ _ _ _ Hsim), He, Hst, Hps. done.
  - rewrite Hst, Hps. by eapply sim_idle.
  - unfold is_prepared. rewrite Hst. by eapply (sim_settled _ _ _ _ Hsim).
Qed.
End simulation.

(** ** The requests *)
Definition Sim (G : gset TopicPartition) (s : Service) (c : Coordinator) : Prop :=
  ∃ v ms, Holds G v ms c ∧ simulates G s v ms.
(** What a request must end with, well or badly. *)
Definition Post (G : gset TopicPartition) (r : Request) (ok : bool) (s : Service) (c : Coordinator) : Prop :=
  settled c → ∃ s', service_step r ok s s' ∧ Sim G s' c.

Lemma unsettled G r ok s v ms (tid : Tid) e c :
  Holds G v ms c → v !! tid = Some e → is_prepared e → Post G r ok s c.
Proof. intros [[_ Hv] _] He Hp Hset. exfalso. apply (Hset tid e); [by rewrite Hv|done]. Qed.
Lemma post_step G r ok s s' v ms c : service_step r ok s s' → simulates G s' v ms → Holds G v ms c → Post G r ok s c.
Proof. intros Hstep Hsim Hc _. exists s'. split; [done|]. by exists v, ms. Qed.

Section requests.
Context (G : gset TopicPartition) (r : Request) (s : Service) (v : gmap Tid TxnEntry) (ms : list Marker).
Hypothesis Hsim : simulates G s v ms.

Lemma post_same c : Holds G v ms c → Post G r false s c.
Proof. by apply (post_step G r false s s); [constructor|]. Qed.
Lemma post_nothing ok c : (∀ ok, service_step r ok s s) → Holds G v ms c → Post G r ok s c.
Proof. intros Hn. by apply (post_step G r ok s s). Qed.
Lemma post_holding (tid : Tid) i c : Holding G v ms tid i c → Post G r false s c.
Proof. intros [Hc _]. by apply post_same. Qed.
Hint Resolve post_same post_holding : core.

Lemma hold_leaders led E : triple (Holds G v ms) (refresh_leader_partitions led) (fun _ => Holds G v ms) E.
Proof. intros c Hc. simpl. by eapply holds_same; [..|exact Hc]. Qed.

Ltac hguard :=
  eapply triple_bind; [apply triple_guard; solve [eauto]|];
  intros ?; cbv beta; apply triple_pure; intros ?.

(** Storing an entry that joins partitions, and putting it. *)
Lemma put_joined (tid : Tid) i e ps txnv :
  transactional_id e = tid → state e = Ongoing → partitions e = default ∅ (open_txns s !! tid) ∪ ps →
  (∀ ok, service_step r ok s (joined tid ps s)) →
  triple (Holding G v ms tid i) (store i e) (fun _ => Holds G (<[tid := e]> v) ms) (Post G r false s) ∧
  triple (Holds G (<[tid := e]> v) ms) (put e txnv) (fun _ => Post G r true s) (Post G r false s).
Proof.
  intros Ht Hst Hps Hstep. pose proof (sim_joined G s v ms Hsim tid e ps Hst Hps) as Hj. split.
  - eapply triple_weaken; [by apply (hold_store G v ms tid i e)|done|]. by intros ? c [H _].
  - eapply triple_conseq; [apply hold_put_same|..]; [by rewrite Ht, lookup_insert_eq|done|..].
    all: intros; by eapply post_step.
Qed.

Lemma register_post tid pid epoch ps txnv now :
  (∀ ok, service_step r ok s (joined tid (list_to_set ps) s)) →
  triple (Holds G v ms) (register_partitions tid pid epoch ps txnv now) (fun _ => Post G r true s) (Post G r false s).
Proof.
  intros Hstep. unfold register_partitions.
  eapply (triple_bind _ _ _ _ (fun e c => ∃ i, (transactional_id e = tid ∧ state e = Ongoing ∧
    partitions e = default ∅ (open_txns s !! tid) ∪ list_to_set ps) ∧ Holding G (<[tid := e]> v) ms tid i c)).
  - unfold register_lock. eapply triple_bind; [apply triple_gets|]. intros mine. hguard.
    apply hold_slot; [intros _; apply triple_fail; auto|]. intros i e He Ht. do 3 hguard. cbv zeta.
    match goal with |- context [store i ?x] => set (e' := x) end.
    eapply triple_bind; [apply (hold_store G v ms tid i e'); unfold e'; by repeat case_bool_decide|].
    intros ?. apply triple_ret. intros c Hc. exists i. split; [|done].
    pose proof (sim_partitions G s v ms Hsim tid e He) as Hps. unfold e'. split_and!.
    + by repeat case_bool_decide.
    + by repeat case_bool_decide.
    + rewrite <- Hps. repeat case_bool_decide; simpl; try done.
      all: by rewrite (sim_idle _ _ _ _ Hsim tid e He) by intuition congruence.
  - intros e. apply triple_exists. intros i. apply triple_pure. intros (Ht & Hst & Hps).
    apply triple_or_code. eapply triple_weaken; [by eapply (put_joined tid i e)|by intros c [H _]|done].
Qed.

Lemma offsets_post led tid pid epoch part txnv now :
  (∀ ok, service_step r ok s (joined tid {[part]} s)) →
  triple (Holds G v ms) (add_offsets_to_txn led tid pid epoch part txnv now) (fun _ => Post G r true s) (Post G r false s).
Proof.
  intros Hstep. unfold add_offsets_to_txn. eapply triple_bind; [apply hold_leaders|]. intros ?.
  eapply triple_bind; [apply triple_gets|]. intros mine. hguard.
  apply hold_slot; [intros _; apply triple_fail; auto|]. intros i e He Ht. do 3 hguard. cbv zeta.
  match goal with |- context [store i ?x] => set (e' := x) end.
  destruct (put_joined tid i e' {[part]} txnv) as [Hs Hp]; [done|done| |done|].
  { by rewrite <- (sim_partitions G s v ms Hsim tid e He). }
  eapply triple_bind; [exact Hs|]. intros ?. apply triple_or_code. exact Hp.
Qed.

Lemma produce_post b pid epoch tp txnv now :
  (∀ ok tid, service_step r ok s (joined tid {[tp]} s)) → (∀ ok, service_step r ok s s) →
  triple (Holds G v ms) (validate_transactional_produce b pid epoch tp txnv now) (fun _ => Post G r true s) (Post G r false s).
Proof.
  intros Hstep Hnone. unfold validate_transactional_produce.
  destruct (negb b || (pid <? 0)); [apply triple_ret; eauto using post_nothing|].
  intros c Hc. rewrite run_gets. unfold get. destruct (tid_for_pid pid c) as [tid|]; [|by apply post_nothing]. simpl.
  destruct (slots c !! tid) as [i|] eqn:Hs; [|by apply post_nothing].
  destruct (holding_entry G v ms tid i c (conj Hc Hs)) as (e & He & Hce & Ht).
  rewrite (run_lock i e) by done.
  match goal with |- match (?m c).2 with _ => _ end =>
    enough (triple (Holding G v ms tid i) m (fun _ => Post G r true s) (Post G r false s)) as H by (by apply H) end.
  clear c Hc Hs Hce. do 2 hguard.
  destruct (_ && _); [apply triple_ret; intros c [Hc _]; by apply post_nothing|]. hguard.
  match goal with |- context [store i ?x] => set (e' := x) end.
  destruct (put_joined tid i e' {[tp]} txnv) as [Hst Hp]; unfold e'; [by case_bool_decide..| |done|].
  { rewrite <- (sim_partitions G s v ms Hsim tid e He). case_bool_decide as Hcompl; simpl; [|done].
    by rewrite (sim_idle _ _ _ _ Hsim tid e He) by intuition congruence. }
  eapply triple_bind; [exact Hst|]. intros ?. exact Hp.
Qed.

(** *** Ending a transaction *)

(** The decision is in the entry [e1] of [tid], and the transaction was open before. *)
Definition Decided (tid : Tid) (e1 : TxnEntry) : Prop :=
  ∃ e, v !! tid = Some e ∧ state e = Ongoing ∧ partitions e1 = partitions e ∧
       transactional_id e1 = tid ∧ is_prepared e1.

Lemma decided_unsettled (tid : Tid) e1 ok ms' c : Decided tid e1 → Holds G (<[tid := e1]> v) ms' c → Post G r ok s c.
Proof. intros (e & _ & _ & _ & _ & Hp) Hc. eapply unsettled; [exact Hc|by rewrite lookup_insert_eq|done]. Qed.

Lemma validate_end_post allowed q :
  triple (Holds G v ms) (validate_end_txn allowed q)
    (fun x c => match x with
                | inl i => Holding G v ms (r_transactional_id q) i c
                | inr _ => open_txns s !! r_transactional_id q = None ∧ Holds G v ms c
                end) (Post G r false s).
Proof.
  unfold validate_end_txn. hguard. eapply triple_bind; [apply triple_gets|]. intros mine. hguard.
  apply hold_slot; [intros _; apply triple_fail; auto|]. intros i e He Ht. hguard.
  destruct (_ && _) eqn:Hdone; [|hguard; by apply triple_ret].
  apply triple_ret. intros c [Hc _]. split; [|done].
  rewrite (sim_open _ _ _ _ Hsim), He. simpl. rewrite bool_decide_eq_false_2; [done|].
  intros Hst. rewrite Hst in Hdone. done.
Qed.

Lemma prepare_lock_post (tid : Tid) i committed txnv now :
  triple (Holding G v ms tid i) (prepare_lock i committed txnv now)
    (fun x c => (Decided tid x.2 ∧ x.1 = (if committed then (PrepareCommit, CompleteCommit) else (PrepareAbort, CompleteAbort))
                 ∧ state x.2 = x.1.1) ∧ Holds G (<[tid := x.2]> v) ms c)
    (Post G r false s).
Proof.
  unfold prepare_lock. eapply triple_bind; [apply hold_lock|]. intros e. apply triple_pure. intros [He Ht].
  destruct (decide_phase1_transition e committed) as [[[e0 prepare] complete]|code] eqn:Hd; [|apply triple_fail; eauto].
  unfold decide_phase1_transition in Hd. destruct (can_transition_to _ _) eqn:Htr; [simpl in Hd|done].
  injection Hd as <- <- <-.
  assert (state e = Ongoing) as Hst by (destruct committed, (state e); done).
  match goal with |- context [store i (with_state ?p e)] => set (prepare := p) end.
  assert (∀ e1, transactional_id e1 = tid → state e1 = prepare → partitions e1 = partitions e → Decided tid e1) as Hdec.
  { intros e1 Ht1 Hs1 Hp1. exists e. split_and!; [done..|]. unfold is_prepared. rewrite Hs1.
    destruct committed; [by left|by right]. }
  eapply triple_bind; [by apply (hold_store G v ms tid i)|]. intros ?. cbv beta. eapply triple_bind.
  { apply triple_or_code. eapply triple_conseq; [apply hold_completion|intros ? H; exact H|intros ? ? H; exact H|].
    intros c [Hc _]. eapply decided_unsettled; [|exact Hc]. by apply Hdec. }
  intros e1. apply triple_pure. intros (Ht1 & Hs1 & Hp1). simpl in Ht1, Hs1, Hp1. cbv zeta.
  eapply triple_bind; [apply (hold_store G _ ms tid i); simpl; congruence|]. intros ?.
  apply triple_ret. intros c [Hc _]. cbn [fst snd]. rewrite insert_insert_eq in Hc. split; [|done].
  split_and!; [|by destruct committed|done]. apply Hdec; simpl; congruence.
Qed.

(** The entry that completes a decided one, wherever it is written. *)
Lemma decided_finished (tid : Tid) e1 e2 ty :
  Decided tid e1 → state e2 ≠ Ongoing → ¬ is_prepared e2 → partitions e2 = ∅ →
  simulates G (finished tid ty s) (<[tid := e2]> (<[tid := e1]> v)) (ms ++ markers_of G e1 ty).
Proof.
  intros (e & He & Hst & Hps & Ht1 & Hp1) Hst2 Hp2 Hps2. rewrite insert_insert_eq. by eapply sim_finished.
Qed.

Lemma dispatch_post tid e1 ty :
  Decided tid e1 →
  triple (Holds G (<[tid := e1]> v) ms) (dispatch_transaction_markers e1 ty)
    (fun _ => Holds G (<[tid := e1]> v) (ms ++ markers_of G e1 ty)) (Post G r false s).
Proof.
  intros Hd. eapply triple_conseq; [apply hold_dispatch|done|done|].
  intros c [ms' Hc]. by eapply decided_unsettled.
Qed.

Lemma put_decided tid e1 txnv :
  Decided tid e1 →
  triple (Holds G (<[tid := e1]> v) ms) (put e1 txnv) (fun _ => Holds G (<[tid := e1]> v) ms) (Post G r false s).
Proof.
  intros Hd. pose proof Hd as (_ & _ & _ & _ & Ht & _).
  eapply triple_conseq; [apply hold_put_same; by rewrite Ht, lookup_insert_eq|done|done|].
  intros c Hc. by eapply decided_unsettled.
Qed.

Lemma end_txn_post led allowed q txnv now :
  (∀ ok, service_step r ok s (finished (r_transactional_id q) (if r_committed q then Commit else Abort) s)) →
  triple (Holds G v ms) (end_txn led allowed q txnv now) (fun _ => Post G r true s) (Post G r false s).
Proof.
  intros Hstep. unfold end_txn. eapply triple_bind; [apply hold_leaders|]. intros ?.
  eapply triple_bind; [apply validate_end_post|]. intros [i|id].
  2: { apply triple_ret. intros c [Ho Hc]. apply (post_step G r true s s v ms); [|done..].
       specialize (Hstep true). by rewrite finished_closed in Hstep. }
  unfold prepare_transaction.
  eapply (triple_bind _ _ _ _ (fun x c => (Decided (r_transactional_id q) x.2 ∧
    x.1 = (if r_committed q then (PrepareCommit, CompleteCommit) else (PrepareAbort, CompleteAbort)) ∧ state x.2 = x.1.1)
    ∧ Holds G (<[r_transactional_id q := x.2]> v) ms c)).
  { eapply triple_bind; [apply prepare_lock_post|]. intros [[prepare complete] e1]. cbn [fst snd].
    apply triple_pure. intros (Hd & Hx & Hs). eapply triple_bind; [by apply triple_or_code, put_decided|].
    intros ?. by apply triple_ret. }
  intros [[prepare complete] e1]. cbn [fst snd]. apply triple_pure. intros (Hd & Hx & Hs).
  eapply triple_bind; [by apply triple_or_code, dispatch_post|]. intros ?. cbv beta.
  unfold complete_end_txn. apply hold_slot; [by rewrite lookup_insert_eq|].
  intros i' e. rewrite lookup_insert_eq. intros [= <-] Ht.
  assert (state e1 = prepare ∧ prepare ≠ complete ∧ complete ≠ Ongoing ∧ complete ≠ PrepareCommit ∧ complete ≠ PrepareAbort)
    as (Hs1 & Hne & Hc1 & Hc2 & Hc3) by (destruct (r_committed q); injection Hx as -> ->; by split_and!).
  destruct (completion_producer_identity e1) as [pid epoch].
  unfold decide_end_txn_completion, validate_complete_reacquire.
  rewrite bool_decide_eq_false_2 by congruence. cbn [andb]. rewrite !Z.eqb_refl. cbn [negb orb].
  rewrite bool_decide_eq_true_2 by done. cbv zeta.
  match goal with |- context [store i' ?x] => set (e2 := x) end.
  assert (transactional_id e2 = r_transactional_id q ∧ state e2 = complete ∧ partitions e2 = ∅) as (Ht2 & Hst2 & Hps2)
    by (unfold e2; destruct (negb _); done).
  assert (¬ is_prepared e2) as Hnp by (unfold is_prepared; rewrite Hst2; by intros []).
  pose proof (decided_finished _ e1 e2 (marker_of (r_committed q)) Hd ltac:(congruence) Hnp Hps2) as Hfin.
  eapply triple_bind; [by apply (hold_store G _ _ (r_transactional_id q) i' e2)|]. intros ?. cbv beta.
  eapply (triple_bind _ _ _ _ (fun _ => Post G r true s)); [|intros ?; by apply triple_ret].
  apply triple_or_code. eapply triple_conseq; [apply hold_put_same; rewrite Ht2; apply lookup_insert_eq|by intros c [? _]|..].
  all: intros; by eapply post_step.
Qed.

(** *** InitProducerId *)

(** Somewhere the service may be by the end of the request, [tid] having no open transaction. *)
Definition Closed (tid : Tid) (c : Coordinator) : Prop :=
  ∃ s' v' ms', (∀ ok, service_step r ok s s') ∧ simulates G s' v' ms' ∧ open_txns s' !! tid = None ∧
    is_Some (v' !! tid) ∧ Holds G v' ms' c.

Lemma open_None (tid : Tid) s' v' ms' e :
  simulates G s' v' ms' → v' !! tid = Some e → state e ≠ Ongoing → open_txns s' !! tid = None.
Proof. intros Hs He Hst. rewrite (sim_open _ _ _ _ Hs), He. simpl. by rewrite bool_decide_eq_false_2. Qed.

Lemma hold_identity {A} v' ms' (tid : Tid) i b (k : option ProducerId → option A) :
  triple (Holding G v' ms' tid i) (fresh ← fresh_when b; expect (k fresh))
    (fun _ => Holding G v' ms' tid i) (Holding G v' ms' tid i).
Proof.
  eapply triple_bind; [apply hold_fresh|]. intros fresh c Hc. by destruct (k fresh).
Qed.

Lemma keep_prepared_post (tid : Tid) i b txnv now :
  (∀ ok, service_step r ok s s) →
  triple (Holding G v ms tid i) (keep_prepared i b txnv now)
    (fun x c => match x with Some _ => Post G r true s c | None => Holding G v ms tid i c end) (Post G r false s).
Proof.
  intros Hnone. unfold keep_prepared. eapply triple_bind; [apply hold_lock|]. intros e. apply triple_pure. intros [He Ht].
  case_bool_decide as Hst; [|hguard; by apply triple_ret]. cbv zeta.
  match goal with |- context [store i (if b then ?x else ?y)] => set (e' := if b then x else y) end.
  assert (transactional_id e' = tid ∧ state e' = state e ∧ partitions e' = partitions e) as (Ht' & Hs' & Hp')
    by (unfold e'; by destruct b).
  assert (∀ e1, state e1 = state e → partitions e1 = partitions e → simulates G s (<[tid := e1]> v) ms) as Hsame
    by (intros; by eapply sim_same).
  eapply triple_bind; [by apply (hold_store G v ms tid i e')|]. intros ?. cbv beta.
  eapply (triple_bind _ _ _ _ (fun x c => (transactional_id x.1 = tid ∧ state x.1 = state e ∧ partitions x.1 = partitions e)
    ∧ Holding G (<[tid := e']> v) ms tid i c)).
  { unfold stage_recovery_identity. destruct (client_producer_identity e') as [cp ce].
    eapply (triple_bind _ _ _ _ (fun _ => Holding G (<[tid := e']> v) ms tid i)).
    - eapply triple_conseq; [|intros c H; exact H|intros ? c H; exact H|].
      + destruct (has_staged_producer_identity e'); apply hold_identity.
      + intros c [Hc _]. eapply (post_step G r false s s); [constructor| |exact Hc]. by apply Hsame.
    - intros [pid epoch]. by apply triple_ret. }
  intros [e1 [pid epoch]]. cbn [fst]. apply triple_pure. intros (Ht1 & Hs1 & Hp1).
  eapply triple_bind; [by apply (hold_store G _ ms tid i)|]. intros ?. cbv beta. rewrite insert_insert_eq.
  match goal with |- triple (Holding G (<[tid := ?x]> v) ms tid i) _ _ _ => set (e2 := x) end.
  assert (simulates G s (<[tid := e2]> v) ms) as Hsim2 by (by apply Hsame).
  eapply triple_bind.
  { eapply triple_conseq; [apply (hold_put_same G (<[tid := e2]> v) ms e2 txnv)|by intros c [? _]|intros ? c H; exact H|].
    - simpl. rewrite Ht1. apply lookup_insert_eq.
    - intros c Hc. by eapply (post_step G r false s s); [constructor|..]. }
  intros ?. apply triple_ret. intros c Hc. by eapply (post_step G r true s s).
Qed.

Lemma abort_ongoing_post (tid : Tid) i txnv now :
  (∀ ok, service_step r ok s (finished tid Abort s)) →
  triple (Holding G v ms tid i) (abort_ongoing i txnv now) (fun _ => Closed tid) (Post G r false s).
Proof.
  intros Hstep. unfold abort_ongoing. eapply triple_bind; [apply hold_lock|]. intros e. apply triple_pure. intros [He Ht].
  case_bool_decide as Hst.
  2: { apply triple_ret. intros c [Hc _]. assert (open_txns s !! tid = None) as Ho by (by eapply open_None).
       rewrite finished_closed in Hstep by done. by exists s, v, ms. }
  cbv zeta. assert (∀ e1, transactional_id e1 = tid → state e1 = PrepareAbort → partitions e1 = partitions e → Decided tid e1) as Hdec.
  { intros e1 Ht1 Hs1 Hp1. exists e. split_and!; [done..|]. by right. }
  eapply triple_bind; [by apply (hold_store G v ms tid i)|]. intros ?. cbv beta. eapply triple_bind.
  { eapply triple_conseq; [apply hold_completion|intros ? H; exact H|intros ? ? H; exact H|].
    intros c [Hc _]. eapply decided_unsettled; [|exact Hc]. by apply Hdec. }
  intros e1. apply triple_pure. intros (Ht1 & Hs1 & Hp1). simpl in Ht1, Hs1, Hp1.
  eapply triple_bind; [apply (hold_store G _ ms tid i); simpl; congruence|]. intros ?. cbv beta. rewrite insert_insert_eq.
  match goal with |- triple (Holding G (<[tid := ?x]> v) ms tid i) _ _ _ => set (e2 := x) end.
  assert (Decided tid e2) as Hd by (apply Hdec; simpl; congruence).
  assert (transactional_id e2 = tid) as Ht2 by (simpl; congruence).
  eapply triple_bind.
  { eapply triple_conseq; [apply (put_replaces G (<[tid := e2]> v) ms tid i e2); [apply lookup_insert_eq|done]|done|intros ? ? H; exact H|].
    intros c Hc. by eapply decided_unsettled. }
  intros ?. cbv beta. eapply triple_bind.
  { eapply triple_conseq; [apply (dispatch_replaced G (<[tid := e2]> v) ms tid i e2 e2)|done|intros ? ? H; exact H|].
    intros c [ms' Hc]. by eapply decided_unsettled. }
  intros ?. cbv beta. eapply triple_bind; [apply lock_replaced|]. intros e3. apply triple_pure. intros ->.
  destruct (completion_producer_identity _) as [pid epoch].
  match goal with |- context [store i ?x] => set (e4 := x) end.
  assert (transactional_id e4 = tid ∧ state e4 = CompleteAbort ∧ partitions e4 = ∅) as (Ht4 & Hs4 & Hp4)
    by (unfold e4; destruct (negb _); done).
  eapply triple_bind; [by apply store_replaced|]. intros ?. cbv beta. eapply triple_bind.
  { eapply triple_conseq; [apply hold_put|done|intros ? ? H; exact H|]. intros c Hc. by eapply decided_unsettled. }
  intros ?. cbv beta. apply triple_ret. rewrite Ht4. intros c Hc.
  pose proof (decided_finished tid e2 e4 Abort Hd ltac:(congruence) ltac:(unfold is_prepared; rewrite Hs4; by intros []) Hp4) as Hfin.
  exists (finished tid Abort s), (<[tid := e4]> (<[tid := e2]> v)), (ms ++ markers_of G e2 Abort).
  split_and!; [done|done| |rewrite lookup_insert_eq; by eexists|done].
  eapply open_None; [exact Hfin|apply lookup_insert_eq|congruence].
Qed.

Lemma reinitialise_post existing b (tid : Tid) txnv timeout now :
  triple (Closed tid) (reinitialise existing b tid txnv timeout now) (fun _ => Post G r true s) (Post G r false s).
Proof.
  intros c (s' & v' & ms' & Hstep & Hsim' & Ho & [e He] & Hc).
  assert (∃ i, slots c !! tid = Some i) as [i Hs].
  { destruct Hc as [[_ Hv] _]. specialize (Hv tid). unfold view in Hv. rewrite He in Hv.
    destruct (slots c !! tid) as [i|]; [by exists i|done]. }
  destruct (holding_entry G v' ms' tid i c (conj Hc Hs)) as (e' & _ & Hce & _).
  unfold reinitialise. rewrite run_gets. unfold get. rewrite Hs. cbn [default]. cbv zeta.
  rewrite (run_lock i e') by done.
  assert (∀ c, Holding G v' ms' tid i c → Post G r false s c) as Hpost by (intros c' [Hc' _]; by eapply post_step).
  match goal with |- match (?m c).2 with _ => _ end =>
    enough (triple (Holding G v' ms' tid i) m (fun _ => Post G r true s) (Post G r false s)) as H by (by apply H) end.
  clear c Hc Hs Hce. eapply (triple_bind _ _ _ _ (fun _ => Holding G v' ms' tid i)).
  { destruct (b && verified txnv); [by apply triple_ret|]. unfold next_init_producer_identity.
    destruct (client_producer_identity e') as [pid epoch].
    eapply triple_conseq; [|intros c H; exact H|intros ? ? H; exact H|exact Hpost].
    destruct (verified txnv); [apply hold_identity|]. destruct (checked_succ epoch); [by apply triple_ret|].
    intros c Hc. pose proof (hold_fresh G v' ms' tid i true c Hc) as Hf. unfold fresh_when, mbind, M_bind in Hf.
    by destruct (allocate c) as [c' [[]|]]. }
  intros id. cbv zeta. pose proof (sim_replaced G s' v' ms' Hsim' tid (new_empty tid id.1 id.2 timeout now) Ho) as Hsim2.
  specialize (Hsim2 ltac:(done) ltac:(by intros []) ltac:(done)).
  eapply triple_bind; [by apply (hold_store G v' ms' tid i)|]. intros ?. cbv beta.
  eapply (triple_bind _ _ _ _ (fun _ => Post G r true s)); [|intros ?; by apply triple_ret].
  eapply triple_conseq; [apply hold_put_same; apply lookup_insert_eq|by intros c [? _]|..].
  all: intros; by eapply post_step.
Qed.

Lemma handle_transactional_post (tid : Tid) txnv timeout b k now :
  (∀ ok, service_step r ok s (finished tid Abort s)) → (k = true → ∀ ok, service_step r ok s s) →
  triple (Holds G v ms) (handle_transactional tid txnv timeout b k now) (fun _ => Post G r true s) (Post G r false s).
Proof.
  intros Hstep Hkeep. unfold handle_transactional. intros c Hc. rewrite run_gets. unfold get.
  destruct (slots c !! tid) as [i|] eqn:Hs.
  - enough (triple (Holding G v ms tid i)
      (answer ← (if k then keep_prepared i b txnv now else mret None);
       match answer with
       | Some resp => mret resp
       | None => aborted_ongoing ← abort_ongoing i txnv now; reinitialise i aborted_ongoing tid txnv timeout now
       end) (fun _ => Post G r true s) (Post G r false s)) as H by (by apply H).
    eapply (triple_bind _ _ _ _ (fun x c => match x with Some _ => Post G r true s c | None => Holding G v ms tid i c end)).
    { destruct k; [by apply keep_prepared_post, Hkeep|by apply triple_ret]. }
    intros [resp|]; [by apply triple_ret|]. eapply triple_bind; [by apply abort_ongoing_post|].
    intros ab. apply reinitialise_post.
  - assert (open_txns s !! tid = None) as Ho.
    { rewrite (sim_open _ _ _ _ Hsim). destruct Hc as [[_ Hv] _]. rewrite <- Hv. unfold view. by rewrite Hs. }
    match goal with |- match (?m c).2 with _ => _ end =>
      enough (triple (Holds G v ms) m (fun _ => Post G r true s) (Post G r false s)) as H by (by apply H) end.
    clear c Hc Hs. eapply (triple_bind _ _ _ _ (fun _ => Holds G v ms)).
    { intros c Hc. unfold allocate, draw, mbind, M_bind, gets, modify, mret, M_ret.
      destruct (io c) as [|[] bs]; cbn; [..|apply post_same]; by eapply holds_same; [..|exact Hc]. }
    intros [pid epoch]. eapply (triple_bind _ _ _ _ (fun _ => Post G r true s)); [|intros ?; by apply triple_ret].
    eapply triple_conseq; [apply hold_put|done|..]; [|exact post_same].
    intros ? c Hc. rewrite finished_closed in Hstep by done. eapply (post_step G r true s s); [done| |exact Hc]. simpl.
    by apply sim_replaced; [..|intros []|].
Qed.

Lemma hold_materialize tid :
  triple (Holds G v ms) (materialize_partition tid) (fun _ => Holds G v ms) (Holds G v ms).
Proof.
  unfold materialize_partition. eapply triple_bind; [apply triple_gets|]. intros [l|]; [by apply triple_ret|].
  intros c Hc. unfold draw, mbind, M_bind, modify.
  destruct (io c) as [|[] bs]; cbn; repeat case_match; simplify_eq/=; by eapply holds_same; [..|exact Hc].
Qed.

Lemma init_post g led q txnv now :
  (∀ tid, q_transactional_id q = Some tid → ∀ ok, service_step r ok s (finished tid Abort s)) →
  (q_keep_prepared_txn q = true → ∀ ok, service_step r ok s s) →
  (q_transactional_id q = None ∨ q_transactional_id q = Some [] → ∀ ok, service_step r ok s s) →
  triple (Holds G v ms) (init_producer_id g led q txnv now) (fun _ => Post G r true s) (Post G r false s).
Proof.
  intros Hstep Hkeep Hplain. unfold init_producer_id. destruct (q_transactional_id q) as [[|b tid]|].
  2: { cbv zeta. do 5 hguard. eapply triple_bind; [apply hold_leaders|]. intros ?.
       eapply triple_bind; [apply triple_gets|]. intros mine. hguard.
       eapply triple_bind; [eapply triple_conseq; [apply hold_materialize|..]; eauto|]. intros ?.
       destruct (resolve_txn_timeout _ _ _ _) as [timeout|]; [|apply triple_fail; auto].
       apply handle_transactional_post; [by apply Hstep|done]. }
  all: hguard; intros c Hc.
  all: unfold allocate, draw, mbind, M_bind, gets, modify, mret, M_ret.
  all: destruct (io c) as [|[] bs]; cbn; (apply post_nothing; [apply Hplain; (by left) || (by right)|by eapply holds_same; [..|exact Hc]]).
Qed.

Lemma add_partitions_post led allowed denied tid pid epoch topics txnv b now :
  (∀ ok, service_step r ok s (joined tid (list_to_set (mjoin (map (fun t => pair t.1 <$> t.2)
    (filter (fun t => t.1 ∉ denied) topics)))) s)) → (∀ ok, service_step r ok s s) →
  (∀ s', service_step r false s s' → service_step r true s s') →
  triple (Holds G v ms) (add_partitions_to_txn led allowed denied tid pid epoch topics txnv b now)
    (fun _ => Post G r true s) (Post G r false s).
Proof.
  intros Hstep Hnone Hrows. unfold add_partitions_to_txn. eapply triple_bind; [apply hold_leaders|]. intros ?.
  destruct (negb allowed); [apply triple_ret; eauto using post_nothing|].
  unfold process_one_txn. eapply triple_bind; [apply triple_gets|]. intros mine.
  destruct (negb mine); [apply triple_ret; eauto using post_nothing|]. intros c Hc. rewrite run_gets. unfold get.
  destruct (slots c !! tid) as [i|] eqn:Hs; [|by apply post_nothing]. destruct (verified txnv && b).
  - destruct (holding_entry G v ms tid i c (conj Hc Hs)) as (e & _ & He & _).
    unfold verify_only_rows. rewrite (run_lock i e) by done. apply (post_nothing true) in Hc; [|done]. by repeat case_match.
  - cbv zeta. pose proof (register_post tid pid epoch _ txnv now Hstep c Hc) as H.
    unfold code_of, mbind, M_bind. destruct (register_partitions _ _ _ _ _ _ c) as [c' [[]|[]]]; simpl in *; [done| |done].
    intros Hset. destruct (H Hset) as (s' & Hs' & ?). exists s'. auto.
Qed.
End requests.

(** ** The reaper *)
Section reaper.
Context (G : gset TopicPartition).

(** One transaction was aborted, or is left decided. *)
Definition Reaped (v : gmap Tid TxnEntry) (ms : list Marker) (tid : Tid) (c : Coordinator) : Prop :=
  ∃ e e1 e2, v !! tid = Some e ∧ (state e = Ongoing ∨ state e = PrepareAbort) ∧ partitions e1 = partitions e ∧
    state e2 = CompleteAbort ∧ partitions e2 = ∅ ∧ Holds G (<[tid := e2]> v) (ms ++ markers_of G e1 Abort) c.
Definition Stuck (v : gmap Tid TxnEntry) (tid : Tid) (c : Coordinator) : Prop :=
  ∃ e1 ms', is_prepared e1 ∧ Holds G (<[tid := e1]> v) ms' c.

Lemma prepare_abort_spec v ms (tid : Tid) now txnv :
  triple (Holds G v ms) (prepare_abort tid now txnv)
    (fun e1 c => (∃ e, v !! tid = Some e ∧ (state e = Ongoing ∨ state e = PrepareAbort) ∧ partitions e1 = partitions e ∧
                    transactional_id e1 = tid ∧ state e1 = PrepareAbort) ∧ Holds G (<[tid := e1]> v) ms c)
    (fun c => Holds G v ms c ∨ Stuck v tid c).
Proof.
  unfold prepare_abort. apply hold_slot; [intros _; apply triple_fail; auto|]. intros i e He Ht.
  case_bool_decide as Hst.
  { apply triple_ret. intros c [Hc _]. rewrite insert_id by done. split; [|done]. exists e. auto 6. }
  destruct (negb (should_abort_idle_txn _ _ _ _)) eqn:Hidle; [apply triple_fail; intros c [? _]; auto|].
  assert (state e = Ongoing) as Hon.
  { unfold should_abort_idle_txn in Hidle. case_bool_decide; [done|]. done. }
  cbv zeta. assert (∀ e1 ms' c, state e1 = PrepareAbort → Holds G (<[tid := e1]> v) ms' c → Holds G v ms c ∨ Stuck v tid c) as Hstuck.
  { intros e1 ms' c Hs Hc. right. exists e1, ms'. split; [by right|done]. }
  eapply triple_bind; [by apply (hold_store G v ms tid i)|]. intros ?. cbv beta. eapply triple_bind.
  { eapply triple_conseq; [apply hold_completion|intros ? H; exact H|intros ? ? H; exact H|].
    intros c [Hc _]. by eapply Hstuck; [|exact Hc]. }
  intros e1. apply triple_pure. intros (Ht1 & Hs1 & Hp1). simpl in Ht1, Hs1, Hp1.
  eapply triple_bind; [apply (hold_store G _ ms tid i); congruence|]. intros ?. cbv beta. rewrite insert_insert_eq.
  eapply triple_bind.
  { eapply triple_conseq; [apply (hold_put_same G (<[tid := e1]> v) ms e1)|by intros c [? _]|intros ? ? H; exact H|].
    - rewrite Ht1, Ht. apply lookup_insert_eq.
    - intros c. by apply Hstuck. }
  intros ?. apply triple_ret. intros c Hc. split; [|done]. exists e. split_and!; auto. congruence.
Qed.

Lemma reap_spec v ms (tid : Tid) now txnv :
  triple (Holds G v ms) (reap tid now txnv) (fun _ => Reaped v ms tid)
    (fun c => Holds G v ms c ∨ Stuck v tid c ∨ Reaped v ms tid c).
Proof.
  unfold reap. eapply triple_bind; [apply triple_gets|]. intros mine.
  destruct mine; [|apply triple_fail; auto].
  eapply (triple_bind _ _ _ _ (fun _ => Holds G v ms)); [by apply triple_ret|]. intros ?.
  eapply triple_bind.
  { eapply triple_conseq; [apply prepare_abort_spec|done|intros ? ? H; exact H|]. intros c [?|?]; auto. }
  intros e1. apply triple_pure. intros (e & He & Hst & Hps & Ht1 & Hs1).
  assert (∀ ms' c, Holds G (<[tid := e1]> v) ms' c → Stuck v tid c) as Hstuck.
  { intros ms' c Hc. exists e1, ms'. split; [by right|done]. }
  eapply triple_bind.
  { eapply triple_conseq; [apply hold_dispatch|done|intros ? ? H; exact H|]. intros c [ms' Hc]. eauto. }
  intros ?. cbv beta. unfold complete_abort. rewrite Ht1.
  eapply (triple_bind _ _ _ _ (fun _ => Reaped v ms tid)); [|intros ?; by apply triple_ret].
  apply hold_slot; [by rewrite lookup_insert_eq|]. intros i e'. rewrite lookup_insert_eq. intros [= <-] _.
  destruct (negb _); [apply triple_fail; intros c [Hc _]; eauto|].
  destruct (completion_producer_identity e1) as [pid epoch]. cbv zeta.
  set (e2 := apply_complete_abort pid epoch now e1).
  assert (transactional_id e2 = tid ∧ state e2 = CompleteAbort ∧ partitions e2 = ∅) as (Ht2 & Hs2 & Hp2)
    by (unfold e2, apply_complete_abort; destruct (negb _); done).
  assert (∀ c, Holds G (<[tid := e2]> (<[tid := e1]> v)) (ms ++ markers_of G e1 Abort) c → Reaped v ms tid c) as Hr.
  { intros c Hc. rewrite insert_insert_eq in Hc. exists e, e1, e2. auto 7. }
  eapply triple_bind; [by apply (hold_store G _ _ tid i e2)|]. intros ?. cbv beta.
  eapply (triple_bind _ _ _ _ (fun _ => Reaped v ms tid)); [|intros ?; by apply triple_ret].
  eapply triple_conseq; [apply hold_put_same; rewrite Ht2; apply lookup_insert_eq|by intros c [? _]|..]; auto.
Qed.

(** Where a sweep is, with [rest] still to visit. *)
Definition sweeping (s : Service) (rest : list Tid) (c : Coordinator) : Prop :=
  (∃ tids, Sim G (foldl (fun s tid => finished tid Abort s) s tids) c) ∨
  (∃ tid e v ms, (tid ∉ rest) ∧ Holds G v ms c ∧ v !! tid = Some e ∧ is_prepared e).

Lemma reaped_sim s v ms (tid : Tid) c :
  simulates G s v ms → Reaped v ms tid c → Sim G (finished tid Abort s) c.
Proof.
  intros Hsim (e & e1 & e2 & He & Hst & Hps & Hs2 & Hp2 & Hc).
  destruct Hst as [Hst|Hst]; [|exfalso; apply (sim_settled _ _ _ _ Hsim tid e He); by right].
  eexists _, _. split; [exact Hc|]. eapply (sim_finished G s v ms Hsim tid e e1 e2); try done.
  - congruence.
  - unfold is_prepared. rewrite Hs2. by intros [].
Qed.

Lemma reap_sweeping s (tid : Tid) rest now txnv c :
  tid ∉ rest → sweeping s (tid :: rest) c → sweeping s rest (reap tid now txnv c).1.
Proof.
  intros Hnin [[tids (v & ms & Hc & Hsim)]|(tid0 & e0 & v & ms & Hn0 & Hc & He0 & Hp0)];
    pose proof (reap_spec v ms tid now txnv c Hc) as Hr.
  - assert (Holds G v ms (reap tid now txnv c).1 ∨ Stuck v tid (reap tid now txnv c).1 ∨ Reaped v ms tid (reap tid now txnv c).1) as Hcases
      by (destruct ((reap tid now txnv c).2); tauto).
    destruct Hcases as [H|[(e1 & ms' & Hp & H)|H]].
    + left. exists tids. by exists v, ms.
    + right. exists tid, e1, (<[tid := e1]> v), ms'. rewrite lookup_insert_eq. done.
    + left. exists (tids ++ [tid]). rewrite foldl_app. simpl. by eapply reaped_sim.
  - apply not_elem_of_cons in Hn0 as [Hne Hn0]. right. exists tid0, e0.
    assert (∃ v' ms', Holds G v' ms' (reap tid now txnv c).1 ∧ v' !! tid0 = Some e0) as (v' & ms' & H & Hv').
    { assert (∀ e, (<[tid := e]> v) !! tid0 = Some e0) as Hins by (intros; by rewrite lookup_insert_ne).
      destruct ((reap tid now txnv c).2).
      - destruct Hr as (? & ? & e2 & _ & _ & _ & _ & _ & H). eauto.
      - destruct Hr as [H|[(e1 & ms' & _ & H)|(? & ? & e2 & _ & _ & _ & _ & _ & H)]]; eauto. }
    exists v', ms'. done.
Qed.

Lemma sweep_sweeping s cands now txnv c :
  NoDup cands → sweeping s cands c → sweeping s [] (sweep_with_backend cands now txnv c).1.
Proof.
  revert c. induction cands as [|tid cands IH]; intros c Hnd Hs; [done|]. apply NoDup_cons in Hnd as [Hnin Hnd].
  pose proof (reap_sweeping s tid cands now txnv c Hnin Hs) as H. simpl. unfold mbind, M_bind, catch.
  destruct (reap tid now txnv c) as [c1 res]. simpl in *. specialize (IH c1 Hnd H).
  by destruct (sweep_with_backend cands now txnv c1) as [c2 [aborted|]].
Qed.

Lemma sweep_post ok s led txnv now c : Sim G s c → Post G (Sweep led) ok s (sweep_once led txnv now c).1.
Proof.
  intros (v & ms & Hc & Hsim). unfold sweep_once, mbind, M_bind. cbn.
  assert (sweeping s ((map_to_list (slots c)).*1) (set_leaders led c)) as H0.
  { left. exists []. exists v, ms. split; [|done]. by eapply holds_same; [..|exact Hc]. }
  apply (sweep_sweeping _ _ now txnv) in H0; [|apply NoDup_fst_map_to_list].
  intros Hset. destruct H0 as [[tids H]|(tid & e & v' & ms' & _ & H & He & Hp)].
  - eexists. split; [apply (step_sweep led tids)|exact H].
  - exfalso. destruct H as [[_ Hv] _]. apply (Hset tid e); [by rewrite Hv|done].
Qed.
End reaper.

(** ** Runs *)

(** Whether a request is answered without an error. *)
Definition is_ok {A} (x : Coordinator * result Failure A) : bool := match x.2 with Ok _ => true | Err _ => false end.
Definition answered (r : Request) (txnv : TxnVersion) (now : Z) (c : Coordinator) : bool :=
  match r with
  | Init g led q => is_ok (init_producer_id g led q txnv now c)
  | AddPartitions led allowed denied tid id topics v =>
      is_ok (add_partitions_to_txn led allowed denied tid id.1 id.2 topics txnv v now c)
  | AddOffsets led tid id part => is_ok (add_offsets_to_txn led tid id.1 id.2 part txnv now c)
  | Produce b id tp => is_ok (validate_transactional_produce b id.1 id.2 tp txnv now c)
  | EndTxn led allowed q => is_ok (end_txn led allowed q txnv now c)
  | Sweep led => is_ok (sweep_once led txnv now c)
  end.
(** The requests of a run with their answers. *)
Fixpoint trace (rs : list (Request * TxnVersion * Z)) (c : Coordinator) : list (Request * bool) :=
  match rs with
  | [] => []
  | (r, txnv, now) :: rs => (r, answered r txnv now c) :: trace rs (serve r txnv now c)
  end.
(** Every request leaves the coordinator settled. *)
Fixpoint settles (rs : list (Request * TxnVersion * Z)) (c : Coordinator) : Prop :=
  match rs with
  | [] => True
  | (r, txnv, now) :: rs => settled (serve r txnv now c) ∧ settles rs (serve r txnv now c)
  end.

Lemma post_of_triple {A} G v ms r s (m : M A) c :
  triple (Holds G v ms) m (fun _ => Post G r true s) (Post G r false s) → Holds G v ms c →
  Post G r (is_ok (m c)) s (m c).1.
Proof. intros H Hc. specialize (H c Hc). unfold is_ok. by destruct ((m c).2). Qed.

Lemma serve_post G s r txnv now c : Sim G s c → Post G r (answered r txnv now c) s (serve r txnv now c).
Proof.
  intros Hs. destruct r; [| | | | |by apply sweep_post]; destruct Hs as (v & ms & Hc & Hsim); simpl;
    apply (post_of_triple G v ms); try done.
  - apply init_post; [done|by constructor|by constructor 3|by constructor 4].
  - apply add_partitions_post; [done|by constructor 5|by constructor 6|].
    intros s'. inversion 1; subst; by (constructor 5 || constructor 6).
  - apply offsets_post; [done|by constructor].
  - apply produce_post; [done|by constructor|by constructor 9].
  - apply end_txn_post; [done|by constructor].
Qed.

(** C5. Transactions have atomic outcomes.  The coordinator refines the service: for
    every run from an empty coordinator, whatever fails on the way, in which no request
    leaves a transaction between its decision and its completion, there is a run of the
    service with the same requests and answers, where a request that is answered has
    done what it asks.  The markers written are then one for each partition of each
    ended transaction that still exists, with the outcome of that transaction, and the
    open transactions of both agree. *)
Theorem outcomes_are_atomic rs c :
  slots c = ∅ → markers c = [] → settles rs c →
  ∃ s, service_run (trace rs c) (mkService ∅ []) s ∧
    shown (markers (run rs c)) = outcomes (gone c) (ended s) ∧
    ∀ tid, open_txns s !! tid = open_of (view (run rs c) tid).
Proof.
  intros Hs Hm Hset.
  assert (Sim (gone c) (mkService ∅ []) c) as Hsim.
  { exists ∅, []. split; [split; [split|done]|].
    - intros tid i. by rewrite Hs.
    - intros tid. unfold view. by rewrite Hs, lookup_empty.
    - split; try done; intros tid; by rewrite lookup_empty. }
  revert Hset Hsim. generalize (mkService ∅ []) (gone c). clear Hs Hm. intros s0 G. revert s0 c.
  induction rs as [|[[r txnv] now] rs IH]; intros s0 c Hset Hsim; simpl in *.
  - exists s0. split; [constructor|]. destruct Hsim as (v & ms & [[_ Hv] [Hm _]] & Hsim).
    split; [rewrite Hm; apply Hsim|]. intros tid. rewrite Hv. apply Hsim.
  - destruct Hset as [H1 Hset]. destruct (serve_post G s0 r txnv now c Hsim H1) as (s1 & Hstep & Hsim1).
    destruct (IH s1 _ Hset Hsim1) as (s & Hrun & Hrest). exists s. split; [by econstructor|exact Hrest].
Qed.

(** [settles] by evaluation. *)
Definition settledb (c : Coordinator) : bool :=
  forallb (fun i => match cells c !! i with
                    | Some e => negb (bool_decide (state e = PrepareCommit) || bool_decide (state e = PrepareAbort))
                    | None => true
                    end) (map_to_list (slots c)).*2.
Fixpoint settlesb (rs : list (Request * TxnVersion * Z)) (c : Coordinator) : bool :=
  match rs with
  | [] => true
  | (r, txnv, now) :: rs => let c := serve r txnv now c in settledb c && settlesb rs c
  end.
Lemma settledb_settled c : settledb c = true → settled c.
Proof.
  unfold settledb. rewrite forallb_forall. intros H tid e He. unfold view in He.
  destruct (slots c !! tid) as [i|] eqn:Hs; [simpl in He|done]. specialize (H i).
  rewrite He in H. apply elem_of_map_to_list in Hs.
  assert (i ∈ (map_to_list (slots c)).*2) as Hin by (apply list_elem_of_fmap; by exists (tid, i)).
  apply list_elem_of_In in Hin. specialize (H Hin). intros [Hp|Hp]; by rewrite Hp in H.
Qed.
Lemma settlesb_settles rs c : settlesb rs c = true → settles rs c.
Proof.
  revert c. induction rs as [|[[r txnv] now] rs IH]; intros c; simpl; [done|].
  intros [H1 H2]%andb_true_iff. auto using settledb_settled.
Qed.

(** A transaction over two partitions commits, and the next one is reaped. *)
Definition sample_run : list (Request * TxnVersion * Z) :=
  [(Init sample_gates {[0]} sample_init, Verified, 10);
   (AddPartitions {[0]} true ∅ [x74] (7, 0) [([x61], [0; 1])] false, Verified, 20);
   (EndTxn {[0]} true (mkEnd [x74] 7 0 true), Verified, 30);
   (AddOffsets {[0]} [x74] (7, 1) ([x62], 0), Verified, 40);
   (Sweep {[0]}, Verified, 1000000)].

Lemma outcomes_are_atomic_witness :
  ∃ s, service_run (trace sample_run sample_start) (mkService ∅ []) s ∧
    shown (markers (run sample_run sample_start)) = outcomes ∅ (ended s).
Proof.
  destruct (outcomes_are_atomic sample_run sample_start) as (s & H1 & H2 & _).
  - reflexivity.
  - reflexivity.
  - apply settlesb_settles. vm_compute. reflexivity.
  - exists s. split; [exact H1|exact H2].
Defined.
Example sample_markers :
  markers (run sample_run sample_start) =
  [mkMarker ([x61], 0) 7 1 Commit; mkMarker ([x61], 1) 7 1 Commit; mkMarker ([x62], 0) 7 2 Abort].
Proof. vm_compute. reflexivity. Qed.
