(* ===== verification/TxnRecovery.v ===== *)
(** * Transactions: restarts

    What [put] has persisted, [recover] finds again: a coordinator that starts over the
    logs of another one holds, for each transactional id, the entry of the last record
    of that id. *)

From S2P Require Import Prelude Wire StringBytes TxnState TxnLog TxnCoord TxnInv.

(** The effect of one record on the entry of [tid]. *)
Definition replay_entry (tid : Tid) (acc : option TxnEntry) (r : LogRecord) : option TxnEntry :=
  match decode_key r.1 with
  | Err _ => acc
  | Ok t =>
      if bool_decide (t = tid) then
        match r.2 with
        | None => None
        | Some v => match decode_value v tid with Ok e => Some e | Err _ => acc end
        end
      else acc
  end.

(** The records of a transactional id are in its partition only. *)
Definition placed (c : Coordinator) : Prop :=
  ∀ p l r tid, logs c !! p = Some l → r ∈ l → decode_key r.1 = Ok tid → partition_for tid c = Some p.

Definition indexed (c : Coordinator) : Prop := ∀ tid i, slots c !! tid = Some i → (i < length (cells c))%nat.

Lemma decode_value_tid bs tid e : decode_value bs tid = Ok e → transactional_id e = tid.
Proof.
  unfold decode_value. intros H.
  repeat match type of H with
  | mbind _ _ = Ok _ => apply bind_Ok in H as (? & _ & H)
  | context [match ?x with pair _ _ => _ end] => destruct x
  end.
  destruct (negb _); [done|]. by inv_ok.
Qed.

Lemma view_install c e tid ls ps :
  indexed c →
  view (install ls (cells c ++ [e]) (<[transactional_id e := length (cells c)]> (slots c)) ps c) tid
  = if bool_decide (transactional_id e = tid) then Some e else view c tid.
Proof.
  intros Hi. unfold view. simpl. case_bool_decide as Ht.
  - subst tid. rewrite lookup_insert_eq. simpl. by rewrite lookup_app_r, Nat.sub_diag by lia.
  - rewrite lookup_insert_ne by done. destruct (slots c !! tid) as [i|] eqn:Hs; [simpl|done].
    by rewrite lookup_app_l by (by eapply Hi).
Qed.

Lemma replay_view c r tid :
  indexed c →
  indexed (replay c r) ∧ view (replay c r) tid = replay_entry tid (view c tid) r ∧
  logs (replay c r) = logs c ∧ num_partitions (replay c r) = num_partitions c.
Proof.
  intros Hi. unfold replay, replay_entry. destruct (decode_key r.1) as [t|]; [|done].
  destruct r.2 as [bs|].
  - destruct (decode_value bs t) as [e|] eqn:He.
    + apply decode_value_tid in He as Ht. split; [|split; [|done]].
      * intros t' i. simpl. rewrite length_app. simpl. destruct (decide (transactional_id e = t')) as [<-|].
        -- rewrite lookup_insert_eq. intros [= <-]. lia.
        -- rewrite lookup_insert_ne by done. intros H%Hi. lia.
      * rewrite view_install by done. rewrite Ht. case_bool_decide as Htt; [|done]. by rewrite <- Htt, He.
    + split; [done|]. split; [|done]. case_bool_decide as Htt; [|done]. by rewrite <- Htt, He.
  - split; [|split; [|done]].
    + intros t' i. simpl. rewrite lookup_delete_Some. intros [_ ?]. by eapply Hi.
    + unfold view. simpl. case_bool_decide as Htt; [subst t; by rewrite lookup_delete_eq|by rewrite lookup_delete_ne].
Qed.

Lemma replay_all c l tid :
  indexed c →
  indexed (foldl replay c l) ∧ view (foldl replay c l) tid = foldl (replay_entry tid) (view c tid) l ∧
  logs (foldl replay c l) = logs c ∧ num_partitions (foldl replay c l) = num_partitions c.
Proof.
  revert c. induction l as [|r l IH]; intros c Hi; simpl; [done|].
  destruct (replay_view c r tid Hi) as (H1 & H2 & H3 & H4). destruct (IH _ H1) as (K1 & K2 & K3 & K4).
  by rewrite K2, K3, K4, H2, H3, H4.
Qed.

(** Records of other ids change nothing. *)
Lemma replay_foreign tid acc l :
  (∀ r, r ∈ l → decode_key r.1 ≠ Ok tid) → foldl (replay_entry tid) acc l = acc.
Proof.
  revert acc. induction l as [|r l IH]; intros acc Hl; simpl; [done|].
  rewrite IH by set_solver. unfold replay_entry. destruct (decode_key r.1) as [t|] eqn:Hk; [|done].
  rewrite bool_decide_eq_false_2; [done|]. intros ->. by eapply (Hl r); [set_solver|].
Qed.

Lemma recover_partitions c ps tid p :
  indexed c → placed c → partition_for tid c = Some p → NoDup ps →
  view (foldl (fun c q => foldl replay c (default [] (logs c !! q))) c ps) tid =
    if bool_decide (p ∈ ps) then foldl (replay_entry tid) (view c tid) (default [] (logs c !! p)) else view c tid.
Proof.
  intros Hi Hpl Hp Hnd. revert c Hi Hpl Hp. induction ps as [|q ps IH]; intros c Hi Hpl Hp; simpl.
  { done. }
  apply NoDup_cons in Hnd as [Hq Hnd].
  destruct (replay_all c (default [] (logs c !! q)) tid Hi) as (H1 & H2 & H3 & H4).
  rewrite IH; [|done|done| |]; [rewrite H2, H3|..].
  2: { intros p' l r t. rewrite H3. unfold partition_for. rewrite H4. apply Hpl. }
  2: { unfold partition_for. by rewrite H4. }
  destruct (decide (q = p)) as [->|Hne].
  - rewrite (bool_decide_eq_false_2 (p ∈ ps)), bool_decide_eq_true_2 by set_solver. done.
  - assert (foldl (replay_entry tid) (view c tid) (default [] (logs c !! q)) = view c tid) as ->.
    { apply replay_foreign. intros r Hr Hk. destruct (logs c !! q) as [l|] eqn:Hl; [|set_solver].
      specialize (Hpl q l r tid Hl Hr Hk). congruence. }
    rewrite (bool_decide_ext (p ∈ q :: ps) (p ∈ ps)); [done|]. set_solver.
Qed.

(** A restart finds the last record of each id whose partition it leads. *)
Lemma restart_view led c tid p :
  placed c → partition_for tid c = Some p →
  view (restart led c) tid =
    if bool_decide (p ∈ led) then foldl (replay_entry tid) None (default [] (logs c !! p)) else None.
Proof.
  intros Hpl Hp. unfold restart, recover. cbn [leader_partitions set_leaders].
  rewrite (recover_partitions _ _ tid p); [|by intros ? ?|exact Hpl|exact Hp|apply NoDup_elements].
  by rewrite (bool_decide_ext (p ∈ elements led) (p ∈ led)) by apply elem_of_elements.
Qed.

(** What [put] leaves in the log when it succeeds. *)
Lemma put_appends e txnv c c' :
  put e txnv c = (c', Ok tt) →
  ∃ p (l : list LogRecord) k v, partition_for (transactional_id e) c = Some p ∧ logs c !! p = Some l ∧
    encode_key (transactional_id e) = Some k ∧ encode_value e (flexible_records txnv) = Some v ∧
    logs c' = <[p := l ++ [(k, Some v)]]> (logs c) ∧ num_partitions c' = num_partitions c.
Proof.
  unfold put. rewrite run_gets. unfold prepare_append. intros H.
  destruct (partition_for _ c) as [p|]; [cbn [mbind option_bind] in H|done].
  destruct (logs c !! p) as [l|] eqn:Hl; [cbn [mbind option_bind] in H|done].
  destruct (encode_key _) as [k|]; [cbn [mbind option_bind] in H|done].
  destruct (encode_value _ _) as [v|]; [cbn [mbind option_bind] in H|done].
  unfold draw, modify, mbind, M_bind in H.
  exists p, l, k, v. destruct (io c) as [|[] bs]; by simplify_eq/=.
Qed.

(** The version can hold the entry: the old one has no room for other identities. *)
Definition holds (txnv : TxnVersion) (e : TxnEntry) : Prop :=
  flexible_records txnv = false → prev_producer_id e = -1 ∧ next_producer_id e = -1 ∧ next_producer_epoch e = -1.

(** C21. What was put survives a restart: once [put] has succeeded for an entry, a
    coordinator that recovers from the logs holds exactly that entry for its
    transactional id, and for every other id what it would have held before.  The
    entry is valid, its id is UTF-8 and the version of the record can hold it. *)
Theorem put_survives_restart led e txnv c c' :
  placed c → (∀ p, partition_for (transactional_id e) c = Some p → p ∈ led) →
  entry_valid e → Utf8.utf8_valid (transactional_id e) = true → holds txnv e →
  put e txnv c = (c', Ok tt) →
  placed c' ∧ view (restart led c') (transactional_id e) = Some e ∧
  ∀ tid, tid ≠ transactional_id e → is_Some (partition_for tid c) → view (restart led c') tid = view (restart led c) tid.
Proof.
  intros Hpl Hled Hv Hu Hh Hput. destruct (put_appends e txnv c c' Hput) as (p & l & k & v & Hp & Hl & Hk & Hval & Hlogs & Hnum).
  pose proof (txn_key_roundtrip _ _ Hu Hk) as Hdk. assert (∀ t, partition_for t c' = partition_for t c) as Hpf.
  { intros t. unfold partition_for. by rewrite Hnum. }
  assert (placed c') as Hpl'.
  { intros q l' r t. rewrite Hlogs, Hpf. destruct (decide (p = q)) as [<-|]; [|rewrite lookup_insert_ne by done; apply Hpl].
    rewrite lookup_insert_eq. intros [= <-] [Hr|Hr%list_elem_of_singleton]%elem_of_app; [by eapply Hpl|].
    subst r. simpl. rewrite Hdk. by intros [= <-]. }
  split; [done|]. split.
  - rewrite (restart_view led c' _ p) by (done || by rewrite Hpf). rewrite bool_decide_eq_true_2 by auto.
    rewrite Hlogs, lookup_insert_eq. cbn [default]. unfold id. rewrite foldl_app. cbn [foldl].
    unfold replay_entry at 1. cbn [fst snd]. rewrite Hdk, bool_decide_eq_true_2 by done.
    by rewrite (txn_value_roundtrip e _ v Hv Hh Hval).
  - intros tid Hne [q Hq]. rewrite (restart_view led c' _ q), (restart_view led c _ q) by (done || by rewrite Hpf).
    rewrite Hlogs. destruct (bool_decide (q ∈ led)); [|done]. destruct (decide (p = q)) as [<-|]; [|by rewrite lookup_insert_ne].
    rewrite lookup_insert_eq, Hl. cbn [default]. unfold id. rewrite foldl_app. cbn [foldl].
    unfold replay_entry at 1. cbn [fst snd]. by rewrite Hdk, bool_decide_eq_false_2 by congruence.
Qed.

(** The entry of [TxnLog.sample], put by a coordinator that has just started. *)
Lemma sample_put : snd (put sample Verified sample_start) = Ok tt.
Proof. vm_compute. reflexivity. Qed.

Lemma sample_placed : placed sample_start.
Proof.
  intros p l r tid Hl Hr. unfold sample_start, new, set_leaders in Hl. cbn [logs] in Hl.
  apply lookup_singleton_Some in Hl as [_ <-]. by apply not_elem_of_nil in Hr.
Qed.

Lemma sample_led p : partition_for (transactional_id sample) sample_start = Some p → p ∈ ({[0]} : gset Z).
Proof. intros Hp. vm_compute in Hp. injection Hp as <-. by apply elem_of_singleton. Qed.

Lemma put_survives_restart_witness :
  ∃ c', put sample Verified sample_start = (c', Ok tt) ∧
    view (restart {[0]} c') (transactional_id sample) = Some sample.
Proof.
  pose proof sample_put as Hr. destruct (put sample Verified sample_start) as [c' r] eqn:Hput.
  cbn [snd] in Hr. subst r. exists c'. split; [reflexivity|].
  destruct (put_survives_restart {[0]} sample Verified sample_start c' sample_placed sample_led sample_valid
    eq_refl ltac:(intros [=]) Hput) as (_ & H & _).
  exact H.
Defined.
