(* ===== verification/TxnMarker.v ===== *)
(** * Transactions: the markers in the partitions

    The control batch that ends a transaction ([broker/src/txn/marker.rs]), how the
    partition writer appends it ([broker/src/partition_writer.rs]), and what it does to
    the log of a partition. *)

From S2P Require Import Prelude Wire Compression Records Batches BatchStore LogIndex Segment SegmentInv.
From S2P Require Import Retention SegmentCases Compaction ProducerSnapshot StampIndex TxnCoord ProducerState Tracking Log LogInv LogCases.

Import Fixed.

Definition type_code (ty : MarkerType) : Z := match ty with Commit => 1 | Abort => 0 end.
Definition build_marker_batch (pid epoch base : Z) (ty : MarkerType) (coordinator_epoch : Z) : Batch.RecordBatch :=
  let key := put_i16 0 ++ put_i16 (type_code ty) in
  let value := put_i16 0 ++ put_i32 coordinator_epoch in
  let attrs := Attributes.with_control (Attributes.with_transactional 0 true) true in
  Batch.mkBatch base 0 attrs 0 0 0 pid epoch (-1) [mkRecord 0 0 0 (Some key) (Some value) []].

(** The writer brings a batch that it owns to the codec of the topic. *)
Definition retarget (target : option CompressionType) (b : Batch.RecordBatch) : Batch.RecordBatch :=
  match target with
  | None => b
  | Some c =>
      if bool_decide (Attributes.compression (Batch.attributes b) = c) then b else
      Batch.mkBatch (Batch.base_offset b) (Batch.partition_leader_epoch b)
        (Attributes.with_compression (Batch.attributes b) c) (Batch.last_offset_delta b) (Batch.base_timestamp b)
        (Batch.max_timestamp b) (Batch.producer_id b) (Batch.producer_epoch b) (Batch.base_sequence b) (Batch.records b)
  end.

Section Marker.
Context {source : StampSource} {store : BatchStore} {search : BinarySearch} (crc32c : list byte → Z).

(** The marker of a transaction, appended to a partition of a plain topic. *)
Definition append_marker (target : option CompressionType) (pid epoch : Z) (ty : MarkerType) (coordinator_epoch : Z) : Log.M Z :=
  base ← Log.get log_end_offset;
  Log.append crc32c (retarget target (build_marker_batch pid epoch base ty coordinator_epoch)).

(** ** What the log reads from the batch *)
Record ends (pid epoch base coordinator_epoch : Z) (ty : MarkerType) (b : Batch.RecordBatch) : Prop := {
  m_pid : Batch.producer_id b = pid;
  m_epoch : Batch.producer_epoch b = epoch;
  m_base : Batch.base_offset b = base;
  m_leader : Batch.partition_leader_epoch b = 0;
  m_delta : Batch.last_offset_delta b = 0;
  m_sequence : Batch.base_sequence b = -1;
  m_control : is_control b = true;
  m_type : Tracking.marker_type b = Some (type_code ty);
  m_coordinator : marker_coordinator_epoch b = Some coordinator_epoch;
}.

Lemma marker_ends target pid epoch base ty coordinator_epoch :
  in_s 32 coordinator_epoch →
  ends pid epoch base coordinator_epoch ty (retarget target (build_marker_batch pid epoch base ty coordinator_epoch)).
Proof.
  intros Hc.
  assert (parse_control_marker_coordinator_epoch (put_i16 0 ++ put_i32 coordinator_epoch) = Some coordinator_epoch) as Hce.
  { unfold parse_control_marker_coordinator_epoch, put_i16, put_i32.
    rewrite bool_decide_eq_false_2 by (rewrite length_app, !length_be_bytes; lia).
    rewrite Batches.signed_at_skip by (by rewrite length_be_bytes). rewrite <- (app_nil_r (be_bytes 4 _)), length_be_bytes.
    by rewrite Batches.signed_at_here by (done || lia). }
  assert (parse_control_marker_type (put_i16 0 ++ put_i16 (type_code ty)) = Some (type_code ty)) as Hty by by destruct ty.
  destruct target as [c|]; unfold retarget; [case_bool_decide|]; split; try done; by destruct c.
Qed.

(** ** The index of aborted transactions *)
#[local] Instance index_update_tracking f : Keeps active_txn_index (update_tracking f).
Proof. unfold update_tracking. keeps_steps. Qed.
#[local] Instance index_draw_stamp : Keeps active_txn_index draw_stamp.
Proof. intros l. unfold draw_stamp. by repeat case_match. Qed.
#[local] Instance index_record_stamp_value b o v : Keeps active_txn_index (record_stamp_value b o v).
Proof. intros l. unfold record_stamp_value, put_stamp_index. by repeat case_match. Qed.
#[local] Instance index_on_active {A} (f : Segment → Segment * result LogError A) : Keeps active_txn_index (on_active f).
Proof. intros l. unfold on_active. by repeat case_match. Qed.
#[local] Instance index_note_epoch e o : Keeps active_txn_index (note_epoch e o).
Proof. unfold note_epoch. keeps_steps. Qed.
#[local] Instance index_update_producers f : Keeps active_txn_index (update_producers f).
Proof. unfold update_producers. keeps_steps. Qed.

(** The entry that an abort adds for a producer with an open transaction. *)
Definition aborted_entry (ty : MarkerType) (pid last : Z) (t : Tracking) : list TxnIndex.AbortedTxn :=
  match ty, pending t !! pid with
  | Abort, Some start => [TxnIndex.mkAborted start last pid]
  | _, _ => []
  end.

Lemma finish_transaction_index b stamp ty l l' :
  is_Some (active l) → Tracking.marker_type b = Some (type_code ty) → finish_transaction b stamp l = (l', Ok tt) →
  TxnIndex.entries (active_txn_index l') =
    TxnIndex.entries (active_txn_index l) ++ aborted_entry ty (Batch.producer_id b) (batch_last b) (tracking l).
Proof.
  intros [a Ha] Hty (l1 & [] & [= <-] & H)%run_ok. apply run_ok in H as (? & ? & [= <- <-] & H).
  apply run_ok in H as (l2 & [] & H2 & H). apply run_ok in H as (l3 & [] & H3 & [= <-]).
  cbn [active_txn_index set_tracking id] in *. apply (keeps_run active_txn_index) in H3; [|keeps_steps]. rewrite H3.
  assert (pending (note_coordinator b (tracking l)) = pending (tracking l)) as Hp.
  { unfold note_coordinator. by repeat case_match. }
  cbn [tracking set_tracking active] in H2. rewrite Hp, Ha, Hty in H2. unfold aborted_entry.
  destruct (pending (tracking l) !! Batch.producer_id b) as [start|]; destruct ty; injection H2 as <-; simpl;
    by rewrite ?app_nil_r.
Qed.

Lemma append_marker_index b ty l l' a :
  active l = Some a → bytes_of a < segment_size (config l) → is_control b = true →
  Tracking.marker_type b = Some (type_code ty) → append_preserving_offset crc32c b None l = (l', Ok tt) →
  TxnIndex.entries (active_txn_index l') =
    TxnIndex.entries (active_txn_index l) ++ aborted_entry ty (Batch.producer_id b) (batch_last b) (tracking l).
Proof.
  intros Ha Hfull Hc Hty (l1 & ? & H1 & H)%run_ok. apply (keeps_run id) in H1; [|keeps_steps]. unfold id in H1. subst l1.
  apply run_ok in H as (l2 & ? & H2 & H). unfold roll_if_full in H2. rewrite run_bind in H2. unfold Log.get in H2.
  rewrite Ha, (proj2 (Z.leb_gt _ _)) in H2 by lia. injection H2 as <- _.
  apply run_ok in H as (? & iv & [= <- _] & H). apply run_ok in H as (l3 & ? & H3 & H).
  apply run_ok in H as (l4 & ? & H4 & H). rewrite Hc in H4, H. injection H4 as <- _.
  apply run_ok in H as (l5 & [] & H5 & H6). apply (keeps_run active_txn_index) in H6; [|apply _].
  assert (is_Some (active l3)) as Ha3.
  { unfold on_active in H3. rewrite Ha in H3. destruct (Segment.append a b iv). injection H3 as <- _. by eexists. }
  rewrite H6, (finish_transaction_index b None ty l3 l5 Ha3 Hty H5).
  apply (keeps_run tracking) in H3 as Ht; [|apply _]. apply (keeps_run active_txn_index) in H3; [|apply _].
  by rewrite Ht, H3.
Qed.
(** What [track] makes of a marker. *)
Lemma track_marker pid epoch base coordinator_epoch ty b log_end t t' :
  ends pid epoch base coordinator_epoch ty b → 0 ≤ pid → track log_end t b = Ok t' →
  pending t' = delete pid (pending t) ∧
  coordinator_epochs t' = <[pid := coordinator_epoch]> (coordinator_epochs t) ∧
  (delete pid (pending t) = ∅ → lso t' = log_end) ∧
  (current_txn_first_offset <$> producer_state t' !! pid) = Some None ∧
  (ProducerSnapshot.producer_epoch <$> producer_state t' !! pid) = Some epoch.
Proof.
  intros [Hpid He _ _ _ _ Hc _ Hce] Hp H. unfold track, update_owned_producer_entry in H.
  rewrite Hc, Hpid, (proj2 (Z.ltb_ge pid 0)) in H by done. injection H as <-.
  unfold close_transaction, note_coordinator. rewrite Hce, Hpid, (proj2 (Z.leb_le 0 pid)) by done.
  unfold update_marker_entry. rewrite Hpid, He. unfold advance_lso.
  case_bool_decide as Hemp; simpl in *; rewrite !lookup_insert_eq; by split_and!.
Qed.

(** C22. A marker settles the transaction of its producer in a partition: the batch
    that [build_marker_batch] makes, in whatever codec the topic asks for, is appended
    at the log end; the producer then has no open transaction and the epoch of the
    marker, other transactions stay open, an abort enters the offsets from the first
    one of the transaction to the marker into the index of aborted transactions and a
    commit enters nothing, and when no transaction is left open everything up to the
    marker is stable.  The active segment has room and there is no stamp source. *)
Theorem marker_settles_partition target pid epoch ty coordinator_epoch l xs a bs :
  let end_ := log_end_offset l in
  let b := retarget target (build_marker_batch pid epoch end_ ty coordinator_epoch) in
  0 ≤ pid → in_s 32 coordinator_epoch → contains l xs → readable l end_ → in_s 64 (end_ + 1) → 0 ≤ end_ →
  active l = Some a → bytes_of a < segment_size (config l) → bytes_of a < 2 ^ 32 → end_ - base_offset a < 2 ^ 32 →
  stamp_source l = None → batch_encode b = Ok bs → stored (b, bs) →
  ∃ l', append_marker target pid epoch ty coordinator_epoch l = (l', Ok end_) ∧ contains l' (xs ++ [(b, bs)]) ∧
    pending (tracking l') = delete pid (pending (tracking l)) ∧
    (delete pid (pending (tracking l)) = ∅ → lso (tracking l') = end_ + 1) ∧
    (ProducerSnapshot.producer_epoch <$> producer_state (tracking l') !! pid) = Some epoch ∧
    TxnIndex.entries (active_txn_index l') =
      TxnIndex.entries (active_txn_index l) ++ aborted_entry ty pid end_ (tracking l).
Proof.
  intros end_ b Hpid Hce Hcont Hr Hend H0 Ha Hfull H1 H2 Hs He Hst.
  pose proof (marker_ends target pid epoch end_ ty coordinator_epoch Hce) as Hm. fold b in Hm.
  pose proof Hm as [Mp Me Mb Ml Md Ms Mc Mt _].
  assert (at_offset end_ b = b) as Hat.
  { unfold at_offset, restamp. rewrite Ml. rewrite <- Mb at 1. rewrite <- Ml at 1. by destruct b. }
  assert (batch_last b = end_) as Hlast.
  { unfold batch_last. rewrite Mb, Md, Z.add_0_r. apply wrap_s_id; [lia|]. unfold in_s in *. lia. }
  assert (in_s 64 (Batch.base_offset b + Batch.last_offset_delta b)) as Hin.
  { rewrite Mb, Md. unfold in_s in *. lia. }
  destruct (append_accepted crc32c l b None Hs) as (l1 & [] & Happ).
  { exists a, None. split_and!; [done..|by rewrite Mb|]. unfold data_producer_tail. by rewrite Ms, orb_true_r. }
  { intros a' Ha'. replace a' with a by congruence.
    apply (adds_fits l xs (b, bs) (fun s => Segment.append s b (index_interval (config l)))); [done| |done..].
    apply append_adds; [done..|by rewrite Hlast|done]. }
  pose proof (append_preserving_offset_contains crc32c l xs b bs None Hcont Hr He Hst Mb ltac:(by rewrite Hlast) Hin) as Hadd.
  rewrite Happ in Hadd. destruct Hadd as [Hadd|[_ []]].
  destruct (note_epoch_ok (Batch.partition_leader_epoch b) end_ l1) as (l2 & Hn & Hb & Ht).
  exists l2. split.
  { unfold append_marker, Log.append. rewrite run_bind. unfold Log.get at 1. fold end_ b. rewrite run_bind. unfold Log.get at 1.
    fold end_. by rewrite Hat, run_bind, Happ, run_bind, Hn. }
  pose proof (contains_body _ _ _ Hb Hadd) as Hc2. split; [done|].
  assert (log_end_offset l1 = end_ + 1) as Hle by (apply contains_end in Hadd; cbn [fst] in Hadd; by rewrite Hadd, Hlast).
  apply (append_preserving_offset_tracks crc32c) in Happ as Htr.
  destruct (track_marker pid epoch end_ coordinator_epoch ty b _ _ _ Hm Hpid Htr) as (P1 & _ & P3 & _ & P5).
  rewrite Ht, <- Hle. split_and!; [done..|].
  apply (keeps_run active_txn_index) in Hn; [|apply _].
  by rewrite Hn, (append_marker_index b ty l l1 a Ha Hfull Mc Mt Happ), Mp, Hlast.
Qed.
End Marker.

(** ** A log at work *)
#[local] Instance counter : StampSource := {| source_state := Z; next_stamp s := (s, s + 1); observe := Z.max |}.

(** The log of [LogCases.v], with a transaction of producer 7 open since offset 3. *)
Definition open_log : Log := set_tracking (Tracking.set_pending {[7 := 3]} (fresh 4)) sample_log.
Definition sample_marker : Batch.RecordBatch := build_marker_batch 7 1 4 Abort 3.

Lemma marker_settles_partition_witness :
  ∃ l', append_marker toy_crc None 7 1 Abort 3 open_log = (l', Ok 4) ∧
    TxnIndex.entries (active_txn_index l') = [TxnIndex.mkAborted 3 4 7] ∧ lso (tracking l') = 5.
Proof.
  destruct (marker_settles_partition toy_crc None 7 1 Abort 3 open_log quartet tail (wire sample_marker))
    as (l' & H & _ & _ & Hl & _ & Hi).
  - discriminate.
  - split; [discriminate|reflexivity].
  - exact (contains_body sample_log open_log quartet eq_refl sample_log_contains).
  - exact (sample_log_readable _).
  - vm_compute. split; (reflexivity || discriminate).
  - vm_compute. discriminate.
  - reflexivity.
  - vm_compute. reflexivity.
  - vm_compute. reflexivity.
  - vm_compute. reflexivity.
  - reflexivity.
  - vm_compute. reflexivity.
  - vm_compute. reflexivity.
  - exists l'. split; [exact H|]. split; [exact Hi|exact (Hl eq_refl)].
Defined.

(** A batch of producer 7 at epoch 3. *)
Definition data (base seq : Z) : Batch.RecordBatch :=
  Batch.mkBatch base 0 16 0 10 10 7 3 seq [mkRecord 0 0 0 None None []].
Definition committed_then_marked : result LogError Tracking :=
  track_all (fresh 0) [(data 0 0, 1); (build_marker_batch 7 4 1 Commit 0, 2)].

(** The epoch of a marker fences nothing in the broker that leads the partition: the
    marker of a commit has the next epoch, but the tracker of producers is not told of
    it, and a broker that is not the coordinator knows no transactional id of the
    producer.  A late batch of the ended transaction is admitted behind the marker and
    opens a transaction that no coordinator will end; after a restart, when the tracker
    is rebuilt from the log, the same batch is fenced. *)
Theorem late_batch_reopens :
  let tracker := Dedup.commit 20 ∅ "t" 0 7 3 0 0 0 10 in
  let elsewhere := TxnCoord.new 1 ∅ 0 [] ∅ in
  match committed_then_marked with
  | Ok t =>
      pending t = ∅ ∧
      (TxnCoord.validate_transactional_produce true 7 3 ([x74], 0) TxnState.Verified 30 elsewhere).2 = Ok tt ∧
      (Dedup.check tracker "t" 0 7 3 1 0).2 = Dedup.Append ∧
      (pending <$> track 3 t (data 2 1)) = Ok {[7 := 2]} ∧
      (Dedup.check (Dedup.rebuild_from_snapshot 40 ∅ "t" 0 (map_to_list (producer_state t)).*2) "t" 0 7 3 1 0).2
        = Dedup.Fenced
  | Err _ => False
  end.
Proof. vm_compute. split_and!; reflexivity. Qed.
